(* ===== verification/_CoqProject ===== *)
-Q . S2P
Prelude.v
GoStd.v
Float.v
Net.v
Bencode.v
BencodeSpec.v
NodeID.v
Routing.v
Krpc.v
Conc.v
Credit.v
Progress.v
Accounts.v
Node.v
NodeSpec.v
Pool.v
Quits.v
PoolStart.v
Sha1.v
Metadata.v
MetadataSpec.v
Storage.v
Schema.v
Cache.v
Queue.v
Worker.v
WorkerSpec.v
Shutdown.v
Crawler.v
CrawlerSpec.v
Web.v
WebSpec.v
Json.v
JsonSpec.v
Template.v
TemplateSpec.v
Pages.v
PagesSpec.v
Main.v
MainSpec.v
Program.v
ProgramSpec.v
