(* ===== verification/Prelude.v ===== *)
(** * A verification library for bt_dht_crawler

    The program is a BitTorrent DHT crawler in Go.  Many DHT nodes answer the queries of
    other nodes; each get_peers and announce_peer they receive names a torrent.  Its hash is
    counted in a cache that writes batches to SQLite, and queued; workers connect to the
    peer, download the torrent's metadata, check it against the hash and store it.  A web
    server searches what is stored.  This library models the program file by file and proves
    what makes each part correct, alone and running next to the others.

    ** Parts and files

    - [Prelude]: outcomes of Go code (value, error, panic), fuel, machine integers, bytes,
      and the lemmas and tactics all files share ([solve_fueled] with the hint database
      [nofuel] shows that fuel suffices).  [GoStd], [Float] and [Net] are the parts of Go's
      standard library that the program computes with: [strconv], [encoding/binary],
      [encoding/hex], [sort], slices, [float64] with [%.1f], [net.IP].
    - [Bencode] is [bt/bencode.go], [BencodeSpec] its grammar and codec theorems.
    - [NodeID] is [dht/id.go], [Routing] is [dht/routing.go], [Krpc] is [dht/krpc.go].
    - [Conc] is the language of goroutines: a program is a tree of atomic sections
      ([Atomic]), choices ([Select]: channels, locks, the network, failures), [go]
      statements ([Fork]) and endless loops ([Loop], [forever]) that only their body can
      leave; [cstep] interleaves a pool of them and [cpanics] is a panic of
      one.  [Credit] adds ownership (what goroutines hold between their sections, and what
      excuses them when they wait), [Progress] ways out of loops and freedom from
      deadlock, and [Accounts] several accounts of one program.
    - [Node] is [dht/node.go] and [NodeSpec] its theorems; [Pool] is [dht/pool.go], and
      [PoolStart] shows that a pool starts; [Quits] says that none of their goroutines
      has a loop it cannot leave.
    - [Metadata] is [bt/metadata.go], over [Sha1]; [MetadataSpec] has its theorems.
    - [Storage] is what [storage/sqlite.go] does with the tables, [Schema] how it opens and
      closes the database.
    - [Cache] and [Queue] are the two types of [crawler/cache.go], [Worker] is
      [crawler/worker.go] with [WorkerSpec] (safety and single jobs) and [Shutdown]
      (liveness), and [Crawler] is [crawler/crawler.go] with [CrawlerSpec].
    - [Web] is the routes, handlers and helpers of [web/server.go] with [WebSpec]; its
      answers are written by [Json] (with the reader of [JsonSpec]) and its pages by
      [Pages] (with [PagesSpec]), over [Template], the part of [text/template] and
      [html/template] the pages use (with [TemplateSpec]).
    - [Main] is the configuration of [cmd/crawler/main.go] with [MainSpec], and [Program]
      the rest of [main]: all goroutines of the process together, with what each of them
      owes.  [ProgramSpec] has the theorems about the process, from its start.

    A type of the source is a [Record] or [Inductive] of its name, and a function a
    definition of its name; the loops, critical sections and select statements of a
    function that need a name of their own are definitions in front of it.  Errors are
    the constructors of an error type and panics those of [panic].  A Go map is a
    [gmap], or an association list where its iteration order shows; an [int] is a [Z]
    with the wrap-around of [wrapS 64] written out where the source computes.

    ** How the parts meet

    A component's goroutines are programs over its own state ([World], [CacheWorld],
    [QueueWorld], [Workers]); [lift] runs them inside a larger state.  [Pool] holds the
    worlds of its nodes and the shared event channel, [Workers] the queue, the database and
    the pool, and [Crawler] all of that with the cache, so that the theorems about a
    component's goroutines carry over to the whole ([owes_lift], [prog_ok_lift]).

    ** What is proved

    - Codecs.  [decode] accepts exactly the bencode grammar; encoding and decoding are
      inverse up to the order of dictionary keys; KRPC messages, compact node and peer
      formats, metadata dictionaries and magnet links come back as they were sent.
    - Data structures.  The routing table keeps its invariant (at most [K] nodes in a
      bucket, each in the bucket of its distance, no duplicates) and refines a finite map;
      [FindClosest] returns the nearest nodes; [BucketIndex] is the logarithm of the xor
      distance.  Stored hashes, pending hashes and pages of a search are what the
      specification by sets and sorted lists says, whatever order SQLite leaves open.
    - Nodes.  In every interleaving of a node's goroutines its invariant holds and it
      panics only where the findings say; queries are answered, announces need a prefix
      of a token that was issued to the same address within two rotations, responses reach the lookup that
      waits for them.
    - Downloads.  What [Download] returns has the hash that was asked for; it ends; an honest
      peer's metadata is downloaded.  A hash is never downloaded twice at a time and the
      connections are bounded by the semaphores, in the worker pool and in the whole
      program; a finished job is counted once, stored and released.
    - Life of the process.  From wherever a run of a pool's [Start] has come, [Start] can
      come back, with the errors of exactly the ports that are taken; without errors every
      node runs.  From the first step of [main] on, with
      nodes that start, requests, signals, statistics and searches in any interleaving,
      downloads stay exclusive; and once the context has ended, [main] can return from
      wherever the run is, and in the worker pool alone every goroutine can end.  The
      run can also end in one of the panics listed.  These theorems give a continuation of
      every run: there is no deadlock, and no loop that cannot be left.  That the
      scheduler takes the continuation is not claimed, as Go promises no fairness and a
      [select] with several ready cases chooses at random.
    - Answers.  JSON answers read back as the records they were made from.  Every page
      renders, its markup is that of the template whatever names torrents have, and the links
      between pages of results lead to the neighbouring page of the same query.
    - Opening and closing.  [storage.New] makes the schema, keeps what is stored, falls back
      without the full-text index, and leaves nothing open when it fails; triggers of an
      index that SQLite no longer has keep it from opening the file.  After [Close], which
      [Run] calls while others still work, every call fails: what is flushed then is lost.
    - Counting.  No discovery is lost or counted twice between the cache and the database,
      in any interleaving and with any failures of the database; a batch is written whole
      or not at all.
    - Panics and wrong results that the source allows are theorems as well (a huge string
      length, a long token, a negative metadata size, sends on closed channels, one address
      per hash, a negative number of workers): they are listed as findings.

    ** Bounds and fuel

    Recursion that is not structural takes fuel, and running out is the outcome [NoFuel],
    never a default value.  [decode_fuel] is twice the length of the input plus two, as
    every call of the decoder reads a byte or is followed by one that does; [Download] has
    more fuel than the connection has bytes, as every round reads some; [size_loop] has 6
    turns for quotients of an [int64] by 1024; [duration_loop] one for each byte.
    [fueled], [Download_terminates], [size_loop_spec] and [duration_loop_terms] show that
    this is enough.  The loops of the feeder, the workers and the event loop are endless
    ([forever]) and end where the source returns.  Of a node's loops, the flusher, the
    statistics and the web server, the datagrams, ticks and requests that arrive are an
    input, a list or a number of any length, after which the goroutine is done.
    [maxAlloc] is the size above which [make]
    panics on a 64-bit system, 2^48 bytes.

    ** What is a parameter

    The network: datagrams, connections and what peers answer.  Random numbers.  The clock.
    The failures of the database, one by one ([faults]).  What SQLite leaves open
    ([Engine]: the order of rows, [LIKE], the full-text index) and how it was built
    ([Build]).  The time zone of the times in JSON.  The YAML library and the
    file system.  Theorems quantify over them, with a hypothesis where one is needed.

    ** Not modelled

    Logging, sockets and their deadlines: I/O that no modelled state depends on.
    The full-text index follows the tables in [Storage]; in SQLite the entry of a torrent
    that is replaced stays behind, as its delete trigger does not run.  The sizes of
    integers in SQLite columns (req_count beyond 64 bits).  Of the template language and of
    HTML, what the program's templates do not use.  Data races in Go's memory model:
    sections under a mutex and atomic operations are atomic here, and variables the source
    shares without either are read and written whole. *)

From stdpp Require Export base tactics option list gmap sets sorting numbers strings.
From Stdlib Require Export ZArith Lia.
From Stdlib Require Export Strings.Byte.

#[global] Open Scope Z_scope.
#[export] Set Warnings "-register-all,-clear-no-such-hyp".

Declare Scope go_scope.
Delimit Scope go_scope with go.

(** ** Outcomes of Go code

    A Go function that can fail returns a value or an error; it can also panic.
    [NoFuel] is the extra outcome of a fuelled loop of the model whose fuel ran
    out; every fuelled definition comes with a theorem that it is not reached. *)

Inductive panic :=
  | PanicSliceBounds        (* slice bounds out of range *)
  | PanicIndex              (* index out of range *)
  | PanicMakeSlice          (* makeslice: len out of range *)
  | PanicMakeChan           (* makechan: size out of range *)
  | PanicDivide             (* integer divide by zero *)
  | PanicSendClosed         (* send on closed channel *)
  | PanicCloseClosed        (* close of closed channel *)
  | PanicNilDeref           (* nil pointer dereference *)
  | PanicTemplate.          (* template.Must *)

Inductive outcome (E A : Type) : Type :=
  | Ok (a : A)
  | Err (e : E)
  | Panic (p : panic)
  | NoFuel.
Arguments Ok {E A} a.
Arguments Err {E A} e.
Arguments Panic {E A} p.
Arguments NoFuel {E A}.

#[global] Instance outcome_ret E : MRet (outcome E) := λ A a, Ok a.
#[global] Instance outcome_bind E : MBind (outcome E) := λ A B f m,
  match m with
  | Ok a => f a
  | Err e => Err e
  | Panic p => Panic p
  | NoFuel => NoFuel
  end.

(** Run a computation whose errors are of another type: [map_err f m]. *)
Definition map_err {E E' A} (f : E → E') (m : outcome E A) : outcome E' A :=
  match m with
  | Ok a => Ok a
  | Err e => Err (f e)
  | Panic p => Panic p
  | NoFuel => NoFuel
  end.

Definition is_ok {E A} (m : outcome E A) : bool :=
  match m with Ok _ => true | _ => false end.

(** [seq_outcomes ms] runs the computations in order and stops at the first that
    does not return. *)
Fixpoint seq_outcomes {E A} (ms : list (outcome E A)) : outcome E (list A) :=
  match ms with
  | [] => Ok []
  | m :: ms => a ← m; l ← seq_outcomes ms; Ok (a :: l)
  end.

Lemma bind_Ok_inv {E A B} (m : outcome E A) (f : A → outcome E B) b :
  (m ≫= f) = Ok b → ∃ a, m = Ok a ∧ f a = Ok b.
Proof. destruct m; cbn; try discriminate. eauto. Qed.

Lemma seq_outcomes_Ok {E A} (ms : list (outcome E A)) l :
  seq_outcomes ms = Ok l ↔ Forall2 (λ m a, m = Ok a) ms l.
Proof.
  revert l. induction ms as [|m ms IH]; intros l; cbn.
  - split; [intros [= <-]; constructor | by inversion 1].
  - split.
    + intros (a & Hm & H)%bind_Ok_inv.
      apply bind_Ok_inv in H as (l' & Hl & [= <-]).
      constructor; [done | by apply IH].
    + inversion 1 as [|? a ? l' Hm Hl]; subst. cbn.
      apply IH in Hl. by rewrite Hl.
Qed.

(** Never running out of fuel, closed under the combinators; the hint database
    [nofuel] collects the primitives that have no fuel. *)
Definition fueled {E A} (m : outcome E A) : Prop :=
  match m with NoFuel => False | _ => True end.

Lemma fueled_bind {E A B} (m : outcome E A) (f : A → outcome E B) :
  fueled m → (∀ a, m = Ok a → fueled (f a)) → fueled (m ≫= f).
Proof. destruct m; cbn; auto. Qed.

Lemma fueled_map_err {E E' A} (f : E → E') (m : outcome E A) :
  fueled m → fueled (map_err f m).
Proof. by destruct m. Qed.

Create HintDb nofuel.
#[export] Hint Resolve fueled_map_err : nofuel.
#[export] Hint Extern 1 (fueled (Ok _)) => exact I : nofuel.
#[export] Hint Extern 1 (fueled (Err _)) => exact I : nofuel.
#[export] Hint Extern 1 (fueled (Panic _)) => exact I : nofuel.

(** [solve_fueled] walks a definition: binds, matches, then the database. *)
Ltac solve_fueled :=
  repeat first
    [ progress intros
    | solve [eauto with nofuel]
    | apply fueled_bind
    | progress case_match ].

(** ** Lists *)

Lemma elem_of_concat {A} (x : A) (ls : list (list A)) :
  x ∈ concat ls ↔ ∃ l, l ∈ ls ∧ x ∈ l.
Proof. induction ls as [|l ls IH]; cbn; set_solver. Qed.

Lemma list_alter_Some {A} (f : A → A) i (l : list A) x :
  l !! i = Some x → alter f i l = <[i := f x]> l.
Proof.
  intros H. rewrite list_insert_alter. apply list_alter_ext; [|done].
  intros y Hy. congruence.
Qed.

Lemma list_alter_None {A} (f : A → A) i (l : list A) : l !! i = None → alter f i l = l.
Proof.
  intros H. apply list_eq. intros j. rewrite list_lookup_alter.
  case_decide as E; [|done]. by rewrite <- E, H.
Qed.

(** ** Machine integers *)

Definition wrapU (w z : Z) : Z := z mod 2 ^ w.
Definition wrapS (w z : Z) : Z := (z + 2 ^ (w - 1)) mod 2 ^ w - 2 ^ (w - 1).

Definition max_int64 : Z := 2 ^ 63 - 1.
Definition min_int64 : Z := - 2 ^ 63.
Definition is_int64 (z : Z) : Prop := min_int64 ≤ z ≤ max_int64.
Definition is_int64b (z : Z) : bool := (min_int64 <=? z) && (z <=? max_int64).

#[global] Instance is_int64_dec z : Decision (is_int64 z).
Proof. unfold is_int64. apply _. Defined.

Lemma is_int64b_spec z : is_int64b z = true ↔ is_int64 z.
Proof. unfold is_int64b, is_int64. rewrite andb_true_iff, !Z.leb_le. done. Qed.

Lemma wrapS_id w z : 0 < w → - 2 ^ (w - 1) ≤ z < 2 ^ (w - 1) → wrapS w z = z.
Proof.
  intros Hw Hz. unfold wrapS.
  replace (2 ^ w) with (2 * 2 ^ (w - 1)) by
    (rewrite <- Z.pow_succ_r by lia; f_equal; lia).
  rewrite Z.mod_small; lia.
Qed.

Lemma wrapS_range w z : 0 < w → - 2 ^ (w - 1) ≤ wrapS w z < 2 ^ (w - 1).
Proof.
  intros Hw. unfold wrapS.
  replace (2 ^ w) with (2 * 2 ^ (w - 1)) by
    (rewrite <- Z.pow_succ_r by lia; f_equal; lia).
  pose proof (Z.pow_pos_nonneg 2 (w - 1) ltac:(lia) ltac:(lia)).
  pose proof (Z.mod_pos_bound (z + 2 ^ (w - 1)) (2 * 2 ^ (w - 1)) ltac:(lia)). lia.
Qed.

Lemma wrapS_congr w z : 0 < w → ∃ k, wrapS w z = z + k * 2 ^ w.
Proof.
  intros Hw. unfold wrapS. exists (- ((z + 2 ^ (w - 1)) / 2 ^ w)).
  pose proof (Z.pow_pos_nonneg 2 w ltac:(lia) ltac:(lia)).
  pose proof (Z.div_mod (z + 2 ^ (w - 1)) (2 ^ w) ltac:(lia)). lia.
Qed.

Lemma wrapS_add w a b : 0 < w → wrapS w (wrapS w a + b) = wrapS w (a + b).
Proof.
  intros Hw. destruct (wrapS_congr w a Hw) as [k Hk]. unfold wrapS at 1 3. f_equal. rewrite Hk.
  replace (a + k * 2 ^ w + b + 2 ^ (w - 1)) with (a + b + 2 ^ (w - 1) + k * 2 ^ w) by lia.
  pose proof (Z.pow_pos_nonneg 2 w ltac:(lia) ltac:(lia)). by rewrite Z.mod_add by lia.
Qed.

Lemma wrapS_wrapS w a : 0 < w → wrapS w (wrapS w a) = wrapS w a.
Proof. intros Hw. pose proof (wrapS_add w a 0 Hw) as H. by rewrite !Z.add_0_r in H. Qed.

Lemma wrapU_id w z : 0 ≤ z < 2 ^ w → wrapU w z = z.
Proof. apply Z.mod_small. Qed.

Lemma wrapU_range w z : 0 ≤ w → 0 ≤ wrapU w z < 2 ^ w.
Proof. intros. apply Z.mod_pos_bound. by apply Z.pow_pos_nonneg. Qed.

(** ** Bytes and byte strings *)

Abbreviation bytes := (list byte).

#[global] Instance byte_eq_decision : EqDecision byte := Byte.byte_eq_dec.
#[global] Program Instance byte_countable : Countable byte :=
  inj_countable Byte.to_N Byte.of_N _.
Next Obligation. apply Byte.of_to_N. Qed.
#[global] Instance byte_inhabited : Inhabited byte := populate x00.

(** A Go string literal, as its bytes. *)
Definition bs (s : string) : bytes := String.list_byte_of_string s.

Definition byte_val (b : byte) : Z := Z.of_N (Byte.to_N b).
Definition byte_of (z : Z) : byte := default x00 (Byte.of_N (Z.to_N (z mod 256))).

Lemma byte_val_range b : 0 ≤ byte_val b < 256.
Proof. unfold byte_val. pose proof (Byte.to_N_bounded b). lia. Qed.

Lemma byte_val_of z : byte_val (byte_of z) = z mod 256.
Proof.
  unfold byte_val, byte_of.
  pose proof (Z.mod_pos_bound z 256 ltac:(lia)) as Hz.
  destruct (Byte.of_N (Z.to_N (z mod 256))) as [b|] eqn:Hb; cbn.
  - apply Byte.to_of_N in Hb. rewrite Hb. lia.
  - apply Byte.of_N_None_iff in Hb. lia.
Qed.

Lemma byte_of_val b : byte_of (byte_val b) = b.
Proof.
  unfold byte_of. rewrite Z.mod_small by apply byte_val_range.
  unfold byte_val. by rewrite N2Z.id, Byte.of_to_N.
Qed.

#[global] Instance byte_val_inj : Inj (=) (=) byte_val.
Proof. intros a b H. by rewrite <- (byte_of_val a), H, byte_of_val. Qed.

Lemma byte_val_of_small z : 0 ≤ z < 256 → byte_val (byte_of z) = z.
Proof. intros. rewrite byte_val_of. by apply Z.mod_small. Qed.

Definition byte_xor (a b : byte) : byte := byte_of (Z.lxor (byte_val a) (byte_val b)).
Definition byte_and (a b : byte) : byte := byte_of (Z.land (byte_val a) (byte_val b)).

Lemma lxor_range w a b : 0 ≤ w → 0 ≤ a < 2 ^ w → 0 ≤ b < 2 ^ w → 0 ≤ Z.lxor a b < 2 ^ w.
Proof.
  intros Hw Ha Hb. assert (0 ≤ Z.lxor a b) by (apply Z.lxor_nonneg; lia).
  split; [done|]. destruct (decide (Z.lxor a b = 0)) as [->|Hn].
  { by apply Z.pow_pos_nonneg. }
  apply Z.log2_lt_pow2; [lia|].
  eapply Z.le_lt_trans; [apply Z.log2_lxor; lia|].
  apply Z.max_lub_lt.
  - destruct (decide (a = 0)) as [->|]; [|apply Z.log2_lt_pow2; lia].
    destruct (decide (w = 0)) as [->|]; [|cbn; lia].
    change (2 ^ 0) with 1 in *. replace b with 0 in Hn by lia. done.
  - destruct (decide (b = 0)) as [->|]; [|apply Z.log2_lt_pow2; lia].
    destruct (decide (w = 0)) as [->|]; [|cbn; lia].
    change (2 ^ 0) with 1 in *. replace a with 0 in Hn by lia. done.
Qed.

Lemma byte_val_xor a b : byte_val (byte_xor a b) = Z.lxor (byte_val a) (byte_val b).
Proof.
  unfold byte_xor. apply byte_val_of_small.
  apply (lxor_range 8); [lia|apply byte_val_range..].
Qed.

Lemma byte_xor_comm a b : byte_xor a b = byte_xor b a.
Proof. unfold byte_xor. by rewrite Z.lxor_comm. Qed.

Lemma byte_xor_nilpotent a b : byte_xor a b = x00 ↔ a = b.
Proof.
  split.
  - intros H. apply (f_equal byte_val) in H. rewrite byte_val_xor in H.
    apply Z.lxor_eq in H. by apply (inj byte_val).
  - intros ->. apply (inj byte_val). by rewrite byte_val_xor, Z.lxor_nilpotent.
Qed.
