(* ===== verification/GoStd.v ===== *)
(** * The parts of Go's standard library the crawler uses

    [fmt]'s [%d], [strconv.ParseInt] and [Atoi], [encoding/binary]'s big-endian
    integers, the order of Go strings and [sort.Strings], [encoding/hex], slice
    expressions and [copy].  Each is an executable function with the lemmas the
    components need. *)

From S2P Require Import Prelude.

(** ** Big-endian integers *)

Definition be_val (s : bytes) : Z := foldl (λ a b, a * 256 + byte_val b) 0 s.

Fixpoint be_bytes (n : nat) (z : Z) : bytes :=
  match n with
  | O => []
  | S n => be_bytes n (z / 256) ++ [byte_of z]
  end.

Lemma be_val_snoc s b : be_val (s ++ [b]) = be_val s * 256 + byte_val b.
Proof. unfold be_val. by rewrite foldl_app. Qed.

Lemma be_val_acc a s :
  foldl (λ a b, a * 256 + byte_val b) a s = a * 256 ^ Z.of_nat (length s) + be_val s.
Proof.
  induction s as [|b s IH] using rev_ind; [unfold be_val; cbn; lia|].
  rewrite foldl_app, IH, be_val_snoc, length_app; cbn [foldl length].
  replace (Z.of_nat (length s + 1)) with (Z.succ (Z.of_nat (length s))) by lia.
  rewrite Z.pow_succ_r by lia. lia.
Qed.

Lemma be_val_cons b s :
  be_val (b :: s) = byte_val b * 256 ^ Z.of_nat (length s) + be_val s.
Proof. unfold be_val at 1. cbn [foldl]. rewrite be_val_acc. lia. Qed.

Lemma be_val_app s t :
  be_val (s ++ t) = be_val s * 256 ^ Z.of_nat (length t) + be_val t.
Proof. unfold be_val at 1. rewrite foldl_app, be_val_acc. done. Qed.

Lemma be_val_range s : 0 ≤ be_val s < 256 ^ Z.of_nat (length s).
Proof.
  induction s as [|b s IH]; [done|].
  rewrite be_val_cons. cbn [length]. rewrite Nat2Z.inj_succ, Z.pow_succ_r by lia.
  pose proof (byte_val_range b). nia.
Qed.

Lemma be_val_bytes n z : be_val (be_bytes n z) = z mod 256 ^ Z.of_nat n.
Proof.
  revert z. induction n as [|n IH]; intros z; cbn [be_bytes].
  { rewrite Z.mod_1_r. done. }
  rewrite be_val_snoc, IH, byte_val_of, Nat2Z.inj_succ, Z.pow_succ_r by lia.
  pose proof (Z.pow_pos_nonneg 256 (Z.of_nat n) ltac:(lia) ltac:(lia)).
  rewrite Z.rem_mul_r by lia. lia.
Qed.

Lemma length_be_bytes n z : length (be_bytes n z) = n.
Proof.
  revert z. induction n as [|n IH]; intros z; cbn; [done|].
  rewrite length_app, IH. cbn. lia.
Qed.

Lemma be_bytes_val s : be_bytes (length s) (be_val s) = s.
Proof.
  induction s as [|b s IH] using rev_ind; [done|].
  rewrite length_app, Nat.add_1_r. cbn [be_bytes].
  rewrite be_val_snoc. pose proof (byte_val_range b).
  f_equal.
  - replace ((be_val s * 256 + byte_val b) / 256) with (be_val s); [done|].
    rewrite Z.div_add_l by lia. rewrite Z.div_small by lia. lia.
  - f_equal. rewrite <- (byte_of_val b) at 2. unfold byte_of.
    rewrite Z.add_comm, Z.mod_add by lia. done.
Qed.

Lemma be_val_inj s t : length s = length t → be_val s = be_val t → s = t.
Proof. intros Hl H. rewrite <- (be_bytes_val s), Hl, H. apply be_bytes_val. Qed.

Lemma be_val_zero n : be_val (replicate n x00) = 0.
Proof. induction n as [|n IH]; [done|]. cbn [replicate]. by rewrite be_val_cons, IH. Qed.

Lemma be_val_nil_iff s : be_val s = 0 ↔ s = replicate (length s) x00.
Proof.
  split; [|intros ->; apply be_val_zero].
  intros H. apply be_val_inj; [by rewrite length_replicate|].
  by rewrite be_val_zero.
Qed.

Lemma testbit_cat x y i :
  0 ≤ i → 0 ≤ y < 256 →
  Z.testbit (x * 256 + y) i = if decide (i < 8) then Z.testbit y i else Z.testbit x (i - 8).
Proof.
  intros Hi Hy. change 256 with (2 ^ 8) in *. case_decide.
  - rewrite <- (Z.mod_pow2_bits_low (x * 2 ^ 8 + y) 8 i) by lia.
    by rewrite Z.add_comm, Z.mod_add, Z.mod_small by lia.
  - replace i with (i - 8 + 8) at 1 by lia.
    rewrite <- Z.div_pow2_bits by lia.
    by rewrite Z.div_add_l, Z.div_small, Z.add_0_r by lia.
Qed.

Lemma lxor_cat x x' y y' :
  0 ≤ y < 256 → 0 ≤ y' < 256 →
  Z.lxor (x * 256 + y) (x' * 256 + y') = Z.lxor x x' * 256 + Z.lxor y y'.
Proof.
  intros Hy Hy'. pose proof (lxor_range 8 y y' ltac:(lia) Hy Hy').
  apply Z.bits_inj'. intros i Hi.
  rewrite Z.lxor_spec, !testbit_cat by done.
  case_decide; by rewrite Z.lxor_spec.
Qed.

(** The unsigned value of an xor is the xor of the values. *)
Lemma be_val_xor s t :
  length s = length t →
  be_val (zip_with byte_xor s t) = Z.lxor (be_val s) (be_val t).
Proof.
  revert t. induction s as [|a s IH] using rev_ind; intros t Ht.
  { destruct t; done. }
  destruct t as [|b t _] using rev_ind; rewrite ?length_app in Ht; cbn in Ht; [lia|].
  rewrite zip_with_app by lia. cbn [zip_with].
  rewrite !be_val_snoc, byte_val_xor, IH by lia.
  symmetry. apply lxor_cat; apply byte_val_range.
Qed.

(** Text with a backquote for each double quote. *)
Definition go_text (s : string) : bytes := (λ b, if decide (b = x60) then x22 else b) <$> bs s.

(** ** Ordering: Go's [<] on arrays and strings of bytes *)

(** [lex_ltb s t]: at the first index where the bytes differ, [s]'s is smaller; a
    proper prefix is smaller (Go's string order). *)
Fixpoint lex_ltb (s t : bytes) : bool :=
  match s, t with
  | _, [] => false
  | [], _ :: _ => true
  | a :: s, b :: t =>
      if byte_val a <? byte_val b then true
      else if byte_val b <? byte_val a then false
      else lex_ltb s t
  end.

Definition bytes_le (s t : bytes) : Prop := lex_ltb t s = false.

#[global] Instance bytes_le_dec : RelDecision bytes_le.
Proof. intros s t. unfold bytes_le. apply _. Defined.

Lemma lex_ltb_irrefl s : lex_ltb s s = false.
Proof. induction s as [|a s IH]; cbn; [done|]. by rewrite Z.ltb_irrefl. Qed.

Lemma lex_ltb_trans s t u : lex_ltb s t = true → lex_ltb t u = true → lex_ltb s u = true.
Proof.
  revert t u. induction s as [|a s IH]; intros [|b t] [|c u]; cbn; try done.
  destruct (Z.ltb_spec (byte_val a) (byte_val b)), (Z.ltb_spec (byte_val b) (byte_val a));
    destruct (Z.ltb_spec (byte_val b) (byte_val c)), (Z.ltb_spec (byte_val c) (byte_val b));
    destruct (Z.ltb_spec (byte_val a) (byte_val c)), (Z.ltb_spec (byte_val c) (byte_val a));
    try done; try lia. apply IH.
Qed.

Lemma lex_ltb_connected s t : lex_ltb s t = false → lex_ltb t s = false → s = t.
Proof.
  revert t. induction s as [|a s IH]; intros [|b t]; cbn; try done.
  destruct (Z.ltb_spec (byte_val a) (byte_val b)), (Z.ltb_spec (byte_val b) (byte_val a));
    try done; try lia.
  intros H1 H2. f_equal; [apply (inj byte_val); lia | by apply IH].
Qed.

Lemma lex_ltb_asym s t : lex_ltb s t = true → lex_ltb t s = false.
Proof.
  intros H. destruct (lex_ltb t s) eqn:H2; [|done].
  by rewrite <- (lex_ltb_trans _ _ _ H H2), lex_ltb_irrefl.
Qed.

#[global] Instance bytes_le_total : Total bytes_le.
Proof.
  intros s t. unfold bytes_le. destruct (lex_ltb t s) eqn:H; [|by left].
  right. by apply lex_ltb_asym.
Qed.

#[global] Instance bytes_le_trans : Transitive bytes_le.
Proof.
  intros s t u H1 H2. unfold bytes_le in *.
  destruct (lex_ltb u s) eqn:H; [|done].
  destruct (lex_ltb s t) eqn:H3.
  - by rewrite (lex_ltb_trans _ _ _ H H3) in H2.
  - by rewrite (lex_ltb_connected _ _ H3 H1), H2 in H.
Qed.

#[global] Instance bytes_le_antisymm : AntiSymm (=) bytes_le.
Proof. intros s t H1 H2. by apply lex_ltb_connected. Qed.

(** On arrays of the same length the order is that of the unsigned values. *)
Lemma lex_ltb_be_val s t :
  length s = length t → lex_ltb s t = (be_val s <? be_val t).
Proof.
  revert t. induction s as [|a s IH]; intros [|b t] Ht; try done.
  cbn [lex_ltb]. rewrite !be_val_cons. injection Ht as Ht.
  pose proof (be_val_range s). pose proof (be_val_range t). rewrite Ht in *.
  assert (byte_val a = byte_val b ∨ byte_val a + 1 ≤ byte_val b ∨ byte_val b + 1 ≤ byte_val a)
    as [E|[E|E]] by lia.
  - rewrite E, Z.ltb_irrefl, IH by done.
    destruct (Z.ltb_spec (be_val s) (be_val t)); symmetry; [apply Z.ltb_lt|apply Z.ltb_ge]; lia.
  - destruct (Z.ltb_spec (byte_val a) (byte_val b)); [|lia].
    symmetry. apply Z.ltb_lt. nia.
  - destruct (Z.ltb_spec (byte_val a) (byte_val b)); [lia|].
    destruct (Z.ltb_spec (byte_val b) (byte_val a)); [|lia].
    symmetry. apply Z.ltb_ge. nia.
Qed.

(** [sort.Strings]. *)
Definition sort_Strings (l : list bytes) : list bytes := merge_sort bytes_le l.

Lemma sort_Strings_perm l : sort_Strings l ≡ₚ l.
Proof. apply merge_sort_Permutation. Qed.

Lemma sort_Strings_unique l l' :
  l' ≡ₚ l → Sorted bytes_le l' → l' = sort_Strings l.
Proof.
  intros Hp Hs. apply (Sorted_unique bytes_le); [done| |].
  - apply (Sorted_merge_sort _). 
  - by rewrite Hp, sort_Strings_perm.
Qed.

#[global] Instance sort_Strings_proper : Proper (Permutation ==> eq) sort_Strings.
Proof.
  intros l l' H. apply sort_Strings_unique; [|apply (Sorted_merge_sort _)].
  by rewrite <- H, sort_Strings_perm.
Qed.

(** ** Decimal numbers: [%d] and [strconv] *)

Definition is_digit (b : byte) : bool := (48 <=? byte_val b) && (byte_val b <=? 57).

Fixpoint digits_of (fuel : nat) (n : Z) (acc : bytes) : bytes :=
  match fuel with
  | O => acc
  | S fuel =>
      let acc := byte_of (48 + n mod 10) :: acc in
      if n <? 10 then acc else digits_of fuel (n / 10) acc
  end.

(** [fmt.Sprintf("%d", n)] for a nonnegative and for any integer.  The fuel is the
    number of binary digits, at least the number of decimal ones. *)
Definition fmt_u (n : Z) : bytes := digits_of (S (Z.to_nat (Z.log2 n))) n [].
Definition fmt_d (z : Z) : bytes := if z <? 0 then bs "-" ++ fmt_u (- z) else fmt_u z.

Inductive num_error := ErrSyntax | ErrRange.

(** The digit loop of [strconv.ParseUint(s, 10, 64)]. *)
Fixpoint parse_digits (n : Z) (s : bytes) : outcome num_error Z :=
  match s with
  | [] => Ok n
  | c :: s =>
      if is_digit c then
        if (2 ^ 64 - 1) / 10 + 1 <=? n then Err ErrRange
        else let n1 := n * 10 + (byte_val c - 48) in
             if 2 ^ 64 - 1 <? n1 then Err ErrRange else parse_digits n1 s
      else Err ErrSyntax
  end.

Definition ParseUint (s : bytes) : outcome num_error Z :=
  match s with [] => Err ErrSyntax | _ => parse_digits 0 s end.

(** [strconv.ParseInt(s, 10, 64)]. *)
Definition ParseInt (s : bytes) : outcome num_error Z :=
  match s with
  | [] => Err ErrSyntax
  | c :: rest =>
      let neg := bool_decide (c = x2d) in
      let digits := if neg || bool_decide (c = x2b) then rest else s in
      un ← ParseUint digits;
      if negb neg && (2 ^ 63 <=? un) then Err ErrRange
      else if neg && (2 ^ 63 <? un) then Err ErrRange
      else Ok (if neg then - un else un)
  end.

(** [strconv.Atoi] on a 64-bit platform. *)
Definition Atoi : bytes → outcome num_error Z := ParseInt.

Definition dec_val (a : Z) (s : bytes) : Z := foldl (λ a b, a * 10 + (byte_val b - 48)) a s.

Lemma is_digit_spec b : is_digit b = true ↔ 48 ≤ byte_val b ≤ 57.
Proof. unfold is_digit. rewrite andb_true_iff, !Z.leb_le. done. Qed.

Lemma dec_val_mono a s : 0 ≤ a → Forall is_digit s → a ≤ dec_val a s.
Proof.
  intros Ha Hs. revert a Ha. induction Hs as [|b s Hb Hs IH]; intros a Ha; cbn; [lia|].
  apply Is_true_true, is_digit_spec in Hb.
  unfold dec_val in IH. etransitivity; [|apply IH]; lia.
Qed.

Lemma digits_of_spec fuel n acc :
  0 ≤ n < 2 ^ Z.of_nat fuel → Forall is_digit acc →
  dec_val 0 (digits_of fuel n acc) = dec_val n acc ∧ Forall is_digit (digits_of fuel n acc).
Proof.
  revert n acc. induction fuel as [|fuel IH]; intros n acc Hn Hacc.
  { change (2 ^ Z.of_nat 0) with 1 in Hn. by replace n with 0 by lia. }
  cbn [digits_of]. rewrite Nat2Z.inj_succ, Z.pow_succ_r in Hn by lia.
  pose proof (Z.mod_pos_bound n 10 ltac:(lia)). pose proof (Z.div_mod n 10 ltac:(lia)).
  assert (Forall is_digit (byte_of (48 + n mod 10) :: acc)) as Hacc'.
  { constructor; [|done]. apply Is_true_true, is_digit_spec.
    rewrite byte_val_of_small; lia. }
  destruct (Z.ltb_spec n 10) as [Hlt|Hge].
  - split; [|done]. cbn. rewrite byte_val_of_small by lia.
    rewrite Z.mod_small by lia. f_equal. lia.
  - destruct (IH (n / 10) _ ltac:(lia) Hacc') as [-> ?]. split; [|done].
    cbn. rewrite byte_val_of_small by lia. f_equal. lia.
Qed.

Lemma fmt_u_spec n : 0 ≤ n → dec_val 0 (fmt_u n) = n ∧ Forall is_digit (fmt_u n).
Proof.
  intros Hn. unfold fmt_u. apply digits_of_spec; [|constructor].
  rewrite Nat2Z.inj_succ, Z2Nat.id by apply Z.log2_nonneg.
  destruct (decide (n = 0)) as [->|]; [cbn; lia|].
  pose proof (Z.log2_spec n). lia.
Qed.

Lemma fmt_u_cons n : ∃ c s, fmt_u n = c :: s.
Proof.
  assert (∀ f m acc, acc ≠ [] → ∃ c s, digits_of f m acc = c :: s) as H.
  { induction f as [|f IH]; intros m [|c acc] Ha; cbn; try done; eauto.
    destruct (m <? 10); eauto. }
  unfold fmt_u. cbn [digits_of]. destruct (n <? 10); eauto.
Qed.

Lemma parse_digits_spec n s :
  0 ≤ n → Forall is_digit s → dec_val n s < 2 ^ 64 → parse_digits n s = Ok (dec_val n s).
Proof.
  intros Hn Hs. revert n Hn. induction Hs as [|b s Hb Hs IH]; intros n Hn Hv; [done|].
  cbn [parse_digits]. apply Is_true_true in Hb. rewrite Hb. apply is_digit_spec in Hb.
  cbn in Hv. pose proof (dec_val_mono (n * 10 + (byte_val b - 48)) s ltac:(lia) Hs) as Hm.
  unfold dec_val in Hm at 1.
  change ((2 ^ 64 - 1) / 10 + 1) with 1844674407370955162.
  assert (n * 10 + (byte_val b - 48) < 2 ^ 64) by (unfold dec_val in *; lia).
  destruct (Z.leb_spec 1844674407370955162 n); [lia|].
  destruct (Z.ltb_spec (2 ^ 64 - 1) (n * 10 + (byte_val b - 48))); [lia|].
  apply IH; [lia|done].
Qed.

Lemma digit_not_sign c : is_digit c = true → c ≠ x2d ∧ c ≠ x2b.
Proof. intros H. split; intros ->; discriminate. Qed.

Lemma ParseInt_digits s :
  s ≠ [] → Forall is_digit s → dec_val 0 s < 2 ^ 63 → ParseInt s = Ok (dec_val 0 s).
Proof.
  intros Hne Hs Hv. destruct s as [|c s]; [done|]. unfold ParseInt.
  pose proof (Forall_cons_1 _ _ _ Hs) as [Hc _]. apply Is_true_true, digit_not_sign in Hc as [H1 H2].
  rewrite !bool_decide_eq_false_2 by done. cbn [orb negb andb ParseUint].
  rewrite parse_digits_spec by (done || lia). cbn [mbind outcome_bind].
  by destruct (Z.leb_spec (2 ^ 63) (dec_val 0 (c :: s))); [lia|].
Qed.

(** Printing an [int64] and parsing it back. *)
Lemma ParseInt_fmt_d z : is_int64 z → ParseInt (fmt_d z) = Ok z.
Proof.
  unfold is_int64, min_int64, max_int64, fmt_d. intros Hz.
  destruct (Z.ltb_spec z 0) as [Hneg|Hpos].
  - destruct (fmt_u_spec (- z) ltac:(lia)) as [Hv Hd].
    destruct (fmt_u_cons (- z)) as (c & s & E).
    change (bs "-") with [x2d]. cbn [app ParseInt].
    rewrite bool_decide_eq_true_2 by done. cbn [orb negb andb].
    unfold ParseUint. rewrite E in *. rewrite parse_digits_spec by (done || lia).
    rewrite Hv. cbn [mbind outcome_bind].
    destruct (Z.ltb_spec (2 ^ 63) (- z)); [lia|]. by rewrite Z.opp_involutive.
  - destruct (fmt_u_spec z Hpos) as [Hv Hd]. rewrite ParseInt_digits, Hv; [done| |done|lia].
    destruct (fmt_u_cons z) as (c & s & ->). done.
Qed.

Lemma ParseInt_range s z : ParseInt s = Ok z → is_int64 z.
Proof.
  assert (∀ s n z, 0 ≤ n → parse_digits n s = Ok z → 0 ≤ z) as Hd.
  { clear. induction s as [|c s IH]; cbn; intros n z Hn; [intros [= <-]; done|].
    destruct (is_digit c) eqn:Hc; [|done]. apply is_digit_spec in Hc.
    destruct (_ <=? n); [done|]. destruct (_ <? _); [done|]. apply IH. lia. }
  destruct s as [|c s]; [done|]. unfold ParseInt, is_int64, min_int64, max_int64.
  set (neg := bool_decide _). set (digits := if _ : bool then _ else _).
  intros (un & Hun & H)%bind_Ok_inv.
  assert (0 ≤ un) as Hpos.
  { unfold ParseUint in Hun. destruct digits; [done|]. by eapply Hd in Hun. }
  destruct neg; cbn [negb andb] in H.
  - destruct (Z.ltb_spec (2 ^ 63) un); [done|]. injection H as <-. lia.
  - destruct (Z.leb_spec (2 ^ 63) un); [done|]. injection H as <-. lia.
Qed.

Lemma fueled_ParseInt s : fueled (ParseInt s).
Proof.
  assert (∀ s n, fueled (parse_digits n s)) as Hd.
  { clear. induction s as [|c s IH]; intros n; cbn; solve_fueled; apply IH. }
  unfold ParseInt, ParseUint. solve_fueled; apply Hd.
Qed.
#[export] Hint Resolve fueled_ParseInt : nofuel.

Lemma ParseInt_no_panic s p : ParseInt s ≠ Panic p.
Proof.
  assert (∀ s n, parse_digits n s ≠ Panic p) as Hd.
  { clear. induction s as [|c s IH]; intros n; cbn; repeat case_match; try done; apply IH. }
  destruct s as [|c s]; [done|]. unfold ParseInt, ParseUint.
  set (digits := if _ : bool then _ else _). destruct digits as [|d ds]; [done|].
  specialize (Hd (d :: ds) 0). destruct (parse_digits 0 (d :: ds)); cbn; try done;
    try congruence; by repeat case_match.
Qed.

(** ** Hexadecimal: [encoding/hex] *)

Definition hex_digit (n : Z) : byte := byte_of (if n <? 10 then 48 + n else 87 + n).

Definition hex_EncodeToString (s : bytes) : bytes :=
  s ≫= λ b, [hex_digit (byte_val b / 16); hex_digit (byte_val b mod 16)].

Definition from_hex_char (c : byte) : option Z :=
  let v := byte_val c in
  if (48 <=? v) && (v <=? 57) then Some (v - 48)
  else if (97 <=? v) && (v <=? 102) then Some (v - 87)
  else if (65 <=? v) && (v <=? 70) then Some (v - 55)
  else None.

Inductive hex_error := InvalidByteError (c : byte) | ErrLength.

(** [hex.DecodeString]: pairs of digits; on an odd length the last character is
    checked before the length error is reported. *)
Fixpoint hex_DecodeString (s : bytes) : outcome hex_error bytes :=
  match s with
  | [] => Ok []
  | [c] => match from_hex_char c with None => Err (InvalidByteError c) | Some _ => Err ErrLength end
  | p :: q :: s =>
      match from_hex_char p, from_hex_char q with
      | None, _ => Err (InvalidByteError p)
      | Some _, None => Err (InvalidByteError q)
      | Some a, Some b => l ← hex_DecodeString s; Ok (byte_of (a * 16 + b) :: l)
      end
  end.

Lemma from_hex_digit n : 0 ≤ n < 16 → from_hex_char (hex_digit n) = Some n.
Proof.
  intros Hn. assert (n = 0 ∨ n = 1 ∨ n = 2 ∨ n = 3 ∨ n = 4 ∨ n = 5 ∨ n = 6 ∨ n = 7 ∨
    n = 8 ∨ n = 9 ∨ n = 10 ∨ n = 11 ∨ n = 12 ∨ n = 13 ∨ n = 14 ∨ n = 15) as H by lia.
  repeat destruct H as [->|H]; [reflexivity..|]. by subst.
Qed.

Lemma hex_Decode_Encode s : hex_DecodeString (hex_EncodeToString s) = Ok s.
Proof.
  induction s as [|b s IH]; [done|].
  pose proof (byte_val_range b). pose proof (Z.mod_pos_bound (byte_val b) 16 ltac:(lia)).
  pose proof (Z.div_mod (byte_val b) 16 ltac:(lia)).
  unfold hex_EncodeToString in *. cbn [mbind list_bind app hex_DecodeString].
  rewrite !from_hex_digit by lia.
  cbn [mbind outcome_bind] in *. rewrite IH.
  by rewrite Z.mul_comm, <- Z.div_mod, byte_of_val by lia.
Qed.

Lemma length_hex_Encode s : length (hex_EncodeToString s) = (2 * length s)%nat.
Proof. induction s as [|b s IH]; [done|]. unfold hex_EncodeToString in *. cbn. lia. Qed.

#[global] Instance hex_Encode_inj : Inj (=) (=) hex_EncodeToString.
Proof.
  intros s t H. apply (f_equal hex_DecodeString) in H. rewrite !hex_Decode_Encode in H.
  by injection H.
Qed.

(** ** Slices *)

(** [s[lo:hi]] on a slice whose capacity is its length. *)
Definition slice {E A} (s : list A) (lo hi : Z) : outcome E (list A) :=
  if (0 <=? lo) && (lo <=? hi) && (hi <=? Z.of_nat (length s))
  then Ok (take (Z.to_nat (hi - lo)) (drop (Z.to_nat lo) s))
  else Panic PanicSliceBounds.

(** [copy(dst[at:], src)] for [at <= len(dst)]: as many elements as fit. *)
Definition copy_at {A} (dst : list A) (at_ : nat) (src : list A) : list A :=
  take at_ dst ++ take (length dst - at_) src ++ drop (at_ + length src) dst.

Lemma length_copy_at {A} (dst : list A) at_ src :
  (at_ ≤ length dst)%nat → length (copy_at dst at_ src) = length dst.
Proof.
  intros H. unfold copy_at. rewrite !length_app, !length_take, length_drop. lia.
Qed.

Lemma copy_at_exact {A} (pre mid post src : list A) :
  length src = length mid →
  copy_at (pre ++ mid ++ post) (length pre) src = pre ++ src ++ post.
Proof.
  intros H. unfold copy_at.
  rewrite take_app_length, !length_app, H. f_equal. f_equal.
  - rewrite take_ge by lia. done.
  - by rewrite drop_app_add, drop_app_length.
Qed.

(** [io.ReadFull] of [n] bytes from a reader that holds [r]: [None] is one of its
    errors ([io.EOF] or [io.ErrUnexpectedEOF]). *)
Definition ReadFull (n : Z) (r : bytes) : option (bytes * bytes) :=
  if n <=? Z.of_nat (length r)
  then Some (take (Z.to_nat n) r, drop (Z.to_nat n) r) else None.

Lemma ReadFull_app s r : ReadFull (Z.of_nat (length s)) (s ++ r) = Some (s, r).
Proof.
  unfold ReadFull. rewrite length_app.
  destruct (Z.leb_spec (Z.of_nat (length s)) (Z.of_nat (length s + length r))); [|lia].
  by rewrite Nat2Z.id, take_app_length, drop_app_length.
Qed.

Lemma ReadFull_Some n r s r' :
  0 ≤ n → ReadFull n r = Some (s, r') → r = s ++ r' ∧ Z.of_nat (length s) = n.
Proof.
  unfold ReadFull. intros Hn. destruct (Z.leb_spec n (Z.of_nat (length r))); [|done].
  intros [= <- <-]. rewrite take_drop, length_take. split; [done|lia].
Qed.

(** [sort.Slice(l, less)]: a sorted permutation; [less] may not order the elements
    totally, so its ties are the only freedom the function has. *)
Definition not_after {A} (less : A → A → bool) (a b : A) : Prop := less b a = false.

#[global] Instance not_after_dec {A} (less : A → A → bool) : RelDecision (not_after less).
Proof. intros a b. unfold not_after. apply _. Defined.

Definition sort_Slice {A} (less : A → A → bool) (l : list A) : list A :=
  merge_sort (not_after less) l.
