(* ===== verification/Float.v ===== *)
(** * Floating point: what the program computes with [float64]

    Non-negative binary64 numbers as a mantissa of at most 53 bits and an exponent, with
    conversion from integers, quotient and product rounded to the nearest, ties to even,
    and [%.1f].  The numbers of this program are far from the ends of the exponent's range,
    so neither subnormal numbers nor infinities are kept. *)

From S2P Require Import Prelude GoStd.

(** The value is [f_man * 2 ^ f_exp]. *)
Record float := mkFloat { f_man : Z; f_exp : Z }.

(** The value as a quotient of integers. *)
Definition f_num (x : float) : Z := f_man x * 2 ^ Z.max (f_exp x) 0.
Definition f_den (x : float) : Z := 2 ^ Z.max (- f_exp x) 0.

(** [a / b] to the nearest integer, ties to even. *)
Definition nearest (a b : Z) : Z :=
  let q := a / b in
  let r := a mod b in
  if 2 * r <? b then q
  else if b <? 2 * r then q + 1
  else if Z.even q then q else q + 1.

(** The exponent that gives [a / b] a mantissa of 53 bits. *)
Definition ratio_exp (a b : Z) : Z :=
  let k := Z.log2 a - Z.log2 b in
  (if a * 2 ^ Z.max (- k) 0 <? b * 2 ^ Z.max k 0 then k - 1 else k) - 52.

Definition of_ratio (a b : Z) : float :=
  if a =? 0 then mkFloat 0 0
  else
    let e := ratio_exp a b in
    mkFloat (nearest (a * 2 ^ Z.max (- e) 0) (b * 2 ^ Z.max e 0)) e.

(** [float64(n)], [x / y], [x * y], [x + y], and [int64(x)]. *)
Definition of_int (n : Z) : float := of_ratio n 1.
Definition f_div (x y : float) : float := of_ratio (f_num x * f_den y) (f_den x * f_num y).
Definition f_mul (x y : float) : float := of_ratio (f_num x * f_num y) (f_den x * f_den y).
Definition f_add (x y : float) : float :=
  of_ratio (f_num x * f_den y + f_num y * f_den x) (f_den x * f_den y).
Definition f_trunc (x : float) : Z := f_num x / f_den x.

(** The value in tenths, and [fmt]'s [%.1f]. *)
Definition tenths (x : float) : Z := nearest (10 * f_num x) (f_den x).
Definition fmt_f1 (x : float) : bytes := fmt_u (tenths x / 10) ++ bs "." ++ fmt_u (tenths x mod 10).

Example fmt_f1_ex : fmt_f1 (f_div (of_int 1536) (of_int 1024)) = bs "1.5".
Proof. vm_compute. reflexivity. Qed.
Example fmt_f1_even : fmt_f1 (f_div (of_int 1) (of_int 4)) = bs "0.2".
Proof. vm_compute. reflexivity. Qed.
(** One tenth is not a binary number. *)
Example f_mul_tenth : f_mul (of_int 3) (f_div (of_int 1) (of_int 10)) = mkFloat 5404319552844596 (-54).
Proof. vm_compute. reflexivity. Qed.
Example of_int_rounds : f_num (of_int (2 ^ 53 + 1)) = 2 ^ 53.
Proof. vm_compute. reflexivity. Qed.

(** ** Errors *)

Lemma nearest_error a b : 0 < b → 2 * Z.abs (nearest a b * b - a) ≤ b.
Proof.
  intros Hb. unfold nearest. pose proof (Z.div_mod a b ltac:(lia)) as Hd.
  pose proof (Z.mod_pos_bound a b Hb) as Hm.
  destruct (Z.ltb_spec (2 * (a mod b)) b); [|destruct (Z.ltb_spec b (2 * (a mod b))); [|destruct (Z.even _)]];
    rewrite ?Z.mul_add_distr_r, (Z.mul_comm (a / b)); lia.
Qed.

Lemma f_den_pos x : 0 < f_den x.
Proof. unfold f_den. lia. Qed.

(** [b * 2 ^ i <= a], for an exponent of either sign. *)
Definition scaled_le (a b i : Z) : Prop := b * 2 ^ Z.max i 0 ≤ a * 2 ^ Z.max (- i) 0.

Lemma scaled_le_shift a b e s :
  0 ≤ s → scaled_le a b (e + s) ↔ 2 ^ s * (b * 2 ^ Z.max e 0) ≤ a * 2 ^ Z.max (- e) 0.
Proof.
  intros Hs. unfold scaled_le.
  destruct (Z.le_gt_cases 0 e); [|destruct (Z.le_gt_cases 0 (e + s))].
  - replace (Z.max (e + s) 0) with (s + Z.max e 0) by lia.
    replace (Z.max (- (e + s)) 0) with (Z.max (- e) 0) by lia. rewrite Z.pow_add_r by lia. lia.
  - replace (Z.max e 0) with 0 by lia. replace (Z.max (- (e + s)) 0) with 0 by lia.
    replace (Z.max (e + s) 0) with (e + s) by lia. replace (Z.max (- e) 0) with (- e) by lia.
    replace (2 ^ s) with (2 ^ (e + s) * 2 ^ (- e)) by (rewrite <- Z.pow_add_r by lia; f_equal; lia).
    change (2 ^ 0) with 1. rewrite !Z.mul_1_r.
    replace (2 ^ (e + s) * 2 ^ (- e) * b) with (b * 2 ^ (e + s) * 2 ^ (- e)) by lia.
    apply Z.mul_le_mono_pos_r. lia.
  - replace (Z.max e 0) with 0 by lia. replace (Z.max (e + s) 0) with 0 by lia.
    replace (Z.max (- e) 0) with (Z.max (- (e + s)) 0 + s) by lia. rewrite Z.pow_add_r by lia.
    change (2 ^ 0) with 1. rewrite !Z.mul_1_r.
    replace (a * (2 ^ Z.max (- (e + s)) 0 * 2 ^ s)) with (a * 2 ^ Z.max (- (e + s)) 0 * 2 ^ s) by lia.
    rewrite (Z.mul_comm (2 ^ s)). apply Z.mul_le_mono_pos_r. lia.
Qed.

Lemma scaled_le_log2 a b :
  0 < a → 0 < b →
  let k := Z.log2 a - Z.log2 b in scaled_le a b (k - 1) ∧ ¬ scaled_le a b (k + 1).
Proof.
  intros Ha Hb k. unfold scaled_le.
  pose proof (Z.log2_spec a Ha) as [Ha1 Ha2]. pose proof (Z.log2_spec b Hb) as [Hb1 Hb2].
  pose proof (Z.log2_nonneg a). pose proof (Z.log2_nonneg b).
  assert (∀ i, 0 < 2 ^ Z.max i 0) as Hpos by (intros i; apply Z.pow_pos_nonneg; lia). rewrite <- !Z.add_1_r in *. split.
  - trans (2 ^ (Z.log2 b + 1 + Z.max (k - 1) 0)).
    + rewrite Z.pow_add_r by lia. apply Z.mul_le_mono_nonneg_r; [apply Z.lt_le_incl, Hpos|lia].
    + replace (Z.log2 b + 1 + Z.max (k - 1) 0) with (Z.log2 a + Z.max (- (k - 1)) 0) by lia.
      rewrite Z.pow_add_r by lia. apply Z.mul_le_mono_nonneg_r; [apply Z.lt_le_incl, Hpos|lia].
  - apply Z.nle_gt. eapply Z.lt_le_trans with (2 ^ (Z.log2 a + 1 + Z.max (- (k + 1)) 0)).
    + rewrite Z.pow_add_r by lia. apply Z.mul_lt_mono_pos_r; [apply Hpos|lia].
    + replace (Z.log2 a + 1 + Z.max (- (k + 1)) 0) with (Z.log2 b + Z.max (k + 1) 0) by lia.
      rewrite Z.pow_add_r by lia. apply Z.mul_le_mono_nonneg_r; [apply Z.lt_le_incl, Hpos|lia].
Qed.

(** The mantissa has 53 bits. *)
Lemma ratio_exp_spec a b :
  0 < a → 0 < b →
  let e := ratio_exp a b in
  let A := a * 2 ^ Z.max (- e) 0 in
  let B := b * 2 ^ Z.max e 0 in
  2 ^ 52 * B ≤ A < 2 ^ 53 * B.
Proof.
  intros Ha Hb e A B. destruct (scaled_le_log2 a b Ha Hb) as [H1 H2].
  set (k := Z.log2 a - Z.log2 b) in *.
  assert (scaled_le a b (e + 52) ∧ ¬ scaled_le a b (e + 53)) as [H3 H4].
  { unfold e, ratio_exp. fold k. destruct (Z.ltb_spec (a * 2 ^ Z.max (- k) 0) (b * 2 ^ Z.max k 0)).
    - replace (k - 1 - 52 + 52) with (k - 1) by lia. replace (k - 1 - 52 + 53) with k by lia.
      split; [done|]. unfold scaled_le. lia.
    - replace (k - 52 + 52) with k by lia. replace (k - 52 + 53) with (k + 1) by lia.
      split; [|done]. unfold scaled_le. lia. }
  rewrite scaled_le_shift in H3, H4 by lia. fold A B in H3, H4. lia.
Qed.

(** A rounded quotient is off by a part in [2 ^ 53] at most. *)
Lemma of_ratio_error a b :
  0 ≤ a → 0 < b →
  let x := of_ratio a b in 2 ^ 53 * Z.abs (f_num x * b - a * f_den x) ≤ a * f_den x.
Proof.
  intros Ha Hb x. unfold x, of_ratio. destruct (Z.eqb_spec a 0) as [->|Hne];
    [unfold f_num; cbn [f_man]; lia|].
  destruct (ratio_exp_spec a b ltac:(lia) Hb) as [H1 _]. unfold f_num, f_den. cbn [f_man f_exp].
  set (e := ratio_exp a b) in *. set (p := 2 ^ Z.max (- e) 0) in *. set (q := 2 ^ Z.max e 0) in *.
  pose proof (nearest_error (a * p) (b * q) ltac:(lia)) as Hn.
  replace (nearest (a * p) (b * q) * q * b) with (nearest (a * p) (b * q) * (b * q)) by lia. lia.
Qed.

(** What [%.1f] prints for [float64(n) / float64(d)] is the quotient to the nearest tenth,
    up to the errors of the conversion and of the division. *)
Lemma tenths_error n d :
  0 ≤ n → 0 < d → f_num (of_int d) = d * f_den (of_int d) →
  2 ^ 54 * Z.abs (tenths (f_div (of_int n) (of_int d)) * d - 10 * n) ≤ 2 ^ 53 * d + 60 * n.
Proof.
  intros Hn Hd Hex. unfold tenths. set (x := f_div _ _).
  pose proof (f_den_pos (of_int d)) as HE. pose proof (f_den_pos (of_int n)) as HM. pose proof (f_den_pos x) as HY.
  pose proof (of_ratio_error n 1 Hn ltac:(lia)) as H1. cbv zeta in H1. fold (of_int n) in H1.
  set (N := f_num (of_int n)) in *. set (M := f_den (of_int n)) in *. set (E := f_den (of_int d)) in *.
  assert (0 ≤ n * M) as HnM by (apply Z.mul_nonneg_nonneg; lia). assert (0 ≤ N) as HN by lia.
  pose proof (of_ratio_error (N * E) (M * f_num (of_int d)) ltac:(apply Z.mul_nonneg_nonneg; lia)
    ltac:(rewrite Hex; repeat apply Z.mul_pos_pos; lia)) as H2.
  cbv zeta in H2. change (of_ratio _ _) with x in H2. rewrite Hex in H2.
  set (X := f_num x) in *. set (Y := f_den x) in *.
  pose proof (nearest_error (10 * X) Y HY) as H3. set (t := nearest _ _) in *.
  assert (2 ^ 53 * Z.abs (X * M * d - N * Y) ≤ N * Y) as H2'.
  { replace (X * (M * (d * E)) - N * E * Y) with ((X * M * d - N * Y) * E) in H2 by lia.
    rewrite Z.abs_mul, (Z.abs_eq E) in H2 by lia. nia. }
  assert (2 ^ 53 * (N * Y) ≤ (2 ^ 53 + 1) * (n * M * Y)) as H4.
  { rewrite !Z.mul_assoc. apply Z.mul_le_mono_nonneg_r; lia. }
  assert (2 ^ 53 * Z.abs ((N - n * M) * Y) ≤ n * M * Y) as H5 by (rewrite Z.abs_mul, (Z.abs_eq Y) by lia; nia).
  assert (2 * Z.abs ((t * Y - 10 * X) * (d * M)) ≤ d * M * Y) as H6.
  { rewrite Z.abs_mul, (Z.abs_eq (d * M)) by nia. nia. }
  apply (Z.mul_le_mono_pos_r _ _ (M * Y)); [nia|].
  assert ((t * d - 10 * n) * (M * Y) =
    (t * Y - 10 * X) * (d * M) + 10 * (X * M * d - N * Y) + 10 * ((N - n * M) * Y)) as Hid by lia.
  rewrite <- Z.mul_assoc, <- (Z.abs_eq (M * Y)), <- Z.abs_mul, Hid by (apply Z.mul_nonneg_nonneg; lia). lia.
Qed.
