(* ===== verification/Net.v ===== *)
(** * Addresses: what the crawler uses of Go's [net] package

    [net.IP] as the byte slice it is, [To4], [String], [JoinHostPort], the ["%s:%d"]
    form of a peer's address, and the conversion of a rune to a string. *)

From S2P Require Import Prelude GoStd.

(** The prefix of an IPv4 address in its 16-byte form. *)
Definition v4InV6Prefix : bytes := replicate 10 x00 ++ [xff; xff].

(** [IP.To4]: the 4-byte form, [nil] when the address is not an IPv4 one. *)
Definition To4 (ip : bytes) : bytes :=
  if decide (length ip = 4%nat) then ip
  else if decide (length ip = 16%nat) then
    if decide (take 12 ip = v4InV6Prefix) then drop 12 ip else []
  else [].

Fixpoint join (sep : bytes) (l : list bytes) : bytes :=
  match l with
  | [] => []
  | [s] => s
  | s :: l => s ++ sep ++ join sep l
  end.

Definition ip4_string (ip : bytes) : bytes := join (bs ".") ((λ b, fmt_u (byte_val b)) <$> ip).

(** *** The textual form of an IPv6 address (the longest run of at least two zero
    groups, the first of its length, is written ["::"]). *)
Fixpoint groups16 (ip : bytes) : list Z :=
  match ip with a :: b :: ip => byte_val a * 256 + byte_val b :: groups16 ip | _ => [] end.

Fixpoint hex_u (fuel : nat) (n : Z) (acc : bytes) : bytes :=
  match fuel with
  | O => acc
  | S fuel =>
      let acc := hex_digit (n mod 16) :: acc in
      if n <? 16 then acc else hex_u fuel (n / 16) acc
  end.

Fixpoint zeros_from (g : list Z) : nat :=
  match g with x :: g => if x =? 0 then S (zeros_from g) else O | [] => O end.

(** The run to compress as [(start, end)], scanning from index [i]. *)
Fixpoint zero_run (g : list Z) (i : nat) (best : nat * nat) : nat * nat :=
  match g with
  | [] => best
  | _ :: g' =>
      let l := zeros_from g in
      let best := if (2 <=? l)%nat && (best.2 - best.1 <? l)%nat then (i, (i + l)%nat) else best in
      zero_run g' (S i) best
  end.

Definition ip6_string (ip : bytes) : bytes :=
  let g := groups16 ip in
  let hex := λ l, join (bs ":") ((λ n, hex_u 4 n []) <$> l) in
  let '(s, e) := zero_run g 0 (0%nat, 0%nat) in
  if (e =? s)%nat then hex g else hex (take s g) ++ bs "::" ++ hex (drop e g).

Definition IP_String (ip : bytes) : bytes :=
  if decide (ip = []) then bs "<nil>"
  else if negb (bool_decide (length ip = 4%nat) || bool_decide (length ip = 16%nat))
  then bs "?" ++ hex_EncodeToString ip
  else if decide (length (To4 ip) = 4%nat) then ip4_string (To4 ip)
  else ip6_string ip.

(** [net.JoinHostPort]. *)
Definition JoinHostPort (host port : bytes) : bytes :=
  if decide (x3a ∈ host) then bs "[" ++ host ++ bs "]:" ++ port
  else host ++ bs ":" ++ port.

(** [fmt.Sprintf("%s:%d", ip, port)]. *)
Definition peer_addr (ip : bytes) (port : Z) : bytes := IP_String ip ++ bs ":" ++ fmt_d port.

(** [string(rune(n))]: the UTF-8 encoding of the code point; an invalid one is
    replaced by U+FFFD. *)
Definition string_of_rune (n : Z) : bytes :=
  let r := wrapS 32 n in
  let r := if (r <? 0) || (1114111 <? r) || ((55296 <=? r) && (r <=? 57343)) then 65533 else r in
  if r <? 128 then [byte_of r]
  else if r <? 2048 then [byte_of (192 + r / 64); byte_of (128 + r mod 64)]
  else if r <? 65536 then
    [byte_of (224 + r / 4096); byte_of (128 + r / 64 mod 64); byte_of (128 + r mod 64)]
  else [byte_of (240 + r / 262144); byte_of (128 + r / 4096 mod 64);
        byte_of (128 + r / 64 mod 64); byte_of (128 + r mod 64)].

Example IP_String_v4 : IP_String [x7f; x00; x00; x01] = bs "127.0.0.1".
Proof. vm_compute. reflexivity. Qed.
Example IP_String_mapped : IP_String (v4InV6Prefix ++ [x08; x08; x04; x04]) = bs "8.8.4.4".
Proof. vm_compute. reflexivity. Qed.
Example IP_String_v6 :
  IP_String ([x20; x01; x0d; xb8] ++ replicate 11 x00 ++ [x01]) = bs "2001:db8::1".
Proof. vm_compute. reflexivity. Qed.
Example IP_String_any : IP_String (replicate 16 x00) = bs "::".
Proof. vm_compute. reflexivity. Qed.

(** ** The text of an address determines it *)

Lemma fmt_u_inj m n : 0 ≤ m → 0 ≤ n → fmt_u m = fmt_u n → m = n.
Proof.
  intros Hm Hn H. destruct (fmt_u_spec m Hm) as [<- _], (fmt_u_spec n Hn) as [<- _].
  by rewrite H.
Qed.

Lemma fmt_d_inj m n : fmt_d m = fmt_d n → m = n.
Proof.
  unfold fmt_d. change (bs "-") with [x2d].
  assert (∀ z, 0 ≤ z → head (fmt_u z) ≠ Some x2d) as Hh.
  { intros z Hz. destruct (fmt_u_spec z Hz) as [_ Hd].
    destruct (fmt_u_cons z) as (c & s & E). rewrite E in *. intros [= ->]. by apply Forall_cons_1 in Hd as [[] _]. }
  destruct (Z.ltb_spec m 0), (Z.ltb_spec n 0); cbn [app]; intros H'.
  - injection H' as H'. apply fmt_u_inj in H'; lia.
  - exfalso. apply (Hh n); [lia|]. by rewrite <- H'.
  - exfalso. apply (Hh m); [lia|]. by rewrite H'.
  - apply fmt_u_inj in H'; lia.
Qed.

Lemma fmt_u_no c n : 0 ≤ n → is_digit c = false → c ∉ fmt_u n.
Proof.
  intros Hn Hc Hin. destruct (fmt_u_spec n Hn) as [_ Hd]. rewrite Forall_forall in Hd.
  apply Hd, Is_true_true in Hin. congruence.
Qed.

Lemma app_sep_inj (c : byte) s s' t t' :
  c ∉ s → c ∉ s' → s ++ c :: t = s' ++ c :: t' → s = s' ∧ t = t'.
Proof.
  revert s'. induction s as [|a s IH]; intros [|a' s'] Hs Hs' H; cbn in *.
  - by injection H as <-.
  - injection H as -> _. set_solver.
  - injection H as -> _. set_solver.
  - injection H as -> H. apply IH in H as [-> ->]; [done|set_solver..].
Qed.

Lemma ip4_string_inj ip ip' :
  length ip = 4%nat → length ip' = 4%nat → ip4_string ip = ip4_string ip' → ip = ip'.
Proof.
  intros H H'. destruct ip as [|a [|b [|c [|d [|]]]]], ip' as [|a' [|b' [|c' [|d' [|]]]]]; try done.
  unfold ip4_string. cbn [fmap list_fmap join]. change (bs ".") with [x2e]. cbn [app].
  assert (∀ b, x2e ∉ fmt_u (byte_val b)) as Hn.
  { intros e. apply fmt_u_no; [apply byte_val_range|done]. }
  assert (∀ x y, fmt_u (byte_val x) = fmt_u (byte_val y) → x = y) as Hi.
  { intros x y E. apply (inj byte_val), fmt_u_inj; [apply byte_val_range..|done]. }
  intros E. apply app_sep_inj in E as [->%Hi E]; [|done..].
  apply app_sep_inj in E as [->%Hi E]; [|done..].
  apply app_sep_inj in E as [->%Hi ->%Hi]; done.
Qed.

Lemma IP_String_4 ip : length ip = 4%nat → IP_String ip = ip4_string ip.
Proof.
  intros H. unfold IP_String, To4. rewrite !(bool_decide_eq_true_2 _ H). cbn.
  rewrite (decide_True _ _ H), decide_False, decide_True by (done || by intros ->). done.
Qed.

Lemma ip4_string_no_colon ip : x3a ∉ ip4_string ip.
Proof.
  unfold ip4_string. induction ip as [|a ip IH]; [set_solver|].
  assert (x3a ∉ fmt_u (byte_val a)) by (apply fmt_u_no; [apply byte_val_range|done]).
  destruct ip as [|b ip]; [done|].
  cbn [fmap list_fmap join] in *. change (bs ".") with [x2e].
  rewrite !elem_of_app, elem_of_cons, elem_of_nil. intros [|[[|]|]]; done.
Qed.

(** On 4-byte addresses the key ["%s:%d"] is injective. *)
Lemma peer_addr_inj ip ip' port port' :
  length ip = 4%nat → length ip' = 4%nat →
  peer_addr ip port = peer_addr ip' port' → ip = ip' ∧ port = port'.
Proof.
  intros H H'. unfold peer_addr. rewrite !IP_String_4 by done.
  change (bs ":") with [x3a]. cbn [app]. intros E.
  apply app_sep_inj in E as [E1 E2]; [|apply ip4_string_no_colon..].
  split; [by apply ip4_string_inj|by apply fmt_d_inj].
Qed.
