(* ===== verification/Bencode.v ===== *)
(** * Bencode: [internal/bt/bencode.go]

    The dynamic values the encoder accepts and the decoder builds, [Encode],
    [Decode] and the typed getters on dictionaries.  A Go map is an association
    list whose keys are distinct; its order stands for the iteration order, which
    Go leaves open.  A [*bytes.Reader] is the list of the bytes it has not read. *)

From S2P Require Import Prelude GoStd.


(** ** Values: the dynamic types behind [interface{}] *)

Inductive bval :=
  | VString (s : bytes)                  (* string *)
  | VBytes (s : bytes)                   (* []byte *)
  | VInt (z : Z)                         (* int *)
  | VInt64 (z : Z)                       (* int64 *)
  | VUint16 (z : Z)                      (* uint16 *)
  | VUint32 (z : Z)                      (* uint32 *)
  | VList (l : list bval)                (* []interface{} *)
  | VDict (d : list (bytes * bval))      (* map[string]interface{} *)
  | VOther (ty : string).                (* any other type, or nil *)

Abbreviation dict := (list (bytes * bval)).

Section bval_ind.
Variable P : bval → Prop.
Hypotheses (HString : ∀ s, P (VString s)) (HBytes : ∀ s, P (VBytes s))
  (HInt : ∀ z, P (VInt z)) (HInt64 : ∀ z, P (VInt64 z))
  (HUint16 : ∀ z, P (VUint16 z)) (HUint32 : ∀ z, P (VUint32 z))
  (HList : ∀ l, Forall P l → P (VList l))
  (HDict : ∀ d, Forall (λ e, P e.2) d → P (VDict d))
  (HOther : ∀ t, P (VOther t)).

Fixpoint bval_nested_ind (v : bval) : P v :=
  match v with
  | VString s => HString s
  | VBytes s => HBytes s
  | VInt z => HInt z
  | VInt64 z => HInt64 z
  | VUint16 z => HUint16 z
  | VUint32 z => HUint32 z
  | VList l => HList l
      ((fix go l : Forall P l :=
          match l with [] => Forall_nil_2 _ | v :: l => Forall_cons_2 _ _ _ (bval_nested_ind v) (go l) end) l)
  | VDict d => HDict d
      ((fix go d : Forall (λ e, P e.2) d :=
          match d with [] => Forall_nil_2 _ | e :: d => Forall_cons_2 _ _ _ (bval_nested_ind e.2) (go d) end) d)
  | VOther t => HOther t
  end.
End bval_ind.

(** Reading and assigning a key of a Go map. *)
Fixpoint dict_lookup {A} (k : bytes) (d : list (bytes * A)) : option A :=
  match d with
  | [] => None
  | (k', v) :: d => if decide (k = k') then Some v else dict_lookup k d
  end.

Fixpoint dict_insert {A} (k : bytes) (v : A) (d : list (bytes * A)) : list (bytes * A) :=
  match d with
  | [] => [(k, v)]
  | (k', v') :: d => if decide (k = k') then (k, v) :: d else (k', v') :: dict_insert k v d
  end.

Inductive bencode_error :=
  | ErrInvalidByte (b : byte)     (* wraps ErrInvalidBencode: unexpected byte *)
  | ErrInvalidLength              (* wraps ErrInvalidBencode: invalid string length *)
  | ErrUnexpectedEOF
  | ErrNum (e : num_error)        (* an error of strconv *)
  | ErrUnsupportedType            (* unsupported type: %T *)
  | ErrExpectedDict.              (* expected dictionary, got %T *)

(** ** Encoding *)

(** ["%d:%s"] of a byte string. *)
Definition enc_string (s : bytes) : bytes := fmt_d (Z.of_nat (length s)) ++ bs ":" ++ s.

(** ["i%de"]. *)
Definition enc_int (z : Z) : bytes := bs "i" ++ fmt_d z ++ bs "e".

(** The loop over the sorted keys; [enc] holds the encodings of the values. *)
Fixpoint encode_entries (keys : list bytes) (enc : list (bytes * outcome bencode_error bytes))
  : outcome bencode_error bytes :=
  match keys with
  | [] => Ok []
  | k :: keys =>
      v ← default (Err ErrUnsupportedType) (dict_lookup k enc);
      rest ← encode_entries keys enc;
      Ok (enc_string k ++ v ++ rest)
  end.

Fixpoint encode (v : bval) : outcome bencode_error bytes :=
  match v with
  | VString s | VBytes s => Ok (enc_string s)
  | VInt z | VInt64 z | VUint16 z | VUint32 z => Ok (enc_int z)
  | VList l =>
      items ← seq_outcomes (List.map encode l);
      Ok (bs "l" ++ concat items ++ bs "e")
  | VDict d =>
      let enc := List.map (λ e, (e.1, encode e.2)) d in
      body ← encode_entries (sort_Strings (List.map fst d)) enc;
      Ok (bs "d" ++ body ++ bs "e")
  | VOther _ => Err ErrUnsupportedType
  end.

Definition Encode (v : bval) : outcome bencode_error bytes := encode v.

(** ** Decoding *)

(** [make([]byte, n)] panics when [n] bytes exceed the address space the runtime
    manages (48 bits on 64-bit platforms). *)
Definition maxAlloc : Z := 2 ^ 48.

Definition ReadByte (r : bytes) : option (byte * bytes) :=
  match r with [] => None | b :: r => Some (b, r) end.

(** [peekByte]: [ReadByte] then [UnreadByte]. *)
Definition peekByte (r : bytes) : option byte := fst <$> ReadByte r.

Fixpoint decodeInt_loop (buf r : bytes) : outcome bencode_error (bytes * bytes) :=
  match r with
  | [] => Err ErrUnexpectedEOF
  | b :: r => if decide (b = x65) then Ok (buf, r) else decodeInt_loop (buf ++ [b]) r
  end.

Definition decodeInt (r : bytes) : outcome bencode_error (Z * bytes) :=
  '(buf, r) ← decodeInt_loop [] r;
  z ← map_err ErrNum (ParseInt buf);
  Ok (z, r).

Fixpoint decodeString_loop (lenBuf r : bytes) : outcome bencode_error (bytes * bytes) :=
  match r with
  | [] => Err ErrUnexpectedEOF
  | b :: r =>
      if decide (b = x3a) then Ok (lenBuf, r)
      else if negb (is_digit b) then Err ErrInvalidLength
      else decodeString_loop (lenBuf ++ [b]) r
  end.

Definition decodeString (r : bytes) : outcome bencode_error (bytes * bytes) :=
  '(lenBuf, r) ← decodeString_loop [] r;
  length ← map_err ErrNum (Atoi lenBuf);
  if (length <? 0) || (maxAlloc <? length) then Panic PanicMakeSlice
  else match ReadFull length r with
       | None => Err ErrUnexpectedEOF
       | Some (data, r) => Ok (data, r)
       end.

Fixpoint decode (fuel : nat) (r : bytes) : outcome bencode_error (bval * bytes) :=
  match fuel with
  | O => NoFuel
  | S fuel =>
      match ReadByte r with
      | None => Err ErrUnexpectedEOF
      | Some (b, r') =>
          if decide (b = x69) then '(z, r) ← decodeInt r'; Ok (VInt64 z, r)
          else if decide (b = x6c) then '(l, r) ← decodeList fuel [] r'; Ok (VList l, r)
          else if decide (b = x64) then '(d, r) ← decodeDict fuel [] r'; Ok (VDict d, r)
          else if is_digit b then '(s, r) ← decodeString r; Ok (VBytes s, r)
          else Err (ErrInvalidByte b)
      end
  end
with decodeList (fuel : nat) (l : list bval) (r : bytes) : outcome bencode_error (list bval * bytes) :=
  match fuel with
  | O => NoFuel
  | S fuel =>
      match peekByte r with
      | None => Err ErrUnexpectedEOF
      | Some b =>
          if decide (b = x65) then Ok (l, drop 1 r)
          else '(item, r) ← decode fuel r; decodeList fuel (l ++ [item]) r
      end
  end
with decodeDict (fuel : nat) (d : dict) (r : bytes) : outcome bencode_error (dict * bytes) :=
  match fuel with
  | O => NoFuel
  | S fuel =>
      match peekByte r with
      | None => Err ErrUnexpectedEOF
      | Some b =>
          if decide (b = x65) then Ok (d, drop 1 r)
          else '(key, r) ← decodeString r;
               '(val, r) ← decode fuel r;
               decodeDict fuel (dict_insert key val d) r
      end
  end.

(** Enough fuel for any input of the length of [data]. *)
Definition decode_fuel (data : bytes) : nat := 2 * length data + 2.

Definition Decode (data : bytes) : outcome bencode_error bval :=
  '(v, _) ← decode (decode_fuel data) data; Ok v.

Definition DecodeDict (data : bytes) : outcome bencode_error dict :=
  v ← Decode data;
  match v with VDict d => Ok d | _ => Err ErrExpectedDict end.

(** ** Getters *)

Definition GetString (d : dict) (key : bytes) : option bytes :=
  match dict_lookup key d with
  | Some (VBytes v) => Some v
  | Some (VString v) => Some v
  | _ => None
  end.

Definition GetBytes (d : dict) (key : bytes) : option bytes :=
  match dict_lookup key d with
  | Some (VBytes v) => Some v
  | Some (VString v) => Some v
  | _ => None
  end.

Definition GetInt (d : dict) (key : bytes) : option Z :=
  match dict_lookup key d with
  | Some (VInt64 v) => Some v
  | Some (VInt v) => Some v
  | _ => None
  end.

Definition GetDict (d : dict) (key : bytes) : option dict :=
  match dict_lookup key d with Some (VDict v) => Some v | _ => None end.

Definition GetList (d : dict) (key : bytes) : option (list bval) :=
  match dict_lookup key d with Some (VList v) => Some v | _ => None end.

(** ** Association lists as Go maps *)

Section dict_lemmas.
Context {A : Type}.
Implicit Types (d : list (bytes * A)) (k : bytes) (v : A).

(** The finite map a Go map denotes. *)
Definition dict_map d : gmap bytes A := list_to_map d.

Lemma dict_lookup_map k d : dict_lookup k d = dict_map d !! k.
Proof.
  induction d as [|[k' v] d IH]; [done|]. cbn. case_decide as H.
  - subst. by rewrite lookup_insert_eq.
  - by rewrite lookup_insert_ne by done.
Qed.

Lemma dict_insert_map k v d : dict_map (dict_insert k v d) = <[k := v]> (dict_map d).
Proof.
  induction d as [|[k' v'] d IH]; [done|]. cbn. case_decide as H; cbn.
  - subst. by rewrite insert_insert_eq.
  - unfold dict_map in IH. by rewrite IH, insert_insert_ne.
Qed.

Lemma dict_lookup_insert_eq k v d : dict_lookup k (dict_insert k v d) = Some v.
Proof. by rewrite dict_lookup_map, dict_insert_map, lookup_insert_eq. Qed.

Lemma dict_lookup_insert_ne k k' v d :
  k ≠ k' → dict_lookup k' (dict_insert k v d) = dict_lookup k' d.
Proof. intros. by rewrite !dict_lookup_map, dict_insert_map, lookup_insert_ne. Qed.

Lemma elem_of_dict_insert k v d e :
  e ∈ dict_insert k v d → e = (k, v) ∨ e ∈ d.
Proof.
  induction d as [|[k' v'] d IH]; cbn; [set_solver|]. case_decide; set_solver.
Qed.

Lemma elem_of_keys_insert k v d k' :
  k' ∈ (dict_insert k v d).*1 ↔ k' = k ∨ k' ∈ d.*1.
Proof.
  induction d as [|[k1 v1] d IH]; cbn; [set_solver|].
  case_decide; subst; cbn; set_solver.
Qed.

Lemma NoDup_dict_insert k v d : NoDup d.*1 → NoDup (dict_insert k v d).*1.
Proof.
  induction d as [|[k' v'] d IH]; cbn; [by repeat constructor; set_solver|].
  intros [Hk Hd]%NoDup_cons. case_decide as H; cbn.
  - subst. by constructor.
  - constructor; [|by apply IH]. rewrite elem_of_keys_insert. set_solver.
Qed.

Lemma dict_insert_fresh k v d : k ∉ d.*1 → dict_insert k v d = d ++ [(k, v)].
Proof.
  induction d as [|[k' v'] d IH]; cbn; [done|]. intros Hk.
  rewrite decide_False by set_solver. rewrite IH by set_solver. done.
Qed.

Lemma dict_lookup_elem_of k v d : dict_lookup k d = Some v → (k, v) ∈ d.
Proof.
  induction d as [|[k' v'] d IH]; cbn; [done|].
  case_decide; [intros [= ->]; subst|intros ?%IH]; set_solver.
Qed.

Lemma dict_lookup_Some k v d : NoDup d.*1 → dict_lookup k d = Some v ↔ (k, v) ∈ d.
Proof. intros Hd. rewrite dict_lookup_map. symmetry. by apply elem_of_list_to_map. Qed.

Lemma dict_lookup_is_Some k d : k ∈ d.*1 → ∃ v, dict_lookup k d = Some v.
Proof.
  induction d as [|[k' v'] d IH]; cbn; [set_solver|].
  case_decide; [eauto|]. intros [->|?]%elem_of_cons; [done|by apply IH].
Qed.

Lemma dict_lookup_perm k d d' :
  NoDup d.*1 → d ≡ₚ d' → dict_lookup k d = dict_lookup k d'.
Proof.
  intros Hd Hp. rewrite !dict_lookup_map. unfold dict_map.
  by rewrite (list_to_map_proper d d').
Qed.
End dict_lemmas.

Lemma dict_lookup_fmap {A B} (f : A → B) k (d : list (bytes * A)) :
  dict_lookup k (List.map (λ e, (e.1, f e.2)) d) = f <$> dict_lookup k d.
Proof. induction d as [|[k' v] d IH]; cbn; [done|]. by case_decide. Qed.

Lemma keys_map {A B} (f : A → B) (d : list (bytes * A)) :
  (List.map (λ e, (e.1, f e.2)) d).*1 = d.*1.
Proof. induction d as [|[k v] d IH]; [done|]. by cbn; f_equal. Qed.

Example decode_ex : Decode (bs "d3:cow3:moo4:spami-3ee") =
  Ok (VDict [(bs "cow", VBytes (bs "moo")); (bs "spam", VInt64 (-3))]).
Proof. vm_compute. reflexivity. Qed.
Example encode_ex : Encode (VDict [(bs "t", VInt 3); (bs "a", VList [VString (bs "x"); VInt64 (-12)])]) =
  Ok (bs "d1:al1:xi-12ee1:ti3ee").
Proof. vm_compute. reflexivity. Qed.
