(* ===== verification/BencodeSpec.v ===== *)
(** * The bencode grammar, and what the codec of [Bencode] implements

    [bencoded p v] is the specification: the byte string [p] is a bencoding of the
    value [v].  The recursive-descent decoder accepts exactly the grammar, reads
    exactly the encoding and leaves what follows; the encoder writes a bencoding
    of the value's normal form, whatever order Go iterates its maps in. *)

From S2P Require Import Prelude GoStd Bencode.


(** ** The grammar *)

Inductive bstring : bytes → bytes → Prop :=
  | bstring_intro ds s :
      Forall is_digit ds → Atoi ds = Ok (Z.of_nat (length s)) →
      Z.of_nat (length s) ≤ maxAlloc → bstring (ds ++ x3a :: s) s.

(** Repeated keys overwrite each other, as in a Go map. *)
Definition dict_of (d : dict) (es : list (bytes * bval)) : dict :=
  foldl (λ d e, dict_insert e.1 e.2 d) d es.

Inductive bencoded : bytes → bval → Prop :=
  | bencoded_int s z :
      x65 ∉ s → ParseInt s = Ok z → bencoded (x69 :: s ++ [x65]) (VInt64 z)
  | bencoded_string p s : bstring p s → bencoded p (VBytes s)
  | bencoded_list p l : bencoded_items p l → bencoded (x6c :: p ++ [x65]) (VList l)
  | bencoded_dict p es :
      bencoded_entries p es → bencoded (x64 :: p ++ [x65]) (VDict (dict_of [] es))
with bencoded_items : bytes → list bval → Prop :=
  | bencoded_items_nil : bencoded_items [] []
  | bencoded_items_cons p v q l :
      bencoded p v → bencoded_items q l → bencoded_items (p ++ q) (v :: l)
with bencoded_entries : bytes → list (bytes * bval) → Prop :=
  | bencoded_entries_nil : bencoded_entries [] []
  | bencoded_entries_cons pk k p v q es :
      bstring pk k → bencoded p v → bencoded_entries q es →
      bencoded_entries (pk ++ p ++ q) ((k, v) :: es).

Scheme bencoded_mut := Induction for bencoded Sort Prop
  with bencoded_items_mut := Induction for bencoded_items Sort Prop
  with bencoded_entries_mut := Induction for bencoded_entries Sort Prop.
Combined Scheme bencoded_mutind from bencoded_mut, bencoded_items_mut, bencoded_entries_mut.

(** Values the decoder builds: strings as [[]byte], numbers as [int64], maps
    without repeated keys. *)
Inductive decoded : bval → Prop :=
  | decoded_bytes s : Z.of_nat (length s) ≤ maxAlloc → decoded (VBytes s)
  | decoded_int z : is_int64 z → decoded (VInt64 z)
  | decoded_list l : Forall decoded l → decoded (VList l)
  | decoded_dict d :
      NoDup d.*1 → Forall (λ e, Z.of_nat (length e.1) ≤ maxAlloc) d →
      Forall (λ e, decoded e.2) d → decoded (VDict d).

(** ** Strings and integers *)

Lemma decodeString_loop_app buf ds r :
  Forall is_digit ds → decodeString_loop buf (ds ++ x3a :: r) = Ok (buf ++ ds, r).
Proof.
  intros Hds. revert buf. induction Hds as [|b ds Hb Hds IH]; intros buf; cbn.
  - by rewrite app_nil_r.
  - apply Is_true_true in Hb. rewrite decide_False by (by intros ->).
    rewrite Hb. cbn. rewrite IH. by rewrite <- app_assoc.
Qed.

Lemma decodeString_loop_inv buf r0 b r :
  decodeString_loop buf r0 = Ok (b, r) →
  ∃ ds, b = buf ++ ds ∧ Forall is_digit ds ∧ r0 = ds ++ (x3a :: r).
Proof.
  revert buf. induction r0 as [|c r0 IH]; intros buf; cbn; [done|].
  case_decide as Hc.
  - intros [= <- <-]. exists []. rewrite app_nil_r, Hc. eauto.
  - destruct (is_digit c) eqn:Hd; cbn; [|done].
    intros (ds & -> & Hds & ->)%IH. exists (c :: ds). rewrite <- app_assoc.
    split_and!; [done| |done]. constructor; [by apply Is_true_true|done].
Qed.

Lemma decodeString_complete p s r : bstring p s → decodeString (p ++ r) = Ok (s, r).
Proof.
  intros [ds s' Hds Hat Hlen]. unfold decodeString.
  rewrite <- app_assoc. cbn [app]. rewrite decodeString_loop_app by done.
  cbn. rewrite Hat. cbn.
  destruct (Z.ltb_spec (Z.of_nat (length s')) 0); [lia|].
  destruct (Z.ltb_spec maxAlloc (Z.of_nat (length s'))); [lia|]. cbn.
  by rewrite ReadFull_app.
Qed.

Lemma decodeString_sound r0 s r :
  decodeString r0 = Ok (s, r) → ∃ p, r0 = p ++ r ∧ bstring p s.
Proof.
  unfold decodeString.
  intros ([b r1] & (ds & -> & Hds & ->)%decodeString_loop_inv & H)%bind_Ok_inv.
  apply bind_Ok_inv in H as (n & Hn & H). cbn in Hn.
  destruct (Atoi ds) as [m| | |] eqn:Hat; cbn in Hn; try done. injection Hn as ->.
  destruct (Z.ltb_spec n 0); [done|]. destruct (Z.ltb_spec maxAlloc n); [done|]. cbn in H.
  destruct (ReadFull n r1) as [[data r2]|] eqn:HR; [|done]. injection H as <- <-.
  apply ReadFull_Some in HR as [-> Hl]; [|lia].
  exists (ds ++ x3a :: data). rewrite <- app_assoc. split; [done|].
  constructor; [done| |lia]. by rewrite Hl.
Qed.

Lemma decodeInt_loop_app buf s r :
  x65 ∉ s → decodeInt_loop buf (s ++ x65 :: r) = Ok (buf ++ s, r).
Proof.
  revert buf. induction s as [|b s IH]; intros buf Hs; cbn.
  - by rewrite app_nil_r.
  - apply not_elem_of_cons in Hs as [Hb Hs]. rewrite decide_False by done.
    rewrite IH by done. by rewrite <- app_assoc.
Qed.

Lemma decodeInt_loop_inv buf r0 b r :
  decodeInt_loop buf r0 = Ok (b, r) → ∃ s, b = buf ++ s ∧ (x65 ∉ s) ∧ r0 = s ++ (x65 :: r).
Proof.
  revert buf. induction r0 as [|c r0 IH]; intros buf; cbn; [done|].
  case_decide as Hc.
  - intros [= <- <-]. exists []. rewrite app_nil_r, Hc. split_and!; [done|set_solver|done].
  - intros (s & -> & Hs & ->)%IH. exists (c :: s). rewrite <- app_assoc.
    split_and!; [done| |done]. by apply not_elem_of_cons.
Qed.

Lemma decodeInt_complete s z r :
  x65 ∉ s → ParseInt s = Ok z → decodeInt (s ++ x65 :: r) = Ok (z, r).
Proof. intros Hs Hz. unfold decodeInt. rewrite decodeInt_loop_app by done. cbn. by rewrite Hz. Qed.

Lemma decodeInt_sound r0 z r :
  decodeInt r0 = Ok (z, r) → ∃ s, r0 = s ++ (x65 :: r) ∧ (x65 ∉ s) ∧ ParseInt s = Ok z.
Proof.
  unfold decodeInt.
  intros ([b r1] & (s & -> & Hs & ->)%decodeInt_loop_inv & H)%bind_Ok_inv.
  apply bind_Ok_inv in H as (n & Hn & [= <- <-]). cbn in Hn.
  destruct (ParseInt s) eqn:HP; cbn in Hn; try done. injection Hn as ->. eauto.
Qed.

Lemma bstring_head p s : bstring p s → ∃ b p', p = b :: p' ∧ is_digit b = true.
Proof.
  intros [[|c ds] s' Hds Hat _]; [done|].
  apply Forall_cons_1 in Hds as [Hc _]. exists c, (ds ++ x3a :: s').
  split; [done|by apply Is_true_true].
Qed.

Lemma bencoded_head p v : bencoded p v → ∃ b p', p = b :: p' ∧ b ≠ x65.
Proof.
  intros [| ? ? (b & p' & -> & Hb)%bstring_head| |]; eexists _, _; (split; [done|]); try done.
  by intros ->.
Qed.

Lemma is_digit_not_tag b : is_digit b = true → b ≠ x69 ∧ b ≠ x6c ∧ b ≠ x64 ∧ b ≠ x65.
Proof. intros H. split_and!; intros ->; discriminate. Qed.

(** ** One step of the decoder on a known first byte *)

Lemma decode_int_step fuel r :
  decode (S fuel) (x69 :: r) = ('(z, r) ← decodeInt r; Ok (VInt64 z, r)).
Proof. reflexivity. Qed.

Lemma decode_list_step fuel r :
  decode (S fuel) (x6c :: r) = ('(l, r) ← decodeList fuel [] r; Ok (VList l, r)).
Proof. reflexivity. Qed.

Lemma decode_dict_step fuel r :
  decode (S fuel) (x64 :: r) = ('(d, r) ← decodeDict fuel [] r; Ok (VDict d, r)).
Proof. reflexivity. Qed.

Lemma decode_string_step fuel b r :
  is_digit b = true →
  decode (S fuel) (b :: r) = ('(s, r) ← decodeString (b :: r); Ok (VBytes s, r)).
Proof.
  intros Hb. destruct (is_digit_not_tag _ Hb) as (? & ? & ? & ?).
  cbn [decode ReadByte]. rewrite !decide_False by done. by rewrite Hb.
Qed.

Lemma decodeList_end fuel l r : decodeList (S fuel) l (x65 :: r) = Ok (l, r).
Proof. reflexivity. Qed.

Lemma decodeList_step fuel l b r :
  b ≠ x65 →
  decodeList (S fuel) l (b :: r) =
    ('(item, r) ← decode fuel (b :: r); decodeList fuel (l ++ [item]) r).
Proof. intros Hb. cbn. by rewrite decide_False. Qed.

Lemma decodeDict_end fuel d r : decodeDict (S fuel) d (x65 :: r) = Ok (d, r).
Proof. reflexivity. Qed.

Lemma decodeDict_step fuel d b r :
  b ≠ x65 →
  decodeDict (S fuel) d (b :: r) =
    ('(key, r) ← decodeString (b :: r); '(val, r) ← decode fuel r;
     decodeDict fuel (dict_insert key val d) r).
Proof. intros Hb. cbn. by rewrite decide_False. Qed.

(** ** The decoder accepts exactly the grammar *)

Lemma decode_complete_mut :
  (∀ p v, bencoded p v → ∀ fuel r, (2 * length p + 1 ≤ fuel)%nat →
     decode fuel (p ++ r) = Ok (v, r)) ∧
  (∀ p l, bencoded_items p l → ∀ fuel l0 r, (2 * length p + 2 ≤ fuel)%nat →
     decodeList fuel l0 (p ++ x65 :: r) = Ok (l0 ++ l, r)) ∧
  (∀ p es, bencoded_entries p es → ∀ fuel d r, (2 * length p + 2 ≤ fuel)%nat →
     decodeDict fuel d (p ++ x65 :: r) = Ok (dict_of d es, r)).
Proof.
  apply bencoded_mutind.
  - intros s z Hs Hz [|fuel] r Hf; [lia|].
    cbn [app]. rewrite <- app_assoc, decode_int_step. cbn [app].
    by rewrite decodeInt_complete with (z := z).
  - intros p s Hp [|fuel] r Hf; [lia|].
    destruct (bstring_head _ _ Hp) as (b & p' & -> & Hb). cbn [app].
    rewrite decode_string_step, app_comm_cons by done.
    by rewrite (decodeString_complete _ _ r Hp).
  - intros p l _ IH [|fuel] r Hf; [lia|].
    cbn [app length] in *. rewrite length_app in Hf. cbn [length] in Hf.
    rewrite <- app_assoc, decode_list_step. cbn [app]. by rewrite IH by lia.
  - intros p es _ IH [|fuel] r Hf; [lia|].
    cbn [app length] in *. rewrite length_app in Hf. cbn [length] in Hf.
    rewrite <- app_assoc, decode_dict_step. cbn [app]. by rewrite IH by lia.
  - intros [|fuel] l0 r Hf; [cbn in Hf; lia|]. cbn [app].
    by rewrite decodeList_end, app_nil_r.
  - intros p v q l Hp IHp _ IHq [|fuel] l0 r Hf; [lia|].
    rewrite length_app in Hf.
    destruct (bencoded_head _ _ Hp) as (b & p' & -> & Hb).
    rewrite <- app_assoc. cbn [app]. rewrite decodeList_step, app_comm_cons by done.
    rewrite IHp by lia. cbn [mbind outcome_bind].
    rewrite IHq by (cbn in Hf; lia). by rewrite <- app_assoc.
  - intros [|fuel] d r Hf; [cbn in Hf; lia|]. cbn [app]. by rewrite decodeDict_end.
  - intros pk k p v q es Hk Hp IHp _ IHq [|fuel] d r Hf; [lia|].
    rewrite !length_app in Hf.
    destruct (bstring_head _ _ Hk) as (b & pk' & -> & Hb).
    pose proof (is_digit_not_tag _ Hb) as (? & ? & ? & ?).
    rewrite <- !app_assoc. cbn [app]. rewrite decodeDict_step, app_comm_cons by done.
    rewrite (decodeString_complete _ _ _ Hk). cbn [mbind outcome_bind].
    cbn in Hf. rewrite IHp by lia. cbn [mbind outcome_bind]. by rewrite IHq by lia.
Qed.

Lemma decode_sound_mut fuel :
  (∀ r0 v r, decode fuel r0 = Ok (v, r) → ∃ p, r0 = p ++ r ∧ bencoded p v) ∧
  (∀ l0 r0 l r, decodeList fuel l0 r0 = Ok (l, r) →
     ∃ p l1, r0 = p ++ (x65 :: r) ∧ l = l0 ++ l1 ∧ bencoded_items p l1) ∧
  (∀ d0 r0 d r, decodeDict fuel d0 r0 = Ok (d, r) →
     ∃ p es, r0 = p ++ (x65 :: r) ∧ d = dict_of d0 es ∧ bencoded_entries p es).
Proof.
  induction fuel as [|fuel (IH & IHl & IHd)]; [done|]. split_and!.
  - intros [|b r0] v r; [done|]. cbn [decode ReadByte].
    repeat case_decide; [..|destruct (is_digit b); [|done]]; subst;
      intros ([x r1] & Hx & [= <- <-])%bind_Ok_inv.
    + apply decodeInt_sound in Hx as (s & -> & Hs & Hz).
      exists (x69 :: s ++ [x65]). cbn. rewrite <- app_assoc. split; [done|by constructor].
    + apply IHl in Hx as (p & l1 & -> & -> & Hp).
      exists (x6c :: p ++ [x65]). cbn. rewrite <- app_assoc. split; [done|by constructor].
    + apply IHd in Hx as (p & es & -> & -> & Hp).
      exists (x64 :: p ++ [x65]). cbn. rewrite <- app_assoc. split; [done|by constructor].
    + apply decodeString_sound in Hx as (p & -> & Hp). exists p. split; [done|by constructor].
  - intros l0 [|b r0] l r; [done|]. cbn [decodeList peekByte ReadByte fmap option_fmap option_map fst]. case_decide as Hb.
    + intros [= <- <-]. exists [], []. rewrite app_nil_r. subst. split_and!; [done..|constructor].
    + intros ([v r1] & (p & -> & Hp)%IH & H)%bind_Ok_inv.
      apply IHl in H as (q & l1 & -> & -> & Hq).
      exists (p ++ q), (v :: l1). rewrite <- !app_assoc. split_and!; [done..|by constructor].
  - intros d0 [|b r0] d r; [done|]. cbn [decodeDict peekByte ReadByte fmap option_fmap option_map fst]. case_decide as Hb.
    + intros [= <- <-]. exists [], []. subst. split_and!; [done..|constructor].
    + intros ([k r1] & (pk & -> & Hk)%decodeString_sound & H)%bind_Ok_inv.
      apply bind_Ok_inv in H as ([v r2] & (p & -> & Hp)%IH & H).
      apply IHd in H as (q & es & -> & -> & Hq).
      exists (pk ++ p ++ q), ((k, v) :: es). rewrite <- !app_assoc.
      split_and!; [done..|by constructor].
Qed.

Lemma decode_complete p v fuel r :
  bencoded p v → (2 * length p + 1 ≤ fuel)%nat → decode fuel (p ++ r) = Ok (v, r).
Proof. intros. by apply decode_complete_mut. Qed.

Lemma decode_sound fuel r0 v r :
  decode fuel r0 = Ok (v, r) → ∃ p, r0 = p ++ r ∧ bencoded p v.
Proof. apply decode_sound_mut. Qed.

(** ** Termination: the fuel of [Decode] is enough *)

Lemma bencoded_length p v : bencoded p v → (1 ≤ length p)%nat.
Proof. intros (b & p' & -> & _)%bencoded_head. cbn. lia. Qed.

Lemma fueled_decodeInt r : fueled (decodeInt r).
Proof.
  assert (∀ r buf, fueled (decodeInt_loop buf r)) as H.
  { clear. induction r as [|b r IH]; intros buf; cbn; solve_fueled; apply IH. }
  unfold decodeInt. solve_fueled; apply H.
Qed.

Lemma fueled_decodeString r : fueled (decodeString r).
Proof.
  assert (∀ r buf, fueled (decodeString_loop buf r)) as H.
  { clear. induction r as [|b r IH]; intros buf; cbn; solve_fueled; apply IH. }
  unfold decodeString, Atoi. solve_fueled; apply H.
Qed.

#[local] Hint Resolve fueled_decodeInt fueled_decodeString : nofuel.

Lemma decode_fueled fuel :
  (∀ r, (2 * length r + 1 ≤ fuel)%nat → fueled (decode fuel r)) ∧
  (∀ l r, (2 * length r + 2 ≤ fuel)%nat → fueled (decodeList fuel l r)) ∧
  (∀ d r, (2 * length r + 2 ≤ fuel)%nat → fueled (decodeDict fuel d r)).
Proof.
  induction fuel as [|fuel (IH & IHl & IHd)]; [split_and!; intros; lia|]. split_and!.
  - intros [|b r] Hf; cbn [decode ReadByte]; [done|]. cbn in Hf.
    solve_fueled; (apply IHl || apply IHd); lia.
  - intros l [|b r] Hf; [done|].
    cbn [decodeList peekByte ReadByte fmap option_fmap option_map fst]. case_decide; [done|].
    apply fueled_bind; [apply IH; lia|].
    intros [v r1] (p & E & Hp%bencoded_length)%decode_sound. apply IHl.
    apply (f_equal length) in E. rewrite length_app in E. lia.
  - intros d [|b r] Hf; [done|].
    cbn [decodeDict peekByte ReadByte fmap option_fmap option_map fst]. case_decide; [done|].
    apply fueled_bind; [solve_fueled|].
    intros [k r1] (pk & E & (c & ? & -> & _)%bstring_head)%decodeString_sound.
    apply (f_equal length) in E. cbn in E, Hf. rewrite length_app in E.
    apply fueled_bind; [apply IH; lia|].
    intros [v r2] (p & -> & Hp%bencoded_length)%decode_sound. apply IHd.
    rewrite length_app in E. lia.
Qed.

(** ** What the decoder builds *)

Lemma bstring_length p s : bstring p s → Z.of_nat (length s) ≤ maxAlloc.
Proof. by destruct 1. Qed.

Lemma decoded_dict_insert k v d :
  Z.of_nat (length k) ≤ maxAlloc → decoded v → decoded (VDict d) →
  decoded (VDict (dict_insert k v d)).
Proof.
  intros Hk Hv Hd. inversion Hd as [| | |? Hnd Hks Hvs]; subst.
  rewrite Forall_forall in Hks, Hvs.
  constructor; [by apply NoDup_dict_insert|..]; apply Forall_forall;
    intros e [->|?]%elem_of_dict_insert; cbn; eauto.
Qed.

Lemma bencoded_decoded :
  (∀ p v, bencoded p v → decoded v) ∧
  (∀ p l, bencoded_items p l → Forall decoded l) ∧
  (∀ p es, bencoded_entries p es →
     ∀ d, decoded (VDict d) → decoded (VDict (dict_of d es))).
Proof.
  apply bencoded_mutind.
  - intros s z _ Hz. constructor. by eapply ParseInt_range.
  - intros p s Hp. constructor. by eapply bstring_length.
  - intros p l _ IH. by constructor.
  - intros p es _ IH. apply IH. by repeat constructor.
  - constructor.
  - intros p v q l _ Hv _ Hl. by constructor.
  - done.
  - intros pk k p v q es Hk _ Hv _ IH d Hd. cbn. apply IH.
    apply decoded_dict_insert; [by eapply bstring_length|done..].
Qed.

(** ** The encoder *)

(** What the encoder supports: no foreign types; lengths and numbers that fit. *)
Inductive encodable : bval → Prop :=
  | encodable_str s : Z.of_nat (length s) ≤ maxAlloc → encodable (VString s)
  | encodable_bytes s : Z.of_nat (length s) ≤ maxAlloc → encodable (VBytes s)
  | encodable_int z : is_int64 z → encodable (VInt z)
  | encodable_int64 z : is_int64 z → encodable (VInt64 z)
  | encodable_uint16 z : 0 ≤ z < 2 ^ 16 → encodable (VUint16 z)
  | encodable_uint32 z : 0 ≤ z < 2 ^ 32 → encodable (VUint32 z)
  | encodable_list l : Forall encodable l → encodable (VList l)
  | encodable_dict d :
      NoDup d.*1 → Forall (λ e, Z.of_nat (length e.1) ≤ maxAlloc) d →
      Forall (λ e, encodable e.2) d → encodable (VDict d).

Definition sort_entries (d : dict) : dict :=
  omap (λ k, (k,.) <$> dict_lookup k d) (sort_Strings d.*1).

(** The normal form: what decoding the encoding of a value gives. *)
Fixpoint norm (v : bval) : bval :=
  match v with
  | VString s | VBytes s => VBytes s
  | VInt z | VInt64 z | VUint16 z | VUint32 z => VInt64 z
  | VList l => VList (List.map norm l)
  | VDict d => VDict (sort_entries (List.map (λ e, (e.1, norm e.2)) d))
  | VOther ty => VOther ty
  end.

Lemma bstring_enc_string s : Z.of_nat (length s) ≤ maxAlloc → bstring (enc_string s) s.
Proof.
  unfold maxAlloc. intros Hs. unfold enc_string. constructor; [| |done].
  - unfold fmt_d. destruct (Z.ltb_spec (Z.of_nat (length s)) 0); [lia|].
    by apply fmt_u_spec; lia.
  - apply ParseInt_fmt_d. unfold is_int64, min_int64, max_int64. lia.
Qed.

Lemma fmt_d_no_e z : x65 ∉ fmt_d z.
Proof.
  assert (∀ n, 0 ≤ n → x65 ∉ fmt_u n) as Hu.
  { intros n Hn Hin. destruct (fmt_u_spec n Hn) as [_ Hd].
    rewrite Forall_forall in Hd. by apply Hd in Hin. }
  unfold fmt_d. destruct (Z.ltb_spec z 0); [|apply Hu; lia].
  change (bs "-") with [x2d]. rewrite elem_of_app, elem_of_cons, elem_of_nil.
  intros [[|]|H']; [done..|]. eapply Hu; [|done]. lia.
Qed.

Lemma bencoded_enc_int z : is_int64 z → bencoded (enc_int z) (VInt64 z).
Proof. intros Hz. apply bencoded_int; [apply fmt_d_no_e|by apply ParseInt_fmt_d]. Qed.

Lemma dict_of_app d es : NoDup (d ++ es).*1 → dict_of d es = d ++ es.
Proof.
  revert d. induction es as [|[k v] es IH]; intros d Hnd; cbn.
  - by rewrite app_nil_r.
  - rewrite dict_insert_fresh.
    + rewrite IH; [by rewrite <- app_assoc|]. by rewrite <- app_assoc.
    + rewrite fmap_app, NoDup_app in Hnd. destruct Hnd as (_ & Hnd & _).
      intros Hin. apply (Hnd _ Hin). set_solver.
Qed.

Lemma keys_omap_lookup (d : dict) ks :
  (∀ k, k ∈ ks → k ∈ d.*1) → (omap (λ k, (k,.) <$> dict_lookup k d) ks).*1 = ks.
Proof.
  intros Hks. induction ks as [|k ks IH]; [done|]. cbn.
  destruct (dict_lookup_is_Some k d) as [v ->]; [set_solver|]. cbn. f_equal.
  apply IH. set_solver.
Qed.

Lemma keys_sort_entries d : (sort_entries d).*1 = sort_Strings d.*1.
Proof.
  unfold sort_entries. apply keys_omap_lookup. intros k. by rewrite sort_Strings_perm.
Qed.

Lemma encode_entries_spec (d : dict) ks :
  (∀ k, k ∈ ks → k ∈ d.*1) →
  Forall (λ e, Z.of_nat (length e.1) ≤ maxAlloc) d →
  Forall (λ e, ∃ p, encode e.2 = Ok p ∧ bencoded p (norm e.2)) d →
  ∃ p, encode_entries ks (List.map (λ e, (e.1, encode e.2)) d) = Ok p ∧
       bencoded_entries p
         (omap (λ k, (k,.) <$> dict_lookup k (List.map (λ e, (e.1, norm e.2)) d)) ks).
Proof.
  intros Hks Hlen Henc. rewrite Forall_forall in Hlen, Henc.
  induction ks as [|k ks IH]; [by eexists; split; [|constructor]|].
  destruct (dict_lookup_is_Some k d) as [v Hv]; [set_solver|].
  pose proof (dict_lookup_elem_of _ _ _ Hv) as Hin.
  destruct (Henc _ Hin) as (p & Hp & Hbp). cbn in Hp, Hbp.
  destruct IH as (q & Hq & Hbq); [set_solver|].
  cbn. rewrite !dict_lookup_fmap, Hv. cbn. rewrite Hp. cbn. rewrite Hq. cbn.
  eexists. split; [done|]. constructor; [|done..].
  by apply bstring_enc_string, (Hlen _ Hin).
Qed.

Lemma encode_bencoded v : encodable v → ∃ p, encode v = Ok p ∧ bencoded p (norm v).
Proof.
  induction v as [s|s|z|z|z|z|l IH|d IH|t] using bval_nested_ind; intros Hv;
    inversion Hv as [| | | | | |? Hl|? Hnd Hks Hvs]; subst; cbn.
  1-2: eexists; split; [done|]; constructor; by apply bstring_enc_string.
  1-4: eexists; split; [done|]; apply bencoded_enc_int;
    unfold is_int64, min_int64, max_int64 in *; lia.
  - assert (∃ ps, seq_outcomes (List.map encode l) = Ok ps ∧
      bencoded_items (concat ps) (List.map norm l)) as (ps & -> & Hps).
    { clear Hv. induction Hl as [|v l Hv Hl IHl]; [by exists []; split; [|constructor]|].
      apply Forall_cons_1 in IH as [IHv IH]. destruct (IHv Hv) as (p & Hp & Hbp).
      destruct (IHl IH) as (ps & Hps & Hbps).
      exists (p :: ps). cbn. rewrite Hp. cbn. rewrite Hps. by split; [|constructor]. }
    cbn. eexists. split; [done|]. by constructor.
  - destruct (encode_entries_spec d (sort_Strings d.*1)) as (p & Hp & Hbp); [..|done| |].
    { intros k. by rewrite sort_Strings_perm. }
    { rewrite Forall_forall in *. eauto. }
    change (List.map fst d) with d.*1. rewrite Hp. cbn. eexists. split; [done|].
    set (nd := List.map (λ e, (e.1, norm e.2)) d) in *.
    replace (sort_entries nd) with (dict_of [] (sort_entries nd)).
    + constructor. subst nd. unfold sort_entries. by rewrite (keys_map norm d).
    + rewrite dict_of_app; [done|]. cbn [app].
      subst nd. by rewrite keys_sort_entries, sort_Strings_perm, (keys_map norm d).
Qed.

(** ** Values up to the iteration order of maps *)

Inductive bval_equiv : bval → bval → Prop :=
  | bval_equiv_refl v : bval_equiv v v
  | bval_equiv_list l l' : Forall2 bval_equiv l l' → bval_equiv (VList l) (VList l')
  | bval_equiv_dict d m d' :
      d ≡ₚ m → Forall2 (λ e e', e.1 = e'.1 ∧ bval_equiv e.2 e'.2) m d' →
      bval_equiv (VDict d) (VDict d').

(** Go maps everywhere: no repeated key at any depth. *)
Inductive go_value : bval → Prop :=
  | go_list l : Forall go_value l → go_value (VList l)
  | go_dict d : NoDup d.*1 → Forall (λ e, go_value e.2) d → go_value (VDict d)
  | go_leaf v : (∀ l, v ≠ VList l) → (∀ d, v ≠ VDict d) → go_value v.

Lemma encode_entries_ext ks enc enc' :
  (∀ k, dict_lookup k enc = dict_lookup k enc') →
  encode_entries ks enc = encode_entries ks enc'.
Proof. intros H. induction ks as [|k ks IH]; [done|]. cbn. by rewrite H, IH. Qed.

Lemma encode_equiv v : go_value v → ∀ v', bval_equiv v v' → encode v = encode v'.
Proof.
  induction v as [s|s|z|z|z|z|l IH|d IH|t] using bval_nested_ind; intros Hgo v' Hv;
    inversion Hv as [|? l' Hl|? m d' Hp Hd]; subst; try done.
  - inversion Hgo as [? Hgl| |? Hn _]; subst; [|by destruct (Hn l)]. cbn.
    enough (List.map encode l = List.map encode l') as -> by done.
    clear Hgo Hv. induction Hl as [|v v' l l' Hv Hl IHl]; [done|].
    apply Forall_cons_1 in IH as [IHv IH], Hgl as [Hgv Hgl]. cbn. f_equal; auto.
  - inversion Hgo as [|? Hnd Hgd|? _ Hn]; subst; [|by destruct (Hn d)]. cbn.
    set (E := λ e : bytes * bval, (e.1, encode e.2)).
    assert (List.map E m = List.map E d') as HE.
    { rewrite Hp in IH, Hgd. clear -Hd IH Hgd.
      induction Hd as [|e e' m d' [Hk He] Hd IHd]; [done|].
      apply Forall_cons_1 in IH as [IHe IH], Hgd as [Hge Hgd]. cbn.
      f_equal; [|by apply IHd]. subst E. cbn. rewrite Hk. f_equal. by apply IHe. }
    assert (List.map E d ≡ₚ List.map E d') as HpE by (rewrite <- HE; by apply Permutation_map).
    assert (sort_Strings (List.map fst d) = sort_Strings (List.map fst d')) as ->.
    { apply sort_Strings_proper. change (d.*1 ≡ₚ d'.*1).
      rewrite <- (keys_map encode d), <- (keys_map encode d'). by apply fmap_Permutation. }
    erewrite encode_entries_ext; [done|].
    intros k. apply dict_lookup_perm; [|done]. subst E. by rewrite (keys_map encode d).
Qed.

Lemma sort_entries_perm d : NoDup d.*1 → sort_entries d ≡ₚ d.
Proof.
  intros Hd. apply NoDup_Permutation.
  - apply (NoDup_fmap_1 fst). by rewrite keys_sort_entries, sort_Strings_perm.
  - by apply (NoDup_fmap_1 fst).
  - intros [k v]. unfold sort_entries. rewrite list_elem_of_omap. split.
    + intros (k' & _ & H). destruct (dict_lookup k' d) as [v'|] eqn:Hk; [|done].
      cbn in H. injection H as <- <-. by apply dict_lookup_elem_of.
    + intros Hin. exists k. rewrite (proj2 (dict_lookup_Some k v d Hd) Hin).
      split; [|done]. rewrite sort_Strings_perm. by apply (list_elem_of_fmap_2 fst _ (k, v)).
Qed.

Lemma decoded_norm v : decoded v → bval_equiv v (norm v).
Proof.
  induction v as [s|s|z|z|z|z|l IH|d IH|t] using bval_nested_ind; intros Hv;
    inversion Hv as [| |? Hl|? Hnd _ Hvs]; subst; cbn; try constructor.
  - clear Hv. induction Hl as [|v l Hv Hl IHl]; [constructor|].
    apply Forall_cons_1 in IH as [IHv IH]. constructor; auto.
  - apply bval_equiv_dict with (sort_entries d); [by rewrite sort_entries_perm|].
    unfold sort_entries. rewrite (keys_map norm d).
    induction (sort_Strings d.*1) as [|k ks IHk]; [constructor|]. cbn.
    rewrite dict_lookup_fmap. destruct (dict_lookup k d) as [v|] eqn:Hk; cbn; [|done].
    constructor; [|done]. split; [done|]. apply dict_lookup_elem_of in Hk.
    rewrite Forall_forall in IH, Hvs. apply (IH _ Hk), (Hvs _ Hk).
Qed.

Lemma decoded_encodable v : decoded v → encodable v.
Proof.
  induction v as [s|s|z|z|z|z|l IH|d IH|t] using bval_nested_ind; intros Hv;
    inversion Hv as [| |? Hl|? Hnd Hks Hvs]; subst; constructor; try done.
  - rewrite Forall_forall in *. eauto.
  - rewrite Forall_forall in *. eauto.
Qed.

(** ** Decoding what was encoded, key by key *)

Definition norm_dict (d : dict) : dict :=
  sort_entries (List.map (λ e, (e.1, norm e.2)) d).

Lemma dict_lookup_norm k d :
  NoDup d.*1 → dict_lookup k (norm_dict d) = norm <$> dict_lookup k d.
Proof.
  intros Hd. rewrite <- dict_lookup_fmap. symmetry.
  apply dict_lookup_perm; [by rewrite (keys_map norm d)|].
  symmetry. apply sort_entries_perm. by rewrite (keys_map norm d).
Qed.

Lemma Encode_DecodeDict d :
  encodable (VDict d) →
  ∃ p, Encode (VDict d) = Ok p ∧ DecodeDict p = Ok (norm_dict d).
Proof.
  intros (p & Hp & Hb)%encode_bencoded. exists p. split; [done|].
  unfold DecodeDict, Decode. rewrite <- (app_nil_r p) at 2.
  rewrite (decode_complete p (norm (VDict d))); [done|done|]. unfold decode_fuel. lia.
Qed.

Lemma fueled_Decode data : fueled (Decode data).
Proof.
  apply fueled_bind; [|by intros [v r]].
  apply decode_fueled. unfold decode_fuel. lia.
Qed.

Lemma fueled_DecodeDict data : fueled (DecodeDict data).
Proof. apply fueled_bind; [apply fueled_Decode|]. by intros []. Qed.
#[export] Hint Resolve fueled_Decode fueled_DecodeDict : nofuel.

(** The only panic of the decoder is [make] with a length out of range. *)
Definition only_makeslice {E A} (m : outcome E A) : Prop :=
  ∀ p, m = Panic p → p = PanicMakeSlice.

Lemma only_makeslice_bind {E A B} (m : outcome E A) (f : A → outcome E B) :
  only_makeslice m → (∀ a, only_makeslice (f a)) → only_makeslice (m ≫= f).
Proof. unfold only_makeslice. destruct m; cbn; try done; eauto. intros H _ q [= <-]. auto. Qed.

Lemma only_makeslice_decodeString r : only_makeslice (decodeString r).
Proof.
  assert (∀ buf r, only_makeslice (decodeString_loop buf r)) as Hl.
  { intros buf r'. revert buf. induction r' as [|b r' IH]; intros buf; cbn; [done|].
    by repeat (case_match; try done; try apply IH). }
  apply only_makeslice_bind; [apply Hl|]. intros [buf r'].
  apply only_makeslice_bind.
  - intros p H. pose proof (ParseInt_no_panic buf p) as Hn. unfold Atoi in H.
    by destruct (ParseInt buf); cbn in H; try done; injection H as ->.
  - intros n. repeat case_match; try done. by intros p [= <-].
Qed.

Lemma only_makeslice_decodeInt r : only_makeslice (decodeInt r).
Proof.
  assert (∀ buf r, only_makeslice (decodeInt_loop buf r)) as Hl.
  { intros buf r'. revert buf. induction r' as [|b r' IH]; intros buf; cbn; [done|].
    by repeat (case_match; try done; try apply IH). }
  apply only_makeslice_bind; [apply Hl|]. intros [buf r'].
  apply only_makeslice_bind; [|done].
  intros p H. pose proof (ParseInt_no_panic buf p) as Hn.
  by destruct (ParseInt buf); cbn in H; try done; injection H as ->.
Qed.

Lemma only_makeslice_decode fuel :
  (∀ r, only_makeslice (decode fuel r)) ∧ (∀ l r, only_makeslice (decodeList fuel l r)) ∧
  (∀ d r, only_makeslice (decodeDict fuel d r)).
Proof.
  induction fuel as [|fuel (IH1 & IH2 & IH3)]; [done|].
  split_and!; cbn [decode decodeList decodeDict].
  - intros [|b r]; cbn [ReadByte]; [done|]. repeat case_decide.
    + apply only_makeslice_bind; [apply only_makeslice_decodeInt|by intros []].
    + apply only_makeslice_bind; [auto|by intros []].
    + apply only_makeslice_bind; [auto|by intros []].
    + case_match; [|done]. apply only_makeslice_bind; [apply only_makeslice_decodeString|by intros []].
  - intros l r. destruct (peekByte r); [|done]. case_decide; [done|].
    apply only_makeslice_bind; [auto|by intros []].
  - intros d r. destruct (peekByte r); [|done]. case_decide; [done|].
    apply only_makeslice_bind; [apply only_makeslice_decodeString|]. intros [k r'].
    apply only_makeslice_bind; [auto|by intros []].
Qed.

Lemma only_makeslice_DecodeDict data : only_makeslice (DecodeDict data).
Proof.
  apply only_makeslice_bind; [|by intros []].
  apply only_makeslice_bind; [apply only_makeslice_decode|by intros []].
Qed.

Lemma encodable_NoDup d : encodable (VDict d) → NoDup d.*1.
Proof. by inversion 1. Qed.

Section getters.
Variables (d : dict) (k : bytes).
Hypothesis Hd : NoDup d.*1.

Lemma GetBytes_norm : GetBytes (norm_dict d) k = GetBytes d k.
Proof using Hd. unfold GetBytes. rewrite dict_lookup_norm by done. by destruct (dict_lookup k d) as [[]|]. Qed.

Lemma GetString_norm : GetString (norm_dict d) k = GetString d k.
Proof using Hd. unfold GetString. rewrite dict_lookup_norm by done. by destruct (dict_lookup k d) as [[]|]. Qed.

Lemma GetDict_norm : GetDict (norm_dict d) k = norm_dict <$> GetDict d k.
Proof using Hd. unfold GetDict. rewrite dict_lookup_norm by done. by destruct (dict_lookup k d) as [[]|]. Qed.

Lemma GetList_norm : GetList (norm_dict d) k = List.map norm <$> GetList d k.
Proof using Hd. unfold GetList. rewrite dict_lookup_norm by done. by destruct (dict_lookup k d) as [[]|]. Qed.

(** Every integer type becomes [int64]; [GetInt] sees the value of an [int]. *)
Lemma GetInt_norm z : GetInt d k = Some z → GetInt (norm_dict d) k = Some z.
Proof using Hd. unfold GetInt. rewrite dict_lookup_norm by done. by destruct (dict_lookup k d) as [[]|]. Qed.

Lemma GetDict_elem a : GetDict d k = Some a → (k, VDict a) ∈ d.
Proof using.
  unfold GetDict. destruct (dict_lookup k d) as [[| | | | | | |a'|]|] eqn:E; try done.
  intros [= ->]. by apply dict_lookup_elem_of.
Qed.
End getters.

Lemma encodable_GetDict d k a : encodable (VDict d) → GetDict d k = Some a → encodable (VDict a).
Proof.
  inversion 1 as [| | | | | | |? _ _ Hv]; subst. intros Hin%GetDict_elem.
  rewrite Forall_forall in Hv. apply (Hv _ Hin).
Qed.

(** [solve_encodable] proves [encodable] of a dictionary literal whose keys are
    string literals; it leaves the side conditions on the values that [lia] cannot
    prove. *)
Ltac solve_encodable :=
  repeat first
    [ assumption
    | apply (bool_decide_unpack _); vm_compute; exact I
    | constructor
    | progress cbn [fst snd]
    | progress (unfold maxAlloc, is_int64, min_int64, max_int64 in *); cbn; lia ].

(** ** Properties *)

(** C1: the decoder is a parser for the bencode grammar: on any input it returns a
    value and a rest exactly when a prefix of the input is a bencoding of that value
    and the rest is what follows it. *)
Theorem decode_iff_grammar data v rest :
  decode (decode_fuel data) data = Ok (v, rest) ↔ ∃ p, data = p ++ rest ∧ bencoded p v.
Proof.
  split; [apply decode_sound|]. intros (p & -> & Hp).
  apply decode_complete; [done|]. unfold decode_fuel. rewrite length_app. lia.
Qed.

(** [Decode] terminates on every input: the fuel of the model is never used up. *)
Theorem Decode_terminates data : fueled (Decode data).
Proof.
  apply fueled_bind; [|by intros [v r]].
  apply decode_fueled. unfold decode_fuel. lia.
Qed.

Lemma Decode_app p v : bencoded p v → Decode p = Ok v.
Proof.
  intros Hp. unfold Decode. rewrite <- (app_nil_r p) at 2.
  by rewrite (decode_complete p v) by (done || unfold decode_fuel; lia).
Qed.

Lemma Decode_inv data v : Decode data = Ok v → ∃ p rest, data = p ++ rest ∧ bencoded p v.
Proof. intros ([w r] & (p & -> & Hp)%decode_sound & [= <-])%bind_Ok_inv. eauto. Qed.

(** C2: round trip. Every supported value encodes, and decoding the encoding,
    whatever bytes follow it, gives back the value's normal form (strings as byte
    slices, numbers as int64, dictionaries sorted by key) and leaves what follows. *)
Theorem Encode_Decode_roundtrip v rest :
  encodable v →
  ∃ p, Encode v = Ok p ∧ Decode (p ++ rest) = Ok (norm v) ∧
       decode (decode_fuel (p ++ rest)) (p ++ rest) = Ok (norm v, rest).
Proof.
  intros (p & Hp & Hb)%encode_bencoded. exists p. split; [done|].
  assert (decode (decode_fuel (p ++ rest)) (p ++ rest) = Ok (norm v, rest)) as H.
  { apply decode_complete; [done|]. unfold decode_fuel. rewrite length_app. lia. }
  unfold Decode. by rewrite H.
Qed.

Definition sample_value : bval :=
  VDict [(bs "y", VString (bs "q")); (bs "t", VBytes [x00; xff]);
         (bs "a", VDict [(bs "port", VInt 6881); (bs "id", VBytes (bs "abc"))]);
         (bs "l", VList [VInt64 (-7); VUint16 65535])].

Lemma sample_value_encodable : encodable sample_value.
Proof.
  repeat first
    [ progress constructor
    | progress (cbn; unfold maxAlloc, is_int64, min_int64, max_int64; lia)
    | progress (apply (bool_decide_unpack _); vm_compute; exact I) ].
Defined.

Lemma Encode_Decode_roundtrip_witness :
  ∃ p, Encode sample_value = Ok p ∧ Decode (p ++ bs "junk") = Ok (norm sample_value) ∧
       decode (decode_fuel (p ++ bs "junk")) (p ++ bs "junk") = Ok (norm sample_value, bs "junk").
Proof. apply (Encode_Decode_roundtrip sample_value (bs "junk")). apply sample_value_encodable. Defined.

(** the encoding does not depend on the order in which Go iterates over maps:
    two values that differ only in the order of the entries of their dictionaries,
    at any depth, have the same encoding (or the same error). *)
Theorem Encode_map_order v v' :
  go_value v → bval_equiv v v' → Encode v = Encode v'.
Proof. intros. by apply encode_equiv. Qed.

Lemma Encode_map_order_witness :
  Encode (VDict [(bs "b", VInt 1); (bs "a", VInt 2)]) =
  Encode (VDict [(bs "a", VInt 2); (bs "b", VInt 1)]).
Proof.
  apply Encode_map_order.
  - apply go_dict.
    + apply (bool_decide_unpack _). vm_compute. exact I.
    + repeat constructor; discriminate.
  - eapply bval_equiv_dict; [apply perm_swap|]. repeat constructor.
Defined.

(** whatever [Decode] accepts is well typed (byte slices, int64 in range, maps
    without repeated keys), can be encoded again, and the new encoding decodes to the
    same value up to the order of map entries. *)
Theorem Decode_reencode data v :
  Decode data = Ok v →
  decoded v ∧ bval_equiv v (norm v) ∧ ∃ p, Encode v = Ok p ∧ Decode p = Ok (norm v).
Proof.
  intros (p & rest & -> & Hp)%Decode_inv. apply bencoded_decoded in Hp.
  split; [done|]. split; [by apply decoded_norm|].
  apply decoded_encodable, encode_bencoded in Hp as (q & Hq & Hb).
  exists q. split; [done|]. by apply Decode_app.
Qed.

Lemma Decode_reencode_witness :
  decoded (VDict [(bs "b", VInt64 7); (bs "a", VList [])]) ∧
  bval_equiv (VDict [(bs "b", VInt64 7); (bs "a", VList [])])
    (norm (VDict [(bs "b", VInt64 7); (bs "a", VList [])])) ∧
  ∃ p, Encode (VDict [(bs "b", VInt64 7); (bs "a", VList [])]) = Ok p ∧
       Decode p = Ok (norm (VDict [(bs "b", VInt64 7); (bs "a", VList [])])).
Proof. apply (Decode_reencode (bs "d1:bi+007e1:alee")). vm_compute. reflexivity. Defined.

(** a length prefix above the allocation limit makes the decoder panic in
    [make], before it looks at how much input there is. *)
Theorem Decode_huge_length_panics n rest :
  maxAlloc < n ≤ max_int64 → Decode (fmt_d n ++ bs ":" ++ rest) = Panic PanicMakeSlice.
Proof.
  intros Hn. unfold maxAlloc, max_int64 in Hn.
  assert (is_int64 n) as Hi by (unfold is_int64, min_int64, max_int64; lia).
  assert (fmt_d n = fmt_u n) as Hu
    by (unfold fmt_d; destruct (Z.ltb_spec n 0); [lia|done]).
  destruct (fmt_u_spec n ltac:(lia)) as [_ Hd].
  assert (decodeString (fmt_d n ++ bs ":" ++ rest) = Panic PanicMakeSlice) as HS.
  { unfold decodeString. change (bs ":") with [x3a]. cbn [app].
    rewrite decodeString_loop_app by (by rewrite Hu). cbn [app mbind outcome_bind].
    unfold Atoi. rewrite ParseInt_fmt_d by done. cbn.
    destruct (Z.ltb_spec n 0); [lia|]. unfold maxAlloc.
    destruct (Z.ltb_spec (2 ^ 48) n); [done|lia]. }
  unfold Decode, decode_fuel. rewrite Nat.add_comm. cbn [Nat.add].
  destruct (fmt_u_cons n) as (c & s & Hc). rewrite Hu, Hc in *.
  cbn [app] in *. rewrite decode_string_step.
  - by rewrite HS.
  - apply Is_true_true. by inversion Hd.
Qed.

Lemma Decode_huge_length_panics_witness :
  Decode (fmt_d 9223372036854775807 ++ bs ":" ++ []) = Panic PanicMakeSlice.
Proof. apply Decode_huge_length_panics. unfold maxAlloc, max_int64. lia. Defined.
