(* ===== verification/NodeID.v ===== *)
(** * Node identifiers: [internal/dht/id.go]

    A [NodeID], a Go [[20]byte] array, is a list of bytes of length [IDLength].  The
    xor distance, its order, the bucket index and the conversions are followed by the
    arithmetic that makes them Kademlia's metric: the unsigned big-endian value of an
    identifier turns [Distance] into [Z.lxor], [Less] into [<] and [BucketIndex] into
    [Z.log2]. *)

From S2P Require Import Prelude GoStd.

Definition IDLength : nat := 20.

Abbreviation NodeID := bytes.

(** The arrays of the right length. *)
Definition is_id (id : NodeID) : Prop := length id = IDLength.

#[global] Instance is_id_dec id : Decision (is_id id).
Proof. unfold is_id. apply _. Defined.

Definition zeroID : NodeID := replicate IDLength x00.

(** [GenerateID]: what [rand.Read] gives, and whether it failed. *)
Definition GenerateID (random : bytes) (failed : bool) : NodeID * bool :=
  (copy_at zeroID 0 (take IDLength random), failed).

(** ** Distance and order *)

(** [result[i] = a[i] ^ b[i]] for each index. *)
Definition Distance (a b : NodeID) : NodeID :=
  (λ i, byte_xor (a !!! i) (b !!! i)) <$> seq 0 IDLength.

Fixpoint Less (id other : NodeID) : bool :=
  match id, other with
  | a :: id, b :: other =>
      if byte_val a <? byte_val b then true
      else if byte_val b <? byte_val a then false
      else Less id other
  | _, _ => false
  end.

(** The inner loop of [LeadingZeros]: [for mask := 0x80; mask != 0 && b&mask == 0;
    mask >>= 1].  The mask is a byte: it is zero after eight shifts. *)
Fixpoint leading_zeros_byte (fuel : nat) (mask b : Z) : Z :=
  match fuel with
  | O => 0
  | S fuel =>
      if negb (mask =? 0) && (Z.land b mask =? 0)
      then 1 + leading_zeros_byte fuel (Z.shiftr mask 1) b
      else 0
  end.

Fixpoint LeadingZeros (id : NodeID) : Z :=
  match id with
  | [] => 0
  | b :: id =>
      if byte_val b =? 0 then 8 + LeadingZeros id
      else leading_zeros_byte 9 128 (byte_val b)
  end.

Definition BucketIndex (local remote : NodeID) : Z :=
  let dist := Distance local remote in
  let lz := LeadingZeros dist in
  if Z.of_nat IDLength * 8 <=? lz then 0
  else Z.of_nat IDLength * 8 - 1 - lz.

(** ** Conversions *)

Inductive id_error := ErrIDLength (got : Z) | ErrHex (e : hex_error).

Definition Hex (id : NodeID) : bytes := hex_EncodeToString id.

(** [id.Hex()[:8] + "..."]. *)
Definition String (id : NodeID) : bytes := take 8 (Hex id) ++ bs "...".

Definition FromHex (s : bytes) : outcome id_error NodeID :=
  if decide (length s = (IDLength * 2)%nat)
  then decoded ← map_err ErrHex (hex_DecodeString s); Ok (copy_at zeroID 0 decoded)
  else Err (ErrIDLength (Z.of_nat (length s))).

Definition FromBytes (b : bytes) : outcome id_error NodeID :=
  if decide (length b = IDLength) then Ok (copy_at zeroID 0 b)
  else Err (ErrIDLength (Z.of_nat (length b))).

Fixpoint IsZero (id : NodeID) : bool :=
  match id with
  | [] => true
  | b :: id => if byte_val b =? 0 then IsZero id else false
  end.

Definition Bytes (id : NodeID) : bytes := id.

(** ** Identifiers spread over the key space *)

(** [crypto/rand]: the [i]-th draw of [rand.Int(rand.Reader, piece)], a number or an
    error of the reader. *)
Abbreviation rand_source := (nat → outcome unit Z).

Inductive gen_error := ErrCount | ErrRand.

(** [big.Int.Bytes]: big-endian without leading zeros. *)
Definition big_Bytes (z : Z) : bytes :=
  let n := Z.to_nat ((Z.log2 z + 8) / 8) in
  if z <=? 0 then [] else be_bytes n z.

(** The conversion to 20 bytes, padded at the front; a longer number is cut. *)
Definition id_of_big (z : Z) : NodeID :=
  let idBytes := big_Bytes z in
  if (length idBytes <? IDLength)%nat
  then copy_at zeroID 0 (copy_at zeroID (IDLength - length idBytes) idBytes)
  else copy_at zeroID 0 (take IDLength idBytes).

Fixpoint gen_ids (rnd : rand_source) (piece : Z) (i k : nat) : outcome gen_error (list NodeID) :=
  match k with
  | O => Ok []
  | S k =>
      let offset := piece * Z.of_nat i in
      randomOffset ← map_err (λ _, ErrRand) (rnd i);
      ids ← gen_ids rnd piece (S i) k;
      Ok (id_of_big (offset + randomOffset) :: ids)
  end.

Definition GenerateDistributedIDs (rnd : rand_source) (count : Z) : outcome gen_error (list NodeID) :=
  if count <=? 0 then Err ErrCount
  else gen_ids rnd (2 ^ 160 / count) 0 (Z.to_nat count).

(** ** Lemmas *)

Lemma length_Distance a b : is_id (Distance a b).
Proof. unfold is_id, Distance. by rewrite length_fmap, length_seq. Qed.

Lemma Distance_zip a b : is_id a → is_id b → Distance a b = zip_with byte_xor a b.
Proof.
  unfold is_id, Distance. intros Ha Hb. apply list_eq. intros i.
  rewrite list_lookup_fmap, lookup_zip_with.
  destruct (decide (i < IDLength)%nat) as [Hi|Hi].
  - rewrite lookup_seq_lt by done. cbn.
    by rewrite !list_lookup_lookup_total_lt by lia.
  - rewrite lookup_seq_ge by lia. by rewrite (lookup_ge_None_2 a) by lia.
Qed.

Lemma Distance_val a b :
  is_id a → is_id b → be_val (Distance a b) = Z.lxor (be_val a) (be_val b).
Proof. unfold is_id. intros. rewrite Distance_zip by done. apply be_val_xor. lia. Qed.

Lemma Distance_comm a b : Distance a b = Distance b a.
Proof. unfold Distance. apply list_fmap_ext. intros. apply byte_xor_comm. Qed.

Lemma be_val_id_range id : is_id id → 0 ≤ be_val id < 2 ^ 160.
Proof.
  unfold is_id. intros H. pose proof (be_val_range id) as Hr. rewrite H in Hr.
  change (256 ^ Z.of_nat IDLength) with (2 ^ 160) in Hr. done.
Qed.

Lemma Less_lex a b : length a = length b → Less a b = lex_ltb a b.
Proof.
  revert b. induction a as [|x a IH]; intros [|y b] H; try done.
  cbn. injection H as H. by rewrite IH.
Qed.

Lemma Less_val a b : is_id a → is_id b → Less a b = (be_val a <? be_val b).
Proof.
  unfold is_id. intros Ha Hb. rewrite Less_lex by congruence.
  apply lex_ltb_be_val. congruence.
Qed.

Lemma leading_zeros_byte_spec b :
  0 < byte_val b → leading_zeros_byte 9 128 (byte_val b) = 7 - Z.log2 (byte_val b).
Proof. destruct b; cbn; try lia; reflexivity. Qed.

Lemma log2_cat x y n :
  0 < x → 0 ≤ y < 256 ^ n → 0 ≤ n → Z.log2 (x * 256 ^ n + y) = Z.log2 x + 8 * n.
Proof.
  intros Hx Hy Hn. change 256 with (2 ^ 8) in *. rewrite <- Z.pow_mul_r in * by lia.
  pose proof (Z.pow_pos_nonneg 2 (8 * n) ltac:(lia) ltac:(lia)).
  pose proof (Z.log2_spec x Hx) as [H1 H2]. pose proof (Z.log2_nonneg x).
  apply Z.log2_unique; [lia|]. rewrite Z.pow_add_r, Z.pow_succ_r, Z.pow_add_r by lia.
  rewrite Z.pow_succ_r in H2 by lia. nia.
Qed.

Lemma LeadingZeros_spec id :
  LeadingZeros id = if decide (be_val id = 0) then 8 * Z.of_nat (length id)
                    else 8 * Z.of_nat (length id) - 1 - Z.log2 (be_val id).
Proof.
  induction id as [|b id IH]; [done|].
  cbn [LeadingZeros length]. rewrite be_val_cons.
  pose proof (byte_val_range b). pose proof (be_val_range id) as Hr.
  pose proof (Z.pow_pos_nonneg 256 (Z.of_nat (length id)) ltac:(lia) ltac:(lia)).
  destruct (Z.eqb_spec (byte_val b) 0) as [E|E].
  - rewrite E, Z.mul_0_l, Z.add_0_l, IH. case_decide; lia.
  - rewrite decide_False by nia.
    rewrite leading_zeros_byte_spec, log2_cat by lia. lia.
Qed.

Lemma Distance_zero a b : is_id a → is_id b → be_val (Distance a b) = 0 ↔ a = b.
Proof.
  intros Ha Hb. rewrite Distance_val by done. rewrite Z.lxor_eq_0_iff.
  split; [|by intros ->]. unfold is_id in *. intros. apply be_val_inj; [congruence|done].
Qed.

Lemma FromBytes_ok b : is_id b → FromBytes b = Ok b.
Proof.
  unfold is_id, FromBytes. intros H. rewrite decide_True by done. f_equal.
  unfold copy_at, zeroID. rewrite length_replicate, H, take_0, Nat.sub_0_r.
  cbn [app Nat.add]. rewrite take_ge by lia.
  by rewrite drop_ge, app_nil_r by (rewrite length_replicate; lia).
Qed.

Lemma FromBytes_inv b id : FromBytes b = Ok id → is_id b ∧ id = b.
Proof.
  intros H. assert (is_id b) as Hb by (unfold FromBytes in H; by case_decide).
  rewrite FromBytes_ok in H by done. by injection H.
Qed.

Lemma lxor_le_add a b : 0 ≤ a → 0 ≤ b → Z.lxor a b ≤ a + b.
Proof.
  intros Ha Hb. pose proof (Z.land_nonneg a b) as Hl.
  pose proof (Z.add_lxor_2land a b). lia.
Qed.

Lemma length_big_Bytes z : 0 ≤ z < 2 ^ 160 → (length (big_Bytes z) ≤ IDLength)%nat.
Proof.
  intros Hz. unfold big_Bytes. destruct (Z.leb_spec z 0); [cbn; lia|].
  rewrite length_be_bytes. assert (Z.log2 z < 160) by (apply Z.log2_lt_pow2; lia).
  pose proof (Z.div_le_mono (Z.log2 z + 8) 167 8 ltac:(lia) ltac:(lia)) as Hd.
  change (167 / 8) with 20 in Hd. unfold IDLength. lia.
Qed.

Lemma be_val_big_Bytes z : 0 ≤ z → be_val (big_Bytes z) = z.
Proof.
  intros Hz. unfold big_Bytes. destruct (Z.leb_spec z 0); [cbn; lia|].
  rewrite be_val_bytes. apply Z.mod_small. split; [done|].
  pose proof (Z.log2_nonneg z).
  rewrite Z2Nat.id by (apply Z.div_pos; lia).
  change 256 with (2 ^ 8). rewrite <- Z.pow_mul_r by (try apply Z.div_pos; lia).
  apply Z.lt_le_trans with (2 ^ Z.succ (Z.log2 z)); [apply Z.log2_spec; lia|].
  apply Z.pow_le_mono_r; [lia|].
  pose proof (Z.div_mod (Z.log2 z + 8) 8 ltac:(lia)).
  pose proof (Z.mod_pos_bound (Z.log2 z + 8) 8 ltac:(lia)). lia.
Qed.

Lemma copy_at_zeroID_full s : length s = IDLength → copy_at zeroID 0 s = s.
Proof.
  intros H. pose proof (FromBytes_ok s H) as Hf. unfold FromBytes in Hf.
  rewrite decide_True in Hf by done. by injection Hf.
Qed.

Lemma copy_at_zeroID_end s :
  (length s ≤ IDLength)%nat →
  copy_at zeroID (IDLength - length s) s = replicate (IDLength - length s) x00 ++ s.
Proof.
  intros H. unfold copy_at, zeroID.
  rewrite take_replicate, length_replicate, drop_replicate.
  rewrite Nat.min_l by lia. rewrite (take_ge s) by lia.
  replace (IDLength - (IDLength - length s + length s))%nat with 0%nat by lia.
  by rewrite app_nil_r.
Qed.

Lemma id_of_big_spec z : 0 ≤ z < 2 ^ 160 → is_id (id_of_big z) ∧ be_val (id_of_big z) = z.
Proof.
  intros Hz. pose proof (length_big_Bytes z Hz) as Hl.
  pose proof (be_val_big_Bytes z ltac:(lia)) as Hv. unfold id_of_big, is_id.
  destruct (Nat.ltb_spec (length (big_Bytes z)) IDLength) as [H|H].
  - rewrite copy_at_zeroID_end by lia.
    assert (length (replicate (IDLength - length (big_Bytes z)) x00 ++ big_Bytes z) = IDLength) as Hlen
      by (rewrite length_app, length_replicate; lia).
    rewrite copy_at_zeroID_full by done. split; [done|].
    by rewrite be_val_app, be_val_zero, Hv.
  - assert (length (big_Bytes z) = IDLength) by lia.
    rewrite take_ge by lia. by rewrite copy_at_zeroID_full.
Qed.

Lemma GenerateDistributedIDs_spec rnd count :
  0 < count ≤ 2 ^ 63 - 1 →
  (∀ i, ∃ r, rnd i = Ok r ∧ 0 ≤ r < 2 ^ 160 / count) →
  ∃ ids, GenerateDistributedIDs rnd count = Ok ids ∧
    Z.of_nat (length ids) = count ∧
    (∀ i id, ids !! i = Some id →
       is_id id ∧ 2 ^ 160 / count * Z.of_nat i ≤ be_val id < 2 ^ 160 / count * (Z.of_nat i + 1)) ∧
    (∀ i j a b, ids !! i = Some a → ids !! j = Some b → (i < j)%nat → Less a b = true) ∧
    NoDup ids.
Proof.
  intros Hc Hr. set (piece := 2 ^ 160 / count) in *.
  assert (piece * count ≤ 2 ^ 160) by (subst piece; rewrite Z.mul_comm; apply Z.mul_div_le; lia).
  assert (∀ k i, Z.of_nat i + Z.of_nat k ≤ count → ∃ ids, gen_ids rnd piece i k = Ok ids ∧
    length ids = k ∧ ∀ j id, ids !! j = Some id →
      is_id id ∧ piece * Z.of_nat (i + j) ≤ be_val id < piece * (Z.of_nat (i + j) + 1)) as HG.
  { induction k as [|k IH]; intros i Hi; [by exists []|].
    destruct (Hr i) as (r & Hri & Hrr). destruct (IH (S i) ltac:(lia)) as (ids & Hids & Hlen & Hj).
    destruct (id_of_big_spec (piece * Z.of_nat i + r)) as [Hid Hv]; [nia|].
    exists (id_of_big (piece * Z.of_nat i + r) :: ids). cbn [gen_ids].
    rewrite Hri. cbn [map_err mbind outcome_bind]. rewrite Hids.
    split; [done|]. split; [by cbn; rewrite Hlen|].
    intros [|j] id; cbn [lookup list_lookup].
    - intros [= <-]. rewrite Nat.add_0_r, Hv. split; [done|lia].
    - intros Hl. apply Hj in Hl as [? ?]. replace (i + S j)%nat with (S i + j)%nat by lia. done. }
  destruct (HG (Z.to_nat count) 0%nat ltac:(lia)) as (ids & Hids & Hlen & Hj).
  assert (∀ i j a b, ids !! i = Some a → ids !! j = Some b → (i < j)%nat → Less a b = true) as Hlt.
  { intros i j a b Ha Hb Hij. apply Hj in Ha as [Ha Hva], Hb as [Hb Hvb]. cbn [Nat.add] in *.
    rewrite Less_val by done. apply Z.ltb_lt. nia. }
  exists ids. unfold GenerateDistributedIDs. destruct (Z.leb_spec count 0); [lia|].
  split_and!; [done|lia| |done|].
  - intros i id Hl. by apply (Hj i).
  - apply NoDup_alt. intros i j x Hi Hj'.
    destruct (Nat.lt_trichotomy i j) as [Hij|[Hij|Hij]]; [|done|]; exfalso;
      [pose proof (Hlt _ _ _ _ Hi Hj' Hij) as E|pose proof (Hlt _ _ _ _ Hj' Hi Hij) as E];
      by rewrite Less_lex, lex_ltb_irrefl in E.
Qed.

(** ** Properties *)

(** The bucket index is the position of the highest bit in which two
    identifiers differ (the floor of the binary logarithm of their distance): 0 for
    equal or adjacent identifiers, at most 159, and closer nodes never lie in a
    higher bucket. *)
Theorem BucketIndex_log2 local a b :
  is_id local → is_id a → is_id b →
  BucketIndex local a = Z.log2 (Z.lxor (be_val local) (be_val a)) ∧
  0 ≤ BucketIndex local a < 160 ∧
  (be_val (Distance local a) ≤ be_val (Distance local b) →
   BucketIndex local a ≤ BucketIndex local b).
Proof.
  intros Hl Ha Hb.
  assert (∀ x, is_id x → BucketIndex local x = Z.log2 (be_val (Distance local x))) as HB.
  { intros x Hx. pose proof (length_Distance local x) as Hd.
    pose proof (be_val_id_range _ Hd).
    unfold BucketIndex. rewrite LeadingZeros_spec, Hd. case_decide as E.
    - rewrite E. reflexivity.
    - assert (0 ≤ Z.log2 (be_val (Distance local x)) < 160).
      { split; [apply Z.log2_nonneg|apply Z.log2_lt_pow2; lia]. }
      unfold IDLength in *. rewrite (proj2 (Z.leb_gt _ _)) by lia. lia. }
  rewrite !HB, Distance_val by done. split; [done|].
  pose proof (be_val_id_range _ (length_Distance local a)) as Hr.
  rewrite Distance_val in Hr by done. split.
  - split; [apply Z.log2_nonneg|].
    destruct (decide (Z.lxor (be_val local) (be_val a) = 0)) as [->|]; [done|].
    apply Z.log2_lt_pow2; lia.
  - apply Z.log2_le_mono.
Qed.

Lemma BucketIndex_log2_witness :
  let l := replicate 20 x00 in let a := replicate 19 x00 ++ [x05] in
  let b := x80 :: replicate 19 x00 in
  BucketIndex l a = Z.log2 (Z.lxor (be_val l) (be_val a)) ∧ 0 ≤ BucketIndex l a < 160 ∧
  (be_val (Distance l a) ≤ be_val (Distance l b) → BucketIndex l a ≤ BucketIndex l b).
Proof. apply BucketIndex_log2; reflexivity. Defined.

(** [Distance] is a metric on identifiers, under their unsigned values: zero only
    between equal identifiers, symmetric, and subject to the triangle inequality; and
    it is unidirectional: each distance from a point is reached at one identifier. *)
Theorem Distance_metric a b c :
  is_id a → is_id b → is_id c →
  (Distance a b = zeroID ↔ a = b) ∧
  Distance a b = Distance b a ∧
  be_val (Distance a c) ≤ be_val (Distance a b) + be_val (Distance b c) ∧
  Distance a (Distance a b) = b.
Proof.
  intros Ha Hb Hc. split_and!.
  - rewrite <- (Distance_zero a b) by done. split.
    + intros ->. apply be_val_zero.
    + intros H. apply be_val_nil_iff in H. unfold zeroID.
      by rewrite <- (length_Distance a b).
  - apply Distance_comm.
  - rewrite !Distance_val by done.
    replace (Z.lxor (be_val a) (be_val c)) with
      (Z.lxor (Z.lxor (be_val a) (be_val b)) (Z.lxor (be_val b) (be_val c))).
    + apply lxor_le_add; apply Z.lxor_nonneg;
        pose proof (be_val_range a); pose proof (be_val_range b); pose proof (be_val_range c); lia.
    + rewrite Z.lxor_assoc, <- (Z.lxor_assoc (be_val b) (be_val b)).
      by rewrite Z.lxor_nilpotent, Z.lxor_0_l.
  - pose proof (length_Distance a b) as Hd.
    pose proof (length_Distance a (Distance a b)) as Hd2.
    apply be_val_inj; [unfold is_id in *; congruence|].
    rewrite !Distance_val by done.
    by rewrite <- Z.lxor_assoc, Z.lxor_nilpotent, Z.lxor_0_l.
Qed.

Lemma Distance_metric_witness :
  let a := replicate 20 x01 in let b := replicate 20 xf0 in let c := replicate 20 x55 in
  (Distance a b = zeroID ↔ a = b) ∧ Distance a b = Distance b a ∧
  be_val (Distance a c) ≤ be_val (Distance a b) + be_val (Distance b c) ∧
  Distance a (Distance a b) = b.
Proof. apply Distance_metric; reflexivity. Defined.

(** C38: with a random source that honours its contract, [GenerateDistributedIDs]
    returns [count] identifiers, the i-th in the i-th of [count] equal pieces of the
    160-bit key space, so that they are pairwise distinct and in increasing order. *)
Theorem GenerateDistributedIDs_spread rnd count :
  0 < count ≤ 2 ^ 63 - 1 →
  (∀ i, ∃ r, rnd i = Ok r ∧ 0 ≤ r < 2 ^ 160 / count) →
  ∃ ids, GenerateDistributedIDs rnd count = Ok ids ∧
    Z.of_nat (length ids) = count ∧
    (∀ i id, ids !! i = Some id →
       is_id id ∧ 2 ^ 160 / count * Z.of_nat i ≤ be_val id < 2 ^ 160 / count * (Z.of_nat i + 1)) ∧
    (∀ i j a b, ids !! i = Some a → ids !! j = Some b → (i < j)%nat → Less a b = true) ∧
    NoDup ids.
Proof. apply GenerateDistributedIDs_spec. Qed.

Lemma GenerateDistributedIDs_spread_witness :
  ∃ ids, GenerateDistributedIDs (λ i, Ok (Z.of_nat i mod 2)) 50 = Ok ids ∧
    Z.of_nat (length ids) = 50 ∧
    (∀ i id, ids !! i = Some id →
       is_id id ∧ 2 ^ 160 / 50 * Z.of_nat i ≤ be_val id < 2 ^ 160 / 50 * (Z.of_nat i + 1)) ∧
    (∀ i j a b, ids !! i = Some a → ids !! j = Some b → (i < j)%nat → Less a b = true) ∧
    NoDup ids.
Proof.
  apply (GenerateDistributedIDs_spread (λ i, Ok (Z.of_nat i mod 2)) 50); [lia|].
  intros i. exists (Z.of_nat i mod 2). split; [done|].
  pose proof (Z.mod_pos_bound (Z.of_nat i) 2 ltac:(lia)).
  assert (2 ≤ 2 ^ 160 / 50) by (vm_compute; discriminate). lia.
Defined.

(** text and byte forms of an identifier convert back, and exactly the strings of
    40 hexadecimal digits and the slices of 20 bytes are accepted. *)
Theorem NodeID_conversions :
  (∀ id, is_id id → FromHex (Hex id) = Ok id ∧ FromBytes (Bytes id) = Ok id) ∧
  (∀ s id, FromHex s = Ok id → length s = 40%nat ∧ is_id id ∧ hex_DecodeString s = Ok id) ∧
  (∀ b id, FromBytes b = Ok id ↔ is_id b ∧ id = b) ∧
  (∀ id, is_id id → IsZero id = bool_decide (id = zeroID)).
Proof.
  assert (∀ s, ∀ d, hex_DecodeString s = Ok d → length s = (2 * length d)%nat) as Hlen.
  { fix IH 1. intros [|p [|q s]] d; cbn.
    - by intros [= <-].
    - by destruct (from_hex_char p).
    - destruct (from_hex_char p), (from_hex_char q); try done.
      intros (l & Hl & [= <-])%bind_Ok_inv. apply IH in Hl. cbn. lia. }
  split_and!.
  - intros id Hid. split; [|by apply FromBytes_ok].
    unfold FromHex, Hex. rewrite length_hex_Encode, decide_True by (unfold is_id in Hid; lia).
    rewrite hex_Decode_Encode. cbn [mbind outcome_bind map_err]. by rewrite copy_at_zeroID_full.
  - intros s id. unfold FromHex. case_decide as H; [|done].
    intros (d & Hd & [= <-])%bind_Ok_inv.
    destruct (hex_DecodeString s) as [d'| | |] eqn:E; cbn in Hd; try done. injection Hd as ->.
    pose proof (Hlen _ _ E). unfold IDLength in *.
    rewrite copy_at_zeroID_full by (unfold IDLength; lia). unfold is_id, IDLength.
    split_and!; [lia|lia|done].
  - intros b id. split; [apply FromBytes_inv|]. intros [Hb ->]. by apply FromBytes_ok.
  - assert (∀ id, IsZero id = bool_decide (id = replicate (length id) x00)) as HZ.
    { induction id as [|b id IH]; [done|]. cbn. rewrite IH.
      destruct (Z.eqb_spec (byte_val b) 0) as [E|E].
      - assert (b = x00) as -> by by apply (inj byte_val). apply bool_decide_ext. split; congruence.
      - symmetry. apply bool_decide_eq_false. intros [= -> _]. done. }
    intros id Hid. by rewrite HZ, Hid.
Qed.
