(* ===== verification/Routing.v ===== *)
(** * The routing table: [internal/dht/routing.go]

    The k-buckets, with one definition per method.  The mutex makes each method
    atomic, so a method is a function of the table; a bucket's slice of node pointers
    is the list of the nodes (only the table's methods write to them).  Times are
    nanoseconds; [now] is the reading of the clock during the call. *)

From S2P Require Import Prelude GoStd Net NodeID.

Definition K : nat := 8.
Definition NumBuckets : nat := 160.
Definition NodeTimeout : Z := 15 * 60 * 10 ^ 9.

Record RoutingNode := mkRoutingNode {
  rn_ID : NodeID;
  rn_IP : bytes;
  rn_Port : Z;
  rn_LastSeen : Z;
}.

Abbreviation Bucket := (list RoutingNode).

Record RoutingTable := mkRoutingTable {
  localID : NodeID;
  buckets : list Bucket;
}.

#[global] Instance RoutingNode_eq_dec : EqDecision RoutingNode.
Proof. solve_decision. Defined.

Definition Addr (n : RoutingNode) : bytes :=
  JoinHostPort (IP_String (rn_IP n)) (string_of_rune (rn_Port n)).

Definition UDPAddr (n : RoutingNode) : bytes * Z := (rn_IP n, rn_Port n).

Definition NewRoutingTable (local : NodeID) : RoutingTable :=
  mkRoutingTable local (replicate NumBuckets []).

(** The bucket of an identifier, and its replacement. *)
Definition bucket_at (rt : RoutingTable) (idx : Z) : Bucket := buckets rt !!! Z.to_nat idx.

Definition set_bucket (rt : RoutingTable) (idx : Z) (b : Bucket) : RoutingTable :=
  mkRoutingTable (localID rt) (<[Z.to_nat idx := b]> (buckets rt)).

(** [append(b[:i], b[i+1:]...)]. *)
Definition remove_at (i : nat) (b : Bucket) : Bucket := take i b ++ drop (S i) b.

Definition Insert (now : Z) (id : NodeID) (ip : bytes) (port : Z) (rt : RoutingTable)
  : bool * RoutingTable :=
  if decide (id = localID rt) then (false, rt)
  else
    let bucketIdx := BucketIndex (localID rt) id in
    let bucket := bucket_at rt bucketIdx in
    let new := mkRoutingNode id ip port now in
    match list_find (λ n, rn_ID n = id) bucket with
    | Some (i, node) =>
        let n := mkRoutingNode (rn_ID node) ip port now in
        (true, set_bucket rt bucketIdx (remove_at i bucket ++ [n]))
    | None =>
        if (length bucket <? K)%nat then (true, set_bucket rt bucketIdx (bucket ++ [new]))
        else
          match list_find (λ n, NodeTimeout < now - rn_LastSeen n) bucket with
          | Some (i, _) => (true, set_bucket rt bucketIdx (<[i := new]> bucket))
          | None => (false, rt)
          end
    end.

Definition Remove (id : NodeID) (rt : RoutingTable) : RoutingTable :=
  let bucketIdx := BucketIndex (localID rt) id in
  let bucket := bucket_at rt bucketIdx in
  match list_find (λ n, rn_ID n = id) bucket with
  | Some (i, _) => set_bucket rt bucketIdx (remove_at i bucket)
  | None => rt
  end.

Definition GetAllNodes (rt : RoutingTable) : list RoutingNode := concat (buckets rt).

(** [distI.Less(distJ)] of [FindClosest]. *)
Definition closer (target : NodeID) (a b : RoutingNode) : bool :=
  Less (Distance (rn_ID a) target) (Distance (rn_ID b) target).

Definition FindClosest (target : NodeID) (count : Z) (rt : RoutingTable)
  : outcome unit (list RoutingNode) :=
  let allNodes := sort_Slice (closer target) (concat (buckets rt)) in
  if count <? Z.of_nat (length allNodes) then slice allNodes 0 count else Ok allNodes.

Definition GetNode (id : NodeID) (rt : RoutingTable) : option RoutingNode :=
  snd <$> list_find (λ n, rn_ID n = id) (bucket_at rt (BucketIndex (localID rt) id)).

Definition RandomFromBucket (bucketIdx : Z) (rt : RoutingTable) : option RoutingNode :=
  if (bucketIdx <? 0) || (Z.of_nat NumBuckets <=? bucketIdx) then None
  else head (bucket_at rt bucketIdx).

Definition Size (rt : RoutingTable) : nat :=
  foldl (λ count b, (count + length b)%nat) 0%nat (buckets rt).

Definition BucketSizes (rt : RoutingTable) : list nat := length <$> buckets rt.

Definition Touch (now : Z) (id : NodeID) (rt : RoutingTable) : RoutingTable :=
  let bucketIdx := BucketIndex (localID rt) id in
  let bucket := bucket_at rt bucketIdx in
  match list_find (λ n, rn_ID n = id) bucket with
  | Some (i, n) =>
      set_bucket rt bucketIdx (<[i := mkRoutingNode (rn_ID n) (rn_IP n) (rn_Port n) now]> bucket)
  | None => rt
  end.

Definition GetStaleNodes (now maxAge : Z) (rt : RoutingTable) : list RoutingNode :=
  buckets rt ≫= λ b, filter (λ n, rn_LastSeen n < now - maxAge) b.

(** ** The invariant of the table *)

Record bucket_inv (local : NodeID) (i : nat) (b : Bucket) : Prop := {
  bucket_size : (length b ≤ K)%nat;
  bucket_nodup : NoDup (rn_ID <$> b);
  bucket_nodes : ∀ n, n ∈ b →
    is_id (rn_ID n) ∧ rn_ID n ≠ local ∧ BucketIndex local (rn_ID n) = Z.of_nat i;
}.

Record rt_inv (rt : RoutingTable) : Prop := {
  rt_local : is_id (localID rt);
  rt_length : length (buckets rt) = NumBuckets;
  rt_buckets : ∀ i b, buckets rt !! i = Some b → bucket_inv (localID rt) i b;
}.

Lemma BucketIndex_range local id :
  is_id local → is_id id → 0 ≤ BucketIndex local id < 160.
Proof.
  intros Hl Hi. pose proof (length_Distance local id) as Hd. unfold BucketIndex.
  rewrite LeadingZeros_spec, Hd. unfold IDLength in *.
  pose proof (be_val_id_range _ Hd).
  case_decide as E; [by split; vm_compute|].
  assert (0 ≤ Z.log2 (be_val (Distance local id)) < 160).
  { split; [apply Z.log2_nonneg|apply Z.log2_lt_pow2; lia]. }
  rewrite (proj2 (Z.leb_gt _ _)) by lia. lia.
Qed.

Section inv.
Context (rt : RoutingTable) (Hrt : rt_inv rt).
Implicit Types (id : NodeID) (b : Bucket).

Let idx id := BucketIndex (localID rt) id.

Lemma bucket_at_lookup id :
  is_id id → buckets rt !! Z.to_nat (idx id) = Some (bucket_at rt (idx id)).
Proof.
  intros Hid. unfold bucket_at. apply list_lookup_lookup_total_lt.
  rewrite (rt_length _ Hrt). unfold NumBuckets.
  pose proof (BucketIndex_range _ id (rt_local _ Hrt) Hid). unfold idx. lia.
Qed.

Lemma bucket_at_inv id :
  is_id id → bucket_inv (localID rt) (Z.to_nat (idx id)) (bucket_at rt (idx id)).
Proof. intros Hid. by apply (rt_buckets _ Hrt), bucket_at_lookup. Qed.

Lemma set_bucket_inv id b :
  is_id id → bucket_inv (localID rt) (Z.to_nat (idx id)) b → rt_inv (set_bucket rt (idx id) b).
Proof.
  intros Hid Hb. destruct Hrt as [Hl Hn Hbs]. split; cbn; [done|by rewrite length_insert|].
  intros i b' [(<- & <- & _)|(_ & H)]%list_lookup_insert_Some; [done|by apply Hbs].
Qed.

Lemma bucket_at_set_eq id b :
  is_id id → bucket_at (set_bucket rt (idx id) b) (idx id) = b.
Proof.
  intros Hid. unfold bucket_at, set_bucket. cbn. apply list_lookup_total_insert_eq.
  rewrite (rt_length _ Hrt). unfold NumBuckets.
  pose proof (BucketIndex_range _ id (rt_local _ Hrt) Hid). unfold idx. lia.
Qed.

Lemma bucket_at_set_ne id id' b :
  is_id id → is_id id' → idx id ≠ idx id' →
  bucket_at (set_bucket rt (idx id) b) (idx id') = bucket_at rt (idx id').
Proof.
  intros Hid Hid' Hne. unfold bucket_at, set_bucket. cbn.
  apply list_lookup_total_insert_ne.
  pose proof (BucketIndex_range _ id (rt_local _ Hrt) Hid).
  pose proof (BucketIndex_range _ id' (rt_local _ Hrt) Hid'). unfold idx in *. lia.
Qed.
End inv.

(** ** Looking up a node in a bucket *)

Definition bucket_get (id : NodeID) (b : Bucket) : option RoutingNode :=
  snd <$> list_find (λ n, rn_ID n = id) b.

Lemma bucket_get_Some id b n :
  NoDup (rn_ID <$> b) → bucket_get id b = Some n ↔ n ∈ b ∧ rn_ID n = id.
Proof.
  intros Hnd. unfold bucket_get. rewrite fmap_Some. split.
  - intros ([i n'] & (Hi & HP & _)%list_find_Some & ->). cbn.
    split; [by eapply list_elem_of_lookup_2|done].
  - intros [Hin Hid].
    destruct (list_find_elem_of (λ n, rn_ID n = id) b n Hin Hid) as [[i n'] Hf].
    exists (i, n'). split; [done|]. cbn.
    apply list_find_Some in Hf as (Hi & HP & _).
    apply list_elem_of_lookup in Hin as [j Hj].
    assert (i = j) as ->; [|congruence].
    eapply NoDup_lookup; [exact Hnd|..]; rewrite list_lookup_fmap.
    + by rewrite Hi; cbn; rewrite HP.
    + by rewrite Hj; cbn; rewrite Hid.
Qed.

Lemma bucket_get_None id b : bucket_get id b = None ↔ id ∉ rn_ID <$> b.
Proof.
  unfold bucket_get. rewrite fmap_None, list_find_None, Forall_forall. split.
  - intros H (n & -> & Hn)%list_elem_of_fmap. by apply (H n).
  - intros H n Hn Hid. apply H. rewrite <- Hid. by apply list_elem_of_fmap_2.
Qed.

Lemma remove_at_perm i b n : b !! i = Some n → b ≡ₚ n :: remove_at i b.
Proof.
  intros H. unfold remove_at. rewrite <- (take_drop_middle b i n H) at 1.
  by rewrite Permutation_middle.
Qed.

Lemma NoDup_ids_perm b b' : b ≡ₚ b' → NoDup (rn_ID <$> b) → NoDup (rn_ID <$> b').
Proof. intros H. by rewrite H. Qed.

(** A bucket's invariant and its lookups do not depend on the order of its nodes:
    the operations are reasoned about up to permutation. *)
#[global] Instance bucket_inv_perm local i : Proper (Permutation ==> iff) (bucket_inv local i).
Proof.
  assert (∀ b b', b ≡ₚ b' → bucket_inv local i b → bucket_inv local i b') as H.
  { intros b b' Hp [Hs Hn Hb]. split.
    - by rewrite <- Hp.
    - by rewrite <- Hp.
    - intros n. rewrite <- Hp. apply Hb. }
  intros b b' Hp. split; apply H; [done|by symmetry].
Qed.

Lemma bucket_get_perm id b b' :
  NoDup (rn_ID <$> b) → b ≡ₚ b' → bucket_get id b = bucket_get id b'.
Proof.
  intros Hnd Hp. assert (NoDup (rn_ID <$> b')) as Hnd' by (by rewrite <- Hp).
  apply option_eq. intros n. rewrite !bucket_get_Some by done. by rewrite Hp.
Qed.

Lemma bucket_get_cons id n b :
  bucket_get id (n :: b) = if decide (rn_ID n = id) then Some n else bucket_get id b.
Proof.
  unfold bucket_get. cbn. case_decide; [done|].
  by destruct (list_find _ b) as [[i m]|].
Qed.

Lemma insert_at_perm i b n n' : b !! i = Some n → <[i := n']> b ≡ₚ n' :: remove_at i b.
Proof.
  intros H. unfold remove_at. rewrite insert_take_drop by (by eapply lookup_lt_Some).
  by rewrite Permutation_middle.
Qed.

Lemma bucket_inv_cons local i n b :
  bucket_inv local i (n :: b) ↔
  (length b < K)%nat ∧ (rn_ID n ∉ rn_ID <$> b) ∧ bucket_inv local i b ∧
  is_id (rn_ID n) ∧ rn_ID n ≠ local ∧ BucketIndex local (rn_ID n) = Z.of_nat i.
Proof.
  split.
  - intros [Hs Hn Hb]. cbn in Hs, Hn. apply NoDup_cons in Hn as [Hn1 Hn2].
    split_and!; [lia|done| |apply Hb; set_solver..].
    split; [lia|done|]. intros m Hm. apply Hb. set_solver.
  - intros (Hs & Hn & [Hs' Hn' Hb'] & Hid). split; cbn.
    + lia.
    + by apply NoDup_cons.
    + intros m [->|Hm]%elem_of_cons; [done|by apply Hb'].
Qed.

(** ** The table as a finite map *)

Definition nodes_map (rt : RoutingTable) : gmap NodeID RoutingNode :=
  list_to_map ((λ n, (rn_ID n, n)) <$> GetAllNodes rt).

Lemma elem_of_all_nodes rt n :
  rt_inv rt →
  n ∈ GetAllNodes rt ↔
    is_id (rn_ID n) ∧ n ∈ bucket_at rt (BucketIndex (localID rt) (rn_ID n)).
Proof.
  intros Hrt. unfold GetAllNodes. rewrite elem_of_concat. split.
  - intros (b & [i Hi]%list_elem_of_lookup & Hn).
    destruct (bucket_nodes _ _ _ (rt_buckets _ Hrt _ _ Hi) n Hn) as (Hid & _ & Hidx).
    split; [done|]. unfold bucket_at. rewrite Hidx, Nat2Z.id.
    by rewrite (list_lookup_total_correct _ _ _ Hi).
  - intros [Hid Hn]. eexists. split; [|exact Hn].
    by eapply list_elem_of_lookup_2, (bucket_at_lookup rt Hrt).
Qed.

Lemma NoDup_concat_ids (l : list Bucket) (f : NodeID → Z) off :
  (∀ i b, l !! i = Some b →
     NoDup (rn_ID <$> b) ∧ ∀ n, n ∈ b → f (rn_ID n) = off + Z.of_nat i) →
  NoDup (rn_ID <$> concat l).
Proof.
  revert off. induction l as [|b l IH]; intros off H; [constructor|].
  cbn. rewrite fmap_app. apply NoDup_app. split_and!.
  - by apply (H 0%nat).
  - intros id (n & -> & Hn)%list_elem_of_fmap (m & Hm & Hin)%list_elem_of_fmap.
    apply (proj2 (H 0%nat b eq_refl)) in Hn.
    apply elem_of_concat in Hin as (b' & [i Hi]%list_elem_of_lookup & Hm').
    apply (proj2 (H (S i) b' Hi)) in Hm'. rewrite <- Hm in Hm'. lia.
  - apply (IH (off + 1)). intros i b' Hi. destruct (H (S i) b' Hi) as [Hn Hf].
    split; [done|]. intros n Hin. rewrite Hf by done. lia.
Qed.

Lemma NoDup_all_nodes rt : rt_inv rt → NoDup (rn_ID <$> GetAllNodes rt).
Proof.
  intros Hrt. apply (NoDup_concat_ids _ (BucketIndex (localID rt)) 0).
  intros i b Hi. destruct (rt_buckets _ Hrt _ _ Hi) as [_ Hn Hb].
  split; [done|]. intros n Hin. by apply Hb.
Qed.

Lemma nodes_map_lookup_Some rt id n :
  rt_inv rt → nodes_map rt !! id = Some n ↔ n ∈ GetAllNodes rt ∧ rn_ID n = id.
Proof.
  intros Hrt. unfold nodes_map. rewrite <- elem_of_list_to_map.
  - rewrite list_elem_of_fmap. split.
    + by intros (m & [= -> ->] & Hm).
    + intros [Hn <-]. by exists n.
  - rewrite <- list_fmap_compose. by apply NoDup_all_nodes.
Qed.

(** [GetNode] is the map's lookup. *)
Lemma nodes_map_lookup rt id :
  rt_inv rt → nodes_map rt !! id = if decide (is_id id) then GetNode id rt else None.
Proof.
  intros Hrt. apply option_eq. intros n.
  rewrite nodes_map_lookup_Some, elem_of_all_nodes by done. case_decide as Hid.
  - pose proof (bucket_at_inv rt Hrt id Hid) as Hb. unfold GetNode.
    rewrite (bucket_get_Some id _ n (bucket_nodup _ _ _ Hb)).
    split; [by intros [[_ H] <-]|]. by intros [H <-].
  - split; [|done]. by intros [[H _] <-].
Qed.

#[local] Opaque BucketIndex.

Section bucket_update.
Context (rt : RoutingTable) (Hrt : rt_inv rt) (id : NodeID) (Hid : is_id id).
Let idx := BucketIndex (localID rt) id.
Let bucket := bucket_at rt idx.

Lemma bucket_update_lookup b x :
  bucket_inv (localID rt) (Z.to_nat idx) b → is_id x →
  nodes_map (set_bucket rt idx b) !! x =
    if decide (BucketIndex (localID rt) x = idx) then bucket_get x b else nodes_map rt !! x.
Proof.
  intros Hb Hx. pose proof (set_bucket_inv rt Hrt id b Hid Hb) as Hrt'.
  rewrite (nodes_map_lookup (set_bucket _ _ _)), nodes_map_lookup by done.
  rewrite !(decide_True (P := is_id x) _ _ Hx). unfold GetNode, bucket_get.
  change (localID (set_bucket rt idx b)) with (localID rt).
  case_decide as E.
  - rewrite E. unfold idx. by rewrite bucket_at_set_eq.
  - unfold idx in *. rewrite (bucket_at_set_ne rt Hrt id x b Hid Hx); [done|congruence].
Qed.

Lemma bucket_lookup x :
  is_id x → BucketIndex (localID rt) x = idx → nodes_map rt !! x = bucket_get x bucket.
Proof.
  intros Hx E. rewrite nodes_map_lookup, decide_True by done.
  unfold GetNode. by rewrite E.
Qed.

Lemma nodes_map_is_id rt' x n : rt_inv rt' → nodes_map rt' !! x = Some n → is_id x.
Proof. intros H. rewrite nodes_map_lookup by done. by case_decide. Qed.

(** Replacing, in the bucket of [id], the nodes [old] by the nodes [new] (at most
    one of each) deletes the first and inserts the second in the map. *)
Lemma bucket_update_map (old new : option RoutingNode) r b :
  bucket ≡ₚ option_list old ++ r → b ≡ₚ option_list new ++ r →
  bucket_inv (localID rt) (Z.to_nat idx) b →
  rt_inv (set_bucket rt idx b) ∧
  nodes_map (set_bucket rt idx b) =
    let m := match old with Some o => delete (rn_ID o) (nodes_map rt) | None => nodes_map rt end in
    match new with Some n => <[rn_ID n := n]> m | None => m end.
Proof.
  intros Hold Hnew Hb. pose proof (set_bucket_inv rt Hrt id b Hid Hb) as Hrt'.
  split; [done|].
  assert (bucket_inv (localID rt) (Z.to_nat idx) bucket) as Hb0
    by exact (bucket_at_inv rt Hrt id Hid).
  assert (∀ n b', n ∈ b' → bucket_inv (localID rt) (Z.to_nat idx) b' →
    is_id (rn_ID n) ∧ BucketIndex (localID rt) (rn_ID n) = idx) as Hmem.
  { intros n b' Hn Hb'. destruct (bucket_nodes _ _ _ Hb' n Hn) as (? & _ & Hi).
    split; [done|]. pose proof (BucketIndex_range _ id (rt_local _ Hrt) Hid).
    unfold idx in *. lia. }
  set (m := match old with Some o => delete (rn_ID o) (nodes_map rt) | None => nodes_map rt end).
  assert (∀ x, is_id x → m !! x =
    if decide (BucketIndex (localID rt) x = idx) then bucket_get x r else nodes_map rt !! x) as Hm.
  { intros x Hx. subst m. destruct old as [o|].
    - change (option_list (Some o) ++ r) with (o :: r) in *. rewrite Hold in Hb0. pose proof Hb0 as (_ & Ho & _)%bucket_inv_cons.
      destruct (Hmem o _ (list_elem_of_here _ _) Hb0) as [_ Hoi].
      rewrite lookup_delete. case_decide as E.
      + subst x. rewrite decide_True by done. symmetry. by apply bucket_get_None.
      + case_decide as E2; [|done]. rewrite bucket_lookup by done.
        rewrite (bucket_get_perm x bucket (o :: r)); [|by rewrite Hold; apply Hb0|done].
        by rewrite bucket_get_cons, decide_False.
    - case_decide; [|done]. rewrite bucket_lookup by done.
      by apply bucket_get_perm; [apply Hb0|]. }
  assert (∀ x, is_id x → nodes_map (set_bucket rt idx b) !! x =
    match new with Some n => <[rn_ID n := n]> m | None => m end !! x) as Hx.
  { intros x Hx. rewrite bucket_update_lookup by done.
    rewrite (bucket_get_perm x b _ (bucket_nodup _ _ _ Hb) Hnew).
    destruct new as [n|]; [|by rewrite Hm].
    change (option_list (Some n) ++ r) with (n :: r) in *.
    rewrite Hnew in Hb. destruct (Hmem n _ (list_elem_of_here _ _) Hb) as [_ Hni].
    rewrite bucket_get_cons, lookup_insert, Hm by done.
    destruct (decide (rn_ID n = x)) as [<-|]; [by rewrite decide_True|done]. }
  apply map_eq. intros x. destruct (decide (is_id x)) as [Hix|Hix]; [by apply Hx|].
  rewrite (nodes_map_lookup (set_bucket _ _ _)), decide_False by done. symmetry.
  assert (m !! x = None) as HN.
  { assert (nodes_map rt !! x = None) by (by rewrite nodes_map_lookup, decide_False).
    subst m. destruct old; [|done]. rewrite lookup_delete_None. by right. }
  destruct new as [n|]; [|done]. rewrite lookup_insert_ne; [done|]. intros <-.
  apply Hix. apply (Hmem n b); [|done]. rewrite Hnew. apply list_elem_of_here.
Qed.
End bucket_update.

(** ** The methods against the finite map *)

(** What [Insert] may do to the map [m] of a table whose bucket for [id] holds
    [bucket]: the result and the new map. *)
Inductive insert_spec (local : NodeID) (now : Z) (new : RoutingNode) (bucket : Bucket)
  (m : gmap NodeID RoutingNode) : bool → gmap NodeID RoutingNode → Prop :=
  | insert_self :
      rn_ID new = local → insert_spec local now new bucket m false m
  | insert_refresh old :
      m !! rn_ID new = Some old →
      insert_spec local now new bucket m true (<[rn_ID new := new]> m)
  | insert_add :
      rn_ID new ≠ local → m !! rn_ID new = None → (length bucket < K)%nat →
      insert_spec local now new bucket m true (<[rn_ID new := new]> m)
  | insert_evict old :
      m !! rn_ID new = None → length bucket = K →
      old ∈ bucket → NodeTimeout < now - rn_LastSeen old →
      insert_spec local now new bucket m true (<[rn_ID new := new]> (delete (rn_ID old) m))
  | insert_full :
      m !! rn_ID new = None → length bucket = K →
      (∀ n, n ∈ bucket → now - rn_LastSeen n ≤ NodeTimeout) →
      insert_spec local now new bucket m false m.

Lemma list_find_bucket id b :
  match list_find (λ n, rn_ID n = id) b with
  | Some (i, n) => b !! i = Some n ∧ rn_ID n = id
  | None => id ∉ rn_ID <$> b
  end.
Proof.
  destruct (list_find _ b) as [[i n]|] eqn:E.
  - apply list_find_Some in E as (? & ? & _). done.
  - apply bucket_get_None. unfold bucket_get. by rewrite E.
Qed.

Section operations.
Context (rt : RoutingTable) (Hrt : rt_inv rt) (id : NodeID) (Hid : is_id id).
Let idx := BucketIndex (localID rt) id.
Let bucket := bucket_at rt idx.

Lemma idx_nat : Z.of_nat (Z.to_nat idx) = idx.
Proof. pose proof (BucketIndex_range _ id (rt_local _ Hrt) Hid). unfold idx. lia. Qed.

Lemma bucket_inv0 : bucket_inv (localID rt) (Z.to_nat idx) bucket.
Proof. exact (bucket_at_inv rt Hrt id Hid). Qed.

Lemma bucket_replace i old new :
  bucket !! i = Some old → rn_ID new = id → id ≠ localID rt →
  (id = rn_ID old ∨ id ∉ rn_ID <$> bucket) →
  bucket_inv (localID rt) (Z.to_nat idx) (new :: remove_at i bucket).
Proof.
  intros Hi Hn Hl Hor. pose proof bucket_inv0 as Hb.
  pose proof (remove_at_perm i bucket old Hi) as Hp. rewrite Hp in Hb, Hor.
  apply bucket_inv_cons in Hb as (Hs & Ho & Hr & _).
  apply bucket_inv_cons. rewrite Hn, idx_nat. split_and!; try done.
  destruct Hor as [->|Hor]; [done|set_solver].
Qed.

Lemma bucket_lookup_none : id ∉ rn_ID <$> bucket → nodes_map rt !! id = None.
Proof.
  intros H. rewrite (nodes_map_lookup rt id Hrt), decide_True by done.
  by apply bucket_get_None.
Qed.

Lemma bucket_lookup_some i n :
  bucket !! i = Some n → rn_ID n = id → nodes_map rt !! id = Some n.
Proof.
  intros Hi Hn. rewrite (nodes_map_lookup rt id Hrt), decide_True by done.
  apply bucket_get_Some; [apply bucket_inv0|]. split; [by eapply list_elem_of_lookup_2|done].
Qed.

Lemma Insert_correct now ip port :
  let '(ok, rt') := Insert now id ip port rt in
  rt_inv rt' ∧ localID rt' = localID rt ∧
  insert_spec (localID rt) now (mkRoutingNode id ip port now) bucket
    (nodes_map rt) ok (nodes_map rt').
Proof.
  unfold Insert. fold idx bucket. set (new := mkRoutingNode id ip port now).
  case_decide as Hl; [by split_and!; [..|by apply insert_self]|].
  pose proof (list_find_bucket id bucket) as Hf.
  destruct (list_find (λ n, rn_ID n = id) bucket) as [[i n]|].
  - destruct Hf as [Hi Hn]. rewrite Hn. fold new.
    destruct (bucket_update_map rt Hrt id Hid (Some n) (Some new) (remove_at i bucket)
      (remove_at i bucket ++ [new])) as [Hinv Hm].
    + by apply remove_at_perm.
    + by rewrite Permutation_app_comm.
    + rewrite Permutation_app_comm. eapply bucket_replace; eauto.
    + split_and!; [done..|]. fold idx in Hm. rewrite Hm. cbn.
      rewrite Hn. rewrite insert_delete_eq.
      eapply insert_refresh. by eapply bucket_lookup_some.
  - pose proof (bucket_lookup_none Hf) as HN.
    destruct (Nat.ltb_spec (length bucket) K) as [Hlen|Hlen].
    + destruct (bucket_update_map rt Hrt id Hid None (Some new) bucket (bucket ++ [new]))
        as [Hinv Hm].
      * done.
      * by rewrite Permutation_app_comm.
      * rewrite Permutation_app_comm. apply bucket_inv_cons. cbn. fold idx.
        rewrite idx_nat. split_and!; try done. apply bucket_inv0.
      * split_and!; [done..|]. fold idx in Hm. rewrite Hm. by apply insert_add.
    + assert (length bucket = K) as Hk by (pose proof (bucket_size _ _ _ bucket_inv0); lia).
      destruct (list_find (λ n, NodeTimeout < now - rn_LastSeen n) bucket) as [[i v]|] eqn:Es.
      * apply list_find_Some in Es as (Hi & Hstale & _).
        destruct (bucket_update_map rt Hrt id Hid (Some v) (Some new) (remove_at i bucket)
          (<[i := new]> bucket)) as [Hinv Hm].
        -- by apply remove_at_perm.
        -- by eapply insert_at_perm.
        -- rewrite (insert_at_perm i bucket v new Hi). eapply bucket_replace; eauto.
        -- split_and!; [done..|]. fold idx in Hm. rewrite Hm.
           eapply insert_evict; try done. by eapply list_elem_of_lookup_2.
      * apply list_find_None in Es. rewrite Forall_forall in Es.
        split_and!; [done..|]. apply insert_full; [done..|].
        intros n Hn. specialize (Es n Hn). lia.
Qed.

Lemma Remove_correct :
  rt_inv (Remove id rt) ∧ localID (Remove id rt) = localID rt ∧
  nodes_map (Remove id rt) = delete id (nodes_map rt).
Proof.
  unfold Remove. fold idx bucket. pose proof (list_find_bucket id bucket) as Hf.
  destruct (list_find (λ n, rn_ID n = id) bucket) as [[i n]|].
  - destruct Hf as [Hi Hn].
    destruct (bucket_update_map rt Hrt id Hid (Some n) None (remove_at i bucket)
      (remove_at i bucket)) as [Hinv Hm]; [by apply remove_at_perm|done| |].
    + pose proof bucket_inv0 as Hb. rewrite (remove_at_perm i bucket n Hi) in Hb.
      by apply bucket_inv_cons in Hb as (_ & _ & ? & _).
    + split_and!; [done..|]. fold idx in Hm. rewrite Hm. cbn. by rewrite Hn.
  - split_and!; [done..|]. symmetry. apply delete_id. by apply bucket_lookup_none.
Qed.

Lemma Touch_correct now :
  rt_inv (Touch now id rt) ∧ localID (Touch now id rt) = localID rt ∧
  nodes_map (Touch now id rt) =
    alter (λ n, mkRoutingNode (rn_ID n) (rn_IP n) (rn_Port n) now) id (nodes_map rt).
Proof.
  unfold Touch. fold idx bucket. pose proof (list_find_bucket id bucket) as Hf.
  destruct (list_find (λ n, rn_ID n = id) bucket) as [[i n]|].
  - destruct Hf as [Hi Hn]. set (new := mkRoutingNode _ _ _ now).
    assert (id ≠ localID rt) as Hl.
    { rewrite <- Hn. eapply (bucket_nodes _ _ _ bucket_inv0). by eapply list_elem_of_lookup_2. }
    destruct (bucket_update_map rt Hrt id Hid (Some n) (Some new) (remove_at i bucket)
      (<[i := new]> bucket)) as [Hinv Hm].
    + by apply remove_at_perm.
    + by eapply insert_at_perm.
    + rewrite (insert_at_perm i bucket n new Hi). eapply bucket_replace; eauto.
    + split_and!; [done..|]. fold idx in Hm. rewrite Hm. cbn. rewrite Hn, insert_delete_eq.
      apply map_eq. intros x. rewrite lookup_insert, lookup_alter.
      case_decide as E; [|done].
      by rewrite (bucket_lookup_some i n Hi Hn).
  - split_and!; [done..|]. apply map_eq. intros x. rewrite lookup_alter.
    case_decide as E; [|done]. by rewrite <- E, bucket_lookup_none.
Qed.
End operations.

(** ** Reachable tables *)

Inductive rt_step : RoutingTable → RoutingTable → Prop :=
  | step_Insert now id ip port rt : is_id id → rt_step rt (Insert now id ip port rt).2
  | step_Remove id rt : is_id id → rt_step rt (Remove id rt)
  | step_Touch now id rt : is_id id → rt_step rt (Touch now id rt).

Lemma NewRoutingTable_inv local : is_id local → rt_inv (NewRoutingTable local).
Proof.
  intros Hl. split; [done|apply length_replicate|].
  intros i b [-> _]%lookup_replicate. split; cbn; [lia|constructor|set_solver].
Qed.

Lemma rt_step_inv rt rt' :
  rt_inv rt → rt_step rt rt' → rt_inv rt' ∧ localID rt' = localID rt.
Proof.
  intros Hrt H; revert Hrt.
  destruct H as [now id ip port rt0 Hid|id rt0 Hid|now id rt0 Hid]; intros Hrt.
  - pose proof (Insert_correct rt0 Hrt id Hid now ip port) as H.
    destruct (Insert now id ip port rt0) as [ok rt']. by destruct H as (? & ? & _).
  - by destruct (Remove_correct rt0 Hrt id Hid) as (? & ? & _).
  - by destruct (Touch_correct rt0 Hrt id Hid now) as (? & ? & _).
Qed.

Lemma Size_sum rt : Size rt = length (GetAllNodes rt).
Proof.
  unfold Size, GetAllNodes.
  assert (∀ l c, foldl (λ count (b : Bucket), (count + length b)%nat) c l = (c + length (concat l))%nat) as H.
  { induction l as [|b l IH]; intros c; cbn; [lia|]. rewrite IH, length_app. lia. }
  by rewrite H.
Qed.

Lemma length_concat_le (l : list Bucket) k :
  (∀ b, b ∈ l → (length b ≤ k)%nat) → (length (concat l) ≤ length l * k)%nat.
Proof.
  induction l as [|b l IH]; intros H; cbn; [lia|]. rewrite length_app.
  specialize (H b ltac:(left)) as Hb. specialize (IH (λ b Hb, H b ltac:(by right))). lia.
Qed.

(** ** Sorting by distance *)

Lemma closer_lt target a b :
  closer target a b =
    (be_val (Distance (rn_ID a) target) <? be_val (Distance (rn_ID b) target)).
Proof. apply Less_val; apply length_Distance. Qed.

#[local] Instance closer_total target : Total (not_after (closer target)).
Proof. intros a b. unfold not_after. rewrite !closer_lt, !Z.ltb_ge. lia. Qed.

#[local] Instance closer_trans target : Transitive (not_after (closer target)).
Proof. intros a b c. unfold not_after. rewrite !closer_lt, !Z.ltb_ge. lia. Qed.

Lemma Distance_inj a b t :
  is_id a → is_id b → is_id t → be_val (Distance a t) = be_val (Distance b t) → a = b.
Proof.
  intros Ha Hb Ht. rewrite !Distance_val by done. intros H.
  apply be_val_inj; [unfold is_id in *; congruence|].
  rewrite <- (Z.lxor_0_r (be_val a)), <- (Z.lxor_0_r (be_val b)).
  rewrite <- (Z.lxor_nilpotent (be_val t)), <- !Z.lxor_assoc. by rewrite H.
Qed.

Definition nearer (target : NodeID) (a b : RoutingNode) : Prop :=
  be_val (Distance (rn_ID a) target) < be_val (Distance (rn_ID b) target).

Lemma sorted_nearer target l :
  is_id target → (∀ n, n ∈ l → is_id (rn_ID n)) → NoDup (rn_ID <$> l) →
  StronglySorted (not_after (closer target)) l → StronglySorted (nearer target) l.
Proof.
  intros Ht Hid Hnd Hs. induction Hs as [|a l Hs IH Ha]; [constructor|].
  cbn in Hnd. apply NoDup_cons in Hnd as [Hna Hnd].
  constructor; [apply IH; [intros n ?; apply Hid; set_solver|done]|].
  rewrite Forall_forall in *. intros b Hb. specialize (Ha b Hb).
  unfold not_after in Ha. rewrite closer_lt, Z.ltb_ge in Ha. unfold nearer.
  assert (be_val (Distance (rn_ID a) target) ≠ be_val (Distance (rn_ID b) target)); [|lia].
  intros E. apply Distance_inj in E; [|apply Hid; set_solver..|done].
  apply Hna. rewrite E. by apply list_elem_of_fmap_2.
Qed.

Lemma all_nodes_is_id rt n : rt_inv rt → n ∈ GetAllNodes rt → is_id (rn_ID n).
Proof. intros Hrt. rewrite elem_of_all_nodes by done. by intros []. Qed.

Lemma sort_closest_perm target rt :
  sort_Slice (closer target) (concat (buckets rt)) ≡ₚ GetAllNodes rt.
Proof. apply merge_sort_Permutation. Qed.

Lemma StronglySorted_app_all {A} (R : A → A → Prop) l1 l2 a b :
  StronglySorted R (l1 ++ l2) → a ∈ l1 → b ∈ l2 → R a b.
Proof.
  induction l1 as [|x l1 IH]; cbn; [set_solver|].
  inversion 1 as [|? ? Hs Hx]; subst. rewrite Forall_forall in Hx.
  intros [->|Ha]%elem_of_cons Hb; [apply Hx; set_solver|by apply IH].
Qed.

Lemma StronglySorted_app_l {A} (R : A → A → Prop) l1 l2 :
  StronglySorted R (l1 ++ l2) → StronglySorted R l1.
Proof.
  induction l1 as [|x l1 IH]; cbn; [constructor|].
  inversion 1 as [|? ? Hs Hx]; subst. constructor; [by apply IH|].
  rewrite Forall_app in Hx. apply Hx.
Qed.

Lemma FindClosest_spec rt target count :
  rt_inv rt → is_id target → 0 ≤ count →
  ∃ ns, FindClosest target count rt = Ok ns ∧
    length ns = Nat.min (Z.to_nat count) (Size rt) ∧
    StronglySorted (nearer target) ns ∧
    (∀ n, n ∈ ns → n ∈ GetAllNodes rt) ∧
    (∀ n m, n ∈ ns → m ∈ GetAllNodes rt → m ∉ ns → nearer target n m) ∧
    (∀ l, l ≡ₚ GetAllNodes rt → Sorted (not_after (closer target)) l →
       ns = take (Z.to_nat count) l).
Proof.
  intros Hrt Ht Hc. set (all := sort_Slice (closer target) (concat (buckets rt))).
  pose proof (sort_closest_perm target rt) as Hp. fold all in Hp.
  assert (StronglySorted (nearer target) all) as Hs.
  { apply sorted_nearer; [done| | |apply (StronglySorted_merge_sort _)].
    - intros n. rewrite Hp. by apply all_nodes_is_id.
    - rewrite Hp. by apply NoDup_all_nodes. }
  assert (FindClosest target count rt = Ok (take (Z.to_nat count) all)) as HF.
  { unfold FindClosest. fold all. destruct (Z.ltb_spec count (Z.of_nat (length all))).
    - unfold slice. rewrite !(proj2 (Z.leb_le _ _)) by lia. cbn.
      by rewrite drop_0, Z.sub_0_r.
    - by rewrite take_ge by lia. }
  rewrite <- (take_drop (Z.to_nat count) all) in Hs.
  exists (take (Z.to_nat count) all). split_and!; [done| | | | |].
  - by rewrite length_take, Size_sum, <- Hp.
  - by eapply StronglySorted_app_l.
  - intros n Hn. rewrite <- Hp, <- (take_drop (Z.to_nat count) all). set_solver.
  - intros n m Hn Hm Hout. eapply StronglySorted_app_all; [exact Hs|done|].
    rewrite <- Hp, <- (take_drop (Z.to_nat count) all) in Hm. set_solver.
  - intros l Hl Hsl. f_equal.
    apply (Sorted_unique_strong (not_after (closer target))).
    + intros a b Ha Hb Hab Hba. unfold not_after in *. rewrite closer_lt, Z.ltb_ge in *.
      rewrite Hp in Ha. rewrite Hl in Hb.
      assert (rn_ID a = rn_ID b) as E.
      { apply (Distance_inj _ _ target); [by eapply all_nodes_is_id..|done|lia]. }
      pose proof (proj2 (nodes_map_lookup_Some rt (rn_ID a) b Hrt) (conj Hb (eq_sym E))).
      pose proof (proj2 (nodes_map_lookup_Some rt (rn_ID a) a Hrt) (conj Ha eq_refl)). congruence.
    + apply (Sorted_merge_sort _).
    + done.
    + by rewrite Hp.
Qed.

(** Insertion adds one node at most. *)
Lemma Insert_elem now id ip port rt n :
  rt_inv rt → is_id id → n ∈ GetAllNodes (Insert now id ip port rt).2 →
  n = mkRoutingNode id ip port now ∨ n ∈ GetAllNodes rt.
Proof.
  intros Hrt Hid Hn. pose proof (Insert_correct rt Hrt id Hid now ip port) as H.
  destruct (Insert now id ip port rt) as [ok rt']. cbn in Hn. destruct H as (Hrt' & _ & Hs).
  pose proof (proj2 (nodes_map_lookup_Some rt' (rn_ID n) n Hrt') (conj Hn eq_refl)) as Hm.
  assert (∀ x, nodes_map rt !! x = Some n → n ∈ GetAllNodes rt) as HG.
  { intros x Hx. by apply nodes_map_lookup_Some in Hx as [? _]. }
  revert Hs Hm. generalize (nodes_map rt') as m'. intros m' Hs Hm.
  destruct Hs; cbn in Hm; try (right; by eapply HG).
  all: apply lookup_insert_Some in Hm as [[_ ?]|[_ Hm]]; [by left|right].
  3: apply lookup_delete_Some in Hm as [_ Hm].
  all: by eapply HG.
Qed.

(** ** Properties *)

(** C10: from an empty table, any sequence of insertions, removals and touches keeps
    the k-bucket invariant (160 buckets, at most 8 nodes each, every node in the bucket
    of its distance, the node's own identifier never stored), stores no identifier
    twice, and so holds at most 1280 nodes, as many as [Size] says. *)
Theorem routing_table_invariant local rt :
  is_id local → rtc rt_step (NewRoutingTable local) rt →
  rt_inv rt ∧ localID rt = local ∧ NoDup (rn_ID <$> GetAllNodes rt) ∧
  Size rt = length (GetAllNodes rt) ∧ (Size rt ≤ 1280)%nat.
Proof.
  intros Hl Hs.
  assert (∀ rt0, rtc rt_step rt0 rt → rt_inv rt0 → rt_inv rt ∧ localID rt = localID rt0) as HR.
  { clear. induction 1 as [|x y z Hxy _ IH]; [done|].
    intros [Hy E]%(rt_step_inv x y); [|done]. rewrite <- E. by apply IH. }
  destruct (HR _ Hs (NewRoutingTable_inv local Hl)) as [Hrt Hloc].
  split_and!; [done|done|by apply NoDup_all_nodes|apply Size_sum|].
  rewrite Size_sum. etransitivity; [apply (length_concat_le _ K)|].
  - intros b [i Hi]%list_elem_of_lookup. by apply (rt_buckets _ Hrt) in Hi as [? _ _].
  - rewrite (rt_length _ Hrt). cbn. lia.
Qed.

Lemma routing_table_invariant_witness :
  let l := replicate 20 x00 in
  let rt := (Insert 5 (replicate 20 xff) [x01; x02; x03; x04] 6881 (NewRoutingTable l)).2 in
  rt_inv rt ∧ localID rt = l ∧ NoDup (rn_ID <$> GetAllNodes rt) ∧
  Size rt = length (GetAllNodes rt) ∧ (Size rt ≤ 1280)%nat.
Proof.
  apply routing_table_invariant; [reflexivity|].
  eapply rtc_l; [|apply rtc_refl]. apply step_Insert. reflexivity.
Defined.

(** C11: [Insert] implements insertion into a finite map with bounded buckets: it
    refreshes a known node, adds a new one while its bucket has room, otherwise
    replaces one stale node of the bucket, and refuses (leaving the map alone) exactly
    for the table's own identifier and for a bucket full of fresh nodes. *)
Theorem Insert_refines_map rt now id ip port :
  rt_inv rt → is_id id →
  let '(ok, rt') := Insert now id ip port rt in
  rt_inv rt' ∧
  insert_spec (localID rt) now (mkRoutingNode id ip port now)
    (bucket_at rt (BucketIndex (localID rt) id)) (nodes_map rt) ok (nodes_map rt') ∧
  (ok = true → GetNode id rt' = Some (mkRoutingNode id ip port now)).
Proof.
  intros Hrt Hid. pose proof (Insert_correct rt Hrt id Hid now ip port) as H.
  destruct (Insert now id ip port rt) as [ok rt']. destruct H as (Hrt' & _ & Hs).
  split_and!; [done..|]. intros ->.
  assert (nodes_map rt' !! id = Some (mkRoutingNode id ip port now)) as Hm.
  { inversion Hs; cbn; apply lookup_insert_eq. }
  rewrite (nodes_map_lookup rt' id Hrt'), decide_True in Hm by done. done.
Qed.

Lemma Insert_refines_map_witness :
  let rt := NewRoutingTable (replicate 20 x00) in let id := replicate 20 xff in
  let '(ok, rt') := Insert 7 id [x01; x02; x03; x04] 6881 rt in
  rt_inv rt' ∧
  insert_spec (localID rt) 7 (mkRoutingNode id [x01; x02; x03; x04] 6881 7)
    (bucket_at rt (BucketIndex (localID rt) id)) (nodes_map rt) ok (nodes_map rt') ∧
  (ok = true → GetNode id rt' = Some (mkRoutingNode id [x01; x02; x03; x04] 6881 7)).
Proof.
  apply (Insert_refines_map (NewRoutingTable (replicate 20 x00)) 7 (replicate 20 xff)
    [x01; x02; x03; x04] 6881); [|reflexivity].
  apply NewRoutingTable_inv. reflexivity.
Defined.

(** [GetNode], [Remove] and [Touch] are the map's lookup, deletion and update of
    the last-seen time at one key, and leave every other node alone. *)
Theorem GetNode_Remove_Touch_refine_map rt now id :
  rt_inv rt → is_id id →
  GetNode id rt = nodes_map rt !! id ∧
  (rt_inv (Remove id rt) ∧ nodes_map (Remove id rt) = delete id (nodes_map rt)) ∧
  (rt_inv (Touch now id rt) ∧ nodes_map (Touch now id rt) =
     alter (λ n, mkRoutingNode (rn_ID n) (rn_IP n) (rn_Port n) now) id (nodes_map rt)).
Proof.
  intros Hrt Hid. split_and!.
  - by rewrite nodes_map_lookup, decide_True.
  - apply (Remove_correct rt Hrt id Hid).
  - apply (Remove_correct rt Hrt id Hid).
  - apply (Touch_correct rt Hrt id Hid).
  - apply (Touch_correct rt Hrt id Hid).
Qed.

Lemma GetNode_Remove_Touch_refine_map_witness :
  let rt := NewRoutingTable (replicate 20 x00) in let id := replicate 20 xff in
  GetNode id rt = nodes_map rt !! id ∧
  (rt_inv (Remove id rt) ∧ nodes_map (Remove id rt) = delete id (nodes_map rt)) ∧
  (rt_inv (Touch 9 id rt) ∧ nodes_map (Touch 9 id rt) =
     alter (λ n, mkRoutingNode (rn_ID n) (rn_IP n) (rn_Port n) 9) id (nodes_map rt)).
Proof.
  apply (GetNode_Remove_Touch_refine_map (NewRoutingTable (replicate 20 x00)) 9
    (replicate 20 xff)); [|reflexivity].
  apply NewRoutingTable_inv. reflexivity.
Defined.

(** C12: [FindClosest] returns the [count] nodes of the table nearest to the target (all
    of them when there are fewer), in strictly increasing distance, and any node it
    leaves out is farther than every node it returns; whichever algorithm [sort.Slice]
    uses, the result is the same. *)
Theorem FindClosest_correct rt target count :
  rt_inv rt → is_id target → 0 ≤ count →
  ∃ ns, FindClosest target count rt = Ok ns ∧
    length ns = Nat.min (Z.to_nat count) (Size rt) ∧
    StronglySorted (nearer target) ns ∧
    (∀ n, n ∈ ns → n ∈ GetAllNodes rt) ∧
    (∀ n m, n ∈ ns → m ∈ GetAllNodes rt → m ∉ ns → nearer target n m) ∧
    (∀ l, l ≡ₚ GetAllNodes rt → Sorted (not_after (closer target)) l →
       ns = take (Z.to_nat count) l).
Proof. apply FindClosest_spec. Qed.

(** The same statement on a table of two nodes. *)
Definition sample_table : RoutingTable :=
  (Insert 6 (replicate 20 x0f) [x05; x06; x07; x08] 51413
    (Insert 5 (replicate 20 xff) [x01; x02; x03; x04] 6881
      (NewRoutingTable (replicate 20 x00))).2).2.

Lemma sample_table_inv : rt_inv sample_table.
Proof.
  apply (rt_step_inv _ _ (proj1 (rt_step_inv _ _ (NewRoutingTable_inv (replicate 20 x00) eq_refl)
    (step_Insert 5 (replicate 20 xff) [x01; x02; x03; x04] 6881 _ eq_refl)))
    (step_Insert 6 (replicate 20 x0f) [x05; x06; x07; x08] 51413 _ eq_refl)).
Qed.

Lemma FindClosest_correct_witness :
  ∃ ns, FindClosest (replicate 20 xfe) 1 sample_table = Ok ns ∧
    length ns = Nat.min (Z.to_nat 1) (Size sample_table) ∧
    StronglySorted (nearer (replicate 20 xfe)) ns ∧
    (∀ n, n ∈ ns → n ∈ GetAllNodes sample_table) ∧
    (∀ n m, n ∈ ns → m ∈ GetAllNodes sample_table → m ∉ ns → nearer (replicate 20 xfe) n m) ∧
    (∀ l, l ≡ₚ GetAllNodes sample_table → Sorted (not_after (closer (replicate 20 xfe))) l →
       ns = take (Z.to_nat 1) l).
Proof.
  apply (FindClosest_correct sample_table (replicate 20 xfe) 1);
    [apply sample_table_inv|reflexivity|lia].
Defined.

Example FindClosest_ex :
  FindClosest (replicate 20 xfe) 1 sample_table =
    Ok [mkRoutingNode (replicate 20 xff) [x01; x02; x03; x04] 6881 5].
Proof. vm_compute. reflexivity. Qed.

(** the observers agree with the stored nodes: the bucket sizes add up to [Size],
    [GetStaleNodes] returns exactly the nodes last seen before the cutoff, and
    [RandomFromBucket] returns a node of the bucket asked for, if there is one. *)
Theorem routing_observers rt now maxAge :
  rt_inv rt →
  sum_list (BucketSizes rt) = Size rt ∧
  (∀ n, n ∈ GetStaleNodes now maxAge rt ↔
     n ∈ GetAllNodes rt ∧ rn_LastSeen n < now - maxAge) ∧
  (∀ i n, RandomFromBucket i rt = Some n →
     n ∈ GetAllNodes rt ∧ BucketIndex (localID rt) (rn_ID n) = i) ∧
  (∀ i, RandomFromBucket i rt = None ↔
     i < 0 ∨ 160 ≤ i ∨ ∀ n, n ∈ GetAllNodes rt → BucketIndex (localID rt) (rn_ID n) ≠ i).
Proof.
  intros Hrt.
  assert (∀ i, 0 ≤ i < 160 → bucket_inv (localID rt) (Z.to_nat i) (bucket_at rt i) ∧
    bucket_at rt i ∈ buckets rt) as HB.
  { intros i Hi. assert (buckets rt !! Z.to_nat i = Some (bucket_at rt i)) as Hl.
    { apply list_lookup_lookup_total_lt. rewrite (rt_length _ Hrt). unfold NumBuckets. lia. }
    split; [by apply (rt_buckets _ Hrt)|by eapply list_elem_of_lookup_2]. }
  assert (∀ i n, 0 ≤ i < 160 → n ∈ bucket_at rt i →
    n ∈ GetAllNodes rt ∧ BucketIndex (localID rt) (rn_ID n) = i) as Hin.
  { intros i n Hi Hn. destruct (HB i Hi) as [Hb Hbs].
    destruct (bucket_nodes _ _ _ Hb n Hn) as (_ & _ & E).
    split; [|lia]. apply elem_of_concat. eauto. }
  assert (∀ i, RandomFromBucket i rt = if decide (0 ≤ i < 160) then head (bucket_at rt i) else None) as HR.
  { intros i. unfold RandomFromBucket. change (Z.of_nat NumBuckets) with 160.
    destruct (Z.ltb_spec i 0), (Z.leb_spec 160 i); case_decide; try lia; done. }
  split_and!.
  - unfold BucketSizes, Size.
    assert (∀ (l : list Bucket) c,
      foldl (λ count b, (count + length b)%nat) c l = (c + sum_list (length <$> l))%nat) as ->; [|done].
    induction l as [|b l IH]; intros c; cbn; [lia|]. rewrite IH. lia.
  - intros n. unfold GetStaleNodes, GetAllNodes. rewrite list_elem_of_bind, elem_of_concat.
    setoid_rewrite list_elem_of_filter. naive_solver.
  - intros i n. rewrite HR. case_decide as Hi; [|done].
    intros H. apply Hin; [done|]. destruct (bucket_at rt i); [done|]. injection H as ->. left.
  - intros i. rewrite HR. case_decide as Hi; [|split; [lia|done]].
    destruct (bucket_at rt i) as [|n b] eqn:E; cbn.
    + split; [|done]. intros _. right. right. intros n Hn Hni.
      apply elem_of_all_nodes in Hn as [_ Hn]; [|done].
      rewrite Hni, E in Hn. by apply elem_of_nil in Hn.
    + split; [done|]. intros [?|[?|H]]; [lia..|]. exfalso.
      destruct (Hin i n Hi) as [H1 H2]; [rewrite E; left|]. by apply (H n).
Qed.

Lemma routing_observers_witness :
  sum_list (BucketSizes sample_table) = Size sample_table ∧
  (∀ n, n ∈ GetStaleNodes 10 3 sample_table ↔
     n ∈ GetAllNodes sample_table ∧ rn_LastSeen n < 10 - 3) ∧
  (∀ i n, RandomFromBucket i sample_table = Some n →
     n ∈ GetAllNodes sample_table ∧ BucketIndex (localID sample_table) (rn_ID n) = i) ∧
  (∀ i, RandomFromBucket i sample_table = None ↔
     i < 0 ∨ 160 ≤ i ∨ ∀ n, n ∈ GetAllNodes sample_table →
       BucketIndex (localID sample_table) (rn_ID n) ≠ i).
Proof. apply (routing_observers sample_table 10 3), sample_table_inv. Defined.

(** [RoutingNode.Addr] never writes the port number: for every UDP port the text it
    returns differs from the host joined with the port in decimal (it holds the
    character whose code point the port is). *)
Theorem Addr_not_decimal n :
  0 ≤ rn_Port n ≤ 65535 → Addr n ≠ JoinHostPort (IP_String (rn_IP n)) (fmt_d (rn_Port n)).
Proof.
  intros Hp HA.
  assert (string_of_rune (rn_Port n) = fmt_d (rn_Port n)) as E.
  { unfold Addr, JoinHostPort in HA. case_decide; by repeat apply app_inv_head in HA. }
  clear HA. set (p := rn_Port n) in *. clearbody p. revert E.
  unfold fmt_d. destruct (Z.ltb_spec p 0); [lia|].
  destruct (fmt_u_spec p ltac:(lia)) as [Hv Hd]. unfold string_of_rune.
  rewrite wrapS_id by lia.
  assert (∀ c s, fmt_u p = c :: s → is_digit c = true) as Hc.
  { intros c s E. rewrite E in Hd. by apply Forall_cons_1 in Hd as [?%Is_true_true _]. }
  assert (∀ z, 192 ≤ z < 256 → is_digit (byte_of z) = true → False) as Hz.
  { intros z Hz Hb. apply is_digit_spec in Hb. rewrite byte_val_of_small in Hb; lia. }
  set (q := if _ : bool then 65533 else p).
  assert (q = p ∨ q = 65533) as Hq by (subst q; case_match; auto).
  clearbody q.
  assert (q < 128 → q = p) as Hq' by lia.
  destruct (Z.ltb_spec q 128).
  - intros E. rewrite <- E in Hv. assert (q = p) as -> by auto.
    unfold dec_val in Hv. cbn [foldl] in Hv. rewrite byte_val_of_small in Hv; lia.
  - pose proof (Z.div_lt_upper_bound q 64 32). pose proof (Z.div_pos q 64).
    pose proof (Z.div_lt_upper_bound q 4096 16). pose proof (Z.div_pos q 4096).
    destruct (Z.ltb_spec q 2048); [|destruct (Z.ltb_spec q 65536); [|lia]];
      intros E; symmetry in E; apply Hc, Hz in E; lia.
Qed.

Lemma Addr_not_decimal_witness :
  Addr (mkRoutingNode (replicate 20 x00) [x7f; x00; x00; x01] 6881 0) ≠
  JoinHostPort (IP_String [x7f; x00; x00; x01]) (fmt_d 6881).
Proof.
  apply (Addr_not_decimal (mkRoutingNode (replicate 20 x00) [x7f; x00; x00; x01] 6881 0)).
  cbn. lia.
Defined.
