(* ===== verification/Krpc.v ===== *)
(** * KRPC messages: [internal/dht/krpc.go]

    The queries and responses of BEP 5 as bencoded dictionaries, the decoder of a
    received message and its accessors, and the compact node and peer formats. *)

From S2P Require Import Prelude GoStd Net Bencode BencodeSpec NodeID.

Definition MsgTypeQuery : bytes := bs "q".
Definition MsgTypeResponse : bytes := bs "r".
Definition MsgTypeError : bytes := bs "e".

Definition QueryPing : bytes := bs "ping".
Definition QueryFindNode : bytes := bs "find_node".
Definition QueryGetPeers : bytes := bs "get_peers".
Definition QueryAnnouncePeer : bytes := bs "announce_peer".

(** A nil byte slice is the empty one; a nil map or list is [None]. *)
Record Message := mkMessage {
  TransactionID : bytes;
  Type_ : bytes;
  Query : bytes;
  Args : option dict;
  Response : option dict;
  Error : option (list bval);
}.

Record CompactNodeInfo := mkCompactNodeInfo { cn_ID : NodeID; cn_IP : bytes; cn_Port : Z }.
Record CompactPeerInfo := mkCompactPeerInfo { cp_IP : bytes; cp_Port : Z }.

#[global] Instance CompactPeerInfo_eq_dec : EqDecision CompactPeerInfo.
Proof. solve_decision. Defined.

(** ** Compact formats *)

(** [binary.BigEndian.PutUint16(_, uint16(port))]. *)
Definition put_uint16 (port : Z) : bytes := be_bytes 2 (wrapU 16 port).

(** The 26 bytes of one node: the identifier, [copy] of the address's 4-byte form
    over zeros, the port. *)
Definition encode_compact_node (n : CompactNodeInfo) : bytes :=
  copy_at (replicate 20 x00) 0 (cn_ID n) ++ copy_at (replicate 4 x00) 0 (To4 (cn_IP n)) ++
  put_uint16 (cn_Port n).

Definition EncodeCompactNodes (nodes : list CompactNodeInfo) : bytes :=
  nodes ≫= encode_compact_node.

Fixpoint decode_nodes_loop (count : nat) (data : bytes) : list CompactNodeInfo :=
  match count with
  | O => []
  | S count =>
      mkCompactNodeInfo (take 20 data) (take 4 (drop 20 data)) (be_val (take 2 (drop 24 data)))
        :: decode_nodes_loop count (drop 26 data)
  end.

Definition DecodeCompactNodes (data : bytes) : list CompactNodeInfo :=
  if negb (Z.of_nat (length data) mod 26 =? 0) then []
  else decode_nodes_loop (Z.to_nat (Z.of_nat (length data) / 26)) data.

Definition EncodeCompactPeer (p : CompactPeerInfo) : bytes :=
  copy_at (replicate 4 x00) 0 (To4 (cp_IP p)) ++ put_uint16 (cp_Port p).

Definition DecodeCompactPeer (data : bytes) : option CompactPeerInfo :=
  if decide (length data = 6%nat)
  then Some (mkCompactPeerInfo (take 4 data) (be_val (drop 4 data)))
  else None.

(** ** Encoders *)

(** [rand.Read]'s bytes. *)
Definition GenerateTransactionID (random : bytes) : bytes := copy_at (replicate 2 x00) 0 (take 2 random).

Definition EncodePing (tid : bytes) (nodeID : NodeID) : outcome bencode_error bytes :=
  Encode (VDict [(bs "t", VBytes tid); (bs "y", VString MsgTypeQuery);
    (bs "q", VString QueryPing); (bs "a", VDict [(bs "id", VBytes nodeID)])]).

Definition EncodePingResponse (tid : bytes) (nodeID : NodeID) : outcome bencode_error bytes :=
  Encode (VDict [(bs "t", VBytes tid); (bs "y", VString MsgTypeResponse);
    (bs "r", VDict [(bs "id", VBytes nodeID)])]).

Definition EncodeFindNode (tid : bytes) (nodeID target : NodeID) : outcome bencode_error bytes :=
  Encode (VDict [(bs "t", VBytes tid); (bs "y", VString MsgTypeQuery);
    (bs "q", VString QueryFindNode);
    (bs "a", VDict [(bs "id", VBytes nodeID); (bs "target", VBytes target)])]).

Definition EncodeFindNodeResponse (tid : bytes) (nodeID : NodeID) (nodes : list CompactNodeInfo)
  : outcome bencode_error bytes :=
  Encode (VDict [(bs "t", VBytes tid); (bs "y", VString MsgTypeResponse);
    (bs "r", VDict [(bs "id", VBytes nodeID); (bs "nodes", VBytes (EncodeCompactNodes nodes))])]).

Definition EncodeGetPeers (tid : bytes) (nodeID : NodeID) (infoHash : bytes)
  : outcome bencode_error bytes :=
  Encode (VDict [(bs "t", VBytes tid); (bs "y", VString MsgTypeQuery);
    (bs "q", VString QueryGetPeers);
    (bs "a", VDict [(bs "id", VBytes nodeID); (bs "info_hash", VBytes infoHash)])]).

Definition EncodeGetPeersResponseNodes (tid : bytes) (nodeID : NodeID) (token : bytes)
  (nodes : list CompactNodeInfo) : outcome bencode_error bytes :=
  Encode (VDict [(bs "t", VBytes tid); (bs "y", VString MsgTypeResponse);
    (bs "r", VDict [(bs "id", VBytes nodeID); (bs "token", VBytes token);
                    (bs "nodes", VBytes (EncodeCompactNodes nodes))])]).

Definition EncodeGetPeersResponsePeers (tid : bytes) (nodeID : NodeID) (token : bytes)
  (peers : list CompactPeerInfo) : outcome bencode_error bytes :=
  let peerList := (λ p, VBytes (EncodeCompactPeer p)) <$> peers in
  Encode (VDict [(bs "t", VBytes tid); (bs "y", VString MsgTypeResponse);
    (bs "r", VDict [(bs "id", VBytes nodeID); (bs "token", VBytes token);
                    (bs "values", VList peerList)])]).

Definition EncodeAnnouncePeer (tid : bytes) (nodeID : NodeID) (infoHash : bytes) (port : Z)
  (token : bytes) (impliedPort : bool) : outcome bencode_error bytes :=
  let implied := if impliedPort then 1 else 0 in
  Encode (VDict [(bs "t", VBytes tid); (bs "y", VString MsgTypeQuery);
    (bs "q", VString QueryAnnouncePeer);
    (bs "a", VDict [(bs "id", VBytes nodeID); (bs "info_hash", VBytes infoHash);
                    (bs "port", VInt port); (bs "token", VBytes token);
                    (bs "implied_port", VInt implied)])]).

Definition EncodeAnnouncePeerResponse (tid : bytes) (nodeID : NodeID) : outcome bencode_error bytes :=
  Encode (VDict [(bs "t", VBytes tid); (bs "y", VString MsgTypeResponse);
    (bs "r", VDict [(bs "id", VBytes nodeID)])]).

Definition EncodeError (tid : bytes) (code : Z) (message : bytes) : outcome bencode_error bytes :=
  Encode (VDict [(bs "t", VBytes tid); (bs "y", VString MsgTypeError);
    (bs "e", VList [VInt64 code; VString message])]).

(** ** Decoding a message *)

(** The fields read from the dictionary. *)
Definition message_of (d : dict) : Message :=
  let tid := default [] (GetBytes d (bs "t")) in
  let type := default [] (GetString d (bs "y")) in
  if decide (type = MsgTypeQuery) then
    mkMessage tid type (default [] (GetString d (bs "q"))) (GetDict d (bs "a")) None None
  else if decide (type = MsgTypeResponse) then
    mkMessage tid type [] None (GetDict d (bs "r")) None
  else if decide (type = MsgTypeError) then
    mkMessage tid type [] None None (GetList d (bs "e"))
  else mkMessage tid type [] None None None.

Definition DecodeMessage (data : bytes) : outcome bencode_error Message :=
  d ← DecodeDict data;
  Ok (message_of d).

(** [FromBytes] of the value of a key, [None] for every way it can fail. *)
Definition get_id (d : option dict) (key : bytes) : option NodeID :=
  match d with
  | None => None
  | Some d =>
      match GetBytes d key with
      | Some b => match FromBytes b with Ok id => Some id | _ => None end
      | None => None
      end
  end.

Definition GetQueryNodeID (m : Message) : option NodeID := get_id (Args m) (bs "id").
Definition GetTarget (m : Message) : option NodeID := get_id (Args m) (bs "target").

Definition GetInfoHash (m : Message) : option bytes :=
  match Args m with
  | None => None
  | Some a =>
      match GetBytes a (bs "info_hash") with
      | Some h => if decide (length h = 20%nat) then Some (copy_at (replicate 20 x00) 0 h) else None
      | None => None
      end
  end.

Definition GetPort (m : Message) : option Z :=
  match Args m with
  | None => None
  | Some a =>
      match GetInt a (bs "implied_port") with
      | Some 1 => None
      | _ => GetInt a (bs "port")
      end
  end.

Definition GetToken (m : Message) : option bytes :=
  match Args m with None => None | Some a => GetBytes a (bs "token") end.

Definition GetResponseNodes (m : Message) : list CompactNodeInfo :=
  match Response m with
  | None => []
  | Some r =>
      match GetBytes r (bs "nodes") with
      | Some nodesBytes => DecodeCompactNodes nodesBytes
      | None => []
      end
  end.

Definition GetResponsePeers (m : Message) : list CompactPeerInfo :=
  match Response m with
  | None => []
  | Some r =>
      match GetList r (bs "values") with
      | Some values =>
          omap (λ v, match v with VBytes b => DecodeCompactPeer b | _ => None end) values
      | None => []
      end
  end.

Definition GetResponseToken (m : Message) : option bytes :=
  match Response m with None => None | Some r => GetBytes r (bs "token") end.

(** ** Compact formats: lengths and round trips *)

(** The 4-byte addresses and 16-bit ports for which the compact formats are exact. *)
Definition wf_node (n : CompactNodeInfo) : Prop :=
  is_id (cn_ID n) ∧ length (cn_IP n) = 4%nat ∧ 0 ≤ cn_Port n < 2 ^ 16.
Definition wf_peer (p : CompactPeerInfo) : Prop :=
  length (cp_IP p) = 4%nat ∧ 0 ≤ cp_Port p < 2 ^ 16.

Lemma length_put_uint16 port : length (put_uint16 port) = 2%nat.
Proof. apply length_be_bytes. Qed.

Lemma put_uint16_val port : 0 ≤ port < 2 ^ 16 → be_val (put_uint16 port) = port.
Proof.
  intros H. unfold put_uint16. rewrite be_val_bytes, wrapU_id by lia.
  apply Z.mod_small. change (256 ^ Z.of_nat 2) with (2 ^ 16). lia.
Qed.

Lemma put_uint16_of_val s : length s = 2%nat → put_uint16 (be_val s) = s.
Proof.
  intros H. unfold put_uint16. pose proof (be_val_range s) as Hr. rewrite H in Hr.
  change (256 ^ Z.of_nat 2) with (2 ^ 16) in Hr. rewrite wrapU_id by lia.
  rewrite <- H at 1. apply be_bytes_val.
Qed.

Lemma copy_at_full (n : nat) s : length s = n → copy_at (replicate n x00) 0 s = s.
Proof.
  intros H. pose proof (copy_at_exact [] (replicate n x00) [] s) as E.
  cbn [app length] in E. rewrite !app_nil_r in E. apply E. by rewrite length_replicate.
Qed.

Lemma To4_4 ip : length ip = 4%nat → To4 ip = ip.
Proof. intros H. unfold To4. by rewrite decide_True. Qed.

Lemma length_encode_compact_node n : length (encode_compact_node n) = 26%nat.
Proof.
  unfold encode_compact_node.
  by rewrite !length_app, !length_copy_at, !length_replicate, length_put_uint16 by lia.
Qed.

Lemma length_EncodeCompactNodes nodes :
  length (EncodeCompactNodes nodes) = (26 * length nodes)%nat.
Proof.
  induction nodes as [|n nodes IH]; [done|]. unfold EncodeCompactNodes in *. cbn [mbind list_bind].
  rewrite length_app, length_encode_compact_node, IH. cbn. lia.
Qed.

Lemma encode_compact_node_wf n :
  wf_node n → encode_compact_node n = cn_ID n ++ cn_IP n ++ put_uint16 (cn_Port n).
Proof.
  intros (Hid & Hip & _). unfold encode_compact_node. rewrite To4_4 by done.
  rewrite !copy_at_full by done. done.
Qed.

Lemma take_drop_3 (a b c rest : bytes) :
  length a = 20%nat → length b = 4%nat → length c = 2%nat →
  let s := a ++ b ++ c ++ rest in
  take 20 s = a ∧ take 4 (drop 20 s) = b ∧ take 2 (drop 24 s) = c ∧ drop 26 s = rest.
Proof.
  intros Ha Hb Hc s. subst s. split_and!.
  - by apply take_app_length'.
  - rewrite drop_app_length' by done. by apply take_app_length'.
  - rewrite app_assoc, drop_app_length' by (rewrite length_app; lia). by apply take_app_length'.
  - rewrite !app_assoc, drop_app_length' by (rewrite !length_app; lia). done.
Qed.

Lemma decode_nodes_loop_encode nodes :
  Forall wf_node nodes → decode_nodes_loop (length nodes) (EncodeCompactNodes nodes) = nodes.
Proof.
  induction 1 as [|n nodes Hn _ IH]; [done|].
  unfold EncodeCompactNodes in *. cbn [mbind list_bind length decode_nodes_loop].
  rewrite encode_compact_node_wf by done. destruct Hn as (Hid & Hip & Hport).
  rewrite <- !app_assoc.
  destruct (take_drop_3 (cn_ID n) (cn_IP n) (put_uint16 (cn_Port n))
    (nodes ≫= encode_compact_node)) as (E1 & E2 & E3 & E4); [done..|].
  cbn zeta in *. rewrite E1, E2, E3, E4, put_uint16_val by done.
  destruct n. cbn. f_equal. done.
Qed.

Lemma split_26 (data : bytes) :
  (26 ≤ length data)%nat →
  data = take 20 data ++ take 4 (drop 20 data) ++ take 2 (drop 24 data) ++ drop 26 data.
Proof.
  intros H. change 26%nat with (24 + 2)%nat. change 24%nat with (20 + 4)%nat.
  rewrite <- !drop_drop.
  by rewrite !take_drop.
Qed.

Lemma encode_decode_nodes_loop count data :
  length data = (26 * count)%nat →
  EncodeCompactNodes (decode_nodes_loop count data) = data ∧
  Forall wf_node (decode_nodes_loop count data) ∧
  length (decode_nodes_loop count data) = count.
Proof.
  revert data. induction count as [|count IH]; intros data H.
  { destruct data; [|done]. repeat split. constructor. }
  cbn [decode_nodes_loop length].
  destruct (IH (drop 26 data)) as (IH1 & IH2 & IH3); [rewrite length_drop; lia|].
  set (n := mkCompactNodeInfo _ _ _).
  assert (wf_node n) as Hn.
  { unfold wf_node, is_id, IDLength; cbn. rewrite !length_take, !length_drop.
    pose proof (be_val_range (take 2 (drop 24 data))) as Hr.
    rewrite length_take, length_drop in Hr.
    replace (2 `min` (length data - 24))%nat with 2%nat in Hr by lia.
    change (256 ^ Z.of_nat 2) with (2 ^ 16) in Hr. lia. }
  split_and!; [|by constructor|lia].
  unfold EncodeCompactNodes in *. cbn [mbind list_bind]. rewrite IH1.
  rewrite encode_compact_node_wf by done. subst n. cbn [cn_ID cn_IP cn_Port].
  rewrite put_uint16_of_val by (rewrite length_take, length_drop; lia).
  rewrite <- !app_assoc. symmetry. apply split_26. lia.
Qed.

Lemma DecodeCompactNodes_mul data count :
  length data = (26 * count)%nat → DecodeCompactNodes data = decode_nodes_loop count data.
Proof.
  intros H. unfold DecodeCompactNodes. rewrite H, Nat2Z.inj_mul.
  change (Z.of_nat 26) with 26.
  rewrite Z.mul_comm, Z.mod_mul, Z.div_mul, Nat2Z.id by lia. done.
Qed.

Lemma EncodeCompactPeer_wf p :
  wf_peer p → EncodeCompactPeer p = cp_IP p ++ put_uint16 (cp_Port p).
Proof.
  intros [Hip _]. unfold EncodeCompactPeer. by rewrite To4_4, copy_at_full by done.
Qed.

Lemma DecodeCompactPeer_Encode p : wf_peer p → DecodeCompactPeer (EncodeCompactPeer p) = Some p.
Proof.
  intros Hp. rewrite EncodeCompactPeer_wf by done. destruct Hp as [Hip Hport].
  unfold DecodeCompactPeer. rewrite decide_True by (rewrite length_app, length_put_uint16; lia).
  rewrite take_app_length', drop_app_length' by done.
  rewrite put_uint16_val by done. by destruct p.
Qed.

(** C21: compact formats. Nodes and peers with a 4-byte address and a 16-bit port are
    read back exactly, in order; conversely every byte string whose length is a multiple
    of 26 (every 6-byte string, for a peer) decodes to such nodes, one per 26 bytes, and
    encodes back to itself, and any other length is refused. *)
Theorem compact_formats_roundtrip :
  (∀ nodes, Forall wf_node nodes → DecodeCompactNodes (EncodeCompactNodes nodes) = nodes) ∧
  (∀ data count, length data = (26 * count)%nat →
     EncodeCompactNodes (DecodeCompactNodes data) = data ∧
     Forall wf_node (DecodeCompactNodes data) ∧ length (DecodeCompactNodes data) = count) ∧
  (∀ data, (¬ ∃ count, length data = (26 * count)%nat) → DecodeCompactNodes data = []) ∧
  (∀ p, wf_peer p → DecodeCompactPeer (EncodeCompactPeer p) = Some p) ∧
  (∀ data p, DecodeCompactPeer data = Some p ↔ wf_peer p ∧ data = EncodeCompactPeer p).
Proof.
  split_and!.
  - intros nodes H. rewrite (DecodeCompactNodes_mul _ (length nodes)).
    + by apply decode_nodes_loop_encode.
    + apply length_EncodeCompactNodes.
  - intros data count H. rewrite (DecodeCompactNodes_mul _ count) by done.
    by apply encode_decode_nodes_loop.
  - intros data H. unfold DecodeCompactNodes.
    destruct (Z.eqb_spec (Z.of_nat (length data) mod 26) 0) as [E|]; [|done].
    exfalso. apply H. exists (Z.to_nat (Z.of_nat (length data) / 26)).
    pose proof (Z.div_mod (Z.of_nat (length data)) 26 ltac:(lia)).
    pose proof (Z.div_pos (Z.of_nat (length data)) 26 ltac:(lia) ltac:(lia)). lia.
  - apply DecodeCompactPeer_Encode.
  - intros data p. split; [|intros [Hp ->]; by apply DecodeCompactPeer_Encode].
    unfold DecodeCompactPeer. case_decide as H; [|done]. intros [= <-].
    assert (length (drop 4 data) = 2%nat) as H2 by (rewrite length_drop; lia).
    assert (wf_peer (mkCompactPeerInfo (take 4 data) (be_val (drop 4 data)))) as Hp.
    { split; cbn; [rewrite length_take; lia|]. pose proof (be_val_range (drop 4 data)) as Hr.
      by rewrite H2 in Hr. }
    split; [done|]. rewrite EncodeCompactPeer_wf by done. cbn [cp_IP cp_Port].
    by rewrite put_uint16_of_val, take_drop.
Qed.

(** ** Messages through the wire *)

(** What an encoder produced, decoded at the other end, satisfies [P]. *)
Definition delivers (o : outcome bencode_error bytes) (P : Message → Prop) : Prop :=
  ∃ p m, o = Ok p ∧ DecodeMessage p = Ok m ∧ P m.

Definition norm_message (m : Message) : Message :=
  mkMessage (TransactionID m) (Type_ m) (Query m) (norm_dict <$> Args m)
    (norm_dict <$> Response m) (List.map norm <$> Error m).

Lemma message_of_norm d : NoDup d.*1 → message_of (norm_dict d) = norm_message (message_of d).
Proof.
  intros Hd. unfold message_of.
  rewrite GetBytes_norm, !GetString_norm, !GetDict_norm, GetList_norm by done.
  repeat case_decide; done.
Qed.

Lemma delivers_dict d (P : Message → Prop) :
  encodable (VDict d) → P (norm_message (message_of d)) → delivers (Encode (VDict d)) P.
Proof.
  intros Hd HP. destruct (Encode_DecodeDict d Hd) as (p & Hp & HD).
  exists p, (norm_message (message_of d)). split_and!; [done| |done].
  unfold DecodeMessage. rewrite HD. cbn [mbind outcome_bind].
  by rewrite message_of_norm by by apply encodable_NoDup.
Qed.

Lemma get_id_norm d k : NoDup d.*1 → get_id (Some (norm_dict d)) k = get_id (Some d) k.
Proof. intros Hd. unfold get_id. by rewrite GetBytes_norm. Qed.

Lemma get_id_Some d k id :
  GetBytes d k = Some id → is_id id → get_id (Some d) k = Some id.
Proof. intros H Hid. unfold get_id. by rewrite H, FromBytes_ok. Qed.

Lemma info_hash_Some d h :
  GetBytes d (bs "info_hash") = Some h → is_id h →
  GetInfoHash (mkMessage [] [] [] (Some d) None None) = Some h.
Proof.
  intros H Hh. unfold GetInfoHash; cbn [Args]. rewrite H, decide_True by done.
  by rewrite copy_at_full.
Qed.

(** Sizes the decoder can allocate. *)
Definition sized (s : bytes) : Prop := Z.of_nat (length s) ≤ maxAlloc.

Lemma sized_small s : (length s ≤ 1000)%nat → sized s.
Proof. unfold sized, maxAlloc. lia. Qed.

Lemma is_id_sized id : is_id id → sized id.
Proof. intros H. apply sized_small. unfold is_id, IDLength in H. lia. Qed.

Definition is_query (m : Message) (tid method : bytes) (id : NodeID) : Prop :=
  TransactionID m = tid ∧ Type_ m = MsgTypeQuery ∧ Query m = method ∧ GetQueryNodeID m = Some id.

Definition is_response (m : Message) (tid : bytes) (id : NodeID) : Prop :=
  TransactionID m = tid ∧ Type_ m = MsgTypeResponse ∧ get_id (Response m) (bs "id") = Some id.

Lemma encodable_pair_list d :
  NoDup d.*1 → Forall (λ e, sized e.1 ∧ encodable e.2) d → encodable (VDict d).
Proof.
  intros Hd H. constructor; [done|..]; (eapply Forall_impl; [apply H|]); by intros e [].
Qed.

(** [encode_dict] proves that a dictionary literal with literal keys is encodable. *)
Ltac encode_dict :=
  apply encodable_pair_list;
  [ apply (bool_decide_unpack _); vm_compute; exact I
  | repeat (apply Forall_cons; split); [..|apply Forall_nil; exact I];
    (split; cbn [fst snd];
     [ apply sized_small, (bool_decide_unpack _); vm_compute; exact I
     | try assumption; constructor;
       first [ assumption | by apply is_id_sized
             | apply sized_small, (bool_decide_unpack _); vm_compute; exact I | idtac ] ]) ].

Lemma delivers_query tid method a (P : Message → Prop) :
  sized tid → sized method → encodable (VDict a) →
  P (mkMessage tid MsgTypeQuery method (Some (norm_dict a)) None None) →
  delivers (Encode (VDict [(bs "t", VBytes tid); (bs "y", VString MsgTypeQuery);
    (bs "q", VString method); (bs "a", VDict a)])) P.
Proof. intros Ht Hm Ha HP. apply delivers_dict; [by encode_dict|exact HP]. Qed.

Lemma delivers_response tid r (P : Message → Prop) :
  sized tid → encodable (VDict r) →
  P (mkMessage tid MsgTypeResponse [] None (Some (norm_dict r)) None) →
  delivers (Encode (VDict [(bs "t", VBytes tid); (bs "y", VString MsgTypeResponse);
    (bs "r", VDict r)])) P.
Proof. intros Ht Hr HP. apply delivers_dict; [by encode_dict|exact HP]. Qed.

(** The accessors of an argument dictionary that went through the wire. *)
Ltac read_back :=
  repeat match goal with
    | |- _ ∧ _ => split
    | |- is_query _ _ _ _ => unfold is_query
    | |- is_response _ _ _ => unfold is_response
    end;
  try reflexivity;
  unfold GetQueryNodeID, GetTarget, GetInfoHash, GetToken, GetPort, GetResponseNodes,
    GetResponsePeers, GetResponseToken;
  cbn [Args Response];
  rewrite ?get_id_norm, ?GetBytes_norm, ?GetList_norm
    by (apply (bool_decide_unpack _); vm_compute; exact I);
  try reflexivity.

Section deliver_queries.
Context (tid : bytes) (id : NodeID) (Ht : sized tid) (Hid : is_id id).

Lemma deliver_ping : delivers (EncodePing tid id) (λ m, is_query m tid QueryPing id).
Proof using All.
  pose proof (is_id_sized _ Hid).
  apply delivers_query; [done|by apply sized_small, (bool_decide_unpack _)|encode_dict|].
  read_back. by apply get_id_Some.
Qed.

Lemma deliver_find_node target :
  is_id target → delivers (EncodeFindNode tid id target)
    (λ m, is_query m tid QueryFindNode id ∧ GetTarget m = Some target).
Proof using All.
  intros Htg. pose proof (is_id_sized _ Hid).
  apply delivers_query; [done|by apply sized_small, (bool_decide_unpack _)|encode_dict|].
  read_back; by apply get_id_Some.
Qed.

Lemma deliver_get_peers infoHash :
  is_id infoHash → delivers (EncodeGetPeers tid id infoHash)
    (λ m, is_query m tid QueryGetPeers id ∧ GetInfoHash m = Some infoHash).
Proof using All.
  intros Hh. pose proof (is_id_sized _ Hid).
  apply delivers_query; [done|by apply sized_small, (bool_decide_unpack _)|encode_dict|].
  read_back; [by apply get_id_Some|by apply info_hash_Some].
Qed.

Lemma deliver_announce_peer infoHash port token implied :
  is_id infoHash → is_int64 port → sized token →
  delivers (EncodeAnnouncePeer tid id infoHash port token implied)
    (λ m, is_query m tid QueryAnnouncePeer id ∧ GetInfoHash m = Some infoHash ∧
          GetToken m = Some token ∧ GetPort m = if implied then None else Some port).
Proof using All.
  intros Hh Hport Htok. pose proof (is_id_sized _ Hid).
  apply delivers_query; [done|by apply sized_small, (bool_decide_unpack _)|encode_dict|].
  { destruct implied; apply (bool_decide_unpack _); vm_compute; exact I. }
  read_back; [by apply get_id_Some|by apply info_hash_Some|].
  destruct implied;
    (erewrite GetInt_norm; [..|apply (bool_decide_unpack _); vm_compute; exact I|reflexivity]);
    [done|].
  by erewrite GetInt_norm; [..|apply (bool_decide_unpack _); vm_compute; exact I|reflexivity].
Qed.
End deliver_queries.

(** C19: queries. What this node sends as a ping, find_node, get_peers or announce_peer
    query is read by a node of the same program with the same transaction identifier,
    method, querying node and arguments; an announced port is read back for every value
    an int can have, unless implied_port is set. *)
Theorem queries_roundtrip tid id :
  sized tid → is_id id →
  delivers (EncodePing tid id) (λ m, is_query m tid QueryPing id) ∧
  (∀ target, is_id target →
     delivers (EncodeFindNode tid id target)
       (λ m, is_query m tid QueryFindNode id ∧ GetTarget m = Some target)) ∧
  (∀ infoHash, is_id infoHash →
     delivers (EncodeGetPeers tid id infoHash)
       (λ m, is_query m tid QueryGetPeers id ∧ GetInfoHash m = Some infoHash)) ∧
  (∀ infoHash port token implied, is_id infoHash → is_int64 port → sized token →
     delivers (EncodeAnnouncePeer tid id infoHash port token implied)
       (λ m, is_query m tid QueryAnnouncePeer id ∧ GetInfoHash m = Some infoHash ∧
             GetToken m = Some token ∧ GetPort m = if implied then None else Some port)).
Proof.
  intros Ht Hid. split_and!; [by apply deliver_ping|..]; intros;
    [by apply deliver_find_node|by apply deliver_get_peers|by apply deliver_announce_peer].
Qed.

Definition sample_id : NodeID := replicate 20 x2a.

Lemma queries_roundtrip_witness :
  delivers (EncodePing (bs "aa") sample_id) (λ m, is_query m (bs "aa") QueryPing sample_id) ∧
  (∀ target, is_id target →
     delivers (EncodeFindNode (bs "aa") sample_id target)
       (λ m, is_query m (bs "aa") QueryFindNode sample_id ∧ GetTarget m = Some target)) ∧
  (∀ infoHash, is_id infoHash →
     delivers (EncodeGetPeers (bs "aa") sample_id infoHash)
       (λ m, is_query m (bs "aa") QueryGetPeers sample_id ∧ GetInfoHash m = Some infoHash)) ∧
  (∀ infoHash port token implied, is_id infoHash → is_int64 port → sized token →
     delivers (EncodeAnnouncePeer (bs "aa") sample_id infoHash port token implied)
       (λ m, is_query m (bs "aa") QueryAnnouncePeer sample_id ∧ GetInfoHash m = Some infoHash ∧
             GetToken m = Some token ∧ GetPort m = if implied then None else Some port)).
Proof.
  apply queries_roundtrip; [|reflexivity].
  apply sized_small, (bool_decide_unpack _). vm_compute. exact I.
Defined.

Lemma GetResponseNodes_Some r nodes :
  GetBytes r (bs "nodes") = Some (EncodeCompactNodes nodes) → Forall wf_node nodes →
  match GetBytes r (bs "nodes") with Some s => DecodeCompactNodes s | None => [] end = nodes.
Proof.
  intros -> H. rewrite (DecodeCompactNodes_mul _ (length nodes)).
  - by apply decode_nodes_loop_encode.
  - apply length_EncodeCompactNodes.
Qed.

Lemma decode_peer_values peers :
  Forall wf_peer peers →
  omap (λ v, match v with VBytes b => DecodeCompactPeer b | _ => None end)
    (List.map norm ((λ p, VBytes (EncodeCompactPeer p)) <$> peers)) = peers.
Proof.
  induction 1 as [|p peers Hp _ IH]; [done|].
  change (omap _ _) with (match DecodeCompactPeer (EncodeCompactPeer p) with
    | Some q => q :: omap (λ v, match v with VBytes b => DecodeCompactPeer b | _ => None end)
        (List.map norm ((λ p, VBytes (EncodeCompactPeer p)) <$> peers))
    | None => omap (λ v, match v with VBytes b => DecodeCompactPeer b | _ => None end)
        (List.map norm ((λ p, VBytes (EncodeCompactPeer p)) <$> peers)) end).
  by rewrite DecodeCompactPeer_Encode, IH.
Qed.

Lemma encodable_peer_values peers :
  Forall wf_peer peers → Forall encodable ((λ p, VBytes (EncodeCompactPeer p)) <$> peers).
Proof.
  intros H. apply Forall_fmap. eapply Forall_impl; [done|]. intros p Hp. constructor.
  rewrite EncodeCompactPeer_wf by done. destruct Hp as [Hp _].
  rewrite length_app, Hp, length_put_uint16. done.
Qed.

(** Node lists the decoder can read back. *)
Definition wf_nodes (nodes : list CompactNodeInfo) : Prop :=
  Forall wf_node nodes ∧ 26 * Z.of_nat (length nodes) ≤ maxAlloc.

Lemma wf_nodes_sized nodes : wf_nodes nodes → sized (EncodeCompactNodes nodes).
Proof. intros [_ H]. unfold sized. rewrite length_EncodeCompactNodes. lia. Qed.

Section deliver_responses.
Context (tid : bytes) (id : NodeID) (Ht : sized tid) (Hid : is_id id).

Lemma deliver_ping_response : delivers (EncodePingResponse tid id)
  (λ m, is_response m tid id ∧ GetResponseNodes m = [] ∧ GetResponsePeers m = []).
Proof using All.
  pose proof (is_id_sized _ Hid). apply delivers_response; [done|encode_dict|].
  read_back. by apply get_id_Some.
Qed.

Lemma deliver_announce_response :
  delivers (EncodeAnnouncePeerResponse tid id) (λ m, is_response m tid id).
Proof using All.
  pose proof (is_id_sized _ Hid). apply delivers_response; [done|encode_dict|].
  read_back. by apply get_id_Some.
Qed.

Lemma deliver_find_node_response nodes :
  wf_nodes nodes → delivers (EncodeFindNodeResponse tid id nodes)
    (λ m, is_response m tid id ∧ GetResponseNodes m = nodes ∧ GetResponsePeers m = []).
Proof using All.
  intros Hnodes. pose proof (wf_nodes_sized _ Hnodes). destruct Hnodes as [Hwf _].
  pose proof (is_id_sized _ Hid). apply delivers_response; [done|encode_dict|].
  read_back; [by apply get_id_Some|by apply GetResponseNodes_Some].
Qed.

Lemma deliver_get_peers_nodes token nodes :
  sized token → wf_nodes nodes → delivers (EncodeGetPeersResponseNodes tid id token nodes)
    (λ m, is_response m tid id ∧ GetResponseToken m = Some token ∧
          GetResponseNodes m = nodes ∧ GetResponsePeers m = []).
Proof using All.
  intros Htok Hnodes. pose proof (wf_nodes_sized _ Hnodes). destruct Hnodes as [Hwf _].
  pose proof (is_id_sized _ Hid). apply delivers_response; [done|encode_dict|].
  read_back; [by apply get_id_Some|by apply GetResponseNodes_Some].
Qed.

Lemma deliver_get_peers_peers token peers :
  sized token → Forall wf_peer peers → delivers (EncodeGetPeersResponsePeers tid id token peers)
    (λ m, is_response m tid id ∧ GetResponseToken m = Some token ∧
          GetResponseNodes m = [] ∧ GetResponsePeers m = peers).
Proof using All.
  intros Htok Hpeers. pose proof (encodable_peer_values _ Hpeers).
  pose proof (is_id_sized _ Hid). apply delivers_response; [done|encode_dict|].
  read_back; [by apply get_id_Some|by apply decode_peer_values].
Qed.
End deliver_responses.

Lemma deliver_error tid code message :
  sized tid → is_int64 code → sized message → delivers (EncodeError tid code message)
    (λ m, TransactionID m = tid ∧ Type_ m = MsgTypeError ∧
          Error m = Some [VInt64 code; VBytes message]).
Proof.
  intros Ht [Hc1 Hc2] Hmsg. apply delivers_dict; [|split_and!; reflexivity].
  encode_dict. by repeat constructor.
Qed.

(** C20: responses and errors. What this node sends in answer to a query is read with the
    same transaction identifier, responding node, token, nodes and peers, in order; a
    response that carries no nodes (no peers) is read as one; an error keeps its code and
    its text. *)
Theorem responses_roundtrip tid id token nodes peers code message :
  sized tid → is_id id → sized token → wf_nodes nodes → Forall wf_peer peers →
  is_int64 code → sized message →
  delivers (EncodePingResponse tid id)
    (λ m, is_response m tid id ∧ GetResponseNodes m = [] ∧ GetResponsePeers m = []) ∧
  delivers (EncodeAnnouncePeerResponse tid id) (λ m, is_response m tid id) ∧
  delivers (EncodeFindNodeResponse tid id nodes)
    (λ m, is_response m tid id ∧ GetResponseNodes m = nodes ∧ GetResponsePeers m = []) ∧
  delivers (EncodeGetPeersResponseNodes tid id token nodes)
    (λ m, is_response m tid id ∧ GetResponseToken m = Some token ∧
          GetResponseNodes m = nodes ∧ GetResponsePeers m = []) ∧
  delivers (EncodeGetPeersResponsePeers tid id token peers)
    (λ m, is_response m tid id ∧ GetResponseToken m = Some token ∧
          GetResponseNodes m = [] ∧ GetResponsePeers m = peers) ∧
  delivers (EncodeError tid code message)
    (λ m, TransactionID m = tid ∧ Type_ m = MsgTypeError ∧
          Error m = Some [VInt64 code; VBytes message]).
Proof.
  intros. split_and!; [by apply deliver_ping_response|by apply deliver_announce_response
    |by apply deliver_find_node_response|by apply deliver_get_peers_nodes
    |by apply deliver_get_peers_peers|by apply deliver_error].
Qed.

Definition sample_node : CompactNodeInfo := mkCompactNodeInfo sample_id [x01; x02; x03; x04] 6881.
Definition sample_peer : CompactPeerInfo := mkCompactPeerInfo [x7f; x00; x00; x01] 51413.

Lemma responses_roundtrip_witness :
  delivers (EncodeGetPeersResponsePeers (bs "aa") sample_id (bs "tok") [sample_peer; sample_peer])
    (λ m, is_response m (bs "aa") sample_id ∧ GetResponseToken m = Some (bs "tok") ∧
          GetResponseNodes m = [] ∧ GetResponsePeers m = [sample_peer; sample_peer]).
Proof.
  eapply (responses_roundtrip (bs "aa") sample_id (bs "tok") [sample_node] [sample_peer; sample_peer]
    201 (bs "Generic Error")).
  all: first [ reflexivity
             | apply sized_small, (bool_decide_unpack _); vm_compute; exact I
             | repeat split; vm_compute; (reflexivity || discriminate)
             | idtac ].
  - split; [constructor; [|constructor]|vm_compute; discriminate].
    repeat split; vm_compute; (reflexivity || discriminate).
  - repeat constructor; vm_compute; (reflexivity || discriminate).
Defined.

(** ** What the decoder guarantees of a message from the network *)

Lemma get_id_is_id d k id : get_id d k = Some id → is_id id.
Proof.
  unfold get_id. destruct d as [d|]; [|done]. destruct (GetBytes d k) as [b|]; [|done].
  destruct (FromBytes b) eqn:E; [|done..]. intros [= <-]. by apply FromBytes_inv in E as [? ->].
Qed.

Lemma DecodeCompactNodes_wf data : Forall wf_node (DecodeCompactNodes data).
Proof.
  unfold DecodeCompactNodes.
  destruct (Z.eqb_spec (Z.of_nat (length data) mod 26) 0) as [E|]; [|constructor].
  cbn [negb]. apply encode_decode_nodes_loop.
  pose proof (Z.div_mod (Z.of_nat (length data)) 26 ltac:(lia)).
  pose proof (Z.div_pos (Z.of_nat (length data)) 26 ltac:(lia) ltac:(lia)). lia.
Qed.

Lemma DecodeCompactPeer_is_wf data p : DecodeCompactPeer data = Some p → wf_peer p.
Proof.
  unfold DecodeCompactPeer. case_decide as H; [|done]. intros [= <-].
  split; cbn [cp_IP cp_Port]; [rewrite length_take; lia|].
  pose proof (be_val_range (drop 4 data)) as Hr. rewrite length_drop, H in Hr. done.
Qed.

Lemma DecodeDict_inv data d :
  DecodeDict data = Ok d → decoded (VDict d).
Proof.
  unfold DecodeDict. intros (v & (p & _ & _ & Hp)%Decode_inv & H)%bind_Ok_inv.
  destruct v; try done. injection H as <-. by eapply bencoded_decoded.
Qed.

Lemma decoded_lookup d k v : decoded (VDict d) → dict_lookup k d = Some v → decoded v.
Proof.
  intros Hd Hl%dict_lookup_elem_of. inversion Hd as [| | |? _ _ Hv]; subst.
  rewrite Forall_forall in Hv. apply (Hv _ Hl).
Qed.

Lemma decoded_GetDict d k a : decoded (VDict d) → GetDict d k = Some a → decoded (VDict a).
Proof.
  intros Hd. unfold GetDict. destruct (dict_lookup k d) as [[]|] eqn:E; try done.
  intros [= <-]. by eapply decoded_lookup.
Qed.

Lemma decoded_GetInt d k z : decoded (VDict d) → GetInt d k = Some z → is_int64 z.
Proof.
  intros Hd. unfold GetInt. destruct (dict_lookup k d) as [v|] eqn:E; [|done].
  apply (decoded_lookup _ _ _ Hd) in E. destruct v; try done; inversion E; by intros [= <-].
Qed.

Lemma Args_decoded data m a : DecodeMessage data = Ok m → Args m = Some a → decoded (VDict a).
Proof.
  intros (d & Hd%DecodeDict_inv & [= <-])%bind_Ok_inv. unfold message_of.
  repeat case_decide; cbn [Args]; try done. by apply decoded_GetDict.
Qed.

Lemma GetInfoHash_is_id m h : GetInfoHash m = Some h → is_id h.
Proof.
  unfold GetInfoHash. destruct (Args m) as [a|]; [|done].
  destruct (GetBytes a (bs "info_hash")) as [b|]; [|done]. case_decide; [|done].
  intros [= <-]. unfold is_id. by rewrite length_copy_at by lia.
Qed.

Lemma GetPort_int64 data m port :
  DecodeMessage data = Ok m → GetPort m = Some port → is_int64 port.
Proof.
  intros Hm. unfold GetPort. destruct (Args m) as [a|] eqn:Ha; [|done].
  pose proof (Args_decoded _ _ _ Hm Ha) as Hd.
  intros H. apply (decoded_GetInt a (bs "port")); [done|]. by repeat case_match.
Qed.

Lemma fueled_DecodeMessage data : fueled (DecodeMessage data).
Proof. unfold DecodeMessage. solve_fueled. Qed.

Lemma DecodeMessage_panic data p : DecodeMessage data = Panic p → p = PanicMakeSlice.
Proof. revert p. apply only_makeslice_bind; [apply only_makeslice_DecodeDict|done]. Qed.

Lemma GetResponseNodes_wf m : Forall wf_node (GetResponseNodes m).
Proof. unfold GetResponseNodes. repeat case_match; try constructor. apply DecodeCompactNodes_wf. Qed.

Lemma GetResponsePeers_wf m : Forall wf_peer (GetResponsePeers m).
Proof.
  unfold GetResponsePeers. repeat case_match; try constructor.
  apply Forall_forall. intros p Hp. apply list_elem_of_omap in Hp as (v & _ & Hv).
  destruct v; try done. by eapply DecodeCompactPeer_is_wf.
Qed.

Lemma TransactionID_sized data m : DecodeMessage data = Ok m → sized (TransactionID m).
Proof.
  intros (d & Hd%DecodeDict_inv & [= <-])%bind_Ok_inv.
  assert (sized (default [] (GetBytes d (bs "t")))) as H.
  { unfold GetBytes. destruct (dict_lookup (bs "t") d) as [v|] eqn:E; [|apply sized_small; cbn; lia].
    apply (decoded_lookup _ _ _ Hd) in E.
    destruct v; inversion E; subst; cbn; (done || apply sized_small; cbn; lia). }
  unfold message_of. by repeat case_decide.
Qed.

(** reading a datagram. [DecodeMessage] returns for every input, a message exactly
    when the input is a dictionary; arguments, a response or an error are present only
    under the message type they belong to; identifiers and info hashes have 20 bytes,
    nodes and peers 4-byte addresses and 16-bit ports, while an announced port is any
    64-bit integer: the decoder does not check it. *)
Theorem DecodeMessage_typed data :
  fueled (DecodeMessage data) ∧
  (is_ok (DecodeMessage data) = is_ok (DecodeDict data)) ∧
  ∀ m, DecodeMessage data = Ok m →
    (is_Some (Args m) ∨ Query m ≠ [] → Type_ m = MsgTypeQuery) ∧
    (is_Some (Response m) → Type_ m = MsgTypeResponse) ∧
    (is_Some (Error m) → Type_ m = MsgTypeError) ∧
    (∀ id, GetQueryNodeID m = Some id ∨ GetTarget m = Some id ∨ GetInfoHash m = Some id → is_id id) ∧
    (∀ port, GetPort m = Some port → is_int64 port) ∧
    Forall wf_node (GetResponseNodes m) ∧ Forall wf_peer (GetResponsePeers m).
Proof.
  split_and!.
  - apply fueled_DecodeMessage.
  - unfold DecodeMessage. by destruct (DecodeDict data).
  - intros m Hm. pose proof (GetPort_int64 data m) as HP.
    split_and!; [..|by eauto| |].
    1-3: apply bind_Ok_inv in Hm as (d & _ & [= <-]); unfold message_of;
      repeat case_decide; cbn; try done; by intros [[? ?]|?] || by intros [? ?].
    + intros id [H|[H|H]]; [by eapply get_id_is_id..|by eapply GetInfoHash_is_id].
    + apply GetResponseNodes_wf.
    + apply GetResponsePeers_wf.
Qed.
