(* ===== verification/Conc.v ===== *)
(** * Goroutines over shared memory

    The crawler's goroutines share memory through mutexes, atomic counters and
    channels.  A goroutine is a tree of atomic sections ([prog]); between two of
    them any other goroutine may run.  [run] executes one goroutine on its own;
    [cstep] interleaves a pool of them, and [reachable_inv] proves a property of all
    the interleavings from each atomic section.  A panic in any goroutine ends the
    process. *)

From S2P Require Import Prelude.

(** ** Programs *)

(** [Atomic f k]: a section under a mutex, or an operation of [sync/atomic].
    [Select r k]: a blocking operation that takes one of the alternatives ready in the
    state; the alternative may panic.  [Fork p k]: [go p].  [Loop body k]: an endless loop
    that is left with [b] when its body yields [Some b]. *)
Inductive prog (S : Type) (A : Type) : Type :=
  | Ret (a : A)
  | Atomic (B : Type) (f : S → outcome unit (B * S)) (k : B → prog S A)
  | Select (B : Type) (ready : S → list (outcome unit (B * S))) (k : B → prog S A)
  | Fork (p : prog S unit) (k : prog S A)
  | Loop (B : Type) (body : prog S (option B)) (k : B → prog S A).
Arguments Ret {S A} a.
Arguments Atomic {S A} {B} f k.
Arguments Select {S A} {B} ready k.
Arguments Fork {S A} p k.
Arguments Loop {S A} {B} body k.

Fixpoint prog_bind {S A B : Type} (f : A → prog S B) (p : prog S A) : prog S B :=
  match p with
  | Ret a => f a
  | Atomic g k => Atomic g (λ b, prog_bind f (k b))
  | Select r k => Select r (λ b, prog_bind f (k b))
  | Fork q k => Fork q (prog_bind f k)
  | Loop body k => Loop body (λ b, prog_bind f (k b))
  end.

#[global] Instance prog_ret S : MRet (prog S) := λ A a, Ret a.
#[global] Instance prog_mbind S : MBind (prog S) := λ A B f p, prog_bind f p.

(** Basic sections: read, write, run a computation that may panic. *)
Definition gets {S A} (f : S → A) : prog S A := Atomic (λ s, Ok (f s, s)) Ret.
Definition modify {S} (f : S → S) : prog S unit := Atomic (λ s, Ok (tt, f s)) Ret.
Definition update {S A} (f : S → A * S) : prog S A := Atomic (λ s, Ok (f s)) Ret.
Definition checked {S A} (f : S → outcome unit A) : prog S A :=
  Atomic (λ s, a ← f s; Ok (a, s)) Ret.
Definition try_update {S} (f : S → outcome unit S) : prog S unit :=
  Atomic (λ s, s ← f s; Ok (tt, s)) Ret.
(** [for { body }]. *)
Definition forever {S A} (body : prog S (option A)) : prog S A := Loop body Ret.
(** What comes after a turn of a loop. *)
Definition again {S A B} (body : prog S (option B)) (k : B → prog S A) (r : option B) : prog S A :=
  match r with Some b => k b | None => Loop body k end.
Definition go {S} (p : prog S unit) : prog S unit := Fork p (Ret tt).

(** [for _, x := range l { body(x) }]. *)
Fixpoint for_each {S A : Type} (l : list A) (body : A → prog S unit) : prog S unit :=
  match l with
  | [] => Ret tt
  | x :: l => _ ← body x; for_each l body
  end.

(** A goroutine of a component, in the state of the program that contains it. *)
Fixpoint lift {S T A : Type} (get : T → S) (put : S → T → T) (p : prog S A) : prog T A :=
  match p with
  | Ret a => Ret a
  | Atomic f k =>
      Atomic (λ t, '(b, s) ← f (get t); Ok (b, put s t)) (λ b, lift get put (k b))
  | Select r k =>
      Select (λ t, (λ o, '(b, s) ← o; Ok (b, put s t)) <$> r (get t)) (λ b, lift get put (k b))
  | Fork q k => Fork (lift get put q) (lift get put k)
  | Loop body k => Loop (lift get put body) (λ b, lift get put (k b))
  end.

(** ** Channels *)

(** A buffered channel: what it holds, oldest first, and its capacity. *)
Record chan (A : Type) := mkChan { ch_buf : list A; ch_cap : Z; ch_closed : bool }.
Arguments mkChan {A} ch_buf ch_cap ch_closed.
Arguments ch_buf {A} c.
Arguments ch_cap {A} c.
Arguments ch_closed {A} c.

Definition make_chan {A} (cap : Z) : chan A := mkChan [] cap false.

Definition chan_full {A} (c : chan A) : bool := ch_cap c <=? Z.of_nat (length (ch_buf c)).

(** [select { case c <- x: default: }]: a full channel drops the value. *)
Definition try_send {A} (x : A) (c : chan A) : outcome unit (chan A) :=
  if ch_closed c then Panic PanicSendClosed
  else if chan_full c then Ok c
  else Ok (mkChan (ch_buf c ++ [x]) (ch_cap c) false).

Definition close_chan {A} (c : chan A) : outcome unit (chan A) :=
  if ch_closed c then Panic PanicCloseClosed else Ok (mkChan (ch_buf c) (ch_cap c) true).

(** A receive takes the oldest value; on a closed empty channel it yields [None]. *)
Definition chan_recv {A} (c : chan A) : list (option A * chan A) :=
  match ch_buf c with
  | x :: l => [(Some x, mkChan l (ch_cap c) (ch_closed c))]
  | [] => if ch_closed c then [(None, c)] else []
  end.

Definition chan_ok {A} (P : A → Prop) (c : chan A) : Prop :=
  Z.of_nat (length (ch_buf c)) ≤ ch_cap c ∧ ch_closed c = false ∧ Forall P (ch_buf c).

Lemma try_send_ok {A} (P : A → Prop) x c :
  chan_ok P c → P x →
  ∃ c', try_send x c = Ok c' ∧ chan_ok P c' ∧ ch_cap c' = ch_cap c ∧
    ch_buf c' = if chan_full c then ch_buf c else ch_buf c ++ [x].
Proof.
  intros (Hl & Ho & HP) Hx. unfold try_send, chan_full. rewrite Ho.
  destruct (Z.leb_spec (ch_cap c) (Z.of_nat (length (ch_buf c)))).
  - exists c. unfold chan_ok. done.
  - eexists. split_and!; [done| |done..]. unfold chan_ok; cbn. rewrite length_app; cbn.
    split_and!; [lia|done|]. apply Forall_app. by split; [|constructor].
Qed.

(** ** Running one goroutine *)

(** A forked goroutine runs first, a blocking operation takes its first alternative;
    [Err] is a goroutine that is blocked, or still in a loop after a turn. *)
Fixpoint run {S A : Type} (p : prog S A) (s : S) : outcome unit (A * S) :=
  match p with
  | Ret a => Ok (a, s)
  | Atomic f k => '(b, s) ← f s; run (k b) s
  | Select r k => match r s with [] => Err tt | o :: _ => '(b, s) ← o; run (k b) s end
  | Fork q k => '(_, s) ← run q s; run k s
  | Loop body k => '(r, s) ← run body s; match r with Some b => run (k b) s | None => Err tt end
  end.

Lemma run_bind {S A B} (p : prog S A) (f : A → prog S B) s :
  run (p ≫= f) s = '(a, s) ← run p s; run (f a) s.
Proof.
  revert s. induction p as [A a|A C g k IH|A C r k IH|A q IHq k IHk|A C body IHb k IH]; intros s; cbn.
  - done.
  - destruct (g s) as [[b s']| | |]; cbn; [apply IH|done..].
  - destruct (r s) as [|[[b s']| | |] l]; cbn; [done|apply IH|done..].
  - destruct (run q s) as [[u s']| | |]; cbn; [apply IHk|done..].
  - destruct (run body s) as [[[b|] s']| | |]; cbn; [apply IH|done..].
Qed.

(** Every way in which a goroutine that runs alone can end, whatever alternatives its
    blocking operations take; a goroutine it forks runs first. *)
Fixpoint outcomes {S A : Type} (p : prog S A) (s : S) : list (outcome unit (A * S)) :=
  match p with
  | Ret a => [Ok (a, s)]
  | Atomic f k =>
      match f s with
      | Ok (b, s) => outcomes (k b) s
      | Err e => [Err e] | Panic p => [Panic p] | NoFuel => [NoFuel]
      end
  | Select f k =>
      concat ((λ o,
        match o with
        | Ok (b, s) => outcomes (k b) s
        | Err e => [Err e] | Panic p => [Panic p] | NoFuel => [NoFuel]
        end) <$> f s)
  | Fork q k =>
      concat ((λ o,
        match o with
        | Ok (_, s) => outcomes k s
        | Err e => [Err e] | Panic p => [Panic p] | NoFuel => [NoFuel]
        end) <$> outcomes q s)
  | Loop body k =>
      concat ((λ o,
        match o with
        | Ok (Some b, s) => outcomes (k b) s
        | Ok (None, s) => [Err tt]
        | Err e => [Err e] | Panic p => [Panic p] | NoFuel => [NoFuel]
        end) <$> outcomes body s)
  end.

(** What follows an outcome. *)
Definition after {S A B : Type} (f : A → prog S B) (o : outcome unit (A * S)) : list (outcome unit (B * S)) :=
  match o with
  | Ok (a, s) => outcomes (f a) s
  | Err e => [Err e] | Panic p => [Panic p] | NoFuel => [NoFuel]
  end.

Lemma concat_concat_fmap {A B : Type} (f : A → list B) (ls : list (list A)) :
  concat (f <$> concat ls) = concat ((λ l, concat (f <$> l)) <$> ls).
Proof. induction ls as [|l ls IH]; [done|]. cbn [concat]. by rewrite fmap_app, concat_app, IH. Qed.

Lemma outcomes_bind {S A B} (p : prog S A) (f : A → prog S B) s :
  outcomes (p ≫= f) s = concat (after f <$> outcomes p s).
Proof.
  revert s. induction p as [A a|A C g k IH|A C r k IH|A q IHq k IHk|A C body IHb k IH]; intros s; cbn.
  - by rewrite app_nil_r.
  - destruct (g s) as [[b s']| | |]; cbn; [apply IH|done..].
  - rewrite concat_concat_fmap, <- list_fmap_compose. f_equal. apply list_fmap_ext.
    intros i o _. cbn. destruct o as [[b s']| | |]; cbn; [apply IH|done..].
  - rewrite concat_concat_fmap, <- list_fmap_compose. f_equal. apply list_fmap_ext.
    intros i o _. cbn. destruct o as [[b s']| | |]; cbn; [apply IHk|done..].
  - rewrite concat_concat_fmap, <- list_fmap_compose. f_equal. apply list_fmap_ext.
    intros i o _. cbn. destruct o as [[[b|] s']| | |]; cbn; [apply IH|done..].
Qed.

Lemma outcomes_bind_elem {S A B} (p : prog S A) (f : A → prog S B) s o :
  o ∈ outcomes (p ≫= f) s → ∃ o1, o1 ∈ outcomes p s ∧ o ∈ after f o1.
Proof.
  rewrite outcomes_bind, elem_of_concat. intros (l & (o1 & -> & H1)%list_elem_of_fmap & H2). eauto.
Qed.

Lemma outcomes_gets {S A B} (f : S → A) (k : A → prog S B) s :
  outcomes (gets f ≫= k) s = outcomes (k (f s)) s.
Proof. done. Qed.

Lemma outcomes_modify {S B} (f : S → S) (k : unit → prog S B) s :
  outcomes (modify f ≫= k) s = outcomes (k tt) (f s).
Proof. done. Qed.

Lemma outcomes_update {S A B} (f : S → A * S) (k : A → prog S B) s :
  outcomes (update f ≫= k) s = outcomes (k (f s).1) (f s).2.
Proof. cbn. by destruct (f s). Qed.

Lemma outcomes_checked {S A B} (f : S → outcome unit A) (k : A → prog S B) s :
  outcomes (checked f ≫= k) s =
    match f s with
    | Ok a => outcomes (k a) s
    | Err e => [Err e] | Panic p => [Panic p] | NoFuel => [NoFuel]
    end.
Proof. cbn. by destruct (f s). Qed.

(** ** Interleavings *)

Abbreviation config S := (S * list (prog S unit))%type.

Inductive cstep {S} : config S → config S → Prop :=
  | cstep_atomic s pool i B (f : S → outcome unit (B * S)) k b s' :
      pool !! i = Some (Atomic f k) → f s = Ok (b, s') →
      cstep (s, pool) (s', <[i := k b]> pool)
  | cstep_select s pool i B (r : S → list (outcome unit (B * S))) k b s' :
      pool !! i = Some (Select r k) → Ok (b, s') ∈ r s →
      cstep (s, pool) (s', <[i := k b]> pool)
  | cstep_fork s pool i q k :
      pool !! i = Some (Fork q k) → cstep (s, pool) (s, <[i := k]> pool ++ [q ≫= Ret])
  | cstep_loop s pool i B (body : prog S (option B)) k :
      pool !! i = Some (Loop body k) → cstep (s, pool) (s, <[i := body ≫= again body k]> pool).

Definition cpanics {S} (c : config S) (p : panic) : Prop :=
  (∃ i B (f : S → outcome unit (B * S)) k, c.2 !! i = Some (Atomic f k) ∧ f c.1 = Panic p) ∨
  (∃ i B (r : S → list (outcome unit (B * S))) k, c.2 !! i = Some (Select r k) ∧ Panic p ∈ r c.1).

(** ** Following a schedule *)

(** One section of a goroutine, its blocking operation taking the alternative [alt]; the
    goroutine it forks, if any, comes last. *)
Definition step_thread {S : Type} (alt : nat) (s : S) (p : prog S unit) : option (S * list (prog S unit)) :=
  match p with
  | Ret _ => None
  | Atomic f k => match f s with Ok (b, s) => Some (s, [k b]) | _ => None end
  | Select f k => match f s !! alt with Some (Ok (b, s)) => Some (s, [k b]) | _ => None end
  | Fork q k => Some (s, [k; q ≫= Ret])
  | Loop body k => Some (s, [body ≫= again body k])
  end.

(** Each entry: the goroutine that runs, and its alternative. *)
Fixpoint follow {S : Type} (sched : list (nat * nat)) (c : config S) : option (config S) :=
  match sched with
  | [] => Some c
  | (i, alt) :: sched =>
      match c.2 !! i with
      | Some p =>
          match step_thread alt c.1 p with
          | Some (s, k :: new) => follow sched (s, <[i := k]> c.2 ++ new)
          | _ => None
          end
      | None => None
      end
  end.

Definition panics_at {S : Type} (i alt : nat) (c : config S) : option panic :=
  match c.2 !! i with
  | Some (Atomic f _) => match f c.1 with Panic p => Some p | _ => None end
  | Some (Select f _) => match f c.1 !! alt with Some (Panic p) => Some p | _ => None end
  | _ => None
  end.

Lemma step_thread_cstep {S : Type} alt (s s' : S) pool i p k new :
  pool !! i = Some p → step_thread alt s p = Some (s', k :: new) → cstep (s, pool) (s', <[i := k]> pool ++ new).
Proof.
  intros Hi H. destruct p as [a|B f q|B f q|q q'|B body q]; cbn in H; [done| | | |].
  - destruct (f s) as [[b s1]| | |] eqn:Ef; try done. injection H as <- <- <-. rewrite app_nil_r. by eapply cstep_atomic.
  - destruct (f s !! alt) as [[[b s1]| | |]|] eqn:Ef; try done. injection H as <- <- <-. rewrite app_nil_r.
    eapply cstep_select; [done|by eapply list_elem_of_lookup_2].
  - injection H as <- <- <-. by apply cstep_fork.
  - injection H as <- <- <-. rewrite app_nil_r. by apply cstep_loop.
Qed.

Lemma follow_rtc {S : Type} sched (c c' : config S) : follow sched c = Some c' → rtc cstep c c'.
Proof.
  revert c. induction sched as [|[i alt] sched IH]; intros [s pool] H; cbn in H.
  { injection H as ->. constructor. }
  destruct (pool !! i) as [p|] eqn:Ei; [|done].
  destruct (step_thread alt s p) as [[s' [|k new]]|] eqn:Ep; try done.
  eapply rtc_l; [by eapply step_thread_cstep|]. by apply IH.
Qed.

Lemma follow_panics {S : Type} sched i alt (c : config S) p :
  (follow sched c ≫= panics_at i alt) = Some p → ∃ c', rtc cstep c c' ∧ cpanics c' p.
Proof.
  destruct (follow sched c) as [c'|] eqn:E; [|done]. apply follow_rtc in E. cbn. intros Hp. exists c'.
  split; [done|]. unfold panics_at in Hp. destruct (c'.2 !! i) as [[a|B f k|B f k|q k|B body k]|] eqn:Ei; try done.
  - left. exists i, B, f, k. split; [done|]. destruct (f c'.1); congruence.
  - right. exists i, B, f, k. split; [done|]. destruct (f c'.1 !! alt) as [[]|] eqn:Ef; try done.
    injection Hp as <-. by eapply list_elem_of_lookup_2.
Qed.

(** ** What every interleaving preserves *)

Section safety.
Context {S : Type} (Inv : S → Prop) (allowed : panic → Prop).

(** Each section, from a state with the invariant, returns to one, or panics in an
    allowed way; [Q] holds of the result. *)
Fixpoint prog_ok {A : Type} (p : prog S A) (Q : A → Prop) : Prop :=
  match p with
  | Ret a => Q a
  | Atomic f k => ∀ s, Inv s →
      match f s with
      | Ok (b, s') => Inv s' ∧ prog_ok (k b) Q
      | Panic p => allowed p
      | _ => False
      end
  | Select r k => ∀ s o, Inv s → o ∈ r s →
      match o with
      | Ok (b, s') => Inv s' ∧ prog_ok (k b) Q
      | Panic p => allowed p
      | _ => False
      end
  | Fork q k => prog_ok q (λ _, True) ∧ prog_ok k Q
  | Loop body k => prog_ok body (λ r, match r with Some b => prog_ok (k b) Q | None => True end)
  end.

Lemma prog_ok_mono {A} (p : prog S A) (Q R : A → Prop) :
  prog_ok p Q → (∀ a, Q a → R a) → prog_ok p R.
Proof.
  revert Q R. induction p as [A a|A C g k IH|A C r k IH|A q IHq k IHk|A C body IHb k IH]; intros Q R H HQ; cbn in *.
  - auto.
  - intros s Hs. specialize (H s Hs). destruct (g s) as [[b s']| | |]; [|done..].
    destruct H as [? ?]. split; [done|]. by apply (IH b Q).
  - intros s o Hs Ho. specialize (H s o Hs Ho). destruct o as [[b s']| | |]; [|done..].
    destruct H as [? ?]. split; [done|]. by apply (IH b Q).
  - destruct H as [? ?]. split; [done|]. by apply (IHk Q).
  - eapply IHb; [exact H|]. intros [b|]; [|done]. intros Hb. by apply (IH b Q).
Qed.

Lemma prog_ok_bind {A B} (p : prog S A) (f : A → prog S B) Q R :
  prog_ok p Q → (∀ a, Q a → prog_ok (f a) R) → prog_ok (p ≫= f) R.
Proof.
  revert Q R. induction p as [A a|A C g k IH|A C r k IH|A q IHq k IHk|A C body IHb k IH]; intros Q R H HQ; cbn in *.
  - by apply HQ.
  - intros s Hs. specialize (H s Hs). destruct (g s) as [[b s']| | |]; [|done..].
    destruct H as [? H]. split; [done|]. by apply (IH b f Q).
  - intros s o Hs Ho. specialize (H s o Hs Ho). destruct o as [[b s']| | |]; [|done..].
    destruct H as [? ?]. split; [done|]. by apply (IH b f Q).
  - destruct H as [? ?]. split; [done|]. by apply (IHk f Q).
  - eapply prog_ok_mono; [exact H|]. intros [b|]; [|done]. intros Hb. by apply (IH b f Q).
Qed.

Lemma prog_ok_gets {A} (f : S → A) (Q : A → Prop) :
  (∀ s, Inv s → Q (f s)) → prog_ok (gets f) Q.
Proof. cbn. auto. Qed.

Lemma prog_ok_modify (f : S → S) (Q : unit → Prop) :
  (∀ s, Inv s → Inv (f s)) → Q tt → prog_ok (modify f) Q.
Proof. cbn. auto. Qed.

Lemma prog_ok_update {A} (f : S → A * S) (Q : A → Prop) :
  (∀ s, Inv s → Inv (f s).2 ∧ Q (f s).1) → prog_ok (update f) Q.
Proof. intros H s Hs. specialize (H s Hs). by destruct (f s). Qed.

Lemma prog_ok_checked {A} (f : S → outcome unit A) (Q : A → Prop) :
  (∀ s, Inv s → match f s with Ok a => Q a | Panic p => allowed p | _ => False end) →
  prog_ok (checked f) Q.
Proof. intros H s Hs. specialize (H s Hs). destruct (f s); cbn; auto. Qed.

Lemma prog_ok_try_update (f : S → outcome unit S) (Q : unit → Prop) :
  (∀ s, Inv s → match f s with Ok s' => Inv s' | Panic p => allowed p | _ => False end) →
  Q tt → prog_ok (try_update f) Q.
Proof. intros H HQ s Hs. specialize (H s Hs). destruct (f s); cbn; auto. Qed.

Lemma prog_ok_for_each {A} (l : list A) body :
  (∀ x, x ∈ l → prog_ok (body x) (λ _, True)) → prog_ok (for_each l body) (λ _, True).
Proof.
  induction l as [|x l IH]; intros H; [done|]. cbn [for_each].
  apply prog_ok_bind with (λ _, True); [apply H; set_solver|].
  intros _ _. apply IH. set_solver.
Qed.

Definition pool_ok (c : config S) : Prop :=
  Inv c.1 ∧ Forall (λ p, prog_ok p (λ _, True)) c.2.

Lemma cstep_ok c c' : cstep c c' → pool_ok c → pool_ok c'.
Proof.
  intros Hstep [Hs Hp]; cbn in *. rewrite Forall_forall in Hp.
  assert (∀ i p, c.2 !! i = Some p → prog_ok p (λ _, True)) as Hi.
  { intros i p E. apply Hp. by eapply list_elem_of_lookup_2. }
  destruct Hstep as [s pool i B f k b s' E Hf|s pool i B r k b s' E Hr|s pool i q k E|s pool i B body k E];
    cbn in *; specialize (Hi _ _ E); cbn in Hi.
  - specialize (Hi s Hs). rewrite Hf in Hi. destruct Hi as [? ?].
    split; [done|]. by apply Forall_insert; [apply Forall_forall|].
  - destruct (Hi s _ Hs Hr) as [? ?].
    split; [done|]. by apply Forall_insert; [apply Forall_forall|].
  - destruct Hi as [Hq Hk]. split; [done|]. apply Forall_app; split.
    + by apply Forall_insert; [apply Forall_forall|].
    + constructor; [|constructor]. by eapply prog_ok_bind.
  - split; [done|]. apply Forall_insert; [by apply Forall_forall|]. eapply prog_ok_bind; [exact Hi|]. by intros [b|].
Qed.

(** [env] is what the outside may do between two sections: time passes, a datagram
    arrives, a timer fires, a goroutine is started. *)
Theorem reachable_ok (env : config S → config S → Prop) c c' :
  (∀ c c', env c c' → pool_ok c → pool_ok c') →
  pool_ok c → rtc (λ c c', cstep c c' ∨ env c c') c c' →
  pool_ok c' ∧ ∀ p, cpanics c' p → allowed p.
Proof.
  intros Henv Hc Hr. assert (pool_ok c') as Hc'.
  { induction Hr as [|c c2 c3 [H|H] _ IH]; eauto using cstep_ok. }
  split; [done|]. destruct Hc' as [Hs Hp]. rewrite Forall_forall in Hp.
  intros p [(i & B & f & k & E & Hf)|(i & B & r & k & E & Hr')];
    specialize (Hp _ (list_elem_of_lookup_2 _ _ _ E)); cbn in Hp.
  - specialize (Hp _ Hs). by rewrite Hf in Hp.
  - exact (Hp _ _ Hs Hr').
Qed.

(** A goroutine that runs alone. *)
Lemma run_ok {A} (p : prog S A) Q s :
  Inv s → prog_ok p Q →
  match run p s with Ok (a, s') => Inv s' ∧ Q a | Panic p => allowed p | Err _ => True | NoFuel => False end.
Proof.
  revert s Q. induction p as [A a|A C g k IH|A C r k IH|A q IHq k IHk|A C body IHb k IH]; intros s Q Hs H; cbn in *.
  - done.
  - specialize (H s Hs). destruct (g s) as [[b s']| | |]; cbn; [|done..].
    destruct H. by apply IH.
  - destruct (r s) as [|o l] eqn:E; [done|].
    specialize (H s o Hs ltac:(rewrite E; set_solver)).
    destruct o as [[b s']| | |]; cbn; try done. destruct H. by apply IH.
  - destruct H as [Hq Hk]. specialize (IHq s _ Hs Hq).
    destruct (run q s) as [[u s']| | |]; cbn; try done. destruct IHq. by apply IHk.
  - specialize (IHb s _ Hs H). destruct (run body s) as [[[b|] s']| | |]; cbn; try done. destruct IHb. by apply IH.
Qed.
End safety.

Lemma prog_ok_lift {S T : Type} (InvS : S → Prop) (InvT : T → Prop) allowed
  (get : T → S) (put : S → T → T) {A : Type} (p : prog S A) Q :
  (∀ t, InvT t → InvS (get t)) → (∀ t s, InvT t → InvS s → InvT (put s t)) →
  prog_ok InvS allowed p Q → prog_ok InvT allowed (lift get put p) Q.
Proof.
  intros Hg Hp. revert Q. induction p as [A a|A C g k IH|A C r k IH|A q IHq k IHk|A C body IHb k IH]; intros Q H; cbn in *.
  - done.
  - intros t Ht. specialize (H _ (Hg t Ht)). destruct (g (get t)) as [[b s]| | |]; cbn; try done.
    destruct H. auto.
  - intros t o Ht (o' & -> & Hin)%list_elem_of_fmap. specialize (H _ o' (Hg t Ht) Hin).
    destruct o' as [[b s]| | |]; cbn; try done. destruct H. auto.
  - destruct H. auto.
  - eapply prog_ok_mono; [by apply IHb|]. intros [b|]; [|done]. apply IH.
Qed.

(** A lifted goroutine runs as it does on its own, where [get] and [put] are a lens. *)
Lemma run_lift {S T : Type} (get : T → S) (put : S → T → T) (P : T → Prop) {A : Type} (p : prog S A) t :
  (∀ t s, P t → P (put s t) ∧ get (put s t) = s ∧ ∀ s', put s' (put s t) = put s' t) →
  (∀ t, P t → put (get t) t = t) → P t →
  run (lift get put p) t = '(a, s) ← run p (get t); Ok (a, put s t).
Proof.
  intros Hput Hget. revert t.
  assert (∀ A (p : prog S A) (t : T) s, P t →
    (∀ t, P t → run (lift get put p) t = '(a, s) ← run p (get t); Ok (a, put s t)) →
    run (lift get put p) (put s t) = '(a, s) ← run p s; Ok (a, put s t)) as Hstep.
  { intros B q t s Ht IH. destruct (Hput t s Ht) as (Hp & Hg & Hpp).
    rewrite IH, Hg by done. destruct (run q s) as [[b s']| | |]; cbn; [by rewrite Hpp|done..]. }
  induction p as [A a|A C g k IH|A C r k IH|A q IHq k IHk|A C body IHb k IH]; intros t Ht; cbn.
  - by rewrite Hget.
  - destruct (g (get t)) as [[b s]| | |]; cbn; [|done..]. by apply Hstep; [|apply IH].
  - destruct (r (get t)) as [|[[b s]| | |] l]; cbn; [done| |done..]. by apply Hstep; [|apply IH].
  - rewrite IHq by done. destruct (run q (get t)) as [[b s]| | |]; cbn; [|done..]. by apply Hstep.
  - rewrite IHb by done. destruct (run body (get t)) as [[[b|] s]| | |]; cbn; [|done..]. by apply Hstep; [|apply IH].
Qed.

(** The state a program that does not fail ends in. *)
Definition ran {S A : Type} (p : prog S A) (s : S) : S :=
  match run p s with Ok (_, s') => s' | _ => s end.

Lemma run_ran {S A : Type} (p : prog S A) s :
  match run p s with Ok _ => true | _ => false end = true → ∃ a, run p s = Ok (a, ran p s).
Proof. unfold ran. destruct (run p s) as [[a s']| | |]; intros [=]. by exists a. Qed.

(** [run] is one of the interleavings: a goroutine of the pool that [run] takes to its
    end gets there by steps, those it forked included. *)
Lemma run_reachable {S A : Type} (p : prog S A) s a s' :
  run p s = Ok (a, s') → ∀ (f : A → prog S unit) pool i,
  pool !! i = Some (p ≫= f) →
  ∃ n, rtc cstep (s, pool) (s', <[i := f a]> pool ++ replicate n (Ret tt)).
Proof.
  revert s a s'. induction p as [A a|A C g k IH|A C r k IH|A q IHq k IHk|A C body IHb k IH];
    intros s a' s' Hr f pool i Hi; cbn in Hr; pose proof (lookup_lt_Some _ _ _ Hi) as Hlt.
  - injection Hr as -> ->. exists 0%nat. rewrite app_nil_r, list_insert_id by done. constructor.
  - apply bind_Ok_inv in Hr as ([b s1] & Hg & Hr).
    destruct (IH b _ _ _ Hr f (<[i := k b ≫= f]> pool) i) as [n Hn];
      [by apply list_lookup_insert_eq|].
    rewrite list_insert_insert_eq in Hn. exists n. eapply rtc_l; [|exact Hn].
    exact (cstep_atomic s pool i C g (λ b, k b ≫= f) b s1 Hi Hg).
  - destruct (r s) as [|o l] eqn:E; [done|].
    apply bind_Ok_inv in Hr as ([b s1] & -> & Hr).
    destruct (IH b _ _ _ Hr f (<[i := k b ≫= f]> pool) i) as [n Hn];
      [by apply list_lookup_insert_eq|].
    rewrite list_insert_insert_eq in Hn. exists n. eapply rtc_l; [|exact Hn].
    refine (cstep_select s pool i C r (λ b, k b ≫= f) b s1 Hi _). rewrite E. set_solver.
  - apply bind_Ok_inv in Hr as ([[] s1] & Hq & Hr).
    destruct (IHq _ _ _ Hq Ret (<[i := k ≫= f]> pool ++ [q ≫= Ret]) (length pool)) as [n Hn].
    { rewrite lookup_app_r by (by rewrite length_insert).
      by rewrite length_insert, Nat.sub_diag. }
    rewrite insert_app_r_alt in Hn by (by rewrite length_insert).
    rewrite length_insert, Nat.sub_diag in Hn. cbn in Hn. rewrite <- app_assoc in Hn.
    destruct (IHk _ _ _ Hr f (<[i := k ≫= f]> pool ++ replicate (1 + n) (Ret tt)) i) as [m Hm].
    { change (1 + n)%nat with (Datatypes.S n). rewrite lookup_app_l by (by rewrite length_insert). by apply list_lookup_insert_eq. }
    exists (1 + n + m)%nat. eapply rtc_l; [exact (cstep_fork s pool i q (k ≫= f) Hi)|].
    etrans; [exact Hn|]. rewrite insert_app_l in Hm by (by rewrite length_insert).
    by rewrite list_insert_insert_eq, <- app_assoc, <- replicate_add in Hm.
  - apply bind_Ok_inv in Hr as ([[b|] s1] & Hb & Hr); [|done].
    destruct (IHb _ _ _ Hb (again body (λ b, k b ≫= f)) (<[i := body ≫= again body (λ b, k b ≫= f)]> pool) i) as [n Hn];
      [by apply list_lookup_insert_eq|]. rewrite list_insert_insert_eq in Hn. cbn [again] in Hn.
    destruct (IH b _ _ _ Hr f (<[i := k b ≫= f]> pool ++ replicate n (Ret tt)) i) as [m Hm].
    { rewrite lookup_app_l by (by rewrite length_insert). by apply list_lookup_insert_eq. }
    exists (n + m)%nat. eapply rtc_l; [exact (cstep_loop s pool i C body (λ b, k b ≫= f) Hi)|].
    etrans; [exact Hn|]. rewrite insert_app_l in Hm by (by rewrite length_insert).
    by rewrite list_insert_insert_eq, <- app_assoc, <- replicate_add in Hm.
Qed.
