(* ===== verification/Credit.v ===== *)
(** * Ownership across goroutines

    Conservation laws and exclusive ownership depend on what the goroutines hold between
    two sections: a batch taken out of the cache, a hash taken off the queue.  [owes p r Q]
    says that a goroutine that holds [r] units keeps the invariant [Inv], which is about
    the state and the sum of what all goroutines hold; it ends with the units [Q] allows,
    and a blocking operation without an alternative is [excused] by what the goroutine
    holds and the state.  [reachable_owes] derives the invariant for every interleaving. *)

From Stdlib Require Import Zify ZifyClasses.
From stdpp Require Import gmultiset.
From S2P Require Import Prelude Conc.

(** ** Units *)

(** What goroutines hold adds up: a commutative monoid. *)
Class Units (M : Type) := {
  u_add : M → M → M;
  u_none : M;
  u_comm : Comm (=) u_add;
  u_assoc : Assoc (=) u_add;
  u_left : LeftId (=) u_none u_add;
}.
#[export] Existing Instances u_comm u_assoc u_left.
Infix "⊕" := u_add (at level 50, left associativity) : go_scope.
#[global] Open Scope go_scope.

#[export] Instance nat_units : Units nat := {| u_add := Nat.add; u_none := 0%nat |}.

#[export] Instance prod_units {M N : Type} `{!Units M, !Units N} : Units (M * N).
Proof.
  refine {| u_add := λ a b, (a.1 ⊕ b.1, a.2 ⊕ b.2); u_none := (u_none, u_none) |}.
  - intros ??. f_equal; apply (comm u_add).
  - intros ???. f_equal; apply (assoc u_add).
  - intros [??]. cbn. f_equal; apply (left_id u_none u_add).
Defined.

#[export] Instance gmultiset_units `{Countable A} : Units (gmultiset A) := {| u_add := disj_union; u_none := ∅ |}.

(** What goroutines know, which they need not share out. *)
#[export] Instance gset_units `{Countable A} : Units (gset A) := {| u_add := union; u_none := ∅ |}.

(** [lia] reads the units of a number. *)
#[global] Instance Op_u_add_nat : ZifyClasses.BinOp (@u_add nat nat_units) :=
  { TBOp := Z.add; TBOpInj := Nat2Z.inj_add }.
Add Zify BinOp Op_u_add_nat.
#[global] Instance Op_u_none_nat : ZifyClasses.CstOp (@u_none nat nat_units) :=
  { TCst := 0; TCstInj := eq_refl }.
Add Zify CstOp Op_u_none_nat.

Definition u_total {M : Type} `{!Units M} (rs : list M) : M := foldr u_add u_none rs.

Lemma u_total_app {M : Type} `{!Units M} (l l' : list M) : u_total (l ++ l') = u_total l ⊕ u_total l'.
Proof.
  induction l as [|r l IH]; cbn; [by rewrite (left_id _ u_add)|]. unfold u_total in *.
  by rewrite IH, (assoc u_add).
Qed.

(** ** Goroutines *)

Section credit.
Context {S M : Type} `{!Units M} (Inv : M → S → Prop) (allowed : panic → Prop).
(** When a goroutine may have to wait. *)
Context (excused : M → S → Prop).
(** What a goroutine may still hold when it ends. *)
Context (fin : M → Prop).

Fixpoint owes {A : Type} (p : prog S A) (r : M) (Q : A → M → Prop) : Prop :=
  match p with
  | Ret a => Q a r
  | Atomic f k => ∀ s others, Inv (r ⊕ others) s →
      match f s with
      | Ok (b, s') => ∃ r', Inv (r' ⊕ others) s' ∧ owes (k b) r' Q
      | Panic p => allowed p
      | _ => False
      end
  | Select f k =>
      (∀ s others, Inv (r ⊕ others) s → f s = [] → excused r s) ∧
      ∀ s others o, Inv (r ⊕ others) s → o ∈ f s →
        match o with
        | Ok (b, s') => ∃ r', Inv (r' ⊕ others) s' ∧ owes (k b) r' Q
        | Panic p => allowed p
        | _ => False
        end
  | Fork q k => ∃ r1 r2, r = r1 ⊕ r2 ∧ owes q r1 (λ _, fin) ∧ owes k r2 Q
  | Loop body k => ∃ I : M → Prop, I r ∧ ∀ r, I r →
      owes body r (λ res r', match res with Some b => owes (k b) r' Q | None => I r' end)
  end.

Lemma owes_mono {A} (p : prog S A) r (Q R : A → M → Prop) :
  owes p r Q → (∀ a r', Q a r' → R a r') → owes p r R.
Proof.
  revert r Q R. induction p as [A a|A C g k IH|A C f k IH|A q IHq k IHk|A C body IHb k IH]; intros r Q R H HQ; cbn in *.
  - auto.
  - intros s fr Hs. specialize (H s fr Hs). destruct (g s) as [[b s']| | |]; [|done..].
    destruct H as (r' & ? & ?). exists r'. split; [done|]. by apply (IH b r' Q).
  - destruct H as [Hw H]. split; [done|].
    intros s fr o Hs Ho. specialize (H s fr o Hs Ho). destruct o as [[b s']| | |]; [|done..].
    destruct H as (r' & ? & ?). exists r'. split; [done|]. by apply (IH b r' Q).
  - destruct H as (r1 & r2 & -> & ? & ?). exists r1, r2. split_and!; [done..|]. by apply (IHk r2 Q).
  - destruct H as (I & HI & H). exists I. split; [done|]. intros r0 Hr. eapply IHb; [exact (H r0 Hr)|].
    intros [b|] r'; [|done]. intros Hb. by eapply IH.
Qed.

Lemma owes_bind {A B} (p : prog S A) (f : A → prog S B) r Q R :
  owes p r Q → (∀ a r', Q a r' → owes (f a) r' R) → owes (p ≫= f) r R.
Proof.
  revert r Q R. induction p as [A a|A C g k IH|A C h k IH|A q IHq k IHk|A C body IHb k IH]; intros r Q R H HQ; cbn in *.
  - by apply HQ.
  - intros s fr Hs. specialize (H s fr Hs). destruct (g s) as [[b s']| | |]; [|done..].
    destruct H as (r' & ? & H). exists r'. split; [done|]. by apply (IH b f r' Q).
  - destruct H as [Hw H]. split; [done|].
    intros s fr o Hs Ho. specialize (H s fr o Hs Ho). destruct o as [[b s']| | |]; [|done..].
    destruct H as (r' & ? & H). exists r'. split; [done|]. by apply (IH b f r' Q).
  - destruct H as (r1 & r2 & -> & ? & ?). exists r1, r2. split_and!; [done..|]. by apply (IHk f r2 Q).
  - destruct H as (I & HI & H). exists I. split; [done|]. intros r0 Hr. eapply owes_mono; [exact (H r0 Hr)|].
    intros [b|] r'; [|done]. intros Hb. by eapply IH.
Qed.

Lemma owes_gets {A} (f : S → A) r (Q : A → M → Prop) :
  (∀ s others, Inv (r ⊕ others) s → Q (f s) r) → owes (gets f) r Q.
Proof. intros H s fr Hs. exists r. split; [done|]. by apply (H s fr). Qed.

Lemma owes_update {A} (f : S → A * S) r (Q : A → M → Prop) :
  (∀ s others, Inv (r ⊕ others) s → ∃ r', Inv (r' ⊕ others) (f s).2 ∧ Q (f s).1 r') →
  owes (update f) r Q.
Proof.
  intros H s fr Hs. destruct (H s fr Hs) as (r' & ? & ?). destruct (f s) as [a s']. by exists r'.
Qed.

Lemma owes_modify (f : S → S) r r' (Q : unit → M → Prop) :
  (∀ s others, Inv (r ⊕ others) s → Inv (r' ⊕ others) (f s)) → Q tt r' → owes (modify f) r Q.
Proof. intros H HQ s fr Hs. exists r'. split; [by apply H|done]. Qed.

Lemma owes_checked {A} (f : S → outcome unit A) r (Q : A → M → Prop) :
  (∀ s others, Inv (r ⊕ others) s →
     match f s with Ok a => Q a r | Panic p => allowed p | _ => False end) →
  owes (checked f) r Q.
Proof.
  intros H s fr Hs. specialize (H s fr Hs). destruct (f s); cbn; [|done..]. by exists r.
Qed.

Lemma owes_select {A} (f : S → list (outcome unit (A * S))) r (Q : A → M → Prop) :
  (∀ s others, Inv (r ⊕ others) s → f s = [] → excused r s) →
  (∀ s others o, Inv (r ⊕ others) s → o ∈ f s →
     match o with
     | Ok (b, s') => ∃ r', Inv (r' ⊕ others) s' ∧ Q b r'
     | Panic p => allowed p
     | _ => False
     end) → owes (Select f Ret) r Q.
Proof. intros Hw H. split; [exact Hw|]. intros s fr o Hs Ho. by specialize (H s fr o Hs Ho). Qed.

(** [R l]: what the loop holds when [l] is left to do. *)
Lemma owes_for_each {A} (R : list A → M) (l : list A) body :
  (∀ x l, owes (body x) (R (x :: l)) (λ _ r, r = R l)) →
  owes (for_each l body) (R l) (λ _ r, r = R []).
Proof.
  intros H. induction l as [|x l IH]; [done|]. cbn [for_each].
  eapply owes_bind; [apply H|]. intros _ r ->. exact IH.
Qed.

(** A turn of a loop. *)
Lemma owes_loop {A B} (body : prog S (option B)) (k : B → prog S A) r Q :
  owes (Loop body k) r Q → owes (body ≫= again body k) r Q.
Proof.
  intros (I & HI & H). eapply owes_bind; [exact (H r HI)|]. intros [b|] r'; [done|]. intros Hr. by exists I.
Qed.

Lemma owes_forever {A} (I : M → Prop) (body : prog S (option A)) r Q :
  I r → (∀ r, I r → owes body r (λ res r', match res with Some a => Q a r' | None => I r' end)) →
  owes (forever body) r Q.
Proof. intros HI H. by exists I. Qed.

(** ** Pools *)

Definition pool_owes (c : config S) : Prop :=
  ∃ rs, Forall2 (λ p r, owes p r (λ _, fin)) c.2 rs ∧ Inv (u_total rs) c.1.

Lemma u_total_insert (rs : list M) i r :
  rs !! i = Some r → ∃ others, u_total rs = r ⊕ others ∧
    ∀ r', u_total (<[i := r']> rs) = r' ⊕ others.
Proof.
  intros Hi. pose proof (lookup_lt_Some _ _ _ Hi).
  exists (u_total (take i rs) ⊕ u_total (drop (Datatypes.S i) rs)).
  assert (∀ x, u_total (take i rs ++ x :: drop (Datatypes.S i) rs) =
    x ⊕ (u_total (take i rs) ⊕ u_total (drop (Datatypes.S i) rs))) as Hx.
  { intros x. rewrite u_total_app. cbn. fold (u_total (drop (Datatypes.S i) rs)).
    by rewrite !(assoc u_add), (comm u_add x). }
  split.
  - rewrite <- (take_drop_middle rs i r) at 1 by done. apply Hx.
  - intros r'. rewrite insert_take_drop by done. apply Hx.
Qed.

Lemma cstep_owes c c' : cstep c c' → pool_owes c → pool_owes c'.
Proof.
  intros Hstep (rs & Hp & Hs).
  assert (∀ i p, c.2 !! i = Some p → ∃ r others, rs !! i = Some r ∧ owes p r (λ _, fin) ∧
    Inv (r ⊕ others) c.1 ∧ ∀ r', u_total (<[i := r']> rs) = r' ⊕ others) as Hi.
  { intros i p E. destruct (Forall2_lookup_l _ _ _ _ _ Hp E) as (r & Hr & Ho).
    destruct (u_total_insert rs i r Hr) as (o & Ho1 & Ho2). exists r, o. split_and!; [done..| |done].
    by rewrite Ho1 in Hs. }
  destruct Hstep as [s pool i B f k b s' E Hf|s pool i B f k b s' E Hf|s pool i q k E|s pool i B body k E]; cbn in *;
    destruct (Hi _ _ E) as (r & o & Hr & Ho & HI & Hsum); cbn in Ho.
  - specialize (Ho s o HI). rewrite Hf in Ho. destruct Ho as (r' & HI' & Ho).
    exists (<[i := r']> rs). split; cbn; [by apply Forall2_insert|by rewrite Hsum].
  - destruct Ho as [_ Ho]. specialize (Ho s o _ HI Hf). destruct Ho as (r' & HI' & Ho).
    exists (<[i := r']> rs). split; cbn; [by apply Forall2_insert|by rewrite Hsum].
  - destruct Ho as (r1 & r2 & -> & Hq & Hk). exists (<[i := r2]> rs ++ [r1]). split; cbn.
    + apply Forall2_app; [by apply Forall2_insert|]. constructor; [|constructor].
      eapply owes_bind; [exact Hq|done].
    + rewrite u_total_app, Hsum. cbn. rewrite (comm u_add r1 u_none), (left_id u_none u_add).
      by rewrite <- (assoc u_add), (comm u_add o r1), (assoc u_add), (comm u_add r2 r1).
  - exists (<[i := r]> rs). split; cbn; [|by rewrite Hsum]. apply Forall2_insert; [done|]. by apply owes_loop.
Qed.

Theorem reachable_owes (env : config S → config S → Prop) c c' :
  (∀ c c', env c c' → pool_owes c → pool_owes c') →
  pool_owes c → rtc (λ c c', cstep c c' ∨ env c c') c c' →
  pool_owes c' ∧ ∀ p, cpanics c' p → allowed p.
Proof.
  intros Henv Hc Hr. assert (pool_owes c') as Hc'.
  { induction Hr as [|c c2 c3 [H|H] _ IH]; eauto using cstep_owes. }
  split; [done|]. destruct Hc' as (rs & Hp & Hs).
  intros p [(i & B & f & k & E & Hf)|(i & B & f & k & E & Hf)];
    destruct (Forall2_lookup_l _ _ _ _ _ Hp E) as (r & Hr' & Ho); cbn in Ho;
    destruct (u_total_insert rs i r Hr') as (o & Ho1 & _); rewrite Ho1 in Hs.
  - specialize (Ho _ o Hs). by rewrite Hf in Ho.
  - exact (proj2 Ho _ o _ Hs Hf).
Qed.

Definition finished (pool : list (prog S unit)) : Prop := Forall (λ p, p = Ret tt) pool.

(** What holds when every goroutine has ended. *)
Lemma pool_owes_finished s pool :
  pool_owes (s, pool) → finished pool → ∃ rs, Forall fin rs ∧ Inv (u_total rs) s.
Proof.
  intros (rs & Hp & Hs) Hf. cbn in *. exists rs. split; [|done]. revert Hf. unfold finished. clear Hs.
  induction Hp as [|p r pool rs Hp _ IH]; intros Hf; constructor.
  - apply Forall_cons_1 in Hf as [-> _]. exact Hp.
  - apply IH. by apply Forall_cons_1 in Hf as [_ ?].
Qed.

Lemma pool_owes_intro s pool rs :
  Forall2 (λ p r, owes p r (λ _, fin)) pool rs → Inv (u_total rs) s → pool_owes (s, pool).
Proof. intros. by exists rs. Qed.
End credit.

(** What is held outside the pool can be counted apart. *)
Lemma owes_outside {S M A : Type} `{!Units M} (Inv : M → S → Prop) allowed excused fin x (p : prog S A) r Q :
  owes Inv allowed excused fin p r Q → owes (λ m, Inv (m ⊕ x)) allowed excused fin p r Q.
Proof.
  revert r Q. assert (∀ r o s, Inv (r ⊕ o ⊕ x) s → Inv (r ⊕ (o ⊕ x)) s) as Hx.
  { intros r o s. by rewrite (assoc u_add). }
  induction p as [A a|A C g k IH|A C f k IH|A q IHq k IHk|A C body IHb k IH]; intros r Q H; cbn in *.
  - exact H.
  - intros s o Hs. specialize (H s _ (Hx _ _ _ Hs)). destruct (g s) as [[b s']| | |]; [|done..].
    destruct H as (r' & HI & H). exists r'. split; [by rewrite <- (assoc u_add)|by apply IH].
  - destruct H as [Hw H]. split; [intros s o Hs; exact (Hw s _ (Hx _ _ _ Hs))|].
    intros s o res Hs Ho. specialize (H s _ res (Hx _ _ _ Hs) Ho). destruct res as [[b s']| | |]; [|done..].
    destruct H as (r' & HI & H). exists r'. split; [by rewrite <- (assoc u_add)|by apply IH].
  - destruct H as (r1 & r2 & -> & Hq & Hk). exists r1, r2. split_and!; [done|by apply IHq|by apply IHk].
  - destruct H as (I & HI & H). exists I. split; [done|]. intros r0 Hr. eapply owes_mono; [exact (IHb _ _ (H r0 Hr))|].
    intros [b|] r'; [apply IH|done].
Qed.

Lemma pool_owes_outside {S M : Type} `{!Units M} (Inv : M → S → Prop) allowed excused fin x (c : config S) :
  (∀ m, Inv m c.1 → Inv (m ⊕ x) c.1) → pool_owes Inv allowed excused fin c →
  pool_owes (λ m, Inv (m ⊕ x)) allowed excused fin c.
Proof.
  intros Hx (rs & Hp & HI). exists rs. split; [|by apply Hx].
  eapply Forall2_impl; [exact Hp|]. intros p r. apply owes_outside.
Qed.

Lemma u_total_none {M : Type} `{!Units M} k : u_total (replicate k u_none) = u_none.
Proof.
  induction k as [|k IH]; [done|]. change (u_none ⊕ u_total (replicate k u_none) = u_none).
  by rewrite IH, (left_id u_none u_add).
Qed.

(** A goroutine of a component that counts units of its own: in the whole program these
    are one component of the units, and [extra t] of them are held by the state. *)
Section lifting.
Context {S T M N : Type} `{!Units M, !Units N} (InvS : N → S → Prop) (InvT : M → T → Prop).
Context (allowed allowed' : panic → Prop) (excS : N → S → Prop) (excT : M → T → Prop).
Context (finS : N → Prop) (finT : M → Prop).
Context (get : T → S) (put : S → T → T).

Lemma owes_lift (extra : T → N) (inject : N → M) (project : M → N) {A : Type} (p : prog S A) r m Q :
  (∀ x, allowed x → allowed' x) → (∀ n, finS n → finT (inject n)) →
  (∀ n n', inject (n ⊕ n') = inject n ⊕ inject n') →
  (∀ n a t, InvT (inject n ⊕ a) t → InvS (n ⊕ (project a ⊕ extra t)) (get t)) →
  (∀ n n' a t s, InvT (inject n ⊕ a) t → InvS (n' ⊕ (project a ⊕ extra t)) s → InvT (inject n' ⊕ a) (put s t)) →
  (∀ n m' t, m' = m ∨ m' = u_none → excS n (get t) → excT (inject n ⊕ m') t) →
  owes InvS allowed excS finS p r Q →
  owes InvT allowed' excT finT (lift get put p) (inject r ⊕ m) (λ a r', ∃ n, r' = inject n ⊕ m ∧ Q a n).
Proof.
  intros Ha Hf Hi Hg Hp He.
  cut (∀ A (p : prog S A) r m' Q (R : A → M → Prop), owes InvS allowed excS finS p r Q → m' = m ∨ m' = u_none →
    (∀ a n, Q a n → R a (inject n ⊕ m')) → owes InvT allowed' excT finT (lift get put p) (inject r ⊕ m') R).
  { intros H Ho. eapply H; [exact Ho|by left|]. cbn. eauto. }
  clear A p r Q. intros A p.
  induction p as [A a|A C g k IH|A C f k IH|A q IHq k IHk|A C body IHb k IH]; intros r m' Q R H Hm HR; cbn in *.
  - auto.
  - intros t fr Ht. rewrite <- (assoc u_add) in Ht. specialize (H _ _ (Hg _ _ _ Ht)).
    destruct (g (get t)) as [[b s]| | |]; cbn; auto. destruct H as (r' & H1 & H2).
    exists (inject r' ⊕ m'). split; [|eauto]. rewrite <- (assoc u_add). by eapply Hp.
  - destruct H as [Hw H]. split.
    { intros t fr Ht E%fmap_nil_inv. rewrite <- (assoc u_add) in Ht. eapply He; [done|]. exact (Hw _ _ (Hg _ _ _ Ht) E). }
    intros t fr o Ht (o' & -> & Hin)%list_elem_of_fmap.
    rewrite <- (assoc u_add) in Ht. specialize (H _ _ o' (Hg _ _ _ Ht) Hin).
    destruct o' as [[b s]| | |]; cbn; auto. destruct H as (r' & H1 & H2).
    exists (inject r' ⊕ m'). split; [|eauto]. rewrite <- (assoc u_add). by eapply Hp.
  - destruct H as (r1 & r2 & -> & H1 & H2). exists (inject r1 ⊕ u_none), (inject r2 ⊕ m'). split_and!.
    + rewrite Hi. rewrite (comm u_add (inject r1) u_none), (left_id u_none u_add). by rewrite (assoc u_add).
    + eapply IHq; [exact H1|by right|]. cbn. intros _ n Hn. rewrite (comm u_add (inject n) u_none), (left_id u_none u_add). auto.
    + by eapply IHk.
  - destruct H as (I & HI & H). exists (λ x, ∃ n, I n ∧ x = inject n ⊕ m'). split; [eauto|].
    intros x (n & Hn & ->). eapply IHb; [exact (H n Hn)|done|]. intros [b|] n'; cbn; [|eauto]. intros Hb. by eapply IH.
Qed.

(** A goroutine of a component that only relies on what it knows: [x] can be had twice. *)
Lemma owes_lift_known (InvP : S → Prop) x {A : Type} (p : prog S A) r Q :
  x ⊕ x = x → r = x ⊕ r → finT x → (∀ x, allowed x → allowed' x) → (∀ n t, excT n t) →
  (∀ n t, InvT (x ⊕ n) t → InvP (get t)) →
  (∀ n t s, InvT (x ⊕ n) t → InvP s → InvT (x ⊕ n) (put s t)) →
  prog_ok InvP allowed p Q → owes InvT allowed' excT finT (lift get put p) r (λ a r', r' = r ∧ Q a).
Proof.
  intros Hxx Hr Hfin Ha He Hg Hp.
  assert (∀ r n, r = x ⊕ r → r ⊕ n = x ⊕ (r ⊕ n)) as Hx by (intros r' n E; by rewrite (assoc u_add), <- E).
  cut (∀ A (p : prog S A) (Q : A → Prop) r (R : A → M → Prop), r = x ⊕ r → prog_ok InvP allowed p Q →
    (∀ a, Q a → R a r) → owes InvT allowed' excT finT (lift get put p) r R).
  { intros H Hok. by apply (H A p Q). }
  clear A p r Q Hr. intros A p Q r R.
  revert Q r R. induction p as [A a|A C g k IH|A C f k IH|A q IHq k IHk|A C body IHb k IH]; intros Q r R Hr H HR; cbn in *.
  - auto.
  - intros t fr Ht. rewrite (Hx r fr Hr) in Ht. specialize (H _ (Hg _ _ Ht)).
    destruct (g (get t)) as [[b s]| | |]; cbn; auto. destruct H. exists r. rewrite (Hx r fr Hr). eauto.
  - split; [intros; apply He|].
    intros t fr o Ht (o' & -> & Hin)%list_elem_of_fmap. rewrite (Hx r fr Hr) in Ht. specialize (H _ o' (Hg _ _ Ht) Hin).
    destruct o' as [[b s]| | |]; cbn; auto. destruct H. exists r. rewrite (Hx r fr Hr). eauto.
  - destruct H. exists x, r. split_and!; [done|eauto..].
  - exists (λ r', r' = r). split; [done|]. intros r' ->. eapply IHb; [done|exact H|]. intros [b|]; [|done]. eauto.
Qed.

(** A goroutine of a component that has nothing to do with what is held. *)
Lemma owes_lift_ok (InvP : S → Prop) {A : Type} (p : prog S A) r Q :
  finT u_none → (∀ x, allowed x → allowed' x) → (∀ n t, excT n t) →
  (∀ n t, InvT n t → InvP (get t)) →
  (∀ n t s, InvT n t → InvP s → InvT n (put s t)) →
  prog_ok InvP allowed p Q → owes InvT allowed' excT finT (lift get put p) r (λ a r', r' = r ∧ Q a).
Proof. intros ??? Hg ?. eapply (owes_lift_known InvP u_none); rewrite ?(left_id u_none u_add); eauto. Qed.
End lifting.

(** ** Programs that never wait *)

(** Whatever the sections yield, a blocking operation has an alternative. *)
Fixpoint never_waits {S A : Type} (p : prog S A) : Prop :=
  match p with
  | Ret _ => True
  | Atomic _ k => ∀ b, never_waits (k b)
  | Select f k => (∀ s, f s ≠ []) ∧ ∀ b, never_waits (k b)
  | Fork q k => never_waits q ∧ never_waits k
  | Loop body k => never_waits body ∧ ∀ b, never_waits (k b)
  end.

Lemma never_waits_bind {S A B : Type} (p : prog S A) (f : A → prog S B) :
  never_waits p → (∀ a, never_waits (f a)) → never_waits (p ≫= f).
Proof.
  intros Hp Hf. induction p as [A a|A C g k IH|A C g k IH|A q IHq k IHk|A C body IHb k IH]; cbn in *.
  - apply Hf.
  - intros b. by apply IH.
  - destruct Hp as [? Hp]. split; [done|]. intros b. by apply IH.
  - destruct Hp as [? Hp]. split; [done|]. by apply IHk.
  - destruct Hp as [? Hp]. split; [done|]. intros b. by apply IH.
Qed.

Lemma never_waits_for_each {S A : Type} (l : list A) (body : A → prog S unit) :
  (∀ x, never_waits (body x)) → never_waits (for_each l body).
Proof. intros Hb. induction l as [|x l IH]; [done|]. cbn [for_each]. by apply never_waits_bind. Qed.

Lemma never_waits_lift {S T A : Type} (get : T → S) (put : S → T → T) (p : prog S A) :
  never_waits p → never_waits (lift get put p).
Proof.
  induction p as [A a|A C g k IH|A C g k IH|A q IHq k IHk|A C body IHb k IH]; cbn; [done|auto| | |].
  - intros [H1 H2]. split; [|auto]. intros t E%fmap_nil_inv. by apply (H1 (get t)).
  - intros [H1 H2]. auto.
  - intros [H1 H2]. auto.
Qed.

Create HintDb waits.
#[export] Hint Resolve never_waits_bind never_waits_for_each never_waits_lift : waits.
#[export] Hint Extern 1 (never_waits (Ret _)) => exact I : waits.
#[export] Hint Extern 1 (never_waits (gets _)) => intros ?; exact I : waits.
#[export] Hint Extern 1 (never_waits (modify _)) => intros ?; exact I : waits.
#[export] Hint Extern 1 (never_waits (update _)) => intros ?; exact I : waits.
#[export] Hint Extern 1 (never_waits (checked _)) => intros ?; exact I : waits.
#[export] Hint Extern 1 (never_waits (try_update _)) => intros ?; exact I : waits.

(** [solve_waits] walks a program: binds, loops, matches, then the database. *)
Ltac solve_waits :=
  repeat first
    [ solve [eauto 2 with waits]
    | progress intros
    | apply never_waits_bind
    | apply never_waits_for_each
    | case_match ].

(** They need no excuse. *)
Lemma owes_ready {S M A : Type} `{!Units M} (Inv : M → S → Prop) allowed excused fin (p : prog S A) r Q :
  never_waits p → owes Inv allowed (λ _ _, True) fin p r Q → owes Inv allowed excused fin p r Q.
Proof.
  revert r Q.
  induction p as [A a|A C g k IH|A C f k IH|A q IHq k IHk|A C body IHb k IH]; intros r Q Hw H; cbn in *.
  - exact H.
  - intros s o Hs. specialize (H s o Hs). destruct (g s) as [[b s']| | |]; [|done..].
    destruct H as (r' & HI & H). exists r'. auto.
  - destruct H as [_ H]. destruct Hw as [Hf Hw]. split; [intros s o _ E; by destruct (Hf s)|].
    intros s o res Hs Ho. specialize (H s o res Hs Ho). destruct res as [[b s']| | |]; [|done..].
    destruct H as (r' & HI & H). exists r'. auto.
  - destruct H as (r1 & r2 & -> & Hq & Hk). destruct Hw as [? ?]. exists r1, r2. split_and!; auto.
  - destruct H as (I & HI & H), Hw as [? ?]. exists I. split; [done|]. intros r0 Hr.
    eapply owes_mono; [eapply IHb; [done|exact (H r0 Hr)]|]. intros [b|] r'; [|done]. auto.
Qed.

(** ** Lifting step by step *)

Lemma owes_lift_bind {S T M A B : Type} `{!Units M} (Inv : M → T → Prop) allowed excused fin get put
  (p : prog S A) (f : A → prog S B) r Q R :
  owes Inv allowed excused fin (lift get put p) r Q →
  (∀ a r', Q a r' → owes Inv allowed excused fin (lift get put (f a)) r' R) →
  owes Inv allowed excused fin (lift get put (p ≫= f)) r R.
Proof.
  revert r Q. induction p as [A a|A C g k IH|A C g k IH|A q IHq k IHk|A C body IHb k IH]; intros r Q H HQ; cbn in *.
  - by apply HQ.
  - intros t o Ht. specialize (H t o Ht). destruct (g (get t)) as [[b s]| | |]; cbn in *; [|done..].
    destruct H as (r' & HI & H). exists r'. split; [done|]. by eapply IH.
  - destruct H as [Hw H]. split; [exact Hw|]. intros t o res Ht Ho. specialize (H t o res Ht Ho).
    destruct res as [[b t']| | |]; [|done..]. destruct H as (r' & HI & H). exists r'. split; [done|]. by eapply IH.
  - destruct H as (r1 & r2 & -> & Hq & Hk). exists r1, r2. split_and!; [done..|]. by eapply IHk.
  - destruct H as (I & HI & H). exists I. split; [done|]. intros r0 Hr. eapply owes_mono; [exact (H r0 Hr)|].
    intros [b|] r'; [|done]. intros Hb. by eapply IH.
Qed.

(** A component of a component. *)
Lemma owes_lift_lift {S T U M A : Type} `{!Units M} (Inv : M → U → Prop) allowed excused fin
  (get1 : T → S) (put1 : S → T → T) (get2 : U → T) (put2 : T → U → U) (p : prog S A) r Q :
  owes Inv allowed excused fin (lift (λ u, get1 (get2 u)) (λ s u, put2 (put1 s (get2 u)) u) p) r Q →
  owes Inv allowed excused fin (lift get2 put2 (lift get1 put1 p)) r Q.
Proof.
  revert r Q. induction p as [A a|A C g k IH|A C g k IH|A q IHq k IHk|A C body IHb k IH]; intros r Q H; cbn in *.
  - exact H.
  - intros u o Hu. specialize (H u o Hu). destruct (g (get1 (get2 u))) as [[b s]| | |]; cbn in *; [|done..].
    destruct H as (r' & HI & H). exists r'. auto.
  - assert (∀ u, (λ o, '(b, s) ← o; Ok (b, put2 s u)) <$> ((λ o, '(b, s) ← o; Ok (b, put1 s (get2 u))) <$> g (get1 (get2 u))) =
      ((λ o, '(b, s) ← o; Ok (b, put2 (put1 s (get2 u)) u)) <$> g (get1 (get2 u)) : list (outcome unit (C * U)))) as E.
    { intros u. rewrite <- list_fmap_compose. apply list_fmap_ext. by intros i [[b s]| | |] _. }
    destruct H as [Hw H]. split; [intros u o Hu; rewrite E; exact (Hw u o Hu)|].
    intros u o res Hu. rewrite E. intros Ho. specialize (H u o res Hu Ho).
    destruct res as [[b u']| | |]; [|done..]. destruct H as (r' & HI & H). exists r'. auto.
  - destruct H as (r1 & r2 & -> & Hq & Hk). exists r1, r2. split_and!; auto.
  - destruct H as (I & HI & H). exists I. split; [done|]. intros r0 Hr. eapply owes_mono; [exact (IHb _ _ (H r0 Hr))|].
    intros [b|] r'; [apply IH|done].
Qed.

Lemma owes_excuse {S M A : Type} `{!Units M} (Inv : M → S → Prop) allowed (exc exc' : M → S → Prop) fin (p : prog S A) r Q :
  (∀ r s, exc r s → exc' r s) → owes Inv allowed exc fin p r Q → owes Inv allowed exc' fin p r Q.
Proof.
  intros He. revert r Q. induction p as [A a|A C g k IH|A C f k IH|A q IHq k IHk|A C body IHb k IH]; intros r Q H; cbn in *.
  - exact H.
  - intros s o Hs. specialize (H s o Hs). destruct (g s) as [[b s']| | |]; [|done..].
    destruct H as (r' & HI & H). exists r'. auto.
  - destruct H as [Hw H]. split; [eauto|]. intros s o res Hs Ho. specialize (H s o res Hs Ho).
    destruct res as [[b s']| | |]; [|done..]. destruct H as (r' & HI & H). exists r'. auto.
  - destruct H as (r1 & r2 & -> & Hq & Hk). exists r1, r2. split_and!; auto.
  - destruct H as (I & HI & H). exists I. split; [done|]. intros r0 Hr. eapply owes_mono; [exact (IHb _ _ (H r0 Hr))|].
    intros [b|] r'; [apply IH|done].
Qed.

(** One unit when a goroutine's hash [x] is the one looked at. *)
Definition one_if (h x : bytes) : nat := if decide (x = h) then 1 else 0.
