(* ===== verification/Progress.v ===== *)
(** * How runs can end

    A program whose loops can be left when it is told to stop can be brought to its end
    from everywhere: [quits] says of a goroutine that each of its loops has a way out of
    the next turn, whatever its sections yield, and [owes_exits] and [led_exits] derive, by
    choosing these ways out, a continuation of the run after which each goroutine has ended
    or waits where it is excused, or one has panicked.  [led] is for a main goroutine that
    waits elsewhere, and that need not keep the invariant at its end. *)

From Stdlib Require Import FunctionalExtensionality.
From S2P Require Import Prelude Conc Credit.

Lemma prog_bind_ret {S A : Type} (p : prog S A) : p ≫= Ret = p.
Proof.
  induction p as [A a|A C g k IH|A C g k IH|A q _ k IH|A C body _ k IH]; cbn; f_equal;
    first [done | by apply functional_extensionality; intros b; apply IH | exact IH].
Qed.

(** ** Programs that can leave their loops *)

Section quitting.
Context {S : Type} (stopped : S → Prop).

(** In the states that are [stopped], there is a way to an end that [Q] allows without
    a second turn of any loop, whatever the sections yield; a goroutine may have to wait. *)
Fixpoint can_quit {A : Type} (p : prog S A) (Q : A → Prop) : Prop :=
  match p with
  | Ret a => Q a
  | Atomic f k => ∀ s b s', stopped s → f s = Ok (b, s') → can_quit (k b) Q
  | Select f k => ∀ s, stopped s →
      f s = [] ∨ ∃ o, o ∈ f s ∧ match o with Ok (b, _) => can_quit (k b) Q | _ => True end
  | Fork q k => can_quit q (λ _, True) ∧ can_quit k Q
  | Loop body k => can_quit body (λ r, match r with Some b => can_quit (k b) Q | None => False end)
  end.

(** Every loop can be left. *)
Fixpoint quits {A : Type} (p : prog S A) : Prop :=
  match p with
  | Ret _ => True
  | Atomic _ k => ∀ b, quits (k b)
  | Select _ k => ∀ b, quits (k b)
  | Fork q k => quits q ∧ quits k
  | Loop body k => can_quit body (λ r, match r with Some _ => True | None => False end) ∧ quits body ∧ ∀ b, quits (k b)
  end.

Lemma can_quit_mono {A} (p : prog S A) (Q R : A → Prop) :
  can_quit p Q → (∀ a, Q a → R a) → can_quit p R.
Proof.
  revert Q R. induction p as [A a|A C g k IH|A C g k IH|A q IHq k IHk|A C body IHb k IH]; intros Q R H HQ; cbn in *.
  - auto.
  - intros s b s' Hs E. eapply IH; [exact (H s b s' Hs E)|exact HQ].
  - intros s Hs. destruct (H s Hs) as [?|(o & Ho & H')]; [by left|]. right. exists o. split; [done|].
    destruct o as [[b s']| | |]; [|done..]. by eapply IH.
  - destruct H as [Hq Hk]. split; [done|]. by eapply IHk.
  - eapply IHb; [exact H|]. intros [b|]; [|done]. intros Hb. by eapply IH.
Qed.

Lemma quits_can_quit {A} (p : prog S A) : quits p → can_quit p (λ _, True).
Proof.
  induction p as [A a|A C g k IH|A C g k IH|A q IHq k IHk|A C body IHb k IH]; cbn; intros H.
  - done.
  - intros s b s' _ _. by apply IH.
  - intros s _. destruct (g s) as [|o l]; [by left|right]. exists o. split; [apply list_elem_of_here|].
    destruct o as [[b s']| | |]; [|done..]. by apply IH.
  - destruct H. auto.
  - destruct H as (H & _ & Hk). eapply can_quit_mono; [exact H|]. intros [b|]; [|done]. auto.
Qed.

Lemma can_quit_bind {A B} (p : prog S A) (f : A → prog S B) Q R :
  can_quit p Q → (∀ a, Q a → can_quit (f a) R) → can_quit (p ≫= f) R.
Proof.
  revert Q. induction p as [A a|A C g k IH|A C g k IH|A q IHq k IHk|A C body IHb k IH]; intros Q H HQ; cbn in *.
  - auto.
  - intros s b s' Hs E. eapply IH; [exact (H s b s' Hs E)|exact HQ].
  - intros s Hs. destruct (H s Hs) as [?|(o & Ho & H')]; [by left|]. right. exists o. split; [done|].
    destruct o as [[b s']| | |]; [|done..]. by eapply IH.
  - destruct H as [Hq Hk]. split; [done|]. by eapply IHk.
  - eapply can_quit_mono; [exact H|]. intros [b|]; [|done]. intros Hb. by eapply IH.
Qed.

Lemma quits_bind {A B} (p : prog S A) (f : A → prog S B) :
  quits p → (∀ a, quits (f a)) → quits (p ≫= f).
Proof.
  intros Hp Hf. induction p as [A a|A C g k IH|A C g k IH|A q IHq k IHk|A C body IHb k IH]; cbn in *.
  - apply Hf.
  - intros b. by apply IH.
  - intros b. by apply IH.
  - destruct Hp as [? Hp]. split; [done|]. by apply IHk.
  - destruct Hp as (? & ? & Hp). split_and!; [done..|]. intros b. by apply IH.
Qed.

Lemma quits_for_each {A} (l : list A) (body : A → prog S unit) : (∀ x, quits (body x)) → quits (for_each l body).
Proof. intros Hb. induction l as [|x l IH]; [done|]. cbn [for_each]. by apply quits_bind. Qed.

Lemma quits_forever {A} (body : prog S (option A)) :
  can_quit body (λ r, match r with Some _ => True | None => False end) → quits body → quits (forever body).
Proof. done. Qed.

Lemma cstep_quits (c c' : config S) : cstep c c' → Forall quits c.2 → Forall quits c'.2.
Proof.
  intros Hstep Hp. assert (∀ i p, c.2 !! i = Some p → quits p) as Hi.
  { intros i p E. rewrite Forall_forall in Hp. apply Hp. by eapply list_elem_of_lookup_2. }
  destruct Hstep as [s pool i B f k b s' E Hf|s pool i B f k b s' E Hf|s pool i q k E|s pool i B body k E];
    cbn in *; specialize (Hi _ _ E); cbn in Hi.
  - by apply Forall_insert.
  - by apply Forall_insert.
  - destruct Hi as [Hq Hk]. apply Forall_app. split; [by apply Forall_insert|]. constructor; [|constructor].
    by apply quits_bind.
  - apply Forall_insert; [done|]. destruct Hi as (Hc & Hb & Hk). apply quits_bind; [done|]. by intros [b|]; cbn.
Qed.

Lemma rtc_quits (env : config S → config S → Prop) c c' :
  (∀ c c', env c c' → c'.2 = c.2) → rtc (λ c c', cstep c c' ∨ env c c') c c' → Forall quits c.2 → Forall quits c'.2.
Proof.
  intros Henv. induction 1 as [|c c1 c2 [Hs|Hs] _ IH]; [done|by eauto using cstep_quits|].
  intros H. apply IH. by rewrite (Henv _ _ Hs).
Qed.
End quitting.

Lemma can_quit_lift {S T A : Type} (stopped : S → Prop) (stopped' : T → Prop) (get : T → S) (put : S → T → T) (p : prog S A) Q :
  (∀ t, stopped' t → stopped (get t)) → can_quit stopped p Q → can_quit stopped' (lift get put p) Q.
Proof.
  intros Hg. revert Q. induction p as [A a|A C g k IH|A C g k IH|A q IHq k IHk|A C body IHb k IH]; intros Q H; cbn in *.
  - done.
  - intros t b t' Ht E. destruct (g (get t)) as [[c s]| | |] eqn:Eg; try done. injection E as -> <-. eauto.
  - intros t Ht. destruct (H (get t) (Hg t Ht)) as [E|(o & Ho & H')]; [left; by rewrite E|right].
    eexists. split; [by apply list_elem_of_fmap_2|]. destruct o as [[b s]| | |]; cbn; auto.
  - destruct H. auto.
  - eapply can_quit_mono; [by apply IHb|]. intros [b|]; [|done]. apply IH.
Qed.

Lemma quits_lift {S T A : Type} (stopped : S → Prop) (stopped' : T → Prop) (get : T → S) (put : S → T → T) (p : prog S A) :
  (∀ t, stopped' t → stopped (get t)) → quits stopped p → quits stopped' (lift get put p).
Proof.
  intros Hg. induction p as [A a|A C g k IH|A C g k IH|A q IHq k IHk|A C body IHb k IH]; cbn; [done|auto..| |].
  - intros []. auto.
  - intros (H & ? & ?). split_and!; auto. by eapply can_quit_lift.
Qed.

Lemma quits_lift_any {S T A : Type} (stopped : T → Prop) (get : T → S) (put : S → T → T) (p : prog S A) :
  quits (λ _, True) p → quits stopped (lift get put p).
Proof. by apply quits_lift. Qed.

Create HintDb quits.
#[export] Hint Resolve quits_bind quits_for_each quits_lift_any : quits.
#[export] Hint Extern 1 (quits _ (Ret _)) => exact I : quits.
#[export] Hint Extern 1 (quits _ (gets _)) => intros ?; exact I : quits.
#[export] Hint Extern 1 (quits _ (modify _)) => intros ?; exact I : quits.
#[export] Hint Extern 1 (quits _ (update _)) => intros ?; exact I : quits.
#[export] Hint Extern 1 (quits _ (checked _)) => intros ?; exact I : quits.
#[export] Hint Extern 1 (quits _ (try_update _)) => intros ?; exact I : quits.
#[export] Hint Extern 1 (quits _ (Select _ Ret)) => intros ?; exact I : quits.
#[export] Hint Extern 1 (quits _ (Atomic _ Ret)) => intros ?; exact I : quits.
#[export] Hint Extern 1 (quits _ (go _)) => split; [|exact I] : quits.

(** [solve_quits] walks a program without loops of its own: binds, matches, what it starts,
    then the database. *)
Ltac solve_quits :=
  repeat first
    [ solve [eauto 2 with quits]
    | progress intros
    | apply quits_bind
    | apply quits_for_each
    | apply quits_lift_any
    | match goal with |- quits _ (go _) => split; [|exact I] end
    | case_match ].

(** ** What the goroutines of a pool do *)

Section progress.
Context {S M : Type} `{!Units M} (Inv : M → S → Prop) (allowed : panic → Prop).
Context (excused : M → S → Prop) (fin : M → Prop).

(** A goroutine that ended, or that waits. *)
Definition rests (s : S) (p : prog S unit) (r : M) : Prop := (p = Ret tt ∧ fin r) ∨ excused r s.
End progress.

(** ** One goroutine that gets through

    The main goroutine of a program ends whatever the others do, as long as they wait only
    where it does not depend on them.  [mexcused]: where the main goroutine may wait;
    [ending p]: what is left of it after its last section, which need not keep the
    invariant. *)

Section main.
Context {S M : Type} `{!Units M} (Inv : M → S → Prop) (allowed : panic → Prop).
Context (excused : M → S → Prop) (fin : M → Prop) (mexcused : M → S → Prop).

Definition never {A : Type} (_ : prog S A) : Prop := False.

Fixpoint leads {A : Type} (ending : prog S A → Prop) (p : prog S A) (r : M) (Q : A → M → Prop) : Prop :=
  match p with
  | Ret a => Q a r
  | Atomic f k => ∀ s others, Inv (r ⊕ others) s →
      match f s with
      | Ok (b, s') => ending (k b) ∨ ∃ r', Inv (r' ⊕ others) s' ∧ leads ending (k b) r' Q
      | Panic p => allowed p
      | _ => False
      end
  | Select f k =>
      (∀ s others, Inv (r ⊕ others) s → f s = [] → mexcused r s) ∧
      ∀ s others o, Inv (r ⊕ others) s → o ∈ f s →
        match o with
        | Ok (b, s') => ending (k b) ∨ ∃ r', Inv (r' ⊕ others) s' ∧ leads ending (k b) r' Q
        | Panic p => allowed p
        | _ => False
        end
  | Fork q k => ∃ r1 r2, r = r1 ⊕ r2 ∧ owes Inv allowed excused fin q r1 (λ _, fin) ∧ leads ending k r2 Q
  | Loop body k => ∃ I : M → Prop, I r ∧ ∀ r, I r →
      leads never body r (λ res r', match res with Some b => leads ending (k b) r' Q | None => I r' end)
  end.

Lemma leads_mono_end {A} (ending : prog S A → Prop) (p : prog S A) r (Q R : A → M → Prop) :
  leads ending p r Q → (∀ a r', Q a r' → R a r') → leads ending p r R.
Proof.
  revert ending r Q R. induction p as [A a|A C g k IH|A C h k IH|A q IHq k IHk|A C body IHb k IH]; intros e r Q R H HQ; cbn in *.
  - auto.
  - intros s o Hs. specialize (H s o Hs). destruct (g s) as [[b s']| | |]; [|done..].
    destruct H as [H|(r' & HI & H)]; [by left|]. right. exists r'. split; [done|]. by eapply IH.
  - destruct H as [Hw H]. split; [done|]. intros s o res Hs Ho. specialize (H s o res Hs Ho).
    destruct res as [[b s']| | |]; [|done..]. destruct H as [H|(r' & HI & H)]; [by left|].
    right. exists r'. split; [done|]. by eapply IH.
  - destruct H as (r1 & r2 & -> & Hq & Hk). exists r1, r2. split_and!; [done..|]. by eapply IHk.
  - destruct H as (I & HI & H). exists I. split; [done|]. intros r0 Hr. eapply IHb; [exact (H r0 Hr)|].
    intros [b|] r'; [|done]. intros Hb. by eapply IH.
Qed.

Lemma leads_bind_end {A B} (ending : prog S A → Prop) (ending' : prog S B → Prop) (p : prog S A) (f : A → prog S B) r Q R :
  (∀ q, ending q → ending' (q ≫= f)) →
  leads ending p r Q → (∀ a r', Q a r' → leads ending' (f a) r' R) → leads ending' (p ≫= f) r R.
Proof.
  intros He. revert r Q. induction p as [A a|A C g k IH|A C h k IH|A q IHq k IHk|A C body IHb k IH]; intros r Q H HQ; cbn in *.
  - by apply HQ.
  - intros s o Hs. specialize (H s o Hs). destruct (g s) as [[b s']| | |]; [|done..].
    destruct H as [H|(r' & HI & H)]; [left; by apply He|]. right. exists r'. split; [done|]. by eapply IH.
  - destruct H as [Hw H]. split; [done|]. intros s o res Hs Ho. specialize (H s o res Hs Ho).
    destruct res as [[b s']| | |]; [|done..]. destruct H as [H|(r' & HI & H)]; [left; by apply He|].
    right. exists r'. split; [done|]. by eapply IH.
  - destruct H as (r1 & r2 & -> & Hq & Hk). exists r1, r2. split_and!; [done..|]. by eapply IHk.
  - destruct H as (I & HI & H). exists I. split; [done|]. intros r0 Hr. eapply leads_mono_end; [exact (H r0 Hr)|].
    intros [b|] r'; [|done]. intros Hb. by eapply IH.
Qed.

Lemma leads_bind {A B} (ending : prog S B → Prop) (p : prog S A) (f : A → prog S B) r Q R :
  leads never p r Q → (∀ a r', Q a r' → leads ending (f a) r' R) → leads ending (p ≫= f) r R.
Proof. by apply leads_bind_end. Qed.

(** A turn of a loop. *)
Lemma leads_loop {A B} (ending : prog S A → Prop) (body : prog S (option B)) (k : B → prog S A) r Q :
  leads ending (Loop body k) r Q → leads ending (body ≫= again body k) r Q.
Proof.
  intros (I & HI & H). eapply leads_bind; [exact (H r HI)|]. intros [b|] r'; [done|]. intros Hr. by exists I.
Qed.

Lemma leads_forever {A} (ending : prog S A → Prop) (I : M → Prop) (body : prog S (option A)) r Q :
  I r → (∀ r, I r → leads never body r (λ res r', match res with Some a => Q a r' | None => I r' end)) →
  leads ending (forever body) r Q.
Proof. intros HI H. by exists I. Qed.

Lemma leads_owes {A} exc (p : prog S A) r Q :
  (∀ r s, exc r s → mexcused r s) → (∀ r s, exc r s → excused r s) →
  owes Inv allowed exc fin p r Q → leads never p r Q.
Proof.
  intros H1 H2. revert r Q. induction p as [A a|A C g k IH|A C f k IH|A q IHq k IHk|A C body IHb k IH]; intros r Q H; cbn in *.
  - exact H.
  - intros s o Hs. specialize (H s o Hs). destruct (g s) as [[b s']| | |]; [|done..].
    destruct H as (r' & HI & H). right. exists r'. auto.
  - destruct H as [Hw H]. split; [eauto|]. intros s o res Hs Ho. specialize (H s o res Hs Ho).
    destruct res as [[b s']| | |]; [|done..]. destruct H as (r' & HI & H). right. exists r'. auto.
  - destruct H as (r1 & r2 & -> & Hq & Hk). exists r1, r2. split_and!; [done| |by apply IHk].
    by eapply owes_excuse.
  - destruct H as (I & HI & H). exists I. split; [done|]. intros r0 Hr. eapply leads_mono_end; [exact (IHb _ _ (H r0 Hr))|].
    intros [b|] r'; [|done]. apply IH.
Qed.

(** What the main goroutine holds when it ends with the invariant. *)
Context (ending : prog S unit → Prop) (ending_ret : ∀ p, ending p → p = Ret tt) (Qm : M → Prop).

(** The main goroutine comes first. *)
Definition main_ended (c : config S) : Prop := c.2 !! 0%nat = Some (Ret tt).

Definition led (c : config S) : Prop :=
  ∃ p r rest rs, c.2 = p :: rest ∧ leads ending p r (λ _, Qm) ∧
    Forall2 (λ p r, owes Inv allowed excused fin p r (λ _, fin)) rest rs ∧ Inv (r ⊕ u_total rs) c.1.

Lemma cstep_main_ended (c c' : config S) : cstep c c' → main_ended c → main_ended c'.
Proof.
  unfold main_ended. intros Hstep H.
  destruct Hstep as [s [|x pool] [|i] B f k b s' E _|s [|x pool] [|i] B f k b s' E _|s [|x pool] [|i] q k E|s [|x pool] [|i] B body k E];
    cbn in *; congruence.
Qed.

(** Without an [ending] it does not end in any other way. *)
Definition broke_off (c : config S) : Prop := main_ended c ∧ ∃ p, ending p.

Lemma cstep_led (c c' : config S) : cstep c c' → led c → led c' ∨ broke_off c'.
Proof.
  intros Hstep (p & r & rest & rs & Hc & Hp & Hrest & HI).
  destruct c as [s0 pool0]. cbn in Hc, HI. subst pool0.
  assert (∀ i q, rest !! i = Some q → ∃ ri o, rs !! i = Some ri ∧ owes Inv allowed excused fin q ri (λ _, fin) ∧
    Inv (ri ⊕ (r ⊕ o)) s0 ∧ ∀ r', u_total (<[i := r']> rs) = r' ⊕ o) as Hi.
  { intros i q E. destruct (Forall2_lookup_l _ _ _ _ _ Hrest E) as (ri & Hr & Ho).
    destruct (u_total_insert rs i ri Hr) as (o & Ho1 & Ho2). exists ri, o. split_and!; [done..| |done].
    by rewrite Ho1, (assoc u_add), (comm u_add r), <- (assoc u_add) in HI. }
  assert (∀ s' r', Inv (r' ⊕ u_total rs) s' → ∀ q, leads ending q r' (λ _, Qm) → led (s', q :: rest)) as Hmain.
  { intros s' r' HI' q Hq. by exists q, r', rest, rs. }
  inversion Hstep as [s pool [|i] B f k b s' E Hf|s pool [|i] B f k b s' E Hf|s pool [|i] q k E|s pool [|i] B body k E]; subst; cbn in E.
  - injection E as ->. cbn in Hp. specialize (Hp _ _ HI). rewrite Hf in Hp. destruct Hp as [He|(r' & HI' & Hp)].
    + right. split; [unfold main_ended; cbn; by rewrite (ending_ret _ He)|eauto].
    + left. by eapply Hmain.
  - destruct (Hi _ _ E) as (ri & o & Hr & Ho & HI' & Hsum). cbn in Ho. specialize (Ho _ _ HI'). rewrite Hf in Ho.
    destruct Ho as (r' & HI'' & Ho). left. exists p, r, (<[i := k b]> rest), (<[i := r']> rs).
    split_and!; [done..|by apply Forall2_insert|]. cbn. by rewrite Hsum, (assoc u_add), (comm u_add r), <- (assoc u_add).
  - injection E as ->. cbn in Hp. destruct Hp as [_ Hp]. specialize (Hp _ _ _ HI Hf). destruct Hp as [He|(r' & HI' & Hp)].
    + right. split; [unfold main_ended; cbn; by rewrite (ending_ret _ He)|eauto].
    + left. by eapply Hmain.
  - destruct (Hi _ _ E) as (ri & o & Hr & Ho & HI' & Hsum). cbn in Ho. destruct Ho as [_ Ho].
    specialize (Ho _ _ _ HI' Hf). destruct Ho as (r' & HI'' & Ho). left. exists p, r, (<[i := k b]> rest), (<[i := r']> rs).
    split_and!; [done..|by apply Forall2_insert|]. cbn. by rewrite Hsum, (assoc u_add), (comm u_add r), <- (assoc u_add).
  - injection E as ->. cbn in Hp. destruct Hp as (r1 & r2 & -> & Hq & Hk). left.
    exists k, r2, (rest ++ [q ≫= Ret]), (rs ++ [r1]). split_and!; [done..| |].
    + apply Forall2_app; [done|]. constructor; [|constructor]. eapply owes_bind; [exact Hq|done].
    + cbn. rewrite u_total_app. cbn. rewrite (comm u_add r1 u_none), (left_id u_none u_add).
      by rewrite (comm u_add _ r1), (assoc u_add), (comm u_add r2 r1).
  - destruct (Hi _ _ E) as (ri & o & Hr & Ho & HI' & Hsum). cbn in Ho. destruct Ho as (r1 & r2 & -> & Hq & Hk). left.
    exists p, r, (<[i := k]> rest ++ [q ≫= Ret]), (<[i := r2]> rs ++ [r1]). split_and!; [done..| |].
    + apply Forall2_app; [by apply Forall2_insert|]. constructor; [|constructor]. eapply owes_bind; [exact Hq|done].
    + cbn. rewrite u_total_app, Hsum. cbn. rewrite (comm u_add r1 u_none), (left_id u_none u_add).
      rewrite <- (assoc u_add) in HI'.
      replace (r ⊕ (r2 ⊕ o ⊕ r1)) with (r1 ⊕ (r2 ⊕ (r ⊕ o))); [done|].
      rewrite (comm u_add (r2 ⊕ o)), !(assoc u_add). f_equal. rewrite (comm u_add r), <- !(assoc u_add). f_equal. apply (comm u_add).
  - injection E as ->. left. by eapply Hmain, leads_loop.
  - destruct (Hi _ _ E) as (ri & o & Hr & Ho & HI' & Hsum). left.
    exists p, r, (<[i := body ≫= again body k]> rest), (<[i := ri]> rs).
    split_and!; [done..|by apply Forall2_insert; [|apply owes_loop]|].
    cbn. by rewrite Hsum, (assoc u_add), (comm u_add r), <- (assoc u_add).
Qed.

(** The main goroutine has ended. *)
Lemma led_ended (c : config S) : led c → main_ended c → ∃ r rs, Qm r ∧ Inv (r ⊕ u_total rs) c.1.
Proof.
  destruct c as [s pool]. unfold main_ended. intros (p & r & rest & rs & Hc & Hp & _ & HI) He. cbn in *. subst pool.
  injection He as ->. by exists r, rs.
Qed.

Lemma led_panics (c : config S) x : led c → cpanics c x → allowed x.
Proof.
  destruct c as [s pool]. intros (p & r & rest & rs & Hc & Hp & Hrest & HI). cbn in Hc, HI. subst pool.
  assert (∀ i q, rest !! i = Some q → ∃ ri o, owes Inv allowed excused fin q ri (λ _, fin) ∧ Inv (ri ⊕ o) s) as Hi.
  { intros i q E. destruct (Forall2_lookup_l _ _ _ _ _ Hrest E) as (ri & Hr & Ho).
    destruct (u_total_insert rs i ri Hr) as (o & Ho1 & _). exists ri, (r ⊕ o). split; [done|].
    by rewrite Ho1, (assoc u_add), (comm u_add r), <- (assoc u_add) in HI. }
  intros [([|i] & B & f & k & E & Hf)|([|i] & B & f & k & E & Hf)]; cbn in E.
  - injection E as ->. specialize (Hp s _ HI). cbn in Hf. by rewrite Hf in Hp.
  - destruct (Hi _ _ E) as (ri & o & Ho & HI'). specialize (Ho s _ HI'). cbn in Hf. by rewrite Hf in Ho.
  - injection E as ->. destruct Hp as [_ Hp]. exact (Hp s _ _ HI Hf).
  - destruct (Hi _ _ E) as (ri & o & Ho & HI'). destruct Ho as [_ Ho]. exact (Ho s _ _ HI' Hf).
Qed.

(** What holds of every reachable configuration whose main goroutine has not ended. *)
Lemma reachable_led (env : config S → config S → Prop) c c' :
  (∀ c c', env c c' → c'.2 = c.2 ∧ ∀ m, Inv m c.1 → Inv m c'.1) →
  led c → rtc (λ c c', cstep c c' ∨ env c c') c c' → led c' ∨ broke_off c'.
Proof.
  intros Henv Hc Hr. assert (led c ∨ broke_off c) as H by (by left). clear Hc.
  induction Hr as [|c c2 c3 Hs _ IH]; [done|]. apply IH.
  destruct H as [H|H], Hs as [Hs|Hs].
  - by eapply cstep_led.
  - left. destruct (Henv _ _ Hs) as [E HI]. destruct H as (p & r & rest & rs & Hc & Hp & Hrest & H).
    exists p, r, rest, rs. rewrite E. split_and!; auto.
  - right. destruct H as [H ?]. split; [by eapply cstep_main_ended|done].
  - right. destruct (Henv _ _ Hs) as [E _]. unfold broke_off, main_ended in *. by rewrite E.
Qed.
End main.

(** ** Leaving all loops

    The runs that leave each loop in its next turn: in such a run a goroutine goes through
    its sections once, so it can be added to any pool that can be brought to rest. *)

Section exits.
Context {S M : Type} `{!Units M} (Inv : M → S → Prop) (allowed : panic → Prop).
Context (excused : M → S → Prop) (fin : M → Prop) (mexcused : M → S → Prop).
Context (ending : prog S unit → Prop) (ending_ret : ∀ p, ending p → p = Ret tt) (Qm : M → Prop).
Context (stopped : S → Prop) (Inv_stopped : ∀ m s, Inv m s → stopped s).

(** A goroutine, whether it is the main one, and what it holds. *)
Record thread := mkThread { th_main : bool; th_prog : prog S unit; th_units : M }.

Definition held_by (L : list thread) : M := u_total (th_units <$> L).
Definition exc (m : bool) : M → S → Prop := if m then mexcused else excused.
Definition end_of (m : bool) : prog S unit → Prop := if m then ending else never.
Definition fins (m : bool) : M → Prop := if m then Qm else fin.

(** It has ended, or it waits where it may. *)
Definition at_rest (s : S) (g : thread) : Prop :=
  (th_prog g = Ret tt ∧ fins (th_main g) (th_units g)) ∨ exc (th_main g) (th_units g) s.

Definition thread_panics (s : S) (g : thread) : Prop :=
  (∃ B (f : S → outcome unit (B * S)) k p, th_prog g = Atomic f k ∧ f s = Panic p) ∨
  (∃ B (f : S → list (outcome unit (B * S))) k p, th_prog g = Select f k ∧ Panic p ∈ f s).

Definition breaks (s : S) (g : thread) : Prop :=
  th_main g = true ∧ ∃ alt s' q, step_thread alt s (th_prog g) = Some (s', [q]) ∧ ending q.

(** What a thread becomes in a section, and what it starts. *)
Definition moves (s : S) (g : thread) (s' : S) (k : prog S unit) (news : list thread) : Prop :=
  (∃ alt, step_thread alt s (th_prog g) = Some (s', k :: (th_prog <$> news))) ∧ Forall (λ g, th_main g = false) news.

(** In every state that the units allow, all are at rest or one of them can do something
    after which it still holds.  [next]: what is chosen to be done. *)
Inductive finishes : list thread → Prop :=
  | finishes_intro L (next : list thread → Prop) :
      (∀ s o, Inv (held_by L ⊕ o) s →
        (∃ g, g ∈ L ∧ thread_panics s g) ∨ (∃ g, g ∈ L ∧ breaks s g) ∨ Forall (at_rest s) L ∨
        ∃ l1 g l2 s' k r' news, L = l1 ++ g :: l2 ∧ moves s g s' k news ∧
          Inv (held_by (l1 ++ mkThread (th_main g) k r' :: l2 ++ news) ⊕ o) s' ∧
          next (l1 ++ mkThread (th_main g) k r' :: l2 ++ news)) →
      (∀ L', next L' → finishes L') → finishes L.

Lemma held_by_app L L' : held_by (L ++ L') = held_by L ⊕ held_by L'.
Proof. unfold held_by. by rewrite fmap_app, u_total_app. Qed.

Lemma held_by_cons g L : held_by (g :: L) = th_units g ⊕ held_by L.
Proof. done. Qed.

Lemma held_by_middle l1 g l2 o : held_by (l1 ++ g :: l2) ⊕ o = held_by (l1 ++ l2) ⊕ (th_units g ⊕ o).
Proof.
  rewrite !held_by_app, held_by_cons, !(assoc u_add). f_equal. rewrite <- !(assoc u_add). f_equal. apply (comm u_add).
Qed.

Lemma u_swap (a b c d : M) : a ⊕ b ⊕ (c ⊕ d) = c ⊕ b ⊕ (a ⊕ d).
Proof.
  rewrite <- (assoc u_add a b), (assoc u_add b c d), (comm u_add b c), (assoc u_add a), (comm u_add a).
  by rewrite <- !(assoc u_add).
Qed.

(** A thread that any pool can take in. *)
Definition welcome (g : thread) : Prop := ∀ l1 l2, finishes (l1 ++ l2) → finishes (l1 ++ g :: l2).

Lemma welcome_step g :
  (∀ s o, Inv (th_units g ⊕ o) s →
     thread_panics s g ∨ breaks s g ∨ at_rest s g ∨
     ∃ s' k r' news, moves s g s' k news ∧ Inv (r' ⊕ held_by news ⊕ o) s' ∧
       ∀ l1 l2, finishes (l1 ++ l2) → finishes (l1 ++ mkThread (th_main g) k r' :: l2 ++ news)) →
  welcome g.
Proof.
  intros Hg l1 l2 HF. remember (l1 ++ l2) as L eqn:E. revert l1 l2 E.
  induction HF as [L next HL Hnext IH]; intros l1 l2 ->.
  apply (finishes_intro _ finishes); [|done]. intros s o HI.
  rewrite held_by_middle in HI. destruct (HL s _ HI) as [(x & Hx & Hp)|[(x & Hx & Hp)|[Hrest|Hmove]]].
  - left. exists x. split; [set_solver|done].
  - right. left. exists x. split; [set_solver|done].
  - rewrite (assoc u_add), (comm u_add (held_by _)), <- (assoc u_add) in HI.
    destruct (Hg s _ HI) as [Hp|[Hp|[Hr|(s' & k & r' & news & Hm & HI' & Hadd)]]].
    + left. exists g. split; [set_solver|done].
    + right. left. exists g. split; [set_solver|done].
    + right. right. left. apply Forall_app in Hrest as [? ?]. apply Forall_app. split; [done|by constructor].
    + right. right. right. exists l1, g, l2, s', k, r', news. split_and!; [done..| |].
      * rewrite held_by_middle. cbn. rewrite app_assoc, held_by_app. by rewrite u_swap.
      * apply Hadd. by apply (finishes_intro _ next).
  - right. right. right. destruct Hmove as (a & x & b & s' & k & r' & news & E & Hm & HI' & Hn).
    apply app_eq_inv in E as [(c & -> & E)|(c & -> & E)].
    + destruct c as [|y c]; cbn in E.
      * subst l2. rewrite app_nil_r. exists (a ++ [g]), x, b, s', k, r', news. rewrite <- !app_assoc.
        split_and!; [done..| |].
        -- cbn. by rewrite held_by_middle.
        -- cbn. by apply (IH _ Hn).
      * injection E as <- ->. exists a, x, (c ++ g :: l2), s', k, r', news. rewrite <- !app_assoc.
        split_and!; [done..| |].
        -- rewrite <- app_assoc in HI'. cbn. rewrite app_comm_cons, app_assoc, held_by_middle. by rewrite <- app_assoc.
        -- cbn. rewrite app_comm_cons, app_assoc. apply (IH _ Hn). by rewrite <- !app_assoc.
    + subst l2. exists (l1 ++ g :: c), x, b, s', k, r', news. rewrite <- !app_assoc in *. cbn.
      split_and!; [done..| |].
      * by rewrite held_by_middle.
      * by apply (IH _ Hn).
Qed.

Lemma breaks_intro s m p alt r s' q :
  end_of m q → step_thread alt s p = Some (s', [q]) → breaks s (mkThread m p r).
Proof. unfold end_of, breaks. destruct m; [|done]. cbn. eauto 10. Qed.

Lemma moves_on s m p r o alt s' k r' :
  step_thread alt s p = Some (s', [k]) → Inv (r' ⊕ o) s' → welcome (mkThread m k r') →
  ∃ s' k r' news, moves s (mkThread m p r) s' k news ∧ Inv (r' ⊕ held_by news ⊕ o) s' ∧
    ∀ l1 l2, finishes (l1 ++ l2) → finishes (l1 ++ mkThread m k r' :: l2 ++ news).
Proof.
  intros Hs HI Hw. exists s', k, r', []. split_and!; [split; [by exists alt|done]| |].
  - unfold held_by. cbn. by rewrite (comm u_add r'), (left_id u_none u_add).
  - intros l1 l2 HF. rewrite app_nil_r. by apply Hw.
Qed.

Lemma welcome_ret m r : fins m r → welcome (mkThread m (Ret tt) r).
Proof. intros Hr. apply welcome_step. intros s o _. right. right. left. by left. Qed.

Abbreviation leads_at m := (leads Inv allowed excused fin (exc m)).

(** A goroutine with a way to an end is welcome where what comes after this end is. *)
Lemma can_quit_welcome {A} (p : prog S A) (e : prog S A → Prop) m r QC QO f :
  can_quit stopped p QC → leads_at m e p r QO → (∀ q, e q → end_of m (q ≫= f)) →
  (∀ a r', QC a → QO a r' → welcome (mkThread m (f a) r')) → welcome (mkThread m (p ≫= f) r).
Proof.
  revert e m r QC QO f. induction p as [A a|A C g k IH|A C g k IH|A q IHq k IHk|A C body IHb k IH];
    intros e m r QC QO f Hc Hl He Hf.
  - by apply Hf.
  - apply welcome_step. cbn [th_units th_prog th_main]. intros s o HI. cbn [leads] in Hl. specialize (Hl s o HI).
    cbn [can_quit] in Hc. specialize (Hc s). destruct (g s) as [[b s']| |x|] eqn:Eg; try done.
    + specialize (Hc b s' (Inv_stopped _ _ HI) eq_refl). destruct Hl as [Hl|(r' & HI' & Hl)].
      * right. left. by apply (breaks_intro _ _ _ 0 _ s' _ (He _ Hl)); cbn; rewrite Eg.
      * right. right. right. apply (moves_on _ _ _ _ _ 0 s' (k b ≫= f) r'); [cbn; by rewrite Eg|done|].
        by eapply IH.
    + left. left. by exists C, g, (λ b, k b ≫= f), x.
  - apply welcome_step. cbn [th_units th_prog th_main]. intros s o HI. cbn [leads] in Hl. destruct Hl as [Hw Hl].
    destruct (Hc s (Inv_stopped _ _ HI)) as [E|(res & Hin & Hres)]; [right; right; left; right; by eapply Hw|].
    specialize (Hl s o res HI Hin). apply list_elem_of_lookup_1 in Hin as [alt Halt].
    destruct res as [[b s']| |x|]; try done.
    + destruct Hl as [Hl|(r' & HI' & Hl)].
      * right. left. by apply (breaks_intro _ _ _ alt _ s' _ (He _ Hl)); cbn; rewrite Halt.
      * right. right. right. apply (moves_on _ _ _ _ _ alt s' (k b ≫= f) r'); [cbn; by rewrite Halt|done|].
        by eapply IH.
    + left. right. exists C, g, (λ b, k b ≫= f), x. split; [done|]. by eapply list_elem_of_lookup_2.
  - apply welcome_step. cbn [th_units th_prog th_main]. intros s o HI. destruct Hc as [Hq Hk].
    destruct Hl as (r1 & r2 & -> & Hlq & Hlk). right. right. right.
    exists s, (k ≫= f), r2, [mkThread false (q ≫= Ret) r1]. split_and!.
    + split; [by exists 0%nat|]. by constructor.
    + unfold held_by. cbn. rewrite (comm u_add r1 u_none), (left_id u_none u_add). by rewrite (comm u_add r2 r1).
    + intros l1 l2 HF. apply (IHk e m r2 QC QO f Hk Hlk He Hf) in HF.
      rewrite app_comm_cons, app_assoc. rewrite <- (app_nil_r (l1 ++ _)) in HF.
      refine (IHq never false r1 _ (λ _, fin) Ret Hq _ _ _ _ _ HF); [|done|].
      * by apply (leads_owes Inv allowed excused fin excused excused).
      * intros [] r' _ Hr'. by apply welcome_ret.
  - apply welcome_step. cbn [th_units th_prog th_main]. intros s o HI. destruct Hl as (I & HI0 & Hl).
    right. right. right. apply (moves_on _ _ _ _ _ 0 s (body ≫= again body (λ b, k b ≫= f)) r); [done|done|].
    refine (IHb never m r _ _ _ Hc (Hl r HI0) _ _); [done|]. intros [b|] r' Hb Hr'; [|done]. cbn [again].
    by eapply IH.
Qed.

(** ** Bringing a run to its end *)

(** Only the first one may be the main one. *)
Definition main_first (L : list thread) : Prop := Forall (λ b, b = false) (tail (th_main <$> L)).

Abbreviation pool_of L := (th_prog <$> (L : list thread)).

Lemma thread_panics_pool s L g : g ∈ L → thread_panics s g → ∃ x, cpanics (s, pool_of L) x.
Proof.
  intros [i Hi]%list_elem_of_lookup_1 [(B & f & k & x & E & Hx)|(B & f & k & x & E & Hx)]; exists x.
  - left. exists i, B, f, k. cbn. by rewrite list_lookup_fmap, Hi, <- E.
  - right. exists i, B, f, k. cbn. by rewrite list_lookup_fmap, Hi, <- E.
Qed.

Lemma breaks_pool s L g :
  main_first L → g ∈ L → breaks s g → ∃ c', cstep (s, pool_of L) c' ∧ main_ended c'.
Proof.
  intros Hm [i Hi]%list_elem_of_lookup_1 (Hg & alt & s' & q & Hs & Hq). apply ending_ret in Hq as ->.
  assert (i = 0)%nat as ->.
  { destruct i as [|i]; [done|]. unfold main_first in Hm. rewrite Forall_lookup in Hm.
    specialize (Hm i (th_main g)). destruct L as [|g0 L]; [done|]. cbn [fmap list_fmap tail lookup list_lookup] in Hi, Hm.
    change (L !! i = Some g) in Hi. rewrite list_lookup_fmap, Hi in Hm. specialize (Hm eq_refl). congruence. }
  eexists. split; [eapply (step_thread_cstep alt s s' _ 0%nat); [by rewrite list_lookup_fmap, Hi|exact Hs]|].
  unfold main_ended. cbn. rewrite app_nil_r. by destruct L.
Qed.

Lemma moves_pool s l1 g l2 s' k r news :
  moves s g s' k news →
  cstep (s, pool_of (l1 ++ g :: l2)) (s', pool_of (l1 ++ mkThread (th_main g) k r :: l2 ++ news)).
Proof.
  intros [[alt Hs] _].
  assert (pool_of (l1 ++ g :: l2) !! length l1 = Some (th_prog g)) as Hi.
  { by rewrite list_lookup_fmap, lookup_app_r, Nat.sub_diag by done. }
  pose proof (step_thread_cstep alt s s' _ _ _ _ _ Hi Hs) as H.
  rewrite !fmap_app, !fmap_cons, fmap_app in *.
  replace (length l1) with (length (pool_of l1)) in H by apply length_fmap.
  rewrite insert_app_r_alt, Nat.sub_diag in H by done. cbn in H. by rewrite <- app_assoc in H.
Qed.

(** The threads that a run starts come after those it started with. *)
Definition extends (L L' : list thread) : Prop := ∃ n, th_main <$> L' = (th_main <$> L) ++ replicate n false.

Lemma extends_moves s g s' k r news l1 l2 :
  moves s g s' k news → extends (l1 ++ g :: l2) (l1 ++ mkThread (th_main g) k r :: l2 ++ news).
Proof.
  intros [_ Hn]. exists (length news). rewrite !fmap_app, !fmap_cons, fmap_app, <- app_assoc. cbn. do 3 f_equal.
  induction Hn as [|x news Hx _ IH]; [done|]. cbn. by rewrite Hx, IH.
Qed.

Lemma extends_refl L : extends L L.
Proof. exists 0%nat. by rewrite app_nil_r. Qed.

Lemma extends_trans L1 L2 L3 : extends L1 L2 → extends L2 L3 → extends L1 L3.
Proof. intros [n E1] [m E2]. exists (n + m)%nat. by rewrite E2, E1, replicate_add, app_assoc. Qed.

Lemma extends_main_first L L' : extends L L' → main_first L → main_first L'.
Proof.
  intros [n E] Hm. unfold main_first in *. rewrite E. destruct (th_main <$> L) as [|b l]; cbn in *.
  - destruct n; [constructor|]. by apply Forall_replicate.
  - apply Forall_app. split; [done|]. by apply Forall_replicate.
Qed.

Lemma finishes_run L s :
  finishes L → main_first L → Inv (held_by L) s →
  ∃ s' L', rtc cstep (s, pool_of L) (s', pool_of L') ∧ extends L L' ∧
    ((∃ x, cpanics (s', pool_of L') x) ∨
     (∃ c', cstep (s', pool_of L') c' ∧ main_ended c' ∧ ∃ g, g ∈ L' ∧ th_main g = true) ∨
     Forall (at_rest s') L' ∧ Inv (held_by L') s').
Proof.
  intros HF. revert s. induction HF as [L next HL _ IH]; intros s Hm HI.
  destruct (HL s u_none) as [(g & Hg & Hp)|[(g & Hg & Hp)|[Hr|Hmove]]].
  - by rewrite (comm u_add), (left_id u_none u_add).
  - exists s, L. split_and!; [constructor|apply extends_refl|]. left. by eapply thread_panics_pool.
  - exists s, L. split_and!; [constructor|apply extends_refl|]. right. left.
    destruct (breaks_pool s L g Hm Hg Hp) as (c' & ? & ?). exists c'. split_and!; [done..|]. exists g. by destruct Hp.
  - exists s, L. split_and!; [constructor|apply extends_refl|]. by right; right.
  - destruct Hmove as (l1 & g & l2 & s1 & k & r' & news & -> & Hmv & HI' & Hn).
    rewrite (comm u_add), (left_id u_none u_add) in HI'. pose proof (extends_moves _ _ _ _ r' _ l1 l2 Hmv) as He.
    destruct (IH _ Hn s1 (extends_main_first _ _ He Hm) HI') as (s' & L' & Hr & He' & Hend).
    exists s', L'. split_and!; [|by eapply extends_trans|done].
    eapply rtc_l; [by apply moves_pool|exact Hr].
Qed.

Lemma finishes_nil : finishes [].
Proof. apply (finishes_intro _ (λ _, False)); [|done]. intros s o _. right. right. by left. Qed.

(** A goroutine whose loops can be left. *)
Lemma quits_welcome m (p : prog S unit) e r :
  quits stopped p → leads_at m e p r (λ _, fins m) → (∀ q, e q → end_of m q) → welcome (mkThread m p r).
Proof.
  intros Hq Hl He. rewrite <- (prog_bind_ret p).
  apply (can_quit_welcome p e m r (λ _, True) (λ _, fins m) Ret (quits_can_quit _ _ Hq) Hl).
  - intros q. rewrite prog_bind_ret. apply He.
  - intros [] r' _ Hr'. by apply welcome_ret.
Qed.

Definition followers (pool : list (prog S unit)) (rs : list M) : list thread := zip_with (mkThread false) pool rs.

Lemma followers_finish pool rs :
  Forall2 (λ p r, owes Inv allowed excused fin p r (λ _, fin)) pool rs → Forall (quits stopped) pool →
  finishes (followers pool rs) ∧ pool_of (followers pool rs) = pool ∧ held_by (followers pool rs) = u_total rs ∧
  Forall (λ b, b = false) (th_main <$> followers pool rs).
Proof.
  induction 1 as [|p r pool rs Hp _ IH]; intros Hq.
  - split_and!; [apply finishes_nil|done|done|constructor].
  - apply Forall_cons_1 in Hq as [Hq Hqs]. destruct (IH Hqs) as (HF & E1 & E2 & E3). split_and!.
    + cbn. apply (quits_welcome false p never r Hq) with (l1 := []); [|done|exact HF].
      by apply (leads_owes Inv allowed excused fin excused excused).
    + cbn. by f_equal.
    + change (r ⊕ held_by (followers pool rs) = r ⊕ u_total rs). by rewrite E2.
    + constructor; [done|exact E3].
Qed.

Lemma at_rest_followers s L :
  Forall (λ b, b = false) (th_main <$> L) → Forall (at_rest s) L → Forall2 (rests excused fin s) (pool_of L) (th_units <$> L).
Proof.
  intros Hm Hr. apply Forall2_fmap, Forall_Forall2_diag. apply Forall_fmap in Hm.
  eapply Forall_impl; [eapply Forall_and; split; [exact Hm|exact Hr]|].
  intros [m p r] [Hf Hg]. cbn in *. subst m. exact Hg.
Qed.

(** A pool whose goroutines can leave their loops can be brought to rest. *)
Theorem owes_exits (c : config S) :
  pool_owes Inv allowed excused fin c → Forall (quits stopped) c.2 →
  ∃ c', rtc cstep c c' ∧
    ((∃ x, cpanics c' x) ∨ ∃ rs, Forall2 (rests excused fin c'.1) c'.2 rs ∧ Inv (u_total rs) c'.1).
Proof.
  destruct c as [s pool]. intros (rs & Hp & HI) Hq. cbn in *.
  destruct (followers_finish pool rs Hp Hq) as (HF & E1 & E2 & E3).
  destruct (finishes_run _ s HF) as (s' & L' & Hr & [n He] & Hend); [|by rewrite E2|].
  { unfold main_first. by destruct (th_main <$> _); [|apply Forall_cons_1 in E3 as [_ ?]]. }
  assert (Forall (λ b, b = false) (th_main <$> L')) as E3'.
  { rewrite He. apply Forall_app. split; [done|by apply Forall_replicate]. }
  rewrite E1 in Hr. exists (s', pool_of L'). split; [done|].
  destruct Hend as [?|[(_ & _ & _ & g & Hg & Hgt)|[Hrest HI']]]; [by left| |right].
  - rewrite Forall_fmap, Forall_forall in E3'. specialize (E3' g Hg). cbn in E3'. congruence.
  - exists (th_units <$> L'). split; [by apply at_rest_followers|exact HI'].
Qed.

(** The same where the first goroutine leads. *)
Theorem led_exits (c : config S) :
  led Inv allowed excused fin mexcused ending Qm c → Forall (quits stopped) c.2 →
  ∃ c', rtc cstep c c' ∧
    (main_ended c' ∨ (∃ x, cpanics c' x) ∨
     ∃ r rs, mexcused r c'.1 ∧ Forall2 (rests excused fin c'.1) (tail c'.2) rs ∧ Inv (r ⊕ u_total rs) c'.1).
Proof.
  destruct c as [s pool]. intros (p & r & rest & rs & Hc & Hl & Hp & HI) Hq. cbn in Hc, HI, Hq. subst pool.
  apply Forall_cons_1 in Hq as [Hqp Hq]. destruct (followers_finish rest rs Hp Hq) as (HF & E1 & E2 & E3).
  apply (quits_welcome true p ending r Hqp Hl (λ q H, H) []) in HF. cbn [app] in HF.
  destruct (finishes_run _ s HF) as (s' & L' & Hr & [n He] & Hend); [done|by rewrite held_by_cons, E2|].
  change (pool_of (?g :: ?l)) with (th_prog g :: pool_of l) in Hr. rewrite E1 in Hr. cbn [th_prog] in Hr.
  destruct Hend as [?|[(c' & Hs & Hc' & _)|[Hrest HI']]].
  - exists (s', pool_of L'). split; [done|]. by right; left.
  - exists c'. split; [by eapply rtc_r|]. by left.
  - exists (s', pool_of L'). split; [done|]. destruct L' as [|[m q x] L']; [done|].
    cbn in He. injection He as -> He. apply Forall_cons_1 in Hrest as [[[Hq' _]|Hw] Hrest]; cbn in *.
    + left. by unfold main_ended; cbn; subst q.
    + right. right. exists x, (th_units <$> L'). split_and!; [done| |done].
      apply at_rest_followers; [|done]. rewrite He. apply Forall_app. split; [done|by apply Forall_replicate].
Qed.
End exits.

Lemma leads_mono {S M A : Type} `{!Units M} (Inv : M → S → Prop) allowed excused fin (mexc mexc' : M → S → Prop) ending
  (p : prog S A) r (Q R : A → M → Prop) :
  (∀ r s, mexc r s → mexc' r s) → (∀ a r', Q a r' → R a r') →
  leads Inv allowed excused fin mexc ending p r Q → leads Inv allowed excused fin mexc' ending p r R.
Proof.
  intros He. revert r Q R. induction p as [A a|A C g k IH|A C f k IH|A q _ k IHk|A C body IHb k IH]; intros r Q R HR H; cbn in *.
  - auto.
  - intros s o Hs. specialize (H s o Hs). destruct (g s) as [[b s']| | |]; [|done..].
    destruct H as [?|(r' & HI & H)]; [by left|]. right. exists r'. split; [done|by eapply IH].
  - destruct H as [Hw H]. split; [eauto|]. intros s o res Hs Ho. specialize (H s o res Hs Ho).
    destruct res as [[b s']| | |]; [|done..]. destruct H as [?|(r' & HI & H)]; [by left|].
    right. exists r'. split; [done|by eapply IH].
  - destruct H as (r1 & r2 & -> & Hq & Hk). exists r1, r2. split_and!; [done..|by eapply IHk].
  - destruct H as (I & HI & H). exists I. split; [done|]. intros r0 Hr. eapply IHb; [|exact (H r0 Hr)].
    intros [b|] r'; [|done]. by eapply IH.
Qed.

(** What is held outside the pool can be counted apart. *)
Lemma leads_outside {S M A : Type} `{!Units M} (Inv : M → S → Prop) allowed excused fin mexcused x ending (p : prog S A) r Q :
  leads Inv allowed excused fin mexcused ending p r Q →
  leads (λ m, Inv (m ⊕ x)) allowed excused fin mexcused ending p r Q.
Proof.
  assert (∀ r o s, Inv (r ⊕ o ⊕ x) s → Inv (r ⊕ (o ⊕ x)) s) as Hx by (intros r' o s; by rewrite (assoc u_add)).
  revert r Q. induction p as [A a|A C g k IH|A C f k IH|A q _ k IHk|A C body IHb k IH]; intros r Q H; cbn in *.
  - exact H.
  - intros s o Hs. specialize (H s _ (Hx _ _ _ Hs)). destruct (g s) as [[b s']| | |]; [|done..].
    destruct H as [?|(r' & HI & H)]; [by left|]. right. exists r'. split; [by rewrite <- (assoc u_add)|by apply IH].
  - destruct H as [Hw H]. split; [intros s o Hs; exact (Hw s _ (Hx _ _ _ Hs))|].
    intros s o res Hs Ho. specialize (H s _ res (Hx _ _ _ Hs) Ho). destruct res as [[b s']| | |]; [|done..].
    destruct H as [?|(r' & HI & H)]; [by left|]. right. exists r'. split; [by rewrite <- (assoc u_add)|by apply IH].
  - destruct H as (r1 & r2 & -> & Hq & Hk). exists r1, r2. split_and!; [done|by apply owes_outside|by apply IHk].
  - destruct H as (I & HI & H). exists I. split; [done|]. intros r0 Hr.
    eapply leads_mono_end; [exact (IHb _ _ _ (H r0 Hr))|]. intros [b|] r'; [apply IH|done].
Qed.

Lemma led_outside {S M : Type} `{!Units M} (Inv : M → S → Prop) allowed excused fin mexcused ending Qm x (c : config S) :
  (∀ m, Inv m c.1 → Inv (m ⊕ x) c.1) → led Inv allowed excused fin mexcused ending Qm c →
  led (λ m, Inv (m ⊕ x)) allowed excused fin mexcused ending Qm c.
Proof.
  intros Hx (p & r & rest & rs & Hc & Hp & Hrest & HI). exists p, r, rest, rs. split_and!; [done| | |by apply Hx].
  - by apply leads_outside.
  - eapply Forall2_impl; [exact Hrest|]. intros q y. apply owes_outside.
Qed.
