(* ===== verification/Accounts.v ===== *)
(** * Several accounts of one program

    A program keeps several invariants over units of different kinds.  [owes] says how it
    ends and when it panics; a second account ([keeps]) need only say what it does to other
    units when its sections succeed.  An account can be moved along a view of the state: to
    a larger state ([owes_view]), to a state of which a part is masked ([owes_blind]), or
    under knowledge that another account provides ([owes_known]). *)

From S2P Require Import Prelude Conc Credit Progress.

(** ** Keeping an invariant *)
Section keeps.
Context {S M : Type} `{!Units M} (Inv : M → S → Prop) (excused : M → S → Prop) (fin : M → Prop).

Fixpoint keeps {A : Type} (p : prog S A) (r : M) (Q : A → M → Prop) : Prop :=
  match p with
  | Ret a => Q a r
  | Atomic f k => ∀ s others, Inv (r ⊕ others) s →
      match f s with
      | Ok (b, s') => ∃ r', Inv (r' ⊕ others) s' ∧ keeps (k b) r' Q
      | _ => True
      end
  | Select f k =>
      (∀ s others, Inv (r ⊕ others) s → f s = [] → excused r s) ∧
      ∀ s others o, Inv (r ⊕ others) s → o ∈ f s →
        match o with
        | Ok (b, s') => ∃ r', Inv (r' ⊕ others) s' ∧ keeps (k b) r' Q
        | _ => True
        end
  | Fork q k => ∃ r1 r2, r = r1 ⊕ r2 ∧ keeps q r1 (λ _, fin) ∧ keeps k r2 Q
  | Loop body k => ∃ I : M → Prop, I r ∧ ∀ r, I r →
      keeps body r (λ res r', match res with Some b => keeps (k b) r' Q | None => I r' end)
  end.

Lemma keeps_mono {A} (p : prog S A) r (Q R : A → M → Prop) :
  keeps p r Q → (∀ a r', Q a r' → R a r') → keeps p r R.
Proof.
  revert r Q R. induction p as [A a|A C g k IH|A C h k IH|A q IHq k IHk|A C body IHb k IH]; intros r Q R H HQ; cbn in *.
  - auto.
  - intros s o Hs. specialize (H s o Hs). destruct (g s) as [[b s']| | |]; [|done..].
    destruct H as (r' & HI & H). exists r'. split; [done|]. by eapply IH.
  - destruct H as [Hw H]. split; [done|]. intros s o res Hs Ho. specialize (H s o res Hs Ho).
    destruct res as [[b s']| | |]; [|done..]. destruct H as (r' & HI & H). exists r'. split; [done|]. by eapply IH.
  - destruct H as (r1 & r2 & -> & Hq & Hk). exists r1, r2. split_and!; [done..|]. by eapply IHk.
  - destruct H as (I & HI & H). exists I. split; [done|]. intros r0 Hr. eapply IHb; [exact (H r0 Hr)|].
    intros [b|] r'; [|done]. intros Hb. by eapply IH.
Qed.

Lemma keeps_owes allowed (exc : M → S → Prop) {A} (p : prog S A) r Q :
  (∀ r s, exc r s → excused r s) → owes Inv allowed exc fin p r Q → keeps p r Q.
Proof.
  intros He. revert r Q. induction p as [A a|A C g k IH|A C f k IH|A q IHq k IHk|A C body IHb k IH]; intros r Q H; cbn in *.
  - exact H.
  - intros s o Hs. specialize (H s o Hs). destruct (g s) as [[b s']| | |]; [|done..].
    destruct H as (r' & HI & H). exists r'. auto.
  - destruct H as [Hw H]. split; [eauto|]. intros s o res Hs Ho. specialize (H s o res Hs Ho).
    destruct res as [[b s']| | |]; [|done..]. destruct H as (r' & HI & H). exists r'. auto.
  - destruct H as (r1 & r2 & -> & Hq & Hk). exists r1, r2. split_and!; auto.
  - destruct H as (I & HI & H). exists I. split; [done|]. intros r0 Hr. eapply keeps_mono; [exact (IHb _ _ (H r0 Hr))|].
    intros [b|] r'; [apply IH|done].
Qed.

Lemma keeps_bind {A B} (p : prog S A) (f : A → prog S B) r Q R :
  keeps p r Q → (∀ a r', Q a r' → keeps (f a) r' R) → keeps (p ≫= f) r R.
Proof.
  revert r Q. induction p as [A a|A C g k IH|A C h k IH|A q IHq k IHk|A C body IHb k IH]; intros r Q H HQ; cbn in *.
  - by apply HQ.
  - intros s o Hs. specialize (H s o Hs). destruct (g s) as [[b s']| | |]; [|done..].
    destruct H as (r' & HI & H). exists r'. split; [done|]. by eapply IH.
  - destruct H as [Hw H]. split; [done|]. intros s o res Hs Ho. specialize (H s o res Hs Ho).
    destruct res as [[b s']| | |]; [|done..]. destruct H as (r' & HI & H). exists r'. split; [done|]. by eapply IH.
  - destruct H as (r1 & r2 & -> & Hq & Hk). exists r1, r2. split_and!; [done..|]. by eapply IHk.
  - destruct H as (I & HI & H). exists I. split; [done|]. intros r0 Hr. eapply keeps_mono; [exact (H r0 Hr)|].
    intros [b|] r'; [|done]. intros Hb. by eapply IH.
Qed.

(** A component that the units do not speak of. *)
Lemma keeps_apart {T A : Type} (get : S → T) (put : T → S → S) (p : prog T A) r :
  fin u_none → (∀ m s t, Inv m s → Inv m (put t s)) → (∀ s, excused r s) → (∀ s, excused u_none s) →
  keeps (lift get put p) r (λ _ r', r' = r).
Proof.
  intros Hfin Hput He He0. enough (∀ (Q : A → M → Prop), (∀ a, Q a r) → keeps (lift get put p) r Q) as H by (by apply H).
  revert r He. induction p as [A a|A C g k IH|A C f k IH|A q IHq k IHk|A C body IHb k IH]; intros r He Q HQ; cbn in *.
  - apply HQ.
  - intros s o Hs. destruct (g (get s)) as [[b t]| | |]; cbn; [|done..]. exists r. auto.
  - split; [auto|]. intros s o res Hs (x & -> & _)%list_elem_of_fmap. destruct x as [[b t]| | |]; cbn; [|done..].
    exists r. auto.
  - exists u_none, r. split_and!; [by rewrite (left_id u_none u_add)|auto|auto].
  - exists (λ r', r' = r). split; [done|]. intros r' ->. apply IHb; [done|]. intros [b|]; [|done]. by apply IH.
Qed.
End keeps.

(** A component that the units are about. *)
Lemma keeps_lift {S T M A : Type} `{!Units M} (Inv : M → S → Prop) excused fin (get : T → S) (put : S → T → T)
  (p : prog S A) r Q :
  (∀ s t, get (put s t) = s) → keeps Inv excused fin p r Q →
  keeps (λ m t, Inv m (get t)) (λ m t, excused m (get t)) fin (lift get put p) r Q.
Proof.
  intros Hgp. revert r Q. induction p as [A a|A C g k IH|A C f k IH|A q IHq k IHk|A C body IHb k IH]; intros r Q H; cbn in *.
  - exact H.
  - intros t o Ht. specialize (H (get t) o Ht). destruct (g (get t)) as [[b s]| | |]; cbn; [|done..].
    destruct H as (r' & HI & H). exists r'. rewrite Hgp. auto.
  - destruct H as [Hw H]. split; [intros t o Ht E%fmap_nil_inv; exact (Hw _ o Ht E)|].
    intros t o res Ht (x & -> & Hx)%list_elem_of_fmap. specialize (H (get t) o x Ht Hx).
    destruct x as [[b s]| | |]; cbn; [|done..]. destruct H as (r' & HI & H). exists r'. rewrite Hgp. auto.
  - destruct H as (r1 & r2 & -> & Hq & Hk). exists r1, r2. split_and!; auto.
  - destruct H as (I & HI & H). exists I. split; [done|]. intros r0 Hr. eapply keeps_mono; [exact (IHb _ _ (H r0 Hr))|].
    intros [b|] r'; [apply IH|done].
Qed.

(** ** Two accounts *)

Section both.
Context {S M N : Type} `{!Units M, !Units N} (InvM : M → S → Prop) (InvN : N → S → Prop) (allowed : panic → Prop).
Context (excM : M → S → Prop) (excN : N → S → Prop) (finM : M → Prop) (finN : N → Prop).

Abbreviation both_inv := (λ m s, InvM (fst m) s ∧ InvN (snd m) s).
Abbreviation both_exc := (λ m s, excM (fst m) s ∧ excN (snd m) s).
Abbreviation both_fin := (λ m, finM (fst m) ∧ finN (snd m)).
Abbreviation both_end Q Q' := (λ a m, Q a (fst m) ∧ Q' a (snd m)).

Lemma owes_both {A : Type} (p : prog S A) r r' Q Q' :
  owes InvM allowed excM finM p r Q → keeps InvN excN finN p r' Q' →
  owes both_inv allowed both_exc both_fin p (r, r') (both_end Q Q').
Proof.
  revert r r' Q Q'. induction p as [A a|A C g k IH|A C f k IH|A q IHq k IHk|A C body IHb k IH]; intros r r' Q Q' H H'; cbn [owes keeps] in *.
  - done.
  - intros s [o o'] [Hs Hs']. specialize (H s o Hs). specialize (H' s o' Hs').
    destruct (g s) as [[b s']| | |]; [|done..]. destruct H as (m & HI & H), H' as (m' & HI' & H').
    exists (m, m'). split; [done|]. by apply IH.
  - destruct H as [Hx H], H' as [Hw H']. split; [intros s [o o'] [Hs Hs'] E; split; [exact (Hx s o Hs E)|exact (Hw s o' Hs' E)]|].
    intros s [o o'] res [Hs Hs'] Ho. specialize (H s o res Hs Ho). specialize (H' s o' res Hs' Ho).
    destruct res as [[b s']| | |]; [|done..]. destruct H as (m & HI & H), H' as (m' & HI' & H').
    exists (m, m'). split; [done|]. by apply IH.
  - destruct H as (r1 & r2 & -> & Hq & Hk), H' as (r1' & r2' & -> & Hq' & Hk').
    exists (r1, r1'), (r2, r2'). split_and!; [done|by apply IHq|by apply IHk].
  - destruct H as (I & HI & H), H' as (I' & HI' & H'). exists (λ m, I m.1 ∧ I' m.2). split; [done|].
    intros [r0 r0'] [Hr Hr']. eapply owes_mono; [exact (IHb _ _ _ _ (H r0 Hr) (H' r0' Hr'))|].
    intros [b|] [m m'] [Hm Hm']; [by apply IH|done].
Qed.

End both.

Lemma owes_swap {S M N A : Type} `{!Units M, !Units N} (Inv : M * N → S → Prop) (Inv' : N * M → S → Prop) allowed
  exc exc' fin (fin' : N * M → Prop) (p : prog S A) r r' Q :
  (∀ a b s, Inv' (b, a) s ↔ Inv (a, b) s) → (∀ a b s, exc (a, b) s → exc' (b, a) s) →
  (∀ a b, fin (a, b) → fin' (b, a)) →
  owes Inv allowed exc fin p (r, r') Q → owes Inv' allowed exc' fin' p (r', r) (λ a m, Q a (m.2, m.1)).
Proof.
  intros HI He Hf.
  cut (∀ A (p : prog S A) r r' Q (R : A → N * M → Prop), (∀ a m m', Q a (m, m') → R a (m', m)) →
    owes Inv allowed exc fin p (r, r') Q → owes Inv' allowed exc' fin' p (r', r) R).
  { intros H Hp. by eapply H; [|exact Hp]. }
  clear A p r r' Q. intros A p. induction p as [A a|A C g k IH|A C f k IH|A q IHq k IHk|A C body IHb k IH]; intros r r' Q R HR H; cbn [owes] in *.
  - auto.
  - intros s [o' o] Hs%HI. specialize (H s (o, o') Hs). destruct (g s) as [[b s']| | |]; [|done..].
    destruct H as ([m m'] & HI' & H). exists (m', m). split; [by apply HI|by eapply IH].
  - destruct H as [Hw H]. split; [intros s [o' o] Hs%HI E; by apply He, (Hw s (o, o'))|].
    intros s [o' o] res Hs%HI Ho. specialize (H s (o, o') res Hs Ho). destruct res as [[b s']| | |]; [|done..].
    destruct H as ([m m'] & HI' & H). exists (m', m). split; [by apply HI|by eapply IH].
  - destruct H as ([m1 m1'] & [m2 m2'] & [= -> ->] & Hq & Hk). exists (m1', m1), (m2', m2).
    split_and!; [done| |by eapply IHk]. eapply IHq; [|exact Hq]. intros a m m' Hm. by apply Hf.
  - destruct H as (I & Hr & H). exists (λ m, I (m.2, m.1)). split; [done|]. intros [r0' r0] Hr0.
    eapply IHb; [|exact (H _ Hr0)]. intros [b|] m m'; [|done]. by apply IH.
Qed.

Section both_r.
Context {S M N : Type} `{!Units M, !Units N} (InvM : M → S → Prop) (InvN : N → S → Prop) (allowed : panic → Prop).
Context (finM : M → Prop) (finN : N → Prop) (exc : M * N → S → Prop) (mexc : N → S → Prop).

Abbreviation both_inv := (λ m s, InvM (fst m) s ∧ InvN (snd m) s).
Abbreviation both_fin := (λ m, finM (fst m) ∧ finN (snd m)).

(** The second account says how the program ends; it never waits. *)
Lemma owes_both_r {A : Type} (p : prog S A) r r' Q Q' :
  keeps InvM (λ _ _, True) finM p r Q → owes InvN allowed (λ _ _, False) finN p r' Q' →
  owes both_inv allowed exc both_fin p (r, r') (λ a m, Q a m.1 ∧ Q' a m.2).
Proof.
  intros H H'.
  refine (owes_mono _ _ _ _ _ _ _ _ (owes_swap _ _ _ _ _ _ _ _ _ _ _ _ _ _ (owes_both _ _ _ _ _ _ _ _ _ _ _ _ H' H)) _).
  - intros a b s. cbn. by rewrite (comm (∧)).
  - by intros a b s [[] _].
  - by intros a b [? ?].
  - by intros a m [? ?].
Qed.

(** The main goroutine may wait. *)
Lemma leads_both_r {A : Type} (p : prog S A) r r' Q Q' :
  keeps InvM (λ _ _, True) finM p r Q → leads InvN allowed (λ _ _, False) finN mexc never p r' Q' →
  leads both_inv allowed exc both_fin (λ m, mexc m.2) never p (r, r') (λ a m, Q a m.1 ∧ Q' a m.2).
Proof.
  revert r r' Q Q'. induction p as [A a|A C g k IH|A C f k IH|A q _ k IHk|A C body IHb k IH]; intros r r' Q Q' H H'; cbn [leads keeps] in *.
  - done.
  - intros s [o o'] [Hs Hs']. specialize (H s o Hs). specialize (H' s o' Hs').
    destruct (g s) as [[b s']| | |]; [|done..]. destruct H as (m & HI & H), H' as [[]|(m' & HI' & H')].
    right. exists (m, m'). split; [done|]. by apply IH.
  - destruct H as [_ H], H' as [Hw H']. split; [intros s [o o'] [_ Hs']; exact (Hw s o' Hs')|].
    intros s [o o'] res [Hs Hs'] Ho. specialize (H s o res Hs Ho). specialize (H' s o' res Hs' Ho).
    destruct res as [[b s']| | |]; [|done..]. destruct H as (m & HI & H), H' as [[]|(m' & HI' & H')].
    right. exists (m, m'). split; [done|]. by apply IH.
  - destruct H as (r1 & r2 & -> & Hq & Hk), H' as (r1' & r2' & -> & Hq' & Hk').
    exists (r1, r1'), (r2, r2'). split_and!; [done| |by apply IHk].
    eapply owes_mono; [exact (owes_both_r _ _ _ _ _ Hq Hq')|done].
  - destruct H as (I & HI & H), H' as (I' & HI' & H'). exists (λ m, I m.1 ∧ I' m.2). split; [done|].
    intros [r0 r0'] [Hr Hr']. eapply leads_mono_end; [exact (IHb _ _ _ _ (H r0 Hr) (H' r0' Hr'))|].
    intros [b|] [m m'] [Hm Hm']; [by apply IH|done].
Qed.
End both_r.

(** ** Views *)

(** A component that the units are about. *)
Section view.
Context {S T M : Type} `{!Units M} (Inv : M → S → Prop) (allowed allowed' : panic → Prop).
Context (more_panics : ∀ x, allowed x → allowed' x).
Context (exc : M → S → Prop) (fin : M → Prop) (mexc : M → S → Prop).
Context (get : T → S) (put : S → T → T) (get_put : ∀ s t, get (put s t) = s).

Lemma owes_view {A : Type} (p : prog S A) r Q :
  owes Inv allowed exc fin p r Q →
  owes (λ m t, Inv m (get t)) allowed' (λ m t, exc m (get t)) fin (lift get put p) r Q.
Proof.
  revert r Q. induction p as [A a|A C g k IH|A C f k IH|A q IHq k IHk|A C body IHb k IH]; intros r Q H; cbn in *.
  - exact H.
  - intros t o Ht. specialize (H (get t) o Ht). destruct (g (get t)) as [[b s]| | |]; cbn; [|auto..].
    destruct H as (r' & HI & H). exists r'. rewrite get_put. auto.
  - destruct H as [Hw H]. split; [intros t o Ht E%fmap_nil_inv; exact (Hw _ o Ht E)|].
    intros t o res Ht (x & -> & Hx)%list_elem_of_fmap. specialize (H (get t) o x Ht Hx).
    destruct x as [[b s]| | |]; cbn; [|auto..]. destruct H as (r' & HI & H). exists r'. rewrite get_put. auto.
  - destruct H as (r1 & r2 & -> & Hq & Hk). exists r1, r2. split_and!; auto.
  - destruct H as (I & HI & H). exists I. split; [done|]. intros r0 Hr. eapply owes_mono; [exact (IHb _ _ (H r0 Hr))|].
    intros [b|] r'; [apply IH|done].
Qed.

Lemma leads_view {A : Type} (p : prog S A) r Q :
  leads Inv allowed exc fin mexc never p r Q →
  leads (λ m t, Inv m (get t)) allowed' (λ m t, exc m (get t)) fin (λ m t, mexc m (get t)) never (lift get put p) r Q.
Proof.
  revert r Q. induction p as [A a|A C g k IH|A C f k IH|A q _ k IHk|A C body IHb k IH]; intros r Q H; cbn in *.
  - exact H.
  - intros t o Ht. specialize (H (get t) o Ht). destruct (g (get t)) as [[b s]| | |]; cbn; [|auto..].
    destruct H as [[]|(r' & HI & H)]. right. exists r'. rewrite get_put. auto.
  - destruct H as [Hw H]. split; [intros t o Ht E%fmap_nil_inv; exact (Hw _ o Ht E)|].
    intros t o res Ht (x & -> & Hx)%list_elem_of_fmap. specialize (H (get t) o x Ht Hx).
    destruct x as [[b s]| | |]; cbn; [|auto..]. destruct H as [[]|(r' & HI & H)]. right. exists r'. rewrite get_put. auto.
  - destruct H as (r1 & r2 & -> & Hq & Hk). exists r1, r2. split_and!; [done|by apply owes_view|auto].
  - destruct H as (I & HI & H). exists I. split; [done|]. intros r0 Hr. eapply leads_mono_end; [exact (IHb _ _ (H r0 Hr))|].
    intros [b|] r'; [apply IH|done].
Qed.
End view.

(** ** What a program leaves alone *)

(** Its sections do not change what [view] shows. *)
Fixpoint frames {S V A : Type} (view : S → V) (p : prog S A) : Prop :=
  match p with
  | Ret _ => True
  | Atomic f k => (∀ s b s', f s = Ok (b, s') → view s' = view s) ∧ ∀ b, frames view (k b)
  | Select f k => (∀ s b s', Ok (b, s') ∈ f s → view s' = view s) ∧ ∀ b, frames view (k b)
  | Fork q k => frames view q ∧ frames view k
  | Loop body k => frames view body ∧ ∀ b, frames view (k b)
  end.

Lemma frames_bind {S V A B : Type} (view : S → V) (p : prog S A) (f : A → prog S B) :
  frames view p → (∀ a, frames view (f a)) → frames view (p ≫= f).
Proof.
  intros Hp Hf. induction p as [A a|A C g k IH|A C g k IH|A q IHq k IHk|A C body IHb k IH]; cbn in *.
  - apply Hf.
  - destruct Hp as [? Hp]. split; [done|]. intros b. by apply IH.
  - destruct Hp as [? Hp]. split; [done|]. intros b. by apply IH.
  - destruct Hp as [? Hp]. split; [done|]. by apply IHk.
  - destruct Hp as [? Hp]. split; [done|]. intros b. by apply IH.
Qed.

Lemma frames_for_each {S V A : Type} (view : S → V) (l : list A) (body : A → prog S unit) :
  (∀ x, frames view (body x)) → frames view (for_each l body).
Proof. intros Hb. induction l as [|x l IH]; [done|]. cbn [for_each]. by apply frames_bind. Qed.

(** A component that the view does not show. *)
Lemma frames_lift {S T V A : Type} (view : T → V) (get : T → S) (put : S → T → T) (p : prog S A) :
  (∀ s t, view (put s t) = view t) → frames view (lift get put p).
Proof.
  intros Hv. induction p as [A a|A C g k IH|A C g k IH|A q IHq k IHk|A C body IHb k IH]; cbn; [done| | |done|done].
  - split; [|done]. intros t b t'. destruct (g (get t)) as [[c s]| | |]; [|done..]. by intros [= <- <-].
  - split; [|done]. intros t b t' (x & Ex & _)%list_elem_of_fmap. destruct x as [[c s]| | |]; [|done..].
    by injection Ex as -> ->.
Qed.

(** A component of which the view shows a part. *)
Lemma frames_lift_part {S T V V' A : Type} (view : T → V) (view' : S → V') (get : T → S) (put : S → T → T) (p : prog S A) :
  (∀ s t, view' s = view' (get t) → view (put s t) = view t) → frames view' p → frames view (lift get put p).
Proof.
  intros Hv. induction p as [A a|A C g k IH|A C g k IH|A q IHq k IHk|A C body IHb k IH]; cbn; [done| | | |].
  - intros [Hf Hp]. split; [|auto]. intros t b t'. destruct (g (get t)) as [[c s]| | |] eqn:E; [|done..].
    intros [= <- <-]. by eapply Hv, Hf.
  - intros [Hf Hp]. split; [|auto]. intros t b t' (x & Ex & Hx)%list_elem_of_fmap. destruct x as [[c s]| | |]; [|done..].
    injection Ex as -> ->. by eapply Hv, Hf.
  - intros [Hq Hk]. auto.
  - intros [Hb Hk]. auto.
Qed.

Lemma frames_gets {S V A : Type} (view : S → V) (f : S → A) : frames view (gets f).
Proof. split; [|done]. by intros s b s' [= <- <-]. Qed.

Lemma frames_checked {S V A : Type} (view : S → V) (f : S → outcome unit A) : frames view (checked f).
Proof. split; [|done]. intros s b s'. cbn. destruct (f s); [|done..]. by intros [= <- <-]. Qed.

Lemma frames_modify {S V : Type} (view : S → V) (f : S → S) : (∀ s, view (f s) = view s) → frames view (modify f).
Proof. intros Hf. split; [|done]. intros s b s' [= <- <-]. apply Hf. Qed.

(** What does not change keeps an invariant about it. *)
Lemma keeps_frames {S V M A : Type} `{!Units M} (Inv : M → S → Prop) (excused : M → S → Prop) fin (view : S → V)
  (p : prog S A) r :
  (∀ m s s', view s' = view s → Inv m s → Inv m s') → fin u_none →
  (∀ s, excused r s) → (∀ s, excused u_none s) → frames view p → keeps Inv excused fin p r (λ _ r', r' = r).
Proof.
  intros HI Hfin He He0 Hp. enough (∀ (Q : A → M → Prop), (∀ a, Q a r) → keeps Inv excused fin p r Q) as H by (by apply H).
  revert r He Hp. induction p as [A a|A C g k IH|A C f k IH|A q IHq k IHk|A C body IHb k IH]; intros r He Hp Q HQ; cbn in *.
  - apply HQ.
  - destruct Hp as [Hv Hp]. intros s o Hs. specialize (Hv s). destruct (g s) as [[b t]| | |]; [|done..].
    exists r. split; [by eapply HI; [by eapply Hv|]|auto].
  - destruct Hp as [Hv Hp]. split; [auto|]. intros s o res Hs Hx. destruct res as [[b t]| | |]; [|done..].
    exists r. split; [by eapply HI; [by eapply Hv|]|auto].
  - destruct Hp as [Hq Hp]. exists u_none, r. split_and!; [by rewrite (left_id u_none u_add)|auto|auto].
  - destruct Hp as [Hb Hp]. exists (λ r', r' = r). split; [done|]. intros r' ->. apply IHb; [done..|].
    intros [b|]; [|done]. by apply IH.
Qed.

(** ** What a program does not see *)

Definition masked {S B : Type} (mask : S → S) (o : outcome unit (B * S)) : outcome unit (B * S) :=
  '(b, s) ← o; Ok (b, mask s).

(** Its sections do the same when a part of the state is masked. *)
Fixpoint blind {S A : Type} (mask : S → S) (p : prog S A) : Prop :=
  match p with
  | Ret _ => True
  | Atomic f k => (∀ s, f (mask s) = masked mask (f s)) ∧ ∀ b, blind mask (k b)
  | Select f k => (∀ s, f (mask s) = masked mask <$> f s) ∧ ∀ b, blind mask (k b)
  | Fork q k => blind mask q ∧ blind mask k
  | Loop body k => blind mask body ∧ ∀ b, blind mask (k b)
  end.

Lemma blind_bind {S A B : Type} mask (p : prog S A) (f : A → prog S B) :
  blind mask p → (∀ a, blind mask (f a)) → blind mask (p ≫= f).
Proof.
  intros Hp Hf. induction p as [A a|A C g k IH|A C g k IH|A q IHq k IHk|A C body IHb k IH]; cbn in *.
  - apply Hf.
  - destruct Hp as [? Hp]. split; [done|]. intros b. by apply IH.
  - destruct Hp as [? Hp]. split; [done|]. intros b. by apply IH.
  - destruct Hp as [? Hp]. split; [done|]. by apply IHk.
  - destruct Hp as [? Hp]. split; [done|]. intros b. by apply IH.
Qed.

Lemma blind_gets {S A : Type} mask (f : S → A) : (∀ s, f (mask s) = f s) → blind mask (gets f).
Proof. intros Hf. split; [|done]. intros s. cbn. by rewrite Hf. Qed.

Lemma blind_checked {S A : Type} mask (f : S → outcome unit A) : (∀ s, f (mask s) = f s) → blind mask (checked f).
Proof. intros Hf. split; [|done]. intros s. cbn. rewrite Hf. by destruct (f s). Qed.

(** A component, with its own part of the mask. *)
Lemma blind_lift {S T A : Type} (mask : T → T) (mask' : S → S) (get : T → S) (put : S → T → T) (p : prog S A) :
  (∀ t, get (mask t) = mask' (get t)) → (∀ s t, put (mask' s) (mask t) = mask (put s t)) →
  blind mask' p → blind mask (lift get put p).
Proof.
  intros Hg Hp. induction p as [A a|A C g k IH|A C g k IH|A q IHq k IHk|A C body IHb k IH]; cbn; [done| | | |].
  - intros [Hf Hb]. split; [|auto]. intros t. rewrite Hg, Hf. destruct (g (get t)) as [[c s]| | |]; cbn; [|done..]. by rewrite Hp.
  - intros [Hf Hb]. split; [|auto]. intros t. rewrite Hg, Hf, <- !list_fmap_compose. apply list_fmap_ext.
    intros i [[c s]| | |] _; cbn; [|done..]. by rewrite Hp.
  - intros [Hq Hk]. auto.
  - intros [Hb Hk]. auto.
Qed.

Lemma blind_id {S A : Type} (p : prog S A) : blind id p.
Proof.
  induction p as [A a|A C g k IH|A C g k IH|A q IHq k IHk|A C body IHb k IH]; cbn; [done| | |done|done]; (split; [|done]); intros s.
  - by destruct (g s) as [[]| | |].
  - unfold id. induction (g s) as [|[[]| | |] l IHl]; cbn; [done|by f_equal..].
Qed.

Lemma owes_blind {S M A : Type} `{!Units M} (Inv : M → S → Prop) allowed (exc exc' : M → S → Prop) fin mask (p : prog S A) r Q :
  (∀ m s, exc m (mask s) → exc' m s) → blind mask p → owes Inv allowed exc fin p r Q →
  owes (λ m s, Inv m (mask s)) allowed exc' fin p r Q.
Proof.
  intros He. revert r Q. induction p as [A a|A C g k IH|A C f k IH|A q IHq k IHk|A C body IHb k IH]; intros r Q Hb H; cbn in *.
  - exact H.
  - destruct Hb as [Hf Hb]. intros s o Hs. specialize (H _ o Hs). rewrite Hf in H.
    destruct (g s) as [[b s']| | |]; cbn in H; [|done..]. destruct H as (r' & HI & H). exists r'. auto.
  - destruct Hb as [Hf Hb]. destruct H as [Hw H]. split.
    + intros s o Hs E. apply He, (Hw _ o Hs). by rewrite Hf, E.
    + intros s o res Hs Ho. specialize (H _ o (masked mask res) Hs). rewrite Hf in H.
      specialize (H ltac:(by apply list_elem_of_fmap_2)). destruct res as [[b s']| | |]; cbn in H; [|done..].
      destruct H as (r' & HI & H). exists r'. auto.
  - destruct Hb. destruct H as (r1 & r2 & -> & Hq & Hk). exists r1, r2. split_and!; auto.
  - destruct Hb. destruct H as (I & HI & H). exists I. split; [done|]. intros r0 Hr.
    eapply owes_mono; [eapply IHb; [done|exact (H r0 Hr)]|]. intros [b|] r'; [|done]. by apply IH.
Qed.

(** ** Knowledge *)

(** The account [InvA] holds where another one, [InvB], provides [x]; without it there is
    [InvA0]. *)
Section known.
Context {S V M N : Type} `{!Units M, !Units N}.
Context (InvA InvA0 : M → S → Prop) (InvB : N → S → Prop) (allowed : panic → Prop) (view : S → V) (x : N).
Context (exc : M → S → Prop) (fin : M → Prop) (exc' : M * N → S → Prop) (fin' : M * N → Prop).
Context (x_twice : x ⊕ x = x).
Context (enter : ∀ m o s, InvA0 m s → InvB (x ⊕ o) s → InvA m s).
Context (leave : ∀ m o s s', view s' = view s → InvB (x ⊕ o) s → InvA m s' → InvA0 m s' ∧ InvB (x ⊕ o) s').

Abbreviation inv := (λ m s, InvA0 (fst m) s ∧ InvB (snd m) s).

Lemma owes_known {A : Type} (p : prog S A) r y Q :
  y = x ⊕ y → (∀ m z s, z = x ∨ z = y → exc m s → exc' (m, z) s) → (∀ m, fin m → fin' (m, x)) → frames view p →
  owes InvA allowed exc fin p r Q → owes inv allowed exc' fin' p (r, y) (λ a m, Q a m.1 ∧ m.2 = y).
Proof.
  intros Hy He Hf Hp Ho.
  cut (∀ A (p : prog S A) r y Q (R : A → M * N → Prop), y = x ⊕ y → (∀ m z s, z = x ∨ z = y → exc m s → exc' (m, z) s) →
    (∀ a m, Q a m → R a (m, y)) → frames view p → owes InvA allowed exc fin p r Q → owes inv allowed exc' fin' p (r, y) R).
  { intros H. eapply H; [done|done| |done|exact Ho]. done. }
  clear A p r y Q Hy He Hp Ho. intros A p.
  assert (∀ (y o : N), y = x ⊕ y → y ⊕ o = x ⊕ (y ⊕ o)) as Hx by (intros y o E; by rewrite (assoc u_add), <- E).
  induction p as [A a|A C g k IH|A C f k IH|A q IHq k IHk|A C body IHb k IH]; intros r y Q R Hy He HR Hp H; cbn [owes frames] in *.
  - auto.
  - destruct Hp as [Hv Hp]. intros s [o o'] [HA HB]. cbn in HA, HB. rewrite (Hx y o' Hy) in HB.
    specialize (H s o (enter _ _ _ HA HB)). specialize (Hv s). destruct (g s) as [[b s']| | |]; [|done..].
    destruct H as (r' & HI & H). destruct (leave _ _ _ _ (Hv b s' eq_refl) HB HI) as [HA' HB'].
    exists (r', y). split; [split; [exact HA'|cbn; by rewrite (Hx y o' Hy)]|]. by eapply IH.
  - destruct Hp as [Hv Hp]. destruct H as [Hw H]. split.
    + intros s [o o'] [HA HB] E. cbn in HA, HB. rewrite (Hx y o' Hy) in HB. apply He; [by right|].
      exact (Hw s o (enter _ _ _ HA HB) E).
    + intros s [o o'] res [HA HB] Ho. cbn in HA, HB. rewrite (Hx y o' Hy) in HB.
      specialize (H s o res (enter _ _ _ HA HB) Ho). destruct res as [[b s']| | |]; [|done..].
      destruct H as (r' & HI & H). destruct (leave _ _ _ _ (Hv s b s' Ho) HB HI) as [HA' HB'].
      exists (r', y). split; [split; [exact HA'|cbn; by rewrite (Hx y o' Hy)]|]. by eapply IH.
  - destruct Hp as [Hq Hp]. destruct H as (r1 & r2 & -> & H1 & H2). exists (r1, x), (r2, y). split_and!.
    + cbn. f_equal. exact Hy.
    + apply (IHq r1 x (λ _, fin) (λ _, fin')); [done|intros m z s [->| ->]; apply He; by left|intros a m Hm; by apply Hf|done|exact H1].
    + by eapply IHk.
  - destruct Hp as [Hpb Hp]. destruct H as (I & HI & H). exists (λ m, I m.1 ∧ m.2 = y). split; [done|].
    intros [r0 y0] [Hr Hy0]. cbn in Hr, Hy0. subst y0. eapply IHb; [done|done| |done|exact (H r0 Hr)].
    intros [b|] m; cbn; [|done]. intros Hm. by eapply IH.
Qed.

Lemma leads_known {A : Type} (mexc : M → S → Prop) (mexc' : M * N → S → Prop) (ending : prog S A → Prop) (p : prog S A) r y Q :
  y = x ⊕ y → (∀ m z s, z = x ∨ z = y → exc m s → exc' (m, z) s) → (∀ m, fin m → fin' (m, x)) →
  (∀ m s, mexc m s → mexc' (m, y) s) → frames view p →
  leads InvA allowed exc fin mexc ending p r Q →
  leads inv allowed exc' fin' mexc' ending p (r, y) (λ a m, Q a m.1 ∧ m.2 = y).
Proof.
  intros Hy He Hf Hm.
  assert (∀ (o : N), y ⊕ o = x ⊕ (y ⊕ o)) as Hx by (intros o; by rewrite (assoc u_add), <- Hy).
  revert r Q. induction p as [A a|A C g k IH|A C f k IH|A q _ k IHk|A C body IHb k IH]; intros r Q Hp H; cbn [leads frames] in *.
  - done.
  - destruct Hp as [Hv Hp]. intros s [o o'] [HA HB]. cbn in HA, HB. rewrite Hx in HB.
    specialize (H s o (enter _ _ _ HA HB)). specialize (Hv s). destruct (g s) as [[b s']| | |]; [|done..].
    destruct H as [?|(r' & HI & H)]; [by left|]. destruct (leave _ _ _ _ (Hv b s' eq_refl) HB HI) as [HA' HB'].
    right. exists (r', y). split; [split; [exact HA'|cbn; by rewrite Hx]|]. by apply IH.
  - destruct Hp as [Hv Hp]. destruct H as [Hw H]. split.
    + intros s [o o'] [HA HB] E. cbn in HA, HB. rewrite Hx in HB. apply Hm. exact (Hw s o (enter _ _ _ HA HB) E).
    + intros s [o o'] res [HA HB] Ho. cbn in HA, HB. rewrite Hx in HB.
      specialize (H s o res (enter _ _ _ HA HB) Ho). destruct res as [[b s']| | |]; [|done..].
      destruct H as [?|(r' & HI & H)]; [by left|]. destruct (leave _ _ _ _ (Hv s b s' Ho) HB HI) as [HA' HB'].
      right. exists (r', y). split; [split; [exact HA'|cbn; by rewrite Hx]|]. by apply IH.
  - destruct Hp as [Hq Hp]. destruct H as (r1 & r2 & -> & H1 & H2). exists (r1, x), (r2, y). split_and!.
    + cbn. f_equal. exact Hy.
    + eapply owes_mono; [eapply owes_known; [done| |done|done|exact H1]|].
      * intros m z s [->| ->]; apply He; by left.
      * intros _ [m z] [Hm' Hz]. cbn in Hm', Hz. subst. by apply Hf.
    + by apply IHk.
  - destruct Hp as [Hpb Hp]. destruct H as (I & HI & H). exists (λ m, I m.1 ∧ m.2 = y). split; [done|].
    intros [r0 y0] [Hr Hy0]. cbn in Hr, Hy0. subst y0. eapply leads_mono_end; [exact (IHb _ _ _ Hpb (H r0 Hr))|].
    intros [b|] [m z] [Hmb Hz]; cbn in *; subst z; [by apply IH|done].
Qed.
End known.
