(* ===== verification/Node.v ===== *)
(** * A DHT node: [internal/dht/node.go]

    The node's state, its message handlers, its periodic work and its active lookups.
    Each mutex-protected section, atomic counter operation, channel operation and
    datagram is one atomic section of [Conc]; the handlers run in goroutines of their
    own.  A node's table does not exist before [Start]. *)

From S2P Require Import Prelude GoStd Net Bencode BencodeSpec NodeID Routing Krpc Conc.

Definition UDPBufferSize : nat := Z.to_nat 65535.

Inductive EventType := EventGetPeers | EventAnnounce.

Record Event := mkEvent {
  ev_Type : EventType;
  ev_InfoHash : bytes;
  ev_PeerIP : bytes;
  ev_PeerPort : Z;
}.

Record udp_addr := mkAddr { addr_IP : bytes; addr_Port : Z }.

Record Node := mkNode {
  n_ID : NodeID;
  n_Port : Z;
  n_routingTable : option RoutingTable;
  n_bootstraps : list bytes;
  n_tokenSecret : bytes;
  n_lastSecret : bytes;
  n_queriesReceived : Z;
  n_queriesSent : Z;
  n_getPeersCount : Z;
  n_announceCount : Z;
  n_pendingTxns : gmap bytes nat;     (* the reply channel of a transaction *)
  n_txnIDCounter : Z;
}.

(** What a goroutine of the node sees: the node, the pool's event channel, the reply
    channels made so far, the datagrams handed to the socket, the clock in nanoseconds
    and the bytes [crypto/rand] will give. *)
Record World := mkWorld {
  w_node : Node;
  w_events : chan Event;
  w_replies : list (chan Message);
  w_sent : list (bytes * udp_addr);
  w_now : Z;
  w_rand : nat → bytes;
  w_draws : nat;
}.

Definition on_node (f : Node → Node) (w : World) : World :=
  mkWorld (f (w_node w)) (w_events w) (w_replies w) (w_sent w) (w_now w) (w_rand w) (w_draws w).
Definition set_events (c : chan Event) (w : World) : World :=
  mkWorld (w_node w) c (w_replies w) (w_sent w) (w_now w) (w_rand w) (w_draws w).
Definition set_replies (l : list (chan Message)) (w : World) : World :=
  mkWorld (w_node w) (w_events w) l (w_sent w) (w_now w) (w_rand w) (w_draws w).
Definition add_sent (p : bytes * udp_addr) (w : World) : World :=
  mkWorld (w_node w) (w_events w) (w_replies w) (w_sent w ++ [p]) (w_now w) (w_rand w) (w_draws w).
Definition set_now (t : Z) (w : World) : World :=
  mkWorld (w_node w) (w_events w) (w_replies w) (w_sent w) t (w_rand w) (w_draws w).
Definition next_draw (w : World) : World :=
  mkWorld (w_node w) (w_events w) (w_replies w) (w_sent w) (w_now w) (w_rand w) (S (w_draws w)).

Definition set_table (rt : option RoutingTable) (n : Node) : Node :=
  mkNode (n_ID n) (n_Port n) rt (n_bootstraps n) (n_tokenSecret n) (n_lastSecret n)
    (n_queriesReceived n) (n_queriesSent n) (n_getPeersCount n) (n_announceCount n)
    (n_pendingTxns n) (n_txnIDCounter n).
Definition set_secrets (cur last : bytes) (n : Node) : Node :=
  mkNode (n_ID n) (n_Port n) (n_routingTable n) (n_bootstraps n) cur last
    (n_queriesReceived n) (n_queriesSent n) (n_getPeersCount n) (n_announceCount n)
    (n_pendingTxns n) (n_txnIDCounter n).
Definition set_pending (m : gmap bytes nat) (n : Node) : Node :=
  mkNode (n_ID n) (n_Port n) (n_routingTable n) (n_bootstraps n) (n_tokenSecret n)
    (n_lastSecret n) (n_queriesReceived n) (n_queriesSent n) (n_getPeersCount n)
    (n_announceCount n) m (n_txnIDCounter n).
Definition set_txn (c : Z) (n : Node) : Node :=
  mkNode (n_ID n) (n_Port n) (n_routingTable n) (n_bootstraps n) (n_tokenSecret n)
    (n_lastSecret n) (n_queriesReceived n) (n_queriesSent n) (n_getPeersCount n)
    (n_announceCount n) (n_pendingTxns n) c.
Definition add_counters (recv sent getPeers announces : Z) (n : Node) : Node :=
  mkNode (n_ID n) (n_Port n) (n_routingTable n) (n_bootstraps n) (n_tokenSecret n)
    (n_lastSecret n) (wrapU 64 (n_queriesReceived n + recv)) (wrapU 64 (n_queriesSent n + sent))
    (wrapU 64 (n_getPeersCount n + getPeers)) (wrapU 64 (n_announceCount n + announces))
    (n_pendingTxns n) (n_txnIDCounter n).

(** ** The sections the handlers are made of *)

Definition ID : prog World NodeID := gets (λ w, n_ID (w_node w)).

(** [WriteToUDP], whose error the code drops. *)
Definition WriteToUDP (data : bytes) (addr : udp_addr) : prog World unit :=
  modify (add_sent (data, addr)).

(** [resp, _ := Encode...]: an encoding error leaves the slice nil. *)
Definition ignore_err (o : outcome bencode_error bytes) : outcome unit bytes :=
  match o with Ok p => Ok p | Err _ => Ok [] | Panic p => Panic p | NoFuel => NoFuel end.
Definition encoded (o : outcome bencode_error bytes) : prog World bytes :=
  checked (λ _, ignore_err o).

Definition rand_Read (n : nat) : prog World bytes :=
  update (λ w, (take n (w_rand w (w_draws w) ++ replicate n x00), next_draw w)).

(** Other goroutines may run while this one sleeps. *)
Definition sleep : prog World unit := modify id.

Definition count (recv sent getPeers announces : Z) : prog World unit :=
  modify (on_node (add_counters recv sent getPeers announces)).

Definition table (w : World) : outcome unit RoutingTable :=
  match n_routingTable (w_node w) with Some rt => Ok rt | None => Panic PanicNilDeref end.

Definition table_Insert (id : NodeID) (ip : bytes) (port : Z) : prog World unit :=
  try_update (λ w, rt ← table w;
    Ok (on_node (set_table (Some (Insert (w_now w) id ip port rt).2)) w)).

Definition table_FindClosest (target : NodeID) (count : Z) : prog World (list RoutingNode) :=
  checked (λ w, rt ← table w; FindClosest target count rt).

Definition table_Size : prog World nat := checked (λ w, rt ← table w; Ok (Size rt)).

(** [select { case n.eventChan <- ev: default: }]. *)
Definition emit (ev : Event) : prog World unit :=
  try_update (λ w, c ← try_send ev (w_events w); Ok (set_events c w)).

Definition node_addr (n : RoutingNode) : udp_addr := mkAddr (UDPAddr n).1 (UDPAddr n).2.

Definition compact_of (n : RoutingNode) : CompactNodeInfo :=
  mkCompactNodeInfo (rn_ID n) (rn_IP n) (rn_Port n).

(** ** Tokens and transaction identifiers *)

(** [for i := 0; i < len(secret) && i < 4; i++ { token[i] = secret[i] ^ ip[i%len(ip)] }]. *)
Fixpoint token_loop (idxs : list nat) (secret ip token : bytes) : outcome unit bytes :=
  match idxs with
  | [] => Ok token
  | i :: idxs =>
      if (i <? length secret)%nat then
        if decide (ip = []) then Panic PanicDivide
        else token_loop idxs secret ip
          (<[i := byte_xor (secret !!! i) (ip !!! (i `mod` length ip)%nat)]> token)
      else Ok token
  end.

Definition fill_token (secret ip token : bytes) : outcome unit bytes :=
  token_loop [0; 1; 2; 3]%nat secret ip token.

Definition make_token (secret ip : bytes) : outcome unit bytes :=
  fill_token secret ip (replicate 8 x00).

Definition check_token (cur last token ip : bytes) : outcome unit bool :=
  expected ← make_token cur ip;
  prefix ← slice expected 0 (Z.of_nat (length token));
  if decide (token = prefix) then Ok true
  else
    expected ← fill_token last ip expected;
    prefix ← slice expected 0 (Z.of_nat (length token));
    Ok (bool_decide (token = prefix)).

Definition generateToken (ip : bytes) : prog World bytes :=
  checked (λ w, make_token (n_tokenSecret (w_node w)) ip).

Definition validateToken (token ip : bytes) : prog World bool :=
  checked (λ w, check_token (n_tokenSecret (w_node w)) (n_lastSecret (w_node w)) token ip).

(** One tick of [rotateSecrets]: the new secret is what [rand.Read] fills in. *)
Definition rotate (w : World) : World :=
  let secret := take 16 (w_rand w (w_draws w) ++ replicate 16 x00) in
  next_draw (on_node (λ n, set_secrets secret (n_tokenSecret n) n) w).

Definition rotateSecrets (ticks : nat) : prog World unit :=
  for_each (seq 0 ticks) (λ _, modify rotate).

Definition txn_bytes (id : Z) : bytes := [byte_of (Z.shiftr id 8); byte_of id].

Definition next_txn (n : Node) : bytes * Node :=
  let id := wrapU 16 (n_txnIDCounter n + 1) in (txn_bytes id, set_txn id n).

Definition nextTxnID : prog World bytes :=
  update (λ w, let '(tid, n) := next_txn (w_node w) in (tid, on_node (λ _, n) w)).

(** ** Handlers *)

Definition handlePing (msg : Message) (addr : udp_addr) : prog World unit :=
  id ← ID;
  resp ← encoded (EncodePingResponse (TransactionID msg) id);
  WriteToUDP resp addr.

Definition handleFindNode (msg : Message) (addr : udp_addr) : prog World unit :=
  match GetTarget msg with
  | None => Ret tt
  | Some target =>
      closest ← table_FindClosest target (Z.of_nat K);
      id ← ID;
      resp ← encoded (EncodeFindNodeResponse (TransactionID msg) id (compact_of <$> closest));
      WriteToUDP resp addr
  end.

Definition handleGetPeers (msg : Message) (addr : udp_addr) : prog World unit :=
  match GetInfoHash msg with
  | None => Ret tt
  | Some infoHash =>
      _ ← count 0 0 1 0;
      _ ← emit (mkEvent EventGetPeers infoHash (addr_IP addr) (addr_Port addr));
      let target := match FromBytes infoHash with Ok id => id | _ => zeroID end in
      closest ← table_FindClosest target (Z.of_nat K);
      token ← generateToken (addr_IP addr);
      id ← ID;
      resp ← encoded (EncodeGetPeersResponseNodes (TransactionID msg) id token
                        (compact_of <$> closest));
      WriteToUDP resp addr
  end.

Definition handleAnnouncePeer (msg : Message) (addr : udp_addr) : prog World unit :=
  match GetInfoHash msg, GetToken msg with
  | Some infoHash, Some token =>
      valid ← validateToken token (addr_IP addr);
      if negb valid then Ret tt
      else
        _ ← count 0 0 0 1;
        let btPort := default (addr_Port addr) (GetPort msg) in
        _ ← emit (mkEvent EventAnnounce infoHash (addr_IP addr) btPort);
        id ← ID;
        resp ← encoded (EncodeAnnouncePeerResponse (TransactionID msg) id);
        WriteToUDP resp addr
  | _, _ => Ret tt
  end.

Definition handleQuery (msg : Message) (addr : udp_addr) : prog World unit :=
  _ ← match GetQueryNodeID msg with
      | Some nodeID => table_Insert nodeID (addr_IP addr) (addr_Port addr)
      | None => Ret tt
      end;
  if decide (Query msg = QueryPing) then handlePing msg addr
  else if decide (Query msg = QueryFindNode) then handleFindNode msg addr
  else if decide (Query msg = QueryGetPeers) then handleGetPeers msg addr
  else if decide (Query msg = QueryAnnouncePeer) then handleAnnouncePeer msg addr
  else Ret tt.

(** [ch, ok := pendingTxns[key]; if ok { delete(pendingTxns, key) }]. *)
Definition take_pending (key : bytes) (w : World) : option nat * World :=
  match n_pendingTxns (w_node w) !! key with
  | Some ch => (Some ch, on_node (λ n, set_pending (delete key (n_pendingTxns n)) n) w)
  | None => (None, w)
  end.

(** [select { case ch <- msg: default: }] on a reply channel. *)
Definition reply (ch : nat) (msg : Message) (w : World) : outcome unit World :=
  match w_replies w !! ch with
  | Some c => c ← try_send msg c; Ok (set_replies (<[ch := c]> (w_replies w)) w)
  | None => Ok w
  end.

(** [msg.Response["id"].([]byte)] that is an identifier. *)
Definition response_id (msg : Message) : option NodeID :=
  match Response msg with
  | Some r =>
      match dict_lookup (bs "id") r with
      | Some (VBytes b) => match FromBytes b with Ok id => Some id | _ => None end
      | _ => None
      end
  | None => None
  end.

Definition handleResponse (msg : Message) (addr : udp_addr) : prog World unit :=
  _ ← match response_id msg with
      | Some id => table_Insert id (addr_IP addr) (addr_Port addr)
      | None => Ret tt
      end;
  ch ← update (take_pending (TransactionID msg));
  _ ← match ch with Some ch => try_update (reply ch msg) | None => Ret tt end;
  for_each (GetResponseNodes msg) (λ node, table_Insert (cn_ID node) (cn_IP node) (cn_Port node)).

Definition handleMessage (data : bytes) (addr : udp_addr) : prog World unit :=
  m ← checked (λ _, match DecodeMessage data with
                    | Ok m => Ok (Some m)
                    | Err _ => Ok None
                    | Panic p => Panic p
                    | NoFuel => NoFuel
                    end);
  match m with
  | None => Ret tt
  | Some msg =>
      _ ← count 1 0 0 0;
      if decide (Type_ msg = MsgTypeQuery) then handleQuery msg addr
      else if decide (Type_ msg = MsgTypeResponse) then handleResponse msg addr
      else Ret tt
  end.

(** The reads of one run of [readLoop]: a datagram, or a timeout or error. *)
Definition readLoop (reads : list (option (bytes * udp_addr))) : prog World unit :=
  for_each reads (λ r,
    match r with
    | None => Ret tt
    | Some (data, addr) => go (handleMessage (take UDPBufferSize data) addr)
    end).

(** ** Queries the node sends on its own *)

(** [tid := n.nextTxnID(); msg, _ := ...; n.conn.WriteToUDP(msg, addr); queriesSent.Add(1)]. *)
Definition send_query (encode : bytes → NodeID → outcome bencode_error bytes) (addr : udp_addr)
  : prog World unit :=
  tid ← nextTxnID;
  id ← ID;
  msg ← encoded (encode tid id);
  _ ← WriteToUDP msg addr;
  count 0 1 0 0.

Definition find_self (tid : bytes) (id : NodeID) : outcome bencode_error bytes :=
  EncodeFindNode tid id id.

Definition activeQuery : prog World unit :=
  randomHash ← rand_Read 20;
  let target := match FromBytes randomHash with Ok id => id | _ => zeroID end in
  closest ← table_FindClosest target 3;
  for_each closest (λ node,
    send_query (λ tid id, EncodeGetPeers tid id randomHash) (node_addr node)).

Definition refresh : prog World unit :=
  for_each (seq 0 10) (λ _,
    target ← rand_Read 20;
    closest ← table_FindClosest target 3;
    for_each closest (λ node,
      send_query (λ tid id, EncodeFindNode tid id target) (node_addr node))).

Section network.
(** [net.ResolveUDPAddr] and [net.ListenUDP]: the resolver's answer for a name, and
    whether a port can be bound. *)
Context (resolve : bytes → option udp_addr) (can_listen : Z → bool).

Definition Bootstrap : prog World unit :=
  bootstraps ← gets (λ w, n_bootstraps (w_node w));
  _ ← for_each bootstraps (λ addr,
    match resolve addr with
    | None => Ret tt
    | Some udpAddr =>
        _ ← send_query find_self udpAddr;
        for_each (seq 0 3) (λ _,
          randomID ← rand_Read 20;
          send_query (λ tid id, EncodeFindNode tid id randomID) udpAddr)
    end);
  _ ← sleep;
  for_each (seq 0 3) (λ _,
    id ← ID;
    closest ← table_FindClosest id (Z.of_nat K * 2);
    _ ← for_each closest (λ node,
      _ ← send_query find_self (node_addr node);
      randomID ← rand_Read 20;
      send_query (λ tid id, EncodeFindNode tid id randomID) (node_addr node));
    sleep).

Inductive tick := TickBootstrap | TickQuery | TickRefresh.

(** The ticks one run of [refreshLoop] receives, in order. *)
Definition refreshLoop (ticks : list tick) : prog World unit :=
  for_each ticks (λ t,
    match t with
    | TickBootstrap =>
        size ← table_Size;
        if (size <? K * 2)%nat then Bootstrap else Ret tt
    | TickQuery => for_each (seq 0 3) (λ _, activeQuery)
    | TickRefresh => refresh
    end).

(** [Start]; its result is whether the port could be bound. *)
Definition Start (reads : list (option (bytes * udp_addr))) (ticks : list tick) (rotations : nat)
  : prog World bool :=
  port ← gets (λ w, n_Port (w_node w));
  if negb (can_listen port) then Ret false
  else
    _ ← modify (on_node (λ n, set_table (Some (NewRoutingTable (n_ID n))) n));
    _ ← go (readLoop reads);
    _ ← go (refreshLoop ticks);
    _ ← go (rotateSecrets rotations);
    _ ← Bootstrap;
    Ret true.
End network.

Definition NewNode (id : NodeID) (port : Z) (bootstraps : list bytes) (secret : bytes) : Node :=
  mkNode id port None bootstraps secret secret 0 0 0 0 ∅ 0.

(** Five loads, one after the other. *)
Definition Stats : prog World (Z * Z * Z * Z * nat) :=
  queriesRecv ← gets (λ w, n_queriesReceived (w_node w));
  queriesSent ← gets (λ w, n_queriesSent (w_node w));
  getPeers ← gets (λ w, n_getPeersCount (w_node w));
  announces ← gets (λ w, n_announceCount (w_node w));
  routingSize ← table_Size;
  Ret (queriesRecv, queriesSent, getPeers, announces, routingSize).

(** ** Active lookups *)

(** The variables the goroutines of one [FindPeers] share: [allPeers], and those of the
    current round. *)
Record Locals := mkLocals {
  l_allPeers : list CompactPeerInfo;
  l_newNodes : list CompactNodeInfo;
  l_roundResponses : Z;
  l_wg : Z;
}.

Abbreviation Lookup := (World * Locals)%type.

Definition on_locals (f : Locals → Locals) : prog Lookup unit := modify (λ s, (s.1, f s.2)).

Definition in_world {A : Type} (p : prog World A) : prog Lookup A := lift fst (λ w s, (w, s.2)) p.

Definition wg_add (z : Z) : prog Lookup unit :=
  on_locals (λ l, mkLocals (l_allPeers l) (l_newNodes l) (l_roundResponses l) (l_wg l + z)).
Definition wg_wait : prog Lookup unit :=
  Select (λ s, if l_wg s.2 =? 0 then [Ok (tt, s)] else []) Ret.

(** [respChan := make(chan *Message, 1)], by its number. *)
Definition make_reply (w : World) : nat * World :=
  (length (w_replies w), set_replies (w_replies w ++ [make_chan 1]) w).

(** [select] on the reply, the timeout and the context: the reply when there is one; a
    timer or a cancellation can always win. *)
Definition await (ch : nat) : prog Lookup (option Message) :=
  Select (λ s,
    match w_replies s.1 !! ch with
    | Some c => (λ mc, Ok (mc.1, (set_replies (<[ch := mc.2]> (w_replies s.1)) s.1, s.2))) <$> chan_recv c
    | None => []
    end ++ [Ok (None, s)]) Ret.

(** The goroutine that queries one node. *)
Definition query_node (infoHash : bytes) (node : RoutingNode) : prog Lookup unit :=
  tid ← in_world nextTxnID;
  ch ← in_world (update make_reply);
  _ ← in_world (modify (on_node (λ n, set_pending (<[tid := ch]> (n_pendingTxns n)) n)));
  id ← in_world ID;
  msg ← in_world (encoded (EncodeGetPeers tid id infoHash));
  _ ← in_world (WriteToUDP msg (node_addr node));
  _ ← in_world (count 0 1 0 0);
  resp ← await ch;
  _ ← match resp with
      | None => Ret tt
      | Some resp =>
          _ ← on_locals (λ l, mkLocals (l_allPeers l) (l_newNodes l) (l_roundResponses l + 1) (l_wg l));
          let peers := GetResponsePeers resp in
          _ ← (if (0 <? length peers)%nat
               then on_locals (λ l, mkLocals (l_allPeers l ++ peers) (l_newNodes l) (l_roundResponses l) (l_wg l))
               else Ret tt);
          let nodes := GetResponseNodes resp in
          if (0 <? length nodes)%nat
          then on_locals (λ l, mkLocals (l_allPeers l) (l_newNodes l ++ nodes) (l_roundResponses l) (l_wg l))
          else Ret tt
      end;
  wg_add (-1).

(** The loop over [closest]: a goroutine per node not queried yet. *)
Fixpoint query_all (infoHash : bytes) (closest : list RoutingNode) (queried : gset bytes)
  : prog Lookup (gset bytes) :=
  match closest with
  | [] => Ret queried
  | node :: closest =>
      let nodeKey := Hex (rn_ID node) in
      if decide (nodeKey ∈ queried) then query_all infoHash closest queried
      else
        _ ← wg_add 1;
        _ ← go (query_node infoHash node);
        query_all infoHash closest ({[nodeKey]} ∪ queried)
  end.

Fixpoint find_rounds (rounds : nat) (infoHash target : bytes) (queried : gset bytes)
  : prog Lookup unit :=
  match rounds with
  | O => Ret tt
  | S rounds =>
      closest ← in_world (table_FindClosest target (Z.of_nat K));
      if (length closest =? 0)%nat then Ret tt
      else
        _ ← on_locals (λ l, mkLocals (l_allPeers l) [] 0 0);
        queried ← query_all infoHash closest queried;
        _ ← wg_wait;
        allPeers ← gets (λ s, l_allPeers s.2);
        if (0 <? length allPeers)%nat then Ret tt
        else
          newNodes ← gets (λ s, l_newNodes s.2);
          _ ← for_each newNodes (λ node,
                in_world (table_Insert (cn_ID node) (cn_IP node) (cn_Port node)));
          find_rounds rounds infoHash target queried
  end.

Definition no_locals : Locals := mkLocals [] [] 0 0.

Definition FindPeers (infoHash : bytes) : prog Lookup (list CompactPeerInfo) :=
  let target := match FromBytes infoHash with Ok id => id | _ => zeroID end in
  _ ← find_rounds 3 infoHash target ∅;
  gets (λ s, l_allPeers s.2).
