(* ===== verification/NodeSpec.v ===== *)
(** * What a DHT node guarantees

    The invariant of a node's world, kept by every atomic section of its goroutines and
    so by every interleaving of them; what each handler does; the tokens and the
    transaction identifiers. *)

From S2P Require Import Prelude GoStd Net Bencode BencodeSpec NodeID Routing Krpc Conc Node.

(** ** The invariant *)

(** The nodes a table holds were seen on IPv4 datagrams or in compact node lists. *)
Definition known_node (n : RoutingNode) : Prop := wf_node (compact_of n).

Definition event_ok (e : Event) : Prop :=
  is_id (ev_InfoHash e) ∧ length (ev_PeerIP e) = 4%nat ∧ is_int64 (ev_PeerPort e).

Definition message_ok (m : Message) : Prop := sized (TransactionID m).

Definition u64 (z : Z) : Prop := 0 ≤ z < 2 ^ 64.

(** A datagram other nodes can read. *)
Definition packet_ok (p : bytes * udp_addr) : Prop := is_ok (DecodeMessage p.1) = true.

Record node_inv (w : World) : Prop := mkNodeInv {
  ni_ID : is_id (n_ID (w_node w));
  ni_table : ∃ rt, n_routingTable (w_node w) = Some rt ∧ rt_inv rt ∧
    localID rt = n_ID (w_node w) ∧ ∀ n, n ∈ GetAllNodes rt → known_node n;
  ni_secrets : length (n_tokenSecret (w_node w)) = 16%nat ∧ length (n_lastSecret (w_node w)) = 16%nat;
  ni_counters : u64 (n_queriesReceived (w_node w)) ∧ u64 (n_queriesSent (w_node w)) ∧
    u64 (n_getPeersCount (w_node w)) ∧ u64 (n_announceCount (w_node w));
  ni_txn : 0 ≤ n_txnIDCounter (w_node w) < 2 ^ 16;
  ni_pending : ∀ tid ch, n_pendingTxns (w_node w) !! tid = Some ch → length tid = 2%nat;
  ni_replies : Forall (λ c, chan_ok message_ok c ∧ ch_cap c = 1) (w_replies w);
  ni_events : chan_ok event_ok (w_events w);
  ni_sent : Forall packet_ok (w_sent w);
}.

(** The panics that a datagram can cause. *)
Definition remote_panic (p : panic) : Prop := p = PanicMakeSlice ∨ p = PanicSliceBounds.

(** A UDP source address on a "udp4" socket. *)
Definition wf_addr (a : udp_addr) : Prop := length (addr_IP a) = 4%nat ∧ 0 ≤ addr_Port a < 2 ^ 16.

Abbreviation node_ok p Q := (prog_ok node_inv remote_panic p Q).

Lemma u64_wrap z : u64 (wrapU 64 z).
Proof. apply wrapU_range. lia. Qed.

(** Sections that change only what the invariant does not mention, or keep its parts. *)
Lemma node_ok_count a b c d : node_ok (count a b c d) (λ _, True).
Proof.
  apply prog_ok_modify; [|done]. intros w [H1 H2 H3 H4 H5 H6 H7 H8 H9].
  constructor; try done. cbn. auto using u64_wrap.
Qed.

Lemma node_ok_WriteToUDP data addr :
  is_ok (DecodeMessage data) = true → node_ok (WriteToUDP data addr) (λ _, True).
Proof.
  intros Hd. apply prog_ok_modify; [|done]. intros w [H1 H2 H3 H4 H5 H6 H7 H8 H9].
  constructor; try done. cbn. apply Forall_app. split; [done|]. by constructor; [|constructor].
Qed.

Lemma node_ok_ID : node_ok ID is_id.
Proof. apply prog_ok_gets. by intros w []. Qed.

(** What an encoder that delivers yields. *)
Lemma node_ok_encoded o P : delivers o P → node_ok (encoded o) (λ p, is_ok (DecodeMessage p) = true).
Proof. intros (p & m & -> & Hm & _). apply prog_ok_checked. intros w _. cbn [ignore_err]. by rewrite Hm. Qed.

Lemma node_ok_rand n : node_ok (rand_Read n) (λ b, length b = n).
Proof.
  apply prog_ok_update. intros w [H1 H2 H3 H4 H5 H6 H7 H8 H9]. split; [by constructor|].
  cbn. rewrite length_take, length_app, length_replicate. lia.
Qed.

Lemma node_ok_Insert id ip port :
  wf_node (mkCompactNodeInfo id ip port) → node_ok (table_Insert id ip port) (λ _, True).
Proof.
  intros Hn. apply prog_ok_try_update; [|done].
  intros w [H1 (rt & Hrt & Hinv & Hl & Hall) H3 H4 H5 H6 H7 H8 H9]. unfold table.
  rewrite Hrt. cbn. constructor; try done. cbn. destruct Hn as (Hid & Hip & Hport).
  pose proof (Insert_correct rt Hinv id Hid (w_now w) ip port) as HI.
  pose proof (Insert_elem (w_now w) id ip port rt) as HE.
  destruct (Insert (w_now w) id ip port rt) as [ok rt']. destruct HI as (Hinv' & Hl' & _).
  exists rt'. split_and!; [done|done|by rewrite Hl'|].
  intros n Hin. destruct (HE n Hinv Hid Hin) as [->|]; [done|by apply Hall].
Qed.

Lemma node_ok_FindClosest target count :
  is_id target → 0 ≤ count →
  node_ok (table_FindClosest target count)
    (λ ns, Forall known_node ns ∧ Z.of_nat (length ns) ≤ count).
Proof.
  intros Ht Hc. apply prog_ok_checked.
  intros w [H1 (rt & Hrt & Hinv & Hl & Hall) _ _ _ _ _ _ _]. unfold table. rewrite Hrt. cbn.
  destruct (FindClosest_spec rt target count Hinv Ht Hc) as (ns & -> & Hlen & _ & Hin & _).
  split; [|lia]. apply Forall_forall. auto.
Qed.

Lemma node_ok_emit ev : event_ok ev → node_ok (emit ev) (λ _, True).
Proof.
  intros He. apply prog_ok_try_update; [|done]. intros w [H1 H2 H3 H4 H5 H6 H7 H8 H9].
  destruct (try_send_ok event_ok ev _ H8 He) as (c & -> & Hc & _). cbn. by constructor.
Qed.

(** ** Tokens *)

Lemma length_token_loop is_ secret ip token t :
  token_loop is_ secret ip token = Ok t → length t = length token.
Proof.
  revert token. induction is_ as [|i is_ IH]; intros token; cbn; [by intros [= ->]|].
  case_match; [|by intros [= ->]]. case_decide; [done|]. intros Ht%IH.
  by rewrite length_insert in Ht.
Qed.

Lemma token_loop_ok is_ secret ip token :
  ip ≠ [] → ∃ t, token_loop is_ secret ip token = Ok t.
Proof.
  intros Hip. revert token. induction is_ as [|i is_ IH]; intros token; cbn; [eauto|].
  case_match; [|eauto]. rewrite decide_False by done. apply IH.
Qed.

Lemma wf_addr_ip a : wf_addr a → addr_IP a ≠ [].
Proof. intros [H _] E. by rewrite E in H. Qed.

Lemma make_token_ok secret ip :
  ip ≠ [] → ∃ t, make_token secret ip = Ok t ∧ length t = 8%nat.
Proof.
  intros Hip. destruct (token_loop_ok [0; 1; 2; 3]%nat secret ip (replicate 8 x00) Hip) as [t Ht].
  exists t. split; [done|]. by rewrite (length_token_loop _ _ _ _ _ Ht).
Qed.

Lemma slice_prefix {E} (s : bytes) n :
  slice s 0 (Z.of_nat n) =
  (if (n <=? length s)%nat then Ok (take n s) else Panic PanicSliceBounds : outcome E bytes).
Proof.
  unfold slice. rewrite (proj2 (Z.leb_le 0 0)), (proj2 (Z.leb_le 0 (Z.of_nat n))) by lia. cbn [andb].
  destruct (Z.leb_spec (Z.of_nat n) (Z.of_nat (length s))), (Nat.leb_spec n (length s)); try lia; [|done].
  by rewrite drop_0, Z.sub_0_r, Nat2Z.id.
Qed.

(** A token is compared as a prefix, under the current secret and then under the last
    one; nine bytes are out of range. *)
Lemma check_token_spec cur last token ip :
  ip ≠ [] → (4 ≤ length cur)%nat → (4 ≤ length last)%nat →
  ∃ e e', make_token cur ip = Ok e ∧ make_token last ip = Ok e' ∧
    length e = 8%nat ∧ length e' = 8%nat ∧
    check_token cur last token ip =
      if (length token <=? 8)%nat
      then Ok (bool_decide (token = take (length token) e ∨ token = take (length token) e'))
      else Panic PanicSliceBounds.
Proof.
  intros Hip Hc Hl.
  destruct (make_token_ok cur ip Hip) as (e & He & Hle), (make_token_ok last ip Hip) as (e' & He' & Hle').
  exists e, e'. split_and!; [done..|]. unfold check_token. rewrite He. cbn [mbind outcome_bind].
  rewrite slice_prefix, Hle.
  destruct (Nat.leb_spec (length token) 8) as [Ht|]; [|done]. cbn [mbind outcome_bind].
  assert (fill_token last ip e = Ok e') as ->.
  { rewrite <- He'. unfold make_token, fill_token in *. cbn [token_loop] in He |- *.
    assert (∀ i, (i < 4)%nat → (i <? length last)%nat = true) as Hi by (intros; apply Nat.ltb_lt; lia).
    assert (∀ i, (i < 4)%nat → (i <? length cur)%nat = true) as Hj by (intros; apply Nat.ltb_lt; lia).
    rewrite !Hi by lia. rewrite !Hj in He by lia. rewrite !decide_False in * by done.
    by injection He as <-. }
  cbn [mbind outcome_bind]. rewrite slice_prefix, Hle', (proj2 (Nat.leb_le _ _) Ht). cbn [mbind outcome_bind].
  case_decide as H1.
  - symmetry. f_equal. apply bool_decide_eq_true. by left.
  - f_equal. apply bool_decide_ext. tauto.
Qed.

Lemma node_ok_generateToken ip :
  ip ≠ [] → node_ok (generateToken ip) (λ t, length t = 8%nat).
Proof.
  intros Hip. apply prog_ok_checked. intros w _.
  by destruct (make_token_ok (n_tokenSecret (w_node w)) ip Hip) as (t & -> & ?).
Qed.

Lemma node_ok_validateToken token ip :
  ip ≠ [] → node_ok (validateToken token ip) (λ _, True).
Proof.
  intros Hip. apply prog_ok_checked. intros w [_ _ [Hc Hl] _ _ _ _ _ _].
  destruct (check_token_spec (n_tokenSecret (w_node w)) (n_lastSecret (w_node w)) token ip Hip
    ltac:(lia) ltac:(lia)) as (e & e' & _ & _ & _ & _ & ->).
  destruct (length token <=? 8)%nat; [done|by right].
Qed.

(** ** Every handler keeps the invariant *)

Tactic Notation "step" uconstr(L) := eapply prog_ok_bind; [eapply L|].

Lemma node_ok_mono {A : Type} (p : prog World A) Q :
  node_ok p Q → node_ok p (λ _, True).
Proof. intros H. by eapply prog_ok_mono. Qed.

Lemma node_ok_reply encode (addr : udp_addr) P (Q : World → Prop) :
  (∀ id, is_id id → delivers (encode id) (P id)) →
  node_ok (id ← ID; resp ← encoded (encode id); WriteToUDP resp addr) (λ _, True).
Proof.
  intros H. step node_ok_ID. intros id Hid. cbn beta in Hid. step node_ok_encoded; [by apply H|].
  intros resp Hr. by apply node_ok_WriteToUDP.
Qed.

Lemma compact_wf ns n :
  Forall known_node ns → Z.of_nat (length ns) ≤ n → n ≤ 1000 → wf_nodes (compact_of <$> ns).
Proof.
  intros Hk Hl Hn. split; [|rewrite length_fmap; unfold maxAlloc; lia].
  apply Forall_fmap. exact Hk.
Qed.

Lemma sized_token (t : bytes) : length t = 8%nat → sized t.
Proof. intros H. apply sized_small. lia. Qed.

Lemma GetTarget_is_id m t : GetTarget m = Some t → is_id t.
Proof. apply get_id_is_id. Qed.

Lemma FromBytes_target (h : bytes) :
  is_id h → match FromBytes h with Ok id => id | _ => zeroID end = h.
Proof. intros H. by rewrite FromBytes_ok. Qed.

Section handlers.
Context (msg : Message) (addr : udp_addr) (Hm : message_ok msg) (Ha : wf_addr addr).

Lemma node_ok_handlePing : node_ok (handlePing msg addr) (λ _, True).
Proof using Hm.
  eapply (node_ok_reply (λ id, EncodePingResponse (TransactionID msg) id)); [exact (λ _, True)|].
  intros id Hid. by apply deliver_ping_response.
Qed.

Lemma node_ok_handleFindNode : node_ok (handleFindNode msg addr) (λ _, True).
Proof using Hm.
  unfold handleFindNode. destruct (GetTarget msg) as [t|] eqn:Et; [|done].
  step node_ok_FindClosest; [by eapply GetTarget_is_id|done|]. intros ns [Hk Hl].
  eapply (node_ok_reply (λ id, EncodeFindNodeResponse (TransactionID msg) id (compact_of <$> ns)));
    [exact (λ _, True)|].
  intros id Hid. apply deliver_find_node_response; [done..|]. by eapply compact_wf.
Qed.

Lemma node_ok_handleGetPeers : node_ok (handleGetPeers msg addr) (λ _, True).
Proof using Hm Ha.
  unfold handleGetPeers. destruct (GetInfoHash msg) as [h|] eqn:Eh; [|done].
  apply GetInfoHash_is_id in Eh. rewrite FromBytes_target by done.
  step node_ok_count. intros _ _. step node_ok_emit.
  { destruct Ha. repeat split; cbn; [done..| |]; unfold min_int64, max_int64; lia. }
  intros _ _. step node_ok_FindClosest; [done..|]. intros ns [Hk Hl].
  step node_ok_generateToken; [by apply wf_addr_ip|]. intros t Ht.
  eapply (node_ok_reply (λ id, EncodeGetPeersResponseNodes (TransactionID msg) id t (compact_of <$> ns)));
    [exact (λ _, True)|].
  intros id Hid. apply deliver_get_peers_nodes; [done..|by apply sized_token|]. by eapply compact_wf.
Qed.

Lemma node_ok_handleAnnouncePeer :
  (∀ port, GetPort msg = Some port → is_int64 port) →
  node_ok (handleAnnouncePeer msg addr) (λ _, True).
Proof using Hm Ha.
  intros Hport. unfold handleAnnouncePeer. destruct (GetInfoHash msg) as [h|] eqn:Eh; [|done].
  apply GetInfoHash_is_id in Eh. destruct (GetToken msg) as [tok|]; [|done].
  step node_ok_validateToken; [by apply wf_addr_ip|]. intros [] _; [|done]. cbn [negb].
  step node_ok_count. intros _ _. step node_ok_emit.
  { destruct Ha. split_and!; cbn; [done..|]. destruct (GetPort msg); [by apply Hport|].
    cbn. unfold is_int64, min_int64, max_int64; lia. }
  intros _ _. eapply (node_ok_reply (λ id, EncodeAnnouncePeerResponse (TransactionID msg) id));
    [exact (λ _, True)|]. intros id Hid. by apply deliver_announce_response.
Qed.

Lemma node_ok_handleQuery :
  (∀ port, GetPort msg = Some port → is_int64 port) →
  node_ok (handleQuery msg addr) (λ _, True).
Proof using Hm Ha.
  intros Hport. unfold handleQuery. eapply prog_ok_bind with (Q := λ _, True).
  - destruct (GetQueryNodeID msg) as [id|] eqn:E; [|exact I].
    apply node_ok_Insert. apply get_id_is_id in E. by destruct Ha.
  - intros _ _. repeat case_decide; try done; auto using node_ok_handlePing,
      node_ok_handleFindNode, node_ok_handleGetPeers, node_ok_handleAnnouncePeer.
Qed.

Lemma response_id_is_id id : response_id msg = Some id → is_id id.
Proof using.
  unfold response_id. destruct (Response msg) as [r|]; [|done].
  destruct (dict_lookup (bs "id") r) as [[]|]; try done.
  destruct (FromBytes s) eqn:E; try done. intros [= <-]. by apply FromBytes_inv in E as [? ->].
Qed.

Lemma take_pending_inv w key : node_inv w → node_inv (take_pending key w).2.
Proof using.
  intros Hw. unfold take_pending. destruct (n_pendingTxns (w_node w) !! key) as [ch|] eqn:E; [|done].
  destruct Hw as [H1 H2 H3 H4 H5 H6 H7 H8 H9].
  constructor; try done. cbn. intros tid c [_ Hl]%lookup_delete_Some. eauto.
Qed.

Lemma reply_inv w ch :
  node_inv w → match reply ch msg w with Ok w' => node_inv w' | _ => False end.
Proof using Hm.
  intros [H1 H2 H3 H4 H5 H6 H7 H8 H9]. unfold reply.
  destruct (w_replies w !! ch) as [c|] eqn:E; [|by constructor].
  destruct (Forall_lookup_1 _ _ _ _ H7 E) as [Hc Hcap].
  destruct (try_send_ok message_ok msg c Hc Hm) as (c' & -> & Hc' & Hcap' & _). cbn.
  constructor; try done; cbn. apply Forall_insert; [done|]. split; [done|]. by rewrite Hcap'.
Qed.

Lemma node_ok_handleResponse : node_ok (handleResponse msg addr) (λ _, True).
Proof using Hm Ha.
  unfold handleResponse. eapply prog_ok_bind with (Q := λ _, True).
  { destruct (response_id msg) as [id|] eqn:E; [|exact I].
    apply node_ok_Insert. apply response_id_is_id in E. by destruct Ha. }
  intros _ _. step (prog_ok_update _ _ _ (λ _, True)).
  { intros w Hw. split; [by apply take_pending_inv|done]. }
  intros ch _. eapply prog_ok_bind with (Q := λ _, True).
  { destruct ch as [ch|]; [|exact I]. eapply (prog_ok_try_update _ _ _ (λ _, True)); [|done].
    intros w Hw. pose proof (reply_inv w ch Hw). by destruct (reply ch msg w). }
  intros _ _. apply prog_ok_for_each. intros n Hn. apply node_ok_Insert.
  pose proof (GetResponseNodes_wf msg) as H. rewrite Forall_forall in H. by destruct (H n Hn).
Qed.
End handlers.

Lemma node_ok_handleMessage data addr :
  wf_addr addr → node_ok (handleMessage data addr) (λ _, True).
Proof.
  intros Ha. unfold handleMessage.
  step (prog_ok_checked _ _ _ (λ o, ∀ m, o = Some m → DecodeMessage data = Ok m)).
  { intros w _. pose proof (fueled_DecodeMessage data) as Hf.
    pose proof (DecodeMessage_panic data) as Hp.
    destruct (DecodeMessage data) as [m|e|p|]; cbn; [by intros ? [= ->]|done|left; by apply Hp|done]. }
  intros [msg|] H; [|done]. specialize (H msg eq_refl).
  pose proof (TransactionID_sized _ _ H) as Hm. step node_ok_count. intros _ _.
  repeat case_decide; [|by apply node_ok_handleResponse|done].
  apply node_ok_handleQuery; [done..|]. intros port. by eapply GetPort_int64.
Qed.

(** ** The node's own work keeps the invariant *)

Lemma length_txn_bytes id : length (txn_bytes id) = 2%nat.
Proof. done. Qed.

Lemma node_ok_nextTxnID : node_ok nextTxnID (λ tid, length tid = 2%nat).
Proof.
  apply prog_ok_update. intros w [H1 H2 H3 H4 H5 H6 H7 H8 H9]. cbn. split; [|done].
  constructor; try done. cbn. by apply wrapU_range.
Qed.

Lemma node_ok_send_query encode addr (P : bytes → NodeID → Message → Prop) :
  (∀ tid id, sized tid → is_id id → delivers (encode tid id) (P tid id)) →
  node_ok (send_query encode addr) (λ _, True).
Proof.
  intros H. step node_ok_nextTxnID. intros tid Ht. step node_ok_ID. intros id Hid.
  step node_ok_encoded; [apply H; [apply sized_small; cbn in Ht; lia|done]|].
  intros p Hp. step node_ok_WriteToUDP; [done|]. intros _ _. apply node_ok_count.
Qed.

Lemma node_ok_find_self addr : node_ok (send_query find_self addr) (λ _, True).
Proof. eapply node_ok_send_query. intros tid id Ht Hid. exact (deliver_find_node tid id Ht Hid id Hid). Qed.

Lemma node_ok_find target addr :
  is_id target → node_ok (send_query (λ tid id, EncodeFindNode tid id target) addr) (λ _, True).
Proof. intros H. eapply node_ok_send_query. intros tid id Ht Hid. exact (deliver_find_node tid id Ht Hid target H). Qed.

Lemma node_ok_get_peers h addr :
  is_id h → node_ok (send_query (λ tid id, EncodeGetPeers tid id h) addr) (λ _, True).
Proof. intros H. eapply node_ok_send_query. intros tid id Ht Hid. exact (deliver_get_peers tid id Ht Hid h H). Qed.

Lemma node_ok_sleep : node_ok sleep (λ _, True).
Proof. by apply prog_ok_modify. Qed.

Lemma node_ok_activeQuery : node_ok activeQuery (λ _, True).
Proof.
  step node_ok_rand. intros h Hh. cbn beta in Hh. rewrite FromBytes_target by done.
  step node_ok_FindClosest; [done..|]. intros ns _.
  apply prog_ok_for_each. intros n _. by apply node_ok_get_peers.
Qed.

Lemma node_ok_refresh : node_ok refresh (λ _, True).
Proof.
  apply prog_ok_for_each. intros _ _. step node_ok_rand. intros t Ht.
  step node_ok_FindClosest; [done..|]. intros ns _.
  apply prog_ok_for_each. intros n _. by apply node_ok_find.
Qed.

Lemma node_ok_rotate : node_ok (modify rotate) (λ _, True).
Proof.
  apply prog_ok_modify; [|done]. intros w [H1 H2 [H3 _] H4 H5 H6 H7 H8 H9].
  constructor; try done. cbn [rotate next_draw on_node set_secrets w_node n_tokenSecret n_lastSecret].
  split; [|done]. rewrite length_take, length_app, length_replicate. lia.
Qed.

Lemma node_ok_rotateSecrets n : node_ok (rotateSecrets n) (λ _, True).
Proof. apply prog_ok_for_each. intros _ _. apply node_ok_rotate. Qed.

Lemma node_ok_Bootstrap resolve : node_ok (Bootstrap resolve) (λ _, True).
Proof.
  step (prog_ok_gets _ _ _ (λ _, True)); [done|]. intros bootstraps _. eapply prog_ok_bind.
  { apply prog_ok_for_each. intros a _. destruct (resolve a) as [addr|]; [|done].
    step node_ok_find_self. intros _ _. apply prog_ok_for_each. intros _ _.
    step node_ok_rand. intros r Hr. by apply node_ok_find. }
  intros _ _. step node_ok_sleep. intros _ _. apply prog_ok_for_each. intros _ _.
  step node_ok_ID. intros id Hid. step node_ok_FindClosest; [done..|]. intros ns _.
  eapply prog_ok_bind; [|intros _ _; apply node_ok_sleep].
  apply prog_ok_for_each. intros n _. step node_ok_find_self. intros _ _.
  step node_ok_rand. intros r Hr. by apply node_ok_find.
Qed.

Lemma node_ok_table_Size : node_ok table_Size (λ _, True).
Proof.
  apply prog_ok_checked. intros w [_ (rt & Hrt & _) _ _ _ _ _ _ _].
  unfold table. by rewrite Hrt.
Qed.

Lemma node_ok_refreshLoop resolve ticks : node_ok (refreshLoop resolve ticks) (λ _, True).
Proof.
  apply prog_ok_for_each. intros t _. destruct t.
  - step node_ok_table_Size. intros n _. case_match; [apply node_ok_Bootstrap|done].
  - apply prog_ok_for_each. intros _ _. apply node_ok_activeQuery.
  - apply node_ok_refresh.
Qed.

Lemma node_ok_readLoop reads :
  (∀ data addr, Some (data, addr) ∈ reads → wf_addr addr) → node_ok (readLoop reads) (λ _, True).
Proof.
  intros H. apply prog_ok_for_each. intros [[data addr]|] Hin; [|done].
  split; [|done]. apply node_ok_handleMessage. eauto.
Qed.

Lemma node_ok_Stats : node_ok Stats (λ _, True).
Proof.
  do 4 (step (prog_ok_gets _ _ _ (λ _, True)); [done|]; intros ? _).
  step node_ok_table_Size. done.
Qed.

(** ** Lookups keep the invariant *)

Definition locals_inv (l : Locals) : Prop :=
  Forall wf_peer (l_allPeers l) ∧ Forall wf_node (l_newNodes l).

Definition lookup_inv (s : Lookup) : Prop := node_inv s.1 ∧ locals_inv s.2.

Abbreviation lookup_ok p Q := (prog_ok lookup_inv remote_panic p Q).

Lemma lookup_ok_in_world {A : Type} (p : prog World A) Q : node_ok p Q → lookup_ok (in_world p) Q.
Proof. apply prog_ok_lift; [by intros t []|]. by intros [w l] w' [_ ?] ?. Qed.

Lemma lookup_ok_locals f :
  (∀ l, locals_inv l → locals_inv (f l)) → lookup_ok (on_locals f) (λ _, True).
Proof. intros H. apply prog_ok_modify; [|done]. intros [w l] [? ?]. split; cbn; auto. Qed.

Lemma lookup_ok_await ch : lookup_ok (await ch) (λ _, True).
Proof.
  intros [w l] o [Hw Hl] Hin. cbn in Hin.
  apply elem_of_app in Hin as [Hin|Hin]; [|by apply list_elem_of_singleton in Hin as ->].
  destruct (w_replies w !! ch) as [c|] eqn:E; [|by apply elem_of_nil in Hin].
  apply list_elem_of_fmap in Hin as ([m c'] & -> & Hc). split; [|done]. split; [|done].
  destruct Hw as [H1 H2 H3 H4 H5 H6 H7 H8 H9]. constructor; try done; cbn.
  apply Forall_insert; [done|]. destruct (Forall_lookup_1 _ _ _ _ H7 E) as [(Hlen & Ho & HP) Hcap].
  unfold chan_recv in Hc. destruct c as [buf cap closed].
  cbn [ch_buf ch_cap ch_closed] in *. subst closed.
  destruct buf as [|x buf]; [set_solver|].
  apply list_elem_of_singleton in Hc as [= -> ->]. cbn [length] in Hlen.
  apply Forall_cons_1 in HP as [_ HP]. unfold chan_ok; cbn. split_and!; [lia|done..].
Qed.

Lemma lookup_ok_query_node infoHash node :
  is_id infoHash → lookup_ok (query_node infoHash node) (λ _, True).
Proof.
  intros Hh. unfold query_node. step lookup_ok_in_world; [apply node_ok_nextTxnID|].
  intros tid Ht. cbn beta in Ht.
  step (lookup_ok_in_world _ (λ _, True)).
  { apply prog_ok_update. intros w [H1 H2 H3 H4 H5 H6 H7 H8 H9]. split; [|done].
    constructor; try done; cbn. apply Forall_app. split; [done|]. by repeat constructor. }
  intros ch _. step (lookup_ok_in_world _ (λ _, True)).
  { apply prog_ok_modify; [|done]. intros w [H1 H2 H3 H4 H5 H6 H7 H8 H9].
    constructor; try done; cbn. intros tid' c [[<- _]|[_ Hl]]%lookup_insert_Some; eauto. }
  intros _ _. step lookup_ok_in_world; [apply node_ok_ID|]. intros id Hid.
  step lookup_ok_in_world.
  { eapply node_ok_encoded. exact (deliver_get_peers tid id (sized_small tid ltac:(lia)) Hid infoHash Hh). }
  intros msg Hmsg. step lookup_ok_in_world; [by apply node_ok_WriteToUDP|]. intros _ _.
  step lookup_ok_in_world; [apply node_ok_count|]. intros _ _.
  step lookup_ok_await. intros resp _.
  eapply prog_ok_bind with (Q := λ _, True); [|intros _ _; by apply lookup_ok_locals].
  destruct resp as [resp|]; [|done].
  step lookup_ok_locals; [done|]. intros _ _. eapply prog_ok_bind with (Q := λ _, True).
  - case_match; [|done]. apply lookup_ok_locals. intros l [? ?]. split; [|done].
    apply Forall_app. split; [done|apply GetResponsePeers_wf].
  - intros _ _. case_match; [|done]. apply lookup_ok_locals. intros l [? ?]. split; [done|].
    apply Forall_app. split; [done|apply GetResponseNodes_wf].
Qed.

Lemma lookup_ok_query_all infoHash closest queried :
  is_id infoHash → lookup_ok (query_all infoHash closest queried) (λ _, True).
Proof.
  intros Hh. revert queried. induction closest as [|n closest IH]; intros queried; [done|].
  cbn [query_all]. case_decide; [apply IH|]. step lookup_ok_locals; [done|]. intros _ _.
  eapply prog_ok_bind with (Q := λ _, True); [split; [by apply lookup_ok_query_node|exact I]|].
  intros _ _. apply IH.
Qed.

Lemma lookup_ok_FindPeers infoHash :
  is_id infoHash → lookup_ok (FindPeers infoHash) (Forall wf_peer).
Proof.
  intros Hh. unfold FindPeers. rewrite FromBytes_target by done.
  eapply prog_ok_bind with (Q := λ _, True); [|intros _ _; apply prog_ok_gets; by intros s [_ []]].
  enough (∀ rounds queried, lookup_ok (find_rounds rounds infoHash infoHash queried) (λ _, True)) by done.
  induction rounds as [|rounds IH]; intros queried; [done|].
  cbn [find_rounds]. step lookup_ok_in_world; [by apply node_ok_FindClosest|]. intros ns _.
  case_match; [done|]. step lookup_ok_locals; [by intros l [? ?]|]. intros _ _.
  step lookup_ok_query_all; [done|]. intros q _.
  eapply prog_ok_bind with (Q := λ _, True).
  { intros s o Hs Hin. cbn in Hin. case_match; [|by apply elem_of_nil in Hin].
    apply list_elem_of_singleton in Hin as ->. by split. }
  intros _ _. step (prog_ok_gets _ _ _ (λ _, True)); [done|]. intros peers _. case_match; [done|].
  step (prog_ok_gets _ _ _ (Forall wf_node)); [by intros s [_ []]|]. intros nodes Hn.
  eapply prog_ok_bind with (Q := λ _, True); [|intros _ _; apply IH].
  apply prog_ok_for_each. intros n Hin. rewrite Forall_forall in Hn.
  apply lookup_ok_in_world, node_ok_Insert. by destruct (Hn n Hin).
Qed.

(** ** The node's goroutines, interleaved *)

#[global] Instance Locals_inhabited : Inhabited Locals := populate no_locals.

(** The node and the variables of the lookups started so far. *)
Abbreviation Sys := (World * list Locals)%type.

Definition in_sys {A : Type} (p : prog World A) : prog Sys A := lift fst (λ w s, (w, s.2)) p.
Definition lookup_at {A : Type} (i : nat) (p : prog Lookup A) : prog Sys A :=
  lift (λ s, (s.1, s.2 !!! i)) (λ l s, (l.1, <[i := l.2]> s.2)) p.

(** What happens to a running node: time passes, a datagram arrives, a consumer takes an
    event, a timer fires, statistics are read, a lookup starts. *)
Inductive node_env (resolve : bytes → option udp_addr) : config Sys → config Sys → Prop :=
  | env_time t w ls pool :
      w_now w ≤ t → node_env resolve ((w, ls), pool) ((set_now t w, ls), pool)
  | env_datagram data addr s pool :
      wf_addr addr → node_env resolve (s, pool) (s, pool ++ [in_sys (handleMessage data addr)])
  | env_consume e c w ls pool :
      (Some e, c) ∈ chan_recv (w_events w) →
      node_env resolve ((w, ls), pool) ((set_events c w, ls), pool)
  | env_ticks ticks s pool :
      node_env resolve (s, pool) (s, pool ++ [in_sys (refreshLoop resolve ticks)])
  | env_rotate n s pool :
      node_env resolve (s, pool) (s, pool ++ [in_sys (rotateSecrets n)])
  | env_Stats s pool :
      node_env resolve (s, pool) (s, pool ++ [_ ← in_sys Stats; Ret tt])
  | env_FindPeers infoHash w ls pool :
      is_id infoHash →
      node_env resolve ((w, ls), pool)
        ((w, ls ++ [no_locals]), pool ++ [_ ← lookup_at (length ls) (FindPeers infoHash); Ret tt]).

(** A node whose socket is bound and whose table is new. *)
Definition started (id : NodeID) (port : Z) (bootstraps : list bytes) (secret : bytes)
  (cap now : Z) (rnd : nat → bytes) : World :=
  mkWorld (set_table (Some (NewRoutingTable id)) (NewNode id port bootstraps secret))
    (make_chan cap) [] [] now rnd 0.

Lemma started_inv id port bootstraps secret cap now rnd :
  is_id id → length secret = 16%nat → 0 ≤ cap →
  node_inv (started id port bootstraps secret cap now rnd).
Proof.
  intros Hid Hs Hc. constructor; cbn; try done.
  eexists. split_and!; [done|by apply NewRoutingTable_inv|done|].
  intros n Hn. change (n ∈ ([] : list RoutingNode)) in Hn. by apply elem_of_nil in Hn.
Qed.

Definition sys_inv (s : Sys) : Prop := node_inv s.1 ∧ Forall locals_inv s.2.

Lemma locals_inv_none : locals_inv no_locals.
Proof. by split. Qed.

Lemma sys_ok_in_sys {A : Type} (p : prog World A) Q :
  node_ok p Q → prog_ok sys_inv remote_panic (in_sys p) Q.
Proof. apply prog_ok_lift; [by intros t []|]. by intros [w ls] w' [_ ?] ?. Qed.

Lemma sys_ok_lookup_at {A : Type} i (p : prog Lookup A) Q :
  lookup_ok p Q → prog_ok sys_inv remote_panic (lookup_at i p) Q.
Proof.
  apply prog_ok_lift.
  - intros [w ls] [Hw Hl]. split; [done|]. cbn in *. rewrite list_lookup_total_alt.
    destruct (ls !! i) as [l|] eqn:E; cbn; [|apply locals_inv_none].
    by eapply Forall_lookup_1.
  - intros [w ls] [w' l] [_ Hls] [Hw Hl]. split; [done|]. by apply Forall_insert.
Qed.

Lemma pool_ok_snoc s pool p :
  pool_ok sys_inv remote_panic (s, pool) → prog_ok sys_inv remote_panic p (λ _, True) →
  pool_ok sys_inv remote_panic (s, pool ++ [p]).
Proof. intros [Hs Hp] H. split; [done|]. apply Forall_app. split; [done|]. by constructor; [|constructor]. Qed.

Lemma node_env_ok resolve c c' :
  node_env resolve c c' → pool_ok sys_inv remote_panic c → pool_ok sys_inv remote_panic c'.
Proof.
  destruct 1 as [t w ls pool _|data addr s pool Ha|e c w ls pool Hc|ticks s pool|n s pool|s pool|h w ls pool Hh];
    intros Hok.
  - destruct Hok as [[Hw Hl] Hp]. split; [|done]. split; [|done]. by destruct Hw.
  - apply pool_ok_snoc; [done|]. by apply sys_ok_in_sys, node_ok_handleMessage.
  - destruct Hok as [[Hw Hl] Hp]. split; [|done]. split; [|done]. cbn in *.
    destruct Hw as [H1 H2 H3 H4 H5 H6 H7 (Hlen & Ho & HP) H9]. constructor; try done. cbn.
    unfold chan_recv in Hc. destruct (ch_buf (w_events w)) as [|x l] eqn:E.
    { rewrite Ho in Hc. by apply elem_of_nil in Hc. }
    apply list_elem_of_singleton in Hc as [= <- ->]. apply Forall_cons_1 in HP as [_ HP].
    cbn [length] in Hlen. unfold chan_ok; cbn. split_and!; [lia|done..].
  - apply pool_ok_snoc; [done|]. apply sys_ok_in_sys, node_ok_refreshLoop.
  - apply pool_ok_snoc; [done|]. apply sys_ok_in_sys, node_ok_rotateSecrets.
  - apply pool_ok_snoc; [done|]. eapply prog_ok_bind; [apply sys_ok_in_sys, node_ok_Stats|done].
  - apply pool_ok_snoc.
    + destruct Hok as [[Hw Hl] Hp]. split; [|done]. split; [done|]. cbn.
      apply Forall_app. split; [done|]. constructor; [apply locals_inv_none|constructor].
    + eapply prog_ok_bind; [by apply sys_ok_lookup_at, lookup_ok_FindPeers|done].
Qed.

(** C9: a running node under every interleaving. From its start, whatever datagrams
    arrive, timers fire and lookups run, and however their goroutines interleave at the
    granularity of mutexes, atomics and channel operations: the routing table keeps its
    k-bucket invariant and holds only IPv4 nodes, the event channel and the reply
    channels stay within their capacities, every datagram sent decodes as a message, the
    lookups collect only well-formed peers; and the only panics a goroutine can raise
    are the two a datagram can cause, an allocation out of range in the decoder and a
    token longer than eight bytes. *)
Theorem node_interleavings_safe resolve id port bootstraps secret cap now rnd w ls pool :
  is_id id → length secret = 16%nat → 0 ≤ cap →
  rtc (λ c c', cstep c c' ∨ node_env resolve c c')
    ((started id port bootstraps secret cap now rnd, []), [in_sys (Bootstrap resolve)])
    ((w, ls), pool) →
  node_inv w ∧ Forall locals_inv ls ∧ ∀ p, cpanics ((w, ls), pool) p → remote_panic p.
Proof.
  intros Hid Hs Hc Hr.
  apply (reachable_ok sys_inv remote_panic) in Hr as [[[Hw Hl] _] Hp]; [by split_and!| |].
  - intros c c'. apply node_env_ok.
  - split; [split; [by apply started_inv|constructor]|].
    constructor; [|constructor]. apply sys_ok_in_sys, node_ok_Bootstrap.
Qed.

Definition no_resolver (name : bytes) : option udp_addr := None.

Lemma node_interleavings_safe_witness :
  let w := started sample_id 6881 [] (replicate 16 x07) 1000 0 (λ _, replicate 20 x01) in
  let addr := mkAddr [x7f; x00; x00; x01] 4242 in
  node_inv w ∧ Forall locals_inv [] ∧
  ∀ p, cpanics ((w, []), [in_sys (Bootstrap no_resolver); in_sys (handleMessage (bs "d1:y1:qe") addr)]) p →
    remote_panic p.
Proof.
  apply (node_interleavings_safe no_resolver sample_id 6881 [] (replicate 16 x07) 1000 0
    (λ _, replicate 20 x01)); [reflexivity|reflexivity|lia|].
  eapply rtc_l; [right|apply rtc_refl]. refine (env_datagram no_resolver _ _ _ [_] _).
  split; [reflexivity|cbn; lia].
Defined.

(** ** What a query does *)

(** The node's world when the body of a query's handler starts: the message counted and
    the querying node inserted. *)
Definition greeted (msg : Message) (addr : udp_addr) (w : World) : World :=
  let w := on_node (add_counters 1 0 0 0) w in
  match GetQueryNodeID msg, n_routingTable (w_node w) with
  | Some id, Some rt =>
      on_node (set_table (Some (Insert (w_now w) id (addr_IP addr) (addr_Port addr) rt).2)) w
  | _, _ => w
  end.

(** One datagram to the querier: a response to its transaction from this node. *)
Definition answers (w w' : World) (msg : Message) (addr : udp_addr) (P : Message → Prop) : Prop :=
  ∃ p r, w_sent w' = w_sent w ++ [(p, addr)] ∧ DecodeMessage p = Ok r ∧
    is_response r (TransactionID msg) (n_ID (w_node w)) ∧ P r.

Lemma run_reply encode addr w P :
  delivers (encode (n_ID (w_node w))) P →
  ∃ p r, run (id ← ID; resp ← encoded (encode id); WriteToUDP resp addr) w =
           Ok (tt, add_sent (p, addr) w) ∧ DecodeMessage p = Ok r ∧ P r.
Proof. intros (p & r & Hp & Hr & HP). exists p, r. cbn. rewrite Hp. done. Qed.

Lemma run_table_Insert id ip port w rt :
  n_routingTable (w_node w) = Some rt →
  run (table_Insert id ip port) w =
    Ok (tt, on_node (set_table (Some (Insert (w_now w) id ip port rt).2)) w).
Proof. intros H. unfold table_Insert, try_update, table. cbn [run]. by rewrite H. Qed.

Lemma run_FindClosest target count w rt ns :
  n_routingTable (w_node w) = Some rt → FindClosest target count rt = Ok ns →
  run (table_FindClosest target count) w = Ok (ns, w).
Proof.
  intros H Hns. unfold table_FindClosest, checked, table. cbn [run].
  rewrite H. cbn [mbind outcome_bind]. by rewrite Hns.
Qed.

Lemma run_emit ev w :
  node_inv w → event_ok ev →
  ∃ c, run (emit ev) w = Ok (tt, set_events c w) ∧ ch_cap c = ch_cap (w_events w) ∧
    ch_buf c = (if chan_full (w_events w) then ch_buf (w_events w) else ch_buf (w_events w) ++ [ev]).
Proof.
  intros Hw He. destruct (try_send_ok event_ok ev _ (ni_events _ Hw) He) as (c & Hc & _ & H1 & H2).
  exists c. unfold emit, try_update. cbn [run]. by rewrite Hc.
Qed.

Lemma run_generateToken ip w :
  ip ≠ [] → ∃ t, run (generateToken ip) w = Ok (t, w) ∧ make_token (n_tokenSecret (w_node w)) ip = Ok t ∧
    length t = 8%nat.
Proof.
  intros Hip. destruct (make_token_ok (n_tokenSecret (w_node w)) ip Hip) as (t & Ht & Hl).
  exists t. unfold generateToken, checked. cbn [run]. by rewrite Ht.
Qed.

(** The event channel after an event was offered to it. *)
Definition offered (ev : Event) (w w' : World) : Prop :=
  ch_buf (w_events w') =
    if chan_full (w_events w) then ch_buf (w_events w) else ch_buf (w_events w) ++ [ev].

Section queries.
Context (data : bytes) (addr : udp_addr) (m : Message) (w : World).
Context (Hw : node_inv w) (Ha : wf_addr addr) (Hm : DecodeMessage data = Ok m).
Context (Hq : Type_ m = MsgTypeQuery).

Lemma greeted_inv : node_inv (greeted m addr w).
Proof using Hw Ha.
  unfold greeted. pose proof (node_ok_count 1 0 0 0 w Hw) as [H _]. cbn beta in H.
  destruct (GetQueryNodeID m) as [id|] eqn:E; [|done].
  destruct (n_routingTable (w_node (on_node (add_counters 1 0 0 0) w))) as [rt|] eqn:Er; [|done].
  apply get_id_is_id in E. pose proof (node_ok_Insert id (addr_IP addr) (addr_Port addr)) as HI.
  specialize (HI ltac:(by destruct Ha) _ H). unfold table in HI. rewrite Er in HI. by destruct HI.
Qed.

Lemma greeted_ID : n_ID (w_node (greeted m addr w)) = n_ID (w_node w).
Proof using. unfold greeted. by repeat case_match. Qed.

Lemma greeted_same : w_sent (greeted m addr w) = w_sent w ∧ w_events (greeted m addr w) = w_events w ∧
  w_replies (greeted m addr w) = w_replies w ∧
  n_tokenSecret (w_node (greeted m addr w)) = n_tokenSecret (w_node w) ∧
  n_lastSecret (w_node (greeted m addr w)) = n_lastSecret (w_node w) ∧
  n_getPeersCount (w_node (greeted m addr w)) = wrapU 64 (n_getPeersCount (w_node w) + 0) ∧
  n_announceCount (w_node (greeted m addr w)) = wrapU 64 (n_announceCount (w_node w) + 0) ∧
  n_queriesReceived (w_node (greeted m addr w)) = wrapU 64 (n_queriesReceived (w_node w) + 1).
Proof using. unfold greeted. by repeat case_match. Qed.

(** Up to the dispatch on the method. *)
Lemma run_query body :
  (Query m = QueryPing ∧ body = handlePing m addr ∨
   Query m = QueryFindNode ∧ body = handleFindNode m addr ∨
   Query m = QueryGetPeers ∧ body = handleGetPeers m addr ∨
   Query m = QueryAnnouncePeer ∧ body = handleAnnouncePeer m addr) →
  run (handleMessage data addr) w = run body (greeted m addr w).
Proof using Hw Hm Hq.
  intros Hbody. unfold handleMessage. rewrite run_bind. unfold checked. cbn [run].
  rewrite Hm. cbn [mbind outcome_bind]. rewrite run_bind.
  change (run (count 1 0 0 0) w) with (@Ok unit _ (tt, on_node (add_counters 1 0 0 0) w)).
  cbn [mbind outcome_bind]. rewrite decide_True by done. unfold handleQuery. rewrite run_bind.
  assert (∀ w', run (if decide (Query m = QueryPing) then handlePing m addr
    else if decide (Query m = QueryFindNode) then handleFindNode m addr
    else if decide (Query m = QueryGetPeers) then handleGetPeers m addr
    else if decide (Query m = QueryAnnouncePeer) then handleAnnouncePeer m addr
    else Ret tt) w' = run body w') as Hb.
  { intros w'. destruct Hbody as [[-> ->]|[[-> ->]|[[-> ->]|[-> ->]]]]; done. }
  destruct (ni_table _ Hw) as (rt & Hrt & _). unfold greeted. cbn zeta.
  destruct (GetQueryNodeID m) as [id|]; cbn [run mbind outcome_bind].
  - rewrite (run_table_Insert _ _ _ _ rt) by done. cbn [mbind outcome_bind].
    rewrite Hb. f_equal. change (n_routingTable (w_node (on_node (add_counters 1 0 0 0) w)))
      with (n_routingTable (w_node w)). by rewrite Hrt.
  - by rewrite Hb.
Qed.
Let g := greeted m addr w.
Let Ht := TransactionID_sized _ _ Hm.

Lemma greeted_closest target :
  is_id target → ∃ rt ns, n_routingTable (w_node g) = Some rt ∧ FindClosest target 8 rt = Ok ns ∧
    wf_nodes (compact_of <$> ns).
Proof using Hw Ha.
  intros Htg. destruct (ni_table _ greeted_inv) as (rt & Hrt & Hinv & _ & Hk).
  destruct (FindClosest_spec rt target 8 Hinv Htg ltac:(lia)) as (ns & Hns & Hlen & _ & Hin & _).
  exists rt, ns. split_and!; [done..|].
  apply (compact_wf _ 8); [apply Forall_forall; auto|lia|lia].
Qed.

(** The answer of a handler that ends in world [w1] before it replies. *)
Lemma answers_add_sent w1 p r (P : Message → Prop) :
  w_sent w1 = w_sent g → DecodeMessage p = Ok r →
  is_response r (TransactionID m) (n_ID (w_node g)) → P r →
  answers w (add_sent (p, addr) w1) m addr P.
Proof using.
  intros Hs Hr HR HP. exists p, r. cbn. rewrite Hs. unfold g in *.
  destruct greeted_same as (-> & _). rewrite <- greeted_ID. by split_and!.
Qed.

Lemma ping_answered :
  Query m = QueryPing → ∃ w', run (handleMessage data addr) w = Ok (tt, w') ∧
    answers w w' m addr (λ _, True) ∧ w_events w' = w_events w ∧ w_node w' = w_node g.
Proof using Hw Ha Hm Hq.
  intros HQ. rewrite (run_query _ (or_introl (conj HQ eq_refl))). fold g.
  destruct (run_reply (λ id, EncodePingResponse (TransactionID m) id) addr g _
    (deliver_ping_response _ _ Ht (ni_ID _ greeted_inv))) as (p & r & Hrun & Hr & HP & _).
  exists (add_sent (p, addr) g). split_and!; [exact Hrun|by eapply answers_add_sent| |done].
  apply (greeted_same).
Qed.

Lemma find_node_answered target :
  Query m = QueryFindNode → GetTarget m = Some target → ∃ w' rt ns,
    run (handleMessage data addr) w = Ok (tt, w') ∧
    n_routingTable (w_node g) = Some rt ∧ FindClosest target 8 rt = Ok ns ∧
    answers w w' m addr (λ r, GetResponseNodes r = compact_of <$> ns) ∧
    w_events w' = w_events w ∧ w_node w' = w_node g.
Proof using Hw Ha Hm Hq.
  intros HQ HT. rewrite (run_query _ (or_intror (or_introl (conj HQ eq_refl)))).
  fold g. unfold handleFindNode. rewrite HT.
  destruct (greeted_closest target (GetTarget_is_id _ _ HT)) as (rt & ns & Hrt & Hns & Hwf).
  rewrite run_bind, (run_FindClosest target (Z.of_nat K) g rt ns Hrt Hns). cbn [mbind outcome_bind].
  destruct (run_reply (λ id, EncodeFindNodeResponse (TransactionID m) id (compact_of <$> ns)) addr g _
    (deliver_find_node_response _ _ Ht (ni_ID _ greeted_inv) _ Hwf)) as (p & r & Hrun & Hr & HP & Hn & _).
  exists (add_sent (p, addr) g), rt, ns. split_and!; [exact Hrun|done|done| | |done].
  - by eapply answers_add_sent.
  - apply (greeted_same).
Qed.

Lemma get_peers_answered infoHash :
  Query m = QueryGetPeers → GetInfoHash m = Some infoHash → ∃ w' rt ns token,
    run (handleMessage data addr) w = Ok (tt, w') ∧
    n_routingTable (w_node g) = Some rt ∧ FindClosest infoHash 8 rt = Ok ns ∧
    make_token (n_tokenSecret (w_node w)) (addr_IP addr) = Ok token ∧
    answers w w' m addr (λ r, GetResponseNodes r = compact_of <$> ns ∧
                              GetResponseToken r = Some token) ∧
    offered (mkEvent EventGetPeers infoHash (addr_IP addr) (addr_Port addr)) w w' ∧
    w_node w' = add_counters 0 0 1 0 (w_node g).
Proof using Hw Ha Hm Hq.
  intros HQ Hh. rewrite (run_query _ (or_intror (or_intror (or_introl (conj HQ eq_refl))))).
  fold g. unfold handleGetPeers. rewrite Hh.
  apply GetInfoHash_is_id in Hh. rewrite FromBytes_target by done.
  destruct (greeted_closest infoHash Hh) as (rt & ns & Hrt & Hns & Hwf).
  destruct (greeted_same) as (_ & Ee & _ & Ec & _).
  set (g1 := on_node (add_counters 0 0 1 0) g).
  assert (node_inv g1) as Hg1 by exact (proj1 (node_ok_count 0 0 1 0 g greeted_inv)).
  destruct (run_emit (mkEvent EventGetPeers infoHash (addr_IP addr) (addr_Port addr)) g1 Hg1)
    as (c & He & _ & Hc).
  { destruct Ha. repeat split; cbn; [done..| |]; unfold min_int64, max_int64; lia. }
  destruct (run_generateToken (addr_IP addr) (set_events c g1) (wf_addr_ip _ Ha)) as (t & Hgt & Htok & Hlt).
  destruct (run_reply (λ id, EncodeGetPeersResponseNodes (TransactionID m) id t (compact_of <$> ns))
    addr (set_events c g1) _ (deliver_get_peers_nodes _ _ Ht (ni_ID _ greeted_inv) t _ (sized_token _ Hlt) Hwf))
    as (p & r & Hrun & Hr & HP & HT & Hn & _).
  exists (add_sent (p, addr) (set_events c g1)), rt, ns, t. split_and!; [|done|done| | | |done].
  - rewrite run_bind. change (run (count 0 0 1 0) g) with (@Ok unit _ (tt, g1)). cbn [mbind outcome_bind].
    rewrite run_bind, He. cbn [mbind outcome_bind].
    rewrite run_bind, (run_FindClosest infoHash (Z.of_nat K) (set_events c g1) rt ns Hrt Hns).
    cbn [mbind outcome_bind]. rewrite run_bind, Hgt. exact Hrun.
  - rewrite <- Ec. exact Htok.
  - by eapply answers_add_sent.
  - unfold offered. cbn. rewrite Hc. change (w_events g1) with (w_events g). unfold g. by rewrite Ee.
Qed.
End queries.

(** C14: queries are answered as BEP 5 says. A ping gets a response with the node's
    identifier; a find_node the compact form of the at most eight known nodes nearest to
    the target, the querier (inserted first) among them when it is one of them; a
    get_peers those nodes and the token of the querier's address, and its info hash is
    offered to the event channel, dropped only when the channel is full. Each sends
    exactly one datagram, to the querier, with the query's transaction; a query without
    its argument gets none. *)
Theorem queries_answered data addr m w :
  node_inv w → wf_addr addr → DecodeMessage data = Ok m → Type_ m = MsgTypeQuery →
  let g := greeted m addr w in
  (Query m = QueryPing → ∃ w', run (handleMessage data addr) w = Ok (tt, w') ∧
     answers w w' m addr (λ _, True) ∧ w_events w' = w_events w ∧ w_node w' = w_node g) ∧
  (Query m = QueryFindNode →
     (GetTarget m = None → run (handleMessage data addr) w = Ok (tt, g)) ∧
     ∀ target, GetTarget m = Some target → ∃ w' rt ns,
       run (handleMessage data addr) w = Ok (tt, w') ∧
       n_routingTable (w_node g) = Some rt ∧ FindClosest target 8 rt = Ok ns ∧
       answers w w' m addr (λ r, GetResponseNodes r = compact_of <$> ns) ∧
       w_events w' = w_events w ∧ w_node w' = w_node g) ∧
  (Query m = QueryGetPeers →
     (GetInfoHash m = None → run (handleMessage data addr) w = Ok (tt, g)) ∧
     ∀ infoHash, GetInfoHash m = Some infoHash → ∃ w' rt ns token,
       run (handleMessage data addr) w = Ok (tt, w') ∧
       n_routingTable (w_node g) = Some rt ∧ FindClosest infoHash 8 rt = Ok ns ∧
       make_token (n_tokenSecret (w_node w)) (addr_IP addr) = Ok token ∧
       answers w w' m addr (λ r, GetResponseNodes r = compact_of <$> ns ∧
                                 GetResponseToken r = Some token) ∧
       offered (mkEvent EventGetPeers infoHash (addr_IP addr) (addr_Port addr)) w w' ∧
       w_node w' = add_counters 0 0 1 0 (w_node g)).
Proof.
  intros Hw Ha Hm Hq g. split_and!.
  - by apply ping_answered.
  - intros HQ. split; [|intros target HT; by apply find_node_answered].
    intros HT. rewrite (run_query data addr m w Hw Hm Hq _ (or_intror (or_introl (conj HQ eq_refl)))).
    unfold handleFindNode. by rewrite HT.
  - intros HQ. split; [|intros h Hh; by apply get_peers_answered].
    intros Hh.
    rewrite (run_query data addr m w Hw Hm Hq _ (or_intror (or_intror (or_introl (conj HQ eq_refl))))).
    unfold handleGetPeers. by rewrite Hh.
Qed.

(** A node that has just started, and an address, for the examples. *)
Definition sample_world : World :=
  started sample_id 6881 [] (replicate 16 x07) 1000 5 (λ _, replicate 20 x01).
Definition sample_addr : udp_addr := mkAddr [x0a; x00; x00; x01] 4242.

Lemma sample_world_inv : node_inv sample_world.
Proof. apply started_inv; [reflexivity|reflexivity|lia]. Qed.

Lemma sample_addr_wf : wf_addr sample_addr.
Proof. split; [reflexivity|cbn; lia]. Qed.

Definition sample_ping : Message :=
  mkMessage (bs "aa") MsgTypeQuery QueryPing (Some [(bs "id", VBytes (replicate 20 x41))]) None None.

Lemma queries_answered_witness :
  ∃ w', run (handleMessage (bs "d1:ad2:id20:AAAAAAAAAAAAAAAAAAAAe1:q4:ping1:t2:aa1:y1:qe") sample_addr)
          sample_world = Ok (tt, w') ∧
    answers sample_world w' sample_ping sample_addr (λ _, True) ∧
    w_events w' = w_events sample_world ∧ w_node w' = w_node (greeted sample_ping sample_addr sample_world).
Proof.
  refine (proj1 (queries_answered _ sample_addr sample_ping sample_world sample_world_inv
    sample_addr_wf _ _) _); [vm_compute; reflexivity|reflexivity|reflexivity].
Defined.

Lemma prefix_take (t e : bytes) : t = take (length t) e ↔ prefix t e.
Proof.
  split.
  - intros ->. exists (drop (length (take (length t) e)) e).
    rewrite length_take. destruct (Nat.le_gt_cases (length t) (length e)).
    + by rewrite Nat.min_l, take_drop.
    + rewrite Nat.min_r, take_ge, drop_all, app_nil_r by lia. done.
  - intros [k ->]. by rewrite take_app_length.
Qed.

Section announces.
Context (data : bytes) (addr : udp_addr) (m : Message) (w : World).
Context (Hw : node_inv w) (Ha : wf_addr addr) (Hm : DecodeMessage data = Ok m).
Context (Hq : Type_ m = MsgTypeQuery) (HQ : Query m = QueryAnnouncePeer).
Context (infoHash token : bytes) (Hh : GetInfoHash m = Some infoHash) (Htok : GetToken m = Some token).
Let g := greeted m addr w.
Let ev := mkEvent EventAnnounce infoHash (addr_IP addr) (default (addr_Port addr) (GetPort m)).

Lemma run_validateToken valid :
  check_token (n_tokenSecret (w_node w)) (n_lastSecret (w_node w)) token (addr_IP addr) = valid →
  run (validateToken token (addr_IP addr)) g = b ← valid; Ok (b, g).
Proof using.
  intros <-. destruct (greeted_same addr m w) as (_ & _ & _ & Ec & El & _).
  unfold validateToken, checked. cbn [run]. unfold g. rewrite Ec, El.
  by destruct (check_token _ _ _ _).
Qed.

Lemma announce_event_ok : event_ok ev.
Proof using Ha Hm Hh.
  apply GetInfoHash_is_id in Hh. destruct Ha as [Hip Hport]. split_and!; cbn; [done..|].
  destruct (GetPort m) as [p|] eqn:E; cbn; [by eapply GetPort_int64|].
  unfold is_int64, min_int64, max_int64; lia.
Qed.

Lemma run_announce :
  run (handleMessage data addr) w =
  '(valid, w1) ← run (validateToken token (addr_IP addr)) g;
  if negb valid then Ok (tt, w1)
  else run (_ ← count 0 0 0 1; _ ← emit ev; id ← ID;
            resp ← encoded (EncodeAnnouncePeerResponse (TransactionID m) id); WriteToUDP resp addr) w1.
Proof using Hw Hm Hq HQ Hh Htok.
  rewrite (run_query data addr m w Hw Hm Hq _ (or_intror (or_intror (or_intror (conj HQ eq_refl))))).
  unfold handleAnnouncePeer. rewrite Hh, Htok, run_bind. fold g.
  by destruct (run (validateToken token (addr_IP addr)) g) as [[[] w1]| | |].
Qed.

Lemma announce_accepted :
  check_token (n_tokenSecret (w_node w)) (n_lastSecret (w_node w)) token (addr_IP addr) = Ok true →
  ∃ w', run (handleMessage data addr) w = Ok (tt, w') ∧ answers w w' m addr (λ _, True) ∧
    offered ev w w' ∧ w_node w' = add_counters 0 0 0 1 (w_node g).
Proof using All.
  intros Hv. rewrite run_announce, (run_validateToken _ Hv). cbn [mbind outcome_bind negb].
  pose proof (greeted_inv addr m w Hw Ha) as Hg. fold g in Hg.
  destruct (greeted_same addr m w) as (Es & Ee & _). fold g in Es, Ee.
  set (g1 := on_node (add_counters 0 0 0 1) g).
  assert (node_inv g1) as Hg1 by exact (proj1 (node_ok_count 0 0 0 1 g Hg)).
  destruct (run_emit ev g1 Hg1 announce_event_ok) as (c & He & _ & Hc).
  destruct (run_reply (λ id, EncodeAnnouncePeerResponse (TransactionID m) id) addr (set_events c g1) _
    (deliver_announce_response _ _ (TransactionID_sized _ _ Hm) (ni_ID _ Hg))) as (p & r & Hrun & Hr & HP).
  exists (add_sent (p, addr) (set_events c g1)). split_and!; [| | |done].
  - rewrite run_bind. change (run (count 0 0 0 1) g) with (@Ok unit _ (tt, g1)). cbn [mbind outcome_bind].
    rewrite run_bind, He. exact Hrun.
  - by eapply (answers_add_sent addr m w (set_events c g1)).
  - unfold offered. cbn. rewrite Hc. change (w_events g1) with (w_events g). by rewrite Ee.
Qed.
End announces.

(** C16: announce_peer is gated by the token. A token of more than eight bytes panics. A
    shorter one is accepted exactly when it is a prefix of the token of the sender's
    address under the current or the last secret (so the empty token always is);
    acceptance counts the announce, offers an event with the announced port, or the
    source port when the port is implied or missing, and sends one response; refusal
    only leaves the querier in the table. The announced port is not checked: the event
    carries whatever 64-bit integer the datagram held. *)
Theorem announce_gated data addr m w infoHash token :
  node_inv w → wf_addr addr → DecodeMessage data = Ok m →
  Type_ m = MsgTypeQuery → Query m = QueryAnnouncePeer →
  GetInfoHash m = Some infoHash → GetToken m = Some token →
  let g := greeted m addr w in
  ∃ e e', make_token (n_tokenSecret (w_node w)) (addr_IP addr) = Ok e ∧
    make_token (n_lastSecret (w_node w)) (addr_IP addr) = Ok e' ∧
    ((8 < length token)%nat → run (handleMessage data addr) w = Panic PanicSliceBounds) ∧
    ((length token ≤ 8)%nat → ¬ (prefix token e ∨ prefix token e') →
       run (handleMessage data addr) w = Ok (tt, g)) ∧
    ((length token ≤ 8)%nat → prefix token e ∨ prefix token e' →
       ∃ w', run (handleMessage data addr) w = Ok (tt, w') ∧ answers w w' m addr (λ _, True) ∧
         offered (mkEvent EventAnnounce infoHash (addr_IP addr)
                    (default (addr_Port addr) (GetPort m))) w w' ∧
         w_node w' = add_counters 0 0 0 1 (w_node g)).
Proof.
  intros Hw Ha Hm Hq HQ Hh Htok g. destruct (ni_secrets _ Hw) as [Hc Hl].
  destruct (check_token_spec (n_tokenSecret (w_node w)) (n_lastSecret (w_node w)) token (addr_IP addr)
    (wf_addr_ip _ Ha) ltac:(lia) ltac:(lia)) as (e & e' & He & He' & _ & _ & Hv).
  exists e, e'. split_and!; [done|done|..].
  - intros Hlen. rewrite (proj2 (Nat.leb_gt _ _)) in Hv by lia.
    rewrite (run_announce data addr m w Hw Hm Hq HQ infoHash token Hh Htok),
      (run_validateToken addr m w token _ Hv). done.
  - intros Hlen Hn. rewrite (proj2 (Nat.leb_le _ _)) in Hv by lia.
    rewrite bool_decide_eq_false_2 in Hv by (by rewrite !prefix_take).
    rewrite (run_announce data addr m w Hw Hm Hq HQ infoHash token Hh Htok),
      (run_validateToken addr m w token _ Hv). done.
  - intros Hlen Hp. rewrite (proj2 (Nat.leb_le _ _)) in Hv by lia.
    rewrite bool_decide_eq_true_2 in Hv by (by rewrite !prefix_take).
    by apply (announce_accepted data addr m w Hw Ha Hm Hq HQ infoHash token Hh Htok).
Qed.

(** An announce with the empty token and a port out of range. *)
Definition sample_announce : Message :=
  mkMessage (bs "aa") MsgTypeQuery QueryAnnouncePeer
    (Some [(bs "info_hash", VBytes (replicate 20 x42)); (bs "port", VInt64 (-1)); (bs "token", VBytes [])])
    None None.

Lemma announce_gated_witness :
  ∃ w', run (handleMessage (bs "d1:ad9:info_hash20:BBBBBBBBBBBBBBBBBBBB4:porti-1e5:token0:e1:q13:announce_peer1:t2:aa1:y1:qe")
               sample_addr) sample_world = Ok (tt, w') ∧
    answers sample_world w' sample_announce sample_addr (λ _, True) ∧
    offered (mkEvent EventAnnounce (replicate 20 x42) (addr_IP sample_addr) (-1)) sample_world w' ∧
    w_node w' = add_counters 0 0 0 1 (w_node (greeted sample_announce sample_addr sample_world)).
Proof.
  destruct (announce_gated
    (bs "d1:ad9:info_hash20:BBBBBBBBBBBBBBBBBBBB4:porti-1e5:token0:e1:q13:announce_peer1:t2:aa1:y1:qe")
    sample_addr sample_announce sample_world (replicate 20 x42) [])
    as (e & e' & _ & _ & _ & _ & H).
  - apply sample_world_inv.
  - apply sample_addr_wf.
  - vm_compute. reflexivity.
  - reflexivity.
  - reflexivity.
  - reflexivity.
  - reflexivity.
  - apply H; [apply Nat.le_0_l|]. left. apply prefix_nil.
Defined.

(** ** The life of a token *)

(** The secrets and addresses that give the same token. *)
Definition same_token (s s' ip ip' : bytes) : bool :=
  bool_decide (Forall (λ i, byte_xor (s !!! i) (ip !!! i) = byte_xor (s' !!! i) (ip' !!! i))
                 [0; 1; 2; 3]%nat).

Lemma make_token_4 secret ip :
  (4 ≤ length secret)%nat → length ip = 4%nat →
  make_token secret ip =
    Ok (((λ i, byte_xor (secret !!! i) (ip !!! i)) <$> [0; 1; 2; 3]%nat) ++ replicate 4 x00).
Proof.
  intros Hs Hip. unfold make_token, fill_token. cbn [token_loop].
  assert (∀ i, (i < 4)%nat → (i <? length secret)%nat = true) as Hi by (intros; apply Nat.ltb_lt; lia).
  rewrite !Hi by lia. rewrite !decide_False by (intros ->; done). by rewrite Hip.
Qed.

Lemma make_token_eq s s' ip ip' :
  (4 ≤ length s)%nat → (4 ≤ length s')%nat → length ip = 4%nat → length ip' = 4%nat →
  make_token s ip = make_token s' ip' ↔ same_token s s' ip ip' = true.
Proof.
  intros Hs Hs' Hip Hip'. rewrite !make_token_4 by done. unfold same_token.
  rewrite bool_decide_eq_true, !Forall_cons. cbn [fmap list_fmap app]. split.
  - intros [= H1 H2 H3 H4]. by split_and!; [..|constructor].
  - intros (H1 & H2 & H3 & H4 & _). by rewrite H1, H2, H3, H4.
Qed.

Lemma run_validate_issued w s ip ip' token :
  node_inv w → (4 ≤ length s)%nat → length ip = 4%nat → length ip' = 4%nat →
  make_token s ip = Ok token →
  run (validateToken token ip') w =
    Ok (same_token (n_tokenSecret (w_node w)) s ip' ip || same_token (n_lastSecret (w_node w)) s ip' ip, w).
Proof.
  intros Hw Hs Hip Hip' Ht. destruct (ni_secrets _ Hw) as [Hc Hl].
  assert (ip ≠ [] ∧ ip' ≠ []) as [Hne Hne'] by (split; intros ->; done).
  destruct (make_token_ok s ip Hne) as (t & Ht' & Hlen). rewrite Ht in Ht'. injection Ht' as <-.
  destruct (check_token_spec (n_tokenSecret (w_node w)) (n_lastSecret (w_node w)) token ip' Hne'
    ltac:(lia) ltac:(lia)) as (e & e' & He & He' & Hle & Hle' & Hv).
  unfold validateToken, checked. cbn [run]. rewrite Hv, Hlen. cbn [Nat.leb mbind outcome_bind].
  do 2 f_equal. rewrite (take_ge e), (take_ge e') by lia.
  apply Bool.eq_iff_eq_true. rewrite orb_true_iff, bool_decide_eq_true.
  rewrite <- !make_token_eq by (done || lia). rewrite He, He', Ht. split.
  - intros [->| ->]; auto.
  - intros [[= ->]|[= ->]]; auto.
Qed.

Lemma same_token_refl s ip : same_token s s ip ip = true.
Proof. apply bool_decide_eq_true. by apply Forall_true. Qed.

Lemma byte_xor_inj a b c : byte_xor a b = byte_xor a c → b = c.
Proof.
  intros H. apply (inj byte_val). apply (f_equal byte_val) in H. rewrite !byte_val_xor in H.
  apply (f_equal (Z.lxor (byte_val a))) in H.
  by rewrite <- !Z.lxor_assoc, Z.lxor_nilpotent, !Z.lxor_0_l in H.
Qed.

Lemma same_token_ip s ip ip' :
  length ip = 4%nat → length ip' = 4%nat → same_token s s ip ip' = true ↔ ip = ip'.
Proof.
  intros H H'. split; [|intros ->; apply same_token_refl].
  unfold same_token. rewrite bool_decide_eq_true, !Forall_cons. intros (H1 & H2 & H3 & H4 & _).
  destruct ip as [|a [|b [|c [|d [|]]]]], ip' as [|a' [|b' [|c' [|d' [|]]]]]; try done.
  by apply byte_xor_inj in H1 as [= ->], H2 as [= ->], H3 as [= ->], H4 as [= ->].
Qed.

Lemma rotate_inv w : node_inv w → node_inv (rotate w).
Proof. intros Hw. by destruct (node_ok_rotate w Hw). Qed.

(** C18: the life of a token. The token handed to an address is valid for it until the
    secret has been rotated twice; at any later moment it is valid for an address exactly
    when the first four bytes of the current or the last secret, xored with that address,
    give the same token; so while the secret it was made with is the only one in use it
    is valid for no other address. *)
Theorem token_lifetime w ip token :
  node_inv w → length ip = 4%nat → make_token (n_tokenSecret (w_node w)) ip = Ok token →
  run (validateToken token ip) w = Ok (true, w) ∧
  run (validateToken token ip) (rotate w) = Ok (true, rotate w) ∧
  (∀ w' ip', node_inv w' → length ip' = 4%nat →
     run (validateToken token ip') w' =
       Ok (same_token (n_tokenSecret (w_node w')) (n_tokenSecret (w_node w)) ip' ip ||
           same_token (n_lastSecret (w_node w')) (n_tokenSecret (w_node w)) ip' ip, w')) ∧
  (∀ ip', length ip' = 4%nat → n_lastSecret (w_node w) = n_tokenSecret (w_node w) →
     run (validateToken token ip') w = Ok (bool_decide (ip' = ip), w)).
Proof.
  intros Hw Hip Ht. destruct (ni_secrets _ Hw) as [Hc _].
  assert (∀ w' ip', node_inv w' → length ip' = 4%nat → run (validateToken token ip') w' =
    Ok (same_token (n_tokenSecret (w_node w')) (n_tokenSecret (w_node w)) ip' ip ||
        same_token (n_lastSecret (w_node w')) (n_tokenSecret (w_node w)) ip' ip, w')) as Hv.
  { intros w' ip' Hw' Hip'. apply run_validate_issued; auto; lia. }
  split_and!; [..|done|].
  - rewrite Hv by done. by rewrite same_token_refl.
  - rewrite Hv by auto using rotate_inv. cbn [rotate next_draw on_node set_secrets w_node n_lastSecret].
    by rewrite same_token_refl, orb_true_r.
  - intros ip' Hip' E. rewrite Hv, E, orb_diag by done. do 2 f_equal.
    apply Bool.eq_iff_eq_true. by rewrite same_token_ip, bool_decide_eq_true.
Qed.

Lemma token_lifetime_witness :
  run (validateToken [x0d; x07; x07; x06; x00; x00; x00; x00] [x0a; x00; x00; x01]) (rotate sample_world)
  = Ok (true, rotate sample_world).
Proof.
  refine (proj1 (proj2 (token_lifetime sample_world [x0a; x00; x00; x01]
    [x0d; x07; x07; x06; x00; x00; x00; x00] _ _ _)));
    [apply sample_world_inv|reflexivity|vm_compute; reflexivity].
Defined.

(** ** Transaction identifiers *)

(** The identifiers [nextTxnID] gives one after the other. *)
Fixpoint next_txns (k : nat) (n : Node) : list bytes * Node :=
  match k with
  | O => ([], n)
  | S k => let '(tid, n) := next_txn n in let '(tids, n) := next_txns k n in (tid :: tids, n)
  end.

Lemma txn_bytes_val id : 0 ≤ id < 2 ^ 16 → be_val (txn_bytes id) = id.
Proof.
  intros H. unfold txn_bytes, be_val. cbn [foldl]. rewrite !byte_val_of, Z.shiftr_div_pow2 by lia.
  change (2 ^ 8) with 256. pose proof (Z.div_mod id 256 ltac:(lia)).
  assert (0 ≤ id / 256 < 256) by (split; [apply Z.div_pos|apply Z.div_lt_upper_bound]; lia).
  rewrite (Z.mod_small (id / 256)) by lia. lia.
Qed.

Lemma next_txns_lookup k n i tid :
  (next_txns k n).1 !! i = Some tid →
  (i < k)%nat ∧ be_val tid = wrapU 16 (n_txnIDCounter n + 1 + Z.of_nat i).
Proof.
  revert n i. induction k as [|k IH]; intros n i; cbn; [done|].
  destruct (next_txns k (set_txn (wrapU 16 (n_txnIDCounter n + 1)) n)) as [tids n'] eqn:E. cbn.
  destruct i as [|i]; cbn.
  - intros [= <-]. split; [lia|]. rewrite txn_bytes_val by by apply wrapU_range.
    f_equal. lia.
  - intros Hi. specialize (IH (set_txn (wrapU 16 (n_txnIDCounter n + 1)) n) i). rewrite E in IH.
    destruct (IH Hi) as [? Hv]. split; [lia|]. rewrite Hv. cbn. unfold wrapU.
    rewrite <- Z.add_assoc, Zplus_mod_idemp_l. f_equal. lia.
Qed.

Lemma next_txns_length k n :
  length (next_txns k n).1 = k ∧
  n_txnIDCounter (next_txns k n).2 = wrapU 16 (n_txnIDCounter n + Z.of_nat k) ∨ k = 0%nat.
Proof.
  revert n. induction k as [|k IH]; intros n; [by right|left]. cbn.
  specialize (IH (set_txn (wrapU 16 (n_txnIDCounter n + 1)) n)).
  destruct (next_txns k (set_txn (wrapU 16 (n_txnIDCounter n + 1)) n)) as [tids n'] eqn:E. cbn in *.
  destruct IH as [[-> ->]| ->]; cbn.
  - split; [done|]. unfold wrapU. rewrite Zplus_mod_idemp_l. f_equal. lia.
  - cbn in E. injection E as <- <-. cbn. split; [done|]. f_equal.
Qed.

(** any 65536 consecutive transaction identifiers are pairwise distinct two-byte
    strings, and the next one repeats the first: a lookup's reply can only be confused
    with one asked 65536 queries earlier. *)
Theorem transaction_ids_distinct n :
  let '(tids, n') := next_txns (Z.to_nat 65536) n in
  Z.of_nat (length tids) = 65536 ∧ NoDup tids ∧ Forall (λ t, length t = 2%nat) tids ∧
  head tids = Some (next_txn n').1.
Proof.
  set (k := Z.to_nat 65536). assert (Z.of_nat k = 65536) as Hk by (subst k; lia).
  assert (∃ k', k = S k') as [k' Hk'] by (exists (Z.to_nat 65535); subst k; lia).
  clearbody k. pose proof (next_txns_length k n) as Hlen. pose proof (λ i tid, next_txns_lookup k n i tid) as Hl.
  destruct (next_txns k n) as [tids n'] eqn:E. cbn [fst snd] in *.
  destruct Hlen as [[Hlen Hc]|]; [|lia]. split_and!.
  - lia.
  - apply NoDup_alt. intros i j t Hi Hj. apply Hl in Hi as [Hi Hvi], Hj as [Hj Hvj].
    rewrite Hvi in Hvj. unfold wrapU in Hvj. change (2 ^ 16) with 65536 in Hvj.
    pose proof (Z.div_mod (n_txnIDCounter n + 1 + Z.of_nat i) 65536 ltac:(lia)).
    pose proof (Z.div_mod (n_txnIDCounter n + 1 + Z.of_nat j) 65536 ltac:(lia)). lia.
  - clear -E. revert tids n n' E. induction k as [|k IH]; intros tids n n'; cbn.
    + intros [= <- <-]. constructor.
    + destruct (next_txns k _) as [l m] eqn:E'. intros [= <- <-]. constructor; [done|]. by eapply IH.
  - rewrite Hk' in E. cbn in E. destruct (next_txns k' _) as [l m] eqn:E'. injection E as <- <-.
    cbn. do 2 f_equal. rewrite Hc, Hk. unfold wrapU. rewrite Zplus_mod_idemp_l.
    change (2 ^ 16) with 65536.
    replace (n_txnIDCounter n + 65536 + 1) with (n_txnIDCounter n + 1 + 1 * 65536) by lia.
    by rewrite Z.mod_add by lia.
Qed.

(** ** What a response does *)

(** The insertions of compact nodes, in order. *)
Definition insert_nodes (now : Z) (nodes : list CompactNodeInfo) (rt : RoutingTable) : RoutingTable :=
  foldl (λ rt n, (Insert now (cn_ID n) (cn_IP n) (cn_Port n) rt).2) rt nodes.

Lemma run_insert_nodes nodes w rt :
  n_routingTable (w_node w) = Some rt →
  run (for_each nodes (λ node, table_Insert (cn_ID node) (cn_IP node) (cn_Port node))) w =
  Ok (tt, match nodes with
          | [] => w
          | _ => on_node (set_table (Some (insert_nodes (w_now w) nodes rt))) w
          end).
Proof.
  revert w rt. induction nodes as [|n nodes IH]; intros w rt Hrt; [done|].
  cbn [for_each]. rewrite run_bind, (run_table_Insert _ _ _ _ rt Hrt). cbn [mbind outcome_bind].
  rewrite (IH _ (Insert (w_now w) (cn_ID n) (cn_IP n) (cn_Port n) rt).2) by done.
  by destruct nodes.
Qed.

(** The responder, when the response names it, then the nodes it reports. *)
Definition learned (msg : Message) (addr : udp_addr) : list CompactNodeInfo :=
  match response_id msg with
  | Some id => [mkCompactNodeInfo id (addr_IP addr) (addr_Port addr)]
  | None => []
  end ++ GetResponseNodes msg.

(** The reply channels after [msg] was offered to the one the transaction names. *)
Definition delivered (msg : Message) (w : World) : list (chan Message) :=
  match n_pendingTxns (w_node w) !! TransactionID msg with
  | Some ch => alter (λ c, if chan_full c then c else mkChan (ch_buf c ++ [msg]) (ch_cap c) false) ch (w_replies w)
  | None => w_replies w
  end.

Lemma run_reply_pending msg w :
  node_inv w →
  ∃ w', run (ch ← update (take_pending (TransactionID msg));
             match ch with Some ch => try_update (reply ch msg) | None => Ret tt end) w = Ok (tt, w') ∧
    w_sent w' = w_sent w ∧ w_events w' = w_events w ∧ w_replies w' = delivered msg w ∧ w_now w' = w_now w ∧
    w_node w' = set_pending (delete (TransactionID msg) (n_pendingTxns (w_node w))) (w_node w).
Proof.
  intros Hw. rewrite run_bind. unfold update, take_pending, delivered. cbn [run mbind outcome_bind].
  destruct (n_pendingTxns (w_node w) !! TransactionID msg) as [ch|] eqn:E; cbn [run mbind outcome_bind].
  - unfold try_update, reply. cbn [run]. cbn [w_replies on_node].
    destruct (w_replies w !! ch) as [c|] eqn:Ec.
    + destruct (Forall_lookup_1 _ _ _ _ (ni_replies _ Hw) Ec) as [(_ & Ho & _) _].
      rewrite (list_alter_Some _ _ _ _ Ec). unfold try_send. rewrite Ho.
      destruct (chan_full c); cbn [mbind outcome_bind run]; by eexists.
    + rewrite (list_alter_None _ _ _ Ec). by eexists.
  - eexists; split; [done|]. split_and!; try done. rewrite delete_id by done. by destruct (w_node w).
Qed.

(** Inserting the responder, when the response names it. *)
Lemma run_insert_responder (o : option NodeID) addr w rt :
  node_inv w → wf_addr addr → (∀ id, o = Some id → is_id id) →
  n_routingTable (w_node w) = Some rt →
  ∃ w', run (match o with Some id => table_Insert id (addr_IP addr) (addr_Port addr) | None => Ret tt end) w
      = Ok (tt, w') ∧ node_inv w' ∧
    w' = on_node (set_table (Some (insert_nodes (w_now w)
      match o with Some id => [mkCompactNodeInfo id (addr_IP addr) (addr_Port addr)] | None => [] end rt))) w.
Proof.
  intros Hw Ha Ho Hrt. destruct o as [id|].
  - rewrite (run_table_Insert _ _ _ _ rt) by done. eexists. split; [done|]. split; [|done].
    pose proof (node_ok_Insert id (addr_IP addr) (addr_Port addr) ltac:(split; [by apply Ho|by destruct Ha]) _ Hw) as HI.
    unfold table in HI. rewrite Hrt in HI. by destruct HI.
  - exists w. split; [done|]. split; [done|]. cbn. rewrite <- Hrt. by destruct w as [[]].
Qed.

(** C17: a response reaches the lookup that waits for it. Its transaction's reply channel,
    if one is registered, is offered the message and forgotten, every other one is left
    alone; a response that names no pending transaction reaches none. The responder and
    the nodes it reports are inserted into the table in order, nothing is sent and no
    event is raised. *)
Theorem responses_delivered data addr m w rt :
  node_inv w → wf_addr addr → DecodeMessage data = Ok m → Type_ m = MsgTypeResponse →
  n_routingTable (w_node w) = Some rt →
  ∃ w', run (handleMessage data addr) w = Ok (tt, w') ∧
    n_routingTable (w_node w') = Some (insert_nodes (w_now w) (learned m addr) rt) ∧
    w_replies w' = delivered m w ∧
    n_pendingTxns (w_node w') = delete (TransactionID m) (n_pendingTxns (w_node w)) ∧
    w_sent w' = w_sent w ∧ w_events w' = w_events w.
Proof.
  intros Hw Ha Hm Hq Hrt. unfold handleMessage. rewrite run_bind. unfold checked. cbn [run].
  rewrite Hm. cbn [mbind outcome_bind]. rewrite run_bind.
  change (run (count 1 0 0 0) w) with (@Ok unit _ (tt, on_node (add_counters 1 0 0 0) w)).
  cbn [mbind outcome_bind]. rewrite decide_False, decide_True by (rewrite Hq; done || done).
  pose proof (node_ok_count 1 0 0 0 w Hw) as [H1 _].
  set (w1 := on_node (add_counters 1 0 0 0) w) in *. cbn beta in H1.
  unfold handleResponse. rewrite run_bind.
  destruct (run_insert_responder (response_id m) addr w1 rt H1 Ha (response_id_is_id m) Hrt)
    as (w2 & -> & Hw2 & E2).
  cbn [mbind outcome_bind]. rewrite run_bind.
  destruct (run_reply_pending m w2 Hw2) as (w3 & Hr3 & Es3 & Ee3 & Er3 & En3 & Ed3).
  rewrite run_bind in Hr3. destruct (run (update (take_pending (TransactionID m))) w2) as [[ch w2']| | |];
    cbn [mbind outcome_bind] in Hr3 |- *; try done.
  rewrite run_bind, Hr3. cbn [mbind outcome_bind].
  eassert (n_routingTable (w_node w3) = Some _) as Ht3 by (rewrite Ed3, E2; reflexivity).
  rewrite (run_insert_nodes _ _ _ Ht3). eexists. split; [done|].
  assert (w_now w3 = w_now w) as En by by rewrite En3, E2.
  assert (delivered m w2 = delivered m w) as Hd by by rewrite E2.
  unfold learned, insert_nodes. rewrite foldl_app.
  destruct (GetResponseNodes m); cbn; rewrite ?Es3, ?Ee3, ?Er3, ?Ed3, ?En, ?Hd, ?E2; by split_and!.
Qed.

Definition sample_response : Message :=
  mkMessage (bs "aa") MsgTypeResponse [] None (Some [(bs "id", VBytes (replicate 20 x41))]) None.

(** A lookup waits for transaction "aa". *)
Definition waiting_world : World :=
  set_replies [make_chan 1] (on_node (set_pending {[bs "aa" := 0%nat]}) sample_world).

Lemma waiting_world_inv : node_inv waiting_world.
Proof.
  destruct sample_world_inv as [H1 H2 H3 H4 H5 H6 H7 H8 H9].
  constructor; try done; cbn.
  - intros tid ch H. apply lookup_singleton_Some in H as [<- _]. done.
  - constructor; [|constructor]. split; [|done]. split_and!; [cbn; lia|done|constructor].
Qed.

Lemma responses_delivered_witness :
  ∃ w', run (handleMessage (bs "d1:rd2:id20:AAAAAAAAAAAAAAAAAAAAe1:t2:aa1:y1:re") sample_addr) waiting_world
        = Ok (tt, w') ∧
    n_routingTable (w_node w') = Some (insert_nodes (w_now waiting_world) (learned sample_response sample_addr)
      (NewRoutingTable sample_id)) ∧
    w_replies w' = delivered sample_response waiting_world ∧
    n_pendingTxns (w_node w') = delete (bs "aa") (n_pendingTxns (w_node waiting_world)) ∧
    w_sent w' = w_sent waiting_world ∧ w_events w' = w_events waiting_world.
Proof.
  apply (responses_delivered _ sample_addr sample_response waiting_world (NewRoutingTable sample_id)).
  - apply waiting_world_inv.
  - apply sample_addr_wf.
  - vm_compute. reflexivity.
  - reflexivity.
  - reflexivity.
Defined.
