(* ===== verification/Pool.v ===== *)
(** * A pool of DHT nodes: [internal/dht/pool.go]

    The nodes of a pool share one event channel.  A goroutine of one node is lifted to
    the pool's state; a pool-wide lookup runs the lookups of its first nodes in
    goroutines and merges what they found. *)

From S2P Require Import Prelude GoStd Net Bencode BencodeSpec NodeID Routing Krpc Conc Node NodeSpec.

Record PoolStats := mkPoolStats {
  ps_QueriesReceived : Z;
  ps_QueriesSent : Z;
  ps_GetPeersCount : Z;
  ps_AnnounceCount : Z;
  ps_TotalNodes : Z;
  ps_RoutingSize : Z;
}.

Definition zero_stats : PoolStats := mkPoolStats 0 0 0 0 0 0.

(** Each node with what only its goroutines see; the event channel of a node's world is
    the pool's. *)
Record Pool := mkPool {
  p_nodes : list World;
  p_eventChan : chan Event;
  p_startPort : Z;
  p_count : Z;
  p_bootstraps : list bytes;
  p_stats : option PoolStats;
}.

Definition set_nodes (l : list World) (c : chan Event) (p : Pool) : Pool :=
  mkPool l c (p_startPort p) (p_count p) (p_bootstraps p) (p_stats p).
Definition set_pool_stats (s : PoolStats) (p : Pool) : Pool :=
  mkPool (p_nodes p) (p_eventChan p) (p_startPort p) (p_count p) (p_bootstraps p) (Some s).

Definition no_world : World :=
  mkWorld (NewNode zeroID 0 [] []) (make_chan 0) [] [] 0 (λ _, []) 0.
#[global] Instance World_inhabited : Inhabited World := populate no_world.

Definition node_world (i : nat) (p : Pool) : World := set_events (p_eventChan p) (p_nodes p !!! i).
Definition put_node_world (i : nat) (w : World) (p : Pool) : Pool :=
  set_nodes (alter (λ old, set_events (w_events old) w) i (p_nodes p)) (w_events w) p.

Definition at_node {A : Type} (i : nat) (q : prog World A) : prog Pool A :=
  lift (node_world i) (put_node_world i) q.

(** ** Construction *)

Inductive pool_error := ErrNodeCount | ErrIDs (e : gen_error).

(** The memory one [Event] takes in the channel's buffer. *)
Definition event_size : Z := 64.

(** [make(chan Event, count*1000)]. *)
Definition make_event_chan (size : Z) : outcome pool_error (chan Event) :=
  if (size <? 0) || (maxAlloc <? size * event_size) then Panic PanicMakeChan
  else Ok (make_chan size).

Section NewPool.
(** What [crypto/rand] gives: the draws for the identifiers, the token secrets, and the
    reads of each node. *)
Context (rand_ids : rand_source) (secret : nat → bytes) (rnd : nat → nat → bytes) (now : Z).

Definition new_world (startPort : Z) (bootstraps : list bytes) (c : chan Event) (i : nat) (id : NodeID)
  : World :=
  mkWorld (NewNode id (wrapS 64 (startPort + Z.of_nat i)) bootstraps
    (take 16 (secret i ++ replicate 16 x00))) c [] [] now (rnd i) 0.

Definition NewPool (count startPort : Z) (bootstraps : list bytes) : outcome pool_error Pool :=
  if count <=? 0 then Err ErrNodeCount
  else
    ids ← map_err ErrIDs (GenerateDistributedIDs rand_ids count);
    eventChan ← make_event_chan (wrapS 64 (count * 1000));
    Ok (mkPool (imap (new_world startPort bootstraps eventChan) ids) eventChan startPort count bootstraps
          None).
End NewPool.

(** ** Statistics *)

Definition add_stats (s : PoolStats) (n : Z * Z * Z * Z * nat) : PoolStats :=
  let '(recv, sent, getPeers, announces, routing) := n in
  mkPoolStats (wrapU 64 (ps_QueriesReceived s + recv)) (wrapU 64 (ps_QueriesSent s + sent))
    (wrapU 64 (ps_GetPeersCount s + getPeers)) (wrapU 64 (ps_AnnounceCount s + announces))
    (ps_TotalNodes s) (wrapS 64 (ps_RoutingSize s + Z.of_nat routing)).

Fixpoint sum_stats (nodes : list nat) (s : PoolStats) : prog Pool PoolStats :=
  match nodes with
  | [] => Ret s
  | i :: nodes => n ← at_node i Stats; sum_stats nodes (add_stats s n)
  end.

(** One tick of [collectStats]. *)
Definition collect : prog Pool unit :=
  total ← gets (λ p, length (p_nodes p));
  stats ← sum_stats (seq 0 total) (mkPoolStats 0 0 0 0 (Z.of_nat total) 0);
  modify (set_pool_stats stats).

Definition collectStats (ticks : nat) : prog Pool unit := for_each (seq 0 ticks) (λ _, collect).

Definition pool_Stats : prog Pool PoolStats := gets (λ p, default zero_stats (p_stats p)).

Definition Events : prog Pool (chan Event) := gets p_eventChan.

Definition NodeCount : prog Pool nat := gets (λ p, length (p_nodes p)).

(** ** Start and stop *)

(** The variables of [Start]: [errChan], [errs] and the wait group.  An error is the index
    of the node that could not start. *)
Record StartLocals := mkStartLocals { sl_errChan : chan nat; sl_errs : list nat; sl_wg : Z }.

(** When they are declared. *)
Definition no_start_locals : StartLocals := mkStartLocals (make_chan 0) [] 0.

Definition set_errChan (c : chan nat) (l : StartLocals) : StartLocals := mkStartLocals c (sl_errs l) (sl_wg l).

Abbreviation Starting := (Pool * StartLocals)%type.

Definition in_pool {L A : Type} (q : prog Pool A) : prog (Pool * L) A := lift fst (λ p s, (p, s.2)) q.

(** [errChan <- err]: blocks while the channel is full. *)
Definition send_err (i : nat) : prog Starting unit :=
  Select (λ s,
    let c := sl_errChan s.2 in
    if ch_closed c then [Panic PanicSendClosed]
    else if chan_full c then []
    else [Ok (tt, (s.1, set_errChan (mkChan (ch_buf c ++ [i]) (ch_cap c) false) s.2))]) Ret.

(** [wg.Add(d)]; [wg.Done()] is [wg.Add(-1)]. *)
Definition start_wg (d : Z) : prog Starting unit :=
  modify (λ s, (s.1, mkStartLocals (sl_errChan s.2) (sl_errs s.2) (sl_wg s.2 + d))).

(** [for err := range errChan { errs = append(errs, err) }]: it ends when the channel is
    closed, with everything that was sent. *)
Definition range_errs : prog Starting unit :=
  Select (λ s,
    let c := sl_errChan s.2 in
    if ch_closed c
    then [Ok (tt, (s.1, mkStartLocals (mkChan [] (ch_cap c) true) (sl_errs s.2 ++ ch_buf c) (sl_wg s.2)))]
    else []) Ret.

Section start.
Context (resolve : bytes → option udp_addr) (can_listen : Z → bool).
Context (reads : nat → list (option (bytes * udp_addr))) (ticks : nat → list tick) (rotations : nat).

Definition start_node (i : nat) : prog Starting unit :=
  ok ← in_pool (at_node i (Start resolve can_listen (reads i) (ticks i) rotations));
  _ ← (if negb ok then send_err i else Ret tt);
  start_wg (-1).

(** The result is the error: how many nodes failed, and the first that did. *)
Definition pool_Start (stat_ticks : nat) : prog Starting (option (nat * nat)) :=
  total ← gets (λ s, length (p_nodes s.1));
  _ ← modify (λ s, (s.1, set_errChan (make_chan (Z.of_nat total)) s.2));
  _ ← for_each (seq 0 total) (λ i,
        _ ← start_wg 1;
        go (start_node i));
  _ ← Select (λ s, if sl_wg s.2 =? 0 then [Ok (tt, s)] else []) Ret;
  _ ← try_update (λ s, c ← close_chan (sl_errChan s.2); Ok (s.1, set_errChan c s.2));
  _ ← range_errs;
  errs ← gets (λ s, sl_errs s.2);
  match errs with
  | first :: _ => Ret (Some (length errs, first))
  | [] => _ ← go (in_pool (collectStats stat_ticks)); Ret None
  end.
End start.

(** Closing the sockets has no effect on the state; then the channel is closed. *)
Definition pool_Stop : prog Pool unit :=
  try_update (λ p, c ← close_chan (p_eventChan p); Ok (set_nodes (p_nodes p) c p)).

(** ** Lookups *)

(** [seen] and [unique] of the deduplication loop. *)
Fixpoint unique_peers (seen : gset bytes) (peers : list CompactPeerInfo) : list CompactPeerInfo :=
  match peers with
  | [] => []
  | peer :: peers =>
      let key := peer_addr (cp_IP peer) (cp_Port peer) in
      if decide (key ∈ seen) then unique_peers seen peers
      else peer :: unique_peers ({[key]} ∪ seen) peers
  end.

(** The variables of a pool-wide lookup: those of each node's lookup, [allPeers] and the
    wait group. *)
Record PoolLocals := mkPoolLocals {
  pl_lookups : list Locals;
  pl_allPeers : list CompactPeerInfo;
  pl_wg : Z;
}.

Abbreviation PoolLookup := (Pool * PoolLocals)%type.

Definition at_lookup {A : Type} (i : nat) (q : prog Lookup A) : prog PoolLookup A :=
  lift (λ s, (node_world i s.1, pl_lookups s.2 !!! i))
    (λ wl s, (put_node_world i wl.1 s.1,
       mkPoolLocals (<[i := wl.2]> (pl_lookups s.2)) (pl_allPeers s.2) (pl_wg s.2))) q.

Definition find_at (infoHash : bytes) (i : nat) : prog PoolLookup unit :=
  peers ← at_lookup i (FindPeers infoHash);
  _ ← (if (0 <? length peers)%nat
       then modify (λ s, (s.1, mkPoolLocals (pl_lookups s.2) (pl_allPeers s.2 ++ peers) (pl_wg s.2)))
       else Ret tt);
  modify (λ s, (s.1, mkPoolLocals (pl_lookups s.2) (pl_allPeers s.2) (pl_wg s.2 - 1))).

Definition no_pool_locals : PoolLocals := mkPoolLocals (replicate 5 no_locals) [] 0.

Definition pool_FindPeers (infoHash : bytes) : prog PoolLookup (list CompactPeerInfo) :=
  nodesToQuery ← gets (λ s, Nat.min 5 (length (p_nodes s.1)));
  _ ← for_each (seq 0 nodesToQuery) (λ i,
        _ ← modify (λ s, (s.1, mkPoolLocals (pl_lookups s.2) (pl_allPeers s.2) (pl_wg s.2 + 1)));
        go (find_at infoHash i));
  _ ← Select (λ s, if pl_wg s.2 =? 0 then [Ok (tt, s)] else []) Ret;
  allPeers ← gets (λ s, pl_allPeers s.2);
  Ret (unique_peers ∅ allPeers).

(** ** Deduplication *)

Definition peer_key (p : CompactPeerInfo) : bytes := peer_addr (cp_IP p) (cp_Port p).

Lemma unique_peers_spec seen peers :
  NoDup (peer_key <$> unique_peers seen peers) ∧
  (∀ p, p ∈ unique_peers seen peers → p ∈ peers ∧ peer_key p ∉ seen) ∧
  (∀ k, k ∈ peer_key <$> unique_peers seen peers ↔ k ∈ peer_key <$> peers ∧ k ∉ seen).
Proof.
  revert seen. induction peers as [|p peers IH]; intros seen; cbn [unique_peers].
  { split_and!; [constructor|set_solver|set_solver]. }
  fold (peer_key p). case_decide as Hp.
  - destruct (IH seen) as (H1 & H2 & H3). split_and!; [done|set_solver|].
    intros k. rewrite H3. cbn. set_solver.
  - destruct (IH ({[peer_key p]} ∪ seen)) as (H1 & H2 & H3). cbn. split_and!.
    + constructor; [|done]. rewrite H3. set_solver.
    + intros q [->|Hq]%elem_of_cons; [set_solver|]. destruct (H2 q Hq). set_solver.
    + intros k. rewrite !elem_of_cons, H3. destruct (decide (k = peer_key p)) as [->|]; set_solver.
Qed.

Lemma peer_key_inj p q : wf_peer p → wf_peer q → peer_key p = peer_key q → p = q.
Proof.
  intros [Hp _] [Hq _] H. apply peer_addr_inj in H as [H1 H2]; [|done..].
  destruct p, q; cbn in *; congruence.
Qed.

Lemma unique_peers_subset seen peers p : p ∈ unique_peers seen peers → p ∈ peers.
Proof. intros Hp. destruct (unique_peers_spec seen peers) as (_ & H & _). by apply H. Qed.

(** ** The nodes of a pool, interleaved *)

(** A pool of [n] running nodes. *)
Definition pool_inv (n : nat) (p : Pool) : Prop :=
  length (p_nodes p) = n ∧ ∀ i, (i < n)%nat → node_inv (node_world i p).

Lemma node_inv_set_events c w : node_inv w → chan_ok event_ok c → node_inv (set_events c w).
Proof. intros [H1 H2 H3 H4 H5 H6 H7 H8 H9] Hc. by constructor. Qed.

Lemma node_world_put i j w p :
  (j < length (p_nodes p))%nat →
  node_world j (put_node_world i w p) =
    if decide (i = j) then w else set_events (w_events w) (node_world j p).
Proof.
  intros Hj. unfold node_world. cbn. rewrite !list_lookup_total_alt, list_lookup_alter.
  case_decide as E; [|done]. subst.
  apply lookup_lt_is_Some in Hj as [x ->]. cbn. by destruct w.
Qed.

Lemma pool_inv_put n i w p :
  (i < n)%nat → pool_inv n p → node_inv w → pool_inv n (put_node_world i w p).
Proof.
  intros Hi [Hn Hp] Hw. split; cbn; [by rewrite length_alter|].
  intros j Hj. rewrite node_world_put by lia. case_decide; [done|].
  exact (node_inv_set_events _ _ (Hp j Hj) (ni_events _ Hw)).
Qed.

Lemma pool_ok_at_node {A : Type} n i (q : prog World A) Q :
  (i < n)%nat → node_ok q Q → prog_ok (pool_inv n) remote_panic (at_node i q) Q.
Proof.
  intros Hi. apply prog_ok_lift.
  - intros p [_ Hp]. by apply Hp.
  - intros p w Hp Hw. by apply pool_inv_put.
Qed.

Definition pool_lookup_inv (n : nat) (s : PoolLookup) : Prop :=
  pool_inv n s.1 ∧ Forall locals_inv (pl_lookups s.2) ∧ Forall wf_peer (pl_allPeers s.2).

Lemma pool_ok_at_lookup {A : Type} n i (q : prog Lookup A) Q :
  (i < n)%nat → lookup_ok q Q → prog_ok (pool_lookup_inv n) remote_panic (at_lookup i q) Q.
Proof.
  intros Hi. apply prog_ok_lift.
  - intros [p l] ([_ Hp] & Hl & _). split; [by apply Hp|]. cbn in *.
    rewrite list_lookup_total_alt. destruct (pl_lookups l !! i) as [x|] eqn:E; cbn;
      [by eapply Forall_lookup_1|apply locals_inv_none].
  - intros [p l] [w x] (Hp & Hl & Ha) [Hw Hx]. split_and!; cbn in *;
      [by apply pool_inv_put|by apply Forall_insert|done].
Qed.

Lemma pool_ok_locals n (f : PoolLocals → PoolLocals) :
  (∀ l, Forall locals_inv (pl_lookups l) ∧ Forall wf_peer (pl_allPeers l) →
        Forall locals_inv (pl_lookups (f l)) ∧ Forall wf_peer (pl_allPeers (f l))) →
  prog_ok (pool_lookup_inv n) remote_panic (modify (λ s, (s.1, f s.2))) (λ _, True).
Proof.
  intros H. apply prog_ok_modify; [|done]. intros [p l] (Hp & Hl). split; [done|]. by apply H.
Qed.

Lemma pool_ok_find_at n infoHash i :
  is_id infoHash → (i < n)%nat →
  prog_ok (pool_lookup_inv n) remote_panic (find_at infoHash i) (λ _, True).
Proof.
  intros Hh Hi. eapply prog_ok_bind; [by apply pool_ok_at_lookup, lookup_ok_FindPeers|].
  intros peers Hpeers. eapply prog_ok_bind with (Q := λ _, True).
  - case_match; [|done].
    apply (pool_ok_locals n (λ l, mkPoolLocals (pl_lookups l) (pl_allPeers l ++ peers) (pl_wg l))).
    intros l [? ?]. split; [done|]. by apply Forall_app.
  - intros _ _.
    by apply (pool_ok_locals n (λ l, mkPoolLocals (pl_lookups l) (pl_allPeers l) (pl_wg l - 1))).
Qed.

Lemma pool_ok_FindPeers n infoHash :
  is_id infoHash →
  prog_ok (pool_lookup_inv n) remote_panic (pool_FindPeers infoHash)
    (λ peers, Forall wf_peer peers ∧ NoDup peers).
Proof.
  intros Hh. unfold pool_FindPeers.
  eapply prog_ok_bind; [apply (prog_ok_gets _ _ _ (λ k, k ≤ n)%nat)|].
  { intros s [[Hn _] _]. rewrite Hn. lia. }
  intros k Hk. cbn beta in Hk. eapply prog_ok_bind.
  { apply prog_ok_for_each. intros i Hi. apply elem_of_seq in Hi.
    eapply prog_ok_bind;
      [by apply (pool_ok_locals n (λ l, mkPoolLocals (pl_lookups l) (pl_allPeers l) (pl_wg l + 1)))|].
    intros _ _. split; [|exact I]. apply pool_ok_find_at; [done|lia]. }
  intros _ _. eapply prog_ok_bind with (Q := λ _, True).
  { intros s o Hs Hin. cbn in Hin. case_match; [|by apply elem_of_nil in Hin].
    apply list_elem_of_singleton in Hin as ->. by split. }
  intros _ _. eapply prog_ok_bind; [apply (prog_ok_gets _ _ _ (Forall wf_peer)); by intros s (_ & _ & ?)|].
  intros peers Hp. rewrite Forall_forall in Hp. split.
  - apply Forall_forall. intros p Hin. by apply Hp, (unique_peers_subset ∅).
  - destruct (unique_peers_spec ∅ peers) as (Hnd & _). by apply NoDup_fmap_1 in Hnd.
Qed.

(** C31: a pool-wide lookup, under every interleaving of its goroutines with anything else
    that keeps the nodes' invariants. The nodes keep their invariants, the only panics
    are those a datagram can cause, and the result is a list of distinct peers with
    4-byte addresses and 16-bit ports. *)
Theorem pool_FindPeers_safe n infoHash s pool :
  is_id infoHash → pool_lookup_inv n s →
  Forall (λ q, prog_ok (pool_lookup_inv n) remote_panic q (λ _, True)) pool →
  ∀ (k : list CompactPeerInfo → prog PoolLookup unit) s' pool',
  (∀ peers, Forall wf_peer peers → NoDup peers →
     prog_ok (pool_lookup_inv n) remote_panic (k peers) (λ _, True)) →
  rtc cstep (s, (peers ← pool_FindPeers infoHash; k peers) :: pool) (s', pool') →
  pool_lookup_inv n s' ∧ ∀ p, cpanics (s', pool') p → remote_panic p.
Proof.
  intros Hh Hs Hpool k s' pool' Hk Hr.
  destruct (reachable_ok (pool_lookup_inv n) remote_panic (λ _ _, False)
    (s, (peers ← pool_FindPeers infoHash; k peers) :: pool) (s', pool')) as [[Hs' _] Hp].
  - done.
  - split; [done|]. constructor; [|done].
    eapply prog_ok_bind; [by apply pool_ok_FindPeers|]. intros peers [??]. auto.
  - clear -Hr. induction Hr; [constructor|]. eapply rtc_l; eauto.
  - done.
Qed.

Definition sample_pool : Pool := mkPool [sample_world] (make_chan 1000) 6881 1 [] None.

Lemma sample_pool_inv : pool_inv 1 sample_pool.
Proof.
  split; [done|]. intros i Hi. replace i with 0%nat by lia. apply sample_world_inv.
Qed.

Lemma pool_FindPeers_safe_witness :
  pool_lookup_inv 1 (sample_pool, no_pool_locals) ∧
  ∀ p, cpanics ((sample_pool, no_pool_locals),
                [peers ← pool_FindPeers sample_id; Ret tt]) p → remote_panic p.
Proof.
  apply (pool_FindPeers_safe 1 sample_id (sample_pool, no_pool_locals) []) with (k := λ _, Ret tt).
  - reflexivity.
  - split; [apply sample_pool_inv|]. split; [|constructor].
    apply Forall_replicate. split; constructor.
  - constructor.
  - intros peers _ _. exact I.
  - apply rtc_refl.
Defined.

(** the merge of a pool-wide lookup. The result keeps one peer for each address that
    was found, in the order of the first time it was found; on IPv4 peers that is one
    copy of each peer. *)
Theorem unique_peers_correct peers :
  NoDup (peer_key <$> unique_peers ∅ peers) ∧
  (∀ p, p ∈ unique_peers ∅ peers → p ∈ peers) ∧
  (∀ k, k ∈ peer_key <$> unique_peers ∅ peers ↔ k ∈ peer_key <$> peers) ∧
  (∀ l p r, peers = l ++ p :: r → peer_key p ∉ peer_key <$> l →
     ∃ t, unique_peers ∅ peers = unique_peers ∅ l ++ p :: t) ∧
  (Forall wf_peer peers → NoDup (unique_peers ∅ peers) ∧ ∀ p, p ∈ unique_peers ∅ peers ↔ p ∈ peers).
Proof.
  destruct (unique_peers_spec ∅ peers) as (H1 & H2 & H3). split_and!.
  - done.
  - intros p Hp. by apply H2.
  - intros k. rewrite H3. set_solver.
  - intros l p r -> Hp.
    enough (∀ l seen, peer_key p ∉ peer_key <$> l → peer_key p ∉ seen →
      ∃ t, unique_peers seen (l ++ p :: r) = unique_peers seen l ++ p :: t) as H by (apply H; set_solver).
    clear. induction l as [|q l IH]; intros seen Hl Hs; cbn [app unique_peers].
    + exists (unique_peers ({[peer_key p]} ∪ seen) r). fold (peer_key p). by rewrite decide_False.
    + cbn in Hl. apply not_elem_of_cons in Hl as [Hq Hl]. fold (peer_key q). case_decide; [by apply IH|].
      destruct (IH ({[peer_key q]} ∪ seen)) as [t ->]; [done|set_solver|]. by exists t.
  - intros Hwf. rewrite Forall_forall in Hwf. split; [by apply NoDup_fmap_1 in H1|].
    intros p. split; [intros Hp; by apply H2|]. intros Hp.
    assert (peer_key p ∈ peer_key <$> unique_peers ∅ peers) as Hk.
    { apply H3. split; [by apply list_elem_of_fmap_2|set_solver]. }
    apply list_elem_of_fmap in Hk as (q & Hq & Hin). destruct (H2 q Hin) as [Hq' _].
    by rewrite (peer_key_inj p q (Hwf _ Hp) (Hwf _ Hq') Hq).
Qed.

(** ** Construction, statistics, stop *)

(** a new pool. With a random source that honours its contract, [NewPool] returns
    [count] nodes whose identifiers are spread over the key space and pairwise distinct,
    on consecutive ports, sharing one open channel of [1000 * count] events; each is
    fit to be started; a count that is not positive is refused. *)
Theorem NewPool_correct rand_ids secret rnd now count startPort bootstraps :
  (∀ i, ∃ r, rand_ids i = Ok r ∧ 0 ≤ r < 2 ^ 160 / count) →
  0 < count → count * 64000 ≤ maxAlloc → 0 ≤ startPort → startPort + count ≤ 2 ^ 63 →
  ∃ p, NewPool rand_ids secret rnd now count startPort bootstraps = Ok p ∧
    Z.of_nat (length (p_nodes p)) = count ∧
    NoDup (n_ID ∘ w_node <$> p_nodes p) ∧
    p_eventChan p = make_chan (count * 1000) ∧
    ∀ i w, p_nodes p !! i = Some w →
      n_Port (w_node w) = startPort + Z.of_nat i ∧
      2 ^ 160 / count * Z.of_nat i ≤ be_val (n_ID (w_node w)) < 2 ^ 160 / count * (Z.of_nat i + 1) ∧
      n_routingTable (w_node w) = None ∧
      node_inv (on_node (set_table (Some (NewRoutingTable (n_ID (w_node w))))) (node_world i p)).
Proof.
  intros Hr Hc Hmem Hp1 Hp2. unfold maxAlloc in Hmem.
  destruct (GenerateDistributedIDs_spec rand_ids count ltac:(lia) Hr) as (ids & Hids & Hlen & Hspread & _ & Hnd).
  set (c := make_chan (count * 1000)).
  exists (mkPool (imap (new_world secret rnd now startPort bootstraps c) ids) c startPort count bootstraps None).
  split_and!; cbn [p_nodes p_eventChan].
  - unfold NewPool. destruct (Z.leb_spec count 0); [lia|]. rewrite Hids. cbn [map_err mbind outcome_bind].
    rewrite wrapS_id by lia. unfold make_event_chan, maxAlloc, event_size.
    destruct (Z.ltb_spec (count * 1000) 0); [lia|].
    by destruct (Z.ltb_spec (2 ^ 48) (count * 1000 * 64)); [lia|].
  - by rewrite length_imap.
  - rewrite fmap_imap. change (NoDup (imap (const id) ids)). by rewrite imap_const, list_fmap_id.
  - done.
  - intros i w Hi. rewrite list_lookup_imap in Hi. destruct (ids !! i) as [id|] eqn:E; [|done].
    injection Hi as <-. destruct (Hspread i id E) as [Hid Hs].
    assert (Z.of_nat i < count) by (apply lookup_lt_Some in E; lia).
    cbn [w_node new_world NewNode n_Port n_ID n_routingTable].
    rewrite wrapS_id by lia. split; [done|]. split; [done|]. split; [done|].
    unfold node_world. cbn [p_nodes p_eventChan].
    assert (imap (new_world secret rnd now startPort bootstraps c) ids !!! i =
      new_world secret rnd now startPort bootstraps c i id) as ->.
    { apply list_lookup_total_correct. by rewrite list_lookup_imap, E. }
    apply (started_inv id _ bootstraps (take 16 (secret i ++ replicate 16 x00)) (count * 1000) now (rnd i)); [done| |lia].
    rewrite length_take, length_app, length_replicate. lia.
Qed.

Lemma NewPool_correct_witness :
  ∃ p, NewPool (λ i, Ok (Z.of_nat i mod 2)) (λ _, []) (λ _ _, []) 0 3 6881 [] = Ok p ∧
    Z.of_nat (length (p_nodes p)) = 3 ∧
    NoDup (n_ID ∘ w_node <$> p_nodes p) ∧
    p_eventChan p = make_chan (3 * 1000) ∧
    ∀ i w, p_nodes p !! i = Some w →
      n_Port (w_node w) = 6881 + Z.of_nat i ∧
      2 ^ 160 / 3 * Z.of_nat i ≤ be_val (n_ID (w_node w)) < 2 ^ 160 / 3 * (Z.of_nat i + 1) ∧
      n_routingTable (w_node w) = None ∧
      node_inv (on_node (set_table (Some (NewRoutingTable (n_ID (w_node w))))) (node_world i p)).
Proof.
  apply (NewPool_correct (λ i, Ok (Z.of_nat i mod 2)) (λ _, []) (λ _ _, []) 0 3 6881 []).
  - intros i. exists (Z.of_nat i mod 2). split; [done|].
    pose proof (Z.mod_pos_bound (Z.of_nat i) 2 ltac:(lia)).
    assert (2 ≤ 2 ^ 160 / 3) by (vm_compute; discriminate). lia.
  - lia.
  - vm_compute. discriminate.
  - lia.
  - lia.
Defined.

Definition node_stats (w : World) (size : nat) : Z * Z * Z * Z * nat :=
  (n_queriesReceived (w_node w), n_queriesSent (w_node w), n_getPeersCount (w_node w),
   n_announceCount (w_node w), size).

Lemma put_node_world_id i p : put_node_world i (node_world i p) p = p.
Proof.
  unfold put_node_world, node_world. destruct p as [nodes c sp n b st]. cbn. f_equal.
  unfold set_nodes. cbn. f_equal. apply list_eq. intros j. rewrite list_lookup_alter.
  case_decide as E; [|done]. subst. destruct (nodes !! j) as [x|] eqn:E; [|done]. cbn.
  rewrite (list_lookup_total_correct _ _ _ E). by destruct x.
Qed.

(** A goroutine of one node, run in the pool. *)
Lemma run_at_node {A : Type} i (q : prog World A) p :
  (i < length (p_nodes p))%nat →
  run (at_node i q) p = '(a, w) ← run q (node_world i p); Ok (a, put_node_world i w p).
Proof.
  intros Hi. apply (run_lift _ _ (λ p, i < length (p_nodes p))%nat); [| |done].
  - intros t w Ht. split_and!.
    + cbn. by rewrite length_alter.
    + rewrite node_world_put by done. by rewrite decide_True.
    + intros w'. unfold put_node_world, set_nodes. cbn. f_equal.
      by rewrite list_alter_alter_eq.
  - intros t _. apply put_node_world_id.
Qed.

Definition table_size (w : World) : nat := match n_routingTable (w_node w) with Some rt => Size rt | None => 0 end.

Lemma run_Stats w rt :
  n_routingTable (w_node w) = Some rt → run Stats w = Ok (node_stats w (Size rt), w).
Proof. intros H. unfold Stats, table_Size, checked, table. cbn. by rewrite H. Qed.

Lemma run_sum_stats n p is_ s :
  pool_inv n p → Forall (λ i, (i < n)%nat) is_ →
  run (sum_stats is_ s) p =
    Ok (foldl (λ s i, add_stats s (node_stats (p_nodes p !!! i) (table_size (p_nodes p !!! i)))) s is_, p).
Proof.
  intros Hp. revert s. induction is_ as [|i is_ IH]; intros s Hi; [done|].
  apply Forall_cons_1 in Hi as [Hi His]. cbn [sum_stats foldl].
  destruct (ni_table _ (proj2 Hp i Hi)) as (rt & Hrt & _).
  rewrite run_bind, run_at_node by (destruct Hp; lia). rewrite (run_Stats _ rt Hrt).
  cbn [mbind outcome_bind]. rewrite put_node_world_id, IH by done.
  unfold table_size. change (n_routingTable (w_node (p_nodes p !!! i)) = Some rt) in Hrt. by rewrite Hrt.
Qed.

Definition sum_of (f : World → Z) (p : Pool) : Z := foldr (λ w a, f w + a) 0 (p_nodes p).

Lemma foldl_stats (l : list World) s :
  foldl (λ s w, add_stats s (node_stats w (table_size w))) s l =
  mkPoolStats
    (wrapU 64 (ps_QueriesReceived s + foldr (λ w a, n_queriesReceived (w_node w) + a) 0 l))
    (wrapU 64 (ps_QueriesSent s + foldr (λ w a, n_queriesSent (w_node w) + a) 0 l))
    (wrapU 64 (ps_GetPeersCount s + foldr (λ w a, n_getPeersCount (w_node w) + a) 0 l))
    (wrapU 64 (ps_AnnounceCount s + foldr (λ w a, n_announceCount (w_node w) + a) 0 l))
    (ps_TotalNodes s)
    (wrapS 64 (ps_RoutingSize s + foldr (λ w a, Z.of_nat (table_size w) + a) 0 l)) ∨ l = [].
Proof.
  revert s. induction l as [|w l IH]; intros s; [by right|left]. cbn [foldl foldr].
  assert (∀ a b, wrapU 64 (wrapU 64 a + b) = wrapU 64 (a + b)) as HU.
  { intros a b. unfold wrapU. by rewrite Zplus_mod_idemp_l. }
  destruct (IH (add_stats s (node_stats w (table_size w)))) as [->| ->]; cbn.
  - by rewrite !HU, wrapS_add, !Z.add_assoc by lia.
  - by rewrite !Z.add_0_r.
Qed.

(** statistics. One tick of the collector stores the sums of the nodes' counters
    modulo 2^64, the number of nodes and the total size of their tables, and changes
    nothing else; [Stats] returns what the last tick stored, zeros before the first. *)
Theorem collect_correct n p :
  pool_inv n p → (0 < n)%nat →
  run collect p = Ok (tt, set_pool_stats (mkPoolStats
    (wrapU 64 (sum_of (λ w, n_queriesReceived (w_node w)) p))
    (wrapU 64 (sum_of (λ w, n_queriesSent (w_node w)) p))
    (wrapU 64 (sum_of (λ w, n_getPeersCount (w_node w)) p))
    (wrapU 64 (sum_of (λ w, n_announceCount (w_node w)) p))
    (Z.of_nat n)
    (wrapS 64 (sum_of (λ w, Z.of_nat (table_size w)) p))) p) ∧
  run pool_Stats p = Ok (default zero_stats (p_stats p), p).
Proof.
  intros Hp Hn. split; [|done]. unfold collect. rewrite run_bind. unfold gets. cbn [run mbind outcome_bind].
  rewrite (proj1 Hp), run_bind, (run_sum_stats n) by (done || apply Forall_seq; lia).
  cbn [mbind outcome_bind run modify]. do 3 f_equal. rewrite <- (proj1 Hp).
  assert (∀ s (l : list World), foldl (λ s i, add_stats s (node_stats (l !!! i) (table_size (l !!! i)))) s
    (seq 0 (length l)) = foldl (λ s w, add_stats s (node_stats w (table_size w))) s l) as H.
  { clear. intros s l. revert s. induction l as [|w l IH]; intros s; [done|]. cbn [length seq foldl].
    rewrite <- fmap_S_seq, foldl_fmap. apply IH. }
  rewrite H. destruct (foldl_stats (p_nodes p) (mkPoolStats 0 0 0 0 (Z.of_nat (length (p_nodes p))) 0))
    as [->|E]; [done|]. destruct Hp as [Hp _]. rewrite E in Hp. cbn in Hp. lia.
Qed.

Lemma collect_correct_witness :
  run collect sample_pool = Ok (tt, set_pool_stats (mkPoolStats 0 0 0 0 1 0) sample_pool) ∧
  run pool_Stats sample_pool = Ok (zero_stats, sample_pool).
Proof.
  destruct (collect_correct 1 sample_pool sample_pool_inv ltac:(lia)) as [H1 H2].
  split; [|exact H2]. rewrite H1. vm_compute. reflexivity.
Defined.

(** [Stop] closes the event channel while handlers may still run. Afterwards a
    datagram still in flight, a get_peers query with an info hash, makes its handler
    send on the closed channel and panic, and so does a second [Stop]. *)
Theorem Stop_then_query_panics n p i data addr m infoHash :
  pool_inv n p → (i < n)%nat → wf_addr addr → DecodeMessage data = Ok m →
  Type_ m = MsgTypeQuery → Query m = QueryGetPeers → GetInfoHash m = Some infoHash →
  ∃ p', run pool_Stop p = Ok (tt, p') ∧ ch_closed (p_eventChan p') = true ∧
    run (at_node i (handleMessage data addr)) p' = Panic PanicSendClosed ∧
    run pool_Stop p' = Panic PanicCloseClosed.
Proof.
  intros Hp Hi Ha Hm Hq HQ Hh.
  destruct (ni_events _ (proj2 Hp i Hi)) as (_ & Ho & _). cbn in Ho.
  set (c := mkChan (ch_buf (p_eventChan p)) (ch_cap (p_eventChan p)) true).
  exists (set_nodes (p_nodes p) c p). split_and!.
  - unfold pool_Stop, try_update, close_chan. cbn [run]. by rewrite Ho.
  - done.
  - rewrite run_at_node by (cbn; destruct Hp; lia).
    destruct (ni_table _ (proj2 Hp i Hi)) as (rt & Hrt & _).
    set (w := node_world i (set_nodes (p_nodes p) c p)).
    assert (n_routingTable (w_node w) = Some rt) as Hrt' by exact Hrt.
    unfold handleMessage. rewrite run_bind. unfold checked. cbn [run]. rewrite Hm. cbn [mbind outcome_bind].
    rewrite run_bind. change (run (count 1 0 0 0) w) with (@Ok unit _ (tt, on_node (add_counters 1 0 0 0) w)).
    cbn [mbind outcome_bind]. rewrite decide_True by done. unfold handleQuery. rewrite run_bind, HQ.
    assert (∀ w1, w_events w1 = c → run (handleGetPeers m addr) w1 = Panic PanicSendClosed) as HG.
    { intros w1 Hw1. unfold handleGetPeers. rewrite Hh, run_bind.
      change (run (count 0 0 1 0) w1) with (@Ok unit _ (tt, on_node (add_counters 0 0 1 0) w1)).
      cbn [mbind outcome_bind]. rewrite run_bind. unfold emit, try_update, try_send. cbn [run].
      cbn [w_events on_node]. by rewrite Hw1. }
    destruct (GetQueryNodeID m) as [id|].
    + rewrite (run_table_Insert _ _ _ _ rt) by done. cbn [mbind outcome_bind]. by rewrite HG.
    + cbn [run mbind outcome_bind]. by rewrite HG.
  - done.
Qed.

Lemma Stop_then_query_panics_witness :
  ∃ p', run pool_Stop sample_pool = Ok (tt, p') ∧ ch_closed (p_eventChan p') = true ∧
    run (at_node 0 (handleMessage (bs "d1:ad9:info_hash20:BBBBBBBBBBBBBBBBBBBBe1:q9:get_peers1:t2:aa1:y1:qe")
                      sample_addr)) p' = Panic PanicSendClosed ∧
    run pool_Stop p' = Panic PanicCloseClosed.
Proof.
  eapply (Stop_then_query_panics 1 sample_pool 0 _ sample_addr
    (mkMessage (bs "aa") MsgTypeQuery QueryGetPeers (Some [(bs "info_hash", VBytes (replicate 20 x42))]) None None)
    (replicate 20 x42)).
  - apply sample_pool_inv.
  - lia.
  - apply sample_addr_wf.
  - vm_compute. reflexivity.
  - reflexivity.
  - reflexivity.
  - reflexivity.
Defined.
