(* ===== verification/Quits.v ===== *)
(** * Programs without endless loops

    The goroutines of a node and of the pool run through the datagrams and ticks they are
    given, and the lookups through their rounds: they have no loop that must be left, so
    they [quit] whatever it is that stops the program. *)

From S2P Require Import Prelude Conc Credit Progress Krpc Node Pool.

Lemma quits_send_query stopped encode addr : quits stopped (send_query encode addr).
Proof. unfold send_query, nextTxnID, ID, encoded, WriteToUDP, count. solve_quits. Qed.

Lemma quits_table_Insert stopped id ip port : quits stopped (table_Insert id ip port).
Proof. unfold table_Insert. solve_quits. Qed.

Lemma quits_table_FindClosest stopped t k : quits stopped (table_FindClosest t k).
Proof. unfold table_FindClosest. solve_quits. Qed.
#[export] Hint Resolve quits_send_query quits_table_Insert quits_table_FindClosest : quits.

Lemma quits_handleQuery stopped msg addr : quits stopped (handleQuery msg addr).
Proof.
  unfold handleQuery, handlePing, handleFindNode, handleGetPeers, handleAnnouncePeer, ID, encoded, WriteToUDP, count,
    emit, generateToken, validateToken. solve_quits.
Qed.
#[export] Hint Resolve quits_handleQuery : quits.

Lemma quits_handleMessage stopped data addr : quits stopped (handleMessage data addr).
Proof. unfold handleMessage, handleResponse, count. solve_quits. Qed.
#[export] Hint Resolve quits_handleMessage : quits.

Lemma quits_readLoop stopped reads : quits stopped (readLoop reads).
Proof. unfold readLoop. solve_quits. Qed.

Lemma quits_Bootstrap stopped resolve : quits stopped (Bootstrap resolve).
Proof. unfold Bootstrap, rand_Read, ID, sleep. solve_quits. Qed.
#[export] Hint Resolve quits_readLoop quits_Bootstrap : quits.

Lemma quits_refreshLoop stopped resolve ticks : quits stopped (refreshLoop resolve ticks).
Proof. unfold refreshLoop, activeQuery, refresh, table_Size, rand_Read. solve_quits. Qed.

Lemma quits_rotateSecrets stopped k : quits stopped (rotateSecrets k).
Proof. unfold rotateSecrets. solve_quits. Qed.
#[export] Hint Resolve quits_refreshLoop quits_rotateSecrets : quits.

Lemma quits_node_Start stopped resolve can_listen reads ticks k : quits stopped (Start resolve can_listen reads ticks k).
Proof. unfold Start. solve_quits. Qed.

Lemma quits_Stats stopped : quits stopped Stats.
Proof. unfold Stats, table_Size. solve_quits. Qed.
#[export] Hint Resolve quits_node_Start quits_Stats : quits.

(** ** Lookups *)

Lemma quits_query_node stopped infoHash node : quits stopped (query_node infoHash node).
Proof.
  unfold query_node, in_world, nextTxnID, ID, encoded, WriteToUDP, count, await, wg_add, on_locals. solve_quits.
Qed.
#[export] Hint Resolve quits_query_node : quits.

Lemma quits_query_all stopped infoHash closest queried : quits stopped (query_all infoHash closest queried).
Proof.
  revert queried. induction closest as [|node closest IH]; intros queried; [exact I|]. cbn [query_all].
  unfold wg_add, on_locals. solve_quits.
Qed.
#[export] Hint Resolve quits_query_all : quits.

Lemma quits_find_rounds stopped rounds infoHash target queried : quits stopped (find_rounds rounds infoHash target queried).
Proof.
  revert queried. induction rounds as [|rounds IH]; intros queried; [exact I|]. cbn [find_rounds].
  unfold in_world, on_locals, wg_wait. solve_quits.
Qed.
#[export] Hint Resolve quits_find_rounds : quits.

Lemma quits_FindPeers stopped infoHash : quits stopped (FindPeers infoHash).
Proof. unfold FindPeers. solve_quits. Qed.
#[export] Hint Resolve quits_FindPeers : quits.

Lemma quits_pool_FindPeers stopped infoHash : quits stopped (pool_FindPeers infoHash).
Proof. unfold pool_FindPeers, find_at, at_lookup. solve_quits. Qed.

(** ** The pool *)

Lemma quits_sum_stats stopped nodes s : quits stopped (sum_stats nodes s).
Proof. revert s. induction nodes as [|i l IH]; intros s; [exact I|]. cbn [sum_stats]. unfold at_node. solve_quits. Qed.
#[export] Hint Resolve quits_sum_stats : quits.

Lemma quits_collectStats stopped k : quits stopped (collectStats k).
Proof. unfold collectStats, collect. solve_quits. Qed.
#[export] Hint Resolve quits_collectStats quits_pool_FindPeers : quits.

Lemma quits_pool_Start stopped resolve can_listen reads ticks rotations k :
  quits stopped (pool_Start resolve can_listen reads ticks rotations k).
Proof. unfold pool_Start, start_node, send_err, start_wg, range_errs, in_pool, at_node. solve_quits. Qed.

Lemma quits_pool_Stats stopped : quits stopped pool_Stats.
Proof. unfold pool_Stats. solve_quits. Qed.

Lemma quits_pool_Stop stopped : quits stopped pool_Stop.
Proof. unfold pool_Stop. solve_quits. Qed.
#[export] Hint Resolve quits_pool_Start quits_pool_Stats quits_pool_Stop : quits.
