(* ===== verification/PoolStart.v ===== *)
(** * The pool of nodes starts

    [Start] of the pool binds every node in a goroutine of its own, waits for all of them
    and gives back an error when one could not be bound.  Each node's loops run already
    while the others start.  This file shows that [Start] can always come back, as no node
    waits for a place in the channel of errors, that it does with the errors of exactly the
    ports that are taken, and that without errors every node runs. *)

From stdpp Require Import gmultiset.
From S2P Require Import Prelude GoStd Net Conc Credit Progress Bencode NodeID Routing Krpc Node NodeSpec Pool Quits.

#[local] Arguments disj_union : simpl never.
#[local] Arguments gmultiset_disj_union : simpl never.
#[local] Arguments multiplicity : simpl never.

(** ** A node's goroutines never wait *)

Lemma waits_send_query encode addr : never_waits (send_query encode addr).
Proof. unfold send_query, nextTxnID, ID, encoded, WriteToUDP, count. solve_waits. Qed.

Lemma waits_table_Insert id ip port : never_waits (table_Insert id ip port).
Proof. unfold table_Insert. solve_waits. Qed.

Lemma waits_table_FindClosest t k : never_waits (table_FindClosest t k).
Proof. unfold table_FindClosest. solve_waits. Qed.

Lemma waits_handleQuery msg addr : never_waits (handleQuery msg addr).
Proof.
  unfold handleQuery, handlePing, handleFindNode, handleGetPeers, handleAnnouncePeer, ID, encoded, WriteToUDP, count,
    emit, generateToken, validateToken, table_Insert, table_FindClosest. solve_waits.
Qed.

Lemma waits_handleMessage data addr : never_waits (handleMessage data addr).
Proof.
  unfold handleMessage, handleResponse, count, table_Insert. pose proof waits_handleQuery. solve_waits.
Qed.

Lemma waits_readLoop reads : never_waits (readLoop reads).
Proof. pose proof waits_handleMessage. unfold readLoop. solve_waits. by split. Qed.

Lemma waits_Bootstrap resolve : never_waits (Bootstrap resolve).
Proof.
  pose proof waits_send_query. pose proof waits_table_FindClosest. unfold Bootstrap, rand_Read, ID, sleep. solve_waits.
Qed.

Lemma waits_refreshLoop resolve ticks : never_waits (refreshLoop resolve ticks).
Proof.
  pose proof (waits_Bootstrap resolve). pose proof waits_send_query. pose proof waits_table_FindClosest.
  unfold refreshLoop, activeQuery, refresh, table_Size, rand_Read. solve_waits.
Qed.

Lemma waits_rotateSecrets k : never_waits (rotateSecrets k).
Proof. unfold rotateSecrets. solve_waits. Qed.

(** ** What the goroutines hold and know *)

(** How far the main goroutine is: so many nodes are left to start; or all have been waited
    for, and these are the errors, still in [errChan] (0), in the closed channel (1) or in
    [errs] (2). *)
Abbreviation stage := (nat + nat * list nat)%type.
(** The stage, the rights to start nodes, what is known ([Some i]: node [i] runs; [None]:
    [errChan] is made), and places in the wait group of goroutines that have used their
    right. *)
Abbreviation start_units := (gmultiset stage * gmultiset nat * gset (option nat) * nat)%type.

Definition left_to_start (a : stage) : nat := match a with inl k => k | inr _ => 0%nat end.

(** The errors so far. *)
Definition reported (l : StartLocals) : list nat := sl_errs l ++ ch_buf (sl_errChan l).

(** Where they are. *)
Definition errs_at (a : stage) (l : StartLocals) : Prop :=
  let c := sl_errChan l in
  match a with
  | inl _ | inr (0%nat, _) => ch_closed c = false ∧ sl_errs l = []
  | inr (1%nat, _) => ch_closed c = true ∧ sl_errs l = []
  | inr _ => ch_closed c = true ∧ ch_buf c = []
  end.

(** Distinct nodes are no more than there are. *)
Lemma NoDup_below (l : list nat) n : NoDup l → (∀ i, i ∈ l → (i < n)%nat) → (length l ≤ n)%nat.
Proof.
  intros Hd Hl. rewrite <- (length_seq n 0). apply submseteq_length, NoDup_submseteq; [done|].
  intros i Hi. apply elem_of_seq. specialize (Hl i Hi). lia.
Qed.

Lemma one_stage (x a : stage) (o : gmultiset stage) : {[+ x +]} ⊎ o = {[+ a +]} → a = x ∧ o = ∅.
Proof.
  intros E. assert (x ∈ ({[+ a +]} : gmultiset stage)) as Hx by (rewrite <- E; multiset_solver).
  apply gmultiset_elem_of_singleton in Hx as ->. split; [done|]. multiset_solver.
Qed.

Lemma right_once (i : nat) (o : gmultiset nat) :
  (∀ j, (multiplicity j ({[+ i +]} ⊎ o) ≤ 1)%nat) → i ∉ o.
Proof.
  intros Ho Hin. specialize (Ho i). rewrite multiplicity_disj_union, multiplicity_singleton_eq in Ho.
  rewrite elem_of_multiplicity in Hin. lia.
Qed.

(** The statistics goroutine, over running nodes. *)
Lemma pool_ok_sum_stats n is_ s :
  Forall (λ i, (i < n)%nat) is_ → prog_ok (pool_inv n) remote_panic (sum_stats is_ s) (λ _, True).
Proof.
  intros H. revert s. induction H as [|i is_ Hi _ IH]; intros s; [done|]. cbn [sum_stats].
  eapply prog_ok_bind; [by apply pool_ok_at_node, node_ok_Stats|]. intros x _. apply IH.
Qed.

Lemma pool_ok_collectStats n k : prog_ok (pool_inv n) remote_panic (collectStats k) (λ _, True).
Proof.
  apply prog_ok_for_each. intros _ _. eapply prog_ok_bind; [apply (prog_ok_gets _ _ _ (λ x, x = n))|].
  { by intros p [? _]. }
  intros ? ->. eapply prog_ok_bind; [apply pool_ok_sum_stats|].
  { apply Forall_seq. lia. }
  intros s _. by apply prog_ok_modify.
Qed.

Lemma waits_collectStats k : never_waits (collectStats k).
Proof.
  apply never_waits_for_each. intros _. apply never_waits_bind; [by intros ?|]. intros total.
  apply never_waits_bind; [|by intros ? ?]. generalize (mkPoolStats 0 0 0 0 (Z.of_nat total) 0).
  induction (seq 0 total) as [|i l IH]; intros s; [done|]. cbn [sum_stats].
  apply never_waits_bind; [|intros; apply IH]. apply never_waits_lift. unfold Stats, table_Size. solve_waits.
Qed.

Section pool.
Context (resolve : bytes → option udp_addr) (can_listen : Z → bool).
Context (reads : nat → list (option (bytes * udp_addr))) (ticks : nat → list tick) (rotations : nat).
Context (reads_ok : ∀ i data addr, Some (data, addr) ∈ reads i → wf_addr addr).
Context (n : nat) (port : nat → Z).

(** A node that could run if it had its table. *)
Definition node_waiting (i : nat) (w : World) : Prop :=
  node_inv (on_node (set_table (Some (NewRoutingTable (n_ID (w_node w))))) w) ∧ n_Port (w_node w) = port i.

Record start_inv (m : start_units) (s : Starting) : Prop := mkStartInv {
  st_nodes : length (p_nodes s.1) = n;
  st_stage : ∃ a, (m.1.1.1 = ({[+ a +]} : gmultiset stage)) ∧
    sl_wg s.2 + Z.of_nat (left_to_start a) = Z.of_nat (size m.1.1.2 + m.2) ∧
    (∀ k es, a = inr (k, es) → m.1.1.2 = ∅ ∧ reported s.2 = es) ∧ errs_at a s.2;
  st_once : ∀ i, (multiplicity i m.1.1.2 ≤ 1)%nat;
  st_errs : NoDup (reported s.2) ∧
    ∀ i, i ∈ reported s.2 → (i < n)%nat ∧ (i ∉ m.1.1.2) ∧ (Some i ∉ m.1.2) ∧ can_listen (port i) = false;
  st_waiting : ∀ i, i ∈ m.1.1.2 → (i < n)%nat ∧ node_waiting i (node_world i s.1);
  st_running : ∀ i, (i < n)%nat → i ∉ m.1.1.2 → i ∉ reported s.2 →
    node_inv (node_world i s.1) ∧ can_listen (port i) = true;
  st_known : ∀ i, Some i ∈ m.1.2 → (i < n)%nat ∧ i ∉ m.1.1.2;
  st_made : None ∈ m.1.2 → ch_cap (sl_errChan s.2) = Z.of_nat n;
}.

(** A goroutine that ended has used its right and left the group. *)
Definition out (m : start_units) : Prop := m.1.1.2 = ∅ ∧ m.2 = 0%nat.

Abbreviation starts p r Q := (owes start_inv remote_panic (λ _ _, False) out p r Q).

Definition knows (l : gset (option nat)) : start_units := (∅, ∅, l, 0%nat).

Lemma known_running m s i : start_inv m s → Some i ∈ m.1.2 → (i < n)%nat ∧ (i ∉ m.1.1.2) ∧ node_inv (node_world i s.1).
Proof.
  intros [_ _ _ [_ He] _ Hr Hk _] Hi. destruct (Hk i Hi) as [Hn Hm]. split_and!; [done..|].
  apply Hr; [done..|]. intros Hin. by destruct (He i Hin) as (_ & _ & ? & _).
Qed.

Lemma node_waiting_events c i w : chan_ok event_ok c → node_waiting i w → node_waiting i (set_events c w).
Proof. intros Hc [Hw Hp]. split; [|done]. exact (node_inv_set_events _ _ Hw Hc). Qed.

(** A running node moves. *)
Lemma start_inv_put m s i w :
  start_inv m s → Some i ∈ m.1.2 → node_inv w → start_inv m (put_node_world i w s.1, s.2).
Proof.
  intros HI Hi Hw. destruct (known_running m s i HI Hi) as (Hn & Hm & _).
  destruct HI as [H1 H2 H3 H4 H5 H6 H7 H8]. pose proof (ni_events _ Hw) as Hc.
  constructor; cbn [fst snd] in *; try done.
  - cbn. by rewrite length_alter.
  - intros j Hj. destruct (H5 j Hj) as [Hjn Hjw]. split; [done|].
    rewrite node_world_put, decide_False by (lia || congruence). by apply node_waiting_events.
  - intros j Hj Hr He. destruct (H6 j Hj Hr He) as [Hjw ?]. split; [|done].
    rewrite node_world_put by lia. case_decide; [done|]. by apply node_inv_set_events.
Qed.

(** The world of node [i] in the state of [Start]. *)
Definition started_node {A : Type} (i : nat) (q : prog World A) : prog Starting A :=
  lift (λ s, node_world i s.1) (λ w s, (put_node_world i w s.1, s.2)) q.

Lemma starts_node {A : Type} i (q : prog World A) Q r :
  never_waits q → node_ok q Q → r = knows {[Some i]} ⊕ r → starts (started_node i q) r (λ _ r', r' = r).
Proof.
  intros Hw Hq Hr. apply owes_ready; [by apply never_waits_lift|].
  refine (owes_mono _ _ _ _ _ _ (λ a r', r' = r ∧ Q a) _ _ _); [|by intros a r' [-> _]].
  apply (owes_lift_known start_inv remote_panic remote_panic (λ _ _, True) out _ _ node_inv (knows {[Some i]})); try done.
  - unfold knows. cbn. by rewrite (union_idemp_L {[Some i]}), (left_id_L ∅ disj_union).
  - intros m s HI. apply (known_running _ s i HI). cbn. set_solver.
  - intros m s w HI. apply start_inv_put; [exact HI|]. cbn. set_solver.
Qed.

(** ** One node *)

(** The right to start node [i], and what is left of it. *)
Definition right_of (i : nat) : start_units := (∅, {[+ i +]}, {[None]}, 0%nat).
Definition used (i : nat) : start_units := (∅, ∅, {[Some i]}, 1%nat).

Ltac open_start := intros s [[[fa fr] fk] fd] [H1 (a & H2 & H2' & H2'' & Hch) H3 H4 H5 H6 H7 H8];
  cbn [u_add prod_units nat_units gmultiset_units gset_units fst snd right_of used] in *.

(** The node gets its table: from here on it runs. *)
Lemma starts_bound i :
  can_listen (port i) = true →
  starts (started_node i (modify (on_node (λ n, set_table (Some (NewRoutingTable (n_ID n))) n)))) (right_of i)
    (λ _ r, r = used i).
Proof.
  intros Hl. open_start. exists (used i). split; [|done].
  assert (i ∈ {[+ i +]} ⊎ fr) as Hi by multiset_solver.
  destruct (H5 i Hi) as [Hn [Hw _]].
  assert (i ∉ fr) as Hfr by (by apply right_once).
  assert (i ∉ reported s.2) as Herr by (intros He; by destruct (proj2 H4 i He) as (_ & ? & _)).
  pose proof (ni_events _ Hw) as Hc. cbn [fst snd].
  constructor; cbn [u_add prod_units nat_units gmultiset_units gset_units fst snd used] in *.
  - cbn. by rewrite length_alter.
  - exists a. split; [done|]. rewrite gmultiset_size_disj_union, gmultiset_size_singleton in H2'. split.
    + rewrite (left_id_L ∅ disj_union). lia.
    + split; [|done]. intros b es E. destruct (H2'' b es E) as [E' _]. multiset_solver.
  - intros j. specialize (H3 j). rewrite multiplicity_disj_union in *. rewrite multiplicity_empty. lia.
  - split; [apply H4|]. intros j Hj. destruct (proj2 H4 j Hj) as (? & ? & ? & ?).
    assert (j ≠ i) by congruence. split_and!; [done|multiset_solver|set_solver|done].
  - intros j Hj. rewrite (left_id_L ∅ disj_union) in Hj. destruct (H5 j ltac:(multiset_solver)) as [Hjn Hjw]. split; [done|].
    rewrite node_world_put, decide_False by (lia || congruence). by apply node_waiting_events.
  - intros j Hj Hjr Hje. rewrite (left_id_L ∅ disj_union) in Hjr. rewrite node_world_put by lia.
    case_decide as E; [by subst|]. destruct (H6 j Hj) as [? ?]; [|done|split; [by apply node_inv_set_events|done]].
    rewrite gmultiset_elem_of_disj_union, gmultiset_elem_of_singleton. naive_solver.
  - intros j Hj. rewrite (left_id_L ∅ disj_union). destruct (decide (j = i)) as [->|]; [done|].
    destruct (H7 j ltac:(set_solver)). split; [done|]. multiset_solver.
  - intros Hm. apply H8. set_solver.
Qed.

(** A node that has not started has room for its error. *)
Lemma room_for_error m s i :
  start_inv m s → i ∈ m.1.1.2 → None ∈ m.1.2 →
  ch_closed (sl_errChan s.2) = false ∧ chan_full (sl_errChan s.2) = false ∧ sl_errs s.2 = [].
Proof.
  intros [_ (a & _ & _ & Hes & Hch) _ [Hd He] H5 _ _ H8] Hi Hm. destruct (H5 i Hi) as [Hn _]. specialize (H8 Hm).
  assert (NoDup (i :: reported s.2)) as Hd'.
  { constructor; [|done]. intros Hin. by destruct (He i Hin) as (_ & ? & _). }
  apply (NoDup_below _ n) in Hd'; [|intros j [->|Hj]%elem_of_cons; [done|by destruct (He j Hj)]].
  destruct a as [k|[k es]].
  - destruct Hch as [Hc Hs]. split_and!; [done| |done]. unfold chan_full. rewrite H8. apply Z.leb_gt.
    unfold reported in Hd'. rewrite Hs in Hd'. cbn in Hd'. lia.
  - destruct (Hes k es eq_refl) as [E _]. rewrite E in Hi. multiset_solver.
Qed.

(** The port is taken. *)
Lemma starts_error i :
  can_listen (port i) = false → starts (send_err i) (right_of i) (λ _ r, r = (∅, ∅, ∅, 1%nat)).
Proof.
  intros Hl. assert (∀ s o, start_inv (right_of i ⊕ o) s → ch_closed (sl_errChan s.2) = false ∧
    chan_full (sl_errChan s.2) = false ∧ sl_errs s.2 = []) as Hroom.
  { intros s o HI. apply (room_for_error _ s i HI); [cbn; multiset_solver|cbn; set_solver]. }
  apply owes_select.
  { intros s o HI E. destruct (Hroom s o HI) as (E1 & E2 & _). cbn zeta in E. by rewrite E1, E2 in E. }
  intros s o res HI Hres. destruct (Hroom s o HI) as (E1 & E2 & E3). cbn zeta in Hres. rewrite E1, E2 in Hres.
  apply list_elem_of_singleton in Hres as ->. eexists. split; [|done].
  assert (∀ c w, reported (set_errChan (mkChan (ch_buf (sl_errChan s.2) ++ [i]) c w) s.2) = reported s.2 ++ [i]) as Er.
  { intros c w. unfold reported. cbn. by rewrite app_assoc. }
  revert s o HI Hroom E1 E2 E3 Er. open_start. intros _ E1 E2 E3 Er.
  assert (i ∈ {[+ i +]} ⊎ fr) as Hi by multiset_solver. destruct (H5 i Hi) as [Hn _].
  assert (i ∉ fr) as Hfr by (by apply right_once).
  constructor; cbn [u_add prod_units nat_units gmultiset_units gset_units fst snd] in *;
    rewrite ?Er, ?(left_id_L ∅ disj_union) in *; try done.
  - exists a. split; [done|]. rewrite gmultiset_size_disj_union, gmultiset_size_singleton in H2'. split; [cbn; lia|]. split.
    + intros b es E. destruct (H2'' b es E) as [E' _]. multiset_solver.
    + destruct a as [k|[b es]]; [done|]. destruct (H2'' b es eq_refl) as [E' _]. multiset_solver.
  - intros j. specialize (H3 j). rewrite multiplicity_disj_union in *. lia.
  - destruct H4 as [Hd He]. split.
    + apply NoDup_app. split_and!; [done| |apply NoDup_singleton].
      intros j Hj ->%list_elem_of_singleton. by destruct (He i Hj) as (_ & ? & _).
    + intros j [Hj| ->%list_elem_of_singleton]%elem_of_app.
      * destruct (He j Hj) as (? & ? & ? & ?). split_and!; [done|multiset_solver|set_solver|done].
      * split_and!; [done..| |done]. rewrite (left_id_L ∅ union). intros Hk.
        by destruct (H7 i ltac:(set_solver)).
  - intros j Hj. apply H5. multiset_solver.
  - intros j Hj Hjr Hje. rewrite elem_of_app, list_elem_of_singleton in Hje. apply H6; [done| |naive_solver].
    rewrite gmultiset_elem_of_disj_union, gmultiset_elem_of_singleton. naive_solver.
  - intros j Hj. destruct (H7 j); [set_solver|]. split; [done|]. multiset_solver.
  - intros Hm. cbn. apply H8. set_solver.
Qed.

(** [wg.Done()]. *)
Lemma starts_done k : starts (start_wg (-1)) (∅, ∅, k, 1%nat) (λ _, out).
Proof.
  eapply (owes_modify _ _ _ _ _ _ (knows k)); [|done]. open_start.
  constructor; cbn [u_add prod_units nat_units gmultiset_units gset_units fst snd sl_errs sl_wg knows] in *; try done.
  exists a. split; [done|]. split; [cbn; lia|done].
Qed.

Lemma starts_port i :
  starts (started_node i (gets (λ w, n_Port (w_node w)))) (right_of i) (λ x r, r = right_of i ∧ x = port i).
Proof.
  intros s o HI. destruct (st_waiting _ _ HI i) as [Hn [_ Hp]]; [cbn; multiset_solver|].
  cbn. rewrite put_node_world_id. exists (right_of i). split; [by destruct s|].
  by split.
Qed.

Lemma starts_go {A : Type} i (q : prog World unit) (f : unit → prog World A) R :
  never_waits q → node_ok q (λ _, True) → starts (started_node i (f tt)) (used i) R →
  starts (started_node i (go q ≫= f)) (used i) R.
Proof.
  intros Hw Hq Hf. exists (knows {[Some i]}), (used i). split_and!; [| |exact Hf].
  - unfold knows, used. cbn. by rewrite (union_idemp_L {[Some i]}).
  - refine (owes_mono _ _ _ _ _ _ (λ _ r', r' = knows {[Some i]}) _ _ _); [|by intros _ ? ->].
    eapply starts_node; [done..|]. unfold knows. cbn. by rewrite (union_idemp_L {[Some i]}).
Qed.

Lemma starts_Start i :
  starts (in_pool (at_node i (Start resolve can_listen (reads i) (ticks i) rotations))) (right_of i)
    (λ ok r, if ok : bool then r = used i else r = right_of i ∧ can_listen (port i) = false).
Proof.
  apply owes_lift_lift. change (starts (started_node i (Start resolve can_listen (reads i) (ticks i) rotations)) (right_of i)
    (λ ok r, if ok : bool then r = used i else r = right_of i ∧ can_listen (port i) = false)).
  unfold Start. eapply owes_lift_bind; [apply starts_port|]. intros x ? [-> ->].
  destruct (can_listen (port i)) eqn:El; [|by split]. cbn [negb].
  eapply owes_lift_bind; [by apply starts_bound|]. intros _ ? ->.
  apply starts_go; [apply waits_readLoop|by apply node_ok_readLoop, reads_ok|].
  apply starts_go; [apply waits_refreshLoop|apply node_ok_refreshLoop|].
  apply starts_go; [apply waits_rotateSecrets|apply node_ok_rotateSecrets|].
  eapply owes_lift_bind; [eapply starts_node; [apply waits_Bootstrap|apply node_ok_Bootstrap|]|by intros _ ? ->].
  unfold knows, used. cbn. by rewrite (union_idemp_L {[Some i]}).
Qed.

Lemma starts_start_node i : starts (start_node resolve can_listen reads ticks rotations i) (right_of i) (λ _, out).
Proof.
  unfold start_node. eapply owes_bind; [apply starts_Start|]. intros [] r Hr.
  - subst r. eapply owes_bind with (Q := λ _ r, r = used i); [done|]. intros _ ? ->. apply starts_done.
  - destruct Hr as [-> Hl]. eapply owes_bind; [by apply starts_error|]. intros _ ? ->. apply starts_done.
Qed.

(** ** All nodes *)

(** The main goroutine when the nodes [l] are left, and before it makes the channel. *)
Definition to_start (l : list nat) : start_units := ({[+ inl (length l) +]}, list_to_set_disj l, {[None]}, 0%nat).
Definition unmade : start_units := ({[+ inl n +]}, list_to_set_disj (seq 0 n), ∅, 0%nat).

(** [errChan := make(chan error, len(p.nodes))]. *)
Lemma starts_make :
  starts (modify (λ s : Starting, (s.1, set_errChan (make_chan (Z.of_nat n)) s.2))) unmade
    (λ _ r, r = to_start (seq 0 n)).
Proof.
  eapply owes_modify; [|done]. open_start. cbn [to_start unmade fst snd] in *.
  destruct (one_stage _ _ _ H2) as [-> ->]. destruct H4 as [Hd He].
  assert (reported s.2 = []) as Hnil.
  { destruct (reported s.2) as [|i l]; [done|]. destruct (He i ltac:(apply list_elem_of_here)) as (Hi & Hr & _).
    destruct Hr. apply gmultiset_elem_of_disj_union. left. apply elem_of_list_to_set_disj, elem_of_seq. lia. }
  destruct Hch as [Hc Hs].
  assert (reported (set_errChan (make_chan (Z.of_nat n)) s.2) = []) as Hnew by (unfold reported; cbn; by rewrite Hs).
  constructor; cbn [u_add prod_units nat_units gmultiset_units gset_units fst snd] in *; rewrite ?Hnew, ?Hnil in *; try done.
  - exists (inl n). rewrite length_seq. split; [multiset_solver|]. by split; [|split].
  - split; [constructor|]. by intros i ?%elem_of_nil.
  - intros i Hi. apply H7. set_solver.
Qed.

(** [wg.Add(1)]. *)
Lemma starts_add i l :
  starts (start_wg 1) (to_start (i :: l))
    (λ _ r, r = ({[+ inl (length l) +]}, list_to_set_disj (i :: l), {[None]}, 0%nat)).
Proof.
  eapply owes_modify; [|done]. open_start. cbn [to_start fst snd] in *.
  destruct (one_stage _ _ _ H2) as [-> ->]. cbn [length left_to_start] in *.
  constructor; cbn [u_add prod_units nat_units gmultiset_units gset_units fst snd sl_errs sl_wg] in *; try done.
  exists (inl (length l)). split; [multiset_solver|]. cbn [left_to_start]. split; [lia|done].
Qed.

Lemma starts_all :
  starts (for_each (seq 0 n) (λ i,
    _ ← start_wg 1;
    go (start_node resolve can_listen reads ticks rotations i))) (to_start (seq 0 n)) (λ _ r, r = to_start []).
Proof.
  apply owes_for_each. intros i l. eapply owes_bind; [apply starts_add|]. intros _ ? ->.
  exists (right_of i), (to_start l). split_and!; [|apply starts_start_node|done].
  cbn. by rewrite (left_id_L ∅ disj_union), (union_idemp_L {[None]}).
Qed.

Definition all_nodes : gset (option nat) := list_to_set (Some <$> seq 0 n).

Lemma all_nodes_range i : Some i ∈ all_nodes ↔ (i < n)%nat.
Proof.
  unfold all_nodes. rewrite elem_of_list_to_set, list_elem_of_fmap. setoid_rewrite elem_of_seq. split.
  - intros (j & [= ->] & ?). lia.
  - intros ?. exists i. split; [done|lia].
Qed.

Lemma all_nodes_only x : x ∈ all_nodes → x ≠ None.
Proof. unfold all_nodes. rewrite elem_of_list_to_set, list_elem_of_fmap. by intros (j & -> & _). Qed.

Lemma knows_all m s : start_inv (knows all_nodes ⊕ m) s → pool_inv n s.1.
Proof.
  intros HI. split; [apply HI|]. intros i Hi. apply (known_running _ s i HI). by apply elem_of_union_l, all_nodes_range.
Qed.

(** Running nodes move. *)
Lemma start_inv_running m s p : start_inv (knows all_nodes ⊕ m) s → pool_inv n p → start_inv (knows all_nodes ⊕ m) (p, s.2).
Proof.
  intros [H1 H2 H3 H4 H5 H6 H7 H8] [Hn Hp]. constructor; cbn [fst snd] in *; try done.
  - intros i Hi. destruct (H5 i Hi) as [Hin _]. exfalso.
    destruct (H7 i) as [_ Hr]; [|by apply Hr]. by apply elem_of_union_l, all_nodes_range.
  - intros i Hi Hr He. split; [by apply Hp|]. by apply H6.
Qed.

Lemma starts_collectStats k : starts (in_pool (collectStats k)) (knows all_nodes) (λ _, out).
Proof.
  apply owes_ready; [apply never_waits_lift, waits_collectStats|].
  refine (owes_mono _ _ _ _ _ _ (λ a r', r' = knows all_nodes ∧ True) _ _ _); [|by intros a r' [-> _]].
  assert (knows all_nodes ⊕ knows all_nodes = knows all_nodes) as E by (cbn; by rewrite (union_idemp_L all_nodes)).
  apply (owes_lift_known start_inv remote_panic remote_panic (λ _ _, True) out _ _ (pool_inv n) (knows all_nodes)); try done.
  - intros m s. apply knows_all.
  - intros m s p. apply start_inv_running.
  - apply pool_ok_collectStats.
Qed.

(** ** The main goroutine *)

(** It waits for the group when all nodes have their goroutines. *)
Definition start_waits (m : start_units) (s : Starting) : Prop := m = to_start [] ∧ sl_wg s.2 ≠ 0.

Definition all_started (m : start_units) : Prop := ∃ es, m.1.1.1 = {[+ inr (2%nat, es) +]}.

Abbreviation heads p r Q := (leads start_inv remote_panic (λ _ _, False) out start_waits never p r Q).

(** The group is empty: the errors are complete. *)
Lemma heads_wait :
  heads (Select (λ s : Starting, if sl_wg s.2 =? 0 then [Ok (tt, s)] else []) Ret) (to_start [])
    (λ _ r, ∃ es, r = ({[+ inr (0%nat, es) +]}, ∅, ∅, 0%nat)).
Proof.
  split.
  - intros s o _. destruct (Z.eqb_spec (sl_wg s.2) 0); [done|]. by intros _.
  - intros s o res HI Ho. destruct (Z.eqb_spec (sl_wg s.2) 0) as [E|]; [|by apply elem_of_nil in Ho].
    apply list_elem_of_singleton in Ho as ->. right. exists ({[+ inr (0%nat, reported s.2) +]}, ∅, ∅, 0%nat).
    split; [|by eexists]. revert s o HI E. open_start. intros E. cbn [to_start fst snd length] in *.
    destruct (one_stage _ _ _ H2) as [-> ->]. cbn [left_to_start] in *.
    change (list_to_set_disj []) with (@empty (gmultiset nat) _) in *.
    rewrite (left_id_L ∅ disj_union) in H2'. assert (fr = ∅) as -> by (apply gmultiset_size_empty_inv; lia).
    constructor; cbn [u_add prod_units nat_units gmultiset_units gset_units fst snd] in *; try done.
    + exists (inr (0%nat, reported s.2)). split; [multiset_solver|]. cbn [left_to_start]. split; [done|].
      split; [|done]. intros k es [= <- <-]. by rewrite (left_id_L ∅ disj_union).
    + destruct H4 as [? He]. split; [done|]. intros i Hi. destruct (He i Hi) as (? & ? & ? & ?). split_and!; [done..|set_solver|done].
    + intros i Hi. apply H7. set_solver.
    + intros Hi. apply H8. set_solver.
Qed.

(** A step of the main goroutine after that, which moves the errors on. *)
Lemma errs_moved k es s o l :
  start_inv (({[+ inr (k, es) +]}, ∅, ∅, 0%nat) ⊕ o) s → reported l = reported s.2 → sl_wg l = sl_wg s.2 →
  ch_cap (sl_errChan l) = ch_cap (sl_errChan s.2) → errs_at (inr (S k, es)) l →
  start_inv (({[+ inr (S k, es) +]}, ∅, ∅, 0%nat) ⊕ o) (s.1, l).
Proof.
  destruct o as [[[fa fr] fk] fd]. intros [H1 (a & H2 & H2' & H2'' & Hch) H3 H4 H5 H6 H7 H8] Hr Hw Hcap Hat.
  cbn [u_add prod_units nat_units gmultiset_units gset_units fst snd] in *.
  destruct (one_stage _ _ _ H2) as [-> ->].
  constructor; cbn [u_add prod_units nat_units gmultiset_units gset_units fst snd] in *; rewrite ?Hr, ?Hcap; try done.
  exists (inr (S k, es)). split; [multiset_solver|]. rewrite Hw. split; [done|]. split; [|done].
  intros k' es' [= <- <-]. by apply (H2'' k es).
Qed.

Lemma stage_errs k es s o :
  start_inv (({[+ inr (k, es) +]}, ∅, ∅, 0%nat) ⊕ o) s → errs_at (inr (k, es)) s.2 ∧ reported s.2 = es ∧ o.1.1.2 = ∅.
Proof.
  revert s o. open_start. destruct (one_stage _ _ _ H2) as [-> ->]. destruct (H2'' k es eq_refl) as [Hr He].
  split_and!; [done..|]. multiset_solver.
Qed.

(** [close(errChan)]. *)
Lemma heads_close es :
  heads (try_update (λ s : Starting, c ← close_chan (sl_errChan s.2); Ok (s.1, set_errChan c s.2)))
    ({[+ inr (0%nat, es) +]}, ∅, ∅, 0%nat) (λ _ r, r = ({[+ inr (1%nat, es) +]}, ∅, ∅, 0%nat)).
Proof.
  intros s o HI. destruct (stage_errs _ _ _ _ HI) as ([Hc Hs] & _). unfold close_chan. rewrite Hc. right.
  eexists. split; [|done]. by apply errs_moved.
Qed.

(** The errors come out of the channel. *)
Lemma heads_range es :
  heads range_errs ({[+ inr (1%nat, es) +]}, ∅, ∅, 0%nat) (λ _ r, r = ({[+ inr (2%nat, es) +]}, ∅, ∅, 0%nat)).
Proof.
  split.
  - intros s o HI. destruct (stage_errs _ _ _ _ HI) as ([Hc Hs] & _). cbn zeta. by rewrite Hc.
  - intros s o res HI Ho. destruct (stage_errs _ _ _ _ HI) as ([Hc Hs] & _). cbn zeta in Ho. rewrite Hc in Ho.
    apply list_elem_of_singleton in Ho as ->. right. eexists. split; [|done]. apply errs_moved; [done| |done..].
    unfold reported. cbn. by rewrite app_nil_r.
Qed.

Lemma drained_errs es s o :
  start_inv (({[+ inr (2%nat, es) +]}, ∅, ∅, 0%nat) ⊕ o) s → sl_errs s.2 = es.
Proof.
  intros HI. destruct (stage_errs _ _ _ _ HI) as ([_ Hb] & <- & _). unfold reported. by rewrite Hb, app_nil_r.
Qed.

(** Without an error every node runs. *)
Lemma heads_errs es :
  heads (gets (λ s : Starting, sl_errs s.2)) ({[+ inr (2%nat, es) +]}, ∅, ∅, 0%nat)
    (λ x r, x = es ∧ r = ({[+ inr (2%nat, es) +]}, ∅, if decide (es = []) then all_nodes else ∅, 0%nat)).
Proof.
  intros s o HI. pose proof (drained_errs _ _ _ HI) as Hx. right. eexists. split; [|split; [exact Hx|done]].
  revert s o HI Hx. open_start. intros Hx.
  destruct (one_stage _ _ _ H2) as [-> ->]. destruct (H2'' 2%nat es eq_refl) as [Hr He].
  case_decide as E; [|by constructor; eauto].
  constructor; cbn [u_add prod_units nat_units gmultiset_units gset_units fst snd] in *; try done.
  - by exists (inr (2%nat, es)).
  - rewrite He, E. split; [constructor|]. by intros i ?%elem_of_nil.
  - intros i [Hi|Hi]%elem_of_union; [|apply H7; set_solver]. rewrite Hr. split; [by apply all_nodes_range|multiset_solver].
  - intros [Hi|Hi]%elem_of_union; [by apply all_nodes_only in Hi|]. apply H8. set_solver.
Qed.

(** What the main goroutine holds when [Start] has come back, and its result. *)
Definition start_result (es : list nat) : option (nat * nat) :=
  match es with [] => None | first :: _ => Some (length es, first) end.

Definition after_start (es : list nat) : start_units :=
  ({[+ inr (2%nat, es) +]}, ∅, if decide (es = []) then all_nodes else ∅, 0%nat).

Lemma heads_pool_Start k :
  heads (pool_Start resolve can_listen reads ticks rotations k) unmade
    (λ err r, ∃ es, r = after_start es ∧ err = start_result es).
Proof.
  unfold pool_Start. eapply (leads_bind _ _ _ _ _ _ _ _ _ (λ total r, total = n ∧ r = unmade)).
  { intros s o HI. right. eexists. split; [exact HI|]. split; [apply HI|done]. }
  intros ? ? [-> ->]. eapply leads_bind.
  { eapply (leads_owes _ _ _ _ _ (λ _ _, False)); [done|done|apply starts_make]. }
  intros _ ? ->. eapply leads_bind.
  { eapply (leads_owes _ _ _ _ _ (λ _ _, False)); [done|done|apply starts_all]. }
  intros _ ? ->. eapply leads_bind; [apply heads_wait|]. intros _ ? [es ->].
  eapply leads_bind; [apply heads_close|]. intros _ ? ->.
  eapply leads_bind; [apply heads_range|]. intros _ ? ->.
  eapply leads_bind; [apply heads_errs|]. intros ? ? [-> ->]. destruct es as [|e es]; [|by exists (e :: es)].
  exists (knows all_nodes), (after_start []). split_and!; [|apply starts_collectStats|by exists []].
  unfold after_start, knows. rewrite !decide_True by done. cbn. by rewrite !(left_id_L ∅ disj_union), (union_idemp_L all_nodes).
Qed.
End pool.

(** ** Every interleaving *)

(** Time passes. *)
Definition set_clocks (t : Z) (s : Starting) : Starting :=
  (set_nodes (set_now t <$> p_nodes s.1) (p_eventChan s.1) s.1, s.2).

Inductive starting_env : config Starting → config Starting → Prop :=
  | starting_time t s pool : starting_env (s, pool) (set_clocks t s, pool).

Lemma node_world_clocks t s i :
  (i < length (p_nodes s.1))%nat → node_world i (set_clocks t s).1 = set_now t (node_world i s.1).
Proof.
  intros Hi. unfold node_world. cbn. rewrite !list_lookup_total_alt, list_lookup_fmap.
  by apply lookup_lt_is_Some in Hi as [w ->].
Qed.

Lemma node_inv_set_now t w : node_inv w → node_inv (set_now t w).
Proof. intros [H1 H2 H3 H4 H5 H6 H7 H8 H9]. by constructor. Qed.

Lemma starting_env_inv can_listen n port x y :
  starting_env x y → y.2 = x.2 ∧ ∀ m, start_inv can_listen n port m x.1 → start_inv can_listen n port m y.1.
Proof.
  intros [t s pool]. split; [done|]. intros m [H1 H2 H3 H4 H5 H6 H7 H8]. cbn [fst] in *. constructor; try done.
  - cbn. by rewrite length_fmap.
  - intros i Hi. destruct (H5 i Hi) as [Hn [Hw Hp]]. split; [done|]. rewrite node_world_clocks by lia.
    split; [|done]. exact (node_inv_set_now t _ Hw).
  - intros i Hi Hr He. rewrite node_world_clocks by lia. destruct (H6 i Hi Hr He). split; [by apply node_inv_set_now|done].
Qed.

(** The main goroutine has started them all. *)
Lemma all_started_errs can_listen n port m s es :
  start_inv can_listen n port m s → {[+ inr (2%nat, es) +]} ⊆ m.1.1.1 →
  sl_errs s.2 ≡ₚ filter (λ i, can_listen (port i) = false) (seq 0 n) ∧ (sl_errs s.2 = [] → pool_inv n s.1).
Proof.
  intros [H1 (a & H2 & _ & H2' & Hch) H3 [Hd He] H5 H6 H7 _] Hes.
  assert (a = inr (2%nat, es)) as ->.
  { rewrite H2 in Hes. apply gmultiset_singleton_subseteq_l, gmultiset_elem_of_singleton in Hes. by rewrite Hes. }
  destruct (H2' 2%nat es eq_refl) as [Hr _]. rewrite Hr in *.
  assert (reported s.2 = sl_errs s.2) as Hrep by (unfold reported; destruct Hch as [_ ->]; by rewrite app_nil_r).
  rewrite Hrep in *. split.
  - apply NoDup_Permutation; [done|apply NoDup_filter, NoDup_seq|]. intros i.
    rewrite list_elem_of_filter, elem_of_seq. split.
    + intros Hi. destruct (He i Hi) as (? & _ & _ & ?). split; [done|lia].
    + intros [Hl [_ Hi]]. destruct (decide (i ∈ sl_errs s.2)); [done|].
      destruct (H6 i) as [_ Hc]; [lia|multiset_solver|done|congruence].
  - intros E. split; [done|]. intros i Hi. apply H6; [done|multiset_solver|]. rewrite E. apply not_elem_of_nil.
Qed.

Lemma size_list_to_set_disj (l : list nat) : size (list_to_set_disj l : gmultiset nat) = length l.
Proof.
  induction l as [|x l IH]; [done|].
  by rewrite list_to_set_disj_cons, gmultiset_size_disj_union, gmultiset_size_singleton, IH.
Qed.

Lemma multiplicity_NoDup (l : list nat) i : NoDup l → (multiplicity i (list_to_set_disj l : gmultiset nat) ≤ 1)%nat.
Proof.
  induction 1 as [|x l Hx _ IH]; [cbn; rewrite multiplicity_empty; lia|].
  rewrite list_to_set_disj_cons, multiplicity_disj_union.
  destruct (decide (i = x)) as [->|]; [|rewrite multiplicity_singleton_ne by done; lia].
  assert (x ∉ (list_to_set_disj l : gmultiset nat)) as Hm by (by rewrite elem_of_list_to_set_disj).
  rewrite elem_of_multiplicity in Hm.
  rewrite multiplicity_singleton_eq. lia.
Qed.

(** A new pool. *)
Lemma new_pool_start_inv can_listen n port p :
  length (p_nodes p) = n → (∀ i, (i < n)%nat → node_waiting port i (node_world i p)) →
  start_inv can_listen n port (unmade n) (p, no_start_locals).
Proof.
  intros Hn Hw. assert (∀ i, i ∈ (list_to_set_disj (seq 0 n) : gmultiset nat) ↔ (i < n)%nat) as Hin.
  { intros i. rewrite elem_of_list_to_set_disj, elem_of_seq. lia. }
  constructor; cbn [fst snd unmade sl_errs sl_wg]; try done.
  - exists (inl n). rewrite size_list_to_set_disj, length_seq. split; [done|]. split; [cbn; lia|]. split; [done|by split].
  - intros i. apply multiplicity_NoDup, NoDup_seq.
  - split; [constructor|]. by intros i ?%elem_of_nil.
  - intros i Hi%Hin. auto.
  - intros i Hi Hi'. destruct Hi'. by apply Hin.
Qed.

Lemma NewPool_start_inv rand_ids secret rnd now count startPort bootstraps can_listen p :
  (∀ i, ∃ r, rand_ids i = Ok r ∧ 0 ≤ r < 2 ^ 160 / count) →
  0 < count → count * 64000 ≤ maxAlloc → 0 ≤ startPort → startPort + count ≤ 2 ^ 63 →
  NewPool rand_ids secret rnd now count startPort bootstraps = Ok p →
  start_inv can_listen (Z.to_nat count) (λ i, startPort + Z.of_nat i) (unmade (Z.to_nat count))
    (p, no_start_locals).
Proof.
  intros Hrand Hc Hmem Hp1 Hp2 Hnew.
  destruct (NewPool_correct rand_ids secret rnd now count startPort bootstraps Hrand Hc Hmem Hp1 Hp2)
    as (p0 & Hnew' & Hlen & _ & _ & Hnodes). rewrite Hnew in Hnew'. injection Hnew' as <-.
  apply new_pool_start_inv; [lia|]. intros i Hi. destruct (lookup_lt_is_Some_2 (p_nodes p) i) as [w Hw]; [lia|].
  destruct (Hnodes i w Hw) as (Hport & _ & _ & Hinv). revert Hinv. unfold node_waiting, node_world.
  rewrite (list_lookup_total_correct _ _ _ Hw). by destruct w.
Qed.

Lemma out_add x m : out x → out m → out (x ⊕ m).
Proof.
  intros [H1 H2] [H3 H4]. split; [change (x.1.1.2 ⊎ m.1.1.2 = ∅); by rewrite H1, H3|change (x.2 + m.2 = 0)%nat; lia].
Qed.

(** If all others have ended, the group is empty. *)
Lemma ended_group can_listen n port m s : out m → start_inv can_listen n port (to_start [] ⊕ m) s → sl_wg s.2 = 0.
Proof.
  intros [Er Ed] [_ (a & Ha & Hw & _) _ _ _ _ _ _].
  destruct m as [[[fa fr] fk] fd]. cbn [fst snd u_add prod_units nat_units gmultiset_units to_start] in *.
  destruct (one_stage _ _ _ Ha) as [-> _]. subst.
  change (list_to_set_disj []) with (@empty (gmultiset nat) _) in Hw. rewrite (left_id_L ∅ disj_union) in Hw.
  pose proof (gmultiset_size_empty (A := nat)) as E. cbn in Hw. rewrite E in Hw. lia.
Qed.

Lemma rests_out (s : Starting) rest rs : Forall2 (rests (λ _ _, False) out s) rest rs → out (u_total rs).
Proof.
  induction 1 as [|p x rest rs [[_ Hx]|[]] _ IH]; [done|]. by apply out_add.
Qed.

(** C15: a pool starts. Take a new pool, and [Start] with the loops of the nodes it starts,
    in any interleaving, whatever datagrams arrive meanwhile. From every point of such a
    run [Start] can come back, unless a datagram makes the process panic: no node that
    reports an error waits for room in [errChan], and the group empties. When [Start] has
    come back, the errors it collected are those of exactly the nodes whose port could not
    be bound, each once; and without errors every node runs and is sound, with its table,
    its secrets and the shared event channel. *)
Theorem pool_Start_correct rand_ids secret rnd now count startPort bootstraps resolve can_listen reads ticks
  rotations stat_ticks p p' l' pool :
  (∀ i, ∃ r, rand_ids i = Ok r ∧ 0 ≤ r < 2 ^ 160 / count) →
  0 < count → count * 64000 ≤ maxAlloc → 0 ≤ startPort → startPort + count ≤ 2 ^ 63 →
  (∀ i data addr, Some (data, addr) ∈ reads i → wf_addr addr) →
  NewPool rand_ids secret rnd now count startPort bootstraps = Ok p →
  rtc (λ x y, cstep x y ∨ starting_env x y)
    ((p, no_start_locals), [_ ← pool_Start resolve can_listen reads ticks rotations stat_ticks; Ret tt])
    ((p', l'), pool) →
  (∃ s pool', rtc cstep ((p', l'), pool) (s, pool') ∧
     (pool' !! 0%nat = Some (Ret tt) ∨ ∃ x, cpanics (s, pool') x ∧ remote_panic x)) ∧
  (pool !! 0%nat = Some (Ret tt) →
   sl_errs l' ≡ₚ filter (λ i, can_listen (startPort + Z.of_nat i) = false) (seq 0 (Z.to_nat count)) ∧
   (sl_errs l' = [] → pool_inv (Z.to_nat count) p')).
Proof.
  intros Hrand Hc Hmem Hp1 Hp2 Hreads Hnew Hr.
  set (n := Z.to_nat count). set (port := λ i : nat, startPort + Z.of_nat i).
  pose proof (NewPool_start_inv rand_ids secret rnd now count startPort bootstraps can_listen p
    Hrand Hc Hmem Hp1 Hp2 Hnew) as HI. fold n port in HI.
  set (main := _ ← pool_Start resolve can_listen reads ticks rotations stat_ticks; Ret tt) in *.
  assert (led (start_inv can_listen n port) remote_panic (λ _ _, False) out start_waits never all_started
    ((p, no_start_locals), [main])) as Hled0.
  { exists main, (unmade n), [], []. split_and!; [done| |constructor|].
    - eapply leads_bind; [by apply heads_pool_Start|]. intros err ? (es & -> & _). by exists es.
    - cbn [u_total foldr fst]. by rewrite (comm u_add), (left_id u_none u_add). }
  destruct (reachable_led _ _ _ _ _ never (λ _ F, match F with end) _ _ _ _ (starting_env_inv can_listen n port) Hled0 Hr)
    as [Hled|[_ [? []]]].
  split.
  - destruct (led_exits _ _ _ _ _ never (λ _ F, match F with end) _ (λ _, True) (λ _ _ _, I) _ Hled) as ([s pool'] & Hr' & Hend).
    { eapply (rtc_quits _ starting_env); [|exact Hr|]; [by intros x y H; destruct H|].
      constructor; [|constructor]. apply quits_bind; [apply quits_pool_Start|done]. }
    exists s, pool'. split; [done|]. destruct Hend as [?|[[x Hx]|(r & rs & [-> Hw] & Hrest & HI')]]; [by left| |].
    + right. exists x. split; [done|].
      assert (rtc (λ x y, cstep x y ∨ starting_env x y) ((p', l'), pool) (s, pool')) as Hr2
        by (by apply (rtc_subrel cstep); [left|]).
      destruct (reachable_led _ _ _ _ _ never (λ _ F, match F with end) _ _ _ _ (starting_env_inv can_listen n port) Hled Hr2)
        as [Hled'|[_ [? []]]].
      exact (led_panics _ _ _ _ _ _ _ _ _ Hled' Hx).
    + destruct Hw. eapply ended_group, HI'. by eapply rests_out.
  - intros He. destruct (led_ended _ _ _ _ _ _ _ _ Hled He) as (r & rs & [es Hes] & HI').
    eapply (all_started_errs _ _ _ _ _ es HI'). cbn. rewrite Hes. multiset_solver.
Qed.

(** Two nodes, and the second port is taken: the first node boots while the second
    reports its error. *)
Definition sample_new : Pool :=
  match NewPool (λ i, Ok (Z.of_nat i mod 2)) (λ _, []) (λ _ _, replicate 20 x01) 0 2 6881 [] with
  | Ok p => p
  | _ => sample_pool
  end.

Definition sample_start : config Starting :=
  ((sample_new, no_start_locals),
   [_ ← pool_Start no_resolver (λ port, port =? 6881) (λ _, []) (λ _, []) 0 0; Ret tt]).

Definition sample_schedule : list (nat * nat) :=
  (replicate 6 (0, 0) ++ replicate 3 (2, 0) ++ replicate 17 (1, 0) ++ replicate 4 (0, 0))%nat.

Lemma pool_Start_correct_witness : ∃ p' l' pool,
  rtc (λ x y, cstep x y ∨ starting_env x y) sample_start ((p', l'), pool) ∧
  pool !! 0%nat = Some (Ret tt) ∧ sl_errs l' ≡ₚ [1%nat].
Proof.
  destruct (follow sample_schedule sample_start) as [[[p' l'] pool]|] eqn:E; [|vm_compute in E; discriminate].
  assert (rtc (λ x y, cstep x y ∨ starting_env x y) sample_start ((p', l'), pool)) as Hr.
  { apply (rtc_subrel cstep); [by left|]. by apply (follow_rtc sample_schedule). }
  assert (pool !! 0%nat = Some (Ret tt)) as H0.
  { enough ((λ c : config Starting, c.2 !! 0%nat) <$> follow sample_schedule sample_start = Some (Some (Ret tt))) as H
      by (rewrite E in H; by injection H). vm_compute. reflexivity. }
  exists p', l', pool. split; [exact Hr|]. split; [exact H0|].
  destruct (pool_Start_correct (λ i, Ok (Z.of_nat i mod 2)) (λ _, []) (λ _ _, replicate 20 x01) 0 2 6881 []
    no_resolver (λ port, port =? 6881) (λ _, []) (λ _, []) 0 0 sample_new p' l' pool) as (_ & Hend).
  - intros i. exists (Z.of_nat i mod 2). split; [done|].
    pose proof (Z.mod_pos_bound (Z.of_nat i) 2 ltac:(lia)).
    assert (2 ≤ 2 ^ 160 / 2) by (vm_compute; discriminate). lia.
  - lia.
  - vm_compute. discriminate.
  - lia.
  - lia.
  - intros i data addr Hin. inversion Hin.
  - reflexivity.
  - exact Hr.
  - exact (proj1 (Hend H0)).
Defined.
