(* ===== verification/Sha1.v ===== *)
(** * SHA-1, as [crypto/sha1] computes it

    An executable model on lists of bytes; 32-bit words are integers below 2^32. *)

From S2P Require Import Prelude GoStd.

Definition w32 (z : Z) : Z := Z.land z 4294967295.
Definition rotl (n z : Z) : Z := w32 (Z.lor (Z.shiftl z n) (Z.shiftr z (32 - n))).

(** The message, a one bit, zeros, and the length in bits on eight bytes: a multiple of
    64 bytes. *)
Definition sha1_pad (msg : bytes) : bytes :=
  let len := Z.of_nat (length msg) in
  msg ++ [x80] ++ replicate (Z.to_nat ((55 - len) mod 64)) x00 ++ be_bytes 8 (wrapU 64 (len * 8)).

(** The big-endian words of a block. *)
Fixpoint words (fuel : nat) (block : bytes) : list Z :=
  match fuel, block with
  | S fuel, a :: b :: c :: d :: block => be_val [a; b; c; d] :: words fuel block
  | _, _ => []
  end.

(** The schedule, newest word first: [w(t) = rotl 1 (w(t-3) xor w(t-8) xor w(t-14) xor w(t-16))]. *)
Fixpoint schedule (k : nat) (w : list Z) : list Z :=
  match k with
  | O => w
  | S k =>
      schedule k (rotl 1 (Z.lxor (Z.lxor (nth 2 w 0) (nth 7 w 0)) (Z.lxor (nth 13 w 0) (nth 15 w 0))) :: w)
  end.

Definition sha1_state : Type := Z * Z * Z * Z * Z.

Definition sha1_f (t : Z) (b c d : Z) : Z * Z :=
  if t <? 20 then (Z.lor (Z.land b c) (Z.land (Z.lxor b 4294967295) d), 1518500249)
  else if t <? 40 then (Z.lxor (Z.lxor b c) d, 1859775393)
  else if t <? 60 then (Z.lor (Z.lor (Z.land b c) (Z.land b d)) (Z.land c d), 2400959708)
  else (Z.lxor (Z.lxor b c) d, 3395469782).

Definition sha1_round (s : sha1_state * Z) (w : Z) : sha1_state * Z :=
  let '((a, b, c, d, e), t) := s in
  let '(f, k) := sha1_f t b c d in
  ((w32 (rotl 5 a + f + e + w + k), a, rotl 30 b, c, d), t + 1).

Definition sha1_block (s : sha1_state) (block : bytes) : sha1_state :=
  let w := rev (schedule 64 (rev (words 16 block))) in
  let '((a, b, c, d, e), _) := foldl sha1_round (s, 0) w in
  let '(h0, h1, h2, h3, h4) := s in
  (w32 (h0 + a), w32 (h1 + b), w32 (h2 + c), w32 (h3 + d), w32 (h4 + e)).

Fixpoint sha1_blocks (fuel : nat) (s : sha1_state) (msg : bytes) : sha1_state :=
  match fuel with
  | O => s
  | S fuel => sha1_blocks fuel (sha1_block s (take 64 msg)) (drop 64 msg)
  end.

Definition sha1_init : sha1_state := (1732584193, 4023233417, 2562383102, 271733878, 3285377520).

(** [sha1.Sum]. *)
Definition sha1_Sum (msg : bytes) : bytes :=
  let padded := sha1_pad msg in
  let '(a, b, c, d, e) := sha1_blocks (length padded / 64) sha1_init padded in
  be_bytes 4 a ++ be_bytes 4 b ++ be_bytes 4 c ++ be_bytes 4 d ++ be_bytes 4 e.

Lemma length_sha1_Sum msg : length (sha1_Sum msg) = 20%nat.
Proof.
  unfold sha1_Sum. destruct (sha1_blocks _ _ _) as [[[[a b] c] d] e].
  by rewrite !length_app, !length_be_bytes.
Qed.

(** The padded message fills its blocks. *)
Lemma length_sha1_pad msg : Z.of_nat (length (sha1_pad msg)) mod 64 = 0.
Proof.
  unfold sha1_pad. rewrite !length_app, length_replicate, length_be_bytes. cbn [length].
  pose proof (Z.mod_pos_bound (55 - Z.of_nat (length msg)) 64 ltac:(lia)) as Hb.
  pose proof (Z.div_mod (55 - Z.of_nat (length msg)) 64 ltac:(lia)) as Hd.
  replace (Z.of_nat (length msg + (1 + (Z.to_nat ((55 - Z.of_nat (length msg)) mod 64) + 8))))
    with ((1 - (55 - Z.of_nat (length msg)) / 64) * 64) by lia.
  by rewrite Z.mod_mul.
Qed.

Example sha1_empty : hex_EncodeToString (sha1_Sum []) = bs "da39a3ee5e6b4b0d3255bfef95601890afd80709".
Proof. vm_compute. reflexivity. Qed.
Example sha1_abc : hex_EncodeToString (sha1_Sum (bs "abc")) = bs "a9993e364706816aba3e25717850c26c9cd0d89d".
Proof. vm_compute. reflexivity. Qed.
Example sha1_two_blocks :
  hex_EncodeToString (sha1_Sum (bs "abcdbcdecdefdefgefghfghighijhijkijkljklmklmnlmnomnopnopq")) =
  bs "84983e441c3bd26ebaae4aa1f95129e5e54670f1".
Proof. vm_compute. reflexivity. Qed.
