(* ===== verification/Metadata.v ===== *)
(** * Metadata from a peer: [internal/bt/metadata.go]

    The BEP 9 download over one connection: the handshake, the extension handshake, the
    requests and the pieces, the check of the hash and the parsing of the info
    dictionary.  A connection is the bytes the peer sends before the end of the stream
    or the deadline, the writes made so far, and how many more writes succeed. *)

From S2P Require Import Prelude GoStd Bencode BencodeSpec Sha1.

Definition ProtocolName : bytes := bs "BitTorrent protocol".
Definition ExtMsgHandshake : byte := x00.
Definition MetadataPieceSize : Z := 16384.
Definition ExtensionBit : byte := x10.

Inductive meta_error :=
  | ErrConnect
  | ErrWrite
  | ErrRead                       (* EOF, or the deadline *)
  | ErrBencode (e : bencode_error)
  | ErrInfoHashMismatch
  | ErrMessageTooLarge (n : Z)
  | ErrNotData
  | ErrMissingPiece
  | ErrNoMetadataSupport
  | ErrInvalidMetadata
  | ErrMetadataTooBig.

Record FileInfo := mkFileInfo { fi_Path : bytes; fi_Size : Z }.

Record TorrentMeta := mkTorrentMeta {
  tm_InfoHash : bytes;
  tm_Name : bytes;
  tm_Size : Z;
  tm_Files : list FileInfo;
  tm_PieceLen : Z;
  tm_RawInfo : bytes;
}.

(** The timeout shows only in where the input of the connection ends. *)
Record MetadataDownloader := mkDownloader { md_Timeout : Z; md_MaxMetaSize : Z }.

Definition NewMetadataDownloader (timeout : Z) : MetadataDownloader :=
  mkDownloader timeout (10 * 1024 * 1024).

(** ** Connections *)

Record Conn := mkConn {
  c_in : bytes;             (* not read yet *)
  c_out : list bytes;       (* one entry for each write *)
  c_writes : nat;           (* writes that still succeed *)
}.

Definition io (A : Type) : Type := Conn → outcome meta_error (A * Conn).

#[global] Instance io_ret : MRet io := λ A a c, Ok (a, c).
#[global] Instance io_bind : MBind io := λ A B f m c,
  match m c with
  | Ok (a, c) => f a c
  | Err e => Err e
  | Panic p => Panic p
  | NoFuel => NoFuel
  end.

Definition io_lift {A} (o : outcome meta_error A) : io A := λ c, a ← o; Ok (a, c).

(** [buf := make([]byte, n); io.ReadFull(conn, buf)]. *)
Definition read_full (n : Z) : io bytes := λ c,
  match ReadFull n (c_in c) with
  | None => Err ErrRead
  | Some (s, r) => Ok (s, mkConn r (c_out c) (c_writes c))
  end.

Definition write (b : bytes) : io unit := λ c,
  match c_writes c with
  | O => Err ErrWrite
  | S k => Ok (tt, mkConn (c_in c) (c_out c ++ [b]) k)
  end.

(** ** The handshake *)

Definition handshake_bytes (infoHash : bytes) : bytes :=
  let buf := replicate 68 x00 in
  let buf := <[0%nat := x13]> buf in
  let buf := copy_at (take 20 buf) 1 ProtocolName ++ drop 20 buf in
  let buf := <[25%nat := ExtensionBit]> buf in
  let buf := copy_at (take 48 buf) 28 infoHash ++ drop 48 buf in
  copy_at buf 48 (bs "-GO0001-123456789012").

Definition sendHandshake (infoHash : bytes) : io unit := write (handshake_bytes infoHash).

Definition readHandshake (infoHash : bytes) : io bytes :=
  pstrlen ← read_full 1;
  _ ← read_full (be_val pstrlen);
  reserved ← read_full 8;
  peerInfoHash ← read_full 20;
  if decide (peerInfoHash = infoHash) then
    _ ← read_full 20;
    io_ret _ reserved
  else io_lift (Err ErrInfoHashMismatch).

(** ** Messages *)

Definition ext_message (extMsgID : byte) (payload : bytes) : bytes :=
  let msgLen := 2 + Z.of_nat (length payload) in
  be_bytes 4 (wrapU 32 msgLen) ++ [x14] ++ [extMsgID] ++ payload.

Definition sendExtMessage (extMsgID : byte) (payload : bytes) : io unit :=
  write (ext_message extMsgID payload).

Definition maxMessage : Z := 1024 * 1024 * 10.

Definition readMessage : io (byte * bytes) :=
  lenBuf ← read_full 4;
  let msgLen := be_val lenBuf in
  if msgLen =? 0 then io_ret _ (x00, [])
  else if maxMessage <? msgLen then io_lift (Err (ErrMessageTooLarge msgLen))
  else
    msg ← read_full msgLen;
    io_lift (match msg with b :: payload => Ok (b, payload) | [] => Panic PanicIndex end).

Definition ext_handshake : outcome bencode_error bytes :=
  Encode (VDict [(bs "m", VDict [(bs "ut_metadata", VInt64 1)])]).

Definition sendExtHandshake : io unit :=
  payload ← io_lift (map_err ErrBencode ext_handshake);
  sendExtMessage ExtMsgHandshake payload.

Fixpoint readExtHandshake (fuel : nat) : io (Z * Z) :=
  match fuel with
  | O => io_lift NoFuel
  | S fuel =>
      '(msgType, payload) ← readMessage;
      if negb (bool_decide (msgType = x14)) then readExtHandshake fuel
      else
        match payload with
        | [] => readExtHandshake fuel
        | extMsgID :: payload =>
            if negb (bool_decide (extMsgID = ExtMsgHandshake)) then readExtHandshake fuel
            else
              dict ← io_lift (map_err ErrBencode (DecodeDict payload));
              let metadataMsgID :=
                match GetDict dict (bs "m") with
                | Some m => default 0 (GetInt m (bs "ut_metadata"))
                | None => 0
                end in
              let metadataSize := default 0 (GetInt dict (bs "metadata_size")) in
              io_ret _ (metadataMsgID, metadataSize)
        end
  end.

(** ** Pieces *)

Definition piece_request (piece : Z) : outcome bencode_error bytes :=
  Encode (VDict [(bs "msg_type", VInt64 0); (bs "piece", VInt64 piece)]).

Definition requestMetadataPiece (msgID piece : Z) : io unit :=
  payload ← io_lift (map_err ErrBencode (piece_request piece));
  sendExtMessage (byte_of msgID) payload.

Definition parseMetadataPiece (data : bytes) : outcome meta_error (Z * bytes) :=
  '(_, r) ← map_err ErrBencode (decode (decode_fuel data) data);
  let dictEnd := Z.of_nat (length data) - Z.of_nat (length r) in
  head ← slice data 0 dictEnd;
  dict ← map_err ErrBencode (DecodeDict head);
  match GetInt dict (bs "msg_type") with
  | Some 1 =>
      match GetInt dict (bs "piece") with
      | Some piece => rest ← slice data dictEnd (Z.of_nat (length data)); Ok (piece, rest)
      | None => Err ErrMissingPiece
      end
  | _ => Err ErrNotData
  end.

(** [for i := 0; i < numPieces; i++]. *)
Fixpoint request_all (msgID : Z) (i : Z) (k : nat) : io unit :=
  match k with
  | O => io_ret _ tt
  | S k => _ ← requestMetadataPiece msgID i; request_all msgID (i + 1) k
  end.

(** The loop that receives the pieces; an error of [parseMetadataPiece] skips the
    message. *)
Fixpoint receive (fuel : nat) (msgID numPieces : Z) (metadata : bytes) (received : list bool)
  (piecesReceived : Z) : io bytes :=
  if numPieces <=? piecesReceived then io_ret _ metadata
  else
    match fuel with
    | O => io_lift NoFuel
    | S fuel =>
        '(msgType, payload) ← readMessage;
        let again := receive fuel msgID numPieces metadata received piecesReceived in
        if negb (bool_decide (msgType = x14)) then again
        else
          match payload with
          | [] => again
          | extMsgID :: payload =>
              if negb (byte_val extMsgID =? msgID) then again
              else
                match parseMetadataPiece payload with
                | Panic p => io_lift (Panic p)
                | NoFuel => io_lift NoFuel
                | Err _ => again
                | Ok (piece, data) =>
                    if (piece <? 0) || (numPieces <=? piece) || received !!! Z.to_nat piece then again
                    else
                      let start := piece * MetadataPieceSize in
                      if Z.of_nat (length metadata) <? start then io_lift (Panic PanicSliceBounds)
                      else
                        receive fuel msgID numPieces (copy_at metadata (Z.to_nat start) data)
                          (<[Z.to_nat piece := true]> received) (piecesReceived + 1)
                end
          end
    end.

Definition num_pieces (totalSize : Z) : Z :=
  Z.quot (wrapS 64 (totalSize + MetadataPieceSize - 1)) MetadataPieceSize.

Definition downloadMetadata (fuel : nat) (msgID totalSize : Z) : io bytes :=
  let numPieces := num_pieces totalSize in
  if (totalSize <? 0) || (maxAlloc <? totalSize) || (numPieces <? 0) then io_lift (Panic PanicMakeSlice)
  else
    let metadata := replicate (Z.to_nat totalSize) x00 in
    let received := replicate (Z.to_nat numPieces) false in
    _ ← request_all msgID 0 (Z.to_nat numPieces);
    receive fuel msgID numPieces metadata received 0.

(** ** The info dictionary *)

(** The last part, then each of the others put in front of it, from the first on. *)
Definition join_path (pathParts : list bytes) : bytes :=
  match last pathParts with
  | None => []
  | Some l => foldl (λ path part, part ++ bs "/" ++ path) l (take (length pathParts - 1) pathParts)
  end.

Definition path_parts (pathList : list bval) : list bytes :=
  omap (λ p, match p with VBytes pb => Some pb | _ => None end) pathList.

(** One entry of "files"; [size] is [meta.Size]. *)
Definition parse_file (f : bval) (acc : list FileInfo * Z) : list FileInfo * Z :=
  match f with
  | VDict fileDict =>
      let '(files, size) := acc in
      let length := GetInt fileDict (bs "length") in
      let path := match GetList fileDict (bs "path") with
                  | Some pathList => join_path (path_parts pathList)
                  | None => []
                  end in
      (files ++ [mkFileInfo path (default 0 length)],
       match length with Some n => wrapS 64 (size + n) | None => size end)
  | _ => acc
  end.

Definition parseMetadata (infoHash data : bytes) : outcome meta_error TorrentMeta :=
  dict ← map_err ErrBencode (DecodeDict data);
  let name :=
    match GetString dict (bs "name") with
    | Some name => name
    | None => default [] (GetString dict (bs "name.utf-8"))
    end in
  let pieceLen := default 0 (GetInt dict (bs "piece length")) in
  let '(files, size) :=
    match GetList dict (bs "files") with
    | Some files => foldl (λ acc f, parse_file f acc) ([], 0) files
    | None =>
        match GetInt dict (bs "length") with
        | Some n => ([mkFileInfo name n], n)
        | None => ([], 0)
        end
    end in
  Ok (mkTorrentMeta infoHash name size files pieceLen data).

(** ** The download *)

(** [peerExtensions[5]&ExtensionBit == 0]. *)
Definition no_extensions (reserved : bytes) : bool :=
  byte_val (byte_and (reserved !!! 5%nat) ExtensionBit) =? 0.

Definition exchange (d : MetadataDownloader) (fuel : nat) (infoHash : bytes) : io TorrentMeta :=
  _ ← sendHandshake infoHash;
  peerExtensions ← readHandshake infoHash;
  if no_extensions peerExtensions then io_lift (Err ErrNoMetadataSupport)
  else
    _ ← sendExtHandshake;
    '(metadataMsgID, metadataSize) ← readExtHandshake fuel;
    if metadataMsgID =? 0 then io_lift (Err ErrNoMetadataSupport)
    else if md_MaxMetaSize d <? metadataSize then io_lift (Err ErrMetadataTooBig)
    else
      metadata ← downloadMetadata fuel metadataMsgID metadataSize;
      if decide (sha1_Sum metadata = infoHash) then io_lift (parseMetadata infoHash metadata)
      else io_lift (Err ErrInvalidMetadata).

(** Every message takes at least four bytes of the input. *)
Definition conn_fuel (c : Conn) : nat := S (length (c_in c)).

(** [conn] is what the dialer returned, [None] an error. *)
Definition Download (d : MetadataDownloader) (infoHash : bytes) (conn : option Conn)
  : outcome meta_error (TorrentMeta * Conn) :=
  match conn with
  | None => Err ErrConnect
  | Some c => exchange d (conn_fuel c) infoHash c
  end.
