(* ===== verification/MetadataSpec.v ===== *)
(** * What the metadata download guarantees

    The framing of messages, termination and panics for whatever a peer sends, the
    verification of what is returned, and the download from an honest peer. *)

From S2P Require Import Prelude GoStd Bencode BencodeSpec Krpc Sha1 Metadata.

(** ** Reading *)

Lemma read_full_app s r out k :
  read_full (Z.of_nat (length s)) (mkConn (s ++ r) out k) = Ok (s, mkConn r out k).
Proof. unfold read_full. cbn [c_in c_out c_writes]. by rewrite ReadFull_app. Qed.

Lemma read_full_app' n s r out k :
  Z.of_nat (length s) = n → read_full n (mkConn (s ++ r) out k) = Ok (s, mkConn r out k).
Proof. intros <-. apply read_full_app. Qed.

Lemma read_full_inv n c s c' :
  0 ≤ n → read_full n c = Ok (s, c') →
  c_in c = s ++ c_in c' ∧ Z.of_nat (length s) = n ∧ c_out c' = c_out c ∧ c_writes c' = c_writes c.
Proof.
  intros Hn. unfold read_full. destruct (ReadFull n (c_in c)) as [[a r]|] eqn:E; [|done].
  intros [= <- <-]. by apply ReadFull_Some in E as [-> ?].
Qed.

Lemma io_bind_inv {A B} (m : io A) (f : A → io B) c b c' :
  (m ≫= f) c = Ok (b, c') → ∃ a c1, m c = Ok (a, c1) ∧ f a c1 = Ok (b, c').
Proof.
  unfold mbind, io_bind. destruct (m c) as [[a c1]| | |] eqn:E; try done. eauto.
Qed.

Lemma io_bind_eq {A B} (m : io A) (f : A → io B) c a c1 :
  m c = Ok (a, c1) → (m ≫= f) c = f a c1.
Proof. intros E. unfold mbind, io_bind. by rewrite E. Qed.

(** A message on the wire: a keep-alive, or a type and a payload. *)
Inductive msg := KeepAlive | Msg (t : byte) (payload : bytes).

Definition msg_bytes (m : msg) : bytes :=
  match m with
  | KeepAlive => replicate 4 x00
  | Msg t payload => be_bytes 4 (1 + Z.of_nat (length payload)) ++ t :: payload
  end.

Definition msg_val (m : msg) : byte * bytes :=
  match m with KeepAlive => (x00, []) | Msg t payload => (t, payload) end.

Definition wf_msg (m : msg) : Prop :=
  match m with KeepAlive => True | Msg _ payload => 1 + Z.of_nat (length payload) ≤ maxMessage end.

Lemma readMessage_msg m r out k :
  wf_msg m → readMessage (mkConn (msg_bytes m ++ r) out k) = Ok (msg_val m, mkConn r out k).
Proof.
  intros Hm. unfold readMessage. destruct m as [|t p]; cbn [msg_bytes msg_val wf_msg] in *.
  - rewrite (io_bind_eq _ _ _ _ _ (read_full_app' 4 (replicate 4 x00) r out k eq_refl)). done.
  - unfold maxMessage in *. set (n := 1 + Z.of_nat (length p)) in *.
    rewrite <- app_assoc, (io_bind_eq _ _ _ _ _ (read_full_app' 4 (be_bytes 4 n) ((t :: p) ++ r) out k
      ltac:(by rewrite length_be_bytes))).
    rewrite be_val_bytes. change (256 ^ Z.of_nat 4) with (2 ^ 32). rewrite Z.mod_small by lia. cbn zeta.
    destruct (Z.eqb_spec n 0); [lia|]. unfold maxMessage.
    destruct (Z.ltb_spec (1024 * 1024 * 10) n); [lia|].
    rewrite (io_bind_eq _ _ _ _ _ (read_full_app' n (t :: p) r out k ltac:(cbn [length]; lia))). done.
Qed.

Lemma ext_message_bytes id payload :
  2 + Z.of_nat (length payload) < 2 ^ 32 → ext_message id payload = msg_bytes (Msg x14 (id :: payload)).
Proof.
  intros H. unfold ext_message, msg_bytes. rewrite wrapU_id by lia. cbn [length app].
  do 2 f_equal. lia.
Qed.

Lemma be_val_4_zero s : length s = 4%nat → be_val s = 0 → s = replicate 4 x00.
Proof. intros Hl H. apply be_val_nil_iff in H. by rewrite Hl in H. Qed.

(** [readMessage] reads exactly one message. *)
Lemma readMessage_inv c v c' :
  readMessage c = Ok (v, c') →
  ∃ m, wf_msg m ∧ v = msg_val m ∧ c_in c = msg_bytes m ++ c_in c' ∧
    c_out c' = c_out c ∧ c_writes c' = c_writes c.
Proof.
  intros (l & c1 & (Hin & Hl & Ho & Hw)%read_full_inv & H)%io_bind_inv; [|lia].
  cbn zeta in H. destruct (Z.eqb_spec (be_val l) 0) as [E|E].
  - injection H as <- <-. exists KeepAlive. cbn [wf_msg msg_val msg_bytes]. split_and!; [done|done| |done|done].
    by rewrite Hin, (be_val_4_zero l) by (done || lia).
  - destruct (Z.ltb_spec maxMessage (be_val l)) as [|Hmax]; [done|].
    pose proof (be_val_range l) as Hr. assert (length l = 4%nat) as Hl' by lia.
    apply io_bind_inv in H as (s & c2 & (Hin2 & Hl2 & Ho2 & Hw2)%read_full_inv & H); [|lia].
    destruct s as [|t p]; [cbn in Hl2; lia|]. injection H as <- <-.
    exists (Msg t p). cbn [length] in Hl2. cbn [wf_msg msg_val msg_bytes].
    split_and!; [lia|done| |congruence|congruence].
    rewrite Hin, Hin2. replace (1 + Z.of_nat (length p)) with (be_val l) by lia.
    rewrite <- Hl' at 1. by rewrite be_bytes_val, <- app_assoc.
Qed.

Lemma length_msg_bytes m : (4 ≤ length (msg_bytes m))%nat.
Proof. destruct m; cbn [msg_bytes]; [done|]. rewrite length_app, length_be_bytes. lia. Qed.

Lemma readMessage_shorter c v c' :
  readMessage c = Ok (v, c') → (length (c_in c') < length (c_in c))%nat.
Proof.
  intros (m & _ & _ & -> & _)%readMessage_inv. rewrite length_app. pose proof (length_msg_bytes m). lia.
Qed.

(** Neither a panic nor out of fuel. *)
Definition returns {E A} (m : outcome E A) : Prop :=
  match m with Ok _ | Err _ => True | _ => False end.

Lemma readMessage_returns c : returns (readMessage c).
Proof.
  unfold readMessage, mbind, io_bind. unfold read_full at 1.
  destruct (ReadFull 4 (c_in c)) as [[l r]|] eqn:E; [|done].
  apply ReadFull_Some in E as [_ Hl]; [|lia].
  destruct (Z.eqb_spec (be_val l) 0); [done|]. destruct (maxMessage <? be_val l); [done|].
  unfold read_full. cbn [c_in]. destruct (ReadFull (be_val l) r) as [[[|b s] r']|] eqn:E'; [|done..].
  pose proof (be_val_range l). apply ReadFull_Some in E' as [_ Hl']; [cbn in Hl'; lia|lia].
Qed.

(** ** Termination and panics *)

(** The outcome of a computation that ends, panicking at most in [make]. *)
Definition tame {E A} (m : outcome E A) : Prop :=
  match m with Ok _ | Err _ => True | Panic p => p = PanicMakeSlice | NoFuel => False end.

Lemma returns_tame {E A} (m : outcome E A) : returns m → tame m.
Proof. by destruct m. Qed.

Lemma tame_bind {A B} (m : io A) (f : A → io B) c :
  tame (m c) → (∀ a c', m c = Ok (a, c') → tame (f a c')) → tame ((m ≫= f) c).
Proof. unfold mbind, io_bind. destruct (m c) as [[a c']| | |]; cbn; auto. Qed.

Lemma tame_read_full n c : tame (read_full n c).
Proof. unfold read_full. by destruct (ReadFull n (c_in c)) as [[]|]. Qed.

Lemma tame_write b c : tame (write b c).
Proof. unfold write. by destruct (c_writes c). Qed.

Lemma tame_readMessage c : tame (readMessage c).
Proof. apply returns_tame, readMessage_returns. Qed.

Lemma tame_DecodeDict data : tame (DecodeDict data).
Proof.
  pose proof (fueled_DecodeDict data) as Hf. pose proof (only_makeslice_DecodeDict data) as Hp.
  destruct (DecodeDict data); cbn in *; auto.
Qed.

Lemma tame_map_err {E E' A} (f : E → E') (m : outcome E A) : tame m → tame (map_err f m).
Proof. by destruct m. Qed.

Lemma tame_readHandshake h c : tame (readHandshake h c).
Proof.
  do 4 (apply tame_bind; [apply tame_read_full|intros ? ? _]). case_decide; [|done].
  apply tame_bind; [apply tame_read_full|done].
Qed.

Lemma tame_readExtHandshake fuel c :
  (length (c_in c) < fuel)%nat → tame (readExtHandshake fuel c).
Proof.
  revert c. induction fuel as [|fuel IH]; intros c Hf; [lia|]. cbn [readExtHandshake].
  apply tame_bind; [apply tame_readMessage|]. intros [t p] c' Hc%readMessage_shorter.
  case_match; [apply IH; lia|]. destruct p as [|id p]; [apply IH; lia|].
  case_match; [apply IH; lia|]. pose proof (tame_DecodeDict p) as Hd.
  unfold mbind, io_bind, io_lift. by destruct (DecodeDict p).
Qed.

(** The first decoding finds the end of the dictionary, the second decodes it alone. *)
Lemma parseMetadataPiece_spec data :
  parseMetadataPiece data =
  '(v, r) ← map_err ErrBencode (decode (decode_fuel data) data);
  match v with
  | VDict d =>
      match GetInt d (bs "msg_type") with
      | Some 1 => match GetInt d (bs "piece") with Some i => Ok (i, r) | None => Err ErrMissingPiece end
      | _ => Err ErrNotData
      end
  | _ => Err (ErrBencode ErrExpectedDict)
  end.
Proof.
  unfold parseMetadataPiece. destruct (decode (decode_fuel data) data) as [[v r]| | |] eqn:E; [|done..].
  cbn [map_err mbind outcome_bind]. apply decode_sound in E as (p & -> & Hp).
  rewrite length_app. assert (∀ A, @slice meta_error A = @slice meta_error A) as _ by done.
  assert (slice (p ++ r) 0 (Z.of_nat (length p + length r) - Z.of_nat (length r)) = @Ok meta_error _ p) as ->.
  { unfold slice. rewrite length_app. rewrite !(proj2 (Z.leb_le _ _)) by lia. cbn [andb].
    rewrite drop_0. f_equal. by rewrite take_app_length' by lia. }
  cbn [mbind outcome_bind]. unfold DecodeDict. rewrite (Decode_app p v Hp). cbn [mbind outcome_bind].
  destruct v; try done. cbn [map_err mbind outcome_bind].
  destruct (GetInt d (bs "msg_type")) as [[|[]|]|]; try done.
  destruct (GetInt d (bs "piece")) as [i|]; [|done].
  unfold slice. rewrite length_app, !(proj2 (Z.leb_le _ _)) by lia. cbn [andb mbind outcome_bind].
  do 2 f_equal. rewrite drop_app_length' by lia. rewrite take_ge by lia. done.
Qed.

Lemma tame_parseMetadataPiece data : tame (parseMetadataPiece data).
Proof.
  rewrite parseMetadataPiece_spec.
  pose proof (proj1 (decode_fueled (decode_fuel data)) data ltac:(unfold decode_fuel; lia)) as Hf.
  pose proof (proj1 (only_makeslice_decode (decode_fuel data)) data) as Hp.
  destruct (decode (decode_fuel data) data) as [[v r]| | |]; cbn in *; auto.
  by repeat case_match.
Qed.

(** Every piece of the announced number starts inside the buffer. *)
Definition pieces_fit (numPieces : Z) (metadata : bytes) : Prop :=
  (numPieces - 1) * MetadataPieceSize ≤ Z.of_nat (length metadata).

Lemma tame_receive fuel msgID numPieces metadata received got c :
  (length (c_in c) < fuel)%nat → pieces_fit numPieces metadata →
  tame (receive fuel msgID numPieces metadata received got c).
Proof.
  revert metadata received got c. induction fuel as [|fuel IH]; intros metadata received got c Hf Hfit;
    [lia|]. cbn [receive]. case_match; [done|].
  apply tame_bind; [apply tame_readMessage|]. intros [t p] c' Hc%readMessage_shorter.
  case_match; [apply IH; [lia|done]|]. destruct p as [|id p]; [apply IH; [lia|done]|].
  case_match; [apply IH; [lia|done]|]. pose proof (tame_parseMetadataPiece p) as Hd.
  destruct (parseMetadataPiece p) as [[piece data]| | |]; try done; [|apply IH; [lia|done]].
  case_match eqn:Hb; [apply IH; [lia|done]|]. cbn zeta.
  apply orb_false_iff in Hb as [[Hb1%Z.ltb_ge Hb2%Z.leb_gt]%orb_false_iff _].
  unfold pieces_fit, MetadataPieceSize in *.
  destruct (Z.ltb_spec (Z.of_nat (length metadata)) (piece * 16384)); [lia|].
  apply IH; [lia|]. by rewrite length_copy_at by lia.
Qed.

Lemma num_pieces_spec n :
  0 ≤ n ≤ maxAlloc → 0 ≤ num_pieces n ∧ (num_pieces n - 1) * MetadataPieceSize < n ∧
    n ≤ num_pieces n * MetadataPieceSize.
Proof.
  unfold num_pieces, maxAlloc, MetadataPieceSize. intros Hn. rewrite wrapS_id by lia.
  rewrite Z.quot_div_nonneg by lia. pose proof (Z.div_mod (n + 16384 - 1) 16384 ltac:(lia)).
  pose proof (Z.mod_pos_bound (n + 16384 - 1) 16384 ltac:(lia)). lia.
Qed.

(** ** What is written *)

Definition request_bytes (msgID i : Z) : bytes :=
  match piece_request i with Ok p => ext_message (byte_of msgID) p | _ => [] end.

Lemma piece_request_ok i : ∃ p, piece_request i = Ok p.
Proof. eexists. reflexivity. Qed.

Lemma request_bytes_eq msgID i p :
  piece_request i = Ok p → request_bytes msgID i = ext_message (byte_of msgID) p.
Proof. unfold request_bytes. by intros ->. Qed.

Lemma request_all_ok msgID i k r out w :
  request_all msgID i k (mkConn r out (k + w)) =
  Ok (tt, mkConn r (out ++ (request_bytes msgID <$> seqZ i (Z.of_nat k))) w).
Proof.
  revert i out. induction k as [|k IH]; intros i out.
  { cbn. by rewrite app_nil_r. }
  cbn [request_all]. rewrite seqZ_cons by lia.
  unfold requestMetadataPiece. destruct (piece_request_ok i) as [p Hp].
  unfold mbind, io_bind, io_lift, sendExtMessage, write. rewrite Hp. cbn [map_err mbind outcome_bind].
  cbn [c_in c_out c_writes Nat.add]. replace (Z.pred (Z.of_nat (S k))) with (Z.of_nat k) by lia.
  rewrite IH. cbn [fmap list_fmap]. by rewrite (request_bytes_eq _ _ _ Hp), <- app_assoc.
Qed.

Lemma request_all_inv msgID i k c u c' :
  request_all msgID i k c = Ok (u, c') →
  c_in c' = c_in c ∧ c_out c' = c_out c ++ (request_bytes msgID <$> seqZ i (Z.of_nat k)).
Proof.
  revert i c. induction k as [|k IH]; intros i c.
  { cbn. intros [= _ <-]. by rewrite app_nil_r. }
  cbn [request_all]. rewrite seqZ_cons by lia.
  intros (a & c1 & H1 & H2)%io_bind_inv. unfold requestMetadataPiece in H1.
  destruct (piece_request_ok i) as [p Hp]. unfold mbind, io_bind, io_lift, sendExtMessage, write in H1.
  rewrite Hp in H1. cbn in H1. destruct (c_writes c) as [|w]; [done|]. injection H1 as _ <-.
  apply IH in H2 as [-> ->]. cbn [c_in c_out]. split; [done|].
  replace (Z.pred (Z.of_nat (S k))) with (Z.of_nat k) by lia. cbn [fmap list_fmap].
  by rewrite (request_bytes_eq _ _ _ Hp), <- app_assoc.
Qed.

Lemma tame_request_all msgID i k c : tame (request_all msgID i k c).
Proof.
  revert i c. induction k as [|k IH]; intros i c; [done|]. cbn [request_all].
  apply tame_bind; [|intros; apply IH]. unfold requestMetadataPiece.
  destruct (piece_request_ok i) as [p Hp]. unfold mbind, io_bind, io_lift. rewrite Hp. apply tame_write.
Qed.

Lemma readHandshake_inv h c e c' :
  readHandshake h c = Ok (e, c') →
  ∃ n name peerID, c_in c = [n] ++ name ++ e ++ h ++ peerID ++ c_in c' ∧
    Z.of_nat (length name) = byte_val n ∧ length e = 8%nat ∧ length h = 20%nat ∧ length peerID = 20%nat ∧
    c_out c' = c_out c ∧ c_writes c' = c_writes c.
Proof.
  unfold readHandshake.
  intros (n & c1 & (E1 & L1 & O1 & W1)%read_full_inv & H)%io_bind_inv; [|lia].
  pose proof (be_val_range n).
  apply io_bind_inv in H as (name & c2 & (E2 & L2 & O2 & W2)%read_full_inv & H); [|lia].
  apply io_bind_inv in H as (r & c3 & (E3 & L3 & O3 & W3)%read_full_inv & H); [|lia].
  apply io_bind_inv in H as (h' & c4 & (E4 & L4 & O4 & W4)%read_full_inv & H); [|lia].
  case_decide as Hh; [|done]. subst h'.
  apply io_bind_inv in H as (pid & c5 & (E5 & L5 & O5 & W5)%read_full_inv & [= <- <-]); [|lia].
  destruct n as [|b [|]]; [cbn in L1; lia| |cbn in L1; lia].
  exists b, name, pid. split_and!; [by rewrite E1, E2, E3, E4, E5| |lia|lia|lia|congruence|congruence].
  rewrite L2. unfold be_val. cbn. lia.
Qed.

Lemma readHandshake_no_more h c e c' :
  readHandshake h c = Ok (e, c') → (length (c_in c') ≤ length (c_in c))%nat ∧ c_out c' = c_out c.
Proof.
  intros (n & name & pid & E & _ & _ & _ & _ & Ho & _)%readHandshake_inv. split; [|done].
  rewrite E, !length_app. lia.
Qed.

Lemma readExtHandshake_no_more fuel c v c' :
  readExtHandshake fuel c = Ok (v, c') → (length (c_in c') ≤ length (c_in c))%nat ∧ c_out c' = c_out c.
Proof.
  revert c. induction fuel as [|fuel IH]; intros c; [done|]. cbn [readExtHandshake].
  intros ([t p] & c1 & Hm & H)%io_bind_inv. pose proof (readMessage_shorter _ _ _ Hm) as Hlt.
  apply readMessage_inv in Hm as (_ & _ & _ & _ & Ho & _).
  assert (readExtHandshake fuel c1 = Ok (v, c') →
    (length (c_in c') ≤ length (c_in c))%nat ∧ c_out c' = c_out c) as Hagain.
  { intros [? Ho']%IH. split; [lia|congruence]. }
  case_match; [auto|]. destruct p as [|id p]; [auto|]. case_match; [auto|].
  apply io_bind_inv in H as (d & c2 & Hd & [= _ <-]).
  unfold io_lift in Hd. destruct (DecodeDict p); try done. injection Hd as _ <-. split; [lia|done].
Qed.

Lemma ext_handshake_ok : ∃ p, ext_handshake = Ok p.
Proof. eexists. reflexivity. Qed.

Lemma tame_exchange d h c fuel : (length (c_in c) < fuel)%nat → tame (exchange d fuel h c).
Proof.
  intros Hf. unfold exchange. apply tame_bind; [apply tame_write|].
  intros [] c1 H1. assert (c_in c1 = c_in c) as E1.
  { unfold sendHandshake, write in H1. destruct (c_writes c); [done|]. by injection H1 as <-. }
  apply tame_bind; [apply tame_readHandshake|]. intros e c2 [H2 _]%readHandshake_no_more.
  case_match; [done|]. apply tame_bind.
  { unfold sendExtHandshake. destruct ext_handshake_ok as [p ->]. apply tame_write. }
  intros [] c3 H3. assert (c_in c3 = c_in c2) as E3.
  { unfold sendExtHandshake in H3. destruct ext_handshake_ok as [p Hp]. rewrite Hp in H3.
    apply io_bind_inv in H3 as (q & c' & [= <- <-] & H3). unfold sendExtMessage, write in H3.
    destruct (c_writes c2); [done|]. by injection H3 as <-. }
  apply tame_bind; [apply tame_readExtHandshake; rewrite E3, <- E1 in *; lia|].
  intros [id size] c4 [H4 _]%readExtHandshake_no_more. rewrite E3 in H4. rewrite E1 in H2.
  case_match; [done|]. case_match; [done|]. apply tame_bind.
  - unfold downloadMetadata. case_match eqn:Hg; [done|]. cbn zeta.
    apply orb_false_iff in Hg as [[Hg1%Z.ltb_ge Hg2%Z.ltb_ge]%orb_false_iff _].
    apply tame_bind; [apply tame_request_all|]. intros [] c5 [E5 _]%request_all_inv.
    apply tame_receive; [rewrite E5; lia|]. unfold pieces_fit. rewrite length_replicate.
    pose proof (num_pieces_spec size ltac:(lia)). lia.
  - intros m c5 _. case_decide; [|done]. unfold io_lift, parseMetadata.
    pose proof (tame_DecodeDict m) as Hd. destruct (DecodeDict m); try done.
    cbn [map_err mbind outcome_bind]. by repeat case_match.
Qed.

Lemma receive_inv fuel msgID numPieces metadata received got c m c' :
  pieces_fit numPieces metadata →
  receive fuel msgID numPieces metadata received got c = Ok (m, c') →
  length m = length metadata ∧ c_out c' = c_out c.
Proof.
  revert metadata received got c. induction fuel as [|fuel IH]; intros metadata received got c Hfit.
  { cbn. case_match; [|done]. by intros [= <- <-]. }
  cbn [receive]. destruct (numPieces <=? got); [by intros [= <- <-]|].
  intros ([t p] & c1 & (_ & _ & _ & _ & Ho & _)%readMessage_inv & H)%io_bind_inv. rewrite <- Ho.
  destruct (negb (bool_decide (t = x14))); [by apply IH in H|]. destruct p as [|id p]; [by apply IH in H|].
  destruct (negb (byte_val id =? msgID)); [by apply IH in H|].
  destruct (parseMetadataPiece p) as [[piece data]| | |]; [|by apply IH in H|done..].
  case_match eqn:Hb; [by apply IH in H|]. cbn zeta in H.
  apply orb_false_iff in Hb as [[Hb1%Z.ltb_ge Hb2%Z.leb_gt]%orb_false_iff _].
  unfold pieces_fit, MetadataPieceSize in *.
  destruct (Z.ltb_spec (Z.of_nat (length metadata)) (piece * 16384)); [lia|].
  apply IH in H; rewrite length_copy_at in * by lia; [done|lia].
Qed.

Lemma parseMetadata_inv h data meta :
  parseMetadata h data = Ok meta → tm_InfoHash meta = h ∧ tm_RawInfo meta = data.
Proof.
  unfold parseMetadata. intros (d & _ & H)%bind_Ok_inv. revert H.
  destruct (match GetList d (bs "files") with Some _ => _ | None => _ end) as [files size].
  by intros [= <-].
Qed.

(** The writes of a download that goes through: the two handshakes and a request for
    each piece, in order. *)
Definition download_writes (h : bytes) (id size : Z) : list bytes :=
  [handshake_bytes h; match ext_handshake with Ok p => ext_message ExtMsgHandshake p | _ => [] end] ++
  (request_bytes id <$> seqZ 0 (num_pieces size)).

Lemma exchange_inv d fuel h c meta c' :
  exchange d fuel h c = Ok (meta, c') →
  ∃ id size, id ≠ 0 ∧ 0 ≤ size ≤ md_MaxMetaSize d ∧
    Z.of_nat (length (tm_RawInfo meta)) = size ∧ sha1_Sum (tm_RawInfo meta) = h ∧
    parseMetadata h (tm_RawInfo meta) = Ok meta ∧ c_out c' = c_out c ++ download_writes h id size.
Proof.
  unfold exchange. intros ([] & c1 & H1 & H)%io_bind_inv.
  assert (c_out c1 = c_out c ++ [handshake_bytes h]) as E1.
  { unfold sendHandshake, write in H1. destruct (c_writes c); [done|]. by injection H1 as <-. }
  apply io_bind_inv in H as (e & c2 & [_ E2]%readHandshake_no_more & H).
  case_match; [done|]. apply io_bind_inv in H as ([] & c3 & H3 & H).
  destruct ext_handshake_ok as [hs Hhs].
  assert (c_out c3 = c_out c2 ++ [ext_message ExtMsgHandshake hs]) as E3.
  { unfold sendExtHandshake in H3. rewrite Hhs in H3.
    apply io_bind_inv in H3 as (q & c4 & [= <- <-] & H3). unfold sendExtMessage, write in H3.
    destruct (c_writes c2); [done|]. by injection H3 as <-. }
  apply io_bind_inv in H as ([id size] & c4 & [_ E4]%readExtHandshake_no_more & H).
  destruct (Z.eqb_spec id 0); [done|]. destruct (Z.ltb_spec (md_MaxMetaSize d) size); [done|].
  apply io_bind_inv in H as (m & c5 & H5 & H). unfold downloadMetadata in H5. cbn zeta in H5.
  destruct ((size <? 0) || (maxAlloc <? size) || (num_pieces size <? 0)) eqn:Hg; [done|].
  apply orb_false_iff in Hg as [[Hg1%Z.ltb_ge Hg2%Z.ltb_ge]%orb_false_iff Hg3%Z.ltb_ge]. cbn zeta in H5.
  apply io_bind_inv in H5 as (u & c6 & [_ E6]%request_all_inv & H5).
  apply receive_inv in H5 as [Hm E5].
  2: { unfold pieces_fit. rewrite length_replicate. pose proof (num_pieces_spec size ltac:(lia)). lia. }
  rewrite length_replicate in Hm. case_decide as Hh; [|done].
  unfold io_lift in H. apply bind_Ok_inv in H as (meta' & Hp & [= -> <-]).
  destruct (parseMetadata_inv _ _ _ Hp) as [_ ->].
  exists id, size. split_and!; [done|lia|lia|lia|done|by rewrite Hp|].
  unfold download_writes. rewrite E5, E6, E4, E3, E2, E1, Hhs, Z2Nat.id, <- !app_assoc by done. done.
Qed.

(** C3: what a download returns was verified. Whatever the peer sent, the metadata of a
    successful download hashes (SHA-1) to the info hash that was asked for, is no longer
    than the limit, and the record is its parsing; and exactly the two handshakes and one
    request per piece, in order, were written. *)
Theorem Download_verified d h c meta c' :
  Download d h (Some c) = Ok (meta, c') →
  sha1_Sum (tm_RawInfo meta) = h ∧ tm_InfoHash meta = h ∧
  parseMetadata h (tm_RawInfo meta) = Ok meta ∧
  Z.of_nat (length (tm_RawInfo meta)) ≤ md_MaxMetaSize d ∧
  ∃ id, id ≠ 0 ∧
    c_out c' = c_out c ++ download_writes h id (Z.of_nat (length (tm_RawInfo meta))).
Proof.
  intros (id & size & Hid & Hs & Hl & Hh & Hp & Ho)%exchange_inv.
  split_and!; [done|by apply parseMetadata_inv in Hp as [? _]|done|lia|].
  exists id. by rewrite Hl.
Qed.

(** C23: a download ends whatever the peer sends: each message takes at least four bytes
    of the stream, so the loops stop at its end (the fuel is never used up), with a
    result or an error; no index or slice is out of range. The one panic a peer can
    cause is an allocation out of range. *)
Theorem Download_terminates d h conn : tame (Download d h conn).
Proof. destruct conn as [c|]; [|done]. apply tame_exchange. unfold conn_fuel. lia. Qed.

(** ** Reassembly *)

Definition piece_size : nat := Z.to_nat MetadataPieceSize.

Definition piece_data (m : bytes) (i : Z) : bytes :=
  take piece_size (drop (Z.to_nat (i * MetadataPieceSize)) m).

#[local] Opaque piece_size.

(** What the receiving loop makes of a message: [None] when it is not for the extension
    identifier. *)
Definition piece_of (msgID : Z) (x : msg) : option (outcome meta_error (Z * bytes)) :=
  match x with
  | Msg t (id :: payload) =>
      if bool_decide (t = x14) && (byte_val id =? msgID) then Some (parseMetadataPiece payload) else None
  | _ => None
  end.

(** A peer that has the metadata [m] may send anything, but the data of a piece is right. *)
Definition honest (m : bytes) (msgID : Z) (x : msg) : Prop :=
  wf_msg x ∧
  match piece_of msgID x with
  | Some (Ok (i, data)) => 0 ≤ i < num_pieces (Z.of_nat (length m)) → data = piece_data m i
  | Some (Panic _) | Some NoFuel => False
  | _ => True
  end.

Definition carries (msgID i : Z) (x : msg) : Prop := ∃ data, piece_of msgID x = Some (Ok (i, data)).

Definition stream (msgs : list msg) : bytes := msgs ≫= msg_bytes.

Fixpoint count_true (l : list bool) : nat :=
  match l with [] => 0 | b :: l => (if b then 1 else 0) + count_true l end.

Lemma count_true_insert l i :
  l !! i = Some false → count_true (<[i := true]> l) = S (count_true l).
Proof.
  revert i. induction l as [|b l IH]; intros [|i] H; try done; cbn in *.
  - by injection H as ->.
  - rewrite IH by done. lia.
Qed.

Lemma count_true_le l : (count_true l ≤ length l)%nat.
Proof. induction l as [|[] l IH]; cbn; lia. Qed.

Lemma count_true_lt l : (count_true l < length l)%nat → ∃ i, l !! i = Some false.
Proof.
  induction l as [|[] l IH]; cbn; [lia| |by exists 0%nat].
  intros H. destruct IH as [i Hi]; [lia|]. by exists (S i).
Qed.

Lemma count_true_all l i b : count_true l = length l → l !! i = Some b → b = true.
Proof.
  revert i. induction l as [|[] l IH]; intros i; cbn; [done| |].
  - destruct i as [|i]; cbn; [by intros _ [= <-]|]. intros H. apply IH. lia.
  - pose proof (count_true_le l). lia.
Qed.

Lemma count_true_replicate n : count_true (replicate n false) = 0%nat.
Proof. by induction n. Qed.

Lemma copy_at_lookup {A} (dst src : list A) at_ p :
  (at_ + length src ≤ length dst)%nat →
  copy_at dst at_ src !! p =
    if decide (at_ ≤ p < at_ + length src)%nat then src !! (p - at_)%nat else dst !! p.
Proof.
  intros H. unfold copy_at. rewrite (take_ge src) by lia. case_decide as Hp.
  - rewrite lookup_app_r by (rewrite length_take; lia). rewrite length_take, Nat.min_l by lia.
    by rewrite lookup_app_l by lia.
  - destruct (decide (p < at_)%nat).
    + rewrite lookup_app_l by (rewrite length_take; lia). by rewrite lookup_take_lt.
    + rewrite lookup_app_r by (rewrite length_take; lia). rewrite length_take, Nat.min_l by lia.
      rewrite lookup_app_r by lia. rewrite lookup_drop. f_equal. lia.
Qed.

(** The pieces marked as received are those of [m]. *)
Definition agrees (m buf : bytes) (received : list bool) : Prop :=
  length buf = length m ∧
  ∀ p, received !! (p / piece_size)%nat = Some true → buf !! p = m !! p.

Lemma agrees_copy m buf received i :
  agrees m buf received → 0 ≤ i → i * MetadataPieceSize < Z.of_nat (length m) →
  agrees m (copy_at buf (Z.to_nat (i * MetadataPieceSize)) (piece_data m i)) (<[Z.to_nat i := true]> received).
Proof.
  intros [Hl Hag] Hi Hs. unfold piece_data, MetadataPieceSize in *.
  assert (piece_size = Z.to_nat 16384) as Hps by reflexivity.
  set (s := Z.to_nat (i * 16384)). split; [rewrite length_copy_at by lia; done|].
  intros p Hp. rewrite copy_at_lookup by (rewrite length_take, length_drop; lia).
  rewrite length_take, length_drop.
  pose proof (Nat.div_mod_eq p piece_size) as Hd.
  pose proof (Nat.mod_upper_bound p piece_size ltac:(lia)) as Hu.
  case_decide as Hin.
  - rewrite lookup_take_lt by lia. rewrite lookup_drop. f_equal. lia.
  - destruct (decide (p < length m)%nat) as [Hpm|]; [|by rewrite !lookup_ge_None_2 by lia].
    apply Hag. destruct (decide (Z.to_nat i = p / piece_size)%nat) as [E|E].
    + exfalso. apply Hin. subst s. rewrite <- E in Hd. nia.
    + by rewrite list_lookup_insert_ne in Hp.
Qed.

Lemma agrees_all m buf received :
  agrees m buf received → count_true received = length received →
  Z.of_nat (length m) ≤ Z.of_nat (length received) * MetadataPieceSize → buf = m.
Proof.
  intros [Hl Hag] Hc Hn. apply list_eq. intros p.
  destruct (decide (p < length m)%nat) as [Hp|]; [|by rewrite !lookup_ge_None_2 by lia].
  apply Hag. unfold MetadataPieceSize in *.
  assert (piece_size = Z.to_nat 16384) as Hps by reflexivity.
  destruct (lookup_lt_is_Some_2 received (p / piece_size)) as [b Hb].
  { apply Nat.Div0.div_lt_upper_bound. nia. }
  rewrite Hb. f_equal. by eapply count_true_all.
Qed.

(** One turn of the receiving loop, on a stream that starts with a message. *)
Lemma receive_step fuel msgID numPieces buf received got x r out w :
  got < numPieces → wf_msg x →
  receive (S fuel) msgID numPieces buf received got (mkConn (msg_bytes x ++ r) out w) =
  let again := receive fuel msgID numPieces buf received got (mkConn r out w) in
  match piece_of msgID x with
  | None | Some (Err _) => again
  | Some (Panic p) => Panic p
  | Some NoFuel => NoFuel
  | Some (Ok (piece, data)) =>
      if (piece <? 0) || (numPieces <=? piece) || received !!! Z.to_nat piece then again
      else
        let start := piece * MetadataPieceSize in
        if Z.of_nat (length buf) <? start then Panic PanicSliceBounds
        else receive fuel msgID numPieces (copy_at buf (Z.to_nat start) data)
               (<[Z.to_nat piece := true]> received) (got + 1) (mkConn r out w)
  end.
Proof.
  intros Hg Hx. cbn [receive]. destruct (Z.leb_spec numPieces got); [lia|].
  rewrite (io_bind_eq _ _ _ _ _ (readMessage_msg x r out w Hx)).
  destruct x as [|t [|id p]]; cbn [msg_val piece_of]; [done|by case_match|].
  destruct (bool_decide (t = x14)); cbn [negb andb]; [|done].
  destruct (byte_val id =? msgID); cbn [negb]; [|done].
  destruct (parseMetadataPiece p) as [[piece data]| | |]; [|done..].
  destruct ((piece <? 0) || (numPieces <=? piece) || received !!! Z.to_nat piece); [done|]. cbn zeta.
  by destruct (Z.of_nat (length buf) <? piece * MetadataPieceSize).
Qed.

Lemma receive_done fuel msgID m buf received c :
  let k := num_pieces (Z.of_nat (length m)) in
  Z.of_nat (length m) ≤ maxAlloc → agrees m buf received → Z.of_nat (length received) = k →
  count_true received = length received →
  receive fuel msgID k buf received (Z.of_nat (count_true received)) c = Ok (m, c).
Proof.
  intros k Hm Hag Hlen Hall. destruct (num_pieces_spec (Z.of_nat (length m)) ltac:(lia)) as (_ & _ & Hk).
  fold k in Hk. rewrite (agrees_all m buf received Hag Hall) by lia.
  destruct fuel; cbn [receive]; by destruct (Z.leb_spec k (Z.of_nat (count_true received))); [|lia].
Qed.

Lemma receive_honest msgs : ∀ fuel m msgID buf received rest out w,
  let k := num_pieces (Z.of_nat (length m)) in
  Z.of_nat (length m) ≤ maxAlloc → Forall (honest m msgID) msgs →
  agrees m buf received → Z.of_nat (length received) = k →
  (∀ i, received !! i = Some false → ∃ x, x ∈ msgs ∧ carries msgID (Z.of_nat i) x) →
  (length msgs < fuel)%nat →
  ∃ c', receive fuel msgID k buf received (Z.of_nat (count_true received))
    (mkConn (stream msgs ++ rest) out w) = Ok (m, c') ∧ c_out c' = out.
Proof.
  induction msgs as [|x msgs IH]; intros fuel m msgID buf received rest out w k Hm Hhon Hag Hlen Hcov Hf;
    destruct (num_pieces_spec (Z.of_nat (length m)) ltac:(lia)) as (Hk0 & Hk1 & Hk2); fold k in Hk0, Hk1, Hk2;
    pose proof (count_true_le received) as Hle;
    (destruct (decide (count_true received = length received)) as [Hall|Hnot];
     [eexists; split; [by apply receive_done|done]|]).
  { destruct (count_true_lt received) as [i Hi]; [lia|]. destruct (Hcov i Hi) as (x & Hx & _). set_solver. }
  destruct fuel as [|fuel]; [lia|]. apply Forall_cons_1 in Hhon as [[Hwf Hx] Hhon].
  unfold stream. cbn [mbind list_bind]. fold (stream msgs). rewrite <- app_assoc.
  rewrite receive_step by (lia || done). cbn zeta.
  assert ((∀ i, received !! i = Some false → ¬ carries msgID (Z.of_nat i) x) →
    ∃ c', receive fuel msgID k buf received (Z.of_nat (count_true received))
      (mkConn (stream msgs ++ rest) out w) = Ok (m, c') ∧ c_out c' = out) as Hagain.
  { intros Hno. apply IH; try done; [|cbn in Hf; lia].
    intros i Hi. destruct (Hcov i Hi) as (y & [->|Hy]%elem_of_cons & Hc); [by destruct (Hno i Hi)|eauto]. }
  destruct (piece_of msgID x) as [[[i data]|e|p|]|] eqn:Hp; try done;
    try (apply Hagain; intros j _ [d Hd]; congruence).
  destruct ((i <? 0) || (k <=? i) || received !!! Z.to_nat i) eqn:Hb.
  - apply Hagain. intros j Hj [d Hd]. rewrite Hp in Hd. injection Hd as -> _.
    pose proof (lookup_lt_Some _ _ _ Hj). rewrite Nat2Z.id in Hb.
    rewrite (list_lookup_total_correct _ _ _ Hj), orb_false_r in Hb.
    apply orb_true_iff in Hb as [?%Z.ltb_lt|?%Z.leb_le]; lia.
  - apply orb_false_iff in Hb as [[Hb1%Z.ltb_ge Hb2%Z.leb_gt]%orb_false_iff Hb3].
    rewrite (Hx ltac:(lia)). unfold MetadataPieceSize in *.
    assert (received !! Z.to_nat i = Some false) as Hi.
    { destruct (lookup_lt_is_Some_2 received (Z.to_nat i)) as [b Hi]; [lia|].
      rewrite Hi. by rewrite (list_lookup_total_correct _ _ _ Hi) in Hb3; subst. }
    destruct (Z.ltb_spec (Z.of_nat (length buf)) (i * 16384)); [destruct Hag; lia|].
    replace (Z.of_nat (count_true received) + 1) with (Z.of_nat (count_true (<[Z.to_nat i:=true]> received)))
      by (rewrite count_true_insert by done; lia).
    apply IH; try done.
    + by apply agrees_copy; [|unfold MetadataPieceSize; lia..].
    + by rewrite length_insert.
    + intros j [[<- [? _]]|[Hne Hj]]%list_lookup_insert_Some; [done|].
      destruct (Hcov j Hj) as (y & [->|Hy]%elem_of_cons & Hc); [|eauto].
      destruct Hc as [d Hd]. rewrite Hp in Hd. injection Hd as -> _. lia.
    + cbn in Hf. lia.
Qed.

(** ** The download from an honest peer *)

Definition hello (name reserved h peerID : bytes) : bytes :=
  [byte_of (Z.of_nat (length name))] ++ name ++ reserved ++ h ++ peerID.

Lemma readHandshake_hello name reserved h peerID r out w :
  (length name < 256)%nat → length reserved = 8%nat → length h = 20%nat → length peerID = 20%nat →
  readHandshake h (mkConn (hello name reserved h peerID ++ r) out w) = Ok (reserved, mkConn r out w).
Proof.
  intros Hn Hr Hh Hp. unfold readHandshake, hello. rewrite <- !app_assoc.
  rewrite (io_bind_eq _ _ _ _ _ (read_full_app' 1 [_] _ out w eq_refl)).
  assert (be_val [byte_of (Z.of_nat (length name))] = Z.of_nat (length name)) as ->.
  { unfold be_val. cbn [foldl]. rewrite byte_val_of_small by lia. lia. }
  rewrite (io_bind_eq _ _ _ _ _ (read_full_app' _ name _ out w eq_refl)).
  rewrite (io_bind_eq _ _ _ _ _ (read_full_app' 8 reserved _ out w ltac:(lia))).
  rewrite (io_bind_eq _ _ _ _ _ (read_full_app' 20 h _ out w ltac:(lia))).
  rewrite decide_True by done.
  by rewrite (io_bind_eq _ _ _ _ _ (read_full_app' 20 peerID _ out w ltac:(lia))).
Qed.

Definition is_ext_handshake (x : msg) : bool :=
  match x with
  | Msg t (id :: _) => bool_decide (t = x14) && bool_decide (id = ExtMsgHandshake)
  | _ => false
  end.

Lemma readExtHandshake_stream pre hs dict ids id size r out w fuel :
  Forall (λ x, wf_msg x ∧ is_ext_handshake x = false) pre → wf_msg (Msg x14 (ExtMsgHandshake :: hs)) →
  DecodeDict hs = Ok dict → GetDict dict (bs "m") = Some ids → GetInt ids (bs "ut_metadata") = Some id →
  GetInt dict (bs "metadata_size") = Some size → (length pre < fuel)%nat →
  readExtHandshake fuel (mkConn (stream (pre ++ [Msg x14 (ExtMsgHandshake :: hs)]) ++ r) out w) =
    Ok ((id, size), mkConn r out w).
Proof.
  intros Hpre Hwf Hd Hm Hi Hs. revert fuel. induction Hpre as [|x pre [Hx Hn] Hpre IH]; intros fuel Hf;
    destruct fuel as [|fuel]; try lia; unfold stream in *; cbn [app mbind list_bind readExtHandshake].
  - rewrite app_nil_r. rewrite (io_bind_eq _ _ _ _ _ (readMessage_msg _ r out w Hwf)). cbn [msg_val].
    rewrite !bool_decide_eq_true_2 by done. cbn [negb].
    unfold mbind, io_bind, io_lift. rewrite Hd. cbn [map_err outcome_bind]. unfold mbind, outcome_bind.
    by rewrite Hm, Hi, Hs.
  - rewrite <- app_assoc, (io_bind_eq _ _ _ _ _ (readMessage_msg x _ out w Hx)). cbn in Hf.
    assert (readExtHandshake fuel (mkConn (((pre ++ [Msg x14 (ExtMsgHandshake :: hs)]) ≫= msg_bytes) ++ r) out w)
      = Ok (id, size, mkConn r out w)) as Hagain by (apply IH; lia).
    destruct x as [|t [|i p]]; cbn [msg_val is_ext_handshake] in *; [done|by case_match|].
    destruct (bool_decide (t = x14)); cbn [negb andb] in *; [|done]. by rewrite Hn.
Qed.

Lemma length_stream msgs : (length msgs ≤ length (stream msgs))%nat.
Proof.
  unfold stream. induction msgs as [|x msgs IH]; cbn; [lia|].
  rewrite length_app. pose proof (length_msg_bytes x). lia.
Qed.

(** A peer's handshakes: the extension bit set, messages before the extension handshake
    that are not one, and an extension handshake that gives [ut_metadata] the identifier
    [id] and announces [size] bytes of metadata. *)
Record greets (d : MetadataDownloader) (name reserved peerID : bytes) (pre : list msg) (hs : bytes)
  (id size : Z) : Prop := {
  gr_name : (length name < 256)%nat;
  gr_reserved : length reserved = 8%nat ∧ no_extensions reserved = false;
  gr_peerID : length peerID = 20%nat;
  gr_pre : Forall (λ x, wf_msg x ∧ is_ext_handshake x = false) pre;
  gr_hs : wf_msg (Msg x14 (ExtMsgHandshake :: hs));
  gr_id : ∃ dict ids, DecodeDict hs = Ok dict ∧ GetDict dict (bs "m") = Some ids ∧
    GetInt ids (bs "ut_metadata") = Some id ∧ GetInt dict (bs "metadata_size") = Some size;
  gr_nonzero : id ≠ 0;
  gr_size : size ≤ md_MaxMetaSize d;
}.

Definition peer_stream (name reserved h peerID : bytes) (pre : list msg) (hs : bytes) (rest : bytes) : bytes :=
  hello name reserved h peerID ++ stream (pre ++ [Msg x14 (ExtMsgHandshake :: hs)]) ++ rest.

Definition finish (h metadata : bytes) : io TorrentMeta :=
  if decide (sha1_Sum metadata = h) then io_lift (parseMetadata h metadata)
  else io_lift (Err ErrInvalidMetadata).

(** The exchange up to the requests. *)
Lemma exchange_greeted d name reserved h peerID pre hs id size rest out w fuel :
  greets d name reserved peerID pre hs id size → length h = 20%nat →
  (length (peer_stream name reserved h peerID pre hs rest) < fuel)%nat →
  exchange d fuel h (mkConn (peer_stream name reserved h peerID pre hs rest) out (2 + w)) =
  (metadata ← downloadMetadata fuel id size; finish h metadata)
    (mkConn rest (out ++ download_writes h id 0) w).
Proof.
  intros [Hn [Hr Hext] Hp Hpre Hwf (dict & ids & Hd & Hm & Hi & Hs) Hid Hmax] Hh Hf.
  destruct ext_handshake_ok as [eh Heh]. unfold exchange, sendHandshake. unfold peer_stream in *.
  erewrite io_bind_eq by reflexivity. cbn [c_in c_out c_writes].
  rewrite (io_bind_eq _ _ _ _ _ (readHandshake_hello _ _ _ _ _ _ _ Hn Hr Hh Hp)), Hext.
  unfold sendExtHandshake. rewrite Heh. erewrite io_bind_eq by reflexivity. cbn [c_in c_out c_writes].
  rewrite !length_app in Hf. pose proof (length_stream (pre ++ [Msg x14 (ExtMsgHandshake :: hs)])) as Hl1.
  rewrite length_app in Hl1. cbn [length] in Hl1.
  rewrite (io_bind_eq _ _ _ _ _ (readExtHandshake_stream pre hs dict ids id size _ _ _ fuel
    Hpre Hwf Hd Hm Hi Hs ltac:(lia))).
  destruct (Z.eqb_spec id 0); [done|]. destruct (Z.ltb_spec (md_MaxMetaSize d) size); [lia|].
  unfold download_writes. rewrite Heh. cbn. by rewrite <- app_assoc.
Qed.

Lemma download_honest m id post rest out w fuel :
  let size := Z.of_nat (length m) in
  size ≤ maxAlloc → Forall (honest m id) post →
  (∀ i, 0 ≤ i < num_pieces size → ∃ x, x ∈ post ∧ carries id i x) →
  (length (stream post ++ rest) < fuel)%nat → (Z.to_nat (num_pieces size) ≤ w)%nat →
  ∃ c', downloadMetadata fuel id size (mkConn (stream post ++ rest) out w) = Ok (m, c') ∧
    c_out c' = out ++ (request_bytes id <$> seqZ 0 (num_pieces size)).
Proof.
  intros size Halloc Hpost Hcov Hf Hw. destruct (num_pieces_spec size ltac:(lia)) as (Hk & _ & _).
  rewrite length_app in Hf. pose proof (length_stream post) as Hl.
  destruct (receive_honest post fuel m id (replicate (length m) x00) (replicate (Z.to_nat (num_pieces size)) false)
    rest (out ++ (request_bytes id <$> seqZ 0 (num_pieces size))) (w - Z.to_nat (num_pieces size)))
    as (c' & Hc & Ho); [done|done| | | |lia|].
  { split; [by rewrite length_replicate|]. by intros p [? _]%lookup_replicate. }
  { rewrite length_replicate. fold size. lia. }
  { intros i [_ Hlt]%lookup_replicate. apply Hcov. lia. }
  exists c'. split; [|done]. unfold downloadMetadata.
  destruct (Z.ltb_spec size 0); [lia|]. destruct (Z.ltb_spec maxAlloc size); [lia|].
  destruct (Z.ltb_spec (num_pieces size) 0); [lia|]. cbn [orb].
  rewrite (ltac:(lia) : w = (Z.to_nat (num_pieces size) + (w - Z.to_nat (num_pieces size)))%nat) at 1.
  rewrite (io_bind_eq _ _ _ _ _ (request_all_ok id 0 (Z.to_nat (num_pieces size)) _ _ _)).
  rewrite Z2Nat.id by done. replace (Z.to_nat size) with (length m) by (unfold size; lia).
  rewrite count_true_replicate in Hc. exact Hc.
Qed.

(** C22: a download from a peer that has the metadata succeeds. When the peer announces the
    identifier and the size, and then answers every request, in any order and mixed with
    any other messages, under the identifier it announced, the pieces are reassembled to
    the metadata, and the result is its parsing. *)
Theorem Download_honest_peer d m name reserved peerID pre hs id post rest out w :
  let h := sha1_Sum m in let size := Z.of_nat (length m) in
  let c := mkConn (peer_stream name reserved h peerID pre hs (stream post ++ rest)) out (2 + w) in
  greets d name reserved peerID pre hs id size → size ≤ maxAlloc →
  Forall (honest m id) post → (∀ i, 0 ≤ i < num_pieces size → ∃ x, x ∈ post ∧ carries id i x) →
  (Z.to_nat (num_pieces size) ≤ w)%nat →
  ∃ c', Download d h (Some c) = (meta ← parseMetadata h m; Ok (meta, c')) ∧
    c_out c' = out ++ download_writes h id size.
Proof.
  intros h size c Hg Halloc Hpost Hcov Hw. unfold Download, conn_fuel.
  unfold c. rewrite (exchange_greeted d name reserved h peerID pre hs id size) by
    (done || apply length_sha1_Sum || cbn [c_in]; lia). cbn [c_in].
  destruct (download_honest m id post rest (out ++ download_writes h id 0) w
    (S (length (peer_stream name reserved h peerID pre hs (stream post ++ rest)))))
    as (c' & Hc & Ho); [done..| |done|].
  { unfold peer_stream. rewrite !length_app. lia. }
  exists c'. rewrite (io_bind_eq _ _ _ _ _ Hc). unfold finish. rewrite decide_True by done.
  split; [done|]. rewrite Ho. unfold download_writes. by rewrite <- !app_assoc.
Qed.

Definition tiny_info : bytes := bs "d6:lengthi5e4:name1:ae".
Definition tiny_reserved : bytes := [x00; x00; x00; x00; x00; x10; x00; x00].
Definition tiny_hs : bytes := bs "d1:md11:ut_metadatai1ee13:metadata_sizei22ee".
Definition tiny_piece : msg := Msg x14 (x01 :: bs "d8:msg_typei1e5:piecei0ee" ++ tiny_info).

Lemma tiny_greets :
  greets (NewMetadataDownloader 0) ProtocolName tiny_reserved (replicate 20 x2d) [KeepAlive] tiny_hs 1 22.
Proof.
  constructor.
  - apply Nat.ltb_lt. reflexivity.
  - split; reflexivity.
  - reflexivity.
  - repeat constructor.
  - vm_compute. discriminate.
  - do 2 eexists. split_and!; reflexivity.
  - discriminate.
  - vm_compute. discriminate.
Qed.

Lemma Download_honest_peer_witness :
  let h := sha1_Sum tiny_info in
  let c := mkConn (peer_stream ProtocolName tiny_reserved h (replicate 20 x2d) [KeepAlive] tiny_hs
                     (stream [Msg x05 (bs "bits"); tiny_piece] ++ bs "more")) [] (2 + 1) in
  ∃ c', Download (NewMetadataDownloader 0) h (Some c) =
    Ok (mkTorrentMeta h (bs "a") 5 [mkFileInfo (bs "a") 5] 0 tiny_info, c') ∧
    c_out c' = [] ++ download_writes h 1 22.
Proof.
  apply (Download_honest_peer (NewMetadataDownloader 0) tiny_info ProtocolName tiny_reserved (replicate 20 x2d)
    [KeepAlive] tiny_hs 1 [Msg x05 (bs "bits"); tiny_piece] (bs "more") [] 1).
  - apply tiny_greets.
  - vm_compute. discriminate.
  - constructor; [|constructor; [|constructor]].
    + split; [vm_compute; discriminate|exact I].
    + split; [vm_compute; discriminate|]. intros _. vm_compute. reflexivity.
  - intros i Hi. change (num_pieces (Z.of_nat (length tiny_info))) with 1 in Hi. assert (i = 0) as -> by lia.
    exists tiny_piece. split; [|eexists; reflexivity].
    apply list_elem_of_further, list_elem_of_here.
  - vm_compute. lia.
Defined.

(** a negative metadata_size panics. A peer that announces one, after a regular
    handshake for the info hash it was asked for, makes [make] panic. *)
Theorem negative_size_panics d h name reserved peerID pre hs id size rest out w :
  greets d name reserved peerID pre hs id size → length h = 20%nat → size < 0 →
  Download d h (Some (mkConn (peer_stream name reserved h peerID pre hs rest) out (2 + w))) =
    Panic PanicMakeSlice.
Proof.
  intros Hg Hh Hs. unfold Download, conn_fuel.
  rewrite (exchange_greeted d name reserved h peerID pre hs id size) by (done || cbn [c_in]; lia).
  unfold downloadMetadata. destruct (Z.ltb_spec size 0); [|lia]. done.
Qed.

Definition negative_hs : bytes := bs "d1:md11:ut_metadatai1ee13:metadata_sizei-1ee".

Lemma negative_size_panics_witness :
  Download (NewMetadataDownloader 0) (replicate 20 x61)
    (Some (mkConn (peer_stream ProtocolName tiny_reserved (replicate 20 x61) (replicate 20 x2d) [] negative_hs [])
      [] (2 + 0))) = Panic PanicMakeSlice.
Proof.
  apply (negative_size_panics (NewMetadataDownloader 0) (replicate 20 x61) ProtocolName tiny_reserved
    (replicate 20 x2d) [] negative_hs 1 (-1) [] [] 0); [|reflexivity|lia].
  constructor.
  - apply Nat.ltb_lt. reflexivity.
  - split; reflexivity.
  - reflexivity.
  - constructor.
  - vm_compute. discriminate.
  - do 2 eexists. split_and!; reflexivity.
  - discriminate.
  - vm_compute. discriminate.
Defined.

Lemma receive_nothing msgs : ∀ fuel msgID numPieces buf received got out w,
  Forall (λ x, wf_msg x ∧ piece_of msgID x = None) msgs → got < numPieces →
  (length msgs < fuel)%nat →
  receive fuel msgID numPieces buf received got (mkConn (stream msgs) out w) = Err ErrRead.
Proof.
  induction msgs as [|x msgs IH]; intros fuel msgID numPieces buf received got out w Hm Hg Hf;
    (destruct fuel as [|fuel]; [lia|]).
  - cbn [receive]. destruct (Z.leb_spec numPieces got); [lia|]. done.
  - apply Forall_cons_1 in Hm as [[Hx Hn] Hm]. unfold stream. cbn [mbind list_bind]. fold (stream msgs).
    rewrite receive_step by done. rewrite Hn. apply IH; [done..|]. cbn in Hf. lia.
Qed.

(** the data of a peer that keeps to BEP 10 is ignored. The extension handshake this
    code sends asks for ut_metadata messages under the identifier 1, and a BEP 10 peer
    sends them so; the receiving loop compares with the identifier the peer announced
    for itself. When that is another one, every such message is skipped, whatever data
    it carries, and the download fails at the end of the stream. *)
Theorem BEP10_identifier_ignored d h name reserved peerID pre hs id size post out w :
  greets d name reserved peerID pre hs id size → length h = 20%nat → 0 < size ≤ maxAlloc → id ≠ 1 →
  Forall (λ x, wf_msg x ∧ ∀ i p, x = Msg x14 (i :: p) → i = x01) post →
  (Z.to_nat (num_pieces size) ≤ w)%nat →
  Download d h (Some (mkConn (peer_stream name reserved h peerID pre hs (stream post)) out (2 + w))) =
    Err ErrRead.
Proof.
  intros Hg Hh Hs Hid Hpost Hw. unfold Download, conn_fuel.
  rewrite (exchange_greeted d name reserved h peerID pre hs id size) by (done || cbn [c_in]; lia).
  cbn [c_in]. destruct (num_pieces_spec size ltac:(lia)) as (_ & _ & Hk). unfold MetadataPieceSize in Hk.
  unfold downloadMetadata. destruct (Z.ltb_spec size 0); [lia|].
  destruct (Z.ltb_spec maxAlloc size); [lia|]. destruct (Z.ltb_spec (num_pieces size) 0); [lia|]. cbn [orb].
  rewrite (ltac:(lia) : w = (Z.to_nat (num_pieces size) + (w - Z.to_nat (num_pieces size)))%nat) at 1.
  unfold mbind at 1, io_bind at 1.
  rewrite (io_bind_eq _ _ _ _ _ (request_all_ok id 0 (Z.to_nat (num_pieces size)) _ _ _)).
  rewrite receive_nothing; [done| |lia|].
  - eapply Forall_impl; [done|]. intros x [Hx Hi]. split; [done|].
    destruct x as [|t [|i p]]; try done. cbn [piece_of].
    destruct (decide (t = x14)) as [->|]; [|by rewrite bool_decide_eq_false_2].
    rewrite (Hi i p eq_refl). change (byte_val x01) with 1.
    destruct (Z.eqb_spec 1 id); [congruence|]. by rewrite andb_false_r.
  - unfold peer_stream. rewrite !length_app. pose proof (length_stream post). lia.
Qed.

(** A peer whose own identifier is 3, and that sends the data under 1, as asked. *)
Definition id3_hs : bytes := bs "d1:md11:ut_metadatai3ee13:metadata_sizei22ee".

Lemma BEP10_identifier_ignored_witness :
  Download (NewMetadataDownloader 0) (sha1_Sum tiny_info)
    (Some (mkConn (peer_stream ProtocolName tiny_reserved (sha1_Sum tiny_info) (replicate 20 x2d) [] id3_hs
      (stream [tiny_piece])) [] (2 + 1))) = Err ErrRead.
Proof.
  apply (BEP10_identifier_ignored (NewMetadataDownloader 0) (sha1_Sum tiny_info) ProtocolName tiny_reserved
    (replicate 20 x2d) [] id3_hs 3 22 [tiny_piece] [] 1).
  - constructor.
    + apply Nat.ltb_lt. reflexivity.
    + split; reflexivity.
    + reflexivity.
    + constructor.
    + vm_compute. discriminate.
    + do 2 eexists. split_and!; reflexivity.
    + discriminate.
    + vm_compute. discriminate.
  - apply length_sha1_Sum.
  - vm_compute. split; [reflexivity|discriminate].
  - discriminate.
  - constructor; [|constructor]. split; [vm_compute; discriminate|].
    intros i p H. by injection H as <- _.
  - vm_compute. lia.
Defined.

(** ** The info dictionary *)

Fixpoint join_slash (parts : list bytes) : bytes :=
  match parts with [] => [] | [s] => s | s :: parts => s ++ bs "/" ++ join_slash parts end.

Lemma join_slash_snoc parts s :
  parts ≠ [] → join_slash (parts ++ [s]) = join_slash parts ++ bs "/" ++ s.
Proof.
  induction parts as [|a parts IH]; [done|]. intros _. destruct parts as [|b parts]; [done|].
  change (join_slash ((a :: b :: parts) ++ [s])) with (a ++ bs "/" ++ join_slash ((b :: parts) ++ [s])).
  rewrite IH by done. cbn [join_slash]. by rewrite <- !app_assoc.
Qed.

Lemma join_path_spec parts l :
  join_path (parts ++ [l]) = join_slash (rev parts ++ [l]).
Proof.
  unfold join_path. rewrite last_snoc, length_app. cbn [length].
  rewrite Nat.add_sub, take_app_length. induction parts as [|p parts IH] using rev_ind; [done|].
  rewrite foldl_app, IH, rev_app_distr. cbn [foldl rev app].
  by destruct (rev parts ++ [l]) eqn:E; [destruct (rev parts)|].
Qed.

(** the path of a file in a multi-file torrent. With one or two components it is the
    components joined by slashes; in general the directories come out in reverse order,
    only the last component staying in its place: a, b, c becomes b/a/c. *)
Theorem join_path_reversed :
  join_path [] = [] ∧
  (∀ parts l, join_path (parts ++ [l]) = join_slash (rev parts ++ [l])) ∧
  (∀ parts, (length parts ≤ 2)%nat → join_path parts = join_slash parts) ∧
  join_path [bs "a"; bs "b"; bs "c"] = bs "b/a/c".
Proof.
  split_and!; [done|apply join_path_spec| |done].
  intros parts Hp. destruct parts as [|a [|b [|]]]; cbn in Hp; try lia; done.
Qed.

(** The entries of "files" that are dictionaries. *)
Definition file_of (f : bval) : option (FileInfo * Z) :=
  match f with
  | VDict d =>
      let n := default 0 (GetInt d (bs "length")) in
      Some (mkFileInfo match GetList d (bs "path") with
                       | Some l => join_path (path_parts l) | None => [] end n, n)
  | _ => None
  end.

Lemma foldl_parse_file fs files size :
  wrapS 64 size = size →
  foldl (λ acc f, parse_file f acc) (files, size) fs =
  (files ++ (omap file_of fs).*1, wrapS 64 (size + foldr Z.add 0 (omap file_of fs).*2)).
Proof.
  revert files size. induction fs as [|f fs IH]; intros files size Hw.
  { cbn. by rewrite app_nil_r, Z.add_0_r, Hw. }
  cbn [foldl omap list_omap]. destruct f as [| | | | | | |d|]; cbn [file_of parse_file]; try by apply IH.
  rewrite IH.
  - cbn [fmap list_fmap fst snd foldr]. rewrite <- app_assoc. f_equal.
    destruct (GetInt d (bs "length")); cbn [default]; [by rewrite wrapS_add, Z.add_assoc by lia|done].
  - destruct (GetInt d (bs "length")); [|done]. by apply wrapS_wrapS.
Qed.

(** A torrent of one file, and of several, as its info dictionary. *)
Definition single_info (name pieces : bytes) (pieceLen len : Z) : dict :=
  [(bs "name", VString name); (bs "piece length", VInt64 pieceLen); (bs "pieces", VBytes pieces);
   (bs "length", VInt64 len)].

Definition file_value (f : list bytes * Z) : bval :=
  VDict [(bs "length", VInt64 f.2); (bs "path", VList (VBytes <$> f.1))].

Definition multi_info (name pieces : bytes) (pieceLen : Z) (files : list (list bytes * Z)) : dict :=
  [(bs "name", VString name); (bs "piece length", VInt64 pieceLen); (bs "pieces", VBytes pieces);
   (bs "files", VList (file_value <$> files))].

Definition wf_file (f : list bytes * Z) : Prop := Forall sized f.1 ∧ is_int64 f.2.

Lemma file_value_encodable f : wf_file f → encodable (file_value f).
Proof.
  intros [Hp [Hl1 Hl2]]. apply encodable_pair_list; [apply (bool_decide_unpack _); vm_compute; exact I|].
  repeat (apply Forall_cons; split); [| |apply Forall_nil; exact I];
    (split; cbn [fst snd]; [apply sized_small, (bool_decide_unpack _); vm_compute; exact I|]).
  - by constructor.
  - constructor. apply Forall_fmap. eapply Forall_impl; [done|]. intros s Hs. by constructor.
Qed.

Lemma file_of_norm f :
  file_of (norm (file_value f)) = Some (mkFileInfo (join_path f.1) f.2, f.2).
Proof.
  change (norm (file_value f)) with
    (VDict (norm_dict [(bs "length", VInt64 f.2); (bs "path", VList (VBytes <$> f.1))])).
  unfold file_of. rewrite GetList_norm by (apply (bool_decide_unpack _); vm_compute; exact I).
  erewrite GetInt_norm; [..|apply (bool_decide_unpack _); vm_compute; exact I|reflexivity].
  cbn [default]. do 3 f_equal. change (join_path (path_parts (List.map norm (VBytes <$> f.1))) = join_path f.1).
  f_equal. induction f.1 as [|s l IH]; [done|]. cbn in *. by f_equal.
Qed.

Lemma parse_files files :
  Forall wf_file files →
  foldl (λ acc f, parse_file f acc) ([], 0) (List.map norm (file_value <$> files)) =
  ((λ f, mkFileInfo (join_path f.1) f.2) <$> files, wrapS 64 (foldr Z.add 0 files.*2)).
Proof.
  intros Hf. rewrite foldl_parse_file by done. rewrite Z.add_0_l. cbn [app].
  assert (omap file_of (List.map norm (file_value <$> files)) =
    (λ f, (mkFileInfo (join_path f.1) f.2, f.2)) <$> files) as ->.
  { clear Hf. induction files as [|f files IH]; [done|].
    change (omap file_of (List.map norm (file_value <$> f :: files))) with
      (match file_of (norm (file_value f)) with
       | Some y => y :: omap file_of (List.map norm (file_value <$> files))
       | None => omap file_of (List.map norm (file_value <$> files)) end).
    by rewrite file_of_norm, IH. }
  by rewrite <- !list_fmap_compose.
Qed.

(** C35: parsing reads back a torrent's info dictionary. For one file the record has its
    name, size and piece length and that one file; for several, each file's path (its
    components in the order [join_path] gives) and size, in order, and the total size
    modulo 2^64; and the raw bytes are kept for the hash. *)
Theorem parseMetadata_roundtrip h name pieces pieceLen :
  sized name → sized pieces → is_int64 pieceLen →
  (∀ len, is_int64 len →
     ∃ p, Encode (VDict (single_info name pieces pieceLen len)) = Ok p ∧
       parseMetadata h p = Ok (mkTorrentMeta h name len [mkFileInfo name len] pieceLen p)) ∧
  (∀ files, Forall wf_file files →
     ∃ p, Encode (VDict (multi_info name pieces pieceLen files)) = Ok p ∧
       parseMetadata h p = Ok (mkTorrentMeta h name (wrapS 64 (foldr Z.add 0 files.*2))
         ((λ f, mkFileInfo (join_path f.1) f.2) <$> files) pieceLen p)).
Proof.
  intros Hn Hp Hl. split.
  - intros len Hlen.
    destruct (Encode_DecodeDict (single_info name pieces pieceLen len)) as (p & Hp1 & Hp2); [by encode_dict|].
    exists p. split; [done|]. unfold parseMetadata. rewrite Hp2. cbn [map_err mbind outcome_bind].
    rewrite !GetString_norm, GetList_norm by (apply (bool_decide_unpack _); vm_compute; exact I).
    erewrite !GetInt_norm; [..|reflexivity|apply (bool_decide_unpack _); vm_compute; exact I|reflexivity];
      [done|apply (bool_decide_unpack _); vm_compute; exact I].
  - intros files Hf.
    destruct (Encode_DecodeDict (multi_info name pieces pieceLen files)) as (p & Hp1 & Hp2).
    { encode_dict. apply Forall_fmap. eapply Forall_impl; [done|]. apply file_value_encodable. }
    exists p. split; [done|]. unfold parseMetadata. rewrite Hp2. cbn [map_err mbind outcome_bind].
    rewrite !GetString_norm, GetList_norm by (apply (bool_decide_unpack _); vm_compute; exact I).
    change (GetList (multi_info name pieces pieceLen files) (bs "files")) with (Some (file_value <$> files)).
    cbn [fmap option_fmap option_map]. rewrite parse_files by done.
    by erewrite GetInt_norm; [..|apply (bool_decide_unpack _); vm_compute; exact I|reflexivity].
Qed.

Lemma parseMetadata_roundtrip_witness :
  ∃ p, Encode (VDict (multi_info (bs "t") [] 16384 [([bs "d"; bs "x"], 3); ([bs "y"], 4)])) = Ok p ∧
    parseMetadata (replicate 20 x61) p = Ok (mkTorrentMeta (replicate 20 x61) (bs "t") (wrapS 64 (3 + (4 + 0)))
      [mkFileInfo (bs "d/x") 3; mkFileInfo (bs "y") 4] 16384 p).
Proof.
  apply (parseMetadata_roundtrip (replicate 20 x61) (bs "t") [] 16384).
  - vm_compute. discriminate.
  - vm_compute. discriminate.
  - split; vm_compute; discriminate.
  - repeat constructor; vm_compute; discriminate.
Defined.

(** ** A verified download *)

Definition tiny_conn : Conn :=
  mkConn (peer_stream ProtocolName tiny_reserved (sha1_Sum tiny_info) (replicate 20 x2d) [KeepAlive] tiny_hs
    (stream [Msg x05 (bs "bits"); tiny_piece] ++ bs "more")) [] 3.

Definition tiny_meta : TorrentMeta :=
  mkTorrentMeta (sha1_Sum tiny_info) (bs "a") 5 [mkFileInfo (bs "a") 5] 0 tiny_info.

Lemma Download_verified_witness :
  ∃ c', Download (NewMetadataDownloader 0) (sha1_Sum tiny_info) (Some tiny_conn) = Ok (tiny_meta, c') ∧
    sha1_Sum (tm_RawInfo tiny_meta) = sha1_Sum tiny_info ∧
    ∃ id, id ≠ 0 ∧ c_out c' = c_out tiny_conn ++ download_writes (sha1_Sum tiny_info) id 22.
Proof.
  eassert (Download (NewMetadataDownloader 0) (sha1_Sum tiny_info) (Some tiny_conn) = Ok (tiny_meta, _)) as H
    by (vm_compute; reflexivity).
  eexists. split; [exact H|].
  destruct (Download_verified _ _ _ _ _ H) as (Hs & _ & _ & _ & Hw). split; [exact Hs|exact Hw].
Defined.
