(* ===== verification/Storage.v ===== *)
(** * The database: [internal/storage/sqlite.go]

    The two tables as finite maps from the primary key to the row, and the operations
    with the meaning of their SQL.  [faults k] says whether the k-th call an operation
    makes to the driver fails; a statement that fails changes nothing, and the statements
    of a transaction work on a copy of the tables until it is committed.  What SQLite
    leaves open is an interface, [Engine]: the order in which it visits the rows of a table
    (and so the order of ties), [LIKE], and the full-text index. *)

From S2P Require Import Prelude GoStd Net.

Record FileRecord := mkFileRecord { fr_Path : bytes; fr_Size : Z }.

(** Times are nanoseconds since 1970. *)
Record TorrentRecord := mkTorrentRecord {
  tr_InfoHash : bytes;
  tr_Name : bytes;
  tr_Size : Z;
  tr_Files : list FileRecord;
  tr_FileCount : Z;
  tr_CreatedAt : Z;
  tr_ReqCount : Z;
}.

Record HashRecord := mkHashRecord {
  hr_InfoHash : bytes;
  hr_ReqCount : Z;
  hr_FirstSeen : Z;
  hr_LastSeen : Z;
}.

Record SearchResult := mkSearchResult {
  sr_InfoHash : bytes;
  sr_Name : bytes;
  sr_NameHighlight : bytes;
  sr_Size : Z;
  sr_FileCount : Z;
  sr_ReqCount : Z;
}.

(** The columns besides the key; times are seconds since 1970. *)
Record hash_row := mkHashRow { h_req_count : Z; h_first_seen : Z; h_last_seen : Z }.

Record torrent_row := mkTorrentRow {
  t_name : bytes;
  t_size : Z;
  t_files : bytes;
  t_file_count : Z;
  t_created_at : Z;
  t_req_count : Z;
}.

Record Storage := mkStorage {
  st_hashes : gmap bytes hash_row;
  st_torrents : gmap bytes torrent_row;
  st_hasFTS5 : bool;
  st_open : bool;                   (* until [Close] *)
}.

Definition set_hashes (t : gmap bytes hash_row) (s : Storage) : Storage :=
  mkStorage t (st_torrents s) (st_hasFTS5 s) (st_open s).
Definition set_torrents (t : gmap bytes torrent_row) (s : Storage) : Storage :=
  mkStorage (st_hashes s) t (st_hasFTS5 s) (st_open s).

(** [Close]: the rows stay in the file. *)
Definition db_close (s : Storage) : Storage := mkStorage (st_hashes s) (st_torrents s) (st_hasFTS5 s) false.

Inductive db_error := ErrDB.

(** ** What SQLite decides *)

Class Engine := {
  scan : ∀ A : Type, gmap bytes A → list (bytes * A);
  sql_like : bytes → bytes → bool;       (* value, pattern *)
  (** The count, and the rows with the highlighted name, of a full-text query; [None]
      where it fails. *)
  fts_count : Storage → bytes → option Z;
  fts_rows : Storage → bytes → Z → Z → option (list SearchResult);
}.

Class EngineLaws `{Engine} : Prop :=
  scan_perm : ∀ A (t : gmap bytes A), scan A t ≡ₚ map_to_list t.

(** [LIMIT l OFFSET o]: a negative limit is none, a negative offset is zero. *)
Definition sql_limit {A : Type} (limit offset : Z) (rows : list A) : list A :=
  let rows := drop (Z.to_nat offset) rows in
  if limit <? 0 then rows else take (Z.to_nat limit) rows.

(** ** Calls to the driver *)

Abbreviation faults := (nat → bool).
Definition no_faults : faults := λ _, false.

Definition driver (fails : faults) (k : nat) : outcome db_error unit :=
  if fails k then Err ErrDB else Ok tt.

(** Once the database and its statements are closed, every call fails. *)
Definition calls (fails : faults) (s : Storage) : faults := if st_open s then fails else λ _, true.

(** How the loop over the rows of a query ends. *)
Inductive rows_end := AllRows | NextFailed | ScanFailed.

(** [for rows.Next() { rows.Scan(...) }] after [Query]: the rows that were read. *)
Fixpoint read_rows {A B : Type} (fails : faults) (k : nat) (f : A → B) (rows : list A) : list B * rows_end :=
  if fails k then ([], NextFailed)
  else
    match rows with
    | [] => ([], AllRows)
    | r :: rows =>
        if fails (S k) then ([], ScanFailed)
        else let (l, e) := read_rows fails (S (S k)) f rows in (f r :: l, e)
    end.

(** Where the caller has no use for rows that come with an error. *)
Definition scan_rows {A B : Type} (fails : faults) (k : nat) (f : A → B) (rows : list A)
  : outcome db_error (list B) :=
  match read_rows fails k f rows with (l, AllRows) => Ok l | _ => Err ErrDB end.

Definition query_rows {A B : Type} (fails : faults) (k : nat) (f : A → B) (rows : list A)
  : outcome db_error (list B) :=
  _ ← driver fails k; scan_rows fails (S k) f rows.

(** ** Strings *)

(** The characters of [unicode.IsSpace], in UTF-8. *)
Definition spaces : list bytes :=
  string_of_rune <$>
    [9; 10; 11; 12; 13; 32; 133; 160; 5760; 8192; 8193; 8194; 8195; 8196; 8197; 8198; 8199; 8200;
     8201; 8202; 8232; 8233; 8239; 8287; 12288].

(** The width of the white-space character that a string starts with, 0 when it starts
    with none. *)
Definition space_width (s : bytes) : nat :=
  default 0%nat (length <$> head (filter (λ p, take (length p) s = p) spaces)).

Definition emit_field (field : bytes) : list bytes := if decide (field = []) then [] else [field].

(** [skip]: bytes left of the white-space character being passed over. *)
Fixpoint fields_from (s : bytes) (skip : nat) (field : bytes) : list bytes :=
  match s with
  | [] => emit_field field
  | b :: r =>
      match skip with
      | S k => fields_from r k field
      | O =>
          match space_width s with
          | O => fields_from r 0 (field ++ [b])
          | S k => emit_field field ++ fields_from r k []
          end
      end
  end.

(** [strings.Fields]. *)
Definition Fields (s : bytes) : list bytes := fields_from s 0 [].

(** ** Operations *)

(** [Time.Unix] and [time.Unix(s, 0)]. *)
Definition unix_of (t : Z) : Z := t / 1000000000.
Definition time_of (s : Z) : Z := s * 1000000000.

(** The statement [insertHash]: the row for a new key, the update on conflict. *)
Definition insert_hash (now : Z) (hc : bytes * Z) (t : gmap bytes hash_row) : gmap bytes hash_row :=
  <[hc.1 := match t !! hc.1 with
            | Some r => mkHashRow (h_req_count r + hc.2) (h_first_seen r) now
            | None => mkHashRow hc.2 now now
            end]> t.

(** A connection: the file, and what the statements of the open transaction have made of
    it. *)
Record connection := mkConnection { cn_file : Storage; cn_txn : option Storage }.

(** [db.Begin()]. *)
Definition tx_begin (fails : faults) (k : nat) (c : connection) : option db_error * connection :=
  if fails k then (Some ErrDB, c) else (None, mkConnection (cn_file c) (Some (cn_file c))).

(** [stmt.Exec]: in the transaction, or on the file when none is open. *)
Definition tx_exec (fails : faults) (k : nat) (f : Storage → Storage) (c : connection) : option db_error * connection :=
  if fails k then (Some ErrDB, c)
  else
    (None, match cn_txn c with
           | Some s => mkConnection (cn_file c) (Some (f s))
           | None => mkConnection (f (cn_file c)) None
           end).

(** [tx.Commit()]: when it fails, the driver ends the transaction without it. *)
Definition tx_commit (fails : faults) (k : nat) (c : connection) : option db_error * connection :=
  if fails k then (Some ErrDB, mkConnection (cn_file c) None)
  else (None, mkConnection (default (cn_file c) (cn_txn c)) None).

(** [tx.Rollback()]: without an open transaction it does nothing. *)
Definition tx_rollback (c : connection) : connection := mkConnection (cn_file c) None.

(** The loop over the batch, up to the first error. *)
Fixpoint exec_hashes (fails : faults) (k : nat) (now : Z) (hashes : list (bytes * Z)) (c : connection)
  : option db_error * connection :=
  match hashes with
  | [] => (None, c)
  | h :: hashes =>
      let (err, c) := tx_exec fails k (λ s, set_hashes (insert_hash now h (st_hashes s)) s) c in
      match err with
      | Some e => (Some e, c)
      | None => exec_hashes fails (S k) now hashes c
      end
  end.

(** The error and what is in the file.  [hashes]: the entries of the map in the order of
    its iteration; [now] in seconds. *)
Definition InsertHashes (fails : faults) (now : Z) (hashes : list (bytes * Z)) (s : Storage)
  : option db_error * Storage :=
  let fails := calls fails s in
  let (err, c) := tx_begin fails 0 (mkConnection s None) in
  match err with
  | Some e => (Some e, cn_file c)
  | None =>
      let (err, c) := exec_hashes fails 1 now hashes c in
      match err with
      | Some e => (Some e, cn_file (tx_rollback c))
      | None =>
          let (err, c) := tx_commit fails (1 + length hashes) c in
          (err, cn_file (tx_rollback c))
      end
  end.

Definition files_column (t : TorrentRecord) : bytes := join (bs " ") (fr_Path <$> tr_Files t).

Definition row_of (t : TorrentRecord) : torrent_row :=
  mkTorrentRow (tr_Name t) (tr_Size t) (files_column t) (tr_FileCount t) (unix_of (tr_CreatedAt t))
    (tr_ReqCount t).

Definition InsertTorrent (fails : faults) (t : TorrentRecord) (s : Storage) : outcome db_error Storage :=
  let fails := calls fails s in
  _ ← driver fails 0;
  Ok (set_torrents (<[tr_InfoHash t := row_of t]> (st_torrents s)) s).

Definition files_of (filesStr : bytes) : list FileRecord :=
  if decide (filesStr = []) then [] else (λ p, mkFileRecord p 0) <$> Fields filesStr.

(** A row as the record, with its files and without. *)
Definition record_of (kr : bytes * torrent_row) : TorrentRecord :=
  mkTorrentRecord kr.1 (t_name kr.2) (t_size kr.2) (files_of (t_files kr.2)) (t_file_count kr.2)
    (time_of (t_created_at kr.2)) (t_req_count kr.2).
Definition bare_record_of (kr : bytes * torrent_row) : TorrentRecord :=
  mkTorrentRecord kr.1 (t_name kr.2) (t_size kr.2) [] (t_file_count kr.2)
    (time_of (t_created_at kr.2)) (t_req_count kr.2).

Definition GetTorrent (fails : faults) (infoHash : bytes) (s : Storage)
  : outcome db_error (option TorrentRecord) :=
  let fails := calls fails s in
  _ ← driver fails 0;
  Ok (match st_torrents s !! infoHash with
      | None => None
      | Some r => Some (record_of (infoHash, r))
      end).

Definition TorrentExists (fails : faults) (infoHash : bytes) (s : Storage) : outcome db_error bool :=
  let fails := calls fails s in
  _ ← driver fails 0;
  Ok (bool_decide (is_Some (st_torrents s !! infoHash))).

Definition DeleteHash (fails : faults) (infoHash : bytes) (s : Storage) : outcome db_error Storage :=
  let fails := calls fails s in
  _ ← driver fails 0;
  Ok (set_hashes (delete infoHash (st_hashes s)) s).

(** The named results: a count that was not read is 0. *)
Definition Stats (fails : faults) (s : Storage) : Z * Z * option db_error :=
  let fails := calls fails s in
  if fails 0%nat then (0, 0, Some ErrDB)
  else if fails 1%nat then (Z.of_nat (size (st_hashes s)), 0, Some ErrDB)
  else (Z.of_nat (size (st_hashes s)), Z.of_nat (size (st_torrents s)), None).

Section queries.
Context `{Engine}.

Definition pending_before (a b : bytes * hash_row) : bool :=
  (h_req_count b.2 <? h_req_count a.2) ||
  ((h_req_count a.2 =? h_req_count b.2) && (h_last_seen b.2 <? h_last_seen a.2)).

(** The rows of [hashes LEFT JOIN torrents WHERE t.info_hash IS NULL]. *)
Definition pending (s : Storage) : list (bytes * hash_row) :=
  filter (λ kr, st_torrents s !! kr.1 = None) (scan _ (st_hashes s)).

Definition hash_record (kr : bytes * hash_row) : HashRecord :=
  mkHashRecord kr.1 (h_req_count kr.2) (time_of (h_first_seen kr.2)) (time_of (h_last_seen kr.2)).

Definition GetPendingHashes (fails : faults) (limit : Z) (s : Storage)
  : outcome db_error (list HashRecord) :=
  let fails := calls fails s in
  query_rows fails 0 hash_record (sql_limit limit 0 (sort_Slice pending_before (pending s))).

Definition matches (query : bytes) (s : Storage) : list (bytes * torrent_row) :=
  let likeQuery := bs "%" ++ query ++ bs "%" in
  filter (λ kr, sql_like (t_name kr.2) likeQuery = true) (scan _ (st_torrents s)).

Definition found_before (a b : bytes * torrent_row) : bool :=
  (t_req_count b.2 <? t_req_count a.2) ||
  ((t_req_count a.2 =? t_req_count b.2) && (t_created_at b.2 <? t_created_at a.2)).

Definition search_result (kr : bytes * torrent_row) : SearchResult :=
  mkSearchResult kr.1 (t_name kr.2) [] (t_size kr.2) (t_file_count kr.2) (t_req_count kr.2).

(** Rows, total and error, as the search functions return them: [rows.Err()] comes with
    the rows read so far. *)
Definition search_end (rows : list SearchResult * rows_end) (total : Z)
  : list SearchResult * Z * option db_error :=
  match rows with
  | (l, AllRows) => (l, total, None)
  | (l, NextFailed) => (l, total, Some ErrDB)
  | (_, ScanFailed) => ([], 0, Some ErrDB)
  end.

Definition searchLike (fails : faults) (k : nat) (query : bytes) (limit offset : Z) (s : Storage)
  : list SearchResult * Z * option db_error :=
  if fails k then ([], 0, Some ErrDB)
  else
    let total := Z.of_nat (length (matches query s)) in
    if fails (S k) then ([], 0, Some ErrDB)
    else
      search_end
        (read_rows fails (S (S k)) search_result
           (sql_limit limit offset (sort_Slice found_before (matches query s)))) total.

(** The first two calls are the full-text ones. *)
Definition Search (fails : faults) (query : bytes) (limit offset : Z) (s : Storage)
  : list SearchResult * Z * option db_error :=
  let fails := calls fails s in
  if negb (st_hasFTS5 s) then searchLike fails 0 query limit offset s
  else
    match (if fails 0%nat then None else fts_count s query) with
    | None => searchLike fails 1 query limit offset s
    | Some total =>
        match (if fails 1%nat then None else fts_rows s query limit offset) with
        | None => searchLike fails 2 query limit offset s
        | Some rows => search_end (read_rows fails 2 id rows) total
        end
    end.

Definition newer (a b : bytes * torrent_row) : bool := t_created_at b.2 <? t_created_at a.2.
Definition more_requested (a b : bytes * torrent_row) : bool := t_req_count b.2 <? t_req_count a.2.

Definition RecentTorrents (fails : faults) (limit : Z) (s : Storage)
  : outcome db_error (list TorrentRecord) :=
  let fails := calls fails s in
  query_rows fails 0 bare_record_of (sql_limit limit 0 (sort_Slice newer (scan _ (st_torrents s)))).

Definition PopularTorrents (fails : faults) (limit : Z) (s : Storage)
  : outcome db_error (list TorrentRecord) :=
  let fails := calls fails s in
  query_rows fails 0 bare_record_of
    (sql_limit limit 0 (sort_Slice more_requested (scan _ (st_torrents s)))).

Definition GetAllTorrents (fails : faults) (limit offset : Z) (s : Storage)
  : outcome db_error (list TorrentRecord) :=
  let fails := calls fails s in
  query_rows fails 0 record_of (sql_limit limit offset (sort_Slice newer (scan _ (st_torrents s)))).
End queries.

(** An engine that visits the rows in the order of their hashed keys and whose [LIKE]
    knows only patterns without inner wildcards, for concrete runs. *)
Fixpoint contains (s sub : bytes) : bool :=
  bool_decide (take (length sub) s = sub) || match s with [] => false | _ :: s => contains s sub end.

#[export] Instance plain_engine : Engine := {
  scan := λ A t, map_to_list t;
  sql_like := λ s pattern, contains s (take (length pattern - 2) (drop 1 pattern));
  fts_count := λ _ _, None;
  fts_rows := λ _ _ _ _, None;
}.

#[export] Instance plain_engine_laws : EngineLaws.
Proof. by intros A t. Qed.

(** ** Ordered queries *)

Section ordered.
Context {A : Type} (less : A → A → bool).
Context `{!Total (not_after less), !Transitive (not_after less)}.

Lemma sort_Slice_split k l x y :
  x ∈ take k (sort_Slice less l) → y ∈ drop k (sort_Slice less l) → less y x = false.
Proof.
  pose proof (StronglySorted_merge_sort (not_after less) l) as Hs. fold (sort_Slice less l) in Hs.
  rewrite <- (take_drop k (sort_Slice less l)) in Hs at 1. intros Hx Hy.
  by apply (StronglySorted_app_1_elem_of _ _ _ _ _ Hs Hx).
Qed.
End ordered.

Lemma sort_Slice_perm {A} (less : A → A → bool) l : sort_Slice less l ≡ₚ l.
Proof. apply merge_sort_Permutation. Qed.

(** Every order of the queries compares tuples of numbers. *)
Ltac tuple_order :=
  intros ?; intros; unfold not_after in *;
  repeat match goal with H : (_ || _) = false |- _ => apply orb_false_iff in H as [? ?] end;
  unfold pending_before, found_before, newer, more_requested in *;
  repeat match goal with H : (_ || _) = false |- _ => apply orb_false_iff in H as [? ?] end;
  repeat match goal with H : (_ && _) = false |- _ => apply andb_false_iff in H end;
  rewrite ?orb_false_iff, ?andb_false_iff, ?Z.ltb_ge, ?Z.eqb_neq in *; lia.

#[export] Instance pending_before_total : Total (not_after pending_before).
Proof. tuple_order. Qed.
#[export] Instance pending_before_trans : Transitive (not_after pending_before).
Proof. tuple_order. Qed.
#[export] Instance found_before_total : Total (not_after found_before).
Proof. tuple_order. Qed.
#[export] Instance found_before_trans : Transitive (not_after found_before).
Proof. tuple_order. Qed.
#[export] Instance newer_total : Total (not_after newer).
Proof. tuple_order. Qed.
#[export] Instance newer_trans : Transitive (not_after newer).
Proof. tuple_order. Qed.

(** ** Discovered hashes *)

Definition req_count (h : bytes) (t : gmap bytes hash_row) : Z :=
  match t !! h with Some r => h_req_count r | None => 0 end.

(** How often [h] is counted in a batch. *)
Definition counted (h : bytes) (hashes : list (bytes * Z)) : Z :=
  foldr Z.add 0 (filter (λ hc, hc.1 = h) hashes).*2.

Lemma counted_cons h hc hashes :
  counted h (hc :: hashes) = (if decide (hc.1 = h) then hc.2 else 0) + counted h hashes.
Proof. unfold counted. rewrite filter_cons. by case_decide. Qed.

Lemma counted_notin h hashes : h ∉ hashes.*1 → counted h hashes = 0.
Proof.
  induction hashes as [|hc hashes IH]; [done|]. cbn [fmap list_fmap]. intros Hin.
  rewrite counted_cons, decide_False, IH by set_solver. done.
Qed.

Definition insert_hashes (now : Z) (hashes : list (bytes * Z)) (t : gmap bytes hash_row) :=
  foldl (λ t h, insert_hash now h t) t hashes.

(** In a transaction only its copy changes. *)
Lemma exec_hashes_spec fails k now hashes file s :
  match exec_hashes fails k now hashes (mkConnection file (Some s)) with
  | (None, c) =>
      c = mkConnection file (Some (set_hashes (insert_hashes now hashes (st_hashes s)) s)) ∧
      ∀ j, (k ≤ j < k + length hashes)%nat → fails j = false
  | (Some _, c) => cn_file c = file ∧ ∃ j, (k ≤ j < k + length hashes)%nat ∧ fails j = true
  end.
Proof.
  revert k s. induction hashes as [|h hashes IH]; intros k s; cbn [exec_hashes].
  { split; [by destruct s|]. cbn. lia. }
  unfold tx_exec. destruct (fails k) eqn:E; cbn [cn_txn cn_file length].
  { split; [done|]. exists k. split; [lia|done]. }
  specialize (IH (S k) (set_hashes (insert_hash now h (st_hashes s)) s)).
  destruct (exec_hashes _ _ _ _ _) as [[e|] c].
  - destruct IH as [? (j & Hj & Hf)]. split; [done|]. exists j. split; [lia|done].
  - destruct IH as [-> IH]. split; [done|]. intros j Hj.
    destruct (decide (j = k)) as [->|]; [done|]. apply IH. lia.
Qed.

Lemma insert_hash_lookup now hc t h :
  insert_hash now hc t !! h =
    if decide (hc.1 = h)
    then Some (mkHashRow (req_count h t + hc.2) (default now (h_first_seen <$> t !! h)) now)
    else t !! h.
Proof.
  unfold insert_hash, req_count. rewrite lookup_insert. case_decide as E; [subst|done].
  by destruct (t !! hc.1).
Qed.

Lemma insert_hashes_lookup now hashes t h :
  insert_hashes now hashes t !! h =
    if decide (h ∈ hashes.*1)
    then Some (mkHashRow (req_count h t + counted h hashes) (default now (h_first_seen <$> t !! h)) now)
    else t !! h.
Proof.
  revert t. induction hashes as [|hc hashes IH]; intros t.
  { cbn. by rewrite decide_False by set_solver. }
  change (insert_hashes now (hc :: hashes) t) with (insert_hashes now hashes (insert_hash now hc t)).
  rewrite IH, counted_cons. unfold req_count at 1. rewrite insert_hash_lookup. cbn [fmap list_fmap].
  destruct (decide (hc.1 = h)) as [->|Hne].
  - rewrite (decide_True (P := h ∈ h :: _)) by set_solver. case_decide as Hin; cbn.
    + f_equal. f_equal. lia.
    + f_equal. f_equal. rewrite counted_notin by done. lia.
  - fold (req_count h t). rewrite Z.add_0_l.
    destruct (decide (h ∈ hashes.*1)); [rewrite decide_True by set_solver; done|].
    by rewrite decide_False by set_solver.
Qed.

Lemma counted_perm h hashes hashes' : hashes ≡ₚ hashes' → counted h hashes = counted h hashes'.
Proof.
  intros H. induction H as [|hc l l' _ IH|a b l|]; rewrite ?counted_cons; [done|lia..|lia].
Qed.

Lemma InsertHashes_spec fails now hashes s :
  match InsertHashes fails now hashes s with
  | (None, s') => s' = set_hashes (insert_hashes now hashes (st_hashes s)) s ∧
      ∀ k, (k ≤ 1 + length hashes)%nat → calls fails s k = false
  | (Some _, s') => s' = s ∧ ∃ k, (k ≤ 1 + length hashes)%nat ∧ calls fails s k = true
  end.
Proof.
  unfold InsertHashes, tx_begin, tx_commit. generalize (calls fails s). clear fails. intros fails.
  destruct (fails 0%nat) eqn:E0.
  { split; [done|]. exists 0%nat. split; [lia|done]. }
  pose proof (exec_hashes_spec fails 1 now hashes s s) as H. cbn [cn_file].
  destruct (exec_hashes _ _ _ _ _) as [[e|] c].
  - destruct H as [H (k & Hk & Hf)]. split; [exact H|]. exists k. split; [lia|done].
  - destruct H as [-> H]. destruct (fails (1 + length hashes)%nat) eqn:E1; cbn.
    + split; [done|]. exists (1 + length hashes)%nat. split; [lia|done].
    + split; [done|]. intros k Hk. destruct k as [|k]; [done|].
      destruct (decide (S k = 1 + length hashes)%nat) as [->|]; [done|]. apply H. lia.
Qed.

Lemma calls_open fails s k : calls fails s k = false → st_open s = true.
Proof. unfold calls. by destruct (st_open s). Qed.

Lemma InsertHashes_open now hashes s :
  st_open s = true → InsertHashes no_faults now hashes s = (None, set_hashes (insert_hashes now hashes (st_hashes s)) s).
Proof.
  intros Ho. pose proof (InsertHashes_spec no_faults now hashes s) as H.
  destruct (InsertHashes _ _ _ _) as [[e|] s']; [|by destruct H as [-> _]].
  destruct H as [_ (k & _ & Hk)]. unfold calls in Hk. by rewrite Ho in Hk.
Qed.

(** After [Close] nothing is read or written. *)
Lemma closed_refuses s :
  st_open s = false →
  (∀ fails now hashes, InsertHashes fails now hashes s = (Some ErrDB, s)) ∧
  (∀ fails t, InsertTorrent fails t s = Err ErrDB) ∧
  (∀ fails h, GetTorrent fails h s = Err ErrDB) ∧
  (∀ fails h, TorrentExists fails h s = Err ErrDB) ∧
  (∀ fails h, DeleteHash fails h s = Err ErrDB) ∧
  (∀ fails, Stats fails s = (0, 0, Some ErrDB)).
Proof.
  intros Ho. unfold InsertHashes, tx_begin, InsertTorrent, GetTorrent, TorrentExists, DeleteHash, Stats, calls. by rewrite Ho.
Qed.

(** C13: a batch of discovered hashes is all or nothing. When no call to the driver fails,
    each hash's count grows by what the batch counts, the time it was first seen stays
    (or is the batch's for a new hash), the time it was last seen is the batch's, and
    nothing else changes, whatever the order the map is iterated in. When a call fails, the
    first, one in the middle of the batch or the commit, as all do on a closed database,
    the error is returned and the database is as it was before. *)
Theorem InsertHashes_correct fails now hashes s :
  let (err, s') := InsertHashes fails now hashes s in
  match err with
  | None =>
      (∀ k, (k ≤ 1 + length hashes)%nat → calls fails s k = false) ∧
      (∀ h, st_hashes s' !! h =
         if decide (h ∈ hashes.*1)
         then Some (mkHashRow (req_count h (st_hashes s) + counted h hashes)
                      (default now (h_first_seen <$> st_hashes s !! h)) now)
         else st_hashes s !! h) ∧
      st_torrents s' = st_torrents s ∧
      ∀ fails' hashes' s'', hashes' ≡ₚ hashes → InsertHashes fails' now hashes' s = (None, s'') → s'' = s'
  | Some _ => s' = s ∧ ∃ k, (k ≤ 1 + length hashes)%nat ∧ calls fails s k = true
  end.
Proof.
  pose proof (InsertHashes_spec fails now hashes s) as H.
  destruct (InsertHashes fails now hashes s) as [[e|] s']; [exact H|]. destruct H as [-> Hk].
  split_and!; [done|intros h; apply insert_hashes_lookup|done|].
  intros fails' hashes' s'' Hp Hs. pose proof (InsertHashes_spec fails' now hashes' s) as H.
  rewrite Hs in H. destruct H as [-> _]. unfold set_hashes. f_equal.
  apply map_eq. intros h. rewrite !insert_hashes_lookup, (counted_perm h hashes' hashes) by done.
  destruct (decide (h ∈ hashes.*1)) as [Hin|Hin].
  - rewrite decide_True; [done|]. by rewrite Hp.
  - rewrite decide_False; [done|]. by rewrite Hp.
Qed.

(** ** Torrents *)

(** A non-empty string without white space. *)
Definition word (w : bytes) : Prop := w ≠ [] ∧ ∀ i, space_width (drop i w) = 0%nat.

Lemma spaces_spec p : p ∈ spaces → p ≠ [] ∧ x20 ∉ tail p.
Proof.
  assert (Forall (λ p, p ≠ [] ∧ x20 ∉ tail p) spaces) as H.
  { apply (bool_decide_unpack _). vm_compute. exact I. }
  rewrite Forall_forall in H. apply H.
Qed.

Lemma space_width_blank r : space_width (x20 :: r) = 1%nat.
Proof. vm_compute. reflexivity. Qed.

(** Nothing that starts in a string runs over the blank that follows it. *)
Lemma space_before_blank s r p :
  s ≠ [] → p ∈ spaces → take (length p) (s ++ x20 :: r) = p ↔ take (length p) s = p.
Proof.
  intros Hs Hp. destruct (spaces_spec p Hp) as [Hp0 Hb].
  destruct (decide (length p ≤ length s)%nat); [by rewrite take_app_le|].
  split; intros Ht; exfalso.
  - apply Hb. rewrite take_app_ge in Ht by lia. rewrite <- Ht.
    destruct s as [|c s]; [done|]. cbn [length] in *. cbn [tail app].
    destruct (length p - S (length s))%nat eqn:E; [lia|].
    apply elem_of_app. right. rewrite firstn_cons. apply list_elem_of_here.
  - apply (f_equal length) in Ht. rewrite length_take in Ht. lia.
Qed.

Lemma space_width_before_blank s r : s ≠ [] → space_width (s ++ x20 :: r) = space_width s.
Proof.
  intros Hs. unfold space_width. do 3 f_equal.
  assert (∀ l, l ⊆ spaces → filter (λ p, take (length p) (s ++ x20 :: r) = p) l = filter (λ p, take (length p) s = p) l) as H.
  { induction l as [|p l IH]; [done|]. intros Hl. pose proof (space_before_blank s r p Hs ltac:(set_solver)) as Hp.
    rewrite !filter_cons, IH by set_solver. destruct (decide (take (length p) s = p)) as [E|E].
    - by rewrite decide_True by by apply Hp.
    - by rewrite decide_False by by rewrite Hp. }
  by apply H.
Qed.

Lemma space_width_bound s : (space_width s ≤ length s)%nat.
Proof.
  unfold space_width. destruct (filter _ spaces) as [|q l] eqn:E; cbn; [lia|].
  assert (q ∈ filter (λ p, take (length p) s = p) spaces) as [Hq _]%list_elem_of_filter
    by (rewrite E; apply list_elem_of_here).
  apply (f_equal length) in Hq. rewrite length_take in Hq. lia.
Qed.

(** A blank ends what stands before it, whatever that is. *)
Lemma fields_from_blank w r skip field :
  (skip ≤ length w)%nat →
  fields_from (w ++ x20 :: r) skip field = fields_from w skip field ++ fields_from r 0 [].
Proof.
  revert skip field. induction w as [|b w IH]; intros skip field Hk.
  - cbn in Hk. assert (skip = 0%nat) as -> by lia. cbn [app fields_from]. by rewrite space_width_blank.
  - cbn [app fields_from length] in *. destruct skip as [|k]; [|by apply IH; lia].
    pose proof (space_width_before_blank (b :: w) r ltac:(done)) as E. cbn [app] in E. rewrite E. clear E.
    pose proof (space_width_bound (b :: w)) as Hb. cbn [length] in Hb.
    destruct (space_width (b :: w)) as [|k]; [by apply IH; lia|].
    by rewrite IH, app_assoc by lia.
Qed.

Lemma Fields_join ws : Fields (join (bs " ") ws) = concat (Fields <$> ws).
Proof.
  unfold Fields. induction ws as [|w [|v ws] IH]; [done|cbn; by rewrite app_nil_r|].
  cbn [join] in *. change (bs " ") with [x20] in *. cbn [app fmap list_fmap concat] in *.
  rewrite fields_from_blank by lia. by rewrite IH.
Qed.

Lemma fields_from_word w field :
  (∀ i, space_width (drop i w) = 0%nat) → fields_from w 0 field = emit_field (field ++ w).
Proof.
  revert field. induction w as [|b w IH]; intros field Hw.
  - cbn [fields_from]. by rewrite app_nil_r.
  - pose proof (Hw 0%nat) as H0. rewrite drop_0 in H0. cbn [fields_from]. rewrite H0.
    rewrite (IH (field ++ [b]) (λ i, Hw (S i))). by rewrite <- app_assoc.
Qed.

Lemma Fields_word w : word w → Fields w = [w].
Proof.
  intros [Hw0 Hw]. unfold Fields. rewrite (fields_from_word w [] Hw). unfold emit_field. by rewrite decide_False.
Qed.

Definition with_files (files : list FileRecord) (createdAt : Z) (t : TorrentRecord) : TorrentRecord :=
  mkTorrentRecord (tr_InfoHash t) (tr_Name t) (tr_Size t) files (tr_FileCount t) createdAt (tr_ReqCount t).

Definition to_second (t : Z) : Z := t - t mod 1000000000.

Definition spaced_torrent : TorrentRecord :=
  mkTorrentRecord (bs "h") (bs "name") 7 [mkFileRecord (bs "my file.txt") 7] 1 0 1.

(** C33: what is read back of a stored torrent, while the database is open. The record of
    the hash is replaced as a whole and no other; its name, size, file count and request
    count come back as they were, the creation time to the second. Of the files only the
    pieces of the paths between white space come back, in order, each as a file of its own
    without a size. So the paths that are single words come back as they were; a single
    file [my file.txt] comes back as two files, against a file count of one. *)
Theorem torrent_roundtrip t s :
  st_open s = true →
  ∃ s', InsertTorrent no_faults t s = Ok s' ∧ st_hashes s' = st_hashes s ∧
    TorrentExists no_faults (tr_InfoHash t) s' = Ok true ∧
    (∀ h, h ≠ tr_InfoHash t → GetTorrent no_faults h s' = GetTorrent no_faults h s) ∧
    GetTorrent no_faults (tr_InfoHash t) s' =
      Ok (Some (with_files (files_of (files_column t)) (to_second (tr_CreatedAt t)) t)) ∧
    files_of (files_column t) = (λ p, mkFileRecord p 0) <$> concat (Fields <$> (fr_Path <$> tr_Files t)) ∧
    (Forall word (fr_Path <$> tr_Files t) →
       files_of (files_column t) = (λ f, mkFileRecord (fr_Path f) 0) <$> tr_Files t) ∧
    tr_FileCount spaced_torrent = 1 ∧
    files_of (files_column spaced_torrent) = [mkFileRecord (bs "my") 0; mkFileRecord (bs "file.txt") 0].
Proof.
  destruct s as [hashes torrents fts o]. cbn. intros ->. eexists. split; [done|].
  assert (files_of (files_column t) = (λ p, mkFileRecord p 0) <$> concat (Fields <$> (fr_Path <$> tr_Files t))) as Hf.
  { unfold files_of, files_column. rewrite <- Fields_join. case_decide as E; [by rewrite E|done]. }
  split_and!.
  - done.
  - unfold TorrentExists. cbn. by rewrite lookup_insert_eq, bool_decide_eq_true_2.
  - intros h Hh. unfold GetTorrent. cbn. by rewrite lookup_insert_ne.
  - unfold GetTorrent, record_of. cbn. rewrite lookup_insert_eq. cbn. repeat f_equal.
    unfold with_files, time_of, unix_of, to_second. f_equal. pose proof (Z.div_mod (tr_CreatedAt t) 1000000000). lia.
  - exact Hf.
  - intros Hw. rewrite Hf. clear Hf. induction (tr_Files t) as [|f fs IH]; [done|]. cbn in *.
    apply Forall_cons_1 in Hw as [Hw Hws]. rewrite (Fields_word _ Hw), fmap_app, IH by done. done.
  - done.
  - vm_compute. reflexivity.
Qed.

Lemma torrent_roundtrip_witness : ∃ s',
  InsertTorrent no_faults spaced_torrent (mkStorage ∅ ∅ false true) = Ok s' ∧
  GetTorrent no_faults (bs "h") s' = Ok (Some (with_files (files_of (bs "my file.txt")) 0 spaced_torrent)).
Proof.
  destruct (torrent_roundtrip spaced_torrent (mkStorage ∅ ∅ false true) eq_refl) as (s' & H1 & _ & _ & _ & H2 & _).
  exists s'. split; [exact H1|exact H2].
Defined.

(** ** Queries *)

Section queries_spec.
Context `{EngineLaws}.
Implicit Types s : Storage.

Lemma read_rows_ok {A B : Type} k (f : A → B) rows : read_rows no_faults k f rows = (f <$> rows, AllRows).
Proof. revert k. induction rows as [|r rows IH]; intros k; [done|]. cbn. by rewrite IH. Qed.

Lemma query_rows_ok {A B : Type} k (f : A → B) rows : query_rows no_faults k f rows = Ok (f <$> rows).
Proof. unfold query_rows, scan_rows. by rewrite read_rows_ok. Qed.

Lemma scan_elem {A : Type} (t : gmap bytes A) k r : (k, r) ∈ scan A t ↔ t !! k = Some r.
Proof. by rewrite scan_perm, elem_of_map_to_list. Qed.

Lemma scan_NoDup {A : Type} (t : gmap bytes A) : NoDup (scan A t).*1.
Proof. rewrite scan_perm. apply NoDup_fst_map_to_list. Qed.

Lemma elem_of_take_inv {A : Type} k (l : list A) x : x ∈ take k l → x ∈ l.
Proof. intros H1. eapply elem_of_sublist; [exact H1|apply sublist_take]. Qed.

Definition is_pending s (h : bytes) (r : hash_row) : Prop :=
  st_hashes s !! h = Some r ∧ st_torrents s !! h = None.

Lemma pending_elem s h r : (h, r) ∈ pending s ↔ is_pending s h r.
Proof. unfold pending, is_pending. rewrite list_elem_of_filter, scan_elem. cbn. naive_solver. Qed.

Lemma sql_limit_take {A : Type} limit (l : list A) : 0 ≤ limit → sql_limit limit 0 l = take (Z.to_nat limit) l.
Proof. intros Hl. unfold sql_limit. rewrite drop_0. destruct (Z.ltb_spec limit 0); [lia|done]. Qed.

(** C26: the pending hashes that are loaded are the most requested ones. For a limit
    that is not negative and an open database, each is a hash without a torrent, with
    the counts and times of its row, no hash twice; there are as many as the limit
    allows; and a pending hash left out is not more requested than one that is loaded,
    nor as requested and seen more recently, whatever the order SQLite takes ties in. *)
Theorem GetPendingHashes_correct limit s :
  0 ≤ limit → st_open s = true →
  ∃ l, GetPendingHashes no_faults limit s = Ok l ∧
    NoDup (hr_InfoHash <$> l) ∧
    length l = Nat.min (Z.to_nat limit) (length (pending s)) ∧
    (∀ r, r ∈ l → ∃ row, is_pending s (hr_InfoHash r) row ∧ r = hash_record (hr_InfoHash r, row)) ∧
    (∀ h row, is_pending s h row → h ∉ hr_InfoHash <$> l →
       ∀ r row', r ∈ l → is_pending s (hr_InfoHash r) row' →
         h_req_count row < h_req_count row' ∨
         (h_req_count row = h_req_count row' ∧ h_last_seen row ≤ h_last_seen row')).
Proof.
  intros Hl Ho. unfold GetPendingHashes, calls. rewrite Ho, query_rows_ok, sql_limit_take by done.
  set (all := sort_Slice pending_before (pending s)).
  assert (all ≡ₚ pending s) as Hp by apply sort_Slice_perm.
  assert (∀ h r, (h, r) ∈ all ↔ is_pending s h r) as Hin by (intros; by rewrite Hp, pending_elem).
  assert ((hr_InfoHash <$> (hash_record <$> take (Z.to_nat limit) all)) = take (Z.to_nat limit) all.*1) as Hf.
  { by rewrite <- fmap_take, <- list_fmap_compose. }
  assert (NoDup all.*1) as Hnd.
  { rewrite Hp. unfold pending. eapply sublist_NoDup; [apply (scan_NoDup (st_hashes s))|].
    apply fmap_sublist, sublist_filter. }
  eexists. split; [done|]. split_and!.
  - rewrite Hf. eapply sublist_NoDup; [exact Hnd|]. apply sublist_take.
  - by rewrite length_fmap, length_take, Hp.
  - intros r ([h row] & -> & Hr)%list_elem_of_fmap. exists row. cbn. split; [|done].
    apply Hin. by eapply elem_of_take_inv.
  - intros h row Hh Hout r row' ([h' row''] & -> & Hr)%list_elem_of_fmap Hrow. cbn in Hrow.
    assert (row'' = row') as ->.
    { assert ((h', row'') ∈ all) as [E _]%Hin by (by eapply elem_of_take_inv). destruct Hrow. congruence. }
    assert ((h, row) ∈ drop (Z.to_nat limit) all) as Hd.
    { apply Hin in Hh. rewrite <- (take_drop (Z.to_nat limit) all), elem_of_app in Hh.
      destruct Hh as [Hh|]; [|done]. exfalso. apply Hout. rewrite Hf, <- fmap_take.
      apply list_elem_of_fmap. by exists (h, row). }
    pose proof (sort_Slice_split pending_before _ _ _ _ Hr Hd) as Hb. unfold pending_before in Hb. cbn in Hb.
    rewrite orb_false_iff, andb_false_iff, !Z.ltb_ge, Z.eqb_neq in Hb. lia.
Qed.

(** What a search can return: the torrents whose name matches, the most requested first,
    and of these the newest first. *)
Definition found (query : bytes) s : list (bytes * torrent_row) :=
  sort_Slice found_before (matches query s).

Lemma searchLike_ok k query limit offset s :
  searchLike no_faults k query limit offset s =
    (search_result <$> sql_limit limit offset (found query s), Z.of_nat (length (found query s)), None).
Proof.
  unfold searchLike, search_end. cbn [no_faults]. rewrite read_rows_ok.
  assert (length (found query s) = length (matches query s)) as -> by (unfold found; by rewrite sort_Slice_perm).
  done.
Qed.

(** The pages of a list, and how many there are. *)
Definition page_of {A : Type} (perPage : nat) (p : nat) (l : list A) : list A :=
  take perPage (drop (p * perPage) l).

Lemma pages_concat {A : Type} perPage n (l : list A) :
  concat ((λ p, page_of perPage p l) <$> seq 0 n) = take (n * perPage) l.
Proof.
  induction n as [|n IH]; [done|]. rewrite seq_S, fmap_app, concat_app, IH. cbn.
  unfold page_of. rewrite app_nil_r, take_take_drop. f_equal. lia.
Qed.

(** The pages of a list, as many as it takes, are the list; only the last can be short. *)
Lemma pages_tile {A : Type} perPage (l : list A) :
  (0 < perPage)%nat →
  let n := ((length l + perPage - 1) `div` perPage)%nat in
  concat ((λ p, page_of perPage p l) <$> seq 0 n) = l ∧
  (∀ p, p < n → page_of perPage p l ≠ [] ∧ (S p < n → length (page_of perPage p l) = perPage))%nat ∧
  (∀ p, n ≤ p → page_of perPage p l = [])%nat.
Proof.
  intros Hp n. pose proof (Nat.div_mod (length l + perPage - 1) perPage ltac:(lia)) as Hd.
  pose proof (Nat.mod_upper_bound (length l + perPage - 1) perPage ltac:(lia)) as Hm. fold n in Hd.
  assert (length l ≤ n * perPage)%nat as Hle by lia.
  assert (∀ p, p < n → p * perPage < length l)%nat as Hlt.
  { intros p Hpn. assert (S p * perPage ≤ n * perPage)%nat by (apply Nat.mul_le_mono_r; lia). lia. }
  assert (∀ p, length (page_of perPage p l) = Nat.min perPage (length l - p * perPage)) as Hlen.
  { intros p. unfold page_of. by rewrite length_take, length_drop. }
  split_and!.
  - by rewrite pages_concat, take_ge.
  - intros p Hpn. pose proof (Hlt p Hpn). split.
    + intros E%(f_equal length). rewrite Hlen in E. cbn in E. lia.
    + intros Hpn'. pose proof (Hlt (S p) Hpn'). rewrite Hlen. lia.
  - intros p Hpn. apply nil_length_inv. rewrite Hlen.
    assert (n * perPage ≤ p * perPage)%nat by (apply Nat.mul_le_mono_r; lia). lia.
Qed.

(** One page of a search, without the full-text index. *)
Lemma Search_page query perPage offset s :
  st_hasFTS5 s = false → st_open s = true →
  Search no_faults query (Z.of_nat perPage) offset s =
    (search_result <$> take perPage (drop (Z.to_nat offset) (found query s)), Z.of_nat (length (found query s)), None).
Proof.
  intros Hf Ho. unfold Search, calls. rewrite Hf, Ho. cbn [negb]. rewrite searchLike_ok. unfold sql_limit.
  rewrite Nat2Z.id. destruct (Z.ltb_spec (Z.of_nat perPage) 0); [lia|done].
Qed.

Lemma found_NoDup query s : NoDup (found query s).*1.
Proof.
  unfold found. rewrite sort_Slice_perm. unfold matches.
  eapply sublist_NoDup; [apply (scan_NoDup (st_torrents s))|]. apply fmap_sublist, sublist_filter.
Qed.

Lemma found_elem query s h r :
  (h, r) ∈ found query s ↔ st_torrents s !! h = Some r ∧ sql_like (t_name r) (bs "%" ++ query ++ bs "%") = true.
Proof.
  unfold found. rewrite sort_Slice_perm. unfold matches.
  rewrite list_elem_of_filter, scan_elem. cbn. naive_solver.
Qed.

Lemma found_sorted query s i j a b :
  found query s !! i = Some a → found query s !! j = Some b → (i < j)%nat → found_before b a = false.
Proof.
  intros Ha Hb Hij. apply (sort_Slice_split found_before (S i) (matches query s)).
  - apply elem_of_take. exists i. split; [done|lia].
  - apply list_elem_of_lookup. exists (j - S i)%nat. rewrite lookup_drop.
    by replace (S i + (j - S i))%nat with j by lia.
Qed.
End queries_spec.

Definition sample_storage : Storage :=
  mkStorage {[bs "a" := mkHashRow 3 1 2; bs "b" := mkHashRow 5 1 2; bs "c" := mkHashRow 3 1 9]}
    {[bs "b" := mkTorrentRow (bs "a name") 1 [] 1 5 1; bs "d" := mkTorrentRow (bs "names") 1 [] 1 6 2;
      bs "e" := mkTorrentRow (bs "other") 1 [] 1 6 2]} false true.

Lemma GetPendingHashes_correct_witness :
  0 ≤ 1 ∧ ∃ l, GetPendingHashes no_faults 1 sample_storage = Ok l ∧
    l = [mkHashRecord (bs "c") 3 1000000000 9000000000] ∧ NoDup (hr_InfoHash <$> l).
Proof.
  split; [lia|].
  destruct (GetPendingHashes_correct 1 sample_storage ltac:(lia) eq_refl) as (l & Hl & Hn & _).
  exists l. split; [exact Hl|]. split; [|exact Hn]. vm_compute in Hl. injection Hl as <-. reflexivity.
Defined.
