(* ===== verification/Schema.v ===== *)
(** * Opening the database: [New], [initSchema], [prepareStatements] and [Close] of [internal/storage/sqlite.go]

    The file is the tables, indexes and triggers it holds; a statement of the schema is a
    constructor with the meaning of its SQL.  Every call to the driver can fail: [fails]
    has a number for each of them.  What depends on how SQLite was built is the interface
    [Build]. *)

From S2P Require Import Prelude GoStd Net Storage.

(** ** The file *)

Record file := mkFile {
  f_hashes : option (gmap bytes hash_row);
  f_torrents : option (gmap bytes torrent_row);
  f_stats : bool;
  f_indexes : gset bytes;
  f_fts : bool;                (* the virtual table torrents_fts *)
  f_triggers : gset bytes;
}.

Definition new_file : file := mkFile None None false ∅ false ∅.

Class Build := {
  fts5_listed : bool;          (* pragma_compile_options names FTS5 *)
  fts5_module : bool;          (* the module with its trigram tokenizer *)
}.

Inductive table := THashes | TTorrents.

Inductive statement :=
  | CreateHashes | CreateTorrents | CreateStats
  | CreateIndex (name : bytes) (t : table)
  | CreateFts | SelectFts | DropFts
  | CreateTrigger (name : bytes).

Definition has_table (t : table) (f : file) : bool :=
  match t with
  | THashes => match f_hashes f with Some _ => true | None => false end
  | TTorrents => match f_torrents f with Some _ => true | None => false end
  end.

Section build.
Context `{Build}.

(** All are [IF NOT EXISTS].  A virtual table can only be read or dropped with its module;
    a trigger can be created on what its statements name without it. *)
Definition exec_statement (st : statement) (f : file) : option file :=
  match f with
  | mkFile hs ts stats idx fts trg =>
      match st with
      | CreateHashes => Some (mkFile (Some (default ∅ hs)) ts stats idx fts trg)
      | CreateTorrents => Some (mkFile hs (Some (default ∅ ts)) stats idx fts trg)
      | CreateStats => Some (mkFile hs ts true idx fts trg)
      | CreateIndex name t => if has_table t f then Some (mkFile hs ts stats ({[name]} ∪ idx) fts trg) else None
      | CreateFts => if fts || fts5_module then Some (mkFile hs ts stats idx true trg) else None
      | SelectFts => if fts && fts5_module then Some f else None
      | DropFts => if fts && negb fts5_module then None else Some (mkFile hs ts stats idx false trg)
      | CreateTrigger name => if has_table TTorrents f then Some (mkFile hs ts stats idx fts ({[name]} ∪ trg)) else None
      end
  end.

(** [db.Exec] of several statements: those before the one that fails stay. *)
Fixpoint Exec (fails : faults) (k : nat) (sts : list statement) (f : file) : file * option db_error :=
  match sts with
  | [] => (f, None)
  | st :: sts =>
      if fails k then (f, Some ErrDB)
      else match exec_statement st f with Some f => Exec fails (S k) sts f | None => (f, Some ErrDB) end
  end.

Definition coreSchema : list statement :=
  [CreateHashes; CreateIndex (bs "idx_hashes_last_seen") THashes;
   CreateTorrents; CreateIndex (bs "idx_torrents_name") TTorrents; CreateIndex (bs "idx_torrents_created") TTorrents;
   CreateStats].
Definition ftsSchema : list statement := [CreateFts].
Definition triggers : list statement :=
  CreateTrigger <$> [bs "torrents_ai"; bs "torrents_ad"; bs "torrents_au"].

(** The statements that [New] prepares. *)
Inductive prepared := InsertHash | InsertTorrent | GetTorrent | HashExists.

(** An insertion into [torrents] compiles its trigger too: the virtual table that this
    writes to must be there, with its module. *)
Definition trigger_compiles (f : file) : bool :=
  negb (bool_decide (bs "torrents_ai" ∈ f_triggers f)) || (f_fts f && fts5_module).

Definition compiles (st : prepared) (f : file) : bool :=
  match st with
  | InsertHash => has_table THashes f
  | InsertTorrent => has_table TTorrents f && trigger_compiles f
  | GetTorrent | HashExists => has_table TTorrents f
  end.

(** ** Handles

    The fields of the source's [Storage]: a statement is there or nil. *)
Record handle := mkHandle {
  hd_db : file;
  hd_open : bool;
  hd_hasFTS5 : bool;
  hd_insertHash : bool;
  hd_insertTorrent : bool;
  hd_getTorrent : bool;
  hd_hashExists : bool;
}.

Definition on_db (run : file → file * option db_error) (h : handle) : handle * option db_error :=
  let (f, e) := run (hd_db h) in
  (mkHandle f (hd_open h) (hd_hasFTS5 h) (hd_insertHash h) (hd_insertTorrent h) (hd_getTorrent h) (hd_hashExists h), e).

Definition set_hasFTS5 (b : bool) (h : handle) : handle :=
  mkHandle (hd_db h) (hd_open h) b (hd_insertHash h) (hd_insertTorrent h) (hd_getTorrent h) (hd_hashExists h).

Context (fails : faults).

(** Without the index the search falls back to [LIKE]: three returns without an error. *)
Definition initSchema (h : handle) : handle * option db_error :=
  match on_db (Exec fails 1 coreSchema) h with
  | (h, Some e) => (h, Some e)
  | (h, None) =>
      if fails 10%nat || negb fts5_listed then (set_hasFTS5 false h, None)
      else
        match on_db (Exec fails 11 ftsSchema) h with
        | (h, Some _) => (set_hasFTS5 false h, None)
        | (h, None) =>
            match on_db (Exec fails 12 [SelectFts]) h with
            | (h, Some _) => ((on_db (Exec fails 13 [DropFts]) (set_hasFTS5 false h)).1, None)
            | (h, None) => on_db (Exec fails 14 triggers) (set_hasFTS5 true h)
            end
        end
  end.

(** A statement is compiled when it is prepared. *)
Definition Prepare (k : nat) (st : prepared) (h : handle) : bool := negb (fails k) && compiles st (hd_db h).

Definition prepareStatements (h : handle) : handle * option db_error :=
  let set a b c d := mkHandle (hd_db h) (hd_open h) (hd_hasFTS5 h) a b c d in
  if negb (Prepare 20 InsertHash h) then (set false false false false, Some ErrDB)
  else if negb (Prepare 21 InsertTorrent h) then (set true false false false, Some ErrDB)
  else if negb (Prepare 22 GetTorrent h) then (set true true false false, Some ErrDB)
  else if negb (Prepare 23 HashExists h) then (set true true true false, Some ErrDB)
  else (set true true true true, None).

(** Closes the statements that are there, then the connection; the error is that of the
    connection. *)
Definition db_Close (h : handle) : handle :=
  mkHandle (hd_db h) false (hd_hasFTS5 h) (hd_insertHash h) (hd_insertTorrent h) (hd_getTorrent h) (hd_hashExists h).

Definition Close (h : handle) : handle * option db_error :=
  (db_Close (mkHandle (hd_db h) (hd_open h) (hd_hasFTS5 h) false false false false),
   if fails 30%nat then Some ErrDB else None).

(** What the operations of [Storage.v] see through a handle. *)
Definition storage_of (h : handle) : Storage :=
  mkStorage (default ∅ (f_hashes (hd_db h))) (default ∅ (f_torrents (hd_db h))) (hd_hasFTS5 h) (hd_open h).

(** The handle as it is left, and the result; an error comes with the connection closed. *)
Definition New (f : file) : handle * option db_error :=
  let h := mkHandle f true false false false false false in
  if fails 0%nat then (db_Close h, Some ErrDB)
  else
    match initSchema h with
    | (h, Some e) => (db_Close h, Some e)
    | (h, None) =>
        match prepareStatements h with
        | (h, Some e) => (db_Close h, Some e)
        | (h, None) => (h, None)
        end
    end.
End build.

(** ** What opening does *)

(** The rows; a table that is not there yet has none. *)
Definition rows (f : file) : gmap bytes hash_row * gmap bytes torrent_row :=
  (default ∅ (f_hashes f), default ∅ (f_torrents f)).

Definition index_names : gset bytes := {[bs "idx_hashes_last_seen"; bs "idx_torrents_name"; bs "idx_torrents_created"]}.
Definition trigger_names : gset bytes := {[bs "torrents_ai"; bs "torrents_ad"; bs "torrents_au"]}.

Definition complete (f : file) : Prop :=
  has_table THashes f = true ∧ has_table TTorrents f = true ∧ f_stats f = true ∧ index_names ⊆ f_indexes f.

Section opening.
Context `{Build}.

Lemma exec_statement_rows st f f' : exec_statement st f = Some f' → rows f' = rows f.
Proof. destruct f as [[] [] [] ? [] ?], st; cbn [exec_statement]; intros; repeat case_match; simplify_eq/=; done. Qed.

Lemma exec_statement_complete st f f' : exec_statement st f = Some f' → complete f → complete f'.
Proof.
  destruct f as [hs ts stats idx fts trg], st as [| | |n []| | | |n]; cbn [exec_statement]; intros;
    repeat case_match; simplify_eq; unfold complete in *; cbn in *; destruct_and!; split_and!; try done; set_solver.
Qed.

(** What every statement keeps, a list of them keeps. *)
Lemma Exec_keeps (P : file → Prop) fails k sts f f' e :
  (∀ st g g', st ∈ sts → exec_statement st g = Some g' → P g → P g') → Exec fails k sts f = (f', e) → P f → P f'.
Proof.
  revert k f. induction sts as [|st sts IH]; intros k f Hst; cbn [Exec]; [by intros [= <- _]|].
  destruct (fails k); [by intros [= <- _]|]. destruct (exec_statement st f) as [g|] eqn:E; [|by intros [= <- _]].
  intros He Hf. eapply IH; [|exact He|].
  - intros st' x y Hin. apply Hst. by apply list_elem_of_further.
  - eapply Hst; [apply list_elem_of_here|exact E|exact Hf].
Qed.

Lemma Exec_rows fails k sts f f' e : Exec fails k sts f = (f', e) → rows f' = rows f.
Proof.
  intros He. apply (Exec_keeps (λ g, rows g = rows f) fails k sts f f' e); [|done..].
  intros st g g' _ Hg <-. by eapply exec_statement_rows.
Qed.

Lemma Exec_complete fails k sts f f' e : Exec fails k sts f = (f', e) → complete f → complete f'.
Proof. intros He. apply (Exec_keeps complete fails k sts f f' e); [|done]. intros st g g' _. apply exec_statement_complete. Qed.

(** Both schemas hold what they create when they end without an error. *)
Lemma core_complete fails k f f' : Exec fails k coreSchema f = (f', None) → complete f'.
Proof.
  destruct f as [hs ts stats idx fts trg]. cbn [Exec coreSchema].
  do 6 (destruct (fails _); [done|]; cbn [exec_statement has_table f_hashes f_torrents]). intros [= <-]. unfold complete, index_names. cbn. split_and!; try done. set_solver.
Qed.

Lemma triggers_complete fails k f f' : Exec fails k triggers f = (f', None) →
  trigger_names ⊆ f_triggers f' ∧ f_fts f' = f_fts f.
Proof.
  destruct f as [hs [ts|] stats idx fts trg]; cbn [Exec triggers fmap list_fmap];
    do 3 (destruct (fails _); [done|]; cbn [exec_statement has_table f_torrents]; try done). intros [= <-]. unfold trigger_names. cbn. split; [set_solver|done].
Qed.

Lemma on_db_inv run h h' e : on_db run h = (h', e) →
  run (hd_db h) = (hd_db h', e) ∧ hd_open h' = hd_open h ∧ hd_hasFTS5 h' = hd_hasFTS5 h.
Proof. unfold on_db. destruct (run (hd_db h)) as [f e']. by intros [= <- <-]. Qed.

(** The index is in use when its table works and all triggers are there. *)
Definition indexed (f : file) : Prop := f_fts f = true ∧ fts5_module = true ∧ trigger_names ⊆ f_triggers f.

Lemma initSchema_spec fails h h' e :
  initSchema fails h = (h', e) →
  rows (hd_db h') = rows (hd_db h) ∧ hd_open h' = hd_open h ∧
  (e = None → complete (hd_db h') ∧ (hd_hasFTS5 h' = true → indexed (hd_db h'))).
Proof.
  unfold initSchema. destruct (on_db (Exec fails 1 coreSchema) h) as [h1 e1] eqn:E1.
  apply on_db_inv in E1 as (E1 & O1 & _). pose proof (Exec_rows _ _ _ _ _ _ E1) as R1.
  destruct e1; [by intros [= <- <-]|]. apply core_complete in E1 as C1.
  case_match; [by intros [= <- <-]|].
  destruct (on_db (Exec fails 11 ftsSchema) h1) as [h2 e2] eqn:E2. apply on_db_inv in E2 as (E2 & O2 & _).
  pose proof (Exec_rows _ _ _ _ _ _ E2) as R2. pose proof (Exec_complete _ _ _ _ _ _ E2 C1) as C2.
  destruct e2; [intros [= <- <-]; cbn; split_and!; [congruence..|done]|].
  destruct (on_db (Exec fails 12 [SelectFts]) h2) as [h3 e3] eqn:E3. apply on_db_inv in E3 as (E3 & O3 & _).
  pose proof (Exec_rows _ _ _ _ _ _ E3) as R3. pose proof (Exec_complete _ _ _ _ _ _ E3 C2) as C3.
  destruct e3.
  - destruct (on_db (Exec fails 13 [DropFts]) (set_hasFTS5 false h3)) as [h4 e4] eqn:E4.
    apply on_db_inv in E4 as (E4 & O4 & F4). pose proof (Exec_rows _ _ _ _ _ _ E4) as R4.
    pose proof (Exec_complete _ _ _ _ _ _ E4 C3) as C4. intros [= <- <-]. cbn [set_hasFTS5 hd_db hd_open hd_hasFTS5] in *.
    split_and!; [congruence..|]. intros _. split; [done|congruence].
  - intros E4. apply on_db_inv in E4 as (E4 & O4 & _). cbn [set_hasFTS5 hd_db hd_open hd_hasFTS5] in *. pose proof (Exec_rows _ _ _ _ _ _ E4) as R4.
    split_and!; [congruence..|]. intros ->. split; [by eapply Exec_complete|]. intros _.
    apply triggers_complete in E4 as [Ht Hf]. unfold indexed. rewrite Hf. revert E3. cbn [Exec].
    destruct (fails 12%nat); [done|]. destruct (hd_db h2) as [hs ts st idx fts trg]. cbn [exec_statement].
    destruct fts, fts5_module eqn:Hm; try done. cbn. intros [= <-]. done.
Qed.

Lemma prepareStatements_spec fails h h' e :
  prepareStatements fails h = (h', e) →
  hd_db h' = hd_db h ∧ hd_open h' = hd_open h ∧ hd_hasFTS5 h' = hd_hasFTS5 h ∧
  (e = None → hd_insertHash h' && hd_insertTorrent h' && hd_getTorrent h' && hd_hashExists h' = true ∧
     trigger_compiles (hd_db h) = true).
Proof.
  unfold prepareStatements. destruct (Prepare fails 20 InsertHash h); [|by intros [= <- <-]].
  destruct (Prepare fails 21 InsertTorrent h) eqn:E; [|by intros [= <- <-]]. unfold Prepare, compiles in E.
  apply andb_true_iff in E as [_ [_ E]%andb_true_iff]. repeat case_match; by intros [= <- <-].
Qed.

(** Without failures: the schema is completed, and the index is used where SQLite has it; a
    table of the index without its module can neither be created nor dropped. *)
Definition ready (f : file) : file :=
  let (hs, ts) := rows f in
  let idx := index_names ∪ f_indexes f in
  if fts5_listed && fts5_module then mkFile (Some hs) (Some ts) true idx true (trigger_names ∪ f_triggers f)
  else mkFile (Some hs) (Some ts) true idx (f_fts f) (f_triggers f).

(** Whether the insertion of a torrent can be prepared then. *)
Definition can_open (f : file) : bool := fts5_listed && fts5_module || trigger_compiles f.

Lemma initSchema_ready f :
  initSchema no_faults (mkHandle f true false false false false false) =
    (mkHandle (ready f) true (fts5_listed && fts5_module) false false false false, None).
Proof.
  assert (∀ x y z (s : gset bytes), {[z]} ∪ ({[y]} ∪ ({[x]} ∪ s)) = {[x; y; z]} ∪ s) as Hset by (intros; set_solver).
  destruct f as [hs ts stats idx fts trg]. unfold ready, index_names, trigger_names. rewrite <- !Hset.
  unfold initSchema. destruct fts5_listed; [|reflexivity].
  unfold on_db, Exec, ftsSchema, exec_statement, coreSchema. cbn [no_faults].
  destruct fts5_module, fts; reflexivity.
Qed.

Lemma trigger_compiles_ready f : trigger_compiles (ready f) = can_open f.
Proof.
  unfold can_open, trigger_compiles, ready. destruct (rows f) as [hs ts].
  destruct fts5_listed, fts5_module; cbn; by rewrite ?orb_true_r.
Qed.

Lemma New_ready f :
  New no_faults f =
    if can_open f then (mkHandle (ready f) true (fts5_listed && fts5_module) true true true true, None)
    else (mkHandle (ready f) false (fts5_listed && fts5_module) true false false false, Some ErrDB).
Proof.
  unfold New. cbn [no_faults]. rewrite initSchema_ready. unfold prepareStatements, Prepare, compiles. cbn [hd_db no_faults negb andb].
  assert (has_table THashes (ready f) = true ∧ has_table TTorrents (ready f) = true) as [-> ->].
  { unfold ready. destruct (rows f) as [hs ts]. by destruct (fts5_listed && fts5_module). }
  rewrite trigger_compiles_ready. by destruct (can_open f).
Qed.

Lemma ready_ready f : ready (ready f) = ready f.
Proof.
  unfold ready. destruct (rows f) as [hs ts]. destruct (fts5_listed && fts5_module); cbn; f_equal; set_solver.
Qed.

Lemma exec_statement_trigger st f f' name :
  exec_statement st f = Some f' → name ∈ f_triggers f → name ∈ f_triggers f'.
Proof.
  destruct f as [hs ts stats idx fts trg], st; cbn [exec_statement]; intros; repeat case_match; simplify_eq/=; set_solver.
Qed.

(** What every statement keeps, opening keeps. *)
Lemma New_keeps (P : file → Prop) fails f h e :
  (∀ st g g', exec_statement st g = Some g' → P g → P g') → New fails f = (h, e) → P f → P (hd_db h).
Proof.
  intros Hst HN Hf. assert (∀ k sts g g' e', on_db (Exec fails k sts) g = (g', e') → P (hd_db g) → P (hd_db g')) as Hon.
  { intros k sts g g' e' [He _]%on_db_inv Hg. eapply (Exec_keeps P); [|exact He|exact Hg]. intros st x y _. apply Hst. }
  revert HN. unfold New. destruct (fails 0%nat); [by intros [= <- _]|].
  destruct (initSchema fails _) as [h1 e1] eqn:E1. enough (P (hd_db h1)) as H1.
  { destruct e1; [by intros [= <- _]|]. destruct (prepareStatements fails h1) as [h2 [e2|]] eqn:E2;
      apply prepareStatements_spec in E2 as (D2 & _); intros [= <- _]; cbn; by rewrite D2. }
  revert E1. unfold initSchema. destruct (on_db (Exec fails 1 coreSchema) _) as [g1 [x1|]] eqn:G1;
    pose proof (Hon _ _ _ _ _ G1 Hf) as P1; [by intros [= <- _]|].
  case_match; [by intros [= <- _]|]. destruct (on_db (Exec fails 11 ftsSchema) g1) as [g2 [x2|]] eqn:G2;
    pose proof (Hon _ _ _ _ _ G2 P1) as P2; [by intros [= <- _]|].
  destruct (on_db (Exec fails 12 [SelectFts]) g2) as [g3 [x3|]] eqn:G3; pose proof (Hon _ _ _ _ _ G3 P2) as P3.
  - destruct (on_db (Exec fails 13 [DropFts]) (set_hasFTS5 false g3)) as [g4 x4] eqn:G4.
    intros [= <- _]. exact (Hon _ _ _ _ _ G4 P3).
  - intros G4. exact (Hon _ _ _ _ _ G4 P3).
Qed.

(** C25: opening the database loses nothing and never half succeeds. Whatever the file holds
    and whichever calls fail, the rows of both tables stay as they are. When [New] succeeds
    the schema is complete, the four statements are prepared, the insertion of a torrent with
    its trigger among them, and the full-text index is used only if it works and all its
    triggers exist; when it fails the connection is closed. Without failures it succeeds just
    when SQLite has the index, or the file has no trigger that writes to an index SQLite
    cannot use; then the index is used just where SQLite has it, and opening the file again
    leaves it as it is. *)
Theorem New_correct fails f h e :
  New fails f = (h, e) →
  rows (hd_db h) = rows f ∧
  match e with
  | None =>
      hd_open h = true ∧ complete (hd_db h) ∧ (hd_hasFTS5 h = true → indexed (hd_db h)) ∧
      hd_insertHash h && hd_insertTorrent h && hd_getTorrent h && hd_hashExists h = true ∧
      trigger_compiles (hd_db h) = true ∧
      storage_of h = mkStorage (rows f).1 (rows f).2 (hd_hasFTS5 h) true
  | Some _ => hd_open h = false
  end ∧
  ((∀ k, fails k = false) →
   (e = None ↔ fts5_listed && fts5_module || trigger_compiles f = true) ∧
   (e = None → hd_hasFTS5 h = fts5_listed && fts5_module ∧
    ∃ h', New no_faults (hd_db h) = (h', None) ∧ hd_db h' = hd_db h)).
Proof.
  intros HN. assert (rows (hd_db h) = rows f ∧ match e with
    | None => hd_open h = true ∧ complete (hd_db h) ∧ (hd_hasFTS5 h = true → indexed (hd_db h)) ∧
        hd_insertHash h && hd_insertTorrent h && hd_getTorrent h && hd_hashExists h = true ∧
        trigger_compiles (hd_db h) = true
    | Some _ => hd_open h = false end) as [Hr He].
  { revert HN. unfold New. destruct (fails 0%nat); [by intros [= <- <-]|].
    destruct (initSchema fails _) as [h1 [e1|]] eqn:E1; apply initSchema_spec in E1 as (R1 & O1 & C1);
      [by intros [= <- <-]|]. cbn in R1, O1. destruct (C1 eq_refl) as [C2 I2].
    destruct (prepareStatements fails h1) as [h2 [e2|]] eqn:E2;
      apply prepareStatements_spec in E2 as (D2 & O2 & F2 & P2); intros [= <- <-]; cbn; rewrite D2; [done|].
    rewrite O2, F2. destruct (P2 eq_refl). by split_and!. }
  split_and!; [done| |].
  - destruct e; [done|]. destruct He as (Ho & ? & ? & ? & ?). split_and!; [done..|]. unfold storage_of. by rewrite Ho, <- Hr.
  - intros Hf. assert (New fails f = New no_faults f) as HE.
    { unfold New, initSchema, prepareStatements, Prepare, on_db, coreSchema, ftsSchema, triggers. cbn [Exec fmap list_fmap].
      rewrite !Hf. reflexivity. }
    rewrite HE, New_ready in HN. fold (can_open f). destruct (can_open f) eqn:Hc; injection HN as <- <-; [|done].
    split; [done|]. intros _. split; [done|]. eexists. split.
    + cbn [hd_db]. rewrite New_ready, ready_ready. unfold can_open at 1. rewrite trigger_compiles_ready, Hc, orb_true_r.
      reflexivity.
    + done.
Qed.

(** C34: the fallback without FTS5 does not open every database. A file that was opened once
    by a program with FTS5 keeps the triggers on its table of torrents. A program without
    FTS5 finds no index and falls back to LIKE, without an error; but the insertion of a
    torrent cannot be compiled with the trigger, so that [New] fails, whatever the calls do,
    with the connection closed; the rows and the trigger stay, and so does the next attempt
    fail. *)
Theorem stale_triggers_refuse fails f :
  fts5_module = false → bs "torrents_ai" ∈ f_triggers f →
  (∃ h, initSchema no_faults (mkHandle f true false false false false false) = (h, None) ∧ hd_hasFTS5 h = false) ∧
  ∃ h, New fails f = (h, Some ErrDB) ∧ hd_open h = false ∧ rows (hd_db h) = rows f ∧
    bs "torrents_ai" ∈ f_triggers (hd_db h).
Proof.
  intros Hm Ht. split; [rewrite initSchema_ready, Hm, andb_false_r; by eexists|].
  destruct (New fails f) as [h e] eqn:E. pose proof (New_correct _ _ _ _ E) as (Hr & He & _).
  assert (bs "torrents_ai" ∈ f_triggers (hd_db h)) as Ht'.
  { eapply (New_keeps (λ g, bs "torrents_ai" ∈ f_triggers g)); [intros st g g'; apply exec_statement_trigger|exact E|exact Ht]. }
  exists h. destruct e as [[]|]; [done|]. destruct He as (_ & _ & _ & _ & Hc & _).
  unfold trigger_compiles in Hc. by rewrite bool_decide_true, Hm, andb_false_r in Hc.
Qed.
End opening.

Definition with_fts5 : Build := {| fts5_listed := true; fts5_module := true |}.
Definition without_fts5 : Build := {| fts5_listed := false; fts5_module := false |}.

Lemma stale_triggers_refuse_witness :
  let f := hd_db (@New with_fts5 no_faults new_file).1 in
  ∃ h, @New without_fts5 no_faults f = (h, Some ErrDB) ∧ hd_open h = false ∧ bs "torrents_ai" ∈ f_triggers (hd_db h).
Proof.
  intros f. destruct (@stale_triggers_refuse without_fts5 no_faults f) as (_ & h & H1 & H2 & _ & H3).
  - reflexivity.
  - unfold f. rewrite (@New_ready with_fts5). apply elem_of_union_l. apply (bool_decide_unpack _). vm_compute. exact I.
  - exists h. split; [exact H1|]. split; [exact H2|exact H3].
Defined.

Lemma New_correct_witness :
  let f := mkFile (Some {[bs "aa" := mkHashRow 3 1 2]}) None false ∅ false ∅ in
  ∃ h, @New with_fts5 (λ k, bool_decide (k = 12)%nat) f = (h, None) ∧
    rows (hd_db h) = rows f ∧ hd_hasFTS5 h = false ∧ complete (hd_db h).
Proof.
  set (f := mkFile _ _ _ _ _ _).
  destruct (@New with_fts5 (λ k, bool_decide (k = 12)%nat) f) as [h e] eqn:E.
  destruct (@New_correct with_fts5 _ f h e E) as (Hr & He & _).
  assert (e = None ∧ hd_hasFTS5 h = false) as [-> Hf] by (by injection E as <- <-).
  destruct He as (_ & Hc & _). exists h. by split_and!.
Defined.
