(* ===== verification/Cache.v ===== *)
(** * The hash cache: [HashCache] of [internal/crawler/cache.go]

    The cache counts the hashes the events bring and writes them to the database in
    batches.  Its goroutines see the cache, the database and the clock; every section
    under the mutex, every update of a counter and every call to the database is a section
    of its own. *)

From S2P Require Import Prelude GoStd Conc Credit Progress Storage.

Record cacheItem := mkCacheItem { ci_count : Z; ci_firstSeen : Z }.

Record HashCache := mkHashCache {
  hc_items : gmap bytes cacheItem;
  hc_maxSize : Z;
  hc_totalAdded : Z;
  hc_totalFlushed : Z;
}.

Definition NewHashCache (maxSize : Z) : HashCache := mkHashCache ∅ maxSize 0 0.

Record CacheWorld := mkCacheWorld {
  cw_cache : HashCache;
  cw_db : Storage;
  cw_now : Z;               (* nanoseconds *)
}.

Definition set_items (m : gmap bytes cacheItem) (w : CacheWorld) : CacheWorld :=
  let c := cw_cache w in
  mkCacheWorld (mkHashCache m (hc_maxSize c) (hc_totalAdded c) (hc_totalFlushed c)) (cw_db w) (cw_now w).
Definition count_totals (added flushed : Z) (w : CacheWorld) : CacheWorld :=
  let c := cw_cache w in
  mkCacheWorld
    (mkHashCache (hc_items c) (hc_maxSize c) (wrapU 64 (hc_totalAdded c + added))
       (wrapU 64 (hc_totalFlushed c + flushed))) (cw_db w) (cw_now w).
Definition set_db (s : Storage) (w : CacheWorld) : CacheWorld := mkCacheWorld (cw_cache w) s (cw_now w).
Definition set_clock (t : Z) (w : CacheWorld) : CacheWorld := mkCacheWorld (cw_cache w) (cw_db w) t.

(** ** Flush *)

(** [items := c.items; c.items = make(...)], unless it is empty. *)
Definition take_items (w : CacheWorld) : gmap bytes cacheItem * CacheWorld :=
  let items := hc_items (cw_cache w) in
  if decide (size items = 0%nat) then (∅, w) else (items, set_items ∅ w).

(** What a batch can meet: no failure, or a failure of one of its calls. *)
Definition batch_faults (n : nat) : list faults :=
  no_faults :: ((λ j k, bool_decide (k = j)) <$> seq 0 (2 + n)).

(** [c.storage.InsertHashes(hashes)]; the order of the iteration makes no difference. *)
Definition db_InsertHashes (hashes : gmap bytes Z) : prog CacheWorld (option db_error) :=
  Select (λ w,
    (λ fails,
      let (err, s) := InsertHashes fails (unix_of (cw_now w)) (map_to_list hashes) (cw_db w) in
      Ok (err, set_db s w)) <$> batch_faults (size hashes)) Ret.

(** One turn of the loop that puts the items back. *)
Definition put_back_item (items : gmap bytes cacheItem) (hi : bytes * cacheItem) : gmap bytes cacheItem :=
  match items !! hi.1 with
  | Some existing =>
      <[hi.1 := mkCacheItem (wrapS 64 (ci_count existing + ci_count hi.2)) (ci_firstSeen existing)]> items
  | None => <[hi.1 := hi.2]> items
  end.

Definition put_back (items : gmap bytes cacheItem) (w : CacheWorld) : CacheWorld :=
  set_items (foldl put_back_item (hc_items (cw_cache w)) (map_to_list items)) w.

Definition Flush : prog CacheWorld (option db_error) :=
  items ← update take_items;
  if decide (size items = 0%nat) then Ret None
  else
    let hashes := ci_count <$> items in
    _ ← modify (count_totals 0 (Z.of_nat (size hashes)));
    err ← db_InsertHashes hashes;
    match err with
    | Some e => _ ← modify (put_back items); Ret (Some e)
    | None => Ret None
    end.

(** ** The other operations *)

(** The section of [Add]; its result is [shouldFlush]. *)
Definition add_item (infoHash : bytes) (w : CacheWorld) : bool * CacheWorld :=
  let items := hc_items (cw_cache w) in
  let items :=
    match items !! infoHash with
    | Some item => <[infoHash := mkCacheItem (wrapS 64 (ci_count item + 1)) (ci_firstSeen item)]> items
    | None => <[infoHash := mkCacheItem 1 (cw_now w)]> items
    end in
  (hc_maxSize (cw_cache w) <=? Z.of_nat (size items), set_items items w).

Definition Add (infoHash : bytes) : prog CacheWorld unit :=
  shouldFlush ← update (add_item infoHash);
  _ ← modify (count_totals 1 0);
  if shouldFlush : bool then _ ← Flush; Ret tt else Ret tt.

Definition Size : prog CacheWorld nat := gets (λ w, size (hc_items (cw_cache w))).

Definition Stats : prog CacheWorld (Z * Z * nat) :=
  currentSize ← gets (λ w, size (hc_items (cw_cache w)));
  added ← gets (λ w, hc_totalAdded (cw_cache w));
  flushed ← gets (λ w, hc_totalFlushed (cw_cache w));
  Ret (added, flushed, currentSize).

(** The ticks received before the context ends, then the last flush. *)
Definition StartFlusher (ticks : nat) : prog CacheWorld unit :=
  _ ← for_each (seq 0 ticks) (λ _, _ ← Flush; Ret tt);
  _ ← Flush; Ret tt.

(** ** Nothing is lost *)

Definition item_count (h : bytes) (items : gmap bytes cacheItem) : Z :=
  match items !! h with Some i => ci_count i | None => 0 end.

Definition cached (h : bytes) (w : CacheWorld) : Z := item_count h (hc_items (cw_cache w)).
Definition stored (h : bytes) (w : CacheWorld) : Z := req_count h (st_hashes (cw_db w)).

Definition merge_item (cur new : option cacheItem) : option cacheItem :=
  match cur, new with
  | Some e, Some i => Some (mkCacheItem (wrapS 64 (ci_count e + ci_count i)) (ci_firstSeen e))
  | None, Some i => Some i
  | _, None => cur
  end.

Lemma put_back_lookup h items cur :
  foldl put_back_item cur (map_to_list items) !! h = merge_item (cur !! h) (items !! h).
Proof.
  rewrite <- (list_to_map_to_list items) at 2. pose proof (NoDup_fst_map_to_list items) as Hnd. revert cur Hnd.
  induction (map_to_list items) as [|[x i] l IH]; intros cur Hnd.
  { cbn. rewrite lookup_empty. by destruct (cur !! h). }
  cbn [fmap list_fmap] in Hnd. apply NoDup_cons in Hnd as [Hx Hnd]. cbn [foldl list_to_map foldr fst snd].
  rewrite IH by done. unfold put_back_item. cbn [fst snd]. destruct (decide (x = h)) as [->|Hne].
  - rewrite lookup_insert_eq. rewrite (not_elem_of_list_to_map_1 _ h) by done.
    destruct (cur !! h); cbn; by rewrite lookup_insert_eq.
  - rewrite (lookup_insert_ne _ x h) by done. by destruct (cur !! x); rewrite lookup_insert_ne.
Qed.

Section conservation.
Context (h : bytes) (C : Z).

(** [n]: the times [h] is counted outside the cache and the database, by the goroutines
    that are to add it or are flushing it. *)
Definition conserved (n : nat) (w : CacheWorld) : Prop :=
  cached h w + stored h w + Z.of_nat n = C ∧ 0 ≤ cached h w ∧ 0 ≤ stored h w ∧ C ≤ max_int64.

Abbreviation keeps p r Q := (owes conserved (λ _, False) (λ _ _, False) (λ m, m = 0%nat) p r Q).

Definition adds (hs : list bytes) : nat := length (filter (λ x, x = h) hs).

Lemma adds_cons x hs : adds (x :: hs) = (one_if h x + adds hs)%nat.
Proof. unfold adds, one_if. rewrite filter_cons. by case_decide. Qed.

Lemma item_count_insert x i items :
  item_count h (<[x := i]> items) = if decide (x = h) then ci_count i else item_count h items.
Proof. unfold item_count. rewrite lookup_insert. case_decide; [by subst|done]. Qed.

Lemma put_back_count items cur :
  0 ≤ item_count h cur → 0 ≤ item_count h items → item_count h cur + item_count h items ≤ max_int64 →
  item_count h (foldl put_back_item cur (map_to_list items)) = item_count h cur + item_count h items.
Proof.
  unfold item_count. rewrite put_back_lookup. intros Hc Hi Hm.
  destruct (cur !! h), (items !! h); cbn in *; try lia. apply wrapS_id; [lia|]. unfold max_int64 in Hm. cbn. lia.
Qed.

Lemma counted_map (items : gmap bytes cacheItem) :
  counted h (map_to_list (ci_count <$> items)) = item_count h items.
Proof.
  set (m := ci_count <$> items). assert (item_count h items = default 0 (m !! h)) as ->.
  { unfold item_count, m. rewrite lookup_fmap. by destruct (items !! h). }
  clearbody m. induction m as [|k x m Hk IH] using map_ind.
  { by rewrite map_to_list_empty, lookup_empty. }
  rewrite (counted_perm h _ _ (map_to_list_insert m k x Hk)), counted_cons, lookup_insert. cbn [fst snd].
  case_decide as E; [|rewrite IH; done]. subst. rewrite counted_notin; [cbn; lia|].
  intros ([x' i] & E & Hx)%list_elem_of_fmap. cbn in E. subst. apply elem_of_map_to_list in Hx. congruence.
Qed.

(** ** The goroutines of the cache *)

Lemma keeps_count_totals a f r : keeps (modify (count_totals a f)) r (λ _ r', r' = r).
Proof. by apply (owes_modify _ _ _ _ _ _ r). Qed.

Lemma InsertHashes_stored fails now hashes s s' :
  InsertHashes fails now hashes s = (None, s') →
  req_count h (st_hashes s') = req_count h (st_hashes s) + counted h hashes.
Proof.
  intros H. pose proof (InsertHashes_spec fails now hashes s) as HI. rewrite H in HI. destruct HI as [-> _].
  unfold req_count at 1. cbn. rewrite insert_hashes_lookup. case_decide as Hin; cbn; [done|].
  rewrite counted_notin by done. unfold req_count. lia.
Qed.

Lemma keeps_Flush r : keeps Flush r (λ _ r', r' = r).
Proof.
  unfold Flush. eapply owes_bind with (Q := (λ items r', r' = (r + Z.to_nat (item_count h items))%nat ∧
    0 ≤ item_count h items)).
  { apply owes_update. intros w fr (HC & H1 & H2 & H3). unfold take_items. case_decide as E; cbn [fst snd].
    - exists r. split; [done|]. by rewrite Nat.add_0_r.
    - exists (r + Z.to_nat (cached h w))%nat. split; [|done]. unfold conserved, cached, stored in *. cbn.
      unfold item_count at 1 3. rewrite lookup_empty. lia. }
  intros items r' [-> Hi]. case_decide as E.
  { apply map_size_empty_iff in E as ->. cbn. unfold item_count. rewrite lookup_empty. by rewrite Nat.add_0_r. }
  eapply owes_bind; [apply keeps_count_totals|]. intros _ ? ->.
  eapply owes_bind with (Q := (λ (err : option db_error) r',
    r' = (r + match err with Some _ => Z.to_nat (item_count h items) | None => 0 end)%nat)).
  { apply owes_select; [done|]. intros w fr o (HC & H1 & H2 & H3) (fails & -> & _)%list_elem_of_fmap.
    pose proof (InsertHashes_spec fails (unix_of (cw_now w)) (map_to_list (ci_count <$> items)) (cw_db w)) as HI.
    destruct (InsertHashes _ _ _ _) as [[e|] s'] eqn:Es.
    - destruct HI as [-> _]. eexists. split; [|done]. done.
    - exists r. split; [|by rewrite Nat.add_0_r]. apply InsertHashes_stored in Es. rewrite counted_map in Es.
      unfold conserved, cached, stored in *. cbn. rewrite Es. lia. }
  intros [e|] ? ->.
  - eapply owes_bind with (Q := λ _ r', r' = r); [|by intros _ ? ->].
    eapply owes_modify; [|done]. intros w fr (HC & H1 & H2 & H3).
    unfold conserved, cached, stored in *. cbn. rewrite put_back_count by lia. lia.
  - cbn. lia.
Qed.

Lemma keeps_Add x r : keeps (Add x) (one_if h x + r)%nat (λ _ r', r' = r).
Proof.
  unfold Add, one_if. eapply owes_bind with (Q := (λ _ r', r' = r)).
  { apply owes_update. intros w fr (HC & H1 & H2 & H3). exists r. split; [|done].
    unfold add_item, conserved, cached, stored in *. cbn.
    destruct (hc_items (cw_cache w) !! x) eqn:E; rewrite item_count_insert; case_decide; cbn [ci_count];
      subst; unfold item_count in *; rewrite ?E in *; try lia.
    rewrite wrapS_id; [lia..|]. unfold max_int64 in *. cbn. lia. }
  intros should ? ->.
  eapply owes_bind; [apply keeps_count_totals|]. intros _ ? ->.
  destruct should; [|done]. eapply owes_bind; [apply keeps_Flush|]. by intros _ ? ->.
Qed.

Lemma keeps_StartFlusher n r : keeps (StartFlusher n) r (λ _ r', r' = r).
Proof.
  unfold StartFlusher. eapply owes_bind.
  { apply (owes_for_each _ _ _ _ (λ _, r)). intros _ _. eapply owes_bind; [apply keeps_Flush|]. by intros _ ? ->. }
  intros _ ? ->. eapply owes_bind; [apply keeps_Flush|]. by intros _ ? ->.
Qed.
End conservation.

Inductive clock_step : config CacheWorld → config CacheWorld → Prop :=
  | clock_tick w pool t : clock_step (w, pool) (set_clock t w, pool).

(** The goroutines: [clients] are the hashes that each adds, in order, and [flushers] the
    ticks of the background flushers. *)
Definition cache_goroutines (clients : list (list bytes)) (flushers : list nat) : list (prog CacheWorld unit) :=
  ((λ hs, for_each hs Add) <$> clients) ++ (StartFlusher <$> flushers).

Lemma cache_pool_owes h C clients flushers w :
  conserved h C (adds h (concat clients)) w →
  pool_owes (conserved h C) (λ _, False) (λ _ _, False) (λ r, r = 0%nat) (w, cache_goroutines clients flushers).
Proof.
  intros HI. apply (pool_owes_intro _ _ _ _ _ _ ((adds h <$> clients) ++ replicate (length flushers) 0%nat)).
  - apply Forall2_app.
    + apply Forall2_fmap, Forall_Forall2_diag, Forall_forall. intros hs _.
      eapply owes_mono; [apply (owes_for_each _ _ _ _ (adds h))|by intros _ r ->].
      intros x l. rewrite adds_cons. apply keeps_Add.
    + clear HI. induction flushers as [|n ns IH]; constructor; [|exact IH].
      eapply owes_mono; [apply keeps_StartFlusher|]. done.
  - rewrite u_total_app.
    assert (∀ k, u_total (replicate k 0%nat) = 0%nat) as -> by (by induction k).
    cbn [u_add nat_units]. rewrite Nat.add_0_r.
    assert (u_total (adds h <$> clients) = adds h (concat clients)) as ->; [|done].
    clear HI. induction clients as [|hs cs IH]; [done|].
    change (u_total (adds h <$> hs :: cs)) with (adds h hs + u_total (adds h <$> cs))%nat.
    rewrite IH. cbn [concat]. unfold adds.
    by rewrite filter_app, length_app.
Qed.

Lemma cache_settled h C w pool :
  pool_owes (conserved h C) (λ _, False) (λ _ _, False) (λ r, r = 0%nat) (w, pool) → finished pool →
  cached h w + stored h w = C.
Proof.
  intros Hp Hf. destruct (pool_owes_finished _ _ _ _ _ _ Hp Hf) as (rs & Hz & H1 & _).
  assert (u_total rs = 0%nat) as E by (clear H1; induction Hz as [|x l -> _ IH]; [done|exact IH]). lia.
Qed.

(** C8: no discovery is lost or counted twice. Take any goroutines that add hashes, any
    number of background flushers, any interleaving of their sections, and any failures of
    the database. At every moment the count of a hash in the cache and the database is at
    most the initial one and the additions; when all the goroutines have ended it is
    exactly that, a batch whose insertion failed being back in the cache. (The counts are
    taken to stay within an [int64].) *)
Theorem counts_conserved clients flushers w w' pool h :
  0 ≤ cached h w → 0 ≤ stored h w →
  cached h w + stored h w + Z.of_nat (adds h (concat clients)) ≤ max_int64 →
  rtc (λ c c', cstep c c' ∨ clock_step c c') (w, cache_goroutines clients flushers) (w', pool) →
  (cached h w' + stored h w' ≤ cached h w + stored h w + Z.of_nat (adds h (concat clients)) ∧
   0 ≤ cached h w' ∧ 0 ≤ stored h w') ∧
  (finished pool →
   cached h w' + stored h w' = cached h w + stored h w + Z.of_nat (adds h (concat clients))) ∧
  ∀ p, ¬ cpanics (w', pool) p.
Proof.
  intros Hc Hs Hm Hr. set (C := cached h w + stored h w + _) in *.
  destruct (reachable_owes (conserved h C) (λ _, False) (λ _ _, False) (λ r, r = 0%nat) clock_step
    (w, cache_goroutines clients flushers) (w', pool)) as [Hp Hn].
  - intros c c' [] (rs & H1 & H2). by exists rs.
  - apply cache_pool_owes. by unfold conserved, C.
  - exact Hr.
  - split; [|split; [|exact Hn]].
    + destruct Hp as (rs & _ & H1 & H2 & H3 & _). cbn in *. lia.
    + intros Hf. by apply (cache_settled h C w' pool).
Qed.

Definition sample_cache : CacheWorld := mkCacheWorld (NewHashCache 2) (mkStorage ∅ ∅ false true) 5000000000.

(** Two goroutines that add the same hash, one after the other. *)
Lemma counts_conserved_witness :
  ∃ w' pool, rtc (λ c c', cstep c c' ∨ clock_step c c')
      (sample_cache, cache_goroutines [[bs "a"]; [bs "a"]] []) (w', pool) ∧
    finished pool ∧ cached (bs "a") w' + stored (bs "a") w' = 0 + 0 + 2.
Proof.
  set (w1 := ran (Add (bs "a")) sample_cache). set (w2 := ran (Add (bs "a")) w1).
  destruct (run_ran (Add (bs "a")) sample_cache) as [[] E1]; [vm_compute; reflexivity|].
  destruct (run_ran (Add (bs "a")) w1) as [[] E2]; [vm_compute; reflexivity|].
  destruct (run_reachable _ _ _ _ E1 (λ _, Ret tt)
    (cache_goroutines [[bs "a"]; [bs "a"]] []) 0 eq_refl) as [n1 H1].
  destruct (run_reachable _ _ _ _ E2 (λ _, Ret tt)
    (<[0%nat := Ret tt]> (cache_goroutines [[bs "a"]; [bs "a"]] []) ++ replicate n1 (Ret tt)) 1) as [n2 H2].
  { rewrite lookup_app_l, list_lookup_insert_ne by (cbn; lia). reflexivity. }
  eassert (rtc (λ c c', cstep c c' ∨ clock_step c c')
    (sample_cache, cache_goroutines [[bs "a"]; [bs "a"]] []) (w2, _)) as Hr.
  { eapply (rtc_subrel cstep); [by left|]. etrans; [exact H1|exact H2]. }
  eexists w2, _. split; [exact Hr|].
  match goal with |- finished ?p ∧ _ => assert (finished p) as Hf end.
  { constructor; [done|]. constructor; [done|]. apply Forall_app; split; by apply Forall_replicate. }
  split; [exact Hf|].
  apply (counts_conserved [[bs "a"]; [bs "a"]] [] sample_cache w2 _ (bs "a")
    ltac:(vm_compute; discriminate) ltac:(vm_compute; discriminate) ltac:(vm_compute; discriminate) Hr).
  exact Hf.
Defined.

(** ** One flush *)

Lemma put_back_taken w c f :
  put_back (hc_items (cw_cache w)) (count_totals c f (set_items ∅ w)) = count_totals c f w.
Proof.
  unfold put_back, set_items, count_totals. cbn. do 2 f_equal. apply map_eq. intros h.
  rewrite put_back_lookup, lookup_empty. by destruct (hc_items (cw_cache w) !! h).
Qed.

(** what a flush that runs alone does. An empty cache stays as it is. Otherwise either
    the batch is in the database and the cache is empty, or a call to the database failed
    and nothing has changed but [totalFlushed], which counts the batch as flushed in both
    cases. *)
Theorem Flush_correct w o :
  o ∈ outcomes Flush w →
  let items := hc_items (cw_cache w) in
  let flushed := count_totals 0 (Z.of_nat (size items)) in
  if decide (size items = 0%nat) then o = Ok (None, w)
  else
    (∃ s, InsertHashes no_faults (unix_of (cw_now w)) (map_to_list (ci_count <$> items)) (cw_db w) = (None, s) ∧
       o = Ok (None, set_db s (flushed (set_items ∅ w)))) ∨
    o = Ok (Some ErrDB, flushed w).
Proof.
  intros Ho items flushed. unfold Flush in Ho.
  rewrite outcomes_update in Ho. unfold take_items in Ho. fold items in Ho. destruct (decide (size items = 0%nat)) as [E|E];
    cbn [fst snd] in Ho.
  { rewrite decide_True in Ho by apply map_size_empty. by apply list_elem_of_singleton in Ho. }
  rewrite decide_False, outcomes_modify, map_size_fmap in Ho by done. fold (flushed (set_items ∅ w)) in Ho.
  apply outcomes_bind_elem in Ho as (o1 & Ho1 & Ho).
  unfold db_InsertHashes in Ho1. cbn [outcomes] in Ho1.
  apply elem_of_concat in Ho1 as (l & (o2 & -> & (fails & -> & _)%list_elem_of_fmap)%list_elem_of_fmap & Hl).
  change (cw_now (flushed (set_items ∅ w))) with (cw_now w) in *.
  change (cw_db (flushed (set_items ∅ w))) with (cw_db w) in *.
  pose proof (InsertHashes_spec fails (unix_of (cw_now w)) (map_to_list (ci_count <$> items)) (cw_db w)) as HI.
  destruct (InsertHashes fails _ _ _) as [[[]|] s] eqn:Es;
    apply list_elem_of_singleton in Hl as ->; cbn in Ho; apply list_elem_of_singleton in Ho as ->.
  - right. destruct HI as [-> _]. unfold items, flushed. by rewrite <- (put_back_taken w 0).
  - left. exists s. split; [|done].
    destruct HI as [-> HI]. apply InsertHashes_open, (calls_open fails _ 0%nat), HI. lia.
Qed.

(** A flush after the database was closed: the batch goes back to the cache, whose content
    ends with the process. *)
Theorem Flush_closed w o :
  st_open (cw_db w) = false → hc_items (cw_cache w) ≠ ∅ → o ∈ outcomes Flush w →
  o = Ok (Some ErrDB, count_totals 0 (Z.of_nat (size (hc_items (cw_cache w)))) w).
Proof.
  intros Hc Hne Ho. apply Flush_correct in Ho. cbn zeta in Ho.
  rewrite decide_False in Ho by (by intros E%map_size_empty_inv).
  destruct Ho as [(s & Hs & _)|Ho]; [|done]. by rewrite (proj1 (closed_refuses _ Hc)) in Hs.
Qed.

Lemma Flush_closed_witness :
  let w := set_db (db_close (cw_db sample_cache)) (set_items {[bs "a" := mkCacheItem 3 0]} sample_cache) in
  Ok (Some ErrDB, count_totals 0 1 w) ∈ outcomes Flush w ∧
  ∀ o, o ∈ outcomes Flush w → o = Ok (Some ErrDB, count_totals 0 1 w).
Proof.
  split; [vm_compute; apply list_elem_of_here|]. intros o Ho.
  apply (Flush_closed _ o) in Ho; [exact Ho|reflexivity|]. intros E%(f_equal size). vm_compute in E. discriminate.
Defined.

Lemma Flush_correct_witness :
  let w := set_items {[bs "a" := mkCacheItem 3 0]} sample_cache in
  Ok (Some ErrDB, count_totals 0 1 w) ∈ outcomes Flush w ∧
  ∀ o, o ∈ outcomes Flush w →
    (∃ s, o = Ok (None, set_db s (count_totals 0 1 (set_items ∅ w)))) ∨ o = Ok (Some ErrDB, count_totals 0 1 w).
Proof.
  split; [vm_compute; apply list_elem_of_further, list_elem_of_here|].
  intros o Ho. pose proof (Flush_correct _ o Ho) as H. vm_compute in H. vm_compute.
  destruct H as [(s & _ & H)|H]; [left; exists s; exact H|right; exact H].
Defined.
