(* ===== verification/Queue.v ===== *)
(** * The download queue: [DownloadQueue] of [internal/crawler/cache.go]

    Hashes waiting for a worker, and the set of those in flight (queued or being
    downloaded).  The set is a [sync.Map], whose operations are atomic on their own; the
    slice is under the mutex, which is modelled as the lock it is, since [Refill] keeps it
    over several operations of the set. *)

From S2P Require Import Prelude GoStd Bencode Conc Credit Storage.

Record downloadItem := mkDownloadItem {
  di_infoHash : bytes;
  di_peerAddr : bytes;
  di_reqCount : Z;
  di_addedAt : Z;
}.

Record DownloadQueue := mkDownloadQueue {
  dq_locked : bool;
  dq_items : list downloadItem;
  dq_maxSize : Z;
  dq_inFlight : gset bytes;
}.

(** The memory one [downloadItem] takes. *)
Definition item_size : Z := 64.

(** [make([]downloadItem, 0, maxSize)]. *)
Definition NewDownloadQueue (maxSize : Z) : outcome unit DownloadQueue :=
  if (maxSize <? 0) || (maxAlloc <? maxSize * item_size) then Panic PanicMakeSlice
  else Ok (mkDownloadQueue false [] maxSize ∅).

Record QueueWorld := mkQueueWorld { qw_queue : DownloadQueue; qw_db : Storage; qw_now : Z }.

Definition on_queue (f : DownloadQueue → DownloadQueue) (w : QueueWorld) : QueueWorld :=
  mkQueueWorld (f (qw_queue w)) (qw_db w) (qw_now w).
Definition set_locked (b : bool) (q : DownloadQueue) : DownloadQueue :=
  mkDownloadQueue b (dq_items q) (dq_maxSize q) (dq_inFlight q).
Definition set_queued (l : list downloadItem) (q : DownloadQueue) : DownloadQueue :=
  mkDownloadQueue (dq_locked q) l (dq_maxSize q) (dq_inFlight q).
Definition set_inFlight (s : gset bytes) (q : DownloadQueue) : DownloadQueue :=
  mkDownloadQueue (dq_locked q) (dq_items q) (dq_maxSize q) s.

(** ** The parts of the operations *)

Definition Lock : prog QueueWorld unit :=
  Select (λ w, if dq_locked (qw_queue w) then [] else [Ok (tt, on_queue (set_locked true) w)]) Ret.
Definition Unlock : prog QueueWorld unit := modify (on_queue (set_locked false)).

(** [inFlight.LoadOrStore(infoHash, true)]: whether it was there. *)
Definition load_or_store (infoHash : bytes) (w : QueueWorld) : bool * QueueWorld :=
  if decide (infoHash ∈ dq_inFlight (qw_queue w)) then (true, w)
  else (false, on_queue (λ q, set_inFlight ({[infoHash]} ∪ dq_inFlight q) q) w).

Definition inFlight_Delete (infoHash : bytes) (w : QueueWorld) : QueueWorld :=
  on_queue (λ q, set_inFlight (dq_inFlight q ∖ {[infoHash]}) q) w.

(** Under the lock: append the item unless the queue is full. *)
Definition append_item (infoHash peerAddr : bytes) (reqCount : Z) (w : QueueWorld) : bool * QueueWorld :=
  let q := qw_queue w in
  if dq_maxSize q <=? Z.of_nat (length (dq_items q)) then (false, w)
  else
    (true, on_queue (set_queued (dq_items q ++ [mkDownloadItem infoHash peerAddr reqCount (qw_now w)])) w).

Definition pop_item (w : QueueWorld) : option downloadItem * QueueWorld :=
  match dq_items (qw_queue w) with
  | [] => (None, w)
  | item :: items => (Some item, on_queue (set_queued items) w)
  end.

(** ** Operations *)

Definition Add (infoHash peerAddr : bytes) : prog QueueWorld bool :=
  loaded ← update (load_or_store infoHash);
  if loaded : bool then Ret false
  else
    _ ← Lock;
    added ← update (append_item infoHash peerAddr 0);
    if added : bool then _ ← Unlock; Ret true
    else
      _ ← modify (inFlight_Delete infoHash);
      _ ← Unlock;
      Ret false.

Definition Get : prog QueueWorld (option (bytes * bytes)) :=
  _ ← Lock;
  item ← update pop_item;
  _ ← Unlock;
  Ret match item with Some item => Some (di_infoHash item, di_peerAddr item) | None => None end.

Definition Complete (infoHash : bytes) : prog QueueWorld unit := modify (inFlight_Delete infoHash).

Definition InFlightCount : prog QueueWorld nat := gets (λ w, size (dq_inFlight (qw_queue w))).

Definition Size : prog QueueWorld nat :=
  _ ← Lock;
  n ← gets (λ w, length (dq_items (qw_queue w)));
  _ ← Unlock;
  Ret n.

Fixpoint refill_loop (hashes : list HashRecord) : prog QueueWorld unit :=
  match hashes with
  | [] => Ret tt
  | h :: hashes =>
      loaded ← update (load_or_store (hr_InfoHash h));
      if loaded : bool then refill_loop hashes
      else
        added ← update (append_item (hr_InfoHash h) [] (hr_ReqCount h));
        if added : bool then refill_loop hashes
        else modify (inFlight_Delete (hr_InfoHash h))
  end.

Section refill.
Context `{Engine}.

(** What the query can meet: no failure, or a failure of one of its calls. *)
Definition query_faults (s : Storage) : list faults :=
  no_faults :: ((λ j k, bool_decide (k = j)) <$> seq 0 (2 + 2 * size (st_hashes s))).

Definition db_GetPendingHashes (count : Z) : prog QueueWorld (option (list HashRecord)) :=
  Select (λ w,
    (λ fails,
      match GetPendingHashes fails count (qw_db w) with
      | Ok l => Ok (Some l, w)
      | Err _ => Ok (None, w)
      | Panic p => Panic p
      | NoFuel => NoFuel
      end) <$> query_faults (qw_db w)) Ret.

(** Its result is whether the query succeeded. *)
Definition Refill (count : Z) : prog QueueWorld bool :=
  hashes ← db_GetPendingHashes count;
  match hashes with
  | None => Ret false
  | Some hashes => _ ← Lock; _ ← refill_loop hashes; _ ← Unlock; Ret true
  end.
End refill.

(** ** Who holds a hash *)

Definition occurrences (h : bytes) (l : list downloadItem) : nat :=
  length (filter (λ i, di_infoHash i = h) l).

Lemma occurrences_app h l l' : occurrences h (l ++ l') = (occurrences h l + occurrences h l')%nat.
Proof. unfold occurrences. by rewrite filter_app, length_app. Qed.

Lemma occurrences_cons h i l : occurrences h (i :: l) = (one_if h (di_infoHash i) + occurrences h l)%nat.
Proof. unfold occurrences, one_if. rewrite filter_cons. by case_decide. Qed.

Lemma occurrences_pos h l : (0 < occurrences h l)%nat ↔ h ∈ di_infoHash <$> l.
Proof.
  induction l as [|i l IH]; [unfold occurrences; cbn; split; [lia|set_solver]|].
  rewrite occurrences_cons. cbn. rewrite elem_of_cons, <- IH. unfold one_if. case_decide; subst.
  - split; [by left|lia].
  - split; [intros; right; lia|intros [?|?]; [congruence|lia]].
Qed.

Definition in_flight (h : bytes) (q : DownloadQueue) : nat := if decide (h ∈ dq_inFlight q) then 1 else 0.

Section exclusive.
Context (h : bytes) (allowed : panic → Prop) (fin : nat → Prop).

(** The entries of [h], in the queue or held by a goroutine, are one when [h] is in
    flight and none otherwise. *)
Definition queue_inv (n : nat) (w : QueueWorld) : Prop :=
  (occurrences h (dq_items (qw_queue w)) + n)%nat = in_flight h (qw_queue w) ∧
  Z.of_nat (length (dq_items (qw_queue w))) ≤ dq_maxSize (qw_queue w).

Abbreviation holds p r Q := (owes queue_inv allowed (λ _ _, True) fin p r Q).

Lemma holds_Lock r : holds Lock r (λ _ r', r' = r).
Proof.
  apply owes_select; [done|]. intros w fr o HI Ho. destruct (dq_locked _); [by apply elem_of_nil in Ho|].
  apply list_elem_of_singleton in Ho as ->. by exists r.
Qed.

Lemma holds_Unlock r : holds Unlock r (λ _ r', r' = r).
Proof. by apply (owes_modify _ _ _ _ _ _ r). Qed.

Lemma holds_load_or_store x r :
  holds (update (load_or_store x)) r (λ (loaded : bool) r',
    r' = if loaded then r else (one_if h x + r)%nat).
Proof.
  apply owes_update. intros w fr [HI Hl]. unfold load_or_store. case_decide as E; cbn [fst snd]; [by exists r|].
  eexists. split; [|done]. split; [|done]. unfold in_flight, one_if in *.
  cbn [qw_queue on_queue set_inFlight dq_inFlight dq_items]. destruct (decide (x = h)) as [->|Hn].
  - rewrite decide_False in HI by done. rewrite decide_True by set_solver. lia.
  - destruct (decide (h ∈ dq_inFlight (qw_queue w))); [rewrite decide_True by set_solver|
      rewrite decide_False by set_solver]; lia.
Qed.

Lemma holds_Delete x r : holds (modify (inFlight_Delete x)) (one_if h x + r)%nat (λ _ r', r' = r).
Proof.
  eapply owes_modify; [|done]. intros w fr [HI Hl]. split; [|done].
  unfold in_flight, one_if, inFlight_Delete in *. cbn [qw_queue on_queue set_inFlight dq_inFlight dq_items] in *.
  destruct (decide (x = h)) as [->|Hn].
  - rewrite (decide_False (P := h ∈ _ ∖ _)) by set_solver. case_decide; lia.
  - destruct (decide (h ∈ dq_inFlight (qw_queue w))); [rewrite decide_True by set_solver|
      rewrite decide_False by set_solver]; lia.
Qed.

Lemma holds_append x addr n r :
  holds (update (append_item x addr n)) (one_if h x + r)%nat (λ (added : bool) r',
    r' = if added then r else (one_if h x + r)%nat).
Proof.
  apply owes_update. intros w fr [HI Hl]. unfold append_item.
  destruct (Z.leb_spec (dq_maxSize (qw_queue w)) (Z.of_nat (length (dq_items (qw_queue w)))));
    cbn [fst snd]; [by eexists|].
  exists r. split; [|done]. split; cbn [qw_queue on_queue set_queued dq_items dq_maxSize].
  - rewrite occurrences_app, occurrences_cons. cbn [di_infoHash].
    change (occurrences h []) with 0%nat. change (in_flight h _) with (in_flight h (qw_queue w)). lia.
  - rewrite length_app. cbn [length]. lia.
Qed.

Lemma holds_pop r :
  holds (update pop_item) r (λ item r',
    r' = match item with Some i => one_if h (di_infoHash i) + r | None => r end%nat).
Proof.
  apply owes_update. intros w fr [HI Hl]. unfold pop_item.
  destruct (dq_items (qw_queue w)) as [|i l] eqn:E; cbn [fst snd]; eexists; (split; [|done]).
  - split; rewrite E; done.
  - rewrite occurrences_cons in HI. cbn [length] in Hl.
    split; cbn [qw_queue on_queue set_queued dq_items dq_maxSize]; [|lia].
    change (in_flight h _) with (in_flight h (qw_queue w)). lia.
Qed.

Lemma holds_Add x addr r : holds (Add x addr) r (λ _ r', r' = r).
Proof.
  unfold Add. eapply owes_bind; [apply holds_load_or_store|]. intros [] ? ->; [done|].
  eapply owes_bind; [apply holds_Lock|]. intros _ ? ->.
  eapply owes_bind; [apply holds_append|]. intros [] ? ->.
  - eapply owes_bind; [apply holds_Unlock|]. by intros _ ? ->.
  - eapply owes_bind; [apply holds_Delete|]. intros _ ? ->.
    eapply owes_bind; [apply holds_Unlock|]. by intros _ ? ->.
Qed.

Lemma holds_Get r :
  holds Get r (λ job r', r' = match job with Some (x, _) => one_if h x + r | None => r end%nat).
Proof.
  unfold Get. eapply owes_bind; [apply holds_Lock|]. intros _ ? ->.
  eapply owes_bind; [apply holds_pop|]. intros item ? ->.
  eapply owes_bind; [apply holds_Unlock|]. intros _ ? ->. by destruct item.
Qed.

Lemma holds_Complete x r : holds (Complete x) (one_if h x + r)%nat (λ _ r', r' = r).
Proof. apply holds_Delete. Qed.

Lemma holds_Size r : holds Size r (λ _ r', r' = r).
Proof.
  unfold Size. eapply owes_bind; [apply holds_Lock|]. intros _ ? ->.
  eapply owes_bind; [by apply (owes_gets _ _ _ _ _ _ (λ _ r', r' = r))|]. intros ? ? ->.
  eapply owes_bind; [apply holds_Unlock|]. by intros _ ? ->.
Qed.

Lemma holds_refill_loop hashes r : holds (refill_loop hashes) r (λ _ r', r' = r).
Proof.
  induction hashes as [|x hashes IH]; [done|]. cbn [refill_loop].
  eapply owes_bind; [apply holds_load_or_store|]. intros [] ? ->; [exact IH|].
  eapply owes_bind; [apply holds_append|]. intros [] ? ->; [exact IH|]. apply holds_Delete.
Qed.

Lemma holds_Refill `{Engine} n r : holds (Refill n) r (λ _ r', r' = r).
Proof.
  unfold Refill. eapply owes_bind with (Q := λ _ r', r' = r).
  { apply owes_select; [done|]. intros w fr o HI (fails & -> & _)%list_elem_of_fmap.
    unfold GetPendingHashes, query_rows, driver. generalize (calls fails (qw_db w)). clear fails. intros fails.
    destruct (fails 0%nat); cbn [mbind outcome_bind]; [by exists r|].
    unfold scan_rows. destruct (read_rows _ _ _ _) as [l []]; by exists r. }
  intros [hashes|] ? ->; [|done].
  eapply owes_bind; [apply holds_Lock|]. intros _ ? ->.
  eapply owes_bind; [apply holds_refill_loop|]. intros _ ? ->.
  eapply owes_bind; [apply holds_Unlock|]. by intros _ ? ->.
Qed.
End exclusive.
