(* ===== verification/Worker.v ===== *)
(** * Download workers: [internal/crawler/worker.go]

    The goroutines of the worker pool: the feeder takes hashes off the queue, the workers
    receive them as jobs and run a bounded number of downloads each.  Their world is the
    worker pool, the queue, the database and the DHT pool, with the open connections, the
    semaphores the workers made, the variables of the lookups in progress and what the
    peers that are dialed will do.  The feeder and the workers loop for ever, until a turn
    finds the context ended or the job channel closed. *)

From S2P Require Import Prelude GoStd Net Bencode Krpc Conc Credit Node Pool Sha1 Metadata Storage Queue.

Record downloadJob := mkDownloadJob { dj_infoHash : bytes; dj_peerAddr : bytes }.

Record WorkerPool := mkWorkerPool {
  wp_numWorkers : Z;
  wp_perWorker : Z;
  wp_downloader : MetadataDownloader;
  wp_jobs : chan downloadJob;
  wp_successCount : Z;
  wp_failCount : Z;
  wp_downloading : Z;
}.

(** The memory one [downloadJob] takes in the channel's buffer. *)
Definition job_size : Z := 32.

Definition NewWorkerPool (numWorkers perWorker timeout : Z) : outcome unit WorkerPool :=
  let size := wrapS 64 (numWorkers * perWorker) in
  if (size <? 0) || (maxAlloc <? size * job_size) then Panic PanicMakeChan
  else Ok (mkWorkerPool numWorkers perWorker (NewMetadataDownloader timeout) (make_chan size) 0 0 0).

Record Workers := mkWorkers {
  ww_workers : WorkerPool;
  ww_queue : DownloadQueue;
  ww_db : Storage;
  ww_pool : Pool;
  ww_searches : list PoolLocals;
  ww_sems : list nat;                       (* what each semaphore holds *)
  ww_open : list bytes;                     (* the hash each open connection is for *)
  ww_dials : bytes → nat → option Conn;     (* the n-th dial, by address *)
  ww_dialed : nat;
  ww_done : bool;                           (* the context has ended *)
  ww_wg : Z;
  ww_now : Z;
}.

Definition set_workers (x : WorkerPool) (w : Workers) : Workers :=
  mkWorkers x (ww_queue w) (ww_db w) (ww_pool w) (ww_searches w) (ww_sems w) (ww_open w) (ww_dials w)
    (ww_dialed w) (ww_done w) (ww_wg w) (ww_now w).
Definition set_queue (q : DownloadQueue) (s : Storage) (w : Workers) : Workers :=
  mkWorkers (ww_workers w) q s (ww_pool w) (ww_searches w) (ww_sems w) (ww_open w) (ww_dials w)
    (ww_dialed w) (ww_done w) (ww_wg w) (ww_now w).
Definition set_search (p : Pool) (l : list PoolLocals) (w : Workers) : Workers :=
  mkWorkers (ww_workers w) (ww_queue w) (ww_db w) p l (ww_sems w) (ww_open w) (ww_dials w)
    (ww_dialed w) (ww_done w) (ww_wg w) (ww_now w).
Definition set_sems (l : list nat) (w : Workers) : Workers :=
  mkWorkers (ww_workers w) (ww_queue w) (ww_db w) (ww_pool w) (ww_searches w) l (ww_open w) (ww_dials w)
    (ww_dialed w) (ww_done w) (ww_wg w) (ww_now w).
Definition set_open (l : list bytes) (dialed : nat) (w : Workers) : Workers :=
  mkWorkers (ww_workers w) (ww_queue w) (ww_db w) (ww_pool w) (ww_searches w) (ww_sems w) l (ww_dials w)
    dialed (ww_done w) (ww_wg w) (ww_now w).
Definition set_env (done : bool) (wg now : Z) (w : Workers) : Workers :=
  mkWorkers (ww_workers w) (ww_queue w) (ww_db w) (ww_pool w) (ww_searches w) (ww_sems w) (ww_open w)
    (ww_dials w) (ww_dialed w) done wg now.

Definition set_jobs (c : chan downloadJob) (w : Workers) : Workers :=
  let x := ww_workers w in
  set_workers (mkWorkerPool (wp_numWorkers x) (wp_perWorker x) (wp_downloader x) c (wp_successCount x)
    (wp_failCount x) (wp_downloading x)) w.

(** [successCount.Add], [failCount.Add] and [downloading.Add]. *)
Definition add_counts (success fail downloading : Z) (w : Workers) : Workers :=
  let x := ww_workers w in
  set_workers (mkWorkerPool (wp_numWorkers x) (wp_perWorker x) (wp_downloader x) (wp_jobs x)
    (wrapU 64 (wp_successCount x + success)) (wrapU 64 (wp_failCount x + fail))
    (wrapS 32 (wp_downloading x + downloading))) w.

Definition count (success fail downloading : Z) : prog Workers unit :=
  modify (add_counts success fail downloading).

(** ** The components the workers call *)

Definition queue_world (w : Workers) : QueueWorld := mkQueueWorld (ww_queue w) (ww_db w) (ww_now w).
Definition put_queue_world (q : QueueWorld) (w : Workers) : Workers := set_queue (qw_queue q) (qw_db q) w.
Definition in_queue {A : Type} (q : prog QueueWorld A) : prog Workers A := lift queue_world put_queue_world q.

(** A lookup in the DHT pool, with variables of its own. *)
Definition new_search (w : Workers) : nat * Workers :=
  (length (ww_searches w), set_search (ww_pool w) (ww_searches w ++ [no_pool_locals]) w).
#[global] Instance PoolLocals_inhabited : Inhabited PoolLocals := populate no_pool_locals.
Definition at_search {A : Type} (i : nat) (q : prog PoolLookup A) : prog Workers A :=
  lift (λ w, (ww_pool w, ww_searches w !!! i))
    (λ s w, set_search s.1 (<[i := s.2]> (ww_searches w)) w) q.
Definition dht_FindPeers (infoHash : bytes) : prog Workers (list CompactPeerInfo) :=
  i ← update new_search;
  at_search i (pool_FindPeers infoHash).

(** A call to the database succeeds or fails; [None] and [false] are the error. *)
Definition call_faults : list faults := [no_faults; λ _, true].

Definition db_TorrentExists (infoHash : bytes) : prog Workers (option bool) :=
  Select (λ w,
    (λ fails,
      match TorrentExists fails infoHash (ww_db w) with
      | Ok b => Ok (Some b, w)
      | Err _ => Ok (None, w)
      | Panic p => Panic p
      | NoFuel => NoFuel
      end) <$> call_faults) Ret.

Definition db_change (op : faults → Storage → outcome db_error Storage) : prog Workers bool :=
  Select (λ w,
    (λ fails,
      match op fails (ww_db w) with
      | Ok s => Ok (true, set_queue (ww_queue w) s w)
      | Err _ => Ok (false, w)
      | Panic p => Panic p
      | NoFuel => NoFuel
      end) <$> call_faults) Ret.

(** ** One download *)

(** The connection [Download] opens, for the job's hash, and closes when it returns. *)
Definition dial (hash addr : bytes) (w : Workers) : option Conn * Workers :=
  let conn := ww_dials w addr (ww_dialed w) in
  (conn, set_open (match conn with Some _ => ww_open w ++ [hash] | None => ww_open w end)
           (S (ww_dialed w)) w).

Fixpoint remove_one (x : bytes) (l : list bytes) : list bytes :=
  match l with
  | [] => []
  | y :: l => if decide (y = x) then l else y :: remove_one x l
  end.

Definition hang_up (hash : bytes) (w : Workers) : Workers :=
  set_open (remove_one hash (ww_open w)) (ww_dialed w) w.

Definition try_peer (hash infoHash peerAddr : bytes) : prog Workers (option TorrentMeta) :=
  d ← gets (λ w, wp_downloader (ww_workers w));
  conn ← update (dial hash peerAddr);
  meta ← checked (λ _,
    match Download d infoHash conn with
    | Ok (meta, _) => Ok (Some meta)
    | Err _ => Ok None
    | Panic p => Panic p
    | NoFuel => NoFuel
    end);
  _ ← match conn with Some _ => modify (hang_up hash) | None => Ret tt end;
  Ret meta.

(** [job.infoHash[:8]] for a log line. *)
Definition log_hash (hash : bytes) : prog Workers unit := _ ← checked (λ _, slice hash 0 8); Ret tt.

(** The loop over the peers; [None] when the context has ended. *)
Fixpoint try_peers (i : nat) (hash infoHash : bytes) (peers : list bytes)
  : prog Workers (option (option TorrentMeta)) :=
  match peers with
  | [] => Ret (Some None)
  | peerAddr :: peers =>
      done ← gets ww_done;
      if done : bool then Ret None
      else
        meta ← try_peer hash infoHash peerAddr;
        match meta with
        | Some meta => _ ← log_hash hash; Ret (Some (Some meta))
        | None =>
            _ ← (if (i <? 2)%nat
                 then
                   active ← gets (λ w, wp_downloading (ww_workers w));
                   if active <? 10 then log_hash hash else Ret tt
                 else Ret tt);
            try_peers (S i) hash infoHash peers
        end
  end.

(** [var infoHash [20]byte; copy(infoHash[:], hashBytes)]. *)
Definition to_hash (hashBytes : bytes) : bytes := copy_at (replicate 20 x00) 0 hashBytes.

Definition record_for (hash : bytes) (meta : TorrentMeta) (now : Z) : TorrentRecord :=
  mkTorrentRecord hash (tm_Name meta) (tm_Size meta)
    ((λ f, mkFileRecord (fi_Path f) (fi_Size f)) <$> tm_Files meta)
    (Z.of_nat (length (tm_Files meta))) now 1.

(** The address of the job, or those a lookup in the DHT finds. *)
Definition peers_to_try (job : downloadJob) (infoHash : bytes) : prog Workers (list bytes) :=
  if decide (dj_peerAddr job = [])
  then
    dhtPeers ← dht_FindPeers infoHash;
    Ret (List.map (λ p, peer_addr (cp_IP p) (cp_Port p)) dhtPeers)
  else Ret [dj_peerAddr job].

(** Between the deferred calls of [processJob]. *)
Definition process_body (job : downloadJob) : prog Workers unit :=
  let hash := dj_infoHash job in
  match hex_DecodeString hash with
  | Ok hashBytes =>
      let infoHash := to_hash hashBytes in
      peers ← peers_to_try job infoHash;
      if (length peers =? 0)%nat then count 0 1 0
      else
        meta ← try_peers 0 hash infoHash peers;
        match meta with
        | None => Ret tt
        | Some None =>
            failCount ← gets (λ w, wp_failCount (ww_workers w));
            _ ← (if failCount mod 100 =? 0 then log_hash hash else Ret tt);
            count 0 1 0
        | Some (Some meta) =>
            now ← gets ww_now;
            saved ← db_change (λ fails, InsertTorrent fails (record_for hash meta now));
            if negb saved then count 0 1 0
            else
              _ ← db_change (λ fails, DeleteHash fails hash);
              count 1 0 0
        end
  | Panic p => checked (λ _, Panic p)
  | NoFuel => checked (λ _, NoFuel)
  | Err _ => count 0 1 0
  end.

Definition processJob (job : downloadJob) : prog Workers unit :=
  _ ← count 0 0 1;
  _ ← process_body job;
  _ ← count 0 0 (-1);
  in_queue (Complete (dj_infoHash job)).

(** ** The feeder and the workers *)

(** [select { case p.jobs <- job: case <-ctx.Done(): }]; a send on the closed channel
    that is chosen panics. *)
Definition send_job (job : downloadJob) : prog Workers bool :=
  Select (λ w,
    let c := wp_jobs (ww_workers w) in
    (if ch_closed c then [Panic PanicSendClosed]
     else if chan_full c then []
     else [Ok (true, set_jobs (mkChan (ch_buf c ++ [job]) (ch_cap c) false) w)]) ++
    (if ww_done w then [Ok (false, w)] else [])) Ret.

Definition sleep : prog Workers unit := modify id.

(** One turn of the feeder's loop: [Some tt] returns, [None] continues. *)
Definition feed_turn : prog Workers (option unit) :=
  done ← gets ww_done;
  if done : bool then Ret (Some tt)
  else
    item ← in_queue Get;
    match item with
    | None => _ ← sleep; Ret None
    | Some (infoHash, peerAddr) =>
        if decide (peerAddr = []) then _ ← in_queue (Complete infoHash); Ret None
        else
          exists_ ← db_TorrentExists infoHash;
          match exists_ with
          | None => _ ← in_queue (Complete infoHash); Ret None
          | Some true => _ ← in_queue (Complete infoHash); Ret None
          | Some false =>
              sent ← send_job (mkDownloadJob infoHash peerAddr);
              if sent : bool then Ret None else Ret (Some tt)
          end
    end.

Definition feedQueue : prog Workers unit := forever feed_turn.

(** [sem := make(chan struct{}, p.perWorker)], by its number. *)
Definition make_sem (w : Workers) : nat * Workers := (length (ww_sems w), set_sems (ww_sems w ++ [0%nat]) w).

Definition recv_job : prog Workers (option downloadJob) :=
  Select (λ w, (λ jc, Ok (jc.1, set_jobs jc.2 w)) <$> chan_recv (wp_jobs (ww_workers w))) Ret.

(** [select { case <-ctx.Done(): case sem <- struct{}{}: }]. *)
Definition acquire (sem : nat) : prog Workers bool :=
  Select (λ w,
    (if ww_done w then [Ok (false, w)] else []) ++
    match ww_sems w !! sem with
    | Some k =>
        if Z.of_nat k <? wp_perWorker (ww_workers w)
        then [Ok (true, set_sems (<[sem := S k]> (ww_sems w)) w)] else []
    | None => []
    end) Ret.

(** [<-sem]: blocks on an empty semaphore. *)
Definition release (sem : nat) : prog Workers unit :=
  Select (λ w,
    match ww_sems w !! sem with
    | Some (S k) => [Ok (tt, set_sems (<[sem := k]> (ww_sems w)) w)]
    | _ => []
    end) Ret.

(** One turn of [for job := range p.jobs]. *)
Definition worker_turn (sem : nat) : prog Workers (option unit) :=
  job ← recv_job;
  match job with
  | None => Ret (Some tt)
  | Some job =>
      ok ← acquire sem;
      if ok : bool
      then _ ← go (_ ← processJob job; release sem); Ret None
      else Ret (Some tt)
  end.

Definition worker : prog Workers unit :=
  sem ← Atomic (λ w, if wp_perWorker (ww_workers w) <? 0 then Panic PanicMakeChan else Ok (make_sem w)) Ret;
  forever (worker_turn sem).

Definition wg_add (n : Z) : prog Workers unit := modify (λ w, set_env (ww_done w) (ww_wg w + n) (ww_now w) w).

Definition Start : prog Workers unit :=
  numWorkers ← gets (λ w, wp_numWorkers (ww_workers w));
  _ ← for_each (seq 0 (Z.to_nat numWorkers)) (λ _,
        _ ← wg_add 1;
        go (_ ← worker; wg_add (-1)));
  _ ← go feedQueue;
  _ ← Select (λ w, if ww_done w then [Ok (tt, w)] else []) Ret;
  _ ← try_update (λ w, c ← close_chan (wp_jobs (ww_workers w)); Ok (set_jobs c w));
  Select (λ w, if ww_wg w =? 0 then [Ok (tt, w)] else []) Ret.

Definition Submit (infoHash peerAddr : bytes) : prog Workers bool := in_queue (Add infoHash peerAddr).

Definition Stats : prog Workers (Z * Z * Z * nat) :=
  success ← gets (λ w, wp_successCount (ww_workers w));
  fail ← gets (λ w, wp_failCount (ww_workers w));
  downloading ← gets (λ w, wp_downloading (ww_workers w));
  queued ← in_queue Size;
  Ret (success, fail, downloading, queued).
