(* ===== verification/WorkerSpec.v ===== *)
(** * The worker pool is exclusive and bounded

    At any moment a hash is held by one goroutine, or is in the queue once, or is in the
    job channel once: no two downloads of a hash run at a time.  And each open connection
    is made under a token of a worker's semaphore, which bounds their number. *)

From stdpp Require Import gmultiset.
From S2P Require Import Prelude GoStd Net Conc Credit Bencode NodeID Routing Krpc.
From S2P Require Import Node NodeSpec Pool Sha1 Metadata MetadataSpec Storage Queue Worker.

#[local] Arguments disj_union : simpl never.
#[local] Arguments gmultiset_disj_union : simpl never.
#[local] Arguments multiplicity : simpl never.
#[local] Arguments occurrences : simpl never.

(** What a goroutine can hold: entries of the hash in question, the hashes of the
    connections it opened, tokens of semaphores that are not behind a connection, the
    right to close the job channel, and the right to be one of the workers. *)
Abbreviation units := (nat * gmultiset bytes * nat * nat * nat)%type.

(** The panics of the workers: those a peer or a datagram can cause, and the send on the
    job channel after [Start] has closed it. *)
Definition worker_panic (p : panic) : Prop := remote_panic p ∨ p = PanicSendClosed.

Definition any_units (m : units) : Prop := True.

Definition job_count (h : bytes) (l : list downloadJob) : nat :=
  length (filter (λ j, dj_infoHash j = h) l).

Lemma job_count_app h l l' : job_count h (l ++ l') = (job_count h l + job_count h l')%nat.
Proof. unfold job_count. by rewrite filter_app, length_app. Qed.

Lemma job_count_cons h j l : job_count h (j :: l) = (one_if h (dj_infoHash j) + job_count h l)%nat.
Proof. unfold job_count, one_if. rewrite filter_cons. by case_decide. Qed.

Definition search_ok (l : PoolLocals) : Prop :=
  Forall locals_inv (pl_lookups l) ∧ Forall wf_peer (pl_allPeers l).

#[local] Arguments job_count : simpl never.
#[local] Arguments in_flight : simpl never.

Section walk.
Context (h : bytes) (n : nat) (numWorkers perWorker : Z) (perWorker_pos : 0 ≤ perWorker).

Record workers_inv (m : units) (w : Workers) : Prop := mkWorkersInv {
  wi_hash :
    let '(held, conns, _, _, _) := m in
    (occurrences h (dq_items (ww_queue w)) +
     (job_count h (ch_buf (wp_jobs (ww_workers w))) + (held + multiplicity h conns)))%nat =
    in_flight h (ww_queue w);
  wi_queue : Z.of_nat (length (dq_items (ww_queue w))) ≤ dq_maxSize (ww_queue w);
  wi_conns : let '(_, conns, _, _, _) := m in list_to_set_disj (ww_open w) = conns;
  wi_tokens : let '(_, conns, tokens, _, _) := m in sum_list (ww_sems w) = (tokens + size conns)%nat;
  wi_sems : Forall (λ k, Z.of_nat k ≤ perWorker) (ww_sems w);
  wi_permits : let '(_, _, _, _, permits) := m in Z.of_nat (length (ww_sems w) + permits) ≤ Z.max 0 numWorkers;
  wi_closer : let '(_, _, _, closer, _) := m in
    (closer + (if ch_closed (wp_jobs (ww_workers w)) then 1 else 0) ≤ 1)%nat;
  wi_sizes : wp_numWorkers (ww_workers w) = numWorkers ∧ wp_perWorker (ww_workers w) = perWorker;
  wi_pool : pool_inv n (ww_pool w);
  wi_searches : Forall search_ok (ww_searches w);
}.

Abbreviation works p r Q := (owes workers_inv worker_panic (λ _ _, True) any_units p r Q).

(** Every section keeps the parts of the invariant that it does not touch. *)
Ltac open_inv := intros w [[[[fu fo] ft] fc] fk] [H1 H2 H3 H4 H5 H6 H7 H8 H9 H10];
  cbn [u_add prod_units nat_units gmultiset_units fst snd] in *.
Ltac keep_inv := constructor; cbn in *; try done.

Lemma works_count a b d r : works (count a b d) r (λ _ r', r' = r).
Proof. destruct r as [[[[u o] t] c] k]. eapply owes_modify; [|done]. open_inv. keep_inv. Qed.

Lemma works_wg_add z r : works (wg_add z) r (λ _ r', r' = r).
Proof. destruct r as [[[[u o] t] c] k]. eapply owes_modify; [|done]. open_inv. keep_inv. Qed.

Lemma works_read {A : Type} (f : Workers → A) r : works (gets f) r (λ _ r', r' = r).
Proof. by apply owes_gets. Qed.

Lemma works_log_hash x r : works (log_hash x) r (λ _ r', r' = r).
Proof.
  unfold log_hash. eapply owes_bind; [apply (owes_checked _ _ _ _ _ _ (λ _ r', r' = r))|by intros ? ? ->].
  intros w fr _. unfold slice. destruct (_ && _); [done|]. left. by right.
Qed.

Lemma works_in_queue {A : Type} (p : prog QueueWorld A) u o t c k Q :
  (∀ fin, (∀ m : nat, fin m) → owes (queue_inv h) worker_panic (λ _ _, True) fin p u Q) →
  works (in_queue p) (u, o, t, c, k) (λ a r', ∃ u', r' = (u', o, t, c, k) ∧ Q a u').
Proof.
  intros Hp. assert (∀ u : nat, ((u, ∅, 0%nat, 0%nat, 0%nat) : units) ⊕ (0%nat, o, t, c, k) = (u, o, t, c, k)) as E.
  { intros v. cbn. by rewrite Nat.add_0_r, (left_id_L ∅ disj_union). }
  rewrite <- E. refine (owes_mono _ _ _ _ _ _ (λ a r', ∃ v, r' = ((v, ∅, 0%nat, 0%nat, 0%nat) : units) ⊕ _ ∧ Q a v) _ _ _);
    [|intros a r' (v & -> & HQ); exists v; split; [apply E|exact HQ]].
  apply (owes_lift (queue_inv h) workers_inv worker_panic worker_panic (λ _ _, True) (λ _ _, True) (λ _, True) any_units
    queue_world put_queue_world
    (λ w, job_count h (ch_buf (wp_jobs (ww_workers w)))) (λ v, (v, ∅, 0%nat, 0%nat, 0%nat))
    (λ m, let '(v, o, _, _, _) := m in v + multiplicity h o)%nat).
  - done.
  - done.
  - intros a b. cbn. by repeat f_equal.
  - intros v [[[[fu fo] ft] fc] fk] w [H1 H2 _ _ _ _ _ _ _ _]. cbn in *. rewrite multiplicity_disj_union, multiplicity_empty in H1.
    split; cbn; [|done]. unfold in_flight in *. cbn. lia.
  - intros v v' [[[[fu fo] ft] fc] fk] w s [H1 H2 H3 H4 H5 H6 H7 H8 H9 H10] [S1 S2]. cbn in *.
    keep_inv. rewrite multiplicity_disj_union, multiplicity_empty in *. unfold in_flight in *. cbn in *. lia.
  - done.
  - by apply Hp.
Qed.
Lemma works_Submit x addr r : works (Submit x addr) r (λ _ r', r' = r).
Proof.
  destruct r as [[[[u o] t] c] k]. eapply owes_mono; [apply works_in_queue|].
  - intros fin _. apply holds_Add.
  - by intros b r' (v & -> & ->).
Qed.

Lemma works_Complete x u o t c k :
  works (in_queue (Complete x)) ((one_if h x + u)%nat, o, t, c, k) (λ _ r', r' = (u, o, t, c, k)).
Proof.
  eapply owes_mono; [apply works_in_queue|].
  - intros fin _. apply holds_Complete.
  - by intros b r' (v & -> & ->).
Qed.

Lemma works_Get u o t c k :
  works (in_queue Get) (u, o, t, c, k) (λ job r',
    r' = (match job with Some (x, _) => one_if h x + u | None => u end%nat, o, t, c, k)).
Proof.
  eapply owes_mono; [apply works_in_queue|].
  - intros fin _. apply holds_Get.
  - by intros b r' (v & -> & ->).
Qed.

(** ** Lookups and the database *)

Lemma works_FindPeers infoHash r : is_id infoHash → works (dht_FindPeers infoHash) r (λ _ r', r' = r).
Proof.
  intros Hid. unfold dht_FindPeers. eapply owes_bind.
  { apply (owes_update _ _ _ _ _ _ (λ _ r', r' = r)). destruct r as [[[[u o] t] c] k]. open_inv.
    exists (u, o, t, c, k). split; [|done]. keep_inv. apply Forall_app. split; [done|].
    constructor; [|done]. split; [|constructor]. apply Forall_replicate, locals_inv_none. }
  intros i ? ->.
  refine (owes_mono _ _ _ _ _ _ (λ peers r', r' = r ∧ Forall wf_peer peers ∧ NoDup peers) _ _ _);
    [|by intros peers r' [-> _]].
  apply (owes_lift_ok workers_inv remote_panic worker_panic (λ _ _, True) any_units _ _ (pool_lookup_inv n)).
  - done.
  - by left.
  - done.
  - intros m w [H1 H2 H3 H4 H5 H6 H7 H8 H9 H10]. rewrite list_lookup_total_alt.
    destruct (ww_searches w !! i) as [l|] eqn:E; cbn; (split; [done|]).
    + by eapply Forall_lookup_1 in H10.
    + split; [apply Forall_replicate, locals_inv_none|constructor].
  - intros [[[[u o] t] c] k] w [p l] [H1 H2 H3 H4 H5 H6 H7 H8 H9 H10] (Hp & Hl). keep_inv.
    by apply Forall_insert.
  - by apply pool_ok_FindPeers.
Qed.

Lemma works_db_TorrentExists x r : works (db_TorrentExists x) r (λ _ r', r' = r).
Proof.
  apply owes_select; [done|]. intros w others res HI (fails & -> & _)%list_elem_of_fmap.
  unfold TorrentExists, driver. destruct (calls _ _ 0%nat); cbn; by exists r.
Qed.

Lemma works_db_change op r :
  (∀ fails s, match op fails s with Ok _ | Err _ => True | _ => False end) →
  works (db_change op) r (λ _ r', r' = r).
Proof.
  intros Hop. apply owes_select; [done|]. intros w others res HI (fails & -> & _)%list_elem_of_fmap.
  specialize (Hop fails (ww_db w)). destruct (op fails (ww_db w)); try done; exists r; (split; [|done]); [|done].
  destruct HI as [H1 H2 H3 H4 H5 H6 H7 H8 H9 H10]. by constructor.
Qed.
(** ** One download *)

Lemma multiplicity_one_if x : multiplicity h ({[+ x +]} : gmultiset bytes) = one_if h x.
Proof.
  unfold one_if. destruct (decide (x = h)) as [->|Hx]; [apply multiplicity_singleton_eq|].
  by apply multiplicity_singleton_ne.
Qed.

Lemma remove_one_spec (x : bytes) l :
  x ∈ l → (list_to_set_disj l : gmultiset bytes) = {[+ x +]} ⊎ list_to_set_disj (remove_one x l).
Proof.
  induction l as [|y l IH]; intros Hx; [by apply elem_of_nil in Hx|]. cbn [remove_one].
  rewrite list_to_set_disj_cons. case_decide as E; [by subst|].
  rewrite list_to_set_disj_cons, IH by set_solver. multiset_solver.
Qed.

Definition conn_units (conn : option Conn) (x : bytes) (u : nat) (o : gmultiset bytes) (t c k : nat) : units :=
  match conn with
  | Some _ => (u, {[+ x +]} ⊎ o, t, c, k)
  | None => ((one_if h x + u)%nat, o, S t, c, k)
  end.

Lemma works_dial x addr u o t c k :
  works (update (dial x addr)) ((one_if h x + u)%nat, o, S t, c, k) (λ conn r', r' = conn_units conn x u o t c k).
Proof.
  apply owes_update. open_inv. unfold dial. cbn [fst snd]. eexists. split; [|done].
  destruct (ww_dials w addr (ww_dialed w)) as [conn|]; cbn [conn_units]; keep_inv.
  - rewrite <- H1, !multiplicity_disj_union, multiplicity_one_if. lia.
  - rewrite list_to_set_disj_app, H3. cbn. multiset_solver.
  - rewrite H4, !gmultiset_size_disj_union, gmultiset_size_singleton. lia.
Qed.

Lemma works_hang_up x u o t c k :
  works (modify (hang_up x)) (u, {[+ x +]} ⊎ o, t, c, k) (λ _ r', r' = ((one_if h x + u)%nat, o, S t, c, k)).
Proof.
  eapply owes_modify; [|done]. open_inv.
  assert (x ∈ ww_open w) as Hx.
  { apply elem_of_list_to_set_disj. rewrite H3. multiset_solver. }
  keep_inv.
  - rewrite <- H1, !multiplicity_disj_union, multiplicity_one_if. lia.
  - rewrite (remove_one_spec x) in H3 by done. cbn. multiset_solver.
  - rewrite H4, !gmultiset_size_disj_union, gmultiset_size_singleton. lia.
Qed.
Lemma Download_tame d infoHash conn : tame (Download d infoHash conn).
Proof. destruct conn as [c|]; [|done]. apply tame_exchange. unfold conn_fuel. lia. Qed.

(** A job that a worker runs: it holds the entry of its hash and a token. *)
Definition job_units (x : bytes) (u : nat) (o : gmultiset bytes) (t c k : nat) : units :=
  ((one_if h x + u)%nat, o, S t, c, k).

Lemma works_try_peer x infoHash addr u o t c k :
  works (try_peer x infoHash addr) (job_units x u o t c k) (λ _ r', r' = job_units x u o t c k).
Proof.
  unfold try_peer. eapply owes_bind; [apply works_read|]. intros d ? ->.
  eapply owes_bind; [apply works_dial|]. intros conn ? ->.
  eapply owes_bind; [apply (owes_checked _ _ _ _ _ _ (λ _ r', r' = conn_units conn x u o t c k))|].
  { intros w others _. pose proof (Download_tame d infoHash conn) as Ht.
    destruct (Download d infoHash conn) as [[]| | |]; try done. left. by left. }
  intros meta ? ->. destruct conn; cbn [conn_units].
  - eapply owes_bind; [apply works_hang_up|]. by intros _ ? ->.
  - done.
Qed.

Lemma works_try_peers x infoHash peers i u o t c k :
  works (try_peers i x infoHash peers) (job_units x u o t c k) (λ _ r', r' = job_units x u o t c k).
Proof.
  revert i. induction peers as [|addr peers IH]; intros i; [done|]. cbn [try_peers].
  eapply owes_bind; [apply works_read|]. intros done_ ? ->. destruct done_; [done|].
  eapply owes_bind; [apply works_try_peer|]. intros [meta|] ? ->.
  - eapply owes_bind; [apply works_log_hash|]. by intros _ ? ->.
  - eapply owes_bind with (Q := λ _ r', r' = job_units x u o t c k); [|intros _ ? ->; apply IH].
    destruct (i <? 2)%nat; [|done]. eapply owes_bind; [apply works_read|]. intros a ? ->.
    destruct (a <? 10); [apply works_log_hash|done].
Qed.

Lemma length_to_hash b : length (to_hash b) = 20%nat.
Proof. unfold to_hash. by rewrite length_copy_at by (cbn; lia). Qed.

Lemma hex_Decode_calm x :
  match hex_DecodeString x with Ok _ | Err _ => True | _ => False end.
Proof.
  revert x. fix IH 1. intros [|a [|b x]]; [done|cbn [hex_DecodeString]; by destruct (from_hex_char a)|].
  cbn [hex_DecodeString].
  destruct (from_hex_char a), (from_hex_char b); try done.
  specialize (IH x). by destruct (hex_DecodeString x).
Qed.

Lemma works_peers_to_try job infoHash r :
  is_id infoHash → works (peers_to_try job infoHash) r (λ _ r', r' = r).
Proof.
  intros Hid. unfold peers_to_try. case_decide; [|done].
  eapply owes_bind; [by apply works_FindPeers|]. by intros l ? ->.
Qed.

Lemma works_process_body job u o t c k :
  works (process_body job) (job_units (dj_infoHash job) u o t c k)
    (λ _ r', r' = job_units (dj_infoHash job) u o t c k).
Proof.
  unfold process_body. pose proof (hex_Decode_calm (dj_infoHash job)) as Hx.
  destruct (hex_DecodeString (dj_infoHash job)) as [b| | |]; [|apply works_count|done..].
  eapply owes_bind; [apply works_peers_to_try, length_to_hash|]. intros peers ? ->.
  destruct (length peers =? 0)%nat; [apply works_count|].
  eapply owes_bind; [apply works_try_peers|]. intros [[meta|]|] ? ->; [| |done].
  - eapply owes_bind; [apply works_read|]. intros now ? ->.
    eapply owes_bind; [apply works_db_change|].
    { intros fails s. unfold InsertTorrent, driver. by destruct (calls _ _ 0%nat). }
    intros [] ? ->; cbn [negb]; [|apply works_count].
    eapply owes_bind; [apply works_db_change|intros ? ? ->; apply works_count].
    intros fails s. unfold DeleteHash, driver. by destruct (calls _ _ 0%nat).
  - eapply owes_bind; [apply works_read|]. intros f ? ->.
    eapply owes_bind with (Q := λ _ r', r' = job_units (dj_infoHash job) u o t c k); [|intros _ ? ->; apply works_count].
    destruct (f mod 100 =? 0); [apply works_log_hash|done].
Qed.

Lemma works_processJob job u o t c k :
  works (processJob job) (job_units (dj_infoHash job) u o t c k) (λ _ r', r' = (u, o, S t, c, k)).
Proof.
  unfold processJob. eapply owes_bind; [apply works_count|]. intros _ ? ->.
  eapply owes_bind; [apply works_process_body|]. intros _ ? ->.
  eapply owes_bind; [apply works_count|]. intros _ ? ->. apply works_Complete.
Qed.

(** ** The feeder and the workers *)

Lemma works_send_job job u o t c k :
  works (send_job job) ((one_if h (dj_infoHash job) + u)%nat, o, t, c, k) (λ (sent : bool) r',
    sent = true → r' = (u, o, t, c, k)).
Proof.
  apply owes_select; [done|]. intros w others res HI Ho. unfold send_job in Ho.
  apply elem_of_app in Ho as [Ho|Ho].
  - destruct (ch_closed (wp_jobs (ww_workers w))) eqn:Ec.
    { apply list_elem_of_singleton in Ho as ->. by right. }
    destruct (chan_full _); [by apply elem_of_nil in Ho|]. apply list_elem_of_singleton in Ho as ->.
    eexists. split; [|by intros _]. revert w others HI Ec. open_inv. intros Ec. keep_inv.
    + rewrite <- H1, job_count_app, job_count_cons. change (job_count h []) with 0%nat. lia.
    + rewrite Ec in H7. cbn in H7. lia.
  - destruct (ww_done w); [|by apply elem_of_nil in Ho]. apply list_elem_of_singleton in Ho as ->.
    by eexists.
Qed.

Lemma works_recv_job u o t c k :
  works recv_job (u, o, t, c, k) (λ job r',
    r' = (match job with Some j => one_if h (dj_infoHash j) + u | None => u end%nat, o, t, c, k)).
Proof.
  apply owes_select; [done|]. intros w others res HI ([job ch] & -> & Ho)%list_elem_of_fmap.
  unfold chan_recv in Ho. cbn [fst snd]. eexists. split; [|done]. revert w others HI Ho. open_inv.
  destruct (ch_buf (wp_jobs (ww_workers w))) as [|j l] eqn:Eb.
  - destruct (ch_closed (wp_jobs (ww_workers w))) eqn:Ec; intros Ho; [|by apply elem_of_nil in Ho].
    apply list_elem_of_singleton in Ho as [= -> ->]. keep_inv; by rewrite ?Eb, ?Ec.
  - intros Ho. apply list_elem_of_singleton in Ho as [= -> ->]. keep_inv.
    rewrite job_count_cons in H1. lia.
Qed.

Lemma sum_list_update (l : list nat) i x y :
  l !! i = Some x → (sum_list (<[i := y]> l) + x = sum_list l + y)%nat.
Proof.
  revert i. induction l as [|z l IH]; intros [|i] Hi; try done.
  - injection Hi as ->. change (y + sum_list l + x = x + sum_list l + y)%nat. lia.
  - specialize (IH i Hi). change (z + sum_list (<[i := y]> l) + x = z + sum_list l + y)%nat. lia.
Qed.

Lemma works_acquire sem u o t c k :
  works (acquire sem) (u, o, t, c, k) (λ (ok : bool) r', r' = (u, o, if ok then S t else t, c, k)).
Proof.
  apply owes_select; [done|]. intros w others res HI Ho. unfold acquire in Ho. apply elem_of_app in Ho as [Ho|Ho].
  - destruct (ww_done w); [|by apply elem_of_nil in Ho]. apply list_elem_of_singleton in Ho as ->. by eexists.
  - destruct (ww_sems w !! sem) as [x|] eqn:Es; [|by apply elem_of_nil in Ho].
    destruct (Z.ltb_spec (Z.of_nat x) (wp_perWorker (ww_workers w))); [|by apply elem_of_nil in Ho].
    apply list_elem_of_singleton in Ho as ->. eexists. split; [|done]. revert w others HI Es H. open_inv.
    intros Es Hx. keep_inv.
    + pose proof (sum_list_update _ _ _ (S x) Es). lia.
    + apply Forall_insert; [done|]. destruct H8 as [_ <-]. lia.
    + by rewrite length_insert.
Qed.

Lemma works_release sem u o t c k :
  works (release sem) (u, o, S t, c, k) (λ _ r', r' = (u, o, t, c, k)).
Proof.
  apply owes_select; [done|]. intros w others res HI Ho.
  destruct (ww_sems w !! sem) as [[|x]|] eqn:Es; [by apply elem_of_nil in Ho| |by apply elem_of_nil in Ho].
  apply list_elem_of_singleton in Ho as ->. eexists. split; [|done]. revert w others HI Es. open_inv.
  intros Es. keep_inv.
  - pose proof (sum_list_update _ _ _ x Es). lia.
  - apply Forall_insert; [done|]. eapply Forall_lookup_1 in H5; [|done]. cbn in H5. lia.
  - by rewrite length_insert.
Qed.
Lemma works_any {A : Type} (p : prog Workers A) r Q : works p r Q → works p r (λ _, any_units).
Proof. intros H. by eapply owes_mono. Qed.

Lemma works_feed_turn r : works feed_turn r (λ _, any_units).
Proof.
  destruct r as [[[[u o] t] c] k]. unfold feed_turn.
  eapply owes_bind; [apply works_read|]. intros done_ ? ->. destruct done_; [done|].
  eapply owes_bind; [apply works_Get|]. intros [[x addr]|] ? ->.
  2: { eapply owes_bind; [by apply (owes_modify _ _ _ _ _ _ (u, o, t, c, k) (λ _ r', r' = (u, o, t, c, k)))|]. done. }
  assert (works (_ ← in_queue (Complete x); Ret None) ((one_if h x + u)%nat, o, t, c, k) (λ _ : option unit, any_units)) as Hc.
  { eapply owes_bind; [apply works_Complete|]. done. }
  case_decide; [exact Hc|].
  eapply owes_bind; [apply works_db_TorrentExists|]. intros [[]|] ? ->; [exact Hc| |exact Hc].
  eapply owes_bind; [apply (works_send_job (mkDownloadJob x addr))|]. by intros [] r' Hr.
Qed.

Lemma works_feedQueue r : works feedQueue r (λ _, any_units).
Proof.
  apply (owes_forever _ _ _ _ any_units); [done|]. intros r' _.
  eapply owes_mono; [apply works_feed_turn|]. by intros [].
Qed.

Lemma works_worker_turn sem u o t c k :
  works (worker_turn sem) (u, o, t, c, k) (λ res r', res = None → r' = (u, o, t, c, k)).
Proof.
  unfold worker_turn. eapply owes_bind; [apply works_recv_job|]. intros [job|] ? ->; [|done].
  eapply owes_bind; [apply works_acquire|]. intros [] ? ->; [|done].
  eapply (owes_bind _ _ _ _ _ _ _ (λ _ r', r' = (u, o, t, c, k))); [|by intros _ ? ->].
  exists (one_if h (dj_infoHash job), ∅, 1%nat, 0%nat, 0%nat), (u, o, t, c, k). split_and!; [|shelve|done].
  cbn. by rewrite (left_id_L ∅ disj_union).
  Unshelve.
  eapply works_any, owes_bind.
  - rewrite <- (Nat.add_0_r (one_if h (dj_infoHash job))). apply works_processJob.
  - intros _ ? ->. apply works_release.
Qed.

Lemma works_worker u o t c k : works worker (u, o, t, c, S k) (λ _, any_units).
Proof.
  unfold worker. eapply (owes_bind _ _ _ _ _ _ _ (λ _ r', r' = (u, o, t, c, k))).
  - open_inv. destruct H8 as [Hn Hp]. destruct (Z.ltb_spec (wp_perWorker (ww_workers w)) 0); [lia|].
    unfold make_sem. exists (u, o, t, c, k). split; [|done]. keep_inv.
    + rewrite sum_list_with_app. cbn. lia.
    + apply Forall_app. split; [done|]. by constructor.
    + rewrite length_app. cbn. lia.
  - intros sem ? ->. apply (owes_forever _ _ _ _ (λ r', r' = (u, o, t, c, k))); [done|]. intros ? ->.
    eapply owes_mono; [apply works_worker_turn|]. intros [] r' Hr; [done|by apply Hr].
Qed.

Lemma works_Start :
  works Start (0%nat, ∅, 0%nat, 1%nat, Z.to_nat numWorkers) (λ _, any_units).
Proof.
  unfold Start. eapply owes_bind.
  { apply (owes_gets _ _ _ _ _ _ (λ num r', num = numWorkers ∧ r' = (0%nat, ∅, 0%nat, 1%nat, Z.to_nat numWorkers))).
    open_inv. by destruct H8 as [-> _]. }
  intros ? ? [-> ->]. rewrite <- (length_seq (Z.to_nat numWorkers) 0) at 2.
  eapply owes_bind.
  { apply (owes_for_each _ _ _ _ (λ l : list nat, (0%nat, ∅, 0%nat, 1%nat, length l) : units)). intros i l.
    eapply owes_bind; [apply works_wg_add|]. intros _ ? ->.
    exists (0%nat, ∅, 0%nat, 0%nat, 1%nat), (0%nat, ∅, 0%nat, 1%nat, length l). split_and!; [done| |done].
    eapply owes_bind; [apply works_worker|]. intros _ r _. apply (works_any _ _ (λ _ r', r' = r)), works_wg_add. }
  intros _ ? ->. eapply (owes_bind _ _ _ _ _ _ _ (λ _ r', r' = (0%nat, ∅, 0%nat, 1%nat, 0%nat))).
  { exists u_none, (0%nat, ∅, 0%nat, 1%nat, 0%nat). split_and!; [done|apply works_feedQueue|done]. }
  intros _ ? ->. eapply (owes_bind _ _ _ _ _ _ _ (λ _ r', r' = (0%nat, ∅, 0%nat, 1%nat, 0%nat))).
  { apply owes_select; [done|]. intros w others res HI Ho. destruct (ww_done w); [|by apply elem_of_nil in Ho].
    apply list_elem_of_singleton in Ho as ->. by eexists. }
  intros _ ? ->. eapply (owes_bind _ _ _ _ _ _ _ (λ _, any_units)).
  { open_inv. unfold close_chan. destruct (ch_closed (wp_jobs (ww_workers w))); [lia|].
    exists u_none. split; [|done]. keep_inv; lia. }
  intros _ r _. apply owes_select; [done|]. intros w others res HI Ho.
  destruct (ww_wg w =? 0); [|by apply elem_of_nil in Ho].
  apply list_elem_of_singleton in Ho as ->. by eexists.
Qed.
End walk.

(** ** Every interleaving *)

(** What happens outside the worker pool: time passes, the context ends, the DHT nodes
    run, other goroutines change the database. *)
Inductive workers_env (n : nat) : config Workers → config Workers → Prop :=
  | env_time w pool t : workers_env n (w, pool) (set_env (ww_done w) (ww_wg w) t w, pool)
  | env_cancel w pool : workers_env n (w, pool) (set_env true (ww_wg w) (ww_now w) w, pool)
  | env_nodes w pool p : pool_inv n p → workers_env n (w, pool) (set_search p (ww_searches w) w, pool)
  | env_database w pool s : workers_env n (w, pool) (set_queue (ww_queue w) s w, pool).

(** The goroutines: [Start], and any number of others that submit hashes. *)
Definition worker_goroutines (clients : list (list (bytes * bytes))) : list (prog Workers unit) :=
  Start :: ((λ subs, for_each subs (λ x, _ ← Submit x.1 x.2; Ret tt)) <$> clients).

(** A world as [New] makes it. *)
Record new_workers (n : nat) (maxSize numWorkers perWorker timeout : Z) (w : Workers) : Prop := mkNewWorkers {
  nw_queue : NewDownloadQueue maxSize = Ok (ww_queue w);
  nw_workers : NewWorkerPool numWorkers perWorker timeout = Ok (ww_workers w);
  nw_perWorker : 0 ≤ perWorker;
  nw_sems : ww_sems w = [];
  nw_open : ww_open w = [];
  nw_searches : ww_searches w = [];
  nw_pool : pool_inv n (ww_pool w);
  nw_wg : ww_wg w = 0;
}.

Lemma new_workers_inv h n maxSize numWorkers perWorker timeout w :
  new_workers n maxSize numWorkers perWorker timeout w →
  workers_inv h n numWorkers perWorker (0%nat, ∅, 0%nat, 1%nat, Z.to_nat numWorkers) w.
Proof.
  intros [Hq Hw Hp Hs Ho Hl Hpool _]. unfold NewDownloadQueue in Hq. destruct (Z.ltb_spec maxSize 0); [done|].
  destruct (maxAlloc <? maxSize * item_size); [done|].
  injection Hq as Hq. unfold NewWorkerPool in Hw. destruct (_ || _); [done|]. injection Hw as Hw.
  constructor; rewrite <- ?Hq, <- ?Hw, ?Hs, ?Ho, ?Hl; cbn; try done; try lia.
Qed.

Lemma workers_env_owes h n numWorkers perWorker c c' :
  workers_env n c c' →
  pool_owes (workers_inv h n numWorkers perWorker) worker_panic (λ _ _, True) any_units c →
  pool_owes (workers_inv h n numWorkers perWorker) worker_panic (λ _ _, True) any_units c'.
Proof.
  intros Hstep (rs & Hp & HI). exists rs.
  destruct Hstep; (split; [exact Hp|]); destruct HI; by constructor.
Qed.

Lemma worker_pool_owes h n maxSize numWorkers perWorker timeout w clients :
  new_workers n maxSize numWorkers perWorker timeout w →
  pool_owes (workers_inv h n numWorkers perWorker) worker_panic (λ _ _, True) any_units (w, worker_goroutines clients).
Proof.
  intros Hw.
  apply (pool_owes_intro _ _ _ _ _ _ ((0%nat, ∅, 0%nat, 1%nat, Z.to_nat numWorkers) ::
    replicate (length clients) u_none)).
  - constructor; [apply works_Start, Hw|]. induction clients as [|subs cs IH]; constructor; [|exact IH].
    eapply works_any. apply (owes_for_each _ _ _ _ (λ _, u_none)). intros x l.
    eapply owes_bind; [apply works_Submit|]. by intros ? ? ->.
  - cbn [u_total foldr]. change (foldr u_add u_none ?l) with (u_total l). rewrite u_total_none.
    rewrite (comm u_add), (left_id u_none u_add). by eapply new_workers_inv.
Qed.

Definition count_in (h : bytes) (l : list bytes) : nat := length (filter (λ x, x = h) l).

Lemma count_in_NoDup l : (∀ h, (count_in h l ≤ 1)%nat) → NoDup l.
Proof.
  unfold count_in. induction l as [|x l IH]; intros Hl; constructor.
  - intros Hx. specialize (Hl x). rewrite filter_cons, decide_True in Hl by done. cbn in Hl.
    assert (x ∈ filter (λ y, y = x) l) as Hin by (by apply list_elem_of_filter).
    destruct (filter (λ y, y = x) l); [by apply elem_of_nil in Hin|cbn in Hl; lia].
  - apply IH. intros h. specialize (Hl h). rewrite filter_cons in Hl. case_decide; cbn in Hl; lia.
Qed.

Lemma count_in_fmap {A : Type} (f : A → bytes) h l :
  count_in h (f <$> l) = length (filter (λ x, f x = h) l).
Proof.
  unfold count_in. induction l as [|x l IH]; [done|]. cbn [fmap list_fmap]. rewrite !filter_cons.
  case_decide; cbn; by rewrite IH.
Qed.

Lemma count_in_multiplicity h l : multiplicity h (list_to_set_disj l : gmultiset bytes) = count_in h l.
Proof.
  unfold count_in. induction l as [|x l IH]; [done|].
  rewrite list_to_set_disj_cons, multiplicity_disj_union, IH, multiplicity_one_if, filter_cons.
  unfold one_if. by case_decide.
Qed.

Lemma sum_list_bound (l : list nat) (b : Z) :
  0 ≤ b → Forall (λ k, Z.of_nat k ≤ b) l → Z.of_nat (sum_list l) ≤ Z.of_nat (length l) * b.
Proof.
  intros Hb. induction 1 as [|k l Hk _ IH]; [done|].
  change (Z.of_nat (k + sum_list l) ≤ Z.of_nat (S (length l)) * b). nia.
Qed.

Definition everywhere (w : Workers) : list bytes :=
  (di_infoHash <$> dq_items (ww_queue w)) ++ (dj_infoHash <$> ch_buf (wp_jobs (ww_workers w))) ++ ww_open w.

(** What the invariant says of the state, for every hash. *)
Lemma everywhere_exclusive n numWorkers perWorker w :
  0 ≤ perWorker → (∀ h, ∃ m, workers_inv h n numWorkers perWorker m w) →
  NoDup (everywhere w) ∧
  (∀ x, x ∈ everywhere w → x ∈ dq_inFlight (ww_queue w)) ∧
  Z.of_nat (length (ww_open w)) ≤ Z.max 0 numWorkers * perWorker ∧
  Z.of_nat (length (dq_items (ww_queue w))) ≤ dq_maxSize (ww_queue w).
Proof.
  intros Hp Hinv.
  assert (∀ h, (count_in h (everywhere w) ≤ in_flight h (ww_queue w))%nat) as Hcount.
  { intros h. destruct (Hinv h) as ([[[[u o] t] c] k] & [H1 _ H3 _ _ _ _ _ _ _]).
    unfold everywhere. unfold count_in. rewrite !filter_app, !length_app.
    rewrite <- H3, count_in_multiplicity in H1. unfold occurrences, job_count in H1.
    rewrite <- !count_in_fmap in H1. unfold count_in in *. lia. }
  split_and!.
  - apply count_in_NoDup. intros h. specialize (Hcount h). unfold in_flight in Hcount. case_decide; lia.
  - intros x Hx. specialize (Hcount x). unfold in_flight in Hcount. case_decide; [done|].
    assert (x ∈ filter (λ y, y = x) (everywhere w)) as Hin by (by apply list_elem_of_filter).
    unfold count_in in Hcount. destruct (filter _ (everywhere w)); [by apply elem_of_nil in Hin|cbn in Hcount; lia].
  - destruct (Hinv []) as ([[[[u o] t] c] k] & [_ _ H3 H4 H5 H6 _ _ _ _]).
    pose proof (sum_list_bound _ _ Hp H5) as Hs. rewrite H4, <- H3 in Hs.
    assert (size (list_to_set_disj (ww_open w) : gmultiset bytes) = length (ww_open w)) as E.
    { clear. induction (ww_open w) as [|x l IH]; [done|].
      rewrite list_to_set_disj_cons, gmultiset_size_disj_union, gmultiset_size_singleton, IH. done. }
    rewrite E in Hs. nia.
  - by destruct (Hinv []) as ([[[[u o] t] c] k] & []).
Qed.

(** C4: downloads are exclusive and bounded. Take the worker pool of [New] with its
    feeder, workers and downloads, any goroutines that submit hashes, and any
    interleaving with the nodes, the clock, the database and the end of the context. At
    every moment a hash is at most once in the queue, in the job channel or behind an open
    connection, never in two of these, and then marked as in flight: no two downloads of
    one hash run at a time. At most [numWorkers * perWorker] connections are open, the
    queue keeps its bound, and the only panics are those a peer can cause and the send on
    the channel closed at shutdown. *)
Theorem downloads_exclusive n maxSize numWorkers perWorker timeout clients w w' pool :
  new_workers n maxSize numWorkers perWorker timeout w →
  rtc (λ c c', cstep c c' ∨ workers_env n c c') (w, worker_goroutines clients) (w', pool) →
  NoDup (everywhere w') ∧
  (∀ x, x ∈ everywhere w' → x ∈ dq_inFlight (ww_queue w')) ∧
  Z.of_nat (length (ww_open w')) ≤ Z.max 0 numWorkers * perWorker ∧
  Z.of_nat (length (dq_items (ww_queue w'))) ≤ dq_maxSize (ww_queue w') ∧
  ∀ p, cpanics (w', pool) p → worker_panic p.
Proof.
  intros Hw Hr.
  assert (∀ h, pool_owes (workers_inv h n numWorkers perWorker) worker_panic (λ _ _, True) any_units (w', pool) ∧
    ∀ p, cpanics (w', pool) p → worker_panic p) as Hinv.
  { intros h. eapply reachable_owes; [|by eapply worker_pool_owes|exact Hr]. apply workers_env_owes. }
  split; [|split; [|split; [|split; [|apply (Hinv [])]]]];
    eapply (everywhere_exclusive n numWorkers perWorker); try apply Hw; intros h;
    destruct (Hinv h) as [(rs & _ & HI) _]; eauto.
Qed.

(** ** One job *)

(** What a job that ended leaves: the hash is in flight no more, nothing is left open, the
    counters went up by [success] and [fail], and the database is [s]. *)
Record job_done (job : downloadJob) (success fail : Z) (s : Storage) (w w' : Workers) : Prop := mkJobDone {
  jd_queue : ww_queue w' = set_inFlight (dq_inFlight (ww_queue w) ∖ {[dj_infoHash job]}) (ww_queue w);
  jd_db : ww_db w' = s;
  jd_open : ww_open w' = ww_open w;
  jd_success : wp_successCount (ww_workers w') = wrapU 64 (wp_successCount (ww_workers w) + success);
  jd_fail : wp_failCount (ww_workers w') = wrapU 64 (wp_failCount (ww_workers w) + fail);
  jd_downloading : wp_downloading (ww_workers w') = wp_downloading (ww_workers w);
  jd_jobs : wp_jobs (ww_workers w') = wp_jobs (ww_workers w);
}.

(** The counters are within their types. *)
Definition counters_ok (x : WorkerPool) : Prop :=
  0 ≤ wp_successCount x < 2 ^ 64 ∧ 0 ≤ wp_failCount x < 2 ^ 64 ∧ - 2 ^ 31 ≤ wp_downloading x < 2 ^ 31.

Lemma remove_one_last x (l : list bytes) : x ∉ l → remove_one x (l ++ [x]) = l.
Proof.
  induction l as [|y l IH]; intros Hx; cbn [app remove_one].
  - by rewrite decide_True.
  - rewrite decide_False, IH by set_solver. done.
Qed.

Lemma outcomes_log_hash {B : Type} x (k : unit → prog Workers B) w :
  (8 ≤ length x)%nat → outcomes (log_hash x ≫= k) w = outcomes (k tt) w.
Proof.
  intros Hx. unfold log_hash. change ((?p ≫= ?f) ≫= k) with (prog_bind k (p ≫= f)). cbn.
  unfold slice. destruct (Z.leb_spec 8 (Z.of_nat (length x))); [done|lia].
Qed.

Definition dialed_world (w : Workers) : Workers := set_open (ww_open w) (S (ww_dialed w)) w.

Definition attempt (infoHash addr : bytes) (w : Workers) : outcome meta_error (TorrentMeta * Conn) :=
  Download (wp_downloader (ww_workers w)) infoHash (ww_dials w addr (ww_dialed w)).

Lemma try_peer_outcomes x infoHash addr w o :
  x ∉ ww_open w → o ∈ outcomes (try_peer x infoHash addr) w →
  o = match attempt infoHash addr w with
      | Ok (meta, _) => Ok (Some meta, dialed_world w)
      | Err _ => Ok (None, dialed_world w)
      | Panic p => Panic p
      | NoFuel => NoFuel
      end.
Proof.
  intros Hx. unfold try_peer, attempt. rewrite outcomes_gets, outcomes_update, outcomes_checked. unfold dial. cbn [fst snd].
  destruct (ww_dials w addr (ww_dialed w)) as [c|] eqn:Ec; destruct (Download _ _ _) as [[meta c']| | |];
    rewrite ?outcomes_modify; intros Ho; apply list_elem_of_singleton in Ho as ->; try done.
  - unfold hang_up, set_open. cbn. by rewrite remove_one_last.
  - unfold hang_up, set_open. cbn. by rewrite remove_one_last.
Qed.

Lemma try_peers_one x infoHash addr w o :
  (8 ≤ length x)%nat → x ∉ ww_open w → o ∈ outcomes (try_peers 0 x infoHash [addr]) w →
  o = if ww_done w then Ok (None, w)
      else match attempt infoHash addr w with
           | Ok (meta, _) => Ok (Some (Some meta), dialed_world w)
           | Err _ => Ok (Some None, dialed_world w)
           | Panic p => Panic p
           | NoFuel => NoFuel
           end.
Proof.
  intros Hx Hopen Ho. cbn [try_peers] in Ho. rewrite outcomes_gets in Ho.
  destruct (ww_done w); [by apply list_elem_of_singleton in Ho|].
  apply outcomes_bind_elem in Ho as (o1 & ->%try_peer_outcomes & Ho); [|done].
  destruct (attempt infoHash addr w) as [[meta c]| | |]; cbn [after] in Ho;
    try by apply list_elem_of_singleton in Ho.
  - rewrite outcomes_log_hash in Ho by done. by apply list_elem_of_singleton in Ho.
  - change (0 <? 2)%nat with true in Ho. cbv iota in Ho.
    apply outcomes_bind_elem in Ho as (o1 & Ho1 & Ho). rewrite outcomes_gets in Ho1.
    destruct (wp_downloading _ <? 10).
    + unfold log_hash in Ho1. rewrite outcomes_checked in Ho1. unfold slice in Ho1.
      destruct (Z.leb_spec 8 (Z.of_nat (length x))); [|lia]. cbn in Ho1.
      apply list_elem_of_singleton in Ho1 as ->. by apply list_elem_of_singleton in Ho.
    + apply list_elem_of_singleton in Ho1 as ->. by apply list_elem_of_singleton in Ho.
Qed.

(** A call to the database succeeds, or fails and changes nothing. *)
Lemma db_change_outcomes op w o :
  (∀ s, op no_faults s = Err ErrDB ∨ ∃ s', op no_faults s = Ok s') → (∀ s, op (λ _, true) s = Err ErrDB) →
  o ∈ outcomes (db_change op) w →
  (∃ s, op no_faults (ww_db w) = Ok s ∧ o = Ok (true, set_queue (ww_queue w) s w)) ∨ o = Ok (false, w).
Proof.
  intros H1 H2 Ho. unfold db_change in Ho. cbn [outcomes] in Ho. apply elem_of_concat in Ho as (l & Hl & Ho).
  apply list_elem_of_fmap in Hl as (o1 & -> & Hl). apply list_elem_of_fmap in Hl as (fails & -> & Hf).
  apply elem_of_cons in Hf as [->|Hf].
  - destruct (H1 (ww_db w)) as [Hs|[s Hs]]; rewrite Hs in Ho; apply list_elem_of_singleton in Ho as ->; [by right|left; eauto].
  - apply list_elem_of_singleton in Hf as ->. rewrite H2 in Ho. apply list_elem_of_singleton in Ho as ->. by right.
Qed.

Lemma insert_outcomes t w o :
  o ∈ outcomes (db_change (λ fails, InsertTorrent fails t)) w →
  o = Ok (true, set_queue (ww_queue w) (set_torrents (<[tr_InfoHash t := row_of t]> (st_torrents (ww_db w))) (ww_db w)) w)
  ∨ o = Ok (false, w).
Proof.
  intros [(s & Hs & ->)| ->]%db_change_outcomes; [|by right|intros s; unfold InsertTorrent, DeleteHash, calls; destruct (st_open s); eauto|intros s; unfold InsertTorrent, DeleteHash, calls; by destruct (st_open s)].
  left. unfold InsertTorrent, DeleteHash, calls in Hs. by destruct (st_open (ww_db w)); [injection Hs as <-|].
Qed.

Lemma delete_outcomes x w o :
  o ∈ outcomes (db_change (λ fails, DeleteHash fails x)) w →
  o = Ok (true, set_queue (ww_queue w) (set_hashes (delete x (st_hashes (ww_db w))) (ww_db w)) w) ∨ o = Ok (false, w).
Proof.
  intros [(s & Hs & ->)| ->]%db_change_outcomes; [|by right|intros s; unfold InsertTorrent, DeleteHash, calls; destruct (st_open s); eauto|intros s; unfold InsertTorrent, DeleteHash, calls; by destruct (st_open s)].
  left. unfold InsertTorrent, DeleteHash, calls in Hs. by destruct (st_open (ww_db w)); [injection Hs as <-|].
Qed.

Lemma to_hash_20 h : length h = 20%nat → to_hash h = h.
Proof.
  intros Hl. unfold to_hash, copy_at. rewrite length_replicate, Nat.sub_0_r, Nat.add_0_l, take_0, drop_replicate, Hl.
  rewrite take_ge by lia. cbn. by rewrite app_nil_r.
Qed.

Definition saved_db (x : bytes) (meta : TorrentMeta) (w : Workers) : Storage :=
  set_torrents (<[x := row_of (record_for x meta (ww_now w))]> (st_torrents (ww_db w))) (ww_db w).

Lemma process_body_outcomes job h w o :
  dj_infoHash job = hex_EncodeToString h → length h = 20%nat → dj_peerAddr job ≠ [] →
  dj_infoHash job ∉ ww_open w →
  o ∈ outcomes (process_body job) w →
  let x := dj_infoHash job in
  let w' := dialed_world w in
  if ww_done w then o = Ok (tt, w)
  else
    match attempt h (dj_peerAddr job) w with
    | Ok (meta, _) =>
        o = Ok (tt, add_counts 0 1 0 w') ∨
        ∃ s, o = Ok (tt, add_counts 1 0 0 (set_queue (ww_queue w) s w')) ∧
          (s = saved_db x meta w ∨ s = set_hashes (delete x (st_hashes (ww_db w))) (saved_db x meta w))
    | Err _ => o = Ok (tt, add_counts 0 1 0 w')
    | Panic p => o = Panic p
    | NoFuel => o = NoFuel
    end.
Proof.
  intros Hx Hl Ha Hopen Ho x w'.
  assert (8 ≤ length x)%nat as Hlx by (unfold x; rewrite Hx, length_hex_Encode; lia).
  unfold process_body in Ho. rewrite Hx, hex_Decode_Encode, to_hash_20, <- Hx in Ho by done.
  unfold peers_to_try in Ho. rewrite decide_False in Ho by done.
  change (o ∈ outcomes (try_peers 0 x h [dj_peerAddr job] ≫= λ meta : option (option TorrentMeta),
    match meta with
    | None => Ret tt
    | Some None =>
        failCount ← gets (λ w, wp_failCount (ww_workers w));
        _ ← (if failCount mod 100 =? 0 then log_hash x else Ret tt);
        count 0 1 0
    | Some (Some meta) =>
        now ← gets ww_now;
        saved ← db_change (λ fails, InsertTorrent fails (record_for x meta now));
        if negb saved then count 0 1 0
        else
          _ ← db_change (λ fails, DeleteHash fails x);
          count 1 0 0
    end) w) in Ho.
  apply outcomes_bind_elem in Ho as (o1 & ->%try_peers_one & Ho); [|done..].
  destruct (ww_done w); [by apply list_elem_of_singleton in Ho|].
  destruct (attempt h (dj_peerAddr job) w) as [[meta c]| | |]; cbn [after] in Ho;
    try by apply list_elem_of_singleton in Ho.
  - rewrite outcomes_gets in Ho. apply outcomes_bind_elem in Ho as (o1 & Ho1 & Ho).
    apply insert_outcomes in Ho1 as [-> | ->]; cbn [after negb] in Ho; [|left; by apply list_elem_of_singleton in Ho].
    right. apply outcomes_bind_elem in Ho as (o1 & Ho1 & Ho).
    apply delete_outcomes in Ho1 as [-> | ->]; cbn [after] in Ho; apply list_elem_of_singleton in Ho as ->.
    + eexists. split; [|right; reflexivity]. done.
    + eexists. split; [|left; reflexivity]. done.
  - rewrite outcomes_gets in Ho. cbn beta in Ho. destruct (_ mod 100 =? 0).
    + rewrite outcomes_log_hash in Ho by done. by apply list_elem_of_singleton in Ho.
    + by apply list_elem_of_singleton in Ho.
Qed.

Lemma wrapU_0 z : wrapU 64 (wrapU 64 z + 0) = wrapU 64 z.
Proof. unfold wrapU. by rewrite Z.add_0_r, Zmod_mod. Qed.

(** A job under way: [downloading] counts it, the counters went up. *)
Record counted_from (w : Workers) (success fail : Z) (s : Storage) (w3 : Workers) : Prop := mkCountedFrom {
  cf_queue : ww_queue w3 = ww_queue w;
  cf_db : ww_db w3 = s;
  cf_open : ww_open w3 = ww_open w;
  cf_success : wp_successCount (ww_workers w3) = wrapU 64 (wp_successCount (ww_workers w) + success);
  cf_fail : wp_failCount (ww_workers w3) = wrapU 64 (wp_failCount (ww_workers w) + fail);
  cf_downloading : wp_downloading (ww_workers w3) = wrapS 32 (wp_downloading (ww_workers w) + 1);
  cf_jobs : wp_jobs (ww_workers w3) = wp_jobs (ww_workers w);
}.

Lemma counted_more w w1 a b s :
  counted_from w 0 0 (ww_db w) w1 →
  counted_from w a b s (add_counts a b 0 (set_queue (ww_queue w1) s (dialed_world w1))).
Proof.
  intros [H1 H2 H3 H4 H5 H6 H7]. constructor; cbn; rewrite ?H4, ?H5, ?H6; try done.
  - unfold wrapU. by rewrite Zplus_mod_idemp_l, Z.add_0_r.
  - unfold wrapU. by rewrite Zplus_mod_idemp_l, Z.add_0_r.
  - by rewrite Z.add_0_r, wrapS_wrapS by lia.
Qed.

(** C24: what becomes of a job. A worker's job with a peer address, run on its own for a
    40-digit hash, dials that peer once unless the context has ended. If the download
    succeeds and the record is saved, the torrent is stored with the data of the metadata,
    the hash is no longer pending (unless that deletion fails, which is ignored) and
    [successCount] goes up; if the download or the insertion fails, the database is
    unchanged and [failCount] goes up; if the context ended, nothing else changes. In every
    case the hash leaves the set of hashes in flight, no connection stays open and
    [downloading] is back; or the process panics with the download. *)
Theorem processJob_correct job h w o :
  dj_infoHash job = hex_EncodeToString h → length h = 20%nat → dj_peerAddr job ≠ [] →
  dj_infoHash job ∉ ww_open w → counters_ok (ww_workers w) →
  o ∈ outcomes (processJob job) w →
  let x := dj_infoHash job in
  if ww_done w then ∃ w', o = Ok (tt, w') ∧ job_done job 0 0 (ww_db w) w w'
  else
    match attempt h (dj_peerAddr job) w with
    | Ok (meta, _) => ∃ w', o = Ok (tt, w') ∧
        (job_done job 0 1 (ww_db w) w w' ∨ job_done job 1 0 (saved_db x meta w) w w' ∨
         job_done job 1 0 (set_hashes (delete x (st_hashes (ww_db w))) (saved_db x meta w)) w w')
    | Err _ => ∃ w', o = Ok (tt, w') ∧ job_done job 0 1 (ww_db w) w w'
    | Panic p => o = Panic p
    | NoFuel => o = NoFuel
    end.
Proof.
  intros Hx Hl Ha Hopen (Hc1 & Hc2 & Hc3) Ho x. unfold processJob, count in Ho.
  rewrite outcomes_modify in Ho. set (w1 := add_counts 0 0 1 w) in *.
  apply outcomes_bind_elem in Ho as (o1 & Ho1 & Ho).
  apply (process_body_outcomes job h w1 o1 Hx Hl Ha Hopen) in Ho1.
  change (ww_done w1) with (ww_done w) in Ho1.
  change (attempt h (dj_peerAddr job) w1) with (attempt h (dj_peerAddr job) w) in Ho1.
  assert (∀ a b s w3, o ∈ after (λ _ : unit, _ ← modify (add_counts 0 0 (-1)); in_queue (Complete x)) (Ok (tt, w3)) →
    counted_from w a b s w3 → ∃ w', o = Ok (tt, w') ∧ job_done job a b s w w') as Hend.
  { intros a b s w3 Hin [H1 H2 H3 H4 H5 H6 H7]. cbn [after] in Hin. rewrite outcomes_modify in Hin.
    apply list_elem_of_singleton in Hin as ->. eexists. split; [done|].
    constructor; cbn; rewrite ?H1, ?H4, ?H5, ?H6, ?wrapU_0; try done.
    rewrite wrapS_add, wrapS_id by lia. lia. }
  assert (counted_from w 0 0 (ww_db w) w1) as Hw1.
  { constructor; cbn; rewrite ?Z.add_0_r; done. }
  destruct (ww_done w); [by subst o1; eapply Hend|].
  destruct (attempt h (dj_peerAddr job) w) as [[meta c]| | |].
  - destruct Ho1 as [->|(s & -> & Hs)].
    + destruct (Hend 0 1 (ww_db w) _ Ho) as (w' & -> & Hj); [by apply counted_more|]. eauto.
    + destruct (Hend 1 0 s _ Ho) as (w' & -> & Hj); [by apply counted_more|].
      exists w'. split; [done|]. right. destruct Hs as [-> | ->]; [by left|by right].
  - subst o1. destruct (Hend 0 1 (ww_db w) _ Ho) as (w' & -> & Hj); [by apply counted_more|]. eauto.
  - subst o1. by apply list_elem_of_singleton in Ho.
  - subst o1. by apply list_elem_of_singleton in Ho.
Qed.

(** ** Concrete runs *)

Definition sample_workers : Workers :=
  mkWorkers (mkWorkerPool 1 1 (NewMetadataDownloader 0) (make_chan 1) 0 0 0) (mkDownloadQueue false [] 4 ∅)
    (mkStorage ∅ ∅ false true) sample_pool [] [] [] (λ _ _, Some tiny_conn) 0 false 0 7000000000.

Lemma sample_workers_new : new_workers 1 4 1 1 0 sample_workers.
Proof. constructor; try done. apply sample_pool_inv. Qed.

Lemma downloads_exclusive_witness :
  let w' := set_env true 0 7000000000 sample_workers in
  rtc (λ c c', cstep c c' ∨ workers_env 1 c c') (sample_workers, worker_goroutines [[(bs "h", bs "a")]])
    (w', worker_goroutines [[(bs "h", bs "a")]]) ∧
  NoDup (everywhere w') ∧ ∀ p, cpanics (w', worker_goroutines [[(bs "h", bs "a")]]) p → worker_panic p.
Proof.
  assert (rtc (λ c c', cstep c c' ∨ workers_env 1 c c') (sample_workers, worker_goroutines [[(bs "h", bs "a")]])
    (set_env true 0 7000000000 sample_workers, worker_goroutines [[(bs "h", bs "a")]])) as Hr.
  { eapply rtc_l; [right; apply env_cancel|]. apply rtc_refl. }
  split; [exact Hr|].
  destruct (downloads_exclusive 1 4 1 1 0 [[(bs "h", bs "a")]] sample_workers _ _ sample_workers_new Hr)
    as (H1 & _ & _ & _ & H2).
  split; [exact H1|exact H2].
Defined.

Definition tiny_job : downloadJob := mkDownloadJob (hex_EncodeToString (sha1_Sum tiny_info)) (bs "1.2.3.4:5").

Lemma processJob_correct_witness :
  ∃ o w', o ∈ outcomes (processJob tiny_job) sample_workers ∧ o = Ok (tt, w') ∧
    (job_done tiny_job 0 1 (ww_db sample_workers) sample_workers w' ∨
     job_done tiny_job 1 0 (saved_db (dj_infoHash tiny_job) tiny_meta sample_workers) sample_workers w' ∨
     job_done tiny_job 1 0 (set_hashes (delete (dj_infoHash tiny_job) ∅)
       (saved_db (dj_infoHash tiny_job) tiny_meta sample_workers)) sample_workers w').
Proof.
  destruct (outcomes (processJob tiny_job) sample_workers) as [|o l] eqn:E;
    [apply (f_equal length) in E; vm_compute in E; discriminate E|].
  exists o. pose proof (processJob_correct tiny_job (sha1_Sum tiny_info) sample_workers o) as H.
  destruct (attempt (sha1_Sum tiny_info) (dj_peerAddr tiny_job) sample_workers) as [[meta c]| | |] eqn:Ea;
    vm_compute in Ea; try discriminate Ea.
  injection Ea as <- <-.
  destruct H as (w' & Ho & Hd).
  - reflexivity.
  - apply length_sha1_Sum.
  - discriminate.
  - apply not_elem_of_nil.
  - split; [|split]; (split; [vm_compute; discriminate|vm_compute; reflexivity]).
  - rewrite E. apply list_elem_of_here.
  - exists w'. split; [apply list_elem_of_here|]. split; [exact Ho|exact Hd].
Defined.

(** The goroutine of [main] that ends the context. *)
Definition cancel : prog Workers unit := modify (λ w, set_env true (ww_wg w) (ww_now w) w).

(** [Start] up to its wait, a submission, the feeder up to its send; then the context
    ends and [Start] closes the channel. *)
Definition shutdown_schedule : list (nat * nat) :=
  [(0, 0); (0, 0); (0, 0); (0, 0);
   (1, 0); (1, 0); (1, 0); (1, 0);
   (4, 0); (4, 0); (4, 0); (4, 0); (4, 0); (4, 0);
   (2, 0); (0, 0); (0, 0)]%nat.

(** the shutdown races with the feeder. [Start] closes the job channel as soon as the
    context ends, without waiting for [feedQueue]; when that is about to send a job, the
    send on the closed channel can be chosen over the end of the context, and panics. *)
Theorem shutdown_send_panics :
  ∃ c', rtc cstep (sample_workers, [Start; _ ← Submit (bs "h") (bs "a"); Ret tt; cancel]) c' ∧
    cpanics c' PanicSendClosed.
Proof. apply (follow_panics shutdown_schedule 4 0). vm_compute. reflexivity. Qed.
