(* ===== verification/Shutdown.v ===== *)
(** * The worker pool stops when it is told to

    Once the context has ended, every goroutine of the worker pool can come to its end.
    The loops of the feeder and the workers can be left ([quits]).  Besides, a goroutine
    may have to wait for the queue's mutex, for a job, or for the workers to finish; each of these waits is for something another goroutine holds (the mutex, the
    right to close the job channel, a place in the wait group), and who holds one of them
    never waits for a later one in this order. *)

From stdpp Require Import gmultiset.
From S2P Require Import Prelude GoStd Net Conc Credit Progress Bencode NodeID Routing Krpc.
From S2P Require Import Node NodeSpec Pool Sha1 Metadata MetadataSpec Storage Queue Worker WorkerSpec Quits.

#[local] Arguments disj_union : simpl never.
#[local] Arguments gmultiset_disj_union : simpl never.
#[local] Arguments multiplicity : simpl never.

(** ** The mutex of the queue *)

(** The unit: the lock is held. *)
Definition lock_inv (k : nat) (w : QueueWorld) : Prop := k = if dq_locked (qw_queue w) then 1%nat else 0%nat.
Definition waits_lock (k : nat) (w : QueueWorld) : Prop := k = 0%nat ∧ dq_locked (qw_queue w) = true.

Abbreviation locks p r Q := (owes lock_inv (λ _, True) waits_lock (λ k, k = 0%nat) p r Q).

Lemma locks_Lock : locks Lock 0%nat (λ _ r, r = 1%nat).
Proof.
  apply owes_select.
  - intros w o HI E. split; [done|]. by destruct (dq_locked (qw_queue w)).
  - unfold lock_inv. intros w o res HI Ho. destruct (dq_locked (qw_queue w)); [by apply elem_of_nil in Ho|].
    apply list_elem_of_singleton in Ho as ->. exists 1%nat. cbn in *. split; [lia|done].
Qed.

Lemma locks_Unlock : locks Unlock 1%nat (λ _ r, r = 0%nat).
Proof.
  eapply owes_modify; [|done]. unfold lock_inv. intros w o. cbn. destruct (dq_locked (qw_queue w)); lia.
Qed.

Lemma locks_update {A : Type} (f : QueueWorld → A * QueueWorld) r :
  (∀ w, dq_locked (qw_queue (f w).2) = dq_locked (qw_queue w)) → locks (update f) r (λ _ r', r' = r).
Proof. intros Hf. apply owes_update. unfold lock_inv. intros w o HI. exists r. by rewrite Hf. Qed.

Lemma locks_read {A : Type} (f : QueueWorld → A) r : locks (gets f) r (λ _ r', r' = r).
Proof. by apply owes_gets. Qed.

Lemma locks_Complete x r : locks (Complete x) r (λ _ r', r' = r).
Proof. by eapply owes_modify. Qed.

Lemma locks_load_or_store x r : locks (update (load_or_store x)) r (λ _ r', r' = r).
Proof. apply locks_update. intros w. unfold load_or_store. by case_decide. Qed.

Lemma locks_append x addr n r : locks (update (append_item x addr n)) r (λ _ r', r' = r).
Proof. apply locks_update. intros w. unfold append_item. by destruct (_ <=? _). Qed.

Lemma locks_pop r : locks (update pop_item) r (λ _ r', r' = r).
Proof. apply locks_update. intros w. unfold pop_item. by destruct (dq_items _). Qed.

Lemma locks_Add x addr : locks (Add x addr) 0%nat (λ _ r, r = 0%nat).
Proof.
  unfold Add. eapply owes_bind; [apply locks_load_or_store|]. intros [] ? ->; [done|].
  eapply owes_bind; [apply locks_Lock|]. intros _ ? ->.
  eapply owes_bind; [apply locks_append|]. intros [] ? ->.
  - eapply owes_bind; [apply locks_Unlock|]. by intros _ ? ->.
  - eapply owes_bind; [apply (locks_Complete x)|]. intros _ ? ->.
    eapply owes_bind; [apply locks_Unlock|]. by intros _ ? ->.
Qed.

Lemma locks_Get : locks Get 0%nat (λ _ r, r = 0%nat).
Proof.
  unfold Get. eapply owes_bind; [apply locks_Lock|]. intros _ ? ->.
  eapply owes_bind; [apply locks_pop|]. intros item ? ->.
  eapply owes_bind; [apply locks_Unlock|]. by intros _ ? ->.
Qed.

Lemma locks_Size : locks Size 0%nat (λ _ r, r = 0%nat).
Proof.
  unfold Size. eapply owes_bind; [apply locks_Lock|]. intros _ ? ->.
  eapply owes_bind; [apply locks_read|]. intros n ? ->.
  eapply owes_bind; [apply locks_Unlock|]. by intros _ ? ->.
Qed.

(** ** What the goroutines of the pool hold *)

(** The mutex, tokens, the right to close the job channel, and places in the wait group.
    The token [Some i] is one of semaphore [i]; [None] is the knowledge that the context
    has ended. *)
Abbreviation held := (nat * gmultiset (option nat) * nat * nat)%type.

Record stop_inv (m : held) (w : Workers) : Prop := mkStopInv {
  si_lock : m.1.1.1 = if dq_locked (ww_queue w) then 1%nat else 0%nat;
  si_sems : ∀ i, multiplicity (Some i) m.1.1.2 = default 0%nat (ww_sems w !! i);
  si_jobs : Forall (λ j, dj_peerAddr j ≠ []) (ch_buf (wp_jobs (ww_workers w)));
  si_closed : m.1.2 = if ch_closed (wp_jobs (ww_workers w)) then 0%nat else 1%nat;
  si_wg : ww_wg w = Z.of_nat m.2;
  si_done : None ∈ m.1.1.2 → ww_done w = true;
}.

(** Where a goroutine may wait: as long as the context runs, anywhere; after that, without
    the mutex for the mutex; without the right to close the channel for it to be closed;
    and without a place in the wait group for the group. *)
Definition waits (m : held) (w : Workers) : Prop :=
  ww_done w = false ∨
  m.1.1.1 = 0%nat ∧
    (dq_locked (ww_queue w) = true ∨
     m.1.2 = 0%nat ∧
       (ch_closed (wp_jobs (ww_workers w)) = false ∨ m.2 = 0%nat ∧ ww_wg w ≠ 0)).

(** A goroutine ends with none of the three. *)
Definition empty_handed (m : held) : Prop := m.1.1.1 = 0%nat ∧ m.1.2 = 0%nat ∧ m.2 = 0%nat.

Abbreviation stops p r Q := (owes stop_inv (λ _, True) waits empty_handed p r Q).

(** Steps that leave these resources alone. *)
Definition same_resources (w w' : Workers) : Prop :=
  dq_locked (ww_queue w') = dq_locked (ww_queue w) ∧ ww_sems w' = ww_sems w ∧
  wp_jobs (ww_workers w') = wp_jobs (ww_workers w) ∧ ww_wg w' = ww_wg w ∧ ww_done w' = ww_done w.

Lemma same_resources_inv m w w' : same_resources w w' → stop_inv m w → stop_inv m w'.
Proof. intros (H1 & H2 & H3 & H4 & H5) []. constructor; rewrite ?H1, ?H2, ?H3, ?H4, ?H5; done. Qed.

Lemma stops_modify (f : Workers → Workers) r :
  (∀ w, same_resources w (f w)) → stops (modify f) r (λ _ r', r' = r).
Proof. intros Hf. eapply owes_modify; [|done]. intros w o. by apply same_resources_inv. Qed.

Lemma stops_update {A : Type} (f : Workers → A * Workers) r :
  (∀ w, same_resources w (f w).2) → stops (update f) r (λ _ r', r' = r).
Proof. intros Hf. apply owes_update. intros w o HI. exists r. split; [|done]. by eapply same_resources_inv. Qed.

Lemma stops_read {A : Type} (f : Workers → A) r : stops (gets f) r (λ _ r', r' = r).
Proof. by apply owes_gets. Qed.

Lemma stops_count s f d r : stops (count s f d) r (λ _ r', r' = r).
Proof. by apply stops_modify. Qed.

Lemma stops_log_hash x r : stops (log_hash x) r (λ _ r', r' = r).
Proof.
  unfold log_hash. eapply owes_bind; [apply (owes_checked _ _ _ _ _ _ (λ _ r', r' = r))|by intros ? ? ->].
  intros w o _. unfold slice. by destruct (_ && _).
Qed.

(** On the queue a goroutine waits for nothing but the mutex. *)
Definition waits_mutex (m : held) (w : Workers) : Prop := m.1.1.1 = 0%nat ∧ dq_locked (ww_queue w) = true.

Lemma mutex_in_queue {A : Type} (p : prog QueueWorld A) tk cl wg :
  locks p 0%nat (λ _ r, r = 0%nat) →
  owes stop_inv (λ _, True) waits_mutex empty_handed (in_queue p) (0%nat, tk, cl, wg) (λ _ r', r' = (0%nat, tk, cl, wg)).
Proof.
  intros Hp. assert (∀ k : nat, ((k, ∅, 0%nat, 0%nat) : held) ⊕ (0%nat, tk, cl, wg) = (k, tk, cl, wg)) as E.
  { intros k. cbn. by rewrite Nat.add_0_r, (left_id_L ∅ disj_union). }
  rewrite <- E. refine (owes_mono _ _ _ _ _ _ (λ _ r', ∃ k, r' = ((k, ∅, 0%nat, 0%nat) : held) ⊕ (0%nat, tk, cl, wg) ∧ k = 0%nat) _ _ _);
    [|by intros a r' (k & -> & ->)].
  apply (owes_lift lock_inv stop_inv (λ _, True) (λ _, True) waits_lock waits_mutex (λ k, k = 0%nat) empty_handed
    queue_world put_queue_world (λ _, 0%nat) (λ k, (k, ∅, 0%nat, 0%nat)) (λ m, m.1.1.1)).
  - done.
  - by intros k ->.
  - intros a b. cbn. by repeat f_equal.
  - intros k [[[k' tk'] cl'] wg'] w [H1 _ _ _ _ _]. unfold lock_inv. cbn in *. lia.
  - unfold lock_inv. intros k k' [[[fk ft] fc] fw] w s [H1 H2 H3 H4 H5 H6] Hs. cbn in *.
    constructor; cbn; try done. lia.
  - intros k m' w Hm [-> Hlk]. by destruct Hm as [-> | ->].
  - exact Hp.
Qed.

Lemma stops_in_queue {A : Type} (p : prog QueueWorld A) tk cl wg :
  locks p 0%nat (λ _ r, r = 0%nat) →
  stops (in_queue p) (0%nat, tk, cl, wg) (λ _ r', r' = (0%nat, tk, cl, wg)).
Proof.
  intros Hp. eapply owes_excuse; [|by apply mutex_in_queue]. intros m w [H1 H2]. right. split; [done|]. by left.
Qed.

Lemma stops_db_TorrentExists x r : stops (db_TorrentExists x) r (λ _ r', r' = r).
Proof.
  apply owes_select; [done|]. intros w o res HI (fails & -> & _)%list_elem_of_fmap.
  unfold TorrentExists, driver. destruct (calls _ _ 0%nat); by exists r.
Qed.

Lemma stops_db_change op r :
  (∀ fails s, match op fails s with Ok _ | Err _ => True | _ => False end) →
  stops (db_change op) r (λ _ r', r' = r).
Proof.
  intros Hop. apply owes_select; [done|]. intros w o res HI (fails & -> & _)%list_elem_of_fmap.
  specialize (Hop fails (ww_db w)). destruct (op fails (ww_db w)); try done; exists r; (split; [|done]); [|done].
  by eapply same_resources_inv, HI.
Qed.

(** ** One download *)

Lemma stops_try_peer x infoHash addr r : stops (try_peer x infoHash addr) r (λ _ r', r' = r).
Proof.
  unfold try_peer. eapply owes_bind; [apply stops_read|]. intros d ? ->.
  eapply owes_bind; [by apply stops_update|]. intros conn ? ->.
  eapply owes_bind; [apply (owes_checked _ _ _ _ _ _ (λ _ r', r' = r))|].
  { intros w o _. pose proof (Download_tame d infoHash conn) as Ht.
    by destruct (Download d infoHash conn) as [[]| | |]. }
  intros meta ? ->. destruct conn; [|done].
  eapply owes_bind; [by apply stops_modify|]. by intros _ ? ->.
Qed.

Lemma stops_try_peers x infoHash peers i r : stops (try_peers i x infoHash peers) r (λ _ r', r' = r).
Proof.
  revert i. induction peers as [|addr peers IH]; intros i; [done|]. cbn [try_peers].
  eapply owes_bind; [apply stops_read|]. intros [] ? ->; [done|].
  eapply owes_bind; [apply stops_try_peer|]. intros [meta|] ? ->.
  - eapply owes_bind; [apply stops_log_hash|]. by intros _ ? ->.
  - eapply owes_bind with (Q := λ _ r', r' = r); [|intros _ ? ->; apply IH].
    destruct (i <? 2)%nat; [|done]. eapply owes_bind; [apply stops_read|]. intros a ? ->.
    destruct (a <? 10); [apply stops_log_hash|done].
Qed.

(** The jobs of the feeder have an address: no lookup is made for them. *)
Lemma stops_process_body job r :
  dj_peerAddr job ≠ [] → stops (process_body job) r (λ _ r', r' = r).
Proof.
  intros Ha. unfold process_body. pose proof (hex_Decode_calm (dj_infoHash job)) as Hx.
  destruct (hex_DecodeString (dj_infoHash job)) as [b| | |]; [|apply stops_count|done..].
  unfold peers_to_try. rewrite decide_False by done. eapply owes_bind with (Q := λ _ r', r' = r); [done|].
  intros peers ? ->.
  destruct (length peers =? 0)%nat; [apply stops_count|].
  eapply owes_bind; [apply stops_try_peers|]. intros [[meta|]|] ? ->; [| |done].
  - eapply owes_bind; [apply stops_read|]. intros now ? ->.
    eapply owes_bind; [apply stops_db_change|].
    { intros fails s. unfold InsertTorrent, driver. by destruct (calls _ _ 0%nat). }
    intros [] ? ->; cbn [negb]; [|apply stops_count].
    eapply owes_bind; [apply stops_db_change|intros ? ? ->; apply stops_count].
    intros fails s. unfold DeleteHash, driver. by destruct (calls _ _ 0%nat).
  - eapply owes_bind; [apply stops_read|]. intros f ? ->.
    eapply owes_bind with (Q := λ _ r', r' = r); [|intros _ ? ->; apply stops_count].
    destruct (f mod 100 =? 0); [apply stops_log_hash|done].
Qed.

Lemma stops_Complete x tk cl wg :
  stops (in_queue (Complete x)) (0%nat, tk, cl, wg) (λ _ r', r' = (0%nat, tk, cl, wg)).
Proof. apply stops_in_queue, locks_Complete. Qed.

Lemma stops_processJob job tk cl wg :
  dj_peerAddr job ≠ [] →
  stops (processJob job) (0%nat, tk, cl, wg) (λ _ r', r' = (0%nat, tk, cl, wg)).
Proof.
  intros Ha. unfold processJob. eapply owes_bind; [apply stops_count|]. intros _ ? ->.
  eapply owes_bind; [by apply stops_process_body|]. intros _ ? ->.
  eapply owes_bind; [apply stops_count|]. intros _ ? ->. apply stops_Complete.
Qed.

(** ** The feeder and the workers *)

(** Every section keeps the parts of the invariant that it does not touch. *)
Ltac open_held := intros w [[[fl ft] fc] fw] [H1 H2 H3 H4 H5 H6];
  cbn [u_add prod_units nat_units gmultiset_units fst snd] in *.
Ltac keep_held := constructor; cbn in *; try done.

Lemma stops_send_job job r :
  dj_peerAddr job ≠ [] → stops (send_job job) r (λ _ r', r' = r).
Proof.
  intros Ha. apply owes_select.
  - intros w o _ E. left. unfold send_job in E. apply app_eq_nil in E as [_ E]. by destruct (ww_done w).
  - intros w o res HI Ho. unfold send_job in Ho. apply elem_of_app in Ho as [Ho|Ho].
    + destruct (ch_closed (wp_jobs (ww_workers w))) eqn:Ec; [by apply list_elem_of_singleton in Ho as ->|].
      destruct (chan_full _); [by apply elem_of_nil in Ho|]. apply list_elem_of_singleton in Ho as ->.
      exists r. split; [|done]. destruct HI as [H1 H2 H3 H4 H5 H6]. keep_held; [|by rewrite Ec in H4].
      apply Forall_app. split; [done|]. by constructor.
    + destruct (ww_done w); [|by apply elem_of_nil in Ho]. apply list_elem_of_singleton in Ho as ->. by exists r.
Qed.

Lemma stops_recv_job tk wg :
  stops recv_job (0%nat, tk, 0%nat, wg) (λ job r',
    r' = (0%nat, tk, 0%nat, wg) ∧ ∀ j, job = Some j → dj_peerAddr j ≠ []).
Proof.
  apply owes_select.
  - intros w o _ E%fmap_nil_inv. right. split; [done|]. right. split; [done|]. left.
    unfold chan_recv in E. by destruct (ch_buf _), (ch_closed _).
  - intros w o res HI ([job ch] & -> & Ho)%list_elem_of_fmap. eexists. split; cycle 1.
    { split; [done|]. intros j Hj. destruct HI as [_ _ H3 _ _ _]. unfold chan_recv in Ho. cbn in Hj. subst job.
      destruct (ch_buf (wp_jobs (ww_workers w))) as [|j' l].
      - destruct (ch_closed _); [|by apply elem_of_nil in Ho]. by apply list_elem_of_singleton in Ho.
      - apply list_elem_of_singleton in Ho as [= -> ->]. by apply Forall_cons_1 in H3 as [? _]. }
    destruct HI as [H1 H2 H3 H4 H5 H6]. unfold chan_recv in Ho. cbn [fst snd].
    destruct (ch_buf (wp_jobs (ww_workers w))) as [|j' l] eqn:Eb.
    + destruct (ch_closed _) eqn:Ec; [|by apply elem_of_nil in Ho].
      apply list_elem_of_singleton in Ho as [= -> ->]. keep_held; [by rewrite Eb|by rewrite Ec].
    + apply list_elem_of_singleton in Ho as [= -> ->]. keep_held. by apply Forall_cons_1 in H3 as [_ ?].
Qed.

Lemma multiplicity_one (i j : nat) :
  multiplicity (Some i) ({[+ Some j +]} : gmultiset (option nat)) = if decide (i = j) then 1%nat else 0%nat.
Proof. case_decide; subst; [apply multiplicity_singleton_eq|apply multiplicity_singleton_ne; congruence]. Qed.

Lemma stops_acquire sem lk tk cl wg :
  stops (acquire sem) (lk, tk, cl, wg) (λ (ok : bool) r',
    r' = (lk, if ok then {[+ Some sem +]} ⊎ tk else tk, cl, wg)).
Proof.
  apply owes_select.
  - intros w o _ E. left. unfold acquire in E. apply app_eq_nil in E as [E _]. by destruct (ww_done w).
  - intros w o res HI Ho. unfold acquire in Ho. apply elem_of_app in Ho as [Ho|Ho].
    + destruct (ww_done w); [|by apply elem_of_nil in Ho]. apply list_elem_of_singleton in Ho as ->. by eexists.
    + destruct (ww_sems w !! sem) as [x|] eqn:Es; [|by apply elem_of_nil in Ho].
      destruct (_ <? _); [|by apply elem_of_nil in Ho]. apply list_elem_of_singleton in Ho as ->.
      eexists. split; [|done]. revert w o HI Es. open_held. intros Es. keep_held; [|intros ?; apply H6; multiset_solver].
      intros i. specialize (H2 i). rewrite !multiplicity_disj_union, multiplicity_one in *. case_decide as Ei.
      * subst i. rewrite list_lookup_insert_eq by (by eapply lookup_lt_Some). rewrite Es in H2. cbn in *. lia.
      * rewrite list_lookup_insert_ne by done. lia.
Qed.

(** A token is in its semaphore: giving it back does not wait. *)
Lemma stops_release sem lk tk cl wg :
  stops (release sem) (lk, {[+ Some sem +]} ⊎ tk, cl, wg) (λ _ r', r' = (lk, tk, cl, wg)).
Proof.
  assert (∀ w others, stop_inv ((lk, {[+ Some sem +]} ⊎ tk, cl, wg) ⊕ others) w → ∃ k, ww_sems w !! sem = Some (S k)) as Hk.
  { open_held. specialize (H2 sem). rewrite !multiplicity_disj_union, multiplicity_one, decide_True in H2 by done.
    destruct (ww_sems w !! sem) as [[|k]|]; cbn in H2; try lia. by exists k. }
  apply owes_select.
  - intros w o HI E. destruct (Hk w o HI) as [k Es]. by rewrite Es in E.
  - intros w o res HI Ho. destruct (Hk w o HI) as [k Es]. rewrite Es in Ho.
    apply list_elem_of_singleton in Ho as ->. eexists. split; [|done]. revert w o HI Es. open_held. intros Es.
    keep_held; [|intros ?; apply H6; multiset_solver]. intros i. specialize (H2 i). rewrite !multiplicity_disj_union, multiplicity_one in *. case_decide as Ei.
    + subst i. rewrite list_lookup_insert_eq by (by eapply lookup_lt_Some). rewrite Es in H2. cbn in *. lia.
    + rewrite list_lookup_insert_ne by done. lia.
Qed.

Lemma stops_feed_turn tk wg :
  stops feed_turn (0%nat, tk, 0%nat, wg) (λ _ r', r' = (0%nat, tk, 0%nat, wg)).
Proof.
  unfold feed_turn. eapply owes_bind; [apply stops_read|]. intros [] ? ->; [done|].
  eapply owes_bind; [apply stops_in_queue, locks_Get|]. intros [[x addr]|] ? ->.
  2: { eapply owes_bind; [by apply stops_modify|]. by intros _ ? ->. }
  assert (stops (_ ← in_queue (Complete x); Ret (@None unit)) (0%nat, tk, 0%nat, wg) (λ _ r', r' = (0%nat, tk, 0%nat, wg))) as Hc.
  { eapply owes_bind; [apply stops_Complete|]. by intros _ ? ->. }
  case_decide; [exact Hc|].
  eapply owes_bind; [apply stops_db_TorrentExists|]. intros [[]|] ? ->; [exact Hc| |exact Hc].
  eapply owes_bind; [by apply (stops_send_job (mkDownloadJob x addr))|]. by intros [] ? ->.
Qed.

Lemma stops_feedQueue tk wg :
  stops feedQueue (0%nat, tk, 0%nat, wg) (λ _ r', r' = (0%nat, tk, 0%nat, wg)).
Proof.
  apply (owes_forever _ _ _ _ (λ r', r' = (0%nat, tk, 0%nat, wg))); [done|]. intros ? ->.
  eapply owes_mono; [apply stops_feed_turn|]. by intros [].
Qed.

Lemma stops_worker_turn sem tk wg :
  stops (worker_turn sem) (0%nat, tk, 0%nat, wg) (λ _ r', r' = (0%nat, tk, 0%nat, wg)).
Proof.
  unfold worker_turn. eapply owes_bind; [apply stops_recv_job|]. intros [job|] ? [-> Hj]; [|done]. specialize (Hj _ eq_refl).
  eapply owes_bind; [apply stops_acquire|]. intros [] ? ->; [|done].
  eapply (owes_bind _ _ _ _ _ _ _ (λ _ r', r' = (0%nat, tk, 0%nat, wg))); [|by intros _ ? ->].
  exists (0%nat, {[+ Some sem +]} ⊎ ∅, 0%nat, 0%nat), (0%nat, tk, 0%nat, wg). split_and!; [|shelve|done].
  cbn. by rewrite (right_id_L ∅ disj_union).
  Unshelve.
  eapply owes_bind; [by apply stops_processJob|]. intros _ ? ->.
  eapply owes_mono; [apply stops_release|]. by intros _ ? ->.
Qed.

Lemma stops_worker tk wg :
  stops worker (0%nat, tk, 0%nat, wg) (λ _ r', r' = (0%nat, tk, 0%nat, wg)).
Proof.
  unfold worker. eapply (owes_bind _ _ _ _ _ _ _ (λ _ r', r' = (0%nat, tk, 0%nat, wg))).
  - open_held. destruct (_ <? 0); [done|]. unfold make_sem. exists (0%nat, tk, 0%nat, wg). split; [|done].
    keep_held. intros i. rewrite H2. destruct (decide (i < length (ww_sems w))%nat).
    + by rewrite lookup_app_l.
    + rewrite lookup_app_r, lookup_ge_None_2 by lia. by destruct (i - _)%nat.
  - intros sem ? ->. apply (owes_forever _ _ _ _ (λ r', r' = (0%nat, tk, 0%nat, wg))); [done|]. intros ? ->.
    eapply owes_mono; [apply stops_worker_turn|]. by intros [].
Qed.

Lemma stops_wg_add lk tk cl wg d wg' :
  (Z.of_nat wg + d = Z.of_nat wg')%Z → stops (wg_add d) (lk, tk, cl, wg) (λ _ r', r' = (lk, tk, cl, wg')).
Proof. intros Hd. eapply owes_modify; [|done]. open_held. keep_held. lia. Qed.

Lemma stops_Start : stops Start (0%nat, ∅, 1%nat, 0%nat) (λ _, empty_handed).
Proof.
  unfold Start. eapply owes_bind; [apply stops_read|]. intros num ? ->.
  eapply owes_bind.
  { apply (owes_for_each _ _ _ _ (λ _, (0%nat, ∅, 1%nat, 0%nat) : held)). intros i l.
    eapply owes_bind; [by apply (stops_wg_add _ _ _ 0%nat 1 1%nat)|]. intros _ ? ->.
    exists (0%nat, ∅, 0%nat, 1%nat), (0%nat, ∅, 1%nat, 0%nat). split_and!; [done| |done].
    eapply owes_bind; [apply stops_worker|]. intros _ ? ->.
    eapply owes_mono; [by apply (stops_wg_add _ _ _ 1%nat (-1) 0%nat)|]. by intros _ ? ->. }
  intros _ ? ->. eapply (owes_bind _ _ _ _ _ _ _ (λ _ r', r' = (0%nat, ∅, 1%nat, 0%nat))).
  { exists u_none, (0%nat, ∅, 1%nat, 0%nat). split_and!; [done| |done].
    eapply owes_mono; [apply stops_feedQueue|]. by intros _ ? ->. }
  intros _ ? ->. eapply (owes_bind _ _ _ _ _ _ _ (λ _ r', r' = (0%nat, ∅, 1%nat, 0%nat))).
  { apply owes_select.
    - intros w o _ E. left. by destruct (ww_done w).
    - intros w o res HI Ho. destruct (ww_done w); [|by apply elem_of_nil in Ho].
      apply list_elem_of_singleton in Ho as ->. by eexists. }
  intros _ ? ->. eapply (owes_bind _ _ _ _ _ _ _ (λ _ r', r' = (0%nat, ∅, 0%nat, 0%nat))).
  { open_held. unfold close_chan. destruct (ch_closed (wp_jobs (ww_workers w))); [done|].
    exists u_none. split; [|done]. keep_held. lia. }
  intros _ ? ->. apply owes_select.
  - intros w o _ E. right. split; [done|]. right. split; [done|]. right. split; [done|]. by destruct (Z.eqb_spec (ww_wg w) 0).
  - intros w o res HI Ho. destruct (ww_wg w =? 0); [|by apply elem_of_nil in Ho].
    apply list_elem_of_singleton in Ho as ->. by eexists.
Qed.

(** ** The loops can be left *)

Abbreviation ended_context := (λ w, ww_done w = true).
Abbreviation leaves p := (can_quit ended_context p (λ r, match r with Some _ => True | None => False end)).

Lemma leaves_feed_turn : leaves feed_turn.
Proof. intros w done_ w' Hd [= <- <-]. cbn. by rewrite Hd. Qed.

Lemma leaves_worker_turn sem : leaves (worker_turn sem).
Proof.
  intros w _. destruct (chan_recv (wp_jobs (ww_workers w))) as [|[job c] l] eqn:E; [by left|right].
  eexists. split; [apply list_elem_of_here|]. destruct job as [job|]; [|exact I].
  intros w' Hd'. right. exists (Ok (false, w')). rewrite Hd'. split; [apply list_elem_of_here|exact I].
Qed.

Lemma quits_log_hash stopped x : quits stopped (log_hash x).
Proof. unfold log_hash. solve_quits. Qed.
#[export] Hint Resolve quits_log_hash : quits.

Lemma quits_try_peers stopped i x infoHash peers : quits stopped (try_peers i x infoHash peers).
Proof. revert i. induction peers as [|a l IH]; intros i; [exact I|]. cbn [try_peers]. unfold try_peer. solve_quits. Qed.
#[export] Hint Resolve quits_try_peers : quits.

Lemma quits_processJob stopped job : quits stopped (processJob job).
Proof.
  unfold processJob, process_body, peers_to_try, dht_FindPeers, at_search, db_change, count, in_queue, Complete. solve_quits.
Qed.
#[export] Hint Resolve quits_processJob : quits.

Lemma quits_Add stopped x addr : quits stopped (Add x addr).
Proof. unfold Add, Lock, Unlock. solve_quits. Qed.

Lemma quits_Submit stopped x addr : quits stopped (Submit x addr).
Proof. apply quits_lift_any, quits_Add. Qed.
#[export] Hint Resolve quits_Submit : quits.

Lemma quits_feedQueue : quits ended_context feedQueue.
Proof.
  apply quits_forever; [apply leaves_feed_turn|].
  unfold feed_turn, in_queue, Get, Complete, Lock, Unlock, sleep, db_TorrentExists, send_job. solve_quits.
Qed.

Lemma quits_worker : quits ended_context worker.
Proof.
  unfold worker. apply quits_bind; [by intros ?|]. intros sem. apply quits_forever; [apply leaves_worker_turn|].
  unfold worker_turn, recv_job, acquire, release. solve_quits.
Qed.
#[export] Hint Resolve quits_feedQueue quits_worker : quits.

Lemma quits_Start : quits ended_context Start.
Proof. unfold Start, wg_add. solve_quits. Qed.

Lemma quits_worker_goroutines clients : Forall (quits ended_context) (worker_goroutines clients).
Proof.
  constructor; [apply quits_Start|]. apply Forall_fmap, Forall_forall. intros subs _. apply quits_for_each. intros x.
  by apply quits_bind; [apply quits_Submit|].
Qed.

(** ** Every interleaving *)

Abbreviation stopping c := (pool_owes stop_inv (λ _, True) waits empty_handed c).

Lemma new_workers_stop_inv n maxSize numWorkers perWorker timeout w :
  new_workers n maxSize numWorkers perWorker timeout w → stop_inv (0%nat, ∅, 1%nat, 0%nat) w.
Proof.
  intros [Hq Hw Hp Hs _ _ _ Hwg].
  unfold NewDownloadQueue in Hq. destruct (_ || _); [done|]. injection Hq as Hq.
  unfold NewWorkerPool in Hw. destruct (_ || _); [done|]. injection Hw as Hw.
  constructor; rewrite <- ?Hq, <- ?Hw, ?Hs, ?Hwg; cbn; try done.
  intros ?; multiset_solver.
Qed.

Lemma new_workers_stopping n maxSize numWorkers perWorker timeout w clients :
  new_workers n maxSize numWorkers perWorker timeout w →
  stopping (w, worker_goroutines clients).
Proof.
  intros Hw.
  apply (pool_owes_intro _ _ _ _ _ _ ((0%nat, ∅, 1%nat, 0%nat) :: replicate (length clients) u_none)).
  - constructor; [apply stops_Start|]. induction clients as [|subs cs IH]; constructor; [|exact IH].
    refine (owes_mono _ _ _ _ _ _ (λ _ r', r' = u_none) _ _ _); [|by intros _ ? ->].
    apply (owes_for_each _ _ _ _ (λ _, u_none)). intros x l.
    eapply owes_bind; [apply stops_in_queue, locks_Add|]. by intros ? ? ->.
  - cbn [u_total foldr]. change (foldr u_add u_none ?l) with (u_total l).
    rewrite u_total_none, (comm u_add), (left_id u_none u_add).
    by eapply new_workers_stop_inv.
Qed.

Lemma workers_env_stopping n c c' : workers_env n c c' → stopping c → stopping c'.
Proof.
  intros Hstep (rs & Hp & HI). exists rs.
  destruct Hstep; (split; [exact Hp|]); destruct HI; by constructor.
Qed.

(** One component of what all goroutines hold. *)
Lemma u_total_zero (f : held → nat) rs :
  f u_none = 0%nat → (∀ a b, f (a ⊕ b) = (f a + f b)%nat) → Forall (λ r, f r = 0%nat) rs → f (u_total rs) = 0%nat.
Proof.
  intros H0 Hf. induction 1 as [|r rs Hr _ IH]; [done|]. change (f (r ⊕ u_total rs) = 0%nat). by rewrite Hf, Hr, IH.
Qed.

(** When the context has ended and every goroutine has ended or waits, none waits: the
    mutex is free, so the channel is closed, so the group is empty. *)
Lemma rests_finished w pool rs :
  ww_done w = true → Forall2 (rests waits empty_handed w) pool rs → stop_inv (u_total rs) w → finished pool.
Proof.
  intros Hd Hr [Hlock _ _ Hclosed Hwg _].
  assert (∀ f : held → nat, f u_none = 0%nat → (∀ a b, f (a ⊕ b) = (f a + f b)%nat) →
    (∀ r, empty_handed r ∨ waits r w → f r = 0%nat) → f (u_total rs) = 0%nat) as Hzero.
  { intros f H0 Hf Hw. apply u_total_zero; [done..|]. apply Forall_forall. intros r (i & Hi)%list_elem_of_lookup_1.
    destruct (Forall2_lookup_r _ _ _ _ _ Hr Hi) as (p & _ & [[_ He]|He]); apply Hw; [by left|by right]. }
  assert (dq_locked (ww_queue w) = false) as Hfree.
  { rewrite (Hzero (λ m, m.1.1.1)) in Hlock; [by destruct (dq_locked _)|done|done|].
    intros r [(? & _ & _)|[?|[? _]]]; congruence. }
  assert (ch_closed (wp_jobs (ww_workers w)) = true) as Hcl.
  { rewrite (Hzero (λ m, m.1.2)) in Hclosed; [by destruct (ch_closed _)|done|done|].
    intros r [(_ & ? & _)|[?|[_ [?|[? _]]]]]; congruence. }
  assert (ww_wg w = 0) as Hw0.
  { rewrite (Hzero (λ m, m.2)) in Hwg; [done|done|done|].
    intros r [(_ & _ & ?)|[?|[_ [?|[_ [?|[? _]]]]]]]; congruence. }
  clear -Hr Hd Hfree Hcl Hw0. unfold finished.
  induction Hr as [|p r pool rs [[-> _]|[?|[_ [?|[_ [?|[_ ?]]]]]]] _ IH]; [constructor|constructor; done|congruence..].
Qed.

(** The knowledge that the context has ended. *)
Definition ended : held := (0%nat, {[+ None +]}, 0%nat, 0%nat).

Lemma stop_inv_ended m w : stop_inv (m ⊕ ended) w ↔ stop_inv m w ∧ ww_done w = true.
Proof.
  destruct m as [[[lk tk] cl] wg]. split.
  - intros [H1 H2 H3 H4 H5 H6]. cbn in *. rewrite !Nat.add_0_r in *. split.
    + constructor; cbn; try done.
      * intros i. specialize (H2 i). rewrite multiplicity_disj_union, multiplicity_singleton_ne in H2 by done. lia.
      * intros ?. apply H6. multiset_solver.
    + apply H6. multiset_solver.
  - intros [[H1 H2 H3 H4 H5 H6] Hd]. constructor; cbn in *; rewrite ?Nat.add_0_r; try done.
    intros i. rewrite multiplicity_disj_union, multiplicity_singleton_ne by done. by rewrite H2, Nat.add_0_r.
Qed.

Abbreviation stopping_ended c := (pool_owes (λ m, stop_inv (m ⊕ ended)) (λ _, True) waits empty_handed c).

Lemma stopping_ended_intro c : stopping c → ww_done c.1 = true → stopping_ended c.
Proof.
  intros Hc Hd. apply (pool_owes_outside stop_inv); [|exact Hc]. intros m HI. by apply stop_inv_ended.
Qed.

Lemma workers_env_ended n c c' : workers_env n c c' → stopping_ended c → stopping_ended c'.
Proof.
  intros Hstep (rs & Hp & HI). exists rs. rewrite stop_inv_ended in *.
  destruct Hstep; (split; [exact Hp|]); destruct HI as [[] ?]; (split; [|done]); by constructor.
Qed.

Definition panics_worker (c : config Workers) : Prop := ∃ p, cpanics c p ∧ worker_panic p.

(** C7: the worker pool shuts down. Take the worker pool of [New] with its feeder, workers
    and downloads, any goroutines that submit hashes, and any interleaving with the nodes,
    the clock and the database in which the context has ended. From there, however the run
    has gone on, it can always be brought to the point where every goroutine has ended and
    [Start] has returned, unless the process panics in one of the ways the pool can: the
    feeder and the workers leave their endless loops, each waiting goroutine gets what it
    waits for, and none waits for another in a circle. *)
Theorem shutdown_completes n maxSize numWorkers perWorker timeout clients w c1 c2 :
  new_workers n maxSize numWorkers perWorker timeout w →
  rtc (λ c c', cstep c c' ∨ workers_env n c c') (w, worker_goroutines clients) c1 →
  ww_done c1.1 = true →
  rtc (λ c c', cstep c c' ∨ workers_env n c c') c1 c2 →
  ∃ c3, rtc cstep c2 c3 ∧ (finished c3.2 ∨ panics_worker c3).
Proof.
  intros Hw Hr1 Hd Hr2. pose proof (transitivity Hr1 Hr2) as Hr.
  destruct (reachable_owes stop_inv _ _ _ (workers_env n) _ _ (workers_env_stopping n)
    (new_workers_stopping _ _ _ _ _ _ clients Hw) Hr1) as [Hc1 _].
  destruct (reachable_owes _ _ _ _ (workers_env n) _ _ (workers_env_ended n)
    (stopping_ended_intro c1 Hc1 Hd) Hr2) as [Hc2 _].
  assert (Forall (quits ended_context) c2.2) as Hq.
  { eapply (rtc_quits _ (workers_env n)); [|exact Hr|apply quits_worker_goroutines]. intros x y H. by destruct H. }
  destruct (owes_exits _ _ _ _ (λ _ _, True) never (λ _ F, match F with end) (λ _, True) ended_context
    (λ m w H, proj2 (proj1 (stop_inv_ended m w) H)) c2 Hc2 Hq) as (c3 & Hr3 & Hend).
  exists c3. split; [exact Hr3|]. destruct Hend as [[p Hp]|(rs & Hrs & HI)].
  - right. exists p. split; [done|].
    apply (reachable_owes _ _ _ _ (workers_env n) _ _ (workers_env_owes [] n numWorkers perWorker)
      (worker_pool_owes [] _ _ _ _ _ _ clients Hw)) in Hp; [exact Hp|].
    etrans; [exact Hr|]. by apply (rtc_subrel cstep); [left|].
  - left. apply stop_inv_ended in HI as [HI Hd2]. by eapply rests_finished.
Qed.

(** [Start] and a submission; the context ends at once. *)
Lemma shutdown_completes_witness :
  let c := (set_env true 0 7000000000 sample_workers, worker_goroutines [[(bs "h", bs "a")]]) in
  rtc (λ c c', cstep c c' ∨ workers_env 1 c c') (sample_workers, worker_goroutines [[(bs "h", bs "a")]]) c ∧
  ww_done c.1 = true ∧
  ∃ c3, rtc cstep c c3 ∧ (finished c3.2 ∨ panics_worker c3).
Proof.
  intros c.
  assert (rtc (λ c c', cstep c c' ∨ workers_env 1 c c') (sample_workers, worker_goroutines [[(bs "h", bs "a")]]) c) as Hr.
  { eapply rtc_l; [right; apply env_cancel|]. apply rtc_refl. }
  split; [exact Hr|]. split; [reflexivity|].
  apply (shutdown_completes 1 4 1 1 0 [[(bs "h", bs "a")]] sample_workers c c sample_workers_new Hr eq_refl).
  apply rtc_refl.
Defined.
