(* ===== verification/Crawler.v ===== *)
(** * The crawler: [internal/crawler/crawler.go]

    The orchestrator: it counts and queues the hash of every event of the DHT pool, looks
    for more peers of the requested ones, and starts and stops the other components.  Its
    state is the worker pool's world with the hash cache, the search limiter and its own
    counters.  The event loop is left when a turn finds the context ended or the channel
    of events closed. *)

From S2P Require Import Prelude GoStd Net NodeID Krpc Conc Node Pool Storage Cache Queue Worker.

Record Config := mkConfig {
  cfg_NodeCount : Z;
  cfg_StartPort : Z;
  cfg_Bootstraps : list bytes;
  cfg_CacheMaxSize : Z;
  cfg_CacheFlushInterval : Z;       (* nanoseconds *)
  cfg_DownloadWorkers : Z;
  cfg_DownloadPerWorker : Z;
  cfg_DownloadTimeout : Z;
  cfg_DBPath : bytes;
  cfg_WebPort : Z;
  cfg_WebEnabled : bool;
}.

Definition seconds (n : Z) : Z := n * 1000000000.

Definition default_bootstraps : list bytes :=
  [bs "router.bittorrent.com:6881"; bs "dht.transmissionbt.com:6881"; bs "router.utorrent.com:6881"].

Definition DefaultConfig : Config :=
  mkConfig 50 6881 default_bootstraps 1000 (seconds 30) 4 100 (seconds 15) (bs "crawler.db") 8085 true.

Record Crawler := mkCrawler {
  c_config : Config;
  c_workers : Workers;
  c_cache : HashCache;
  c_limiter : nat;                  (* what the channel [searchLimiter] holds *)
  c_start : StartLocals;            (* the variables of the DHT pool's [Start] *)
  c_startTime : Z;
  c_getPeersProcessed : Z;
  c_announcesProcessed : Z;
}.

Definition set_world (w : Workers) (c : Crawler) : Crawler :=
  mkCrawler (c_config c) w (c_cache c) (c_limiter c) (c_start c) (c_startTime c)
    (c_getPeersProcessed c) (c_announcesProcessed c).
Definition set_cache (x : HashCache) (s : Storage) (c : Crawler) : Crawler :=
  mkCrawler (c_config c) (set_queue (ww_queue (c_workers c)) s (c_workers c)) x (c_limiter c) (c_start c)
    (c_startTime c) (c_getPeersProcessed c) (c_announcesProcessed c).
Definition set_limiter (n : nat) (c : Crawler) : Crawler :=
  mkCrawler (c_config c) (c_workers c) (c_cache c) n (c_start c) (c_startTime c)
    (c_getPeersProcessed c) (c_announcesProcessed c).
Definition set_start (p : Pool) (l : StartLocals) (c : Crawler) : Crawler :=
  mkCrawler (c_config c) (set_search p (ww_searches (c_workers c)) (c_workers c)) (c_cache c) (c_limiter c) l
    (c_startTime c) (c_getPeersProcessed c) (c_announcesProcessed c).
Definition add_processed (getPeers announces : Z) (c : Crawler) : Crawler :=
  mkCrawler (c_config c) (c_workers c) (c_cache c) (c_limiter c) (c_start c) (c_startTime c)
    (wrapU 64 (c_getPeersProcessed c + getPeers)) (wrapU 64 (c_announcesProcessed c + announces)).

(** ** The components in the crawler's state *)

Definition in_workers {A : Type} (p : prog Workers A) : prog Crawler A := lift c_workers set_world p.

Definition cache_world (c : Crawler) : CacheWorld :=
  mkCacheWorld (c_cache c) (ww_db (c_workers c)) (ww_now (c_workers c)).
Definition put_cache_world (x : CacheWorld) (c : Crawler) : Crawler := set_cache (cw_cache x) (cw_db x) c.
Definition in_cache {A : Type} (p : prog CacheWorld A) : prog Crawler A := lift cache_world put_cache_world p.

Definition in_start {A : Type} (p : prog Starting A) : prog Crawler A :=
  lift (λ c, (ww_pool (c_workers c), c_start c)) (λ s c, set_start s.1 s.2 c) p.

Definition in_dht {A : Type} (p : prog Pool A) : prog Crawler A :=
  in_workers (lift ww_pool (λ p w, set_search p (ww_searches w) w) p).

(** ** Construction *)

(** [searchLimiter] when the program starts: [init] fills the channel of capacity 10. *)
Definition searchLimiter : nat := length (seq 0 10).

Inductive crawler_error := ErrStorage | ErrPool (e : pool_error).

Section New.
(** What [storage.New] returns, and what [crypto/rand] gives to [NewPool]. *)
Context (store : option Storage) (rand_ids : rand_source) (secret : nat → bytes) (rnd : nat → nat → bytes).
(** What the peers will do, by address. *)
Context (dials : bytes → nat → option Metadata.Conn) (now : Z).

Definition New (config : Config) : outcome crawler_error Crawler :=
  match store with
  | None => Err ErrStorage
  | Some store =>
      dhtPool ← map_err ErrPool (NewPool rand_ids secret rnd now (cfg_NodeCount config) (cfg_StartPort config)
                  (cfg_Bootstraps config));
      let hashCache := NewHashCache (cfg_CacheMaxSize config) in
      queue ← map_err (λ _, ErrStorage)
        (NewDownloadQueue (wrapS 64 (wrapS 64 (cfg_DownloadWorkers config * cfg_DownloadPerWorker config) * 2)));
      workerPool ← map_err (λ _, ErrStorage)
        (NewWorkerPool (cfg_DownloadWorkers config) (cfg_DownloadPerWorker config) (cfg_DownloadTimeout config));
      Ok (mkCrawler config
            (mkWorkers workerPool queue store dhtPool [] [] [] dials 0 false 0 now)
            hashCache searchLimiter (no_start_locals) now 0 0)
  end.
End New.

(** ** Events *)

(** [select { case <-searchLimiter: default: return }]. *)
Definition take_search (c : Crawler) : bool * Crawler :=
  match c_limiter c with O => (false, c) | S k => (true, set_limiter k c) end.

(** [searchLimiter <- struct{}{}], on a channel of capacity 10. *)
Definition give_search : prog Crawler unit :=
  Select (λ c, if (c_limiter c <? 10)%nat then [Ok (tt, set_limiter (S (c_limiter c)) c)] else []) Ret.

(** The loop that submits the peers found, three at most. *)
Fixpoint submit_peers (hash : bytes) (submitted : nat) (peers : list CompactPeerInfo) : prog Crawler unit :=
  match peers with
  | [] => Ret tt
  | peer :: peers =>
      ok ← in_workers (Submit hash (peer_addr (cp_IP peer) (cp_Port peer)));
      if ok : bool
      then if (3 <=? S submitted)%nat then Ret tt else submit_peers hash (S submitted) peers
      else submit_peers hash submitted peers
  end.

(** After the limiter: [defer] gives the token back. *)
Definition search_body (infoHash hash : bytes) : prog Crawler unit :=
  found ← in_workers (db_TorrentExists hash);
  if default false found then Ret tt
  else
    peers ← in_workers (dht_FindPeers infoHash);
    _ ← (if (0 <? length peers)%nat then in_workers (log_hash hash) else Ret tt);
    submit_peers hash 0 peers.

Definition searchAndDownload (infoHash hash : bytes) : prog Crawler unit :=
  ok ← update take_search;
  if negb ok then Ret tt
  else _ ← search_body infoHash hash; give_search.

Definition common_ports : list Z := [6881; 6882; 51413; 16881].

(** The submissions of a get_peers event. *)
Definition submit_ports (hash : bytes) (event : Event) : prog Crawler unit :=
  let peerIP := IP_String (ev_PeerIP event) in
  _ ← in_workers (Submit hash (peerIP ++ bs ":" ++ fmt_d (ev_PeerPort event)));
  for_each common_ports (λ port,
    if port =? ev_PeerPort event then Ret tt
    else _ ← in_workers (Submit hash (peerIP ++ bs ":" ++ fmt_d port)); Ret tt).

Definition processEvent (event : Event) : prog Crawler unit :=
  let hash := hex_EncodeToString (ev_InfoHash event) in
  match ev_Type event with
  | EventGetPeers =>
      _ ← in_cache (Cache.Add hash);
      _ ← modify (add_processed 1 0);
      _ ← submit_ports hash event;
      go (searchAndDownload (ev_InfoHash event) hash)
  | EventAnnounce =>
      _ ← in_cache (Cache.Add hash);
      _ ← modify (add_processed 0 1);
      _ ← in_workers (Submit hash (peer_addr (ev_PeerIP event) (ev_PeerPort event)));
      Ret tt
  end.

(** ** Run *)

(** [select { case <-ctx.Done(): case event, ok := <-Events(): }]: [None] is the end of
    the context, [Some None] the closed channel. *)
Definition next_event : prog Crawler (option (option Event)) :=
  Select (λ c,
    let p := ww_pool (c_workers c) in
    (if ww_done (c_workers c) then [Ok (None, c)] else []) ++
    ((λ ec, Ok (Some ec.1, set_start (set_nodes (p_nodes p) ec.2 p) (c_start c) c)) <$>
       chan_recv (p_eventChan p))) Ret.

(** One turn of the loop of [Run]: [Some ended] leaves it, [ended] says whether the context
    has ended. *)
Definition event_turn : prog Crawler (option bool) :=
  event ← next_event;
  match event with
  | None => Ret (Some true)
  | Some None => Ret (Some false)
  | Some (Some event) => _ ← processEvent event; Ret None
  end.

Definition event_loop : prog Crawler bool := forever event_turn.

(** [c.storage.Close()]. *)
Definition close_storage (c : Crawler) : Crawler :=
  set_world (set_queue (ww_queue (c_workers c)) (db_close (ww_db (c_workers c))) (c_workers c)) c.

(** What [Run] does when the context ends. *)
Definition shutdown : prog Crawler unit :=
  _ ← in_cache Cache.Flush;
  _ ← modify close_storage;
  in_dht pool_Stop.

Record Stats := mkStats {
  s_DHTNodesActive : Z;
  s_DHTQueriesRecv : Z;
  s_DHTQueriesSent : Z;
  s_DHTGetPeers : Z;
  s_DHTAnnounces : Z;
  s_DHTRoutingSize : Z;
  s_CacheHashesAdded : Z;
  s_CacheHashesFlushed : Z;
  s_CacheCurrent : Z;
  s_DownloadSuccess : Z;
  s_DownloadFail : Z;
  s_DownloadInProgress : Z;
  s_DownloadQueued : Z;
  s_TotalHashes : Z;
  s_TotalTorrents : Z;
  s_Uptime : Z;
}.

(** [hashCount, torrentCount, _ := c.storage.Stats()]. *)
Definition db_Stats : prog Crawler (Z * Z) :=
  Select (λ c, (λ fails, Ok ((Storage.Stats fails (ww_db (c_workers c))).1, c)) <$>
    [no_faults; λ k, bool_decide (k = 0%nat); λ k, bool_decide (k = 1%nat)]) Ret.

Definition crawler_Stats : prog Crawler Stats :=
  dhtStats ← in_dht pool_Stats;
  '(cacheAdded, cacheFlushed, cacheSize) ← in_cache Cache.Stats;
  '(dlSuccess, dlFail, dlActive, dlQueued) ← in_workers Worker.Stats;
  '(hashCount, torrentCount) ← db_Stats;
  uptime ← gets (λ c, ww_now (c_workers c) - c_startTime c);
  Ret (mkStats (ps_TotalNodes dhtStats) (ps_QueriesReceived dhtStats) (ps_QueriesSent dhtStats)
    (ps_GetPeersCount dhtStats) (ps_AnnounceCount dhtStats) (ps_RoutingSize dhtStats)
    cacheAdded cacheFlushed (Z.of_nat cacheSize)
    dlSuccess dlFail dlActive (Z.of_nat dlQueued) hashCount torrentCount uptime).

(** The ticks received before the context ends; the line is only logged. *)
Definition printStats (ticks : nat) : prog Crawler unit :=
  for_each (seq 0 ticks) (λ _, _ ← crawler_Stats; Ret tt).

Section Run.
Context (resolve : bytes → option udp_addr) (can_listen : Z → bool).
Context (reads : nat → list (option (bytes * udp_addr))) (ticks : nat → list tick) (rotations stat_ticks : nat).

(** Once the nodes run; [flushes] and [prints] are the ticks the flusher and [printStats]
    receive. *)
Definition run_started (flushes prints : nat) : prog Crawler unit :=
  _ ← go (in_cache (StartFlusher flushes));
  _ ← go (in_workers Worker.Start);
  _ ← go (printStats prints);
  ended ← event_loop;
  if ended : bool then shutdown else Ret tt.

(** Its result is the error of the pool's [Start]. *)
Definition Run (flushes prints : nat) : prog Crawler (option (nat * nat)) :=
  err ← in_start (pool_Start resolve can_listen reads ticks rotations stat_ticks);
  match err with
  | Some e => Ret (Some e)
  | None => _ ← run_started flushes prints; Ret None
  end.
End Run.
