(* ===== verification/CrawlerSpec.v ===== *)
(** * The crawler as a whole *)

From S2P Require Import Prelude GoStd Net Bencode NodeID Krpc Conc Credit Node.
From S2P Require Import NodeSpec Pool Metadata MetadataSpec Storage Cache Queue Worker WorkerSpec Crawler.

(** ** One peer for each hash *)

Definition set_queue_of (q : DownloadQueue) (c : Crawler) : Crawler :=
  set_world (set_queue q (ww_db (c_workers c)) (c_workers c)) c.

Definition queue_of (c : Crawler) : DownloadQueue := ww_queue (c_workers c).

(** What [Submit] does to a queue that nobody has locked. *)
Definition submitted (hash addr : bytes) (c : Crawler) : bool * Crawler :=
  let q := queue_of c in
  if decide (hash ∈ dq_inFlight q) then (false, c)
  else if dq_maxSize q <=? Z.of_nat (length (dq_items q)) then
    (false, set_queue_of (mkDownloadQueue false (dq_items q) (dq_maxSize q) (({[hash]} ∪ dq_inFlight q) ∖ {[hash]})) c)
  else
    (true, set_queue_of (mkDownloadQueue false
       (dq_items q ++ [mkDownloadItem hash addr 0 (ww_now (c_workers c))]) (dq_maxSize q)
       ({[hash]} ∪ dq_inFlight q)) c).

Lemma outcomes_Submit {B : Type} hash addr (k : bool → prog Crawler B) c :
  dq_locked (queue_of c) = false →
  outcomes (in_workers (Submit hash addr) ≫= k) c = outcomes (k (submitted hash addr c).1) (submitted hash addr c).2.
Proof.
  unfold queue_of. intros Hl. rewrite outcomes_bind.
  assert (outcomes (in_workers (Submit hash addr)) c = [Ok (submitted hash addr c)]) as ->.
  { unfold in_workers, Submit, in_queue, Add, submitted, queue_of. cbn. unfold load_or_store. cbn.
    destruct (decide (hash ∈ dq_inFlight (ww_queue (c_workers c)))); cbn;
      [by destruct c as [? [] ? ? ? ? ? ?]|].
    rewrite Hl. cbn. unfold append_item. cbn.
    destruct (dq_maxSize (ww_queue (c_workers c)) <=? _); cbn; done. }
  cbn [fmap list_fmap concat after]. destruct (submitted hash addr c). cbn [after]. by rewrite app_nil_r.
Qed.

(** The queue after the first submission of a hash. *)
Definition queued_once (hash addr : bytes) (c : Crawler) : Crawler :=
  let q := queue_of c in
  set_queue_of (mkDownloadQueue false
    (dq_items q ++ [mkDownloadItem hash addr 0 (ww_now (c_workers c))]) (dq_maxSize q)
    ({[hash]} ∪ dq_inFlight q)) c.

Lemma submitted_first hash addr c :
  hash ∉ dq_inFlight (queue_of c) → Z.of_nat (length (dq_items (queue_of c))) < dq_maxSize (queue_of c) →
  submitted hash addr c = (true, queued_once hash addr c).
Proof.
  intros Hh Hl. unfold submitted. rewrite decide_False by done.
  by destruct (Z.leb_spec (dq_maxSize (queue_of c)) (Z.of_nat (length (dq_items (queue_of c))))); [lia|].
Qed.

Lemma submitted_again hash addr c : hash ∈ dq_inFlight (queue_of c) → submitted hash addr c = (false, c).
Proof. intros Hh. unfold submitted. by rewrite decide_True. Qed.

Lemma queued_once_in_flight hash addr c : hash ∈ dq_inFlight (queue_of (queued_once hash addr c)).
Proof. cbn. set_solver. Qed.

Lemma ports_again hash event ports c :
  dq_locked (queue_of c) = false → hash ∈ dq_inFlight (queue_of c) →
  outcomes (for_each ports (λ port,
    if port =? ev_PeerPort event then Ret tt
    else _ ← in_workers (Submit hash (IP_String (ev_PeerIP event) ++ bs ":" ++ fmt_d port)); Ret tt)) c = [Ok (tt, c)].
Proof.
  intros Hl Hh. induction ports as [|port ports IH]; [done|]. cbn [for_each].
  destruct (port =? ev_PeerPort event); [exact IH|].
  rewrite outcomes_bind, outcomes_Submit, submitted_again by done. cbn. by rewrite app_nil_r.
Qed.

Lemma peers_again hash n peers c :
  dq_locked (queue_of c) = false → hash ∈ dq_inFlight (queue_of c) →
  outcomes (submit_peers hash n peers) c = [Ok (tt, c)].
Proof.
  intros Hl Hh. induction peers as [|peer peers IH]; [done|]. cbn [submit_peers].
  rewrite outcomes_Submit, submitted_again by done. exact IH.
Qed.

(** C32: one address is tried for each hash. When the queue has room and the hash is not in
    flight, the submissions of a get_peers event queue the requester's own port and none
    of the common ones, and the submissions of a search queue the first peer found and
    not up to three: the first submission puts the hash in flight and [Add] refuses the
    others. For a hash in flight nothing is queued at all. *)
Theorem one_address_per_hash hash event c :
  dq_locked (queue_of c) = false →
  (hash ∈ dq_inFlight (queue_of c) →
   outcomes (submit_ports hash event) c = [Ok (tt, c)] ∧
   ∀ peers, outcomes (submit_peers hash 0 peers) c = [Ok (tt, c)]) ∧
  (hash ∉ dq_inFlight (queue_of c) →
   Z.of_nat (length (dq_items (queue_of c))) < dq_maxSize (queue_of c) →
   outcomes (submit_ports hash event) c =
     [Ok (tt, queued_once hash (IP_String (ev_PeerIP event) ++ bs ":" ++ fmt_d (ev_PeerPort event)) c)] ∧
   ∀ peer peers, outcomes (submit_peers hash 0 (peer :: peers)) c =
     [Ok (tt, queued_once hash (peer_addr (cp_IP peer) (cp_Port peer)) c)]).
Proof.
  intros Hl. split.
  - intros Hh. split; [|intros peers; by apply peers_again].
    unfold submit_ports. rewrite outcomes_Submit, submitted_again by done. by apply ports_again.
  - intros Hh Hr. split.
    + unfold submit_ports. rewrite outcomes_Submit, submitted_first by done.
      apply ports_again; [done|apply queued_once_in_flight].
    + intros peer peers. cbn [submit_peers]. rewrite outcomes_Submit, submitted_first by done.
      apply peers_again; [done|apply queued_once_in_flight].
Qed.

Definition sample_crawler : Crawler :=
  mkCrawler DefaultConfig sample_workers (NewHashCache 1000) 10 no_start_locals 0 0 0.

Definition sample_event : Event := mkEvent EventGetPeers (replicate 20 x61) [x01; x02; x03; x04] 1234.

Lemma one_address_per_hash_witness :
  let hash := hex_EncodeToString (ev_InfoHash sample_event) in
  outcomes (submit_ports hash sample_event) sample_crawler =
    [Ok (tt, queued_once hash (bs "1.2.3.4" ++ bs ":" ++ bs "1234") sample_crawler)].
Proof.
  cbv zeta.
  assert (E : bs "1.2.3.4" ++ bs ":" ++ bs "1234" =
    IP_String (ev_PeerIP sample_event) ++ bs ":" ++ fmt_d (ev_PeerPort sample_event)) by (vm_compute; reflexivity).
  rewrite E.
  destruct (one_address_per_hash (hex_EncodeToString (ev_InfoHash sample_event)) sample_event sample_crawler eq_refl)
    as [_ H].
  destruct H as [H _]; [apply not_elem_of_empty|reflexivity|exact H].
Defined.

(** ** Exclusive downloads, in the whole crawler *)

Section crawler.
Context (h : bytes) (n : nat) (numWorkers perWorker : Z) (perWorker_pos : 0 ≤ perWorker) (n_pos : (0 < n)%nat).

Definition crawler_inv (m : units) (c : Crawler) : Prop := workers_inv h n numWorkers perWorker m (c_workers c).

Abbreviation crawls p r Q := (owes crawler_inv worker_panic (λ _ _, True) any_units p r Q).
Abbreviation works p r Q := (owes (workers_inv h n numWorkers perWorker) worker_panic (λ _ _, True) any_units p r Q).

Lemma u_right (m : units) : m ⊕ u_none = m.
Proof. by rewrite (comm u_add), (left_id u_none u_add). Qed.

Lemma crawls_in_workers {A : Type} (p : prog Workers A) r Q : works p r Q → crawls (in_workers p) r Q.
Proof.
  intros Hp. rewrite <- (u_right r).
  refine (owes_mono _ _ _ _ _ _ (λ a r', ∃ m, r' = id m ⊕ u_none ∧ Q a m) _ _ _).
  - apply (owes_lift (workers_inv h n numWorkers perWorker) crawler_inv worker_panic worker_panic (λ _ _, True) (λ _ _, True)
      any_units any_units       c_workers set_world (λ _, u_none) id id); try done.
    + intros m a c Hc. unfold id. by rewrite u_right.
    + intros m m' a c w _ Hw. unfold id in *. by rewrite u_right in Hw.
  - intros a r' (m & -> & HQ). unfold id. by rewrite u_right.
Qed.

(** The goroutines of the cache do not panic, whatever the state. *)
Lemma cache_calm_Flush : prog_ok (λ _, True) (λ _, False) Cache.Flush (λ _, True).
Proof.
  unfold Flush. eapply prog_ok_bind with (Q := λ _, True); [by apply prog_ok_update|]. intros items _.
  case_decide; [done|]. eapply prog_ok_bind with (Q := λ _, True); [by apply prog_ok_modify|]. intros _ _.
  eapply prog_ok_bind with (Q := λ _, True).
  - intros w o _ (fails & -> & _)%list_elem_of_fmap.
    pose proof (InsertHashes_spec fails (unix_of (cw_now w)) (map_to_list (ci_count <$> items)) (cw_db w)) as HI.
    by destruct (InsertHashes _ _ _ _) as [err s'].
  - intros [e|] _; [|done]. eapply prog_ok_bind with (Q := λ _, True); [by apply prog_ok_modify|done].
Qed.

Lemma cache_calm_Add x : prog_ok (λ _, True) (λ _, False) (Cache.Add x) (λ _, True).
Proof.
  unfold Cache.Add. eapply prog_ok_bind with (Q := λ _, True); [by apply prog_ok_update|]. intros [] _;
    (eapply prog_ok_bind with (Q := λ _, True); [by apply prog_ok_modify|]); intros _ _; [|done].
  eapply prog_ok_bind; [apply cache_calm_Flush|done].
Qed.

Lemma cache_calm_StartFlusher k : prog_ok (λ _, True) (λ _, False) (StartFlusher k) (λ _, True).
Proof.
  unfold StartFlusher. eapply prog_ok_bind with (Q := λ _, True); intros;
    [|eapply prog_ok_bind; [apply cache_calm_Flush|done]].
  apply prog_ok_for_each. intros x _. eapply prog_ok_bind; [apply cache_calm_Flush|done].
Qed.

Lemma crawls_in_cache {A : Type} (p : prog CacheWorld A) r :
  prog_ok (λ _, True) (λ _, False) p (λ _, True) → crawls (in_cache p) r (λ _ r', r' = r).
Proof.
  intros Hp. refine (owes_mono _ _ _ _ _ _ (λ _ r', r' = r ∧ True) _ _ _); [|by intros a r' [-> _]].
  apply (owes_lift_ok crawler_inv (λ _, False) worker_panic (λ _ _, True) any_units cache_world put_cache_world (λ _, True)); try done.
  intros m c s HI _. destruct HI. by constructor.
Qed.

Lemma crawls_Submit x addr r : crawls (in_workers (Submit x addr)) r (λ _ r', r' = r).
Proof. apply crawls_in_workers, works_Submit. Qed.

Lemma crawls_step (f : Crawler → Crawler) r :
  (∀ c, c_workers (f c) = c_workers c) → crawls (modify f) r (λ _ r', r' = r).
Proof. intros Hf. eapply owes_modify; [|done]. intros c o HI. unfold crawler_inv. by rewrite Hf. Qed.

Lemma crawls_submit_peers x k peers r : crawls (submit_peers x k peers) r (λ _ r', r' = r).
Proof.
  revert k. induction peers as [|peer peers IH]; intros k; [done|]. cbn [submit_peers].
  eapply owes_bind; [apply crawls_Submit|]. intros [] ? ->; [|apply IH].
  destruct (3 <=? S k)%nat; [done|apply IH].
Qed.

Lemma crawls_search infoHash x r : is_id infoHash → crawls (searchAndDownload infoHash x) r (λ _, any_units).
Proof.
  intros Hid. unfold searchAndDownload. eapply (owes_bind _ _ _ _ _ _ _ (λ _ r', r' = r)).
  { apply owes_update. intros c o HI. exists r. split; [|done]. unfold take_search.
    destruct (c_limiter c); exact HI. }
  intros ok ? ->. destruct (negb ok); [done|]. eapply (owes_bind _ _ _ _ _ _ _ (λ _ r', r' = r)).
  - unfold search_body. eapply owes_bind; [apply crawls_in_workers, works_db_TorrentExists|]. intros found ? ->.
    destruct (default false found); [done|].
    eapply owes_bind; [by apply crawls_in_workers, works_FindPeers|]. intros peers ? ->.
    eapply (owes_bind _ _ _ _ _ _ _ (λ _ r', r' = r)); [|intros _ ? ->; apply crawls_submit_peers].
    destruct (0 <? length peers)%nat; [apply crawls_in_workers, works_log_hash|done].
  - intros _ ? ->. apply owes_select; [done|]. intros c o res HI Ho. destruct (c_limiter c <? 10)%nat;
      [|by apply elem_of_nil in Ho]. apply list_elem_of_singleton in Ho as ->. by exists r.
Qed.

Lemma crawls_processEvent event r : event_ok event → crawls (processEvent event) r (λ _ r', r' = r).
Proof.
  intros Hev. unfold processEvent. destruct (ev_Type event).
  - eapply owes_bind; [apply crawls_in_cache, cache_calm_Add|]. intros _ ? ->.
    eapply owes_bind; [by apply crawls_step|]. intros _ ? ->.
    eapply (owes_bind _ _ _ _ _ _ _ (λ _ r', r' = r)).
    + unfold submit_ports. eapply owes_bind; [apply crawls_Submit|]. intros _ ? ->.
      apply (owes_for_each _ _ _ _ (λ _, r)). intros port l. destruct (port =? _); [done|].
      eapply owes_bind; [apply crawls_Submit|]. by intros _ ? ->.
    + intros _ ? ->. exists u_none, r. split_and!; [by rewrite (left_id u_none u_add)| |done].
      apply crawls_search. apply Hev.
  - eapply owes_bind; [apply crawls_in_cache, cache_calm_Add|]. intros _ ? ->.
    eapply owes_bind; [by apply crawls_step|]. intros _ ? ->.
    eapply owes_bind; [apply crawls_Submit|]. by intros _ ? ->.
Qed.
(** Taking an event leaves the nodes as they are, and the event is a well-formed one. *)
Lemma next_event_ok p ev ch :
  pool_inv n p → (ev, ch) ∈ chan_recv (p_eventChan p) →
  pool_inv n (set_nodes (p_nodes p) ch p) ∧ match ev with Some e => event_ok e | None => True end.
Proof.
  intros [Hn Hp] Hin. pose proof (ni_events _ (Hp 0%nat n_pos)) as (H1 & H2 & H3). cbn in H1, H2, H3.
  unfold chan_recv in Hin. destruct (ch_buf (p_eventChan p)) as [|e l] eqn:Eb.
  { rewrite H2 in Hin. by apply elem_of_nil in Hin. }
  apply list_elem_of_singleton in Hin as [= -> ->]. apply Forall_cons_1 in H3 as [He Hl]. split; [|done].
  split; [done|]. intros i Hi. specialize (Hp i Hi). apply (node_inv_set_events (mkChan l (ch_cap (p_eventChan p))
    (ch_closed (p_eventChan p)))) in Hp; [exact Hp|].
  split; [cbn in *; lia|]. done.
Qed.

Lemma crawls_event_turn r : crawls event_turn r (λ _ r', r' = r).
Proof.
  unfold event_turn.
  eapply (owes_bind _ _ _ _ _ _ _ (λ ev r', r' = r ∧ match ev with Some (Some e) => event_ok e | _ => True end)).
  - apply owes_select; [done|]. intros c o res HI Hin. apply elem_of_app in Hin as [Hin|Hin].
    + destruct (ww_done (c_workers c)); [|by apply elem_of_nil in Hin].
      apply list_elem_of_singleton in Hin as ->. by exists r.
    + apply list_elem_of_fmap in Hin as ([ev ch] & -> & Hin). cbn [fst snd].
      destruct (next_event_ok _ ev ch (wi_pool _ _ _ _ _ _ HI) Hin) as [Hp He].
      exists r. split; [|by split; [|destruct ev]]. destruct HI. by constructor.
  - intros [[ev|]|] ? [-> Hev]; [|done..].
    eapply owes_bind; [by apply crawls_processEvent|]. by intros _ ? ->.
Qed.

Lemma crawls_event_loop r : crawls event_loop r (λ _, any_units).
Proof.
  apply (owes_forever _ _ _ _ (λ r', r' = r)); [done|]. intros ? ->.
  eapply owes_mono; [apply crawls_event_turn|]. by intros [].
Qed.
End crawler.

(** The goroutines [Run] starts once the nodes run, until the context ends. *)
Definition crawler_goroutines (flushes : nat) : list (prog Crawler unit) :=
  [ (_ ← event_loop; Ret tt); in_cache (StartFlusher flushes); in_workers Worker.Start ].

(** What happens outside them, as for the worker pool. *)
Inductive crawler_env (n : nat) : config Crawler → config Crawler → Prop :=
  | crawler_env_world c pool w : workers_env n (c_workers c, []) (w, []) →
      crawler_env n (c, pool) (set_world w c, pool).

(** In the whole crawler too, downloads are exclusive and bounded. Take the event loop
    with the searches it starts, the cache's flusher and the worker pool, over running
    nodes, in any interleaving with them, the clock, database changes and the end of the
    context: whatever events arrive, no hash is queued, waiting or downloaded twice at a
    time, the open connections are at most [DownloadWorkers * DownloadPerWorker], and the
    only panics are those the network can cause and the send at shutdown. *)
Theorem crawler_exclusive n maxSize numWorkers perWorker timeout flushes c c' pool :
  (0 < n)%nat → new_workers n maxSize numWorkers perWorker timeout (c_workers c) →
  rtc (λ x y, cstep x y ∨ crawler_env n x y) (c, crawler_goroutines flushes) (c', pool) →
  NoDup (everywhere (c_workers c')) ∧
  (∀ x, x ∈ everywhere (c_workers c') → x ∈ dq_inFlight (queue_of c')) ∧
  Z.of_nat (length (ww_open (c_workers c'))) ≤ Z.max 0 numWorkers * perWorker ∧
  Z.of_nat (length (dq_items (queue_of c'))) ≤ dq_maxSize (queue_of c') ∧
  ∀ p, cpanics (c', pool) p → worker_panic p.
Proof.
  intros Hn Hw Hr. pose proof (nw_perWorker _ _ _ _ _ _ Hw) as Hp.
  assert (∀ h, pool_owes (crawler_inv h n numWorkers perWorker) worker_panic (λ _ _, True) any_units (c', pool) ∧
    ∀ p, cpanics (c', pool) p → worker_panic p) as Hinv.
  { intros h. eapply reachable_owes; [| |exact Hr].
    - intros x y [c1 q w Hstep] (rs & H1 & H2). exists rs. split; [exact H1|]. cbn in *.
      unfold crawler_inv in *. inversion Hstep; subst; destruct H2; by constructor.
    - apply (pool_owes_intro _ _ _ _ _ _ [u_none; u_none; (0%nat, ∅, 0%nat, 1%nat, Z.to_nat numWorkers)]).
      + constructor; [|constructor; [|constructor; [|constructor]]].
        * eapply owes_bind; [by apply crawls_event_loop|done].
        * eapply owes_mono; [apply crawls_in_cache, cache_calm_StartFlusher|done].
        * by apply crawls_in_workers, works_Start.
      + cbn [u_total foldr]. rewrite !(left_id u_none u_add), u_right. by eapply new_workers_inv. }
  split; [|split; [|split; [|split; [|apply (Hinv [])]]]];
    eapply (everywhere_exclusive n numWorkers perWorker (c_workers c')); try done; intros h;
    destruct (Hinv h) as [(rs & _ & HI) _]; eauto.
Qed.

Lemma crawler_exclusive_witness :
  let c' := set_world (set_env true 0 7000000000 sample_workers) sample_crawler in
  rtc (λ x y, cstep x y ∨ crawler_env 1 x y) (sample_crawler, crawler_goroutines 3) (c', crawler_goroutines 3) ∧
  NoDup (everywhere (c_workers c')) ∧ ∀ p, cpanics (c', crawler_goroutines 3) p → worker_panic p.
Proof.
  assert (rtc (λ x y, cstep x y ∨ crawler_env 1 x y) (sample_crawler, crawler_goroutines 3)
    (set_world (set_env true 0 7000000000 sample_workers) sample_crawler, crawler_goroutines 3)) as Hr.
  { eapply rtc_l; [right; apply crawler_env_world, env_cancel|]. apply rtc_refl. }
  split; [exact Hr|].
  destruct (crawler_exclusive 1 4 1 1 0 3 sample_crawler _ _ (le_n 1) sample_workers_new Hr)
    as (H1 & _ & _ & _ & H2).
  split; [exact H1|exact H2].
Defined.
