(* ===== verification/Web.v ===== *)
(** * The web server: [internal/web/server.go]

    The handlers, as programs over the crawler's state that end in a response.  A request
    is what [net/http] hands over: the path and the parsed query.  A page is the data
    given to its template and an answer the value given to the encoder; what is written for
    them is in [Pages] and [Json].  The sockets are left out. *)

From S2P Require Import Prelude GoStd Float Net Bencode Conc Storage Cache Queue Worker Crawler.

Record request := mkRequest { rq_Path : bytes; rq_Query : list (bytes * bytes) }.

(** [r.URL.Query().Get(key)]. *)
Definition Get (key : bytes) (r : request) : bytes := default [] (dict_lookup key (rq_Query r)).

(** The value of [strconv.Atoi] when its error is ignored: 0 for what is no number, the
    nearest [int] for one out of range. *)
Definition atoi (s : bytes) : Z :=
  match Atoi s with
  | Ok n => n
  | Err ErrRange => if decide (head s = Some x2d) then min_int64 else max_int64
  | _ => 0
  end.

Record paging := mkPaging {
  pg_TotalPages : Z;
  pg_HasPrev : bool;
  pg_HasNext : bool;
  pg_PrevPage : Z;
  pg_NextPage : Z;
}.

(** The data of a template. *)
Inductive page :=
  | SearchPage (stats : Crawler.Stats) (query : bytes) (results : list SearchResult) (total page : Z)
      (p : option paging)
  | SitemapPage (stats : Crawler.Stats) (torrents : list TorrentRecord) (total page : Z) (p : paging)
  | TorrentPage (stats : Crawler.Stats) (torrent : TorrentRecord) (magnetLink : bytes).

Inductive json :=
  | JSearch (query : bytes) (results : list SearchResult) (total page per_page total_pages : Z)
  | JStats (stats : Crawler.Stats)
  | JTorrents (torrents : list TorrentRecord)
  | JTorrent (torrent : TorrentRecord).

Inductive message := MsgDB (e : db_error) | Msg (text : bytes).

Inductive response :=
  | NotFound
  | InternalServerError
  | Rendered (p : page)
  | JSON (j : json)
  | JSONError (m : message) (code : Z).

(** ** Paging *)

(** [page, _ := strconv.Atoi(...); if page < 1 { page = 1 }]. *)
Definition page_number (r : request) : Z :=
  let page := atoi (Get (bs "page") r) in if page <? 1 then 1 else page.

(** [(page - 1) * perPage] and [(total + perPage - 1) / perPage]. *)
Definition offset_of (page perPage : Z) : Z := wrapS 64 (wrapS 64 (page - 1) * perPage).
Definition pages_of (total perPage : Z) : Z := Z.quot (wrapS 64 (wrapS 64 (total + perPage) - 1)) perPage.

Definition paging_of (page totalPages : Z) : paging :=
  mkPaging totalPages (1 <? page) (page <? totalPages) (wrapS 64 (page - 1)) (wrapS 64 (page + 1)).

(** [limit, _ := strconv.Atoi(...); if limit <= 0 || limit > 100 { limit = 20 }]. *)
Definition limit_of (r : request) : Z :=
  let limit := atoi (Get (bs "limit") r) in if (limit <=? 0) || (100 <? limit) then 20 else limit.

(** ** Magnet links *)

(** [url.QueryEscape]: letters, digits and [-_.~] stay, a space becomes a plus sign, other
    bytes are written in hexadecimal. *)
Definition unreserved (b : byte) : bool :=
  let c := byte_val b in
  is_digit b || ((65 <=? c) && (c <=? 90)) || ((97 <=? c) && (c <=? 122)) ||
  bool_decide (b ∈ [x2d; x5f; x2e; x7e]).

Definition upper_hex_digit (n : Z) : byte := byte_of (if n <? 10 then 48 + n else 55 + n).

Definition escape_byte (b : byte) : bytes :=
  if unreserved b then [b]
  else if decide (b = x20) then bs "+"
  else [x25; upper_hex_digit (byte_val b / 16); upper_hex_digit (byte_val b mod 16)].

Definition QueryEscape (s : bytes) : bytes := concat (escape_byte <$> s).

Definition magnet_link (t : TorrentRecord) : bytes :=
  bs "magnet:?xt=urn:btih:" ++ tr_InfoHash t ++ bs "&dn=" ++ QueryEscape (tr_Name t).

(** ** The helpers of the templates *)

(** The loop of [formatSize]: the divisor and the index of the unit. *)
Fixpoint size_loop (fuel : nat) (n div exp : Z) : outcome unit (Z * Z) :=
  if 1024 <=? n then
    match fuel with
    | O => NoFuel
    | S fuel => size_loop fuel (n / 1024) (wrapS 64 (div * 1024)) (exp + 1)
    end
  else Ok (div, exp).

Definition formatSize (n : Z) : outcome unit bytes :=
  if n <? 1024 then Ok (fmt_d n ++ bs " B")
  else
    '(div, exp) ← size_loop 6 (n / 1024) 1024 0;
    match bs "KMGTPE" !! Z.to_nat exp with
    | None => Panic PanicIndex
    | Some c => Ok (fmt_f1 (f_div (of_int n) (of_int div)) ++ bs " " ++ [c] ++ bs "B")
    end.

(** [Duration.Seconds], [Minutes] and [Hours] of a duration that is not negative, and
    the conversion to [int], which takes negative ones symmetrically. *)
Definition span (unit d : Z) : float := f_add (of_int (d / unit)) (f_div (of_int (d mod unit)) (of_int unit)).
Definition int_span (unit d : Z) : Z := if d <? 0 then - f_trunc (span unit (- d)) else f_trunc (span unit d).

Definition minute : Z := seconds 60.
Definition hour : Z := seconds 3600.

Definition formatDuration (d : Z) : bytes :=
  if d <? minute then fmt_d (int_span (seconds 1) d) ++ bs "s"
  else if d <? hour then fmt_d (int_span minute d) ++ bs "m"
  else if d <? 24 * hour then fmt_d (int_span hour d) ++ bs "h"
  else fmt_d (f_trunc (f_div (span hour d) (of_int 24))) ++ bs "d".

Definition formatInt (n : Z) : bytes :=
  if n <? 1000 then fmt_d n
  else if n <? 1000000 then fmt_f1 (f_div (of_int n) (of_int 1000)) ++ bs "K"
  else if n <? 1000000000 then fmt_f1 (f_div (of_int n) (of_int 1000000)) ++ bs "M"
  else fmt_f1 (f_div (of_int n) (of_int 1000000000)) ++ bs "B".

(** The types the templates pass to [formatNumber]. *)
Inductive number := NInt (n : Z) | NInt64 (n : Z) | NUint64 (n : Z).

Definition formatNumber (n : number) : bytes :=
  match n with
  | NInt v => formatInt v
  | NInt64 v => formatInt v
  | NUint64 v => formatInt (wrapS 64 v)
  end.

(** ** Handlers *)

Section handlers.
Context `{Engine}.
(** The failures of each call a handler makes to the database. *)
Context (fails : nat → faults).

Definition db_read {A : Type} (op : Storage → A) : prog Crawler A := gets (λ c, op (ww_db (c_workers c))).

Definition db_query {A : Type} (op : Storage → outcome db_error A) : prog Crawler (db_error + A) :=
  checked (λ c,
    match op (ww_db (c_workers c)) with
    | Ok a => Ok (inr a)
    | Err e => Ok (inl e)
    | Panic p => Panic p
    | NoFuel => NoFuel
    end).

Definition handleHome (r : request) : prog Crawler response :=
  if decide (rq_Path r = bs "/") then
    stats ← crawler_Stats;
    Ret (Rendered (SearchPage stats [] [] 0 1 None))
  else Ret NotFound.

(** The error of the search is only logged. *)
Definition handleSearch (r : request) : prog Crawler response :=
  let query := Get (bs "q") r in
  let page := page_number r in
  let offset := offset_of page 20 in
  '(results, total) ← (if decide (query = []) then Ret ([], 0)
                       else db_read (λ s, (Search (fails 0) query 20 offset s).1));
  stats ← crawler_Stats;
  let totalPages := pages_of total 20 in
  Ret (Rendered (SearchPage stats query results total page (Some (paging_of page totalPages)))).

Definition handleAPISearch (r : request) : prog Crawler response :=
  let query := Get (bs "q") r in
  let page := page_number r in
  let offset := offset_of page 20 in
  '(results, total, err) ← db_read (Search (fails 0) query 20 offset);
  match err with
  | Some e => Ret (JSONError (MsgDB e) 500)
  | None => Ret (JSON (JSearch query results total page 20 (pages_of total 20)))
  end.

Definition handleAPIStats (_ : request) : prog Crawler response :=
  stats ← crawler_Stats; Ret (JSON (JStats stats)).

Definition handleAPIRecent (r : request) : prog Crawler response :=
  torrents ← db_query (RecentTorrents (fails 0) (limit_of r));
  match torrents with
  | inl e => Ret (JSONError (MsgDB e) 500)
  | inr torrents => Ret (JSON (JTorrents torrents))
  end.

Definition handleAPIPopular (r : request) : prog Crawler response :=
  torrents ← db_query (PopularTorrents (fails 0) (limit_of r));
  match torrents with
  | inl e => Ret (JSONError (MsgDB e) 500)
  | inr torrents => Ret (JSON (JTorrents torrents))
  end.

Definition handleSitemap (r : request) : prog Crawler response :=
  let page := page_number r in
  let offset := offset_of page 50 in
  torrents ← db_query (GetAllTorrents (fails 0) 50 offset);
  match torrents with
  | inl _ => Ret InternalServerError
  | inr torrents =>
      totalTorrents ← db_read (λ s, (Storage.Stats (fails 1) s).1.2);
      let totalPages := pages_of totalTorrents 50 in
      stats ← crawler_Stats;
      Ret (Rendered (SitemapPage stats torrents totalTorrents page (paging_of page totalPages)))
  end.

(** [strings.TrimPrefix]. *)
Definition TrimPrefix (s prefix : bytes) : bytes :=
  if decide (take (length prefix) s = prefix) then drop (length prefix) s else s.

Definition handleTorrent (r : request) : prog Crawler response :=
  let hash := TrimPrefix (rq_Path r) (bs "/torrent/") in
  if decide (hash = []) then Ret NotFound
  else
    torrent ← db_query (GetTorrent (fails 0) hash);
    match torrent with
    | inl _ => Ret InternalServerError
    | inr None => Ret NotFound
    | inr (Some torrent) =>
        stats ← crawler_Stats;
        Ret (Rendered (TorrentPage stats torrent (magnet_link torrent)))
    end.

Definition handleAPITorrent (r : request) : prog Crawler response :=
  let hash := TrimPrefix (rq_Path r) (bs "/api/torrent/") in
  if decide (hash = []) then Ret (JSONError (Msg (bs "missing hash")) 400)
  else
    torrent ← db_query (GetTorrent (fails 0) hash);
    match torrent with
    | inl e => Ret (JSONError (MsgDB e) 500)
    | inr None => Ret (JSONError (Msg (bs "not found")) 404)
    | inr (Some torrent) => Ret (JSON (JTorrent torrent))
    end.

(** ** Routes *)

Inductive handler :=
  | Home | SearchForm | Sitemap | Torrent | APISearch | APIStats | APIRecent | APIPopular | APITorrent.

Definition routes : list (bytes * handler) :=
  [(bs "/", Home); (bs "/search", SearchForm); (bs "/sitemap", Sitemap); (bs "/torrent/", Torrent);
   (bs "/api/search", APISearch); (bs "/api/stats", APIStats); (bs "/api/recent", APIRecent);
   (bs "/api/popular", APIPopular); (bs "/api/torrent/", APITorrent)].

(** [http.ServeMux]: a pattern that ends in a slash stands for its subtree, the longest
    pattern wins. *)
Definition route_matches (path pattern : bytes) : bool :=
  if decide (last pattern = Some x2f) then bool_decide (take (length pattern) path = pattern)
  else bool_decide (path = pattern).

Definition better_route (path : bytes) (best : option (bytes * handler)) (r : bytes * handler)
  : option (bytes * handler) :=
  if route_matches path r.1 then
    match best with
    | Some b => if (length b.1 <? length r.1)%nat then Some r else best
    | None => Some r
    end
  else best.

Definition route (path : bytes) : option handler := snd <$> foldl (better_route path) None routes.

Definition handle (h : handler) : request → prog Crawler response :=
  match h with
  | Home => handleHome
  | SearchForm => handleSearch
  | Sitemap => handleSitemap
  | Torrent => handleTorrent
  | APISearch => handleAPISearch
  | APIStats => handleAPIStats
  | APIRecent => handleAPIRecent
  | APIPopular => handleAPIPopular
  | APITorrent => handleAPITorrent
  end.

(** A request whose path is clean and none of the redirected [/torrent], [/api/torrent]. *)
Definition serve (r : request) : prog Crawler response :=
  match route (rq_Path r) with Some h => handle h r | None => Ret NotFound end.
End handlers.

Example route_ex : route <$> [bs "/"; bs "/nothing"; bs "/search"; bs "/torrent/ab"; bs "/api/torrent/ab"; bs "/searches"] =
  Some <$> [Home; Home; SearchForm; Torrent; APITorrent; Home].
Proof. reflexivity. Qed.

Example formatSize_ex : formatSize 1536 = Ok (bs "1.5 KB"). Proof. vm_compute. reflexivity. Qed.
Example formatSize_max : formatSize max_int64 = Ok (bs "8.0 EB"). Proof. vm_compute. reflexivity. Qed.
(** The unit is chosen before the value is rounded. *)
Example formatSize_edge : formatSize 1048575 = Ok (bs "1024.0 KB"). Proof. vm_compute. reflexivity. Qed.
Example formatInt_edge : formatInt 999999 = bs "1000.0K". Proof. vm_compute. reflexivity. Qed.
Example formatDuration_ex : formatDuration (seconds 90000) = bs "1d". Proof. vm_compute. reflexivity. Qed.
Example QueryEscape_ex : QueryEscape (bs "a b/c") = bs "a+b%2Fc". Proof. vm_compute. reflexivity. Qed.
