(* ===== verification/WebSpec.v ===== *)
(** * The web server answers what the database holds *)

From S2P Require Import Prelude GoStd Float Net Bencode Conc Storage Queue Worker WorkerSpec Crawler CrawlerSpec Web.

(** ** Page numbers *)

Lemma atoi_fmt_d z : is_int64 z → atoi (fmt_d z) = z.
Proof. intros Hz. unfold atoi, Atoi. by rewrite ParseInt_fmt_d. Qed.

Lemma page_number_of r z : Get (bs "page") r = fmt_d z → is_int64 z → page_number r = Z.max 1 z.
Proof. intros Hr Hz. unfold page_number. rewrite Hr, atoi_fmt_d by done. destruct (Z.ltb_spec z 1); lia. Qed.

Lemma page_number_none r : Get (bs "page") r = [] → page_number r = 1.
Proof. intros Hr. unfold page_number. by rewrite Hr. Qed.

(** What the page parameter is worth: digits, with or without a plus sign, stand for their
    value; a minus sign, and text with a byte that is no digit after digits that fit, for
    page 1. *)
Definition plus_sign (sign : bytes) : Prop := sign = [] ∨ sign = bs "+".

Lemma dec_val_cons n b s : dec_val n (b :: s) = dec_val (n * 10 + (byte_val b - 48)) s.
Proof. done. Qed.

Lemma parse_digits_any n s :
  0 ≤ n < 2 ^ 64 → Forall is_digit s →
  parse_digits n s = if bool_decide (dec_val n s < 2 ^ 64) then Ok (dec_val n s) else Err ErrRange.
Proof.
  intros Hn Hs. case_bool_decide as Hv; [apply parse_digits_spec; by (done || lia)|].
  revert n Hn Hv. induction Hs as [|b s Hb Hs IH]; intros n Hn Hv; [cbn in Hv; lia|].
  cbn [parse_digits]. apply Is_true_true in Hb. rewrite Hb. apply is_digit_spec in Hb.
  change ((2 ^ 64 - 1) / 10 + 1) with 1844674407370955162. rewrite dec_val_cons in Hv.
  destruct (Z.leb_spec 1844674407370955162 n); [done|].
  destruct (Z.ltb_spec (2 ^ 64 - 1) (n * 10 + (byte_val b - 48))); [done|]. apply IH; [lia|done].
Qed.

Lemma parse_digits_stop n s c rest :
  0 ≤ n → Forall is_digit s → dec_val n s < 2 ^ 64 → is_digit c = false →
  parse_digits n (s ++ c :: rest) = Err ErrSyntax.
Proof.
  intros Hn Hs Hv Hc. revert n Hn Hv. induction Hs as [|b s Hb Hs IH]; intros n Hn Hv.
  { cbn [app parse_digits]. by rewrite Hc. }
  cbn [app parse_digits]. apply Is_true_true in Hb. rewrite Hb. apply is_digit_spec in Hb. rewrite dec_val_cons in Hv.
  pose proof (dec_val_mono (n * 10 + (byte_val b - 48)) s ltac:(lia) Hs).
  change ((2 ^ 64 - 1) / 10 + 1) with 1844674407370955162.
  destruct (Z.leb_spec 1844674407370955162 n); [lia|].
  destruct (Z.ltb_spec (2 ^ 64 - 1) (n * 10 + (byte_val b - 48))); [lia|]. apply IH; [lia|done].
Qed.

Lemma ParseUint_nonneg s un : ParseUint s = Ok un → 0 ≤ un.
Proof.
  assert (∀ s n z, 0 ≤ n → parse_digits n s = Ok z → 0 ≤ z) as Hd.
  { clear. induction s as [|c s IH]; cbn; intros n z Hn; [intros [= <-]; done|].
    destruct (is_digit c) eqn:Hc; [|done]. apply is_digit_spec in Hc.
    destruct (_ <=? n); [done|]. destruct (_ <? _); [done|]. apply IH. lia. }
  unfold ParseUint. destruct s; [done|]. by apply Hd.
Qed.

Lemma page_number_minus r : head (Get (bs "page") r) = Some x2d → page_number r = 1.
Proof.
  unfold page_number, atoi, Atoi. intros Hh. destruct (ParseInt _) as [n|[]| |] eqn:E; try done.
  - destruct (Get _ r) as [|c s]; [done|]. injection Hh as ->. unfold ParseInt in E.
    rewrite bool_decide_eq_true_2 in E by done. cbn [orb negb andb] in E.
    apply bind_Ok_inv in E as (un & Hun & E). assert (0 ≤ un) by (by eapply ParseUint_nonneg).
    destruct (2 ^ 63 <? un); [done|]. injection E as <-. destruct (Z.ltb_spec (- un) 1); [done|lia].
  - by rewrite decide_True.
Qed.

Lemma ParseInt_plus sign s :
  plus_sign sign → s ≠ [] → (sign = [] → head s ≠ Some x2b ∧ head s ≠ Some x2d) →
  ParseInt (sign ++ s) = (un ← parse_digits 0 s; if 2 ^ 63 <=? un then Err ErrRange else Ok un).
Proof.
  intros [-> | ->] Hne Hh.
  - destruct s as [|c s]; [done|]. destruct (Hh eq_refl) as [H1 H2]. cbn [app]. unfold ParseInt.
    rewrite !bool_decide_eq_false_2 by naive_solver. cbn [orb negb andb]. unfold ParseUint.
    destruct (parse_digits _ _); [|done..]. cbn [mbind outcome_bind]. by destruct (_ <=? _).
  - destruct s as [|c s]; [done|]. change (bs "+") with [x2b]. cbn [app]. unfold ParseInt.
    rewrite bool_decide_eq_false_2, bool_decide_eq_true_2 by done. cbn [orb negb andb]. unfold ParseUint.
    destruct (parse_digits _ _); [|done..]. cbn [mbind outcome_bind]. by destruct (_ <=? _).
Qed.

Lemma page_number_digits r sign d :
  plus_sign sign → d ≠ [] → Forall is_digit d → Get (bs "page") r = sign ++ d →
  page_number r = Z.max 1 (Z.min max_int64 (dec_val 0 d)).
Proof.
  intros Hs Hne Hd Hr. unfold page_number, atoi, Atoi. rewrite Hr.
  assert (head (sign ++ d) ≠ Some x2d) as Hm.
  { destruct Hs as [-> | ->]; [|done]. destruct d as [|c d]; [done|]. apply Forall_cons_1 in Hd as [Hc _].
    apply Is_true_true, digit_not_sign in Hc as [? ?]. cbn. congruence. }
  rewrite ParseInt_plus.
  - rewrite parse_digits_any by (done || lia). case_bool_decide as Hb; cbn [mbind outcome_bind].
    + destruct (Z.leb_spec (2 ^ 63) (dec_val 0 d)).
      * rewrite decide_False by done. destruct (Z.ltb_spec max_int64 1); unfold max_int64 in *; lia.
      * destruct (Z.ltb_spec (dec_val 0 d) 1); unfold max_int64; lia.
    + rewrite decide_False by done. destruct (Z.ltb_spec max_int64 1); unfold max_int64 in *; lia.
  - done.
  - done.
  - intros ->. destruct d as [|c d]; [done|]. apply Forall_cons_1 in Hd as [Hc _].
    apply Is_true_true, digit_not_sign in Hc as [? ?]. cbn. naive_solver.
Qed.

Lemma page_number_text r sign d c rest :
  plus_sign sign → (sign = [] → d = [] → c ≠ x2b) →
  Forall is_digit d → dec_val 0 d ≤ max_int64 → is_digit c = false → Get (bs "page") r = sign ++ d ++ c :: rest →
  page_number r = 1.
Proof.
  intros Hs Hc Hd Hv Hnd Hr.
  destruct (decide (head (Get (bs "page") r) = Some x2d)) as [Hm|Hm]; [by apply page_number_minus|].
  unfold page_number, atoi, Atoi. rewrite Hr in *. rewrite ParseInt_plus.
  - rewrite parse_digits_stop by (done || unfold max_int64 in *; lia). done.
  - done.
  - by destruct d.
  - intros ->. destruct d as [|b d]; [cbn in *; naive_solver|]. apply Forall_cons_1 in Hd as [Hb _].
    apply Is_true_true, digit_not_sign in Hb as [? ?]. cbn. naive_solver.
Qed.

Lemma pages_of_count total :
  Z.of_nat total ≤ max_int64 - 20 → pages_of (Z.of_nat total) 20 = Z.of_nat ((total + 20 - 1) `div` 20).
Proof.
  unfold max_int64, pages_of. intros Ht. rewrite (wrapS_id 64 (_ + _)), wrapS_id by lia.
  rewrite Z.quot_div_nonneg, Nat2Z.inj_div by lia. f_equal; lia.
Qed.

Lemma offset_of_page p : Z.of_nat p * 20 ≤ max_int64 → offset_of (Z.of_nat p + 1) 20 = Z.of_nat (p * 20).
Proof. unfold max_int64, offset_of. intros Hp. rewrite (wrapS_id 64 (_ - _)), wrapS_id by lia. lia. Qed.

Lemma limit_of_range r : 1 ≤ limit_of r ≤ 100.
Proof.
  unfold limit_of. set (limit := atoi _). destruct (Z.leb_spec limit 0); [done|].
  destruct (Z.ltb_spec 100 limit); cbn [orb]; lia.
Qed.

Definition no_failures : nat → faults := λ _, no_faults.

Section search.
Context `{EngineLaws}.

Lemma outcomes_APISearch fails query r c :
  rq_Path r = bs "/api/search" → Get (bs "q") r = query →
  outcomes (serve fails r) c =
    [Ok (match Search (fails 0%nat) query 20 (offset_of (page_number r) 20) (ww_db (c_workers c)) with
         | (_, _, Some e) => JSONError (MsgDB e) 500
         | (results, total, None) => JSON (JSearch query results total (page_number r) 20 (pages_of total 20))
         end, c)].
Proof.
  intros Hp <-. unfold serve. rewrite Hp. change (route (bs "/api/search")) with (Some APISearch). cbn [handle].
  unfold handleAPISearch, db_read. rewrite outcomes_gets.
  by destruct (Search _ _ _ _ _) as [[results total] [e|]].
Qed.

(** The calls that a search without the full-text index makes to the driver: the count,
    the query, and for each row [Next] and [Scan], with a last [Next]. *)
Definition search_calls {A : Type} (rows : list A) : nat := (2 + 2 * length rows)%nat.

Lemma read_rows_fails {A B : Type} fails k (f : A → B) rows j :
  (k ≤ j ≤ k + 2 * length rows)%nat → fails j = true → (read_rows fails k f rows).2 ≠ AllRows.
Proof.
  revert k. induction rows as [|x rows IH]; intros k Hj Hf; cbn [read_rows length] in *.
  { assert (j = k) as -> by lia. by rewrite Hf. }
  destruct (fails k) eqn:E1; [done|]. destruct (fails (S k)) eqn:E2; [done|].
  specialize (IH (S (S k))). destruct (read_rows _ _ _ _) as [l e]. apply IH; [|done].
  destruct (decide (j = k)) as [->|]; [congruence|]. destruct (decide (j = S k)) as [->|]; [congruence|]. lia.
Qed.

Lemma read_rows_works {A B : Type} fails k (f : A → B) rows :
  (∀ j, k ≤ j ≤ k + 2 * length rows → fails j = false)%nat → read_rows fails k f rows = (f <$> rows, AllRows).
Proof.
  revert k. induction rows as [|x rows IH]; intros k Hf; cbn [read_rows length] in *; rewrite (Hf k) by lia; [done|].
  rewrite (Hf (S k)) by lia. by rewrite IH by (intros; apply Hf; lia).
Qed.

(** One page of a search without the full-text index, whatever fails. *)
Lemma Search_page_calls fails query offset s :
  st_hasFTS5 s = false → st_open s = true →
  let rows := take 20 (drop (Z.to_nat offset) (found query s)) in
  ((∀ k, k ≤ search_calls rows → fails k = false)%nat →
   Search fails query 20 offset s = (search_result <$> rows, Z.of_nat (length (found query s)), None)) ∧
  (∀ k, (k ≤ search_calls rows)%nat → fails k = true → (Search fails query 20 offset s).2 = Some ErrDB).
Proof.
  intros Hf Ho rows. unfold Search, calls. rewrite Hf, Ho. cbn [negb]. unfold searchLike.
  fold (found query s). change (sql_limit 20 offset (found query s)) with rows. unfold search_calls. split.
  - intros Hok. rewrite !Hok by lia. rewrite read_rows_works by (intros; apply Hok; lia). cbn [search_end].
    do 2 f_equal. unfold found. by rewrite sort_Slice_perm.
  - intros k Hk Hfail. destruct (fails 0%nat) eqn:E0; [done|]. destruct (fails 1%nat) eqn:E1; [done|].
    destruct (decide (k = 0%nat)) as [->|]; [congruence|]. destruct (decide (k = 1%nat)) as [->|]; [congruence|].
    pose proof (read_rows_fails fails 2 search_result rows k ltac:(lia) Hfail) as He.
    by destruct (read_rows _ _ _ _) as [l []].
Qed.

(** C30: the pages of the search API are the results of the query. Without the full-text
    index and with an open database, the request for page [p] is answered with the
    [p]-th twenty of the torrents whose name matches, their number and the number of
    pages, when none of the calls it makes to the driver fails; when any of them does, the
    count, the query or the reading of a row, it is answered with status 500. The pages 1
    to [total_pages] hold each matching torrent once, the most requested first and the
    newest of these first; all but the last are full and none is empty, and later ones
    are. Digits, also after a plus sign, ask for the page of their value, or for the
    largest [int] where that does not fit; a page that is missing, starts with a minus
    sign, or has a byte that is no digit after digits that fit, is page 1. For the largest
    page number the offset overflows, and the answer is the first page under that
    number. *)
Theorem api_search_pages query c :
  let s := ww_db (c_workers c) in
  let all := found query s in
  let total := Z.of_nat (length all) in
  let n := ((length all + 20 - 1) `div` 20)%nat in
  st_hasFTS5 s = false → st_open s = true → total ≤ max_int64 - 20 →
  (∀ r p fails, rq_Path r = bs "/api/search" → Get (bs "q") r = query →
     page_number r = Z.of_nat p + 1 → Z.of_nat p * 20 ≤ max_int64 →
     ((∀ k, k ≤ search_calls (page_of 20 p all) → fails 0 k = false)%nat →
      outcomes (serve fails r) c =
        [Ok (JSON (JSearch query (search_result <$> page_of 20 p all) total (Z.of_nat p + 1) 20 (Z.of_nat n)), c)]) ∧
     (∀ k, (k ≤ search_calls (page_of 20 p all))%nat → fails 0%nat k = true →
      outcomes (serve fails r) c = [Ok (JSONError (MsgDB ErrDB) 500, c)])) ∧
  (concat ((λ p, page_of 20 p all) <$> seq 0 n) = all ∧
   (∀ p, p < n → page_of 20 p all ≠ [] ∧ (S p < n → length (page_of 20 p all) = 20))%nat ∧
   (∀ p, n ≤ p → page_of 20 p all = [])%nat) ∧
  (NoDup all.*1 ∧
   (∀ h r, (h, r) ∈ all ↔ st_torrents s !! h = Some r ∧ sql_like (t_name r) (bs "%" ++ query ++ bs "%") = true) ∧
   (∀ i j a b, all !! i = Some a → all !! j = Some b → (i < j)%nat → found_before b a = false)) ∧
  ((∀ r z, Get (bs "page") r = fmt_d z → is_int64 z → page_number r = Z.max 1 z) ∧
   (∀ r sign d, plus_sign sign → d ≠ [] → Forall is_digit d → Get (bs "page") r = sign ++ d →
      page_number r = Z.max 1 (Z.min max_int64 (dec_val 0 d))) ∧
   (∀ r, Get (bs "page") r = [] → page_number r = 1) ∧
   (∀ r, head (Get (bs "page") r) = Some x2d → page_number r = 1) ∧
   (∀ r, Get (bs "page") r = bs "+" → page_number r = 1) ∧
   (∀ r sign d b rest, plus_sign sign → (sign = [] → d = [] → b ≠ x2b) → Forall is_digit d →
      dec_val 0 d ≤ max_int64 → is_digit b = false → Get (bs "page") r = sign ++ d ++ b :: rest →
      page_number r = 1)) ∧
  (∀ r fails, rq_Path r = bs "/api/search" → fails 0%nat 0%nat = true →
     outcomes (serve fails r) c = [Ok (JSONError (MsgDB ErrDB) 500, c)]) ∧
  (∀ r, rq_Path r = bs "/api/search" → Get (bs "q") r = query → page_number r = max_int64 →
     outcomes (serve no_failures r) c =
       [Ok (JSON (JSearch query (search_result <$> page_of 20 0 all) total max_int64 20 (Z.of_nat n)), c)]).
Proof.
  intros s all total n Hf Ho Ht.
  assert (pages_of total 20 = Z.of_nat n) as Hn by (by apply pages_of_count).
  split_and!; try (apply (pages_tile 20); lia); try apply found_NoDup; try apply found_sorted.
  - intros r p fails Hr Hq Hp Hlt.
    destruct (Search_page_calls (fails 0%nat) query (offset_of (page_number r) 20) s Hf Ho) as [Hok Hfail].
    rewrite Hp, offset_of_page, Nat2Z.id in Hok, Hfail by done. fold all in Hok, Hfail. fold (page_of 20 p all) in Hok, Hfail.
    rewrite (outcomes_APISearch _ query) by done. rewrite Hp, offset_of_page by done. fold s. split.
    + intros Hw. rewrite Hok by done. fold total. by rewrite Hn.
    + intros k Hk Hf'. specialize (Hfail k Hk Hf'). by destruct (Search _ _ _ _ _) as [[? ?] ?]; cbn in Hfail; subst.
  - intros h r. apply found_elem.
  - intros r z. apply page_number_of.
  - intros r sign d. apply page_number_digits.
  - apply page_number_none.
  - apply page_number_minus.
  - intros r Hr. unfold page_number. by rewrite Hr.
  - intros r sign d b rest. apply page_number_text.
  - intros r fails Hr Hfail. rewrite (outcomes_APISearch _ _ r c Hr eq_refl). unfold Search, calls. fold s.
    rewrite Hf, Ho. cbn [negb]. unfold searchLike. by rewrite Hfail.
  - intros r Hr Hq Hp. rewrite (outcomes_APISearch _ query) by done.
    unfold no_failures. rewrite Hp, (Search_page query 20) by done.
    change (Z.to_nat (offset_of max_int64 20)) with 0%nat. fold s all total. by rewrite Hn.
Qed.
End search.

Definition listing_crawler : Crawler :=
  set_world (set_queue (ww_queue (c_workers sample_crawler)) sample_storage (c_workers sample_crawler)) sample_crawler.

Lemma api_search_pages_witness :
  let r := mkRequest (bs "/api/search") [(bs "q", bs "name"); (bs "page", bs "1")] in
  st_hasFTS5 (ww_db (c_workers listing_crawler)) = false ∧
  outcomes (serve no_failures r) listing_crawler =
    [Ok (JSON (JSearch (bs "name")
          [mkSearchResult (bs "d") (bs "names") [] 1 1 2; mkSearchResult (bs "b") (bs "a name") [] 1 1 1] 2 1 20 1),
         listing_crawler)].
Proof.
  split; [reflexivity|].
  destruct (api_search_pages (bs "name") listing_crawler) as [Hs _];
    [reflexivity|reflexivity|vm_compute; discriminate|].
  destruct (Hs (mkRequest (bs "/api/search") [(bs "q", bs "name"); (bs "page", bs "1")]) 0%nat no_failures) as [Hok _];
    [reflexivity|reflexivity|vm_compute; reflexivity|vm_compute; discriminate|].
  rewrite Hok by (intros; reflexivity).
  assert (search_result <$> page_of 20 0 (found (bs "name") (ww_db (c_workers listing_crawler))) =
    [mkSearchResult (bs "d") (bs "names") [] 1 1 2; mkSearchResult (bs "b") (bs "a name") [] 1 1 1]) as ->
    by (vm_compute; reflexivity).
  assert (length (found (bs "name") (ww_db (c_workers listing_crawler))) = 2%nat) as -> by (vm_compute; reflexivity).
  reflexivity.
Defined.

(** ** Magnet links *)

(** What a reader of the link does: [url.QueryUnescape] and [url.ParseQuery]. *)
Fixpoint QueryUnescape (s : bytes) : option bytes :=
  match s with
  | [] => Some []
  | b :: r =>
      if decide (b = x25) then
        match r with
        | h :: l :: r =>
            match from_hex_char h, from_hex_char l with
            | Some h, Some l => cons (byte_of (h * 16 + l)) <$> QueryUnescape r
            | _, _ => None
            end
        | _ => None
        end
      else cons (if decide (b = x2b) then x20 else b) <$> QueryUnescape r
  end.

(** The text before the first [c], and after it. *)
Fixpoint cut (c : byte) (s : bytes) : bytes * bytes :=
  match s with
  | [] => ([], [])
  | b :: r => if decide (b = c) then ([], r) else let (x, y) := cut c r in (b :: x, y)
  end.

Definition parse_pair (s : bytes) : option (bytes * bytes) :=
  let (k, v) := cut x3d s in
  match QueryUnescape k, QueryUnescape v with Some k, Some v => Some (k, v) | _, _ => None end.

(** For a query of two pairs. *)
Definition parse_two (s : bytes) : option (list (bytes * bytes)) :=
  let (a, b) := cut x26 s in
  match parse_pair a, parse_pair b with Some a, Some b => Some [a; b] | _, _ => None end.

Lemma cut_at c s r : c ∉ s → cut c (s ++ c :: r) = (s, r).
Proof.
  induction s as [|b s IH]; intros Hc; cbn; [by rewrite decide_True|].
  apply not_elem_of_cons in Hc as [Hb Hs]. rewrite decide_False by congruence. by rewrite IH.
Qed.

Lemma cut_none c s : c ∉ s → cut c s = (s, []).
Proof.
  induction s as [|b s IH]; intros Hc; cbn; [done|].
  apply not_elem_of_cons in Hc as [Hb Hs]. rewrite decide_False by congruence. by rewrite IH.
Qed.

(** Facts about single bytes, by going through all of them. *)
Definition escapes (b : byte) : bool :=
  bool_decide (QueryUnescape (escape_byte b) = Some [b]) && bool_decide (x26 ∉ escape_byte b) &&
  bool_decide (x3d ∉ escape_byte b) &&
  forallb (λ c, unreserved c || bool_decide (c = x2b) || bool_decide (c = x25)) (escape_byte b).

Lemma escapes_all b : escapes b = true.
Proof. by destruct b; vm_compute. Qed.

Lemma unescape_step b r : QueryUnescape (escape_byte b ++ r) = cons b <$> QueryUnescape r.
Proof.
  pose proof (escapes_all b) as H. unfold escapes in H. rewrite !andb_true_iff, !bool_decide_eq_true in H.
  destruct H as [[[H _] _] _]. revert H. unfold escape_byte.
  destruct (unreserved b); [|destruct (decide (b = x20)) as [->|]].
  - cbn [app QueryUnescape]. destruct (decide (b = x25)) as [->|]; [done|]. cbn [fmap option_fmap option_map].
    intros [= ->]. done.
  - done.
  - cbn [app QueryUnescape]. rewrite decide_True by done.
    destruct (from_hex_char _); [|done]. destruct (from_hex_char _); [|done]. cbn. by intros [= ->].
Qed.

Lemma QueryUnescape_Escape s : QueryUnescape (QueryEscape s) = Some s.
Proof.
  unfold QueryEscape. induction s as [|b s IH]; [done|]. cbn [fmap list_fmap concat].
  rewrite unescape_step. by rewrite IH.
Qed.

Lemma QueryEscape_no c s : c = x26 ∨ c = x3d → c ∉ QueryEscape s.
Proof.
  intros Hc. unfold QueryEscape. induction s as [|b s IH]; [apply not_elem_of_nil|].
  cbn [fmap list_fmap concat]. rewrite elem_of_app. intros [H|H]; [|done].
  pose proof (escapes_all b) as Hb. unfold escapes in Hb. rewrite !andb_true_iff, !bool_decide_eq_true in Hb.
  destruct Hc as [-> | ->]; tauto.
Qed.

(** A text without escapes reads as itself. *)
Definition plain (b : byte) : Prop := b ∉ [x25; x2b; x26; x3d].

Lemma QueryUnescape_plain s : Forall plain s → QueryUnescape s = Some s.
Proof.
  induction 1 as [|b s Hb Hs IH]; [done|]. cbn [QueryUnescape]. unfold plain in Hb. set_unfold.
  rewrite !decide_False by tauto. by rewrite IH.
Qed.

(** Hexadecimal digits are unreserved, and nothing unreserved is a delimiter. *)
Lemma unreserved_plain b : unreserved b = true → plain b.
Proof. intros H. unfold plain. intros Hb. set_unfold. repeat destruct Hb as [->|Hb]; done. Qed.

Definition hex_unreserved (b : byte) : bool := forallb unreserved (hex_EncodeToString [b]).

Lemma hex_unreserved_all b : hex_unreserved b = true.
Proof. by destruct b; vm_compute. Qed.

Lemma hex_Encode_unreserved s : Forall (λ b, unreserved b = true) (hex_EncodeToString s).
Proof.
  induction s as [|b s IH]; [constructor|].
  change (hex_EncodeToString (b :: s)) with (hex_EncodeToString [b] ++ hex_EncodeToString s).
  apply Forall_app. split; [|exact IH]. pose proof (hex_unreserved_all b) as Hb. unfold hex_unreserved in Hb.
  rewrite forallb_forall in Hb. apply Forall_forall. intros c Hc. by apply Hb, list_elem_of_In.
Qed.

(** The delimiters are [:?=&+%]. *)
Definition link_byte (b : byte) : Prop := unreserved b = true ∨ b ∈ [x3a; x3f; x3d; x26; x2b; x25].

Lemma QueryEscape_link s : Forall link_byte (QueryEscape s).
Proof.
  unfold QueryEscape. induction s as [|b s IH]; [constructor|]. cbn [fmap list_fmap concat].
  apply Forall_app. split; [|exact IH]. pose proof (escapes_all b) as Hb. unfold escapes in Hb.
  rewrite !andb_true_iff, forallb_forall in Hb. destruct Hb as [_ Hb].
  apply Forall_forall. intros c Hc. specialize (Hb c (proj1 (list_elem_of_In _ _) Hc)). unfold link_byte.
  rewrite !orb_true_iff, !bool_decide_eq_true in Hb. destruct Hb as [[Hb| ->]| ->]; [by left|right; set_solver..].
Qed.

(** C36: a magnet link is read back as it was meant. For a torrent under the hexadecimal
    form of an info hash, whatever its name, the query of the link has two parts, [xt] with
    the hash and [dn] with the name, byte for byte; and the link keeps to unreserved
    characters and delimiters, so that no name can break out of it. *)
Theorem magnet_roundtrip h t :
  tr_InfoHash t = hex_EncodeToString h →
  ∃ query, magnet_link t = bs "magnet:?" ++ query ∧
    parse_two query = Some [(bs "xt", bs "urn:btih:" ++ tr_InfoHash t); (bs "dn", tr_Name t)] ∧
    Forall link_byte (magnet_link t).
Proof.
  intros Hh. set (urn := bs "urn:btih:" ++ tr_InfoHash t).
  assert (Forall link_byte urn ∧ Forall plain urn) as [Hl Hp].
  { unfold urn. rewrite Hh. split; apply Forall_app; split.
    - by repeat constructor; (left; reflexivity) || (right; set_solver).
    - eapply Forall_impl; [apply hex_Encode_unreserved|]. by left.
    - by repeat constructor; unfold plain; set_solver.
    - eapply Forall_impl; [apply hex_Encode_unreserved|]. apply unreserved_plain. }
  exists ((bs "xt=" ++ urn) ++ bs "&dn=" ++ QueryEscape (tr_Name t)). split_and!.
  - unfold magnet_link, urn. by rewrite <- !app_assoc.
  - unfold parse_two. change (bs "&dn=" ++ ?s) with (x26 :: bs "dn=" ++ s). rewrite cut_at.
    + unfold parse_pair. change (bs "xt=" ++ ?s) with (bs "xt" ++ x3d :: s).
      change (bs "dn=" ++ ?s) with (bs "dn" ++ x3d :: s). rewrite !cut_at by set_solver.
      by rewrite (QueryUnescape_plain urn), QueryUnescape_Escape.
    + rewrite elem_of_app. intros [H|H]; [set_unfold; naive_solver|].
      rewrite Forall_forall in Hp. specialize (Hp _ H). unfold plain in Hp. set_solver.
  - change (magnet_link t) with (bs "magnet:?xt=" ++ urn ++ bs "&dn=" ++ QueryEscape (tr_Name t)).
    apply Forall_app; split; [|apply Forall_app; split; [exact Hl|apply Forall_app; split; [|apply QueryEscape_link]]];
      by repeat constructor; (left; reflexivity) || (right; set_solver).
Qed.

Lemma magnet_roundtrip_witness :
  let t := mkTorrentRecord (hex_EncodeToString [x01; xab]) (bs "a&b =%") 1 [] 0 0 1 in
  magnet_link t = bs "magnet:?xt=urn:btih:01ab&dn=a%26b+%3D%25" ∧
  ∃ query, magnet_link t = bs "magnet:?" ++ query ∧
    parse_two query = Some [(bs "xt", bs "urn:btih:01ab"); (bs "dn", bs "a&b =%")].
Proof.
  split; [vm_compute; reflexivity|].
  destruct (magnet_roundtrip [x01; xab] (mkTorrentRecord (hex_EncodeToString [x01; xab]) (bs "a&b =%") 1 [] 0 0 1) eq_refl)
    as (query & H1 & H2 & _).
  exists query. split; [exact H1|exact H2].
Defined.

(** ** Sizes *)

Lemma size_loop_spec n fuel e :
  0 ≤ e → n ≤ max_int64 → 1024 ^ (e + 1) ≤ n < 1024 ^ (e + 2 + Z.of_nat fuel) →
  ∃ u, size_loop fuel (n / 1024 ^ (e + 1)) (1024 ^ (e + 1)) e = Ok (1024 ^ (u + 1), u) ∧
    e ≤ u ∧ 1024 ^ (u + 1) ≤ n < 1024 ^ (u + 2).
Proof.
  unfold max_int64. revert e. induction fuel as [|fuel IH]; intros e He Hn [Hlo Hhi];
    assert (1024 ^ (e + 2) = 1024 ^ (e + 1) * 1024) as Hpow
      by (replace (e + 2) with (e + 1 + 1) by lia; by rewrite Z.pow_add_r by lia).
  - replace (e + 2 + Z.of_nat 0) with (e + 2) in Hhi by lia. exists e. cbn [size_loop].
    destruct (Z.leb_spec 1024 (n / 1024 ^ (e + 1))) as [H|]; [|by split_and!].
    apply (Z.mul_le_mono_nonneg_l _ _ (1024 ^ (e + 1))) in H; [|lia].
    pose proof (Z.mul_div_le n (1024 ^ (e + 1)) ltac:(lia)). lia.
  - cbn [size_loop]. destruct (Z.leb_spec 1024 (n / 1024 ^ (e + 1))) as [H|H].
    + assert (1024 ^ (e + 2) ≤ n) as Hle.
      { apply (Z.mul_le_mono_nonneg_l _ _ (1024 ^ (e + 1))) in H; [|lia].
        pose proof (Z.mul_div_le n (1024 ^ (e + 1)) ltac:(lia)). lia. }
      rewrite Z.div_div, <- Hpow, wrapS_id by lia. replace (e + 2) with (e + 1 + 1) by lia.
      destruct (IH (e + 1)) as (u & Hu & Heu & Hr); [lia|done| |].
      * replace (e + 1 + 1) with (e + 2) by lia. replace (e + 1 + 2 + Z.of_nat fuel) with (e + 2 + Z.of_nat (S fuel)) by lia.
        lia.
      * exists u. split_and!; [exact Hu|lia|lia|lia].
    + exists e. split_and!; [done|lia|lia|]. rewrite Hpow.
      pose proof (Z.mul_succ_div_gt n (1024 ^ (e + 1)) ltac:(lia)). nia.
Qed.

(** Sizes are shown to the nearest tenth of their unit. Below 1024 a size is its number
    of bytes; any larger [int64] is shown as a multiple, with one digit after the point, of
    the largest of KB to EB that it reaches, and what is shown is within half a tenth of
    the unit of the size, up to the rounding of [float64]; the index of the unit's letter
    is always in range. *)
Theorem formatSize_accurate n :
  n ≤ max_int64 →
  (n < 1024 → formatSize n = Ok (fmt_d n ++ bs " B")) ∧
  (1024 ≤ n → ∃ u c t, let unit := 1024 ^ (Z.of_nat u + 1) in
     bs "KMGTPE" !! u = Some c ∧
     formatSize n = Ok (fmt_u (t / 10) ++ bs "." ++ fmt_u (t mod 10) ++ bs " " ++ [c] ++ bs "B") ∧
     unit ≤ n < 1024 * unit ∧
     2 ^ 54 * Z.abs (t * unit - 10 * n) ≤ 2 ^ 53 * unit + 60 * n).
Proof.
  unfold formatSize. intros Hmax. split; intros Hn; destruct (Z.ltb_spec n 1024); try lia; [done|].
  destruct (size_loop_spec n 6 0) as (u & Hu & Hu0 & Hlo & Hhi);
    [lia|done|unfold max_int64 in Hmax; change (1024 ^ (0 + 2 + Z.of_nat 6)) with (2 ^ 80); lia|].
  change (1024 ^ (0 + 1)) with 1024 in Hu. rewrite Hu. cbn [mbind outcome_bind].
  assert (u < 6) as Hu6.
  { destruct (Z.lt_ge_cases u 6); [done|]. assert (1024 ^ 7 ≤ 1024 ^ (u + 1)) by (apply Z.pow_le_mono_r; lia).
    unfold max_int64 in Hmax. lia. }
  exists (Z.to_nat u). rewrite Z2Nat.id by lia.
  assert (∃ c, bs "KMGTPE" !! Z.to_nat u = Some c) as [c Hc].
  { apply lookup_lt_is_Some. change (length (bs "KMGTPE")) with 6%nat. lia. }
  exists c, (tenths (f_div (of_int n) (of_int (1024 ^ (u + 1))))). rewrite Hc. cbv zeta.
  split_and!; [done|unfold fmt_f1; by rewrite <- !app_assoc|lia| |].
  - replace (u + 2) with (u + 1 + 1) in Hhi by lia. rewrite Z.pow_add_r in Hhi by lia. lia.
  - apply tenths_error; [lia|lia|].
    assert (u = 0 ∨ u = 1 ∨ u = 2 ∨ u = 3 ∨ u = 4 ∨ u = 5) as Hcases by lia.
    destruct_or! Hcases; subst u; vm_compute; reflexivity.
Qed.

Lemma formatSize_accurate_witness :
  1500000 ≤ max_int64 ∧ ∃ u c t, bs "KMGTPE" !! u = Some c ∧
    formatSize 1500000 = Ok (fmt_u (t / 10) ++ bs "." ++ fmt_u (t mod 10) ++ bs " " ++ [c] ++ bs "B") ∧
    1024 ^ (Z.of_nat u + 1) ≤ 1500000.
Proof.
  split; [vm_compute; discriminate|].
  destruct (formatSize_accurate 1500000 ltac:(vm_compute; discriminate)) as [_ H].
  destruct (H ltac:(lia)) as (u & c & t & H1 & H2 & [H3 _] & _). exists u, c, t. split; [exact H1|split; [exact H2|exact H3]].
Defined.
