(* ===== verification/Json.v ===== *)
(** * JSON answers: [jsonResponse], [jsonError] and the struct tags of the records

    What [encoding/json] writes for the types the API answers with: maps with their keys
    sorted, structs in the order of their fields, [omitempty], nil slices as [null], and
    strings escaped so that they can stand inside HTML (as in Go 1.21, which go.mod names). *)

From S2P Require Import Prelude GoStd Net Bencode Conc Storage Cache Queue Worker Crawler Web.

(** ** Characters *)

Definition in_range (lo hi : Z) (b : byte) : bool := (lo <=? byte_val b) && (byte_val b <=? hi).
Definition continuation : byte → bool := in_range 128 191.

(** The lead and second byte of characters of two, three and four bytes. *)
Definition two_ok (a b : byte) : bool := in_range 194 223 a && continuation b.
Definition three_ok (a b : byte) : bool :=
  (in_range 224 224 a && in_range 160 191 b) || (in_range 237 237 a && in_range 128 159 b) ||
  ((in_range 225 236 a || in_range 238 239 a) && continuation b).
Definition four_ok (a b : byte) : bool :=
  (in_range 240 240 a && in_range 144 191 b) || (in_range 244 244 a && in_range 128 143 b) ||
  (in_range 241 243 a && continuation b).

(** [utf8.DecodeRuneInString] from one end to the other: the characters of a string, and
    [None] for each byte that starts none. *)
Fixpoint runes (s : bytes) : list (option bytes) :=
  match s with
  | [] => []
  | a :: r =>
      if in_range 0 127 a then Some [a] :: runes r
      else
        match r with
        | b :: r2 =>
            if two_ok a b then Some [a; b] :: runes r2
            else
              match r2 with
              | c :: r3 =>
                  if three_ok a b && continuation c then Some [a; b; c] :: runes r3
                  else
                    match r3 with
                    | d :: r4 =>
                        if four_ok a b && continuation c && continuation d then Some [a; b; c; d] :: runes r4
                        else None :: runes r
                    | [] => None :: runes r
                    end
              | [] => None :: runes r
              end
        | [] => None :: runes r
        end
  end.

(** ** Strings *)

Definition hex_escape (b : byte) : bytes :=
  bs "\u00" ++ [hex_digit (byte_val b / 16); hex_digit (byte_val b mod 16)].

Definition escape_ascii (b : byte) : bytes :=
  if decide (b = x22 ∨ b = x5c) then [x5c; b]
  else if decide (b = x0a) then bs "\n"
  else if decide (b = x0d) then bs "\r"
  else if decide (b = x09) then bs "\t"
  else if (byte_val b <? 32) || bool_decide (b ∈ bs "<>&") then hex_escape b
  else [b].

Definition escape_rune (r : option bytes) : bytes :=
  match r with
  | None => bs "\ufffd"
  | Some [b] => escape_ascii b
  | Some [xe2; x80; xa8] => bs "\u2028"
  | Some [xe2; x80; xa9] => bs "\u2029"
  | Some s => s
  end.

Definition quoted (s : bytes) : bytes := [x22] ++ concat (escape_rune <$> runes s) ++ [x22].

(** ** Values *)

Inductive jvalue :=
  | JNull
  | JInt (z : Z)
  | JStr (s : bytes)
  | JList (l : list jvalue)
  | JObj (fields : list (bytes * jvalue)).

Definition commas (l : list bytes) : bytes :=
  match l with [] => [] | x :: l => x ++ concat ((λ y, bs "," ++ y) <$> l) end.

Fixpoint print (v : jvalue) : bytes :=
  match v with
  | JNull => bs "null"
  | JInt z => fmt_d z
  | JStr s => quoted s
  | JList l => bs "[" ++ commas (print <$> l) ++ bs "]"
  | JObj fs => bs "{" ++ commas ((λ f, quoted f.1 ++ bs ":" ++ print f.2) <$> fs) ++ bs "}"
  end.

(** ** Times: [time.Time.MarshalJSON] *)

(** The date of a day since 1970, in the Gregorian calendar. *)
Definition civil (day : Z) : Z * Z * Z :=
  let z := day + 719468 in
  let era := z / 146097 in
  let doe := z mod 146097 in
  let yoe := (doe - doe / 1460 + doe / 36524 - doe / 146096) / 365 in
  let doy := doe - (365 * yoe + yoe / 4 - yoe / 100) in
  let mp := (5 * doy + 2) / 153 in
  let d := doy - (153 * mp + 2) / 5 + 1 in
  let m := if mp <? 10 then mp + 3 else mp - 9 in
  (yoe + era * 400 + (if m <=? 2 then 1 else 0), m, d).

(** A number with at least [w] digits. *)
Definition padded (w : nat) (n : Z) : bytes := replicate (w - length (fmt_u n)) x30 ++ fmt_u n.

Definition fraction (ns : Z) : bytes :=
  if ns =? 0 then []
  else bs "." ++ reverse ((fix strip (s : bytes) := match s with x30 :: s => strip s | _ => s end) (reverse (padded 9 ns))).

Section answers.
(** The offset of the local time zone at an instant, in seconds. *)
Context (zone : Z → Z).

(** RFC 3339; an error for a year of more than four digits or an offset of a day. *)
Definition time_text (t : Z) : option bytes :=
  let sec := t / 1000000000 in
  let offset := zone sec in
  let local := sec + offset in
  let '(y, m, d) := civil (local / 86400) in
  let s := local mod 86400 in
  let minutes := Z.quot offset 60 in
  if (y <? 0) || (9999 <? y) || (24 <=? Z.abs minutes / 60) then None
  else Some (padded 4 y ++ bs "-" ++ padded 2 m ++ bs "-" ++ padded 2 d ++ bs "T" ++
             padded 2 (s / 3600) ++ bs ":" ++ padded 2 (s / 60 mod 60) ++ bs ":" ++ padded 2 (s mod 60) ++
             fraction (t mod 1000000000) ++
             (if offset =? 0 then bs "Z"
              else (if minutes <? 0 then bs "-" else bs "+") ++
                   padded 2 (Z.abs minutes / 60) ++ bs ":" ++ padded 2 (Z.abs minutes mod 60))).

(** ** The records *)

(** [omitempty]. *)
Definition unless_empty {A : Type} (l : list A) (f : bytes * jvalue) : list (bytes * jvalue) :=
  match l with [] => [] | _ => [f] end.

(** A slice that nothing was appended to is nil. *)
Definition slice (l : list jvalue) : jvalue := match l with [] => JNull | _ => JList l end.

Definition file_json (f : FileRecord) : jvalue :=
  JObj [(bs "path", JStr (fr_Path f)); (bs "size", JInt (fr_Size f))].

Definition torrent_json (t : TorrentRecord) : option jvalue :=
  created ← time_text (tr_CreatedAt t);
  Some (JObj ([(bs "info_hash", JStr (tr_InfoHash t)); (bs "name", JStr (tr_Name t)); (bs "size", JInt (tr_Size t))] ++
              unless_empty (tr_Files t) (bs "files", JList (file_json <$> tr_Files t)) ++
              [(bs "file_count", JInt (tr_FileCount t)); (bs "created_at", JStr created);
               (bs "req_count", JInt (tr_ReqCount t))])).

Definition result_json (r : SearchResult) : jvalue :=
  JObj ([(bs "info_hash", JStr (sr_InfoHash r)); (bs "name", JStr (sr_Name r))] ++
        unless_empty (sr_NameHighlight r) (bs "name_highlight", JStr (sr_NameHighlight r)) ++
        [(bs "size", JInt (sr_Size r)); (bs "file_count", JInt (sr_FileCount r)); (bs "req_count", JInt (sr_ReqCount r))]).

Definition stats_json (s : Crawler.Stats) : jvalue :=
  JObj [(bs "DHTNodesActive", JInt (s_DHTNodesActive s)); (bs "DHTQueriesRecv", JInt (s_DHTQueriesRecv s));
        (bs "DHTQueriesSent", JInt (s_DHTQueriesSent s)); (bs "DHTGetPeers", JInt (s_DHTGetPeers s));
        (bs "DHTAnnounces", JInt (s_DHTAnnounces s)); (bs "DHTRoutingSize", JInt (s_DHTRoutingSize s));
        (bs "CacheHashesAdded", JInt (s_CacheHashesAdded s)); (bs "CacheHashesFlushed", JInt (s_CacheHashesFlushed s));
        (bs "CacheCurrent", JInt (s_CacheCurrent s)); (bs "DownloadSuccess", JInt (s_DownloadSuccess s));
        (bs "DownloadFail", JInt (s_DownloadFail s)); (bs "DownloadInProgress", JInt (s_DownloadInProgress s));
        (bs "DownloadQueued", JInt (s_DownloadQueued s)); (bs "TotalHashes", JInt (s_TotalHashes s));
        (bs "TotalTorrents", JInt (s_TotalTorrents s)); (bs "Uptime", JInt (s_Uptime s))].

(** The value of an answer; [None] where its encoding fails. *)
Definition json_value (j : json) : option jvalue :=
  match j with
  | JSearch query results total page per_page total_pages =>
      Some (JObj [(bs "page", JInt page); (bs "per_page", JInt per_page); (bs "query", JStr query);
                  (bs "results", slice (result_json <$> results)); (bs "total", JInt total);
                  (bs "total_pages", JInt total_pages)])
  | JStats stats => Some (stats_json stats)
  | JTorrents torrents => slice <$> mapM torrent_json torrents
  | JTorrent torrent => torrent_json torrent
  end.

(** The error of [Encode] is ignored, and leaves the body empty. *)
Definition jsonResponse (j : json) : bytes :=
  match json_value j with Some v => print v ++ [x0a] | None => [] end.

(** The text of an error of the database is the driver's. *)
Definition jsonError (db_message : db_error → bytes) (m : message) : bytes :=
  print (JObj [(bs "error", JStr (match m with MsgDB e => db_message e | Msg text => text end))]) ++ [x0a].
End answers.

(** [filesToJSON]; [json.Marshal] adds no line end. *)
Definition filesToJSON (files : list FileRecord) : bytes :=
  match files with [] => [] | _ => print (JList (file_json <$> files)) end.
