(* ===== verification/JsonSpec.v ===== *)
(** * JSON answers are read back

    A reader of JSON, written from its grammar and not from the encoder, and what it reads
    in the answers of the API. *)

From S2P Require Import Prelude GoStd Net Bencode Conc Storage Cache Queue Worker Crawler Web WebSpec Json.

(** ** Characters *)

(** What a string becomes: its bytes that belong to no character are replaced by U+FFFD. *)
Definition clean (s : bytes) : bytes := concat (default (string_of_rune 65533) <$> runes s).

(** All of the string is UTF-8. *)
Definition valid (s : bytes) : bool := forallb (λ r : option bytes, match r with Some _ => true | None => false end) (runes s).

Definition rune_ok (r : option bytes) : Prop :=
  match r with
  | None => True
  | Some [a] => in_range 0 127 a = true
  | Some s => Forall (λ b, 128 ≤ byte_val b) s
  end.

Lemma in_range_spec lo hi b : in_range lo hi b = true ↔ lo ≤ byte_val b ≤ hi.
Proof. unfold in_range. by rewrite andb_true_iff, !Z.leb_le. Qed.

Ltac ranges :=
  unfold two_ok, three_ok, four_ok, continuation in *;
  repeat rewrite ?andb_true_iff, ?orb_true_iff, ?in_range_spec in *.

(** Characters are taken from the front. *)
Lemma runes_ind (P : bytes → list (option bytes) → Prop) :
  P [] [] →
  (∀ c s l, rune_ok (Some c) → c ≠ [] → P s l → P (c ++ s) (Some c :: l)) →
  (∀ a s l, P s l → P (a :: s) (None :: l)) →
  ∀ s, P s (runes s).
Proof.
  intros H0 H1 H2 s. remember (length s) as n eqn:Hn. revert s Hn.
  induction (lt_wf n) as [n _ IH]. intros s ->. destruct s as [|a r]; [exact H0|].
  assert (∀ r', (length r' < length (a :: r))%nat → P r' (runes r')) as Hr by (intros r' Hl; by eapply IH).
  clear IH. cbn [runes]. destruct (in_range 0 127 a) eqn:Ea.
  { apply (H1 [a]); [done..|]. apply Hr. cbn. lia. }
  assert (128 ≤ byte_val a) as Ha.
  { pose proof (byte_val_range a). destruct (Z.le_gt_cases 128 (byte_val a)); [done|].
    assert (in_range 0 127 a = true) by (apply in_range_spec; lia). congruence. }
  assert (P (a :: r) (None :: runes r)) as Hn by (apply H2, Hr; cbn; lia).
  destruct r as [|b r2]; [exact Hn|]. destruct (two_ok a b) eqn:E2.
  { apply (H1 [a; b]); [|done|apply Hr; cbn; lia]. ranges. cbn. repeat constructor; lia. }
  destruct r2 as [|c r3]; [exact Hn|]. destruct (three_ok a b && continuation c) eqn:E3.
  { apply (H1 [a; b; c]); [|done|apply Hr; cbn; lia]. ranges. cbn. repeat constructor; lia. }
  destruct r3 as [|d r4]; [exact Hn|]. destruct (four_ok a b && continuation c && continuation d) eqn:E4; [|exact Hn].
  apply (H1 [a; b; c; d]); [|done|apply Hr; cbn; lia]. ranges. cbn. repeat constructor; lia.
Qed.

Lemma runes_ok s : Forall rune_ok (runes s).
Proof. apply (runes_ind (λ _ l, Forall rune_ok l)); by constructor. Qed.

Lemma clean_valid s : valid s = true → clean s = s.
Proof.
  unfold clean, valid. apply (runes_ind (λ s l, forallb _ l = true → concat (_ <$> l) = s)); [done| |done].
  intros c r l _ _ IH. cbn [forallb fmap list_fmap concat default]. intros H. by rewrite IH.
Qed.

(** ** Reading strings *)

Definition hex4 (a b c d : byte) : option Z :=
  match from_hex_char a, from_hex_char b, from_hex_char c, from_hex_char d with
  | Some a, Some b, Some c, Some d => Some (((a * 16 + b) * 16 + c) * 16 + d)
  | _, _, _, _ => None
  end.

(** The characters a backslash stands in front of, but for [u]. *)
Definition simple_escape (b : byte) : option byte :=
  match b with
  | x22 | x5c | x2f => Some b
  | x62 => Some x08 | x66 => Some x0c | x6e => Some x0a | x72 => Some x0d | x74 => Some x09
  | _ => None
  end.

Definition prepend (s : bytes) (r : option (bytes * bytes)) : option (bytes * bytes) :=
  match r with Some (t, r) => Some (s ++ t, r) | None => None end.

(** The rest of a string after its first quote, and what follows it. *)
Fixpoint read_string (s : bytes) : option (bytes * bytes) :=
  match s with
  | [] => None
  | b :: r =>
      if decide (b = x22) then Some ([], r)
      else if decide (b = x5c) then
        match r with
        | x75 :: h1 :: h2 :: h3 :: h4 :: r =>
            match hex4 h1 h2 h3 h4 with Some n => prepend (string_of_rune n) (read_string r) | None => None end
        | e :: r => match simple_escape e with Some c => prepend [c] (read_string r) | None => None end
        | [] => None
        end
      else if byte_val b <? 32 then None
      else prepend [b] (read_string r)
  end.

Lemma read_high s t : Forall (λ b, 128 ≤ byte_val b) s → read_string (s ++ t) = prepend s (read_string t).
Proof.
  induction 1 as [|b s Hb _ IH]; cbn [app].
  { destruct (read_string t) as [[]|]; done. }
  cbn [read_string]. rewrite !decide_False by (intros ->; done).
  destruct (Z.ltb_spec (byte_val b) 32); [lia|]. rewrite IH. by destruct (read_string t) as [[]|].
Qed.

(** A separator of lines is written as its escape, any other character as it is. *)
Definition is_separator (s : bytes) : bool := bool_decide (s = [xe2; x80; xa8] ∨ s = [xe2; x80; xa9]).

Lemma escape_rune_high a b s : is_separator (a :: b :: s) = false → escape_rune (Some (a :: b :: s)) = a :: b :: s.
Proof.
  intros H. unfold is_separator in H. apply bool_decide_eq_false in H. destruct a; try reflexivity.
  destruct b; try reflexivity. destruct s as [|c [|d s]]; try reflexivity; destruct c; try reflexivity; naive_solver.
Qed.

Lemma read_escape_rune r t :
  rune_ok r → r ≠ Some [] →
  read_string (escape_rune r ++ t) = prepend (default (string_of_rune 65533) r) (read_string t).
Proof.
  destruct r as [[|a [|b s]]|]; intros Hok Hne; [done| | |reflexivity].
  - destruct a; try done; reflexivity.
  - destruct (is_separator (a :: b :: s)) eqn:E.
    + apply bool_decide_eq_true in E as [[= -> -> ->]|[= -> -> ->]]; reflexivity.
    + rewrite escape_rune_high by done. by apply read_high.
Qed.

Lemma read_quoted s t : read_string (tail (quoted s) ++ t) = Some (clean s, t).
Proof.
  unfold quoted, clean. cbn [app tail].
  apply (runes_ind (λ s l, read_string ((concat (escape_rune <$> l) ++ [x22]) ++ t) = Some (concat (_ <$> l), t))).
  - reflexivity.
  - intros c r l Hc Hne IH. cbn [fmap list_fmap concat]. rewrite <- !app_assoc in *.
    rewrite read_escape_rune by (done || congruence). by rewrite IH.
  - intros a r l IH. cbn [fmap list_fmap concat]. rewrite <- !app_assoc in *. rewrite read_escape_rune by done. by rewrite IH.
Qed.

(** ** Reading values *)

(** An item, and those that follow after commas until the bracket. *)
Fixpoint read_list {A : Type} (item : bytes → option (A * bytes)) (close : byte) (fuel : nat) (s : bytes)
  : option (list A * bytes) :=
  match fuel with
  | O => None
  | S fuel =>
      match item s with
      | Some (a, b :: r) =>
          if decide (b = close) then Some ([a], r)
          else if decide (b = x2c) then
            match read_list item close fuel r with Some (l, r) => Some (a :: l, r) | None => None end
          else None
      | _ => None
      end
  end.

Fixpoint read_digits (n : Z) (s : bytes) : Z * bytes :=
  match s with
  | b :: r => if is_digit b then read_digits (n * 10 + (byte_val b - 48)) r else (n, s)
  | [] => (n, s)
  end.

Definition read_member (value : bytes → option (jvalue * bytes)) (s : bytes) : option (bytes * jvalue * bytes) :=
  match s with
  | x22 :: r =>
      match read_string r with
      | Some (k, x3a :: r) => match value r with Some (v, r) => Some ((k, v), r) | None => None end
      | _ => None
      end
  | _ => None
  end.

Fixpoint read_value (fuel : nat) (s : bytes) : option (jvalue * bytes) :=
  match fuel with
  | O => None
  | S fuel =>
      match s with
      | x22 :: r => match read_string r with Some (t, r) => Some (JStr t, r) | None => None end
      | x5b :: x5d :: r => Some (JList [], r)
      | x5b :: r => match read_list (read_value fuel) x5d fuel r with Some (l, r) => Some (JList l, r) | None => None end
      | x7b :: x7d :: r => Some (JObj [], r)
      | x7b :: r => match read_list (read_member (read_value fuel)) x7d fuel r with Some (l, r) => Some (JObj l, r) | None => None end
      | x6e :: x75 :: x6c :: x6c :: r => Some (JNull, r)
      | x2d :: ((b :: _) as r) => if is_digit b then let (n, r) := read_digits 0 r in Some (JInt (- n), r) else None
      | b :: _ => if is_digit b then let (n, r) := read_digits 0 s in Some (JInt n, r) else None
      | [] => None
      end
  end.

(** A value and the end of its line. *)
Definition read_json (s : bytes) : option jvalue :=
  match read_value (length s) s with Some (v, [x0a]) => Some v | _ => None end.

Fixpoint clean_value (v : jvalue) : jvalue :=
  match v with
  | JNull => JNull
  | JInt z => JInt z
  | JStr s => JStr (clean s)
  | JList l => JList (clean_value <$> l)
  | JObj fs => JObj ((λ f, (clean f.1, clean_value f.2)) <$> fs)
  end.

Lemma jvalue_ind' (P : jvalue → Prop) :
  P JNull → (∀ z, P (JInt z)) → (∀ s, P (JStr s)) → (∀ l, Forall P l → P (JList l)) →
  (∀ fs, Forall (λ f, P f.2) fs → P (JObj fs)) → ∀ v, P v.
Proof.
  intros H1 H2 H3 H4 H5. fix IH 1. intros [|z|s|l|fs]; [done|apply H2|apply H3| |].
  - apply H4. induction l as [|v l IHl]; constructor; [apply IH|exact IHl].
  - apply H5. induction fs as [|[k v] fs IHl]; constructor; [apply IH|exact IHl].
Qed.

(** What follows a value does not go on with a number. *)
Definition stops (s : bytes) : Prop := match s with b :: _ => is_digit b = false | [] => True end.

Lemma read_digits_spec s r n : Forall is_digit s → stops r → read_digits n (s ++ r) = (dec_val n s, r).
Proof.
  intros Hs Hr. revert n. induction Hs as [|b s Hb _ IH]; intros n; cbn [app read_digits dec_val foldl].
  - destruct r as [|b r]; [done|]. cbn in Hr. cbn. by rewrite Hr.
  - apply Is_true_true in Hb. rewrite Hb. apply IH.
Qed.

Lemma read_list_spec {A B : Type} (item : bytes → option (A * bytes)) (enc : B → bytes) (dec : B → A) close l r fuel :
  close ≠ x2c → is_digit close = false → l ≠ [] → (length l ≤ fuel)%nat →
  (∀ x r, x ∈ l → stops r → item (enc x ++ r) = Some (dec x, r)) →
  read_list item close fuel (commas (enc <$> l) ++ close :: r) = Some (dec <$> l, r).
Proof.
  intros Hc Hd Hne Hf Hi. destruct l as [|x l]; [done|]. clear Hne. cbn [commas fmap list_fmap].
  revert x fuel Hf Hi. induction l as [|y l IH]; intros x fuel Hf Hi; (destruct fuel as [|fuel]; [cbn in Hf; lia|]);
    cbn [fmap list_fmap concat read_list]; rewrite <- app_assoc.
  - rewrite Hi by (done || apply list_elem_of_here). cbn [app]. by rewrite decide_True by done.
  - change (bs ",") with [x2c]. cbn [app]. rewrite Hi by (done || apply list_elem_of_here).
    rewrite decide_False, decide_True, <- app_assoc by congruence.
    pose proof (IH y fuel) as IH'. change (bs ",") with [x2c] in IH'. cbn [fmap list_fmap concat app] in IH'. rewrite <- app_assoc in IH'. rewrite IH'.
    + done.
    + cbn in Hf |- *. lia.
    + intros z r' Hz. apply Hi. by apply list_elem_of_further.
Qed.

Lemma commas_length l : (length l ≤ S (length (commas l)))%nat.
Proof.
  destruct l as [|x l]; [cbn; lia|]. cbn [commas]. rewrite length_app. induction l as [|y l IH]; [cbn; lia|].
  cbn [fmap list_fmap concat length] in *. rewrite !length_app. change (length (bs ",")) with 1%nat. lia.
Qed.

Lemma length_commas x l : x ∈ l → (length x ≤ length (commas l))%nat.
Proof.
  destruct l as [|y l]; [by intros ?%elem_of_nil|]. cbn [commas]. rewrite length_app, elem_of_cons.
  intros [->|H]; [lia|]. induction l as [|z l IH]; [by apply elem_of_nil in H|].
  cbn [fmap list_fmap concat]. rewrite !length_app. apply elem_of_cons in H as [->|H]; [lia|]. apply IH in H. lia.
Qed.

Lemma read_value_number fuel z r : stops r → read_value (S fuel) (fmt_d z ++ r) = Some (JInt z, r).
Proof.
  intros Hr. unfold fmt_d. destruct (Z.ltb_spec z 0) as [Hz|Hz].
  - destruct (fmt_u_spec (- z) ltac:(lia)) as [Hv Hd]. destruct (fmt_u_cons (- z)) as (c & s & E). rewrite E in *.
    pose proof (Forall_cons_1 _ _ _ Hd) as [Hc _]. apply Is_true_true in Hc.
    change (bs "-") with [x2d]. cbn [app read_value]. rewrite Hc.
    pose proof (read_digits_spec (c :: s) r 0 Hd Hr) as HR. cbn [app] in HR. rewrite HR, Hv. do 3 f_equal. lia.
  - destruct (fmt_u_spec z ltac:(lia)) as [Hv Hd]. destruct (fmt_u_cons z) as (c & s & E). rewrite E in *.
    pose proof (Forall_cons_1 _ _ _ Hd) as [Hc _]. apply Is_true_true in Hc.
    pose proof (read_digits_spec (c :: s) r 0 Hd Hr) as HR. cbn [app] in *. cbn [read_value].
    destruct c; try discriminate Hc; rewrite HR, Hv; reflexivity.
Qed.

Lemma print_nonempty v : print v ≠ [].
Proof.
  intros H. apply (f_equal head) in H. destruct v as [|z|t|l|fs]; try discriminate H. cbn [print] in H. unfold fmt_d in H.
  destruct (z <? 0); [discriminate H|]. by destruct (fmt_u_cons z) as (c & u & E); rewrite E in H.
Qed.

Lemma print_not_close v b s : print v = b :: s → b ≠ x5d.
Proof.
  intros H Hb. subst b. apply (f_equal head) in H. destruct v as [|z|t|l|fs]; try discriminate H.
  cbn [print head] in H. unfold fmt_d in H. destruct (Z.ltb_spec z 0); [discriminate H|].
  destruct (fmt_u_spec z ltac:(lia)) as [_ Hd]. destruct (fmt_u_cons z) as (c & u & E). rewrite E in *.
  injection H as ->. by apply Forall_cons_1 in Hd as [[] _].
Qed.

Definition print_member (f : bytes * jvalue) : bytes := quoted f.1 ++ bs ":" ++ print f.2.

Lemma read_member_spec value f r :
  value (print f.2 ++ r) = Some (clean_value f.2, r) →
  read_member value (print_member f ++ r) = Some ((clean f.1, clean_value f.2), r).
Proof.
  intros Hv. unfold print_member. change (bs ":") with [x3a]. pose proof (read_quoted f.1 (x3a :: print f.2 ++ r)) as HR.
  unfold quoted in *. cbn [app tail] in HR. rewrite <- !app_assoc. rewrite <- app_assoc in HR. cbn [app read_member] in *.
  by rewrite HR, Hv.
Qed.

(** The value is read back whatever follows it, with any fuel above the length of its text. *)
Lemma read_print v fuel r :
  (length (print v) ≤ fuel)%nat → stops r → read_value fuel (print v ++ r) = Some (clean_value v, r).
Proof.
  revert fuel r. induction v as [|z|s|l IH|fs IH] using jvalue_ind'; intros fuel r Hf Hr.
  - destruct fuel; [cbn in Hf; lia|reflexivity].
  - destruct fuel; [|by apply read_value_number]. exfalso. cbn [print] in Hf. unfold fmt_d in Hf.
    destruct (fmt_u_cons z) as (c & u & E), (fmt_u_cons (- z)) as (c' & u' & E').
    destruct (z <? 0); rewrite ?E, ?E', ?length_app in Hf; cbn in Hf; lia.
  - destruct fuel; [cbn in Hf; lia|]. cbn [print clean_value]. pose proof (read_quoted s r) as HR.
    unfold quoted in *. cbn [app tail read_value] in *. by rewrite HR.
  - destruct fuel as [|fuel]; [cbn in Hf; lia|]. destruct l as [|v l]; [reflexivity|].
    cbn [print clean_value]. rewrite <- !app_assoc. change (bs "[") with [x5b]. change (bs "]") with [x5d].
    cbn [print] in Hf. rewrite !length_app in Hf. change (length (bs "[")) with 1%nat in Hf. change (length (bs "]")) with 1%nat in Hf.
    assert (read_list (read_value fuel) x5d fuel (commas (print <$> v :: l) ++ x5d :: r) = Some (clean_value <$> v :: l, r)) as HL.
    { apply read_list_spec; [done..| |].
      - pose proof (commas_length (print <$> v :: l)). rewrite length_fmap in *. lia.
      - intros x r' Hx Hr'. rewrite Forall_forall in IH. apply IH; [done| |done].
        assert (length (print x) ≤ length (commas (print <$> v :: l)))%nat by (by apply length_commas, list_elem_of_fmap_2). lia. }
    cbn [app]. assert (∃ b u, commas (print <$> v :: l) = b :: u ∧ b ≠ x5d) as (b & u & E & Hb).
    { cbn [fmap list_fmap commas]. destruct (print v) as [|b u] eqn:E; [by apply print_nonempty in E|].
      exists b. eexists. split; [reflexivity|]. by eapply print_not_close. }
    rewrite E in *. cbn [app] in *. cbn [read_value]. rewrite HL. by destruct b.
  - destruct fuel as [|fuel]; [cbn in Hf; lia|]. destruct fs as [|f fs]; [reflexivity|].
    cbn [print clean_value]. rewrite <- !app_assoc. change (bs "{") with [x7b]. change (bs "}") with [x7d].
    cbn [print] in Hf. rewrite !length_app in Hf. change (length (bs "{")) with 1%nat in Hf. change (length (bs "}")) with 1%nat in Hf.
    change (λ f, quoted f.1 ++ bs ":" ++ print f.2) with print_member in *.
    assert (read_list (read_member (read_value fuel)) x7d fuel (commas (print_member <$> f :: fs) ++ x7d :: r) =
      Some ((λ f, (clean f.1, clean_value f.2)) <$> f :: fs, r)) as HL.
    { apply read_list_spec; [done..| |].
      - pose proof (commas_length (print_member <$> f :: fs)). rewrite length_fmap in *. lia.
      - intros x r' Hx Hr'. rewrite Forall_forall in IH. apply read_member_spec. apply IH; [done| |done].
        assert (length (print_member x) ≤ length (commas (print_member <$> f :: fs)))%nat as Hl by (by apply length_commas, list_elem_of_fmap_2).
        unfold print_member in Hl at 1. rewrite !length_app in Hl. lia. }
    assert (∃ u, commas (print_member <$> f :: fs) = x22 :: u) as (u & E) by (by eexists).
    cbn [app]. rewrite E in *. cbn [app] in *. cbn [read_value]. by rewrite HL.
Qed.

(** No text of JSON holds an angle bracket or an ampersand. *)
Definition html_safe (b : byte) : Prop := b ≠ x3c ∧ b ≠ x3e ∧ b ≠ x26.

Lemma literal_safe s : forallb (λ b, bool_decide (b ∉ bs "<>&")) s = true → Forall html_safe s.
Proof.
  rewrite forallb_forall, Forall_forall. intros H b Hb%list_elem_of_In. apply H, bool_decide_eq_true in Hb.
  split_and!; intros ->; apply Hb; apply (bool_decide_unpack _); vm_compute; exact I.
Qed.

Lemma escape_rune_safe r : rune_ok r → Forall html_safe (escape_rune r).
Proof.
  destruct r as [[|a [|b s]]|]; intros Hok; [constructor| | |repeat constructor; done].
  - destruct a; try discriminate Hok; repeat constructor; done.
  - destruct (is_separator (a :: b :: s)) eqn:E.
    + apply bool_decide_eq_true in E as [[= -> -> ->]|[= -> -> ->]]; repeat constructor; done.
    + rewrite escape_rune_high by done. eapply Forall_impl; [exact Hok|]. intros x Hx. by split_and!; intros ->.
Qed.

Lemma quoted_safe s : Forall html_safe (quoted s).
Proof.
  unfold quoted. repeat apply Forall_app_2; [by repeat constructor| |by repeat constructor].
  pose proof (runes_ok s) as H. induction H as [|r l Hr _ IH]; [constructor|]. cbn. apply Forall_app_2; [by apply escape_rune_safe|done].
Qed.

Lemma digits_safe s : Forall is_digit s → Forall html_safe s.
Proof. intros H. eapply Forall_impl; [exact H|]. intros b Hb. split_and!; by intros ->. Qed.

Lemma commas_safe l : Forall (Forall html_safe) l → Forall html_safe (commas l).
Proof.
  destruct 1 as [|x l Hx Hl]; [constructor|]. apply Forall_app_2; [done|].
  induction Hl as [|y l Hy _ IH]; [constructor|]. cbn. constructor; [done|]. by apply Forall_app_2.
Qed.

Lemma print_safe v : Forall html_safe (print v).
Proof.
  induction v as [|z|s|l IH|fs IH] using jvalue_ind'; cbn [print].
  - by apply literal_safe.
  - unfold fmt_d. destruct (Z.ltb_spec z 0); [apply Forall_app_2; [by apply literal_safe|]|];
      apply digits_safe, fmt_u_spec; lia.
  - apply quoted_safe.
  - apply Forall_app_2; [by apply literal_safe|]. apply Forall_app_2; [|by apply literal_safe].
    apply commas_safe. by apply Forall_fmap.
  - apply Forall_app_2; [by apply literal_safe|]. apply Forall_app_2; [|by apply literal_safe].
    apply commas_safe, Forall_fmap. eapply Forall_impl; [exact IH|]. intros f Hf. cbn beta in *.
    apply Forall_app_2; [apply quoted_safe|]. apply Forall_app_2; [by apply literal_safe|done].
Qed.

(** ** Times *)

(** The day of a date. *)
Definition day_of (y m d : Z) : Z :=
  let y := y - (if m <=? 2 then 1 else 0) in
  let era := y / 400 in
  let yoe := y mod 400 in
  let mp := if 2 <? m then m - 3 else m + 9 in
  let doy := (153 * mp + 2) / 5 + d - 1 in
  era * 146097 + yoe * 365 + yoe / 4 - yoe / 100 + doy - 719468.

(** In a cycle of 400 years, which has 146097 days: the year, its day, and the month. *)
Lemma year_of_cycle doe : 0 ≤ doe < 146097 →
  let yoe := (doe - doe / 1460 + doe / 36524 - doe / 146096) / 365 in
  0 ≤ yoe < 400 ∧ 0 ≤ doe - (365 * yoe + yoe / 4 - yoe / 100) < 366.
Proof. intros H yoe. subst yoe. Z.to_euclidean_division_equations. lia. Qed.

Lemma month_of_year doy : 0 ≤ doy < 366 →
  let mp := (5 * doy + 2) / 153 in 0 ≤ mp ≤ 11 ∧ 1 ≤ doy - (153 * mp + 2) / 5 + 1 ≤ 31.
Proof. intros H mp. subst mp. Z.to_euclidean_division_equations. lia. Qed.

Lemma civil_day day : let '(y, m, d) := civil day in day_of y m d = day ∧ 1 ≤ m ≤ 12 ∧ 1 ≤ d ≤ 31.
Proof.
  unfold civil. cbn zeta. pose proof (Z.mod_pos_bound (day + 719468) 146097 eq_refl) as Hb.
  pose proof (Z.div_mod (day + 719468) 146097 ltac:(done)) as Hday.
  set (era := (day + 719468) / 146097) in *. set (doe := (day + 719468) mod 146097) in *.
  destruct (year_of_cycle doe Hb) as [Hy Hdoy].
  set (yoe := (doe - doe / 1460 + doe / 36524 - doe / 146096) / 365) in *.
  set (doy := doe - (365 * yoe + yoe / 4 - yoe / 100)) in *.
  destruct (month_of_year doy Hdoy) as [Hm Hd]. set (mp := (5 * doy + 2) / 153) in *.
  set (m := if mp <? 10 then mp + 3 else mp - 9).
  assert (1 ≤ m ≤ 12 ∧ (if 2 <? m then m - 3 else m + 9) = mp) as [Hm' Hmp].
  { unfold m. destruct (Z.ltb_spec mp 10); [destruct (Z.ltb_spec 2 (mp + 3))|destruct (Z.ltb_spec 2 (mp - 9))]; lia. }
  split; [|lia]. unfold day_of. rewrite Hmp. set (c := if m <=? 2 then 1 else 0).
  replace (yoe + era * 400 + c - c) with (yoe + era * 400) by lia.
  rewrite Z.div_add, Z.mod_add, (Z.div_small yoe 400), (Z.mod_small yoe 400) by lia. unfold doy. lia.
Qed.

Lemma digits_of_length fuel w n acc :
  0 ≤ n < 10 ^ Z.of_nat (S w) → (length (digits_of fuel n acc) ≤ S w + length acc)%nat.
Proof.
  revert w n acc. induction fuel as [|fuel IH]; intros w n acc Hn; cbn [digits_of]; [lia|].
  destruct (Z.ltb_spec n 10); [cbn; lia|]. destruct w as [|w]; [cbn in Hn; lia|].
  rewrite Nat2Z.inj_succ, Z.pow_succ_r in Hn by lia. specialize (IH w (n / 10) (byte_of (48 + n mod 10) :: acc)).
  cbn [length] in IH. etransitivity; [apply IH|lia].
  split; [apply Z.div_pos; lia|apply Z.div_lt_upper_bound; lia].
Qed.

Lemma padded_spec w n : 0 ≤ n < 10 ^ Z.of_nat (S w) → length (padded (S w) n) = S w ∧ dec_val 0 (padded (S w) n) = n.
Proof.
  intros Hn. unfold padded. split.
  - rewrite length_app, length_replicate. unfold fmt_u. pose proof (digits_of_length (S (Z.to_nat (Z.log2 n))) w n [] Hn) as Hl.
    cbn [length] in Hl. lia.
  - assert (∀ k s, dec_val 0 (replicate k x30 ++ s) = dec_val 0 s) as ->.
    { intros k s. induction k as [|k IH]; [done|exact IH]. }
    apply fmt_u_spec. lia.
Qed.

Lemma padded2 n : 0 ≤ n < 100 → ∃ a b, padded 2 n = [a; b] ∧ dec_val 0 [a; b] = n.
Proof.
  intros Hn. destruct (padded_spec 1 n Hn) as [Hl Hv]. destruct (padded 2 n) as [|a [|b []]]; try done. by exists a, b.
Qed.

Lemma padded4 n : 0 ≤ n < 10000 → ∃ a b c d, padded 4 n = [a; b; c; d] ∧ dec_val 0 [a; b; c; d] = n.
Proof.
  intros Hn. destruct (padded_spec 3 n Hn) as [Hl Hv]. destruct (padded 4 n) as [|a [|b [|c [|d []]]]]; try done. by exists a, b, c, d.
Qed.

(** The number in [n] places, and the second that a text of RFC 3339 names. *)
Definition number_at (i n : nat) (s : bytes) : Z := dec_val 0 (take n (drop i s)).

Definition read_time (s : bytes) : option Z :=
  let local := day_of (number_at 0 4 s) (number_at 5 2 s) (number_at 8 2 s) * 86400 +
               number_at 11 2 s * 3600 + number_at 14 2 s * 60 + number_at 17 2 s in
  let offset := number_at 20 2 s * 3600 + number_at 23 2 s * 60 in
  match drop 19 s with
  | [x5a] => Some local
  | x2b :: _ => Some (local - offset)
  | x2d :: _ => Some (local + offset)
  | _ => None
  end.

Lemma time_text_read zone sec s :
  time_text zone (sec * 1000000000) = Some s → zone sec mod 60 = 0 → read_time s = Some sec.
Proof.
  unfold time_text. rewrite Z.div_mul, Z.mod_mul by done. intros H Hz. change (fraction 0) with ([] : bytes) in H.
  set (local := sec + zone sec) in *. pose proof (civil_day (local / 86400)) as Hc.
  destruct (civil (local / 86400)) as [[y m] d]. destruct Hc as (Hday & Hm & Hd).
  set (minutes := Z.quot (zone sec) 60) in *. assert (zone sec = minutes * 60) as Hz'.
  { unfold minutes. pose proof (Z.quot_rem (zone sec) 60 ltac:(done)) as Hq.
    assert (Z.rem (zone sec) 60 = 0); [|lia]. by apply Z.rem_divide, Z.mod_divide. }
  case_match eqn:Hr; [done|]. rewrite !orb_false_iff, !Z.ltb_ge, Z.leb_gt in Hr. destruct Hr as [[Hy Hy'] Hh].
  injection H as <-. pose proof (Z.div_mod local 86400 ltac:(done)) as Hl. pose proof (Z.mod_pos_bound local 86400 eq_refl) as Hs.
  set (sod := local mod 86400) in *.
  destruct (padded4 y ltac:(lia)) as (y1 & y2 & y3 & y4 & -> & Vy).
  destruct (padded2 m ltac:(lia)) as (m1 & m2 & -> & Vm). destruct (padded2 d ltac:(lia)) as (d1 & d2 & -> & Vd).
  assert (0 ≤ sod / 3600 < 24 ∧ 0 ≤ sod / 60 mod 60 < 60 ∧ 0 ≤ sod mod 60 < 60 ∧
    sod = sod / 3600 * 3600 + sod / 60 mod 60 * 60 + sod mod 60) as (R1 & R2 & R3 & R4)
    by (Z.to_euclidean_division_equations; lia).
  destruct (padded2 (sod / 3600) ltac:(lia)) as (h1 & h2 & -> & Vh).
  destruct (padded2 (sod / 60 mod 60) ltac:(lia)) as (i1 & i2 & -> & Vi).
  destruct (padded2 (sod mod 60) ltac:(lia)) as (s1 & s2 & -> & Vs).
  assert (0 ≤ Z.abs minutes / 60 < 24 ∧ 0 ≤ Z.abs minutes mod 60 < 60 ∧
    Z.abs minutes = Z.abs minutes / 60 * 60 + Z.abs minutes mod 60) as (R5 & R6 & R7)
    by (Z.to_euclidean_division_equations; lia).
  destruct (padded2 (Z.abs minutes / 60) ltac:(lia)) as (a1 & a2 & -> & Va).
  destruct (padded2 (Z.abs minutes mod 60) ltac:(lia)) as (b1 & b2 & -> & Vb).
  unfold read_time, number_at. destruct (Z.eqb_spec (zone sec) 0) as [E0|E0].
  - cbn -[dec_val day_of Z.mul Z.add]. rewrite Vy, Vm, Vd, Vh, Vi, Vs, Hday. f_equal. lia.
  - destruct (Z.ltb_spec minutes 0); cbn -[dec_val day_of Z.mul Z.add Z.sub];
      rewrite Vy, Vm, Vd, Vh, Vi, Vs, Va, Vb, Hday; f_equal; lia.
Qed.

(** ** Records *)

Definition field (f : bytes) (v : jvalue) : option jvalue := match v with JObj fs => dict_lookup f fs | _ => None end.
Definition int_field (f : bytes) (v : jvalue) : option Z := match field f v with Some (JInt z) => Some z | _ => None end.
Definition str_field (f : bytes) (v : jvalue) : option bytes := match field f v with Some (JStr s) => Some s | _ => None end.

Definition read_slice {A : Type} (read : jvalue → option A) (v : option jvalue) : option (list A) :=
  match v with
  | None | Some JNull => Some []
  | Some (JList l) => mapM read l
  | _ => None
  end.

Definition read_file (v : jvalue) : option FileRecord :=
  path ← str_field (bs "path") v; size ← int_field (bs "size") v; Some (mkFileRecord path size).

Definition read_torrent (v : jvalue) : option TorrentRecord :=
  hash ← str_field (bs "info_hash") v; name ← str_field (bs "name") v; size ← int_field (bs "size") v;
  files ← read_slice read_file (field (bs "files") v); count ← int_field (bs "file_count") v;
  created ← str_field (bs "created_at") v; sec ← read_time created; reqs ← int_field (bs "req_count") v;
  Some (mkTorrentRecord hash name size files count (sec * 1000000000) reqs).

Definition read_result (v : jvalue) : option SearchResult :=
  hash ← str_field (bs "info_hash") v; name ← str_field (bs "name") v; size ← int_field (bs "size") v;
  count ← int_field (bs "file_count") v; reqs ← int_field (bs "req_count") v;
  Some (mkSearchResult hash name (default [] (str_field (bs "name_highlight") v)) size count reqs).

(** What a client of the API asks for. *)
Inductive kind := SearchAnswer | StatsAnswer | ListAnswer | OneAnswer.

Definition kind_of (j : json) : kind :=
  match j with
  | JSearch _ _ _ _ _ _ => SearchAnswer
  | JStats _ => StatsAnswer
  | JTorrents _ => ListAnswer
  | JTorrent _ => OneAnswer
  end.

Definition read_stats (v : jvalue) : option Crawler.Stats :=
  l ← mapM (λ f, int_field f v)
    [bs "DHTNodesActive"; bs "DHTQueriesRecv"; bs "DHTQueriesSent"; bs "DHTGetPeers"; bs "DHTAnnounces";
     bs "DHTRoutingSize"; bs "CacheHashesAdded"; bs "CacheHashesFlushed"; bs "CacheCurrent"; bs "DownloadSuccess";
     bs "DownloadFail"; bs "DownloadInProgress"; bs "DownloadQueued"; bs "TotalHashes"; bs "TotalTorrents"; bs "Uptime"];
  match l with
  | [a; b; c; d; e; f; g; h; i; j; k; l; m; n; o; p] => Some (mkStats a b c d e f g h i j k l m n o p)
  | _ => None
  end.

Definition read_answer (k : kind) (v : jvalue) : option json :=
  match k with
  | SearchAnswer =>
      query ← str_field (bs "query") v; results ← read_slice read_result (field (bs "results") v);
      total ← int_field (bs "total") v; page ← int_field (bs "page") v; per ← int_field (bs "per_page") v;
      pages ← int_field (bs "total_pages") v; Some (JSearch query results total page per pages)
  | StatsAnswer => JStats <$> read_stats v
  | ListAnswer => JTorrents <$> read_slice read_torrent (Some v)
  | OneAnswer => JTorrent <$> read_torrent v
  end.

(** Strings are UTF-8, and times whole seconds of a year that has four digits, in a time
    zone of whole minutes. *)
Definition file_ok (f : FileRecord) : Prop := valid (fr_Path f) = true.
Definition torrent_ok (zone : Z → Z) (t : TorrentRecord) : Prop :=
  valid (tr_InfoHash t) = true ∧ valid (tr_Name t) = true ∧ Forall file_ok (tr_Files t) ∧
  (∃ sec, tr_CreatedAt t = sec * 1000000000 ∧ zone sec mod 60 = 0) ∧ is_Some (time_text zone (tr_CreatedAt t)).
Definition result_ok (r : SearchResult) : Prop :=
  valid (sr_InfoHash r) = true ∧ valid (sr_Name r) = true ∧ valid (sr_NameHighlight r) = true.
Definition answer_ok (zone : Z → Z) (j : json) : Prop :=
  match j with
  | JSearch query results _ _ _ _ => valid query = true ∧ Forall result_ok results
  | JStats _ => True
  | JTorrents torrents => Forall (torrent_ok zone) torrents
  | JTorrent torrent => torrent_ok zone torrent
  end.

Definition ascii (b : byte) : Prop := in_range 0 127 b = true.

Lemma clean_ascii s : Forall ascii s → clean s = s.
Proof.
  induction 1 as [|b s Hb _ IH]; [done|]. unfold ascii in Hb. unfold clean in *. cbn [runes]. rewrite Hb.
  cbn [fmap list_fmap concat default]. by rewrite IH.
Qed.

Lemma literal_ascii s : forallb (in_range 0 127) s = true → Forall ascii s.
Proof. rewrite forallb_forall, Forall_forall. intros H b Hb%list_elem_of_In. by apply H. Qed.

Lemma padded_ascii w n : 0 ≤ n → Forall ascii (padded w n).
Proof.
  intros Hn. unfold padded. apply Forall_app_2.
  - apply Forall_replicate. reflexivity.
  - eapply Forall_impl; [by apply fmt_u_spec|]. intros b Hb%Is_true_true%is_digit_spec. apply in_range_spec. lia.
Qed.

Lemma time_text_ascii zone sec s : time_text zone (sec * 1000000000) = Some s → Forall ascii s.
Proof.
  unfold time_text. rewrite Z.div_mul, Z.mod_mul by done. change (fraction 0) with ([] : bytes).
  pose proof (civil_day ((sec + zone sec) / 86400)) as Hc. destruct (civil _) as [[y m] d]. destruct Hc as (_ & Hm & Hd).
  case_match eqn:Hr; [done|]. rewrite !orb_false_iff, !Z.ltb_ge in Hr. intros [= <-].
  set (local := sec + zone sec). set (minutes := Z.quot (zone sec) 60).
  assert (0 ≤ local mod 86400 / 3600 ∧ 0 ≤ local mod 86400 / 60 mod 60 ∧ 0 ≤ local mod 86400 mod 60 ∧
    0 ≤ Z.abs minutes / 60 ∧ 0 ≤ Z.abs minutes mod 60) as (? & ? & ? & ? & ?) by (Z.to_euclidean_division_equations; lia).
  repeat first [by apply literal_ascii | apply padded_ascii; lia | case_match | apply Forall_app_2 | apply Forall_cons_2; [reflexivity|]].
Qed.

(** A value whose strings are UTF-8 is read as it is. *)
Lemma clean_file f : file_ok f → clean_value (file_json f) = file_json f.
Proof. intros H. unfold file_json. cbn [clean_value fmap list_fmap fst snd]. by rewrite (clean_valid (fr_Path f)). Qed.

Lemma clean_list {A : Type} (P : A → Prop) (f : A → jvalue) l :
  (∀ x, P x → clean_value (f x) = f x) → Forall P l → clean_value <$> (f <$> l) = f <$> l.
Proof. intros Hf. induction 1 as [|x l Hx _ IH]; [done|]. cbn [fmap list_fmap] in *. by rewrite Hf, IH. Qed.

Lemma clean_torrent zone t v : torrent_ok zone t → torrent_json zone t = Some v → clean_value v = v.
Proof.
  intros (H1 & H2 & H3 & (sec & Ht & _) & _). unfold torrent_json. rewrite Ht.
  destruct (time_text zone (sec * 1000000000)) as [s|] eqn:Es; [|done]. intros [= <-].
  pose proof (clean_list file_ok file_json (tr_Files t) clean_file H3) as HF.
  destruct (tr_Files t) as [|f fs]; cbn [unless_empty app clean_value fmap list_fmap fst snd] in *; rewrite ?HF;
    by rewrite (clean_valid (tr_InfoHash t)), (clean_valid (tr_Name t)), (clean_ascii s) by (done || by eapply time_text_ascii).
Qed.

Lemma clean_result r : result_ok r → clean_value (result_json r) = result_json r.
Proof.
  intros (H1 & H2 & H3). unfold result_json.
  destruct (sr_NameHighlight r) as [|b s]; cbn [unless_empty app clean_value fmap list_fmap fst snd];
    rewrite (clean_valid (sr_InfoHash r)), (clean_valid (sr_Name r)) by done; [done|]. by rewrite (clean_valid (b :: s)).
Qed.

Lemma clean_slice {A : Type} (P : A → Prop) (f : A → jvalue) l :
  (∀ x, P x → clean_value (f x) = f x) → Forall P l → clean_value (slice (f <$> l)) = slice (f <$> l).
Proof.
  intros Hf Hl. destruct l as [|x l]; [done|]. pose proof (clean_list P f (x :: l) Hf Hl) as H.
  cbn [fmap list_fmap slice clean_value] in *. by rewrite H.
Qed.

(** The records come back. *)
Lemma mapM_back {A : Type} (P : A → Prop) (f : A → jvalue) (g : jvalue → option A) l :
  (∀ x, P x → g (f x) = Some x) → Forall P l → mapM g (f <$> l) = Some l.
Proof. intros Hg. induction 1 as [|x l Hx _ IH]; [done|]. cbn [fmap list_fmap mapM] in *. rewrite Hg by done. cbn. by rewrite IH. Qed.

Lemma read_slice_back {A : Type} (P : A → Prop) (f : A → jvalue) (g : jvalue → option A) l :
  (∀ x, P x → g (f x) = Some x) → Forall P l → read_slice g (Some (slice (f <$> l))) = Some l.
Proof.
  intros Hg Hl. destruct l as [|x l]; [done|]. exact (mapM_back P f g (x :: l) Hg Hl).
Qed.

Lemma read_file_back f : read_file (file_json f) = Some f.
Proof. by destruct f. Qed.

Lemma read_torrent_back zone t v : torrent_ok zone t → torrent_json zone t = Some v → read_torrent v = Some t.
Proof.
  intros (_ & _ & _ & (sec & Ht & Hz) & _). unfold torrent_json. rewrite Ht.
  destruct (time_text zone (sec * 1000000000)) as [s|] eqn:Es; [|done]. intros [= <-].
  pose proof (time_text_read zone sec s Es Hz) as Hr. destruct t as [h n sz fs c cr rq]. cbn [tr_CreatedAt] in Ht. subst cr.
  pose proof (read_slice_back (λ _, True) file_json read_file fs (λ x _, read_file_back x)) as HF.
  transitivity (files ← read_slice read_file (Some (slice (file_json <$> fs)));
    sec ← read_time s; Some (mkTorrentRecord h n sz files c (sec * 1000000000) rq)).
  - by destruct fs.
  - rewrite HF by (by apply Forall_true). cbn [mbind option_bind]. by rewrite Hr.
Qed.

Lemma read_result_back r : read_result (result_json r) = Some r.
Proof. destruct r as [h n [|b s] sz c rq]; reflexivity. Qed.

Lemma torrent_json_Some zone t : torrent_ok zone t → is_Some (torrent_json zone t).
Proof. intros (_ & _ & _ & _ & [s Hs]). unfold torrent_json. rewrite Hs. by eexists. Qed.

Lemma torrents_json_back zone ts :
  Forall (torrent_ok zone) ts →
  ∃ l, mapM (torrent_json zone) ts = Some l ∧ clean_value <$> l = l ∧ mapM read_torrent l = Some ts ∧ (ts = [] ↔ l = []).
Proof.
  induction 1 as [|t ts Ht _ (l & Hl & Hc & Hr & _)]; [by exists []|].
  destruct (torrent_json_Some zone t Ht) as [v Hv]. exists (v :: l). cbn [mapM fmap list_fmap].
  rewrite Hv, Hl. cbn. rewrite Hr, (read_torrent_back zone t v Ht Hv), (clean_torrent zone t v Ht Hv).
  cbn in Hc. rewrite Hc. by split_and!.
Qed.

Lemma value_back zone j :
  answer_ok zone j → ∃ v, json_value zone j = Some v ∧ clean_value v = v ∧ read_answer (kind_of j) v = Some j.
Proof.
  destruct j as [query results total page per pages|stats|torrents|torrent]; intros Hj.
  - destruct Hj as [Hq Hr]. eexists. split; [reflexivity|]. split.
    + cbn [clean_value fmap list_fmap fst snd]. change (clean_value (slice (?f <$> ?l))) with (clean_value (slice (f <$> l))).
      pose proof (clean_slice result_ok result_json results clean_result Hr) as HS. cbn [fmap] in HS.
      by rewrite HS, (clean_valid query).
    + pose proof (read_slice_back (λ _, True) result_json read_result results (λ x _, read_result_back x)) as HF.
      cbn [kind_of read_answer]. transitivity (results ← read_slice read_result (Some (slice (result_json <$> results)));
        Some (JSearch query results total page per pages)); [reflexivity|].
      by rewrite HF by (by apply Forall_true).
  - eexists. split; [reflexivity|]. split; [reflexivity|]. destruct stats. reflexivity.
  - destruct (torrents_json_back zone torrents Hj) as (l & Hl & Hc & Hr & Hn). cbn [json_value]. rewrite Hl.
    eexists. split; [reflexivity|]. destruct l as [|v l].
    + destruct torrents; [done|]. by destruct (proj2 Hn eq_refl).
    + cbn [slice clean_value kind_of read_answer read_slice] in *. rewrite Hc, Hr. done.
  - destruct (torrent_json_Some zone torrent Hj) as [v Hv]. exists v. cbn [json_value kind_of read_answer].
    split; [done|]. split; [by eapply clean_torrent|]. by rewrite (read_torrent_back zone torrent v).
Qed.

(** C29: the answers of the API are read back. The text of an answer is JSON that can stand
    inside HTML: whatever its strings hold, it has no angle bracket and no ampersand, and a
    reader takes it as one value, with U+FFFD for each byte that belongs to no character. If
    the strings are UTF-8, the times seconds of a four-digit year, and the offset of the
    server's time zone a whole number of minutes at each of them, a client that looks the
    fields up by their names has the records the handler answered with: hashes, names, files,
    sizes, counts, page numbers, and the instants. *)
Theorem answers_read_back zone j :
  (∀ v, json_value zone j = Some v →
   Forall html_safe (jsonResponse zone j) ∧ read_json (jsonResponse zone j) = Some (clean_value v)) ∧
  (answer_ok zone j →
   ∃ v, read_json (jsonResponse zone j) = Some v ∧ read_answer (kind_of j) v = Some j).
Proof.
  assert (∀ v, json_value zone j = Some v →
    Forall html_safe (jsonResponse zone j) ∧ read_json (jsonResponse zone j) = Some (clean_value v)) as H.
  { intros v Hv. unfold jsonResponse. rewrite Hv. split.
    - apply Forall_app_2; [apply print_safe|by apply literal_safe].
    - unfold read_json. rewrite read_print; [done| |done]. rewrite length_app. lia. }
  split; [exact H|]. intros Hj. destruct (value_back zone j Hj) as (v & Hv & Hc & Hr).
  exists v. destruct (H v Hv) as [_ ->]. by rewrite Hc.
Qed.

Lemma answers_read_back_witness :
  let t := mkTorrentRecord (bs "ab") (go_text "`<x>\n" ++ [xc3; xa9]) 5 [mkFileRecord (bs "a b") 3] 1 (1700000000 * 1000000000) 2 in
  ∃ v, read_json (jsonResponse (λ _, 7200) (JTorrents [t])) = Some v ∧ read_answer ListAnswer v = Some (JTorrents [t]).
Proof.
  intros t. refine (proj2 (answers_read_back (λ _, 7200) (JTorrents [t])) _).
  repeat constructor; try (vm_compute; reflexivity). by exists 1700000000. vm_compute. by eexists.
Defined.

Example torrent_text :
  jsonResponse (λ _, 7200) (JTorrent (mkTorrentRecord (bs "ab") (bs "a<b>" ++ [xff; xc3; xa9; x0a]) 5 [mkFileRecord (bs "x") 3] 1 1700000000000000000 2)) =
  go_text "{`info_hash`:`ab`,`name`:`a\u003cb\u003e\ufffd" ++ [xc3; xa9] ++
  go_text "\n`,`size`:5,`files`:[{`path`:`x`,`size`:3}],`file_count`:1,`created_at`:`2023-11-15T00:13:20+02:00`,`req_count`:2}" ++ [x0a].
Proof. vm_compute. reflexivity. Qed.
Example time_texts :
  time_text (λ _, 0) <$> [0; 951782400 * 1000000000; -1; 1500000001; 253402300800 * 1000000000] =
  [Some (bs "1970-01-01T00:00:00Z"); Some (bs "2000-02-29T00:00:00Z"); Some (bs "1969-12-31T23:59:59.999999999Z");
   Some (bs "1970-01-01T00:00:01.500000001Z"); None].
Proof. vm_compute. reflexivity. Qed.
