(* ===== verification/Template.v ===== *)
(** * Templates: what [web/server.go] uses of [text/template] and [html/template]

    A template is parsed ([Parse]), the escapers its actions need are found from the HTML
    around them ([escape]), and it is executed over the data of a page ([exec]).  Of the
    template language there are the actions the templates are written in: a field, a
    function of a field, a pipe into a predefined escaper, [if], [range], [else], [end].  Of
    HTML there are text, tags, quoted attribute values, URLs, and the two elements whose
    content is no markup, [title] and [style].  Anything else is refused with an error. *)

From S2P Require Import Prelude GoStd Net Bencode.

(** ** Template text *)

(** What the text of a template is cut into: text, and the words of an action. *)
Inductive token := TText (s : bytes) | TAction (words : list bytes).

Definition emit_text (text : bytes) : list token := if decide (text = []) then [] else [TText text].
Definition emit_word (word : bytes) : list bytes := if decide (word = []) then [] else [word].

Definition blank (b : byte) : bool := bool_decide (b ∈ [x20; x09; x0a; x0d]).

(** Outside of an action, with the text so far; inside, with the words and the word so
    far.  Text and word are in reverse. *)
Fixpoint lex (s : bytes) (at_ : bytes + list bytes * bytes) : option (list token) :=
  match s, at_ with
  | [], inl text => Some (emit_text (reverse text))
  | [], inr _ => None
  | x7b :: (x7b :: s), inl text => app (emit_text (reverse text)) <$> lex s (inr ([], []))
  | x7d :: (x7d :: s), inr (words, word) => cons (TAction (words ++ emit_word (reverse word))) <$> lex s (inl [])
  | b :: s, inl text => lex s (inl (b :: text))
  | b :: s, inr (words, word) =>
      if blank b then lex s (inr (words ++ emit_word (reverse word), [])) else lex s (inr (words, b :: word))
  end.

(** [.A.B], [f .A.B], [.A | html]: the function, the fields, and the escaper in the end. *)
Record pipe := mkPipe { p_fn : option bytes; p_fields : list bytes; p_html : bool }.

Inductive escaper :=
  | HTMLEscaper      (* the predefined [html] *)
  | htmlescaper | rcdataescaper | attrescaper | urlfilter | urlnormalizer | urlescaper.

#[global] Instance pipe_eq_dec : EqDecision pipe.
Proof. solve_decision. Defined.
#[global] Instance escaper_eq_dec : EqDecision escaper.
Proof. solve_decision. Defined.

(** A template: a piece and what follows it.  The escapers of an action are none until
    [escape] has found them. *)
Inductive template :=
  | End
  | Text (s : bytes) (k : template)
  | Action (p : pipe) (escs : list escaper) (k : template)
  | If (p : pipe) (t e : template) (k : template)
  | Range (p : pipe) (body e : template) (k : template).

Inductive template_error := ErrParse | ErrEscape | ErrExec.
Abbreviation result := (outcome template_error).

(** [.A.B.C]. *)
Fixpoint fields_of (s : bytes) (field : bytes) : list bytes :=
  match s with
  | [] => [field]
  | x2e :: s => field :: fields_of s []
  | b :: s => fields_of s (field ++ [b])
  end.

Section parse.
(** The names of the function map. *)
Context (funcs : list bytes).

Definition parse_field (w : bytes) : result (list bytes) :=
  match w with
  | x2e :: w =>
      let fs := fields_of w [] in if decide (Forall (λ f, f ≠ []) fs) then Ok fs else Err ErrParse
  | _ => Err ErrParse
  end.

Definition parse_pipe (words : list bytes) : result pipe :=
  match words with
  | [w] => fs ← parse_field w; Ok (mkPipe None fs false)
  | [f; w] =>
      if decide (f ∈ funcs) then fs ← parse_field w; Ok (mkPipe (Some f) fs false) else Err ErrParse
  | [w; bar; h] =>
      if decide (bar = bs "|" ∧ h = bs "html") then fs ← parse_field w; Ok (mkPipe None fs true)
      else Err ErrParse
  | _ => Err ErrParse
  end.

#[global] Instance token_eq_dec : EqDecision token.
Proof. solve_decision. Defined.

(** The two lists of a branch, up to its [end]. *)
Definition parse_branches (nodes : list token → result (template * list token)) (ts : list token)
  : result (template * template * list token) :=
  '(t, rest) ← nodes ts;
  match rest with
  | tok :: rest =>
      if decide (tok = TAction [bs "end"]) then Ok (t, End, rest)
      else
        '(e, rest) ← nodes rest;
        match rest with
        | tok :: rest => if decide (tok = TAction [bs "end"]) then Ok (t, e, rest) else Err ErrParse
        | [] => Err ErrParse
        end
  | [] => Err ErrParse
  end.

(** A list of nodes, up to an [end] or [else] or the end of the text. *)
Fixpoint parse_nodes (fuel : nat) (ts : list token) : result (template * list token) :=
  match fuel with
  | O => NoFuel
  | S fuel =>
      match ts with
      | [] => Ok (End, [])
      | TText s :: ts => '(k, rest) ← parse_nodes fuel ts; Ok (Text s k, rest)
      | TAction [] :: _ => Err ErrParse
      | TAction (w :: ws) :: ts' =>
          if decide (w :: ws = [bs "end"] ∨ w :: ws = [bs "else"]) then Ok (End, ts)
          else if decide (w = bs "if" ∨ w = bs "range") then
            p ← parse_pipe ws;
            '(t, e, rest) ← parse_branches (parse_nodes fuel) ts';
            '(k, rest) ← parse_nodes fuel rest;
            Ok ((if decide (w = bs "if") then If p t e k else Range p t e k), rest)
          else
            p ← parse_pipe (w :: ws);
            '(k, rest) ← parse_nodes fuel ts';
            Ok (Action p [] k, rest)
      end
  end.

Definition Parse (text : bytes) : result template :=
  match lex text (inl []) with
  | None => Err ErrParse
  | Some ts =>
      '(t, rest) ← parse_nodes (S (length ts)) ts;
      if decide (rest = []) then Ok t else Err ErrParse
  end.
End parse.

(** ** HTML contexts *)

Inductive element := ElementNone | ElementTitle | ElementStyle.
Inductive quote := DoubleQuote | SingleQuote.
(** Plain, a URL, or of a kind in which no action is supported (script, style, srcset). *)
Inductive attr := AttrNone | AttrURL | AttrOther.
Inductive url_part := URLNone | PreQuery | QueryOrFrag.

(** Where in the HTML a byte is; names and partial end tags are kept as far as they were
    read. *)
Inductive context :=
  | InText
  | TagOpen                                  (* [<] *)
  | EndTagOpen                               (* [</] *)
  | Declaration                              (* [<!] *)
  | TagName (is_end : bool) (name : bytes)
  | InTag (e : element)
  | AttrName (e : element) (name : bytes)
  | AfterName (e : element) (a : attr)
  | BeforeValue (e : element) (a : attr)
  | InAttr (e : element) (a : attr) (q : quote) (u : url_part)
  | InTitle (seen : bytes)                   (* what may be the start of [</title] *)
  | InStyle (seen : bytes)
  | Refused.

#[global] Instance element_eq_dec : EqDecision element.
Proof. solve_decision. Defined.
#[global] Instance quote_eq_dec : EqDecision quote.
Proof. solve_decision. Defined.
#[global] Instance attr_eq_dec : EqDecision attr.
Proof. solve_decision. Defined.
#[global] Instance url_part_eq_dec : EqDecision url_part.
Proof. solve_decision. Defined.
#[global] Instance context_eq_dec : EqDecision context.
Proof. solve_decision. Defined.

Definition html_space (b : byte) : bool := bool_decide (b ∈ [x20; x09; x0a; x0c; x0d]).
Definition letter (b : byte) : bool :=
  let c := byte_val b in ((65 <=? c) && (c <=? 90)) || ((97 <=? c) && (c <=? 122)).
Definition lower (b : byte) : byte :=
  let c := byte_val b in if (65 <=? c) && (c <=? 90) then byte_of (c + 32) else b.

Definition starts_with (p s : bytes) : bool := bool_decide (take (length p) s = p).
Fixpoint has_infix (p s : bytes) : bool :=
  starts_with p s || match s with [] => false | _ :: s => has_infix p s end.

Definition element_of (name : bytes) : element + bool :=
  let name := lower <$> name in
  if decide (name = bs "title") then inl ElementTitle
  else if decide (name = bs "style") then inl ElementStyle
  else inr (bool_decide (name ∈ [bs "script"; bs "textarea"])).

(** The attributes whose value is a URL, and the names that suggest one or a script. *)
Definition attr_of (name : bytes) : attr :=
  let name := lower <$> name in
  if decide (name ∈ [bs "action"; bs "archive"; bs "background"; bs "cite"; bs "classid"; bs "codebase";
                     bs "data"; bs "formaction"; bs "href"; bs "icon"; bs "longdesc"; bs "manifest";
                     bs "poster"; bs "profile"; bs "src"; bs "usemap"; bs "xmlns"]) then AttrURL
  else if starts_with (bs "on") name || starts_with (bs "data-") name || bool_decide (name = bs "style") ||
          has_infix (bs "src") name || has_infix (bs "uri") name || has_infix (bs "url") name ||
          bool_decide (x3a ∈ name) then AttrOther
  else AttrNone.

Definition in_tag (e : element) (b : byte) : context :=
  if html_space b then InTag e
  else if decide (b = x3e) then
    match e with ElementNone => InText | ElementTitle => InTitle [] | ElementStyle => InStyle [] end
  else if decide (b ∈ [x3d; x22; x27; x3c]) then Refused
  else AttrName e [b].

(** What the name of a tag is followed by. *)
Definition after_tag_name (is_end : bool) (name : bytes) (b : byte) : context :=
  match element_of name with
  | inl e => in_tag (if is_end then ElementNone else e) b
  | inr unsupported => if unsupported && negb is_end then Refused else in_tag ElementNone b
  end.

Definition after_name (e : element) (a : attr) (b : byte) : context :=
  if html_space b then AfterName e a else if decide (b = x3d) then BeforeValue e a else in_tag e b.

(** In the content of [title] or [style], with [seen] of the end tag before [b]. *)
Definition in_content (name : bytes) (content : bytes → context) (seen : bytes) (b : byte) : context :=
  let end_tag := bs "</" ++ name in
  if decide (seen = end_tag) then
    if html_space b || bool_decide (b ∈ [x2f; x3e]) then in_tag ElementNone b
    else content (if decide (b = x3c) then [b] else [])
  else
    let seen' := seen ++ [lower b] in
    if starts_with seen' end_tag then content seen' else content (if decide (b = x3c) then [b] else []).

Definition next (c : context) (b : byte) : context :=
  match c with
  | InText => if decide (b = x3c) then TagOpen else InText
  | TagOpen =>
      if decide (b = x2f) then EndTagOpen else if decide (b = x21) then Declaration
      else if letter b then TagName false [b] else if decide (b = x3c) then TagOpen else InText
  | EndTagOpen => if letter b then TagName true [b] else if decide (b = x3c) then TagOpen else InText
  | Declaration => if decide (b = x2d) then Refused else if decide (b = x3c) then TagOpen else InText
  | TagName is_end name =>
      if letter b || is_digit b then TagName is_end (name ++ [b])
      else if decide (b ∈ [x3a; x2d]) then Refused
      else after_tag_name is_end name b
  | InTag e => in_tag e b
  | AttrName e name =>
      if html_space b || bool_decide (b ∈ [x3d; x3e]) then after_name e (attr_of name) b
      else if decide (b ∈ [x22; x27; x3c]) then Refused
      else AttrName e (name ++ [b])
  | AfterName e a => after_name e a b
  | BeforeValue e a =>
      if html_space b then BeforeValue e a
      else if decide (b = x22) then InAttr e a DoubleQuote URLNone
      else if decide (b = x27) then InAttr e a SingleQuote URLNone
      else Refused
  | InAttr e a q u =>
      if decide (b = match q with DoubleQuote => x22 | SingleQuote => x27 end) then InTag e
      else InAttr e a q
             match a with
             | AttrURL =>
                 if decide (b ∈ [x23; x3f]) then QueryOrFrag
                 else match u with URLNone => if html_space b then URLNone else PreQuery | _ => u end
             | _ => u
             end
  | InTitle seen => in_content (bs "title") InTitle seen b
  | InStyle seen => in_content (bs "style") InStyle seen b
  | Refused => Refused
  end.

Definition after (c : context) (s : bytes) : context := foldl next c s.

(** ** Escapers *)

Definition html_entity (plus : bool) (b : byte) : bytes :=
  if decide (b = x00) then string_of_rune 65533
  else if decide (b = x22) then bs "&#34;"
  else if decide (b = x26) then bs "&amp;"
  else if decide (b = x27) then bs "&#39;"
  else if plus && bool_decide (b = x2b) then bs "&#43;"
  else if decide (b = x3c) then bs "&lt;"
  else if decide (b = x3e) then bs "&gt;"
  else [b].

(** Letters, digits and [-._~] stay in every URL. *)
Definition url_unreserved (b : byte) : bool :=
  letter b || is_digit b || bool_decide (b ∈ [x2d; x2e; x5f; x7e]).
(** The characters with a meaning in a URL, which stay when it is only normalised. *)
Definition url_reserved (b : byte) : bool := bool_decide (b ∈ bs "!#$&*+,/:;=?@[]").

Definition percent (b : byte) : bytes := [x25; hex_digit (byte_val b / 16); hex_digit (byte_val b mod 16)].

Definition is_hex (b : option byte) : bool :=
  match b with Some b => match from_hex_char b with Some _ => true | None => false end | None => false end.

Fixpoint process_url (norm : bool) (s : bytes) : bytes :=
  match s with
  | [] => []
  | b :: s =>
      (if url_unreserved b || (norm && url_reserved b) ||
          (norm && bool_decide (b = x25) && is_hex (s !! 0%nat) && is_hex (s !! 1%nat))
       then [b] else percent b) ++ process_url norm s
  end.

(** What is before the first colon; [None] without a colon. *)
Fixpoint before_colon (s : bytes) : option bytes :=
  match s with
  | [] => None
  | x3a :: _ => Some []
  | b :: s => cons b <$> before_colon s
  end.

(** [isSafeURL]: a relative URL, or one of three protocols. *)
Definition safe_url (s : bytes) : bool :=
  match before_colon s with
  | Some protocol =>
      bool_decide (x2f ∈ protocol) || bool_decide (lower <$> protocol ∈ [bs "http"; bs "https"; bs "mailto"])
  | None => true
  end.

Definition apply_escaper (e : escaper) (s : bytes) : bytes :=
  match e with
  | HTMLEscaper => concat (html_entity false <$> s)
  | htmlescaper | rcdataescaper | attrescaper => concat (html_entity true <$> s)
  | urlfilter => if safe_url s then s else bs "#ZgotmplZ"
  | urlnormalizer => process_url true s
  | urlescaper => process_url false s
  end.

Definition apply_escapers (es : list escaper) (s : bytes) : bytes := foldl (λ s e, apply_escaper e s) s es.

(** The escapers an action needs in a context. *)
Definition escapers_for (c : context) : option (list escaper) :=
  match c with
  | InText => Some [htmlescaper]
  | InTitle [] => Some [rcdataescaper]
  | InAttr _ AttrNone _ _ => Some [attrescaper]
  | InAttr _ AttrURL _ URLNone => Some [urlfilter; urlnormalizer; attrescaper]
  | InAttr _ AttrURL _ PreQuery => Some [urlnormalizer; attrescaper]
  | InAttr _ AttrURL _ QueryOrFrag => Some [urlescaper; attrescaper]
  | _ => None
  end.

(** A pipe that ends in [html] has its own escaper in place of the equivalent one. *)
Definition with_html (html : bool) (es : list escaper) : list escaper :=
  if html
  then (λ e, match e with htmlescaper | rcdataescaper | attrescaper => HTMLEscaper | _ => e end) <$> es
  else es.

(** The template with its escapers, and the context it ends in.  Branches have to end in
    one context, and the body of a loop where it starts. *)
Fixpoint escape (c : context) (t : template) : result (template * context) :=
  match t with
  | End => Ok (End, c)
  | Text s k =>
      '(k, c') ← escape (after c s) k; Ok (Text s k, c')
  | Action p _ k =>
      match escapers_for c with
      | Some es => '(k, c') ← escape c k; Ok (Action p (with_html (p_html p) es) k, c')
      | None => Err ErrEscape
      end
  | If p t e k =>
      '(t, c1) ← escape c t;
      '(e, c2) ← escape c e;
      if decide (c1 = c2) then '(k, c') ← escape c1 k; Ok (If p t e k, c') else Err ErrEscape
  | Range p t e k =>
      '(t, c1) ← escape c t;
      '(e, c2) ← escape c e;
      if decide (c1 = c ∧ c2 = c) then '(k, c') ← escape c k; Ok (Range p t e k, c') else Err ErrEscape
  end.

(** ** Execution *)

(** The data, with the Go types that matter. *)
Inductive value :=
  | GNil
  | GInt (z : Z) | GInt64 (z : Z) | GUint64 (z : Z) | GDuration (z : Z)
  | GBool (b : bool)
  | GStr (s : bytes)
  | GSlice (l : list value)
  | GStruct (fields : list (bytes * value))
  | GMap (entries : list (bytes * value)).

(** A key a map does not have is no value; a field a struct does not have is an error. *)
Definition get_field (v : value) (f : bytes) : result value :=
  match v with
  | GStruct fs => match dict_lookup f fs with Some v => Ok v | None => Err ErrExec end
  | GMap es => Ok (default GNil (dict_lookup f es))
  | _ => Err ErrExec
  end.

Fixpoint get_fields (v : value) (fs : list bytes) : result value :=
  match fs with
  | [] => Ok v
  | f :: fs => v ← get_field v f; get_fields v fs
  end.

Definition truth (v : value) : bool :=
  match v with
  | GNil => false
  | GInt z | GInt64 z | GUint64 z | GDuration z => negb (z =? 0)
  | GBool b => b
  | GStr s => bool_decide (s ≠ [])
  | GSlice l => bool_decide (l ≠ [])
  | GStruct _ => true
  | GMap es => bool_decide (es ≠ [])
  end.

(** [fmt.Sprint] of what an action prints; composite values and durations are not printed
    by the templates. *)
Definition printed (v : value) : result bytes :=
  match v with
  | GNil => Ok []
  | GInt z | GInt64 z | GUint64 z => Ok (fmt_d z)
  | GBool b => Ok (if b then bs "true" else bs "false")
  | GStr s => Ok s
  | _ => Err ErrExec
  end.

(** What was written, and the error that ended it. *)
Abbreviation written := (bytes * option template_error)%type.

Definition then_write (a : written) (b : written) : written :=
  match a with (s, None) => (s ++ b.1, b.2) | _ => a end.

Section exec.
(** The function map, and how an escaped value is written. *)
Context (call : bytes → value → result value).
Context (show : list escaper → bytes → bytes).

Definition eval_pipe (p : pipe) (dot : value) : result value :=
  v ← get_fields dot (p_fields p);
  match p_fn p with Some f => call f v | None => Ok v end.

Definition write_pipe (p : pipe) (es : list escaper) (dot : value) : written :=
  match (v ← eval_pipe p dot; printed v) with
  | Ok s => (show es s, None)
  | _ => ([], Some ErrExec)
  end.

Fixpoint exec (t : template) (dot : value) : written :=
  match t with
  | End => ([], None)
  | Text s k => then_write (s, None) (exec k dot)
  | Action p es k => then_write (write_pipe p es dot) (exec k dot)
  | If p t e k =>
      match eval_pipe p dot with
      | Ok v => then_write (exec (if truth v then t else e) dot) (exec k dot)
      | _ => ([], Some ErrExec)
      end
  | Range p t e k =>
      match eval_pipe p dot with
      | Ok (GSlice []) | Ok GNil => then_write (exec e dot) (exec k dot)
      | Ok (GSlice l) => then_write (foldr (λ v w, then_write (exec t v) w) ([], None) l) (exec k dot)
      | _ => ([], Some ErrExec)
      end
  end.
End exec.

(** [Execute] of a template that was parsed: it is escaped first. *)
Definition Execute (call : bytes → value → result value) (t : template) (data : value) : written :=
  match escape InText t with
  | Ok (t, InText) => exec call apply_escapers t data
  | _ => ([], Some ErrEscape)
  end.
