(* ===== verification/TemplateSpec.v ===== *)
(** * Templates keep data out of the markup

    The escapers that [escape] finds for an action let no value change the context in which
    it is written: the markup of a page is that of the same page with every value left
    empty.  And a browser that undoes the escapes reads the value. *)

From S2P Require Import Prelude GoStd Net Bencode Template.

(** ** Parsing *)

Lemma fueled_parse_field w : fueled (parse_field w).
Proof. unfold parse_field. destruct w as [|b w]; [done|]. destruct b; try done. by case_decide. Qed.

Lemma fueled_parse_pipe funcs ws : fueled (parse_pipe funcs ws).
Proof.
  destruct ws as [|a [|b [|c [|]]]]; try done; cbn [parse_pipe]; try case_decide; try done;
    apply fueled_bind; try apply fueled_parse_field; done.
Qed.
#[export] Hint Resolve fueled_parse_field fueled_parse_pipe : nofuel.

(** A parser of lists of tokens of length below [n] has fuel, and leaves no more than it
    was given. *)
Definition consumes {A : Type} (n : nat) (p : list token → result (A * list token)) : Prop :=
  ∀ ts, (length ts < n)%nat → fueled (p ts) ∧ ∀ a rest, p ts = Ok (a, rest) → (length rest ≤ length ts)%nat.

Lemma consumes_bind {A B : Type} n (p : list token → result (A * list token)) ts (f : A * list token → result (B * list token)) m :
  consumes n p → (length ts < n)%nat → (length ts ≤ m)%nat →
  (∀ a rest, (length rest ≤ length ts)%nat →
     fueled (f (a, rest)) ∧ ∀ b rest', f (a, rest) = Ok (b, rest') → (length rest' ≤ m)%nat) →
  fueled (p ts ≫= f) ∧ ∀ b rest', p ts ≫= f = Ok (b, rest') → (length rest' ≤ m)%nat.
Proof.
  intros Hp Hn Hm Hf. destruct (Hp ts Hn) as [H1 H2]. destruct (p ts) as [[a rest]| | |]; try done.
  apply Hf. by eapply H2.
Qed.

Lemma parse_branches_consumes n nodes : consumes n nodes → consumes n (parse_branches nodes).
Proof.
  intros H ts Hn. apply (consumes_bind n); [done..|]. intros t [|tok rest] Hr; [done|]. cbn [length] in Hr.
  case_decide; [split; [done|]; intros [? ?] ? [= _ _ <-]; lia|].
  apply (consumes_bind n); [done|lia|lia|]. intros e [|tok' rest'] Hr'; [done|]. cbn [length] in Hr'.
  case_decide; [|done]. split; [done|]. intros [? ?] ? [= _ _ <-]. lia.
Qed.

Lemma parse_nodes_consumes funcs fuel : consumes fuel (parse_nodes funcs fuel).
Proof.
  induction fuel as [|fuel IH]; intros ts Hf; [lia|].
  destruct ts as [|[s|[|w ws]] ts']; cbn [parse_nodes length] in *; [|apply (consumes_bind fuel); [done|lia..|]|done|].
  - split; [done|]. by intros ? ? [= _ <-].
  - intros k rest Hr. split; [done|]. intros ? ? [= _ <-]. lia.
  - case_decide; [|case_decide].
    + split; [done|]. by intros ? ? [= _ <-].
    + pose proof (fueled_parse_pipe funcs ws) as Hp. destruct (parse_pipe funcs ws) as [p| | |]; try done.
      apply (consumes_bind fuel); [by apply parse_branches_consumes|lia..|]. intros [t e] rest Hr.
      apply (consumes_bind fuel); [done|lia..|]. intros k rest' Hr'. split; [done|]. intros ? ? [= _ <-]. lia.
    + pose proof (fueled_parse_pipe funcs (w :: ws)) as Hp. destruct (parse_pipe funcs (w :: ws)) as [p| | |]; try done.
      apply (consumes_bind fuel); [done|lia..|]. intros k rest Hr. split; [done|]. intros ? ? [= _ <-]. lia.
Qed.

Lemma Parse_fueled funcs text : fueled (Parse funcs text).
Proof.
  unfold Parse. destruct (lex text (inl [])) as [ts|]; [|done].
  apply fueled_bind; [apply parse_nodes_consumes; lia|]. intros [t rest] _. by case_decide.
Qed.

(** ** Contexts up to the part of a URL *)

(** The part of a URL is used to find escapers, not to read the HTML. *)
Definition forget (c : context) : context :=
  match c with InAttr e a q _ => InAttr e a q URLNone | _ => c end.
Definition same (c d : context) : Prop := forget c = forget d.

#[export] Instance same_equivalence : Equivalence same.
Proof. split; unfold same; [done|by intros ? ? ->|by intros ? ? ? -> ->]. Qed.

#[export] Instance next_same : Proper (same ==> (=) ==> same) next.
Proof.
  intros c d Hcd b ? <-. unfold same in *.
  destruct c, d; cbn [forget] in Hcd; try discriminate Hcd; inversion Hcd; subst; cbn [next]; try done.
  by case_decide.
Qed.

#[export] Instance after_same : Proper (same ==> (=) ==> same) after.
Proof.
  intros c d Hcd s ? <-. revert c d Hcd. induction s as [|b s IH]; intros c d Hcd; [done|].
  apply IH. by rewrite Hcd.
Qed.

#[local] Arguments after : simpl never.

Lemma after_app c s s' : after c (s ++ s') = after (after c s) s'.
Proof. apply foldl_app. Qed.

(** ** Markup *)

(** Where values are written: text and the values of attributes. *)
Definition is_content (c : context) : bool :=
  match c with InText | InTitle [] | InAttr _ _ _ _ => true | _ => false end.

(** The bytes that are not content. *)
Fixpoint markup (c : context) (s : bytes) : bytes :=
  match s with
  | [] => []
  | b :: s => (if is_content c && is_content (next c b) then [] else [b]) ++ markup (next c b) s
  end.

#[export] Instance is_content_same : Proper (same ==> (=)) is_content.
Proof. intros c d Hcd. unfold same in Hcd. by destruct c, d; cbn in Hcd; simplify_eq. Qed.

#[export] Instance markup_same : Proper (same ==> (=) ==> (=)) markup.
Proof.
  intros c d Hcd s ? <-. revert c d Hcd. induction s as [|b s IH]; intros c d Hcd; [done|]. cbn [markup].
  rewrite (IH (next c b) (next d b)) by (by rewrite Hcd).
  assert (is_content c = is_content d) as -> by (by rewrite Hcd).
  by assert (is_content (next c b) = is_content (next d b)) as -> by (by rewrite Hcd).
Qed.

Lemma markup_app c s s' : markup c (s ++ s') = markup c s ++ markup (after c s) s'.
Proof. revert c. induction s as [|b s IH]; intros c; [done|]. cbn [app markup]. by rewrite IH, app_assoc. Qed.

(** ** What the escapers write *)

(** None of the bytes that end a context in which values are written. *)
Definition inert (b : byte) : Prop := b ≠ x22 ∧ b ≠ x27 ∧ b ≠ x3c.

Lemma html_entity_inert plus b : Forall inert (html_entity plus b).
Proof.
  assert (∀ b, Forall inert (html_entity true b) ∧ Forall inert (html_entity false b)) as H.
  { clear. intros b. unfold inert. destruct b; split; apply (bool_decide_unpack _); vm_compute; exact I. }
  destruct plus; apply H.
Qed.

Lemma html_inert plus s : Forall inert (concat (html_entity plus <$> s)).
Proof. induction s as [|b s IH]; [constructor|]. cbn. apply Forall_app. split; [apply html_entity_inert|exact IH]. Qed.

Lemma escapers_inert c es html s :
  escapers_for c = Some es → Forall inert (apply_escapers (with_html html es) s).
Proof.
  destruct c as [| | | | | | | | |e [] q []|[|]| |]; cbn [escapers_for]; intros [= <-]; destruct html;
    apply html_inert.
Qed.

Lemma lower_3c b : lower b = x3c → b = x3c.
Proof. destruct b; vm_compute; congruence. Qed.

(** Bytes that are inert do not leave a context of content. *)
Lemma next_inert c es b :
  escapers_for c = Some es → inert b → same (next c b) c ∧ is_content (next c b) = true ∧ is_content c = true.
Proof.
  intros Hc (H1 & H2 & H3). destruct c as [| | | | | | | | |e a q u|[|]| |]; try discriminate Hc; cbn [next].
  - by rewrite decide_False.
  - rewrite decide_False by (by destruct q). done.
  - unfold in_content. rewrite decide_False by done.
    assert (starts_with ([] ++ [lower b]) (bs "</" ++ bs "title") = false) as ->.
    { unfold starts_with. apply bool_decide_eq_false_2. cbn. intros [= E]. apply H3. by apply lower_3c. }
    by rewrite decide_False.
Qed.

Lemma after_inert c es s :
  escapers_for c = Some es → Forall inert s → ∀ d, same d c → same (after d s) c ∧ markup d s = [].
Proof.
  intros Hc Hs. induction Hs as [|b s Hb _ IH]; intros d Hd; [done|].
  destruct (next_inert c es b Hc Hb) as (H1 & H2 & H3).
  assert (same (next d b) c) as Hn by (by rewrite Hd, H1).
  destruct (IH _ Hn) as [IH1 IH2]. split; [exact IH1|]. cbn [markup]. rewrite IH2.
  rewrite <- Hd in H2, H3. by rewrite H2, H3.
Qed.

(** ** Executions *)

(** Two outputs with the same markup, from a context like [c]; when they are complete,
    both end in one like [c']. *)
Definition agree (c c' : context) (a b : written) : Prop :=
  a.2 = b.2 ∧
  ∀ d e, same d c → same e c →
    markup d a.1 = markup e b.1 ∧ (a.2 = None → same (after d a.1) c' ∧ same (after e b.1) c').

Lemma agree_then c c1 c2 a a' b b' :
  agree c c1 a b → agree c1 c2 a' b' → agree c c2 (then_write a a') (then_write b b').
Proof.
  destruct a as [s oa], b as [t ob], a' as [s' oa'], b' as [t' ob']. intros [E1 H1] [E2 H2]. cbn in *. subst ob ob'.
  destruct oa as [err|].
  - split; [done|]. intros d e Hd He. destruct (H1 d e Hd He) as [Hm _]. split; [exact Hm|done].
  - split; [done|]. intros d e Hd He. cbn. destruct (H1 d e Hd He) as [Hm Ha].
    destruct (Ha eq_refl) as [Ha1 Ha2]. destruct (H2 _ _ Ha1 Ha2) as [Hm' Ha'].
    rewrite !markup_app, !after_app. split; [by rewrite Hm, Hm'|exact Ha'].
Qed.

Lemma agree_nothing c o : agree c c ([], o) ([], o).
Proof. split; [done|]. intros d e Hd He. by split. Qed.

Lemma agree_error c c' err : agree c c' ([], Some err) ([], Some err).
Proof. split; [done|]. intros d e _ _. by split. Qed.

Lemma agree_text c s : agree c (after c s) (s, None) (s, None).
Proof. split; [done|]. intros d e Hd He. cbn. by rewrite Hd, He. Qed.

Lemma agree_inert c es s : escapers_for c = Some es → Forall inert s → agree c c (s, None) ([], None).
Proof.
  intros Hc Hs. split; [done|]. intros d e Hd He. cbn.
  destruct (after_inert c es s Hc Hs d Hd) as [H1 H2]. by rewrite H2.
Qed.

(** Writing nothing in the place of every value. *)
Definition blanked (_ : list escaper) (_ : bytes) : bytes := [].

Section markup.
Context (call : bytes → value → result value).
Abbreviation shown := (exec call apply_escapers).
Abbreviation empty := (exec call blanked).

Lemma agree_pipe c es html p dot :
  escapers_for c = Some es →
  agree c c (write_pipe call apply_escapers p (with_html html es) dot) (write_pipe call blanked p (with_html html es) dot).
Proof.
  intros Hc. unfold write_pipe. destruct (v ← eval_pipe call p dot; printed v) as [s| | |];
    [|apply agree_error..].
  apply (agree_inert c es); [done|]. by apply (escapers_inert c).
Qed.

Lemma exec_markup t c t' c' dot : escape c t = Ok (t', c') → agree c c' (shown t' dot) (empty t' dot).
Proof.
  revert c t' c' dot.
  induction t as [|s k IHk|p es k IHk|p t IHt e IHe k IHk|p t IHt e IHe k IHk]; intros c t' c' dot H; cbn [escape] in H.
  - injection H as <- <-. apply agree_nothing.
  - apply bind_Ok_inv in H as ([k' c1] & Hk & [= <- <-]). cbn [exec].
    eapply agree_then; [apply agree_text|by apply IHk].
  - destruct (escapers_for c) as [es'|] eqn:Hc; [|done]. apply bind_Ok_inv in H as ([k' c1] & Hk & [= <- <-]).
    cbn [exec]. eapply agree_then; [by apply agree_pipe|by apply IHk].
  - apply bind_Ok_inv in H as ([t1 c1] & Ht & H). apply bind_Ok_inv in H as ([e1 c2] & He & H).
    case_decide; [subst c2|done]. apply bind_Ok_inv in H as ([k' c3] & Hk & [= <- <-]). cbn [exec].
    destruct (eval_pipe call p dot) as [v| | |]; [|apply agree_error..].
    eapply agree_then; [|by apply IHk]. destruct (truth v); [by apply IHt|by apply IHe].
  - apply bind_Ok_inv in H as ([t1 c1] & Ht & H). apply bind_Ok_inv in H as ([e1 c2] & He & H).
    case_decide as Hc; [destruct Hc as [-> ->]|done]. apply bind_Ok_inv in H as ([k' c3] & Hk & [= <- <-]).
    cbn [exec].
    assert (∀ l, agree c c (foldr (λ v w, then_write (shown t1 v) w) ([], None) l)
      (foldr (λ v w, then_write (empty t1 v) w) ([], None) l)) as Hl.
    { induction l as [|v l IHl]; [apply agree_nothing|]. eapply agree_then; [by apply IHt|exact IHl]. }
    destruct (eval_pipe call p dot) as [[| | | | | | |[|v l]| |]| | |]; try apply agree_error;
      (eapply agree_then; [|by apply IHk]); [by apply IHe..|apply Hl].
Qed.
End markup.

(** ** Types

    The data a template is written for.  A template that checks against the type of its
    data is executed to the end. *)

Inductive ty :=
  | TInt | TInt64 | TUint64 | TDuration | TBool | TStr
  | TSlice (t : ty)
  | TStruct (fields : list (bytes * ty))
  | TMap (entries : list (bytes * ty))
  | TOpt (t : ty).                          (* or no value *)

Fixpoint has_type (t : ty) (v : value) : Prop :=
  match t with
  | TInt => ∃ z, v = GInt z
  | TInt64 => ∃ z, v = GInt64 z ∧ is_int64 z
  | TUint64 => ∃ z, v = GUint64 z
  | TDuration => ∃ z, v = GDuration z
  | TBool => ∃ b, v = GBool b
  | TStr => ∃ s, v = GStr s
  | TSlice t => ∃ l, v = GSlice l ∧ Forall (has_type t) l
  | TStruct fs =>
      ∃ es, v = GStruct es ∧
        (fix all fs := match fs with
           | [] => True
           | (f, t) :: fs => (∃ v, dict_lookup f es = Some v ∧ has_type t v) ∧ all fs
           end) fs
  | TMap fs =>
      ∃ es, v = GMap es ∧
        (fix all fs := match fs with
           | [] => True
           | (f, t) :: fs => has_type t (default GNil (dict_lookup f es)) ∧ all fs
           end) fs
  | TOpt t => v = GNil ∨ has_type t v
  end.

Definition field_ty (t : ty) (f : bytes) : option ty :=
  match t with TStruct fs | TMap fs => dict_lookup f fs | _ => None end.

Fixpoint fields_ty (t : ty) (fs : list bytes) : option ty :=
  match fs with
  | [] => Some t
  | f :: fs => t' ← field_ty t f; fields_ty t' fs
  end.

Fixpoint printable (t : ty) : bool :=
  match t with
  | TInt | TInt64 | TUint64 | TBool | TStr => true
  | TOpt t => printable t
  | _ => false
  end.

Lemma field_sound t v f t' :
  has_type t v → field_ty t f = Some t' → ∃ v', get_field v f = Ok v' ∧ has_type t' v'.
Proof.
  destruct t as [| | | | | | |fs|fs|]; try done; intros (es & -> & H); cbn [field_ty get_field].
  - induction fs as [|[g u] fs IH]; [done|]. destruct H as [(v & Hv & Hu) H]. cbn [dict_lookup].
    case_decide; [intros [= <-]; subst; rewrite Hv; eauto|by apply IH].
  - induction fs as [|[g u] fs IH]; [done|]. destruct H as [Hu H]. cbn [dict_lookup].
    case_decide; [intros [= <-]; subst; eauto|by apply IH].
Qed.

Lemma fields_sound fs t v t' :
  has_type t v → fields_ty t fs = Some t' → ∃ v', get_fields v fs = Ok v' ∧ has_type t' v'.
Proof.
  revert t v. induction fs as [|f fs IH]; intros t v Hv; cbn [fields_ty get_fields].
  - intros [= <-]. eauto.
  - intros (u & Hu & H)%bind_Some. destruct (field_sound t v f u Hv Hu) as (w & -> & Hw). by apply (IH u).
Qed.

Lemma printable_sound t v : has_type t v → printable t = true → ∃ s, printed v = Ok s.
Proof.
  revert v. induction t as [| | | | | | | | |t IH]; intros v Hv; try done; intros Hp.
  all: try (destruct Hv as [? ->]; cbn; eauto; fail).
  - destruct Hv as (z & -> & _). cbn. eauto.
  - destruct Hv as [-> |Hv]; [cbn; eauto|by apply IH].
Qed.

Section types.
Context (call : bytes → value → result value) (show : list escaper → bytes → bytes).
(** The types of the functions. *)
Context (sig : bytes → ty → option ty).
Context (sig_sound : ∀ f t v t', has_type t v → sig f t = Some t' → ∃ v', call f v = Ok v' ∧ has_type t' v').

Definition pipe_ty (p : pipe) (t : ty) : option ty :=
  t' ← fields_ty t (p_fields p);
  match p_fn p with Some f => sig f t' | None => Some t' end.

Fixpoint check (t : template) (dot : ty) : bool :=
  match t with
  | End => true
  | Text _ k => check k dot
  | Action p _ k => match pipe_ty p dot with Some u => printable u && check k dot | None => false end
  | If p t e k =>
      match pipe_ty p dot with Some _ => check t dot && check e dot && check k dot | None => false end
  | Range p t e k =>
      match pipe_ty p dot with
      | Some (TSlice u) | Some (TOpt (TSlice u)) => check t u && check e dot && check k dot
      | _ => false
      end
  end.

Lemma pipe_sound p t v u : has_type t v → pipe_ty p t = Some u → ∃ v', eval_pipe call p v = Ok v' ∧ has_type u v'.
Proof.
  intros Hv (t' & Ht' & H)%bind_Some. unfold eval_pipe.
  destruct (fields_sound _ _ _ _ Hv Ht') as (v' & -> & Hv'). cbn [mbind outcome_bind].
  destruct (p_fn p) as [f|]; [by eapply sig_sound|]. injection H as <-. eauto.
Qed.

Lemma then_write_done a b : a.2 = None → b.2 = None → (then_write a b).2 = None.
Proof. destruct a as [s []]; [done|]. by intros _. Qed.

Lemma exec_loop_done t l :
  Forall (λ v, (exec call show t v).2 = None) l →
  (foldr (λ v w, then_write (exec call show t v) w) ([], None) l).2 = None.
Proof. induction 1 as [|v l Hv _ IH]; [done|]. by apply then_write_done. Qed.

Lemma check_sound t dot v : check t dot = true → has_type dot v → (exec call show t v).2 = None.
Proof.
  revert dot v. induction t as [|s k IHk|p es k IHk|p t IHt e IHe k IHk|p t IHt e IHe k IHk];
    intros dot v H Hv; cbn [check exec] in *.
  - done.
  - by apply then_write_done, (IHk dot).
  - destruct (pipe_ty p dot) as [u|] eqn:Hp; [|done]. apply andb_true_iff in H as [H1 H2].
    apply then_write_done; [|by apply (IHk dot)]. unfold write_pipe.
    destruct (pipe_sound _ _ _ _ Hv Hp) as (v' & -> & Hv'). cbn [mbind outcome_bind].
    by destruct (printable_sound _ _ Hv' H1) as [s ->].
  - destruct (pipe_ty p dot) as [u|] eqn:Hp; [|done]. rewrite !andb_true_iff in H. destruct H as [[H1 H2] H3].
    destruct (pipe_sound _ _ _ _ Hv Hp) as (v' & -> & Hv').
    apply then_write_done; [|by apply (IHk dot)]. destruct (truth v'); [by apply (IHt dot)|by apply (IHe dot)].
  - destruct (pipe_ty p dot) as [u|] eqn:Hp; [|done]. destruct (pipe_sound _ _ _ _ Hv Hp) as (v' & -> & Hv').
    assert (∃ w, check t w && check e dot && check k dot = true ∧ (v' = GNil ∨ has_type (TSlice w) v')) as (w & Hc & Hw).
    { destruct u as [| | | | | |w| | |[| | | | | |w| | |]]; try done; exists w; (split; [done|]); [by right|exact Hv']. }
    rewrite !andb_true_iff in Hc. destruct Hc as [[H1 H2] H3].
    destruct Hw as [-> |(l & -> & Hl)].
    + apply then_write_done; [by apply (IHe dot)|by apply (IHk dot)].
    + assert ((foldr (λ v w, then_write (exec call show t v) w) ([], None) l).2 = None) as Hd.
      { apply exec_loop_done. eapply Forall_impl; [exact Hl|]. intros x Hx. by apply (IHt w). }
      destruct l; (apply then_write_done; [|by apply (IHk dot)]); [by apply (IHe dot)|exact Hd].
Qed.
End types.

(** ** Reading a page *)

(** How a browser reads the character references the escapers write. *)
Definition references : list (bytes * byte) :=
  [(bs "&#34;", x22); (bs "&amp;", x26); (bs "&#39;", x27); (bs "&#43;", x2b); (bs "&lt;", x3c); (bs "&gt;", x3e)].

Definition reference_at (s : bytes) : option (nat * byte) :=
  (λ r, (length r.1, r.2)) <$> head (filter (λ r, starts_with r.1 s = true) references).

(** [skip]: bytes left of the reference being passed over. *)
Fixpoint read_from (s : bytes) (skip : nat) : bytes :=
  match s with
  | [] => []
  | b :: r =>
      match skip with
      | S k => read_from r k
      | O =>
          match reference_at s with
          | Some (n, c) => c :: read_from r (n - 1)
          | None => b :: read_from r 0
          end
      end
  end.
Definition read_html (s : bytes) : bytes := read_from s 0.

Lemma read_entity plus b r : b ≠ x00 → read_html (html_entity plus b ++ r) = b :: read_html r.
Proof.
  intros Hb. destruct b; try done; by destruct plus.
Qed.

Lemma read_escaped plus s : x00 ∉ s → read_html (concat (html_entity plus <$> s)) = s.
Proof.
  induction s as [|b s IH]; intros Hs; [done|]. cbn [fmap list_fmap concat].
  rewrite read_entity by set_solver. f_equal. apply IH. set_solver.
Qed.

(** ** Parts of an execution *)

(** What follows the first [n] pieces. *)
Fixpoint skip_pieces (n : nat) (t : template) : template :=
  match n with
  | O => t
  | S n =>
      match t with
      | End => End
      | Text _ k | Action _ _ k | If _ _ _ k | Range _ _ _ k => skip_pieces n k
      end
  end.

Lemma then_write_inv a b out : then_write a b = (out, None) → ∃ x y, a = (x, None) ∧ b = (y, None) ∧ out = x ++ y.
Proof. destruct a as [x [err|]], b as [y o]; cbn; intros H; [done|]. injection H as <- ->. eauto. Qed.

(** The output of a later part is the end of the whole. *)
Lemma exec_skip call show n t dot out :
  exec call show t dot = (out, None) →
  ∃ pre post, out = pre ++ post ∧ exec call show (skip_pieces n t) dot = (post, None).
Proof.
  revert t out. induction n as [|n IH]; intros t out H; [by exists [], out|].
  assert (∀ a k, then_write a (exec call show k dot) = (out, None) →
    ∃ pre post, out = pre ++ post ∧ exec call show (skip_pieces n k) dot = (post, None)) as Hk.
  { intros a k (x & y & -> & Hy & ->)%then_write_inv. destruct (IH k y Hy) as (pre & post & -> & Hp).
    exists (x ++ pre), post. by rewrite app_assoc. }
  destruct t as [|s k|p es k|p t e k|p t e k]; cbn [exec skip_pieces] in *; [by exists [], out|by apply Hk in H..| |].
  - destruct (eval_pipe call p dot) as [v| | |]; [|done..]. by apply Hk in H.
  - destruct (eval_pipe call p dot) as [[| | | | | | |[]| |]| | |]; try done; by apply Hk in H.
Qed.

(** An action between two texts. *)
Lemma exec_action call show s1 p es s2 k dot out :
  exec call show (Text s1 (Action p es (Text s2 k))) dot = (out, None) →
  ∃ v s rest, eval_pipe call p dot = Ok v ∧ printed v = Ok s ∧ out = s1 ++ show es s ++ s2 ++ rest.
Proof.
  cbn [exec]. intros (x & y & [= <-] & H & ->)%then_write_inv.
  apply then_write_inv in H as (x & z & H1 & H2 & ->). apply then_write_inv in H2 as (x' & rest & [= <-] & _ & ->).
  unfold write_pipe in H1. destruct (eval_pipe call p dot) as [v| | |]; try done. cbn [mbind outcome_bind] in H1.
  destruct (printed v) as [s| | |] eqn:Hs; try done. injection H1 as <-. exists v, s, rest. by split_and!.
Qed.
