(* ===== verification/Pages.v ===== *)
(** * The pages: the templates of [internal/web/server.go] and their rendering

    The texts are those of the source, with a backquote for each double quote, which a Go
    string between backquotes cannot hold.  [renderTemplate] executes them over the data the
    handlers make. *)

From S2P Require Import Prelude GoStd Net Bencode Conc Storage Cache Queue Worker Crawler Web Template.

(** ** Texts *)

Definition styles_page : bytes := go_text
"
:root {
  --color-bg: #1a1a2e;
  --color-surface: #252547;
  --color-surface-hover: #303060;
  --color-primary: #00d4ff;
  --color-primary-hover: #00b8e6;
  --color-text: #eeeeee;
  --color-text-muted: #888888;
  --color-text-dim: #666666;
  --color-highlight: rgba(0, 212, 255, 0.2);
  --spacing-xs: 0.5rem;
  --spacing-sm: 1rem;
  --spacing-md: 1.5rem;
  --spacing-lg: 2rem;
  --spacing-xl: 2.5rem;
  --radius-sm: 0.5rem;
  --radius-md: 0.75rem;
  --radius-full: 1.25rem;
  --font-mono: 'SF Mono', 'Fira Code', 'Consolas', monospace;
  --transition: 0.2s ease-out;
  --shadow: 0 4px 12px rgba(0, 0, 0, 0.3);
}
*, *::before, *::after { box-sizing: border-box; margin: 0; padding: 0; }
body {
  font-family: -apple-system, BlinkMacSystemFont, 'Segoe UI', Roboto, sans-serif;
  background: var(--color-bg);
  color: var(--color-text);
  min-height: 100vh;
  line-height: 1.6;
  font-size: 1rem;
}
main { padding: var(--spacing-sm); max-width: 56rem; margin: 0 auto; }
header { text-align: center; padding: var(--spacing-lg) 0; }
h1 { font-size: 2rem; margin-bottom: var(--spacing-xs); color: var(--color-primary); }
h1 a { color: var(--color-primary); text-decoration: none; transition: opacity var(--transition); }
h1 a:hover { opacity: 0.8; }
nav { display: flex; gap: var(--spacing-sm); justify-content: center; margin-bottom: var(--spacing-sm); flex-wrap: wrap; }
nav a {
  color: var(--color-primary);
  text-decoration: none;
  padding: var(--spacing-sm) var(--spacing-md);
  background: var(--color-surface);
  border-radius: var(--radius-sm);
  min-height: 2.75rem;
  display: inline-flex;
  align-items: center;
  transition: background var(--transition), transform var(--transition), color var(--transition);
}
nav a:hover { background: var(--color-surface-hover); transform: translateY(-1px); }
nav a:focus { outline: 2px solid var(--color-primary); outline-offset: 2px; }
nav a:active { transform: translateY(0); background: var(--color-primary); color: var(--color-bg); }
".

Definition styles_search : bytes := go_text
".stats { display: flex; gap: var(--spacing-sm); justify-content: center; flex-wrap: wrap; margin-bottom: var(--spacing-md); font-size: 0.875rem; color: var(--color-text-muted); }
.stat { background: var(--color-surface); padding: var(--spacing-xs) var(--spacing-sm); border-radius: var(--radius-full); }
.search-form { display: flex; flex-direction: column; gap: var(--spacing-sm); margin-bottom: var(--spacing-lg); }
.search-form label { font-size: 0.875rem; color: var(--color-text-muted); }
.search-form input {
  width: 100%;
  padding: var(--spacing-md);
  font-size: 1.125rem;
  border: 2px solid transparent;
  border-radius: var(--radius-md);
  background: var(--color-surface);
  color: var(--color-text);
  transition: border-color var(--transition), box-shadow var(--transition);
}
.search-form input:focus {
  outline: none;
  border-color: var(--color-primary);
  box-shadow: 0 0 0 3px var(--color-highlight);
}
.search-form button {
  padding: var(--spacing-md) var(--spacing-lg);
  font-size: 1.125rem;
  border: none;
  border-radius: var(--radius-md);
  background: var(--color-primary);
  color: var(--color-bg);
  cursor: pointer;
  font-weight: 600;
  min-height: 3rem;
  transition: background var(--transition), transform var(--transition), box-shadow var(--transition);
}
.search-form button:hover { background: var(--color-primary-hover); transform: translateY(-2px); box-shadow: var(--shadow); }
.search-form button:focus { outline: 2px solid var(--color-text); outline-offset: 2px; }
.search-form button:active { transform: translateY(0); }
".

Definition styles_results : bytes := go_text
".results-info { color: var(--color-text-muted); margin-bottom: var(--spacing-sm); font-size: 0.875rem; }
article {
  background: var(--color-surface);
  padding: var(--spacing-sm);
  border-radius: var(--radius-md);
  margin-bottom: var(--spacing-sm);
  transition: transform var(--transition), box-shadow var(--transition);
}
article:hover { transform: translateY(-2px); box-shadow: var(--shadow); }
.torrent-name { font-size: 1.125rem; color: var(--color-primary); margin-bottom: var(--spacing-xs); word-break: break-word; }
.torrent-name a { color: var(--color-primary); text-decoration: none; transition: opacity var(--transition); }
.torrent-name a:hover { opacity: 0.8; text-decoration: underline; }
.torrent-name a:focus { outline: 2px solid var(--color-primary); outline-offset: 2px; }
mark { background: var(--color-highlight); color: var(--color-primary); padding: 0 0.125rem; border-radius: 2px; }
.torrent-meta { display: flex; flex-wrap: wrap; gap: var(--spacing-sm); color: var(--color-text-muted); font-size: 0.875rem; }
.torrent-hash { font-family: var(--font-mono); font-size: 0.75rem; color: var(--color-text-dim); margin-top: var(--spacing-xs); word-break: break-all; }
.torrent-hash a { color: var(--color-primary); text-decoration: none; transition: opacity var(--transition); }
.torrent-hash a:hover { opacity: 0.8; }
.pagination { display: flex; justify-content: center; gap: var(--spacing-xs); margin-top: var(--spacing-md); flex-wrap: wrap; }
.pagination a {
  padding: var(--spacing-sm) var(--spacing-md);
  background: var(--color-surface);
  color: var(--color-primary);
  text-decoration: none;
  border-radius: var(--radius-sm);
  min-height: 2.75rem;
  display: inline-flex;
  align-items: center;
  transition: background var(--transition), transform var(--transition), color var(--transition);
}
.pagination a:hover { background: var(--color-surface-hover); transform: translateY(-1px); }
.pagination a:focus { outline: 2px solid var(--color-primary); outline-offset: 2px; }
.pagination a:active { transform: translateY(0); background: var(--color-primary); color: var(--color-bg); }
.detail-card { background: var(--color-surface); padding: var(--spacing-md); border-radius: var(--radius-md); margin-bottom: var(--spacing-md); }
".

Definition styles_detail : bytes := go_text
".detail-title { font-size: 1.375rem; color: var(--color-primary); margin-bottom: var(--spacing-sm); word-break: break-word; line-height: 1.4; }
.detail-grid { display: grid; grid-template-columns: 1fr; gap: var(--spacing-sm); margin-bottom: var(--spacing-md); }
.detail-item { background: var(--color-bg); padding: var(--spacing-sm); border-radius: var(--radius-sm); }
.detail-label { color: var(--color-text-muted); font-size: 0.75rem; margin-bottom: 0.25rem; text-transform: uppercase; letter-spacing: 0.05em; }
.detail-value { color: var(--color-text); font-size: 1rem; }
.detail-value--mono { font-family: var(--font-mono); font-size: 0.75rem; word-break: break-all; }
.magnet-section { margin: var(--spacing-md) 0; }
.magnet-section label { display: block; color: var(--color-text-muted); font-size: 0.75rem; margin-bottom: var(--spacing-xs); text-transform: uppercase; letter-spacing: 0.05em; }
.magnet-box { background: var(--color-bg); padding: var(--spacing-sm); border-radius: var(--radius-sm); word-break: break-all; font-family: var(--font-mono); font-size: 0.75rem; color: var(--color-text-muted); line-height: 1.5; }
.btn {
  display: inline-block;
  padding: var(--spacing-sm) var(--spacing-md);
  background: var(--color-primary);
  color: var(--color-bg);
  text-decoration: none;
  border-radius: var(--radius-md);
  font-weight: 600;
  margin-top: var(--spacing-sm);
  min-height: 2.75rem;
  cursor: pointer;
  transition: background var(--transition), transform var(--transition), box-shadow var(--transition);
}
.btn:hover { background: var(--color-primary-hover); transform: translateY(-2px); box-shadow: var(--shadow); }
.btn:focus { outline: 2px solid var(--color-text); outline-offset: 2px; }
.btn:active { transform: translateY(0); }
.file-section { margin-top: var(--spacing-md); }
.file-section h2 { color: var(--color-primary); font-size: 1rem; margin-bottom: var(--spacing-sm); }
.file-item {
  padding: var(--spacing-xs) var(--spacing-sm);
  background: var(--color-bg);
  border-radius: var(--radius-sm);
  margin-bottom: var(--spacing-xs);
  font-size: 0.875rem;
  display: flex;
  flex-direction: column;
  gap: 0.25rem;
}
.file-path { word-break: break-all; }
.file-size { color: var(--color-text-muted); font-size: 0.75rem; }
.back-link { display: inline-block; color: var(--color-primary); text-decoration: none; transition: opacity var(--transition); }
.back-link:hover { opacity: 0.8; }
.back-link:focus { outline: 2px solid var(--color-primary); outline-offset: 2px; }
.empty-state { text-align: center; padding: var(--spacing-xl); color: var(--color-text-muted); }
".

Definition styles_wide : bytes := go_text
"
@media (min-width: 640px) {
  main { padding: var(--spacing-md); }
  h1 { font-size: 2.5rem; }
  .search-form { flex-direction: row; align-items: flex-end; }
  .search-form .field { flex: 1; }
  .search-form button { align-self: flex-end; }
  article { padding: var(--spacing-md); }
  .detail-grid { grid-template-columns: repeat(2, 1fr); }
  .file-item { flex-direction: row; justify-content: space-between; align-items: center; }
  .file-size { margin-left: var(--spacing-sm); }
}
@media (min-width: 1024px) {
  .detail-grid { grid-template-columns: repeat(4, 1fr); }
}
".

Definition commonStyles : bytes :=
  styles_page ++ styles_search ++ styles_results ++ styles_detail ++ styles_wide.

Definition defaultTemplate : bytes :=
  go_text
"<!DOCTYPE html>
<html lang=`en`>
<head>
    <meta charset=`UTF-8`>
    <meta name=`viewport` content=`width=device-width, initial-scale=1.0`>
    <meta name=`description` content=`Search and discover torrents from the BitTorrent DHT network`>
    <title>DHT Crawler - Search Torrents</title>
    <style>"
  ++ commonStyles ++
  go_text
"</style>
</head>
<body>
    <main>
        <header>
            <h1><a href=`/`>DHT Crawler</a></h1>
            <nav>
                <a href=`/`>Search</a>
                <a href=`/sitemap`>All Torrents</a>
            </nav>
            <div class=`stats`>
                <span class=`stat`>Torrents: {{formatNumber .Stats.TotalTorrents}}</span>
                <span class=`stat`>Hashes: {{formatNumber .Stats.TotalHashes}}</span>
                <span class=`stat`>DHT Nodes: {{.Stats.DHTNodesActive}}</span>
                <span class=`stat`>Uptime: {{formatDuration .Stats.Uptime}}</span>
            </div>
        </header>

        <form class=`search-form` action=`/search` method=`GET` role=`search`>
            <div class=`field`>
                <label for=`search-input`>Search torrents</label>
                <input type=`search` id=`search-input` name=`q` placeholder=`Enter torrent name...` value=`{{.Query}}` autocomplete=`off` autofocus>
            </div>
            <button type=`submit`>Search</button>
        </form>

        {{if .Query}}
        <p class=`results-info`>Found {{.Total}} results for `{{.Query}}`</p>
        {{end}}

        <section>
        {{range .Results}}
        <article>
            <h2 class=`torrent-name`><a href=`/torrent/{{.InfoHash}}`>{{if .NameHighlight}}{{.NameHighlight | html}}{{else}}{{.Name}}{{end}}</a></h2>
            <div class=`torrent-meta`>
                <span>{{formatSize .Size}}</span>
                <span>{{.FileCount}} files</span>
                <span>{{.ReqCount}} requests</span>
            </div>
            <div class=`torrent-hash`>
                <a href=`magnet:?xt=urn:btih:{{.InfoHash}}`>magnet:?xt=urn:btih:{{.InfoHash}}</a>
            </div>
        </article>
        {{end}}
        </section>

        {{if .Query}}
        <nav class=`pagination`>
            {{if .HasPrev}}<a href=`/search?q={{.Query}}&page={{.PrevPage}}`>← Previous</a>{{end}}
            {{if .HasNext}}<a href=`/search?q={{.Query}}&page={{.NextPage}}`>Next →</a>{{end}}
        </nav>
        {{end}}
    </main>
</body>
</html>".

Definition sitemapTemplate : bytes :=
  go_text
"<!DOCTYPE html>
<html lang=`en`>
<head>
    <meta charset=`UTF-8`>
    <meta name=`viewport` content=`width=device-width, initial-scale=1.0`>
    <meta name=`description` content=`Browse all torrents discovered from the BitTorrent DHT network`>
    <title>All Torrents - DHT Crawler</title>
    <style>"
  ++ commonStyles ++
  go_text
"</style>
</head>
<body>
    <main>
        <header>
            <h1><a href=`/`>DHT Crawler</a></h1>
            <nav>
                <a href=`/`>Search</a>
                <a href=`/sitemap`>All Torrents</a>
            </nav>
            <div class=`stats`>
                <span class=`stat`>Torrents: {{formatNumber .Stats.TotalTorrents}}</span>
                <span class=`stat`>Hashes: {{formatNumber .Stats.TotalHashes}}</span>
                <span class=`stat`>DHT Nodes: {{.Stats.DHTNodesActive}}</span>
                <span class=`stat`>Uptime: {{formatDuration .Stats.Uptime}}</span>
            </div>
        </header>

        <p class=`results-info`>All Torrents ({{.Total}} total) — Page {{.Page}} of {{.TotalPages}}</p>

        <section>
        {{range .Torrents}}
        <article>
            <h2 class=`torrent-name`><a href=`/torrent/{{.InfoHash}}`>{{.Name}}</a></h2>
            <div class=`torrent-meta`>
                <span>{{formatSize .Size}}</span>
                <span>{{.FileCount}} files</span>
                <span>{{.ReqCount}} requests</span>
            </div>
            <div class=`torrent-hash`>
                <a href=`magnet:?xt=urn:btih:{{.InfoHash}}`>magnet:?xt=urn:btih:{{.InfoHash}}</a>
            </div>
        </article>
        {{else}}
        <div class=`empty-state`>
            <p>No torrents found yet.</p>
            <p>The crawler is still discovering torrents from the DHT network.</p>
        </div>
        {{end}}
        </section>

        <nav class=`pagination`>
            {{if .HasPrev}}<a href=`/sitemap?page={{.PrevPage}}`>← Previous</a>{{end}}
            {{if .HasNext}}<a href=`/sitemap?page={{.NextPage}}`>Next →</a>{{end}}
        </nav>
    </main>
</body>
</html>".

Definition torrentTemplate : bytes :=
  go_text
"<!DOCTYPE html>
<html lang=`en`>
<head>
    <meta charset=`UTF-8`>
    <meta name=`viewport` content=`width=device-width, initial-scale=1.0`>
    <meta name=`description` content=`Download {{.Torrent.Name}} - {{formatSize .Torrent.Size}} torrent via magnet link`>
    <title>{{.Torrent.Name}} - DHT Crawler</title>
    <style>"
  ++ commonStyles ++
  go_text
"</style>
</head>
<body>
    <main>
        <header>
            <h1><a href=`/`>DHT Crawler</a></h1>
            <nav>
                <a href=`/`>Search</a>
                <a href=`/sitemap`>All Torrents</a>
            </nav>
        </header>

        <article class=`detail-card`>
            <h2 class=`detail-title`>{{.Torrent.Name}}</h2>

            <div class=`detail-grid`>
                <div class=`detail-item`>
                    <div class=`detail-label`>Size</div>
                    <div class=`detail-value`>{{formatSize .Torrent.Size}}</div>
                </div>
                <div class=`detail-item`>
                    <div class=`detail-label`>Files</div>
                    <div class=`detail-value`>{{.Torrent.FileCount}}</div>
                </div>
                <div class=`detail-item`>
                    <div class=`detail-label`>Requests</div>
                    <div class=`detail-value`>{{.Torrent.ReqCount}}</div>
                </div>
                <div class=`detail-item`>
                    <div class=`detail-label`>Info Hash</div>
                    <div class=`detail-value detail-value--mono`>{{.Torrent.InfoHash}}</div>
                </div>
            </div>

            <div class=`magnet-section`>
                <label for=`magnet-link`>Magnet Link</label>
                <div class=`magnet-box` id=`magnet-link`>{{.MagnetLink}}</div>
                <a class=`btn` href=`{{.MagnetLink}}`>Open Magnet Link</a>
            </div>

            {{if .Torrent.Files}}
            <section class=`file-section`>
                <h2>Files ({{.Torrent.FileCount}})</h2>
                {{range .Torrent.Files}}
                <div class=`file-item`>
                    <span class=`file-path`>{{.Path}}</span>
                    {{if .Size}}<span class=`file-size`>{{formatSize .Size}}</span>{{end}}
                </div>
                {{end}}
            </section>
            {{end}}
        </article>

        <a href=`/sitemap` class=`back-link`>← Back to All Torrents</a>
    </main>
</body>
</html>".

(** [templates/search.html], embedded in the program. *)
Definition search_html : bytes := go_text
"<!DOCTYPE html>
<html lang=`en`>
<head>
    <meta charset=`UTF-8`>
    <meta name=`viewport` content=`width=device-width, initial-scale=1.0`>
    <title>DHT Crawler Search</title>
    <style>
        * { box-sizing: border-box; margin: 0; padding: 0; }
        body { font-family: -apple-system, BlinkMacSystemFont, 'Segoe UI', Roboto, sans-serif; background: #1a1a2e; color: #eee; min-height: 100vh; }
        .container { max-width: 900px; margin: 0 auto; padding: 20px; }
        header { text-align: center; padding: 40px 0; }
        h1 { font-size: 2.5rem; margin-bottom: 10px; color: #00d4ff; }
        .stats { display: flex; gap: 20px; justify-content: center; flex-wrap: wrap; margin-bottom: 30px; font-size: 0.9rem; color: #888; }
        .stat { background: #252547; padding: 8px 16px; border-radius: 20px; }
        .search-form { display: flex; gap: 10px; margin-bottom: 30px; }
        .search-form input { flex: 1; padding: 15px; font-size: 1.1rem; border: none; border-radius: 8px; background: #252547; color: #fff; }
        .search-form input::placeholder { color: #666; }
        .search-form button { padding: 15px 30px; font-size: 1.1rem; border: none; border-radius: 8px; background: #00d4ff; color: #1a1a2e; cursor: pointer; font-weight: bold; transition: background 0.2s; }
        .search-form button:hover { background: #00b8e6; }
        .results-count { color: #888; margin-bottom: 20px; }
        .result { background: #252547; padding: 20px; border-radius: 8px; margin-bottom: 15px; transition: transform 0.1s; }
        .result:hover { transform: translateX(5px); }
        .result-name { font-size: 1.2rem; color: #00d4ff; margin-bottom: 10px; word-break: break-all; }
        .result-name b { background: #00d4ff33; padding: 0 2px; border-radius: 2px; }
        .result-meta { display: flex; gap: 20px; color: #888; font-size: 0.9rem; }
        .result-hash { font-family: monospace; font-size: 0.8rem; color: #666; margin-top: 10px; word-break: break-all; }
        .pagination { display: flex; justify-content: center; gap: 10px; margin-top: 30px; }
        .pagination a { padding: 10px 20px; background: #252547; color: #00d4ff; text-decoration: none; border-radius: 5px; transition: background 0.2s; }
        .pagination a:hover { background: #303060; }
        .magnet-link { color: #00d4ff; text-decoration: none; font-size: 0.9rem; }
        .magnet-link:hover { text-decoration: underline; }
        .no-results { text-align: center; color: #666; padding: 40px; }
        @media (max-width: 600px) {
            .search-form { flex-direction: column; }
            .result-meta { flex-direction: column; gap: 5px; }
        }
    </style>
</head>
<body>
    <div class=`container`>
        <header>
            <h1>DHT Crawler</h1>
            <div class=`stats`>
                <span class=`stat`>Torrents: {{formatNumber .Stats.TotalTorrents}}</span>
                <span class=`stat`>Hashes: {{formatNumber .Stats.TotalHashes}}</span>
                <span class=`stat`>DHT Nodes: {{.Stats.DHTNodesActive}}</span>
                <span class=`stat`>Downloads: {{formatNumber .Stats.DownloadSuccess}}</span>
                <span class=`stat`>Uptime: {{formatDuration .Stats.Uptime}}</span>
            </div>
        </header>

        <form class=`search-form` action=`/search` method=`GET`>
            <input type=`text` name=`q` placeholder=`Search torrents... (fuzzy search supported)` value=`{{.Query}}` autofocus>
            <button type=`submit`>Search</button>
        </form>

        {{if .Query}}
            <div class=`results-count`>Found {{.Total}} results for `{{.Query}}`</div>

            {{if .Results}}
                {{range .Results}}
                <div class=`result`>
                    <div class=`result-name`>{{if .NameHighlight}}{{.NameHighlight}}{{else}}{{.Name}}{{end}}</div>
                    <div class=`result-meta`>
                        <span>Size: {{formatSize .Size}}</span>
                        <span>Files: {{.FileCount}}</span>
                        <span>Requests: {{.ReqCount}}</span>
                    </div>
                    <div class=`result-hash`>
                        <a class=`magnet-link` href=`magnet:?xt=urn:btih:{{.InfoHash}}&dn={{.Name}}`>magnet:?xt=urn:btih:{{.InfoHash}}</a>
                    </div>
                </div>
                {{end}}

                <div class=`pagination`>
                    {{if .HasPrev}}<a href=`/search?q={{.Query}}&page={{.PrevPage}}`>&larr; Previous</a>{{end}}
                    <span style=`color: #666; padding: 10px;`>Page {{.Page}} of {{.TotalPages}}</span>
                    {{if .HasNext}}<a href=`/search?q={{.Query}}&page={{.NextPage}}`>Next &rarr;</a>{{end}}
                </div>
            {{else}}
                <div class=`no-results`>No results found. Try a different search term.</div>
            {{end}}
        {{end}}
    </div>
</body>
</html>
".

(** ** The function map *)

Definition function_names : list bytes := [bs "formatSize"; bs "formatDuration"; bs "formatNumber"].

(** A call with an argument of another type is an error, as is one that panics. *)
Definition call (f : bytes) (v : value) : result value :=
  if decide (f = bs "formatSize") then
    match v with
    | GInt64 n => match formatSize n with Ok s => Ok (GStr s) | _ => Err ErrExec end
    | _ => Err ErrExec
    end
  else if decide (f = bs "formatDuration") then
    match v with GDuration d => Ok (GStr (formatDuration d)) | _ => Err ErrExec end
  else if decide (f = bs "formatNumber") then
    match v with
    | GInt n => Ok (GStr (formatNumber (NInt n)))
    | GInt64 n => Ok (GStr (formatNumber (NInt64 n)))
    | GUint64 n => Ok (GStr (formatNumber (NUint64 n)))
    | _ => s ← printed v; Ok (GStr s)
    end
  else Err ErrExec.

(** ** The data of the templates *)

Definition stats_value (s : Crawler.Stats) : value :=
  GStruct [(bs "DHTNodesActive", GInt (s_DHTNodesActive s)); (bs "DHTQueriesRecv", GUint64 (s_DHTQueriesRecv s));
           (bs "DHTQueriesSent", GUint64 (s_DHTQueriesSent s)); (bs "DHTGetPeers", GUint64 (s_DHTGetPeers s));
           (bs "DHTAnnounces", GUint64 (s_DHTAnnounces s)); (bs "DHTRoutingSize", GInt (s_DHTRoutingSize s));
           (bs "CacheHashesAdded", GUint64 (s_CacheHashesAdded s));
           (bs "CacheHashesFlushed", GUint64 (s_CacheHashesFlushed s)); (bs "CacheCurrent", GInt (s_CacheCurrent s));
           (bs "DownloadSuccess", GUint64 (s_DownloadSuccess s)); (bs "DownloadFail", GUint64 (s_DownloadFail s));
           (bs "DownloadInProgress", GInt (s_DownloadInProgress s)); (bs "DownloadQueued", GInt (s_DownloadQueued s));
           (bs "TotalHashes", GInt (s_TotalHashes s)); (bs "TotalTorrents", GInt (s_TotalTorrents s));
           (bs "Uptime", GDuration (s_Uptime s))].

Definition result_value (r : SearchResult) : value :=
  GStruct [(bs "InfoHash", GStr (sr_InfoHash r)); (bs "Name", GStr (sr_Name r));
           (bs "NameHighlight", GStr (sr_NameHighlight r)); (bs "Size", GInt64 (sr_Size r));
           (bs "FileCount", GInt (sr_FileCount r)); (bs "ReqCount", GInt (sr_ReqCount r))].

Definition file_value (f : FileRecord) : value :=
  GStruct [(bs "Path", GStr (fr_Path f)); (bs "Size", GInt64 (fr_Size f))].

(** Of a [time.Time] a template sees no field. *)
Definition torrent_value (t : TorrentRecord) : value :=
  GStruct [(bs "InfoHash", GStr (tr_InfoHash t)); (bs "Name", GStr (tr_Name t)); (bs "Size", GInt64 (tr_Size t));
           (bs "Files", GSlice (file_value <$> tr_Files t)); (bs "FileCount", GInt (tr_FileCount t));
           (bs "CreatedAt", GStruct []); (bs "ReqCount", GInt (tr_ReqCount t))].

Definition paging_entries (p : paging) : list (bytes * value) :=
  [(bs "TotalPages", GInt (pg_TotalPages p)); (bs "HasPrev", GBool (pg_HasPrev p));
   (bs "HasNext", GBool (pg_HasNext p)); (bs "PrevPage", GInt (pg_PrevPage p)); (bs "NextPage", GInt (pg_NextPage p))].

(** The map a handler hands to its template. *)
Definition page_data (p : page) : value :=
  match p with
  | SearchPage stats query results total page paging =>
      GMap ([(bs "Stats", stats_value stats); (bs "Query", GStr query);
             (bs "Results", match paging with None => GNil | Some _ => GSlice (result_value <$> results) end);
             (bs "Total", GInt total); (bs "Page", GInt page)] ++
            match paging with None => [] | Some p => paging_entries p end)
  | SitemapPage stats torrents total page paging =>
      GMap ([(bs "Stats", stats_value stats); (bs "Torrents", GSlice (torrent_value <$> torrents));
             (bs "Total", GInt total); (bs "Page", GInt page)] ++ paging_entries paging)
  | TorrentPage stats torrent magnetLink =>
      GMap [(bs "Stats", stats_value stats); (bs "Torrent", torrent_value torrent); (bs "MagnetLink", GStr magnetLink)]
  end.

(** The name of its template. *)
Definition page_template (p : page) : bytes :=
  match p with
  | SearchPage _ _ _ _ _ _ => bs "search"
  | SitemapPage _ _ _ _ _ => bs "sitemap"
  | TorrentPage _ _ _ => bs "torrent"
  end.

(** ** The server *)

Record Server := mkServer { sv_addr : bytes; sv_template : list (bytes * template) }.

(** [template.Must]. *)
Definition Must (t : result template) : outcome unit template :=
  match t with Ok t => Ok t | NoFuel => NoFuel | _ => Panic PanicTemplate end.

(** A template of [ParseFS] has the name of its file. *)
Definition NewServer (port : Z) : outcome unit Server :=
  templates ←
    match Parse function_names search_html with
    | Ok t => Ok [(bs "search.html", t)]
    | _ => t ← Must (Parse function_names defaultTemplate); Ok [(bs "search", t)]
    end;
  Ok (mkServer (bs ":" ++ fmt_d port) templates).

(** [ExecuteTemplate]: a name that is not defined is an error. *)
Definition ExecuteTemplate (templates : list (bytes * template)) (name : bytes) (data : value) : written :=
  match dict_lookup name templates with
  | Some t => Execute call t data
  | None => ([], Some ErrExec)
  end.

Definition inline_template (name : bytes) : bytes :=
  if decide (name = bs "sitemap") then sitemapTemplate
  else if decide (name = bs "torrent") then torrentTemplate
  else defaultTemplate.

(** The body that is written; an error of the last execution is ignored. *)
Definition renderTemplate (s : Server) (name : bytes) (data : value) : outcome unit bytes :=
  match ExecuteTemplate (sv_template s) name data with
  | (out, None) => Ok out
  | (out, Some _) =>
      t ← Must (Parse function_names (inline_template name));
      Ok (out ++ (Execute call t data).1)
  end.

Definition render (s : Server) (p : page) : outcome unit bytes := renderTemplate s (page_template p) (page_data p).
