(* ===== verification/PagesSpec.v ===== *)
(** * What the pages show, and what they cannot be made to do *)

From S2P Require Import Prelude GoStd Float Net Bencode Conc Storage Cache Queue Worker Crawler CrawlerSpec.
From S2P Require Import Web WebSpec Template TemplateSpec Pages.

(** ** Values are read back *)

(** The bytes that are the same in HTML and in a URL. *)
Lemma process_url_plain s : concat (html_entity true <$> process_url false s) = process_url false s.
Proof.
  induction s as [|b s IH]; [done|]. cbn [process_url]. rewrite fmap_app, concat_app, IH. f_equal.
  cbn [andb]. rewrite !orb_false_r. by destruct b.
Qed.

Lemma QueryUnescape_process_url s : QueryUnescape (process_url false s) = Some s.
Proof.
  induction s as [|b s IH]; [done|]. cbn [process_url andb]. rewrite !orb_false_r.
  assert (∀ r, QueryUnescape ((if url_unreserved b then [b] else percent b) ++ r) = cons b <$> QueryUnescape r) as H.
  { intros r. by destruct b. }
  by rewrite H, IH.
Qed.

Lemma read_plain s : Forall (λ b, b ≠ x26) s → read_html s = s.
Proof.
  unfold read_html. induction 1 as [|b s Hb _ IH]; [done|]. cbn [read_from].
  assert (reference_at (b :: s) = None) as -> by (by destruct b). by rewrite IH.
Qed.

Lemma process_url_no_reference s : Forall (λ b, b ≠ x26) (process_url false s).
Proof.
  induction s as [|b s IH]; [constructor|]. cbn [process_url andb]. rewrite !orb_false_r.
  apply Forall_app. split; [|exact IH]. destruct b; apply (bool_decide_unpack _); vm_compute; exact I.
Qed.

Lemma process_url_unreserved s : Forall (λ b, url_unreserved b = true) s → process_url true s = s.
Proof. induction 1 as [|b s Hb _ IH]; [done|]. cbn [process_url]. by rewrite Hb, IH. Qed.

Lemma url_unreserved_plain s :
  Forall (λ b, url_unreserved b = true) s → concat (html_entity true <$> s) = s.
Proof.
  induction 1 as [|b s Hb _ IH]; [done|]. cbn [fmap list_fmap concat]. rewrite IH. by destruct b.
Qed.

(** A reader of a page sees the values. Whatever bytes a value has, a browser that
    undoes the character references reads in a text, a title or a plain attribute the
    value itself (but for NUL bytes); the server that undoes the percent escapes as well
    reads in the query of a link the value itself, and in the path of a link a value of
    letters, digits and [-._~] is as it was. Where a value starts a URL it must be
    relative or of the protocol http, https or mailto, or it becomes [#ZgotmplZ]. *)
Lemma values_read_back s c html :
  (c = InText ∨ c = InTitle [] ∨ (∃ e q u, c = InAttr e AttrNone q u) →
   x00 ∉ s →
   ∃ es, escapers_for c = Some es ∧ read_html (apply_escapers (with_html html es) s) = s) ∧
  (∀ e q, c = InAttr e AttrURL q QueryOrFrag →
   ∃ es, escapers_for c = Some es ∧ QueryUnescape (read_html (apply_escapers es s)) = Some s) ∧
  (∀ e q, c = InAttr e AttrURL q PreQuery → Forall (λ b, url_unreserved b = true) s →
   ∃ es, escapers_for c = Some es ∧ apply_escapers es s = s) ∧
  (∀ e q, c = InAttr e AttrURL q URLNone → safe_url s = false →
   ∃ es, escapers_for c = Some es ∧ apply_escapers es s = bs "#ZgotmplZ").
Proof.
  split_and!.
  - intros Hc Hs. destruct Hc as [->|[->|(e & q & u & ->)]]; eexists; (split; [reflexivity|]);
      destruct html; by apply read_escaped.
  - intros e q ->. eexists. split; [reflexivity|]. unfold apply_escapers. cbn [foldl apply_escaper].
    rewrite process_url_plain, read_plain by apply process_url_no_reference. apply QueryUnescape_process_url.
  - intros e q -> Hs. eexists. split; [reflexivity|]. unfold apply_escapers. cbn [foldl apply_escaper].
    by rewrite process_url_unreserved, url_unreserved_plain.
  - intros e q -> Hs. eexists. split; [reflexivity|]. unfold apply_escapers. cbn [foldl apply_escaper].
    by rewrite Hs.
Qed.

(** ** The types of the pages *)

Definition stats_ty : ty :=
  TStruct [(bs "DHTNodesActive", TInt); (bs "TotalHashes", TInt); (bs "TotalTorrents", TInt); (bs "Uptime", TDuration)].
Definition result_ty : ty :=
  TStruct [(bs "InfoHash", TStr); (bs "Name", TStr); (bs "NameHighlight", TStr); (bs "Size", TInt64);
           (bs "FileCount", TInt); (bs "ReqCount", TInt)].
Definition file_ty : ty := TStruct [(bs "Path", TStr); (bs "Size", TInt64)].
Definition torrent_ty : ty :=
  TStruct [(bs "InfoHash", TStr); (bs "Name", TStr); (bs "Size", TInt64); (bs "Files", TSlice file_ty);
           (bs "FileCount", TInt); (bs "ReqCount", TInt)].
Definition paging_ty : list (bytes * ty) :=
  [(bs "TotalPages", TOpt TInt); (bs "HasPrev", TOpt TBool); (bs "HasNext", TOpt TBool);
   (bs "PrevPage", TOpt TInt); (bs "NextPage", TOpt TInt)].
Definition search_ty : ty :=
  TMap ([(bs "Stats", stats_ty); (bs "Query", TStr); (bs "Results", TOpt (TSlice result_ty)); (bs "Total", TInt);
         (bs "Page", TInt)] ++ paging_ty).
Definition sitemap_ty : ty :=
  TMap ([(bs "Stats", stats_ty); (bs "Torrents", TSlice torrent_ty); (bs "Total", TInt); (bs "Page", TInt)] ++ paging_ty).
Definition torrent_page_ty : ty := TMap [(bs "Stats", stats_ty); (bs "Torrent", torrent_ty); (bs "MagnetLink", TStr)].

Definition page_ty (p : page) : ty :=
  match p with
  | SearchPage _ _ _ _ _ _ => search_ty
  | SitemapPage _ _ _ _ _ => sitemap_ty
  | TorrentPage _ _ _ => torrent_page_ty
  end.

(** The sizes are what an [int64] can be. *)
Definition sizes_ok (p : page) : Prop :=
  match p with
  | SearchPage _ _ results _ _ _ => Forall (λ r, is_int64 (sr_Size r)) results
  | SitemapPage _ torrents _ _ _ =>
      Forall (λ t, is_int64 (tr_Size t) ∧ Forall (λ f, is_int64 (fr_Size f)) (tr_Files t)) torrents
  | TorrentPage _ t _ => is_int64 (tr_Size t) ∧ Forall (λ f, is_int64 (fr_Size f)) (tr_Files t)
  end.

Lemma struct_typed fs es :
  Forall (λ ft, ∃ v, dict_lookup ft.1 es = Some v ∧ has_type ft.2 v) fs → has_type (TStruct fs) (GStruct es).
Proof. intros H. exists es. split; [done|]. induction H as [|[f t] fs Hf _ IH]; [done|]. by split. Qed.

Lemma map_typed fs es :
  Forall (λ ft, has_type ft.2 (default GNil (dict_lookup ft.1 es))) fs → has_type (TMap fs) (GMap es).
Proof. intros H. exists es. split; [done|]. induction H as [|[f t] fs Hf _ IH]; [done|]. by split. Qed.

Lemma slice_typed {A : Type} (P : A → Prop) (f : A → value) t l :
  (∀ x, P x → has_type t (f x)) → Forall P l → has_type (TSlice t) (GSlice (f <$> l)).
Proof.
  intros Hf Hl. exists (f <$> l). split; [done|]. apply Forall_fmap. eapply Forall_impl; [exact Hl|exact Hf].
Qed.

(** The entries are looked up by computation, and those of a simple type are done. *)
Ltac simple_type := solve [eexists; reflexivity | by left | right; eexists; reflexivity | eexists; split; [reflexivity|done]].
Ltac entries look :=
  repeat first [apply Forall_nil_2 | apply Forall_cons_2; [look; cbn [fst snd]; try simple_type|]].
Ltac typed :=
  first [apply struct_typed; entries ltac:(eexists; split; [reflexivity|])
        |apply map_typed; entries ltac:(cbn [fst snd dict_lookup])].

Lemma stats_typed s : has_type stats_ty (stats_value s).
Proof. typed. Qed.

Lemma result_typed r : is_int64 (sr_Size r) → has_type result_ty (result_value r).
Proof. intros H. typed. Qed.

Lemma file_typed f : is_int64 (fr_Size f) → has_type file_ty (file_value f).
Proof. intros H. typed. Qed.

Lemma torrent_typed t :
  is_int64 (tr_Size t) ∧ Forall (λ f, is_int64 (fr_Size f)) (tr_Files t) → has_type torrent_ty (torrent_value t).
Proof. intros [H1 H2]. typed. by eapply slice_typed; [apply file_typed|]. Qed.

Lemma page_typed p : sizes_ok p → has_type (page_ty p) (page_data p).
Proof.
  destruct p as [stats query results total page [g|]|stats torrents total page paging|stats t m]; cbn [sizes_ok];
    intros H; typed; try apply stats_typed.
  - right. by eapply slice_typed; [apply result_typed|].
  - by eapply slice_typed; [apply torrent_typed|].
  - by apply torrent_typed.
Qed.

Definition sig (f : bytes) (t : ty) : option ty :=
  if decide (f = bs "formatSize") then match t with TInt64 => Some TStr | _ => None end
  else if decide (f = bs "formatDuration") then match t with TDuration => Some TStr | _ => None end
  else if decide (f = bs "formatNumber") then match t with TInt | TInt64 | TUint64 => Some TStr | _ => None end
  else None.

Lemma formatSize_Ok n : is_int64 n → ∃ s, formatSize n = Ok s.
Proof.
  intros [_ Hn]. destruct (formatSize_accurate n Hn) as [H1 H2]. destruct (Z.lt_ge_cases n 1024) as [H|H].
  - eexists. by apply H1.
  - destruct (H2 H) as (u & c & t & _ & Ht & _). by eexists.
Qed.

Lemma sig_sound f t v t' : has_type t v → sig f t = Some t' → ∃ v', call f v = Ok v' ∧ has_type t' v'.
Proof.
  unfold sig, call. intros Hv. repeat case_decide; try done; destruct t; try done; intros [= <-].
  - destruct Hv as (z & -> & Hz). destruct (formatSize_Ok z Hz) as [s ->]. eexists. split; [done|]. by eexists.
  - destruct Hv as (z & ->). eexists. split; [done|]. by eexists.
  - destruct Hv as (z & ->). eexists. split; [done|]. by eexists.
  - destruct Hv as (z & -> & _). eexists. split; [done|]. by eexists.
  - destruct Hv as (z & ->). eexists. split; [done|]. by eexists.
Qed.

(** ** Rendering *)

(** A template with its escapers. *)
Definition compile (text : bytes) : option template :=
  match Parse function_names text with
  | Ok t => match escape InText t with Ok (t, InText) => Some t | _ => None end
  | _ => None
  end.

Definition compiled (p : page) : option template := compile (inline_template (page_template p)).

(** The templates parse, have their escapers, and check against the types of their data. *)
Definition checked (text : bytes) (t : ty) : bool :=
  match compile text with Some x => check sig x t | None => false end.

Lemma defaultTemplate_checked : checked defaultTemplate search_ty = true.
Proof. vm_compute. reflexivity. Qed.
Lemma sitemapTemplate_checked : checked sitemapTemplate sitemap_ty = true.
Proof. vm_compute. reflexivity. Qed.
Lemma torrentTemplate_checked : checked torrentTemplate torrent_page_ty = true.
Proof. vm_compute. reflexivity. Qed.

Lemma compiled_checked p : ∃ t, compiled p = Some t ∧ check sig t (page_ty p) = true.
Proof.
  assert (checked (inline_template (page_template p)) (page_ty p) = true) as H.
  { destruct p; [apply defaultTemplate_checked|apply sitemapTemplate_checked|apply torrentTemplate_checked]. }
  unfold checked, compiled in *. destruct (compile _) as [t|]; [|done]. by exists t.
Qed.

Lemma compile_Execute text t :
  compile text = Some t →
  ∃ t0, Parse function_names text = Ok t0 ∧ escape InText t0 = Ok (t, InText) ∧
    ∀ data, Execute call t0 data = exec call apply_escapers t data.
Proof.
  unfold compile. destruct (Parse function_names text) as [t0| | |]; try done.
  destruct (escape InText t0) as [[t1 c]| | |] eqn:E; try done. destruct c; try done. intros [= ->].
  exists t0. split_and!; [done..|]. intros data. unfold Execute. by rewrite E.
Qed.

(** The parsed file has another name than the handlers use. *)
Lemma search_html_parses : is_ok (Parse function_names search_html) = true.
Proof. vm_compute. reflexivity. Qed.

#[local] Opaque Parse compile.

Lemma NewServer_Ok port :
  ∃ t, NewServer port = Ok (mkServer (bs ":" ++ fmt_d port) [(bs "search.html", t)]).
Proof.
  unfold NewServer. pose proof search_html_parses as H.
  destruct (Parse function_names search_html) as [t| | |]; try done. by exists t.
Qed.

Lemma render_inline port p :
  sizes_ok p →
  ∃ sv t0 t out, NewServer port = Ok sv ∧ dict_lookup (page_template p) (sv_template sv) = None ∧
    compiled p = Some t ∧ escape InText t0 = Ok (t, InText) ∧
    exec call apply_escapers t (page_data p) = (out, None) ∧ render sv p = Ok out.
Proof.
  intros Hp. destruct (NewServer_Ok port) as [h Hsv]. destruct (compiled_checked p) as (t & Ht & Hc).
  destruct (compile_Execute _ _ Ht) as (t0 & Hparse & Hesc & Hex).
  assert ((exec call apply_escapers t (page_data p)).2 = None) as Hd.
  { apply (check_sound call apply_escapers sig sig_sound _ (page_ty p)); [done|by apply page_typed]. }
  destruct (exec call apply_escapers t (page_data p)) as [out o] eqn:E. cbn in Hd. subst o.
  eexists _, t0, t, out. split_and!; [exact Hsv|by destruct p|assumption..|].
  unfold render, renderTemplate, ExecuteTemplate.
  assert (dict_lookup (page_template p) (sv_template (mkServer (bs ":" ++ fmt_d port) [(bs "search.html", h)])) = None)
    as -> by (by destruct p).
  rewrite Hparse. cbn [Must mbind outcome_bind]. by rewrite Hex, E.
Qed.

(** C28: every page is rendered to its end. [NewServer] succeeds; the file it embeds does not
    define the templates the handlers name, so each page comes from the inline template of
    its name, parsed anew. That template parses, escapers are found for all its actions, and
    its execution over the data of the handler, whose sizes are [int64]s, meets no error:
    no field is missing, no function is called with another type, and the response is
    the whole page. *)
Theorem pages_render port p :
  sizes_ok p →
  ∃ sv t out, NewServer port = Ok sv ∧ sv_addr sv = bs ":" ++ fmt_d port ∧
    dict_lookup (page_template p) (sv_template sv) = None ∧ compiled p = Some t ∧
    exec call apply_escapers t (page_data p) = (out, None) ∧ render sv p = Ok out.
Proof.
  intros Hp. destruct (render_inline port p Hp) as (sv & t0 & t & out & H1 & H2 & H3 & _ & H4 & H5).
  destruct (NewServer_Ok port) as [h Hsv].
  exists sv, t, out. split_and!; [assumption| |assumption..]. rewrite H1 in Hsv. by injection Hsv as ->.
Qed.

(** C27: no value can touch the markup of a page. Whatever names, file paths, hashes and
    queries a page shows, which are chosen by peers and visitors, its markup (its tags with
    their attribute names, the quotes and the styles: all but text and attribute values)
    is that of the same page written with every value left empty; so no value opens or
    closes a tag, leaves its attribute or adds one, and the page ends in plain text. *)
Theorem pages_markup port p :
  sizes_ok p →
  ∃ sv t out out0, NewServer port = Ok sv ∧ compiled p = Some t ∧ render sv p = Ok out ∧
    exec call blanked t (page_data p) = (out0, None) ∧
    markup InText out = markup InText out0 ∧ after InText out = InText.
Proof.
  intros Hp. destruct (render_inline port p Hp) as (sv & t0 & t & out & H1 & _ & H3 & Hesc & H4 & H5).
  destruct (exec_markup call t0 InText t InText (page_data p) Hesc) as [Hd Ha]. rewrite H4 in Hd, Ha.
  destruct (exec call blanked t (page_data p)) as [out0 o] eqn:E. cbn in Hd. subst o.
  destruct (Ha InText InText) as [Hm Hs]; [done..|]. destruct (Hs eq_refl) as [Hs' _].
  exists sv, t, out, out0. split_and!; [assumption..|]. unfold same in Hs'. cbn [fst] in Hs'. by destruct (after InText out).
Qed.

(** ** The magnet link of a torrent's page *)

Definition ends_with (p s : bytes) : bool := bool_decide (drop (length s - length p) s = p).

Lemma starts_with_app p s : starts_with p s = true → ∃ r, s = p ++ r.
Proof. intros H%bool_decide_eq_true. exists (drop (length p) s). by rewrite <- H at 1; rewrite take_drop. Qed.

Lemma ends_with_app p s : ends_with p s = true → ∃ r, s = r ++ p.
Proof. intros H%bool_decide_eq_true. exists (take (length s - length p) s). by rewrite <- H at 2; rewrite take_drop. Qed.

Definition button_start : bytes := go_text "<a class=`btn` href=`".
Definition button_end : bytes := go_text "`>Open Magnet Link</a>".

(** The link is the value of a URL, between the two texts. *)
Definition is_magnet_button (t : template) : bool :=
  match t with
  | Text s1 (Action p es (Text s2 _)) =>
      bool_decide (p = mkPipe None [bs "MagnetLink"] false) &&
      bool_decide (es = [urlfilter; urlnormalizer; attrescaper]) &&
      ends_with button_start s1 && starts_with button_end s2
  | _ => false
  end.

#[local] Transparent Parse compile.
Lemma torrentTemplate_button :
  match compile torrentTemplate with Some t => is_magnet_button (skip_pieces 18 t) | None => false end = true.
Proof. vm_compute. reflexivity. Qed.
#[local] Opaque Parse compile.

Lemma magnet_link_unsafe t : safe_url (magnet_link t) = false.
Proof. unfold magnet_link. generalize (tr_InfoHash t ++ bs "&dn=" ++ QueryEscape (tr_Name t)). intros s. reflexivity. Qed.

(** The magnet button of a torrent's page leads nowhere. [html/template] lets a value
    start a URL only when its protocol is http, https or mailto; the handler passes the
    magnet link as a string, so for every torrent the button that is to open the link has
    [#ZgotmplZ] in its place. *)
Theorem magnet_button_broken port stats t :
  is_int64 (tr_Size t) → Forall (λ f, is_int64 (fr_Size f)) (tr_Files t) →
  ∃ sv out pre post, NewServer port = Ok sv ∧ render sv (TorrentPage stats t (magnet_link t)) = Ok out ∧
    out = pre ++ go_text "<a class=`btn` href=`#ZgotmplZ`>Open Magnet Link</a>" ++ post.
Proof.
  intros H1 H2. set (p := TorrentPage stats t (magnet_link t)).
  destruct (render_inline port p (conj H1 H2)) as (sv & t0 & x & out & Hsv & _ & Hc & _ & Hex & Hr).
  pose proof torrentTemplate_button as Hb. change (compile torrentTemplate) with (compiled p) in Hb. rewrite Hc in Hb.
  destruct (exec_skip _ _ 18 _ _ _ Hex) as (pre & post & -> & Hp).
  destruct (skip_pieces 18 x) as [|s1 [| |q es [|s2 k| | |]| |]| | |]; try discriminate Hb.
  unfold is_magnet_button in Hb. rewrite !andb_true_iff, !bool_decide_eq_true in Hb.
  destruct Hb as [[[-> ->] [r1 ->]%ends_with_app] [r2 ->]%starts_with_app].
  destruct (exec_action _ _ _ _ _ _ _ _ _ Hp) as (v & s & rest & Hv & Hs & ->).
  assert (v = GStr (magnet_link t)) as -> by (by injection Hv as <-). injection Hs as <-.
  assert (apply_escapers [urlfilter; urlnormalizer; attrescaper] (magnet_link t) = bs "#ZgotmplZ") as E.
  { unfold apply_escapers. cbn [foldl apply_escaper]. by rewrite magnet_link_unsafe. }
  rewrite E in Hr.
  exists sv, (pre ++ (r1 ++ button_start) ++ bs "#ZgotmplZ" ++ (button_end ++ r2) ++ rest), (pre ++ r1), (r2 ++ rest).
  split_and!; [assumption|exact Hr|].
  change (go_text "<a class=`btn` href=`#ZgotmplZ`>Open Magnet Link</a>") with (button_start ++ bs "#ZgotmplZ" ++ button_end).
  by rewrite <- !app_assoc.
Qed.

(** ** A page with hostile values *)

Definition hostile_torrent : TorrentRecord :=
  mkTorrentRecord (bs "ab12") (go_text "`><script>alert('x')</script><a href=`") 1500
    [mkFileRecord (bs "</title><style>") 7] 1 0 1.
Definition sample_stats : Crawler.Stats := mkStats 1 0 0 0 0 0 0 0 0 0 0 0 0 3 1 (seconds 90).
Definition hostile_page : page := TorrentPage sample_stats hostile_torrent (magnet_link hostile_torrent).

Lemma hostile_sizes : is_int64 1500 ∧ Forall (λ f, is_int64 (fr_Size f)) (tr_Files hostile_torrent).
Proof. split; [split; vm_compute; discriminate|]. constructor; [split; vm_compute; discriminate|constructor]. Qed.

Lemma pages_render_witness :
  sizes_ok hostile_page ∧
  ∃ sv t out, NewServer 8085 = Ok sv ∧ sv_addr sv = bs ":8085" ∧
    dict_lookup (bs "torrent") (sv_template sv) = None ∧ compiled hostile_page = Some t ∧
    exec call apply_escapers t (page_data hostile_page) = (out, None) ∧ render sv hostile_page = Ok out.
Proof. split; [exact hostile_sizes|]. exact (pages_render 8085 hostile_page hostile_sizes). Defined.

Lemma pages_markup_witness :
  sizes_ok hostile_page ∧
  ∃ sv t out out0, NewServer 8085 = Ok sv ∧ compiled hostile_page = Some t ∧ render sv hostile_page = Ok out ∧
    exec call blanked t (page_data hostile_page) = (out0, None) ∧
    markup InText out = markup InText out0 ∧ after InText out = InText.
Proof. split; [exact hostile_sizes|]. exact (pages_markup 8085 hostile_page hostile_sizes). Defined.

Lemma magnet_button_broken_witness :
  is_int64 1500 ∧
  ∃ sv out pre post, NewServer 8085 = Ok sv ∧ render sv hostile_page = Ok out ∧
    out = pre ++ go_text "<a class=`btn` href=`#ZgotmplZ`>Open Magnet Link</a>" ++ post.
Proof.
  split; [apply hostile_sizes|].
  exact (magnet_button_broken 8085 sample_stats hostile_torrent (proj1 hostile_sizes) (proj2 hostile_sizes)).
Defined.

(** ** The links of a search page *)

Lemma read_plain_app s r : Forall (λ b, b ≠ x26) s → read_html (s ++ r) = s ++ read_html r.
Proof.
  unfold read_html. induction 1 as [|b s Hb _ IH]; [done|]. cbn [app read_from].
  assert (reference_at (b :: s ++ r) = None) as -> by (by destruct b). by rewrite IH.
Qed.

Lemma shown_in_query s : apply_escapers [urlescaper; attrescaper] s = process_url false s.
Proof. unfold apply_escapers. cbn [foldl apply_escaper]. apply process_url_plain. Qed.

Lemma process_url_no_amp s : x26 ∉ process_url false s.
Proof. intros H. pose proof (process_url_no_reference s) as Hs. rewrite Forall_forall in Hs. by eapply Hs. Qed.

(** The address of another page of the results. *)
Definition search_link (query : bytes) (page : Z) : bytes :=
  bs "/search?q=" ++ process_url false query ++ bs "&page=" ++ process_url false (fmt_d page).

Definition anchor (href text : bytes) : bytes := go_text "<a href=`" ++ href ++ go_text "`>" ++ text ++ bs "</a>".

(** Where a link leads: the request of a browser that follows it. *)
Definition leads_to (href query : bytes) (page : Z) : Prop :=
  ∃ q entries, read_html href = bs "/search?" ++ q ∧ parse_two q = Some entries ∧
    let r := mkRequest (bs "/search") entries in
    route (rq_Path r) = Some SearchForm ∧ Get (bs "q") r = query ∧ page_number r = page.

Lemma search_link_leads query page : is_int64 page → 1 ≤ page → leads_to (search_link query page) query page.
Proof.
  intros Hp H1. exists (bs "q=" ++ process_url false query ++ bs "&page=" ++ process_url false (fmt_d page)).
  exists [(bs "q", query); (bs "page", fmt_d page)]. cbn zeta. split_and!.
  - unfold search_link. rewrite (read_plain_app (bs "/search?q=")) by (apply (bool_decide_unpack _); vm_compute; exact I).
    rewrite read_plain_app by apply process_url_no_reference.
    change (bs "&page=" ++ ?s) with (x26 :: bs "page=" ++ s).
    assert (∀ s, read_html (x26 :: bs "page=" ++ s) = x26 :: read_html (bs "page=" ++ s)) as -> by (intros s; reflexivity).
    rewrite read_plain_app by (apply (bool_decide_unpack _); vm_compute; exact I).
    by rewrite read_plain by apply process_url_no_reference.
  - unfold parse_two. change (bs "&page=" ++ ?s) with (x26 :: bs "page=" ++ s). rewrite app_assoc, cut_at.
    + unfold parse_pair. change (bs "q=" ++ ?s) with (bs "q" ++ x3d :: s).
      change (bs "page=" ++ ?s) with (bs "page" ++ x3d :: s). rewrite !cut_at by set_solver.
      by rewrite !QueryUnescape_process_url.
    + rewrite elem_of_app. intros [H|H]; [set_unfold; naive_solver|by apply process_url_no_amp in H].
  - vm_compute. reflexivity.
  - reflexivity.
  - rewrite (page_number_of _ page); [lia|done|done].
Qed.

(** A link of the template, shown under a condition. *)
Definition page_link (has page text : bytes) (t : template) : option template :=
  match t with
  | If p (Text s1 (Action q es (Text s2 (Action n es' (Text s3 End))))) End k =>
      if decide ((p, q, n) = (mkPipe None [has] false, mkPipe None [bs "Query"] false, mkPipe None [page] false) ∧
                 (es, es') = ([urlescaper; attrescaper], [urlescaper; attrescaper]) ∧
                 (s1, s2, s3) = (go_text "<a href=`/search?q=", bs "&page=", go_text "`>" ++ text ++ bs "</a>"))
      then Some k else None
  | _ => None
  end.

(** The navigation below the results: two links. *)
Definition page_links (t : template) : bool :=
  match t with
  | If p (Text _ links) End _ =>
      bool_decide (p = mkPipe None [bs "Query"] false) &&
      match page_link (bs "HasPrev") (bs "PrevPage") (bs "← Previous") links with
      | Some (Text _ links) =>
          match page_link (bs "HasNext") (bs "NextPage") (bs "Next →") links with Some _ => true | None => false end
      | _ => false
      end
  | _ => false
  end.

#[local] Transparent Parse compile.
Lemma defaultTemplate_links :
  match compile defaultTemplate with Some t => page_links (skip_pieces 15 t) | None => false end = true.
Proof. vm_compute. reflexivity. Qed.
#[local] Opaque Parse compile.

(** A condition that holds shows its branch. *)
Lemma exec_if_true show p t k dot v out :
  exec call show (If p t End k) dot = (out, None) → eval_pipe call p dot = Ok v →
  ∃ x y, out = x ++ y ∧ exec call show (if truth v then t else End) dot = (x, None) ∧ exec call show k dot = (y, None).
Proof.
  cbn [exec]. intros H Hv. rewrite Hv in H. apply then_write_inv in H as (x & y & Hx & Hy & ->).
  exists x, y. by split_and!.
Qed.

Lemma page_link_shown has page text t k dot out query n b :
  page_link has page text t = Some k → exec call apply_escapers t dot = (out, None) →
  get_field dot (bs "Query") = Ok (GStr query) → get_field dot page = Ok (GInt n) → get_field dot has = Ok (GBool b) →
  ∃ shown rest, out = shown ++ rest ∧ exec call apply_escapers k dot = (rest, None) ∧
    shown = if b : bool then anchor (search_link query n) text else [].
Proof.
  unfold page_link. destruct t as [| | |p [|s1 [| |q es [|s2 [| |m es' [|s3 []| | |]| |]| | |]| |]| | |] [] k'|]; try done.
  case_decide as Hd; [|done]. destruct Hd as ([= -> -> ->] & [= -> ->] & [= -> -> ->]). intros [= <-] Hex Hq Hn Hb.
  apply (exec_if_true _ _ _ _ _ (GBool b)) in Hex; [|unfold eval_pipe; cbn [p_fields get_fields]; by rewrite Hb].
  destruct Hex as (x & y & -> & Hx & Hy). exists x, y. split_and!; [done..|]. destruct b; cbn [truth] in Hx.
  2: { cbn [exec] in Hx. by injection Hx. }
  cbn [exec] in Hx. unfold write_pipe, eval_pipe in Hx. cbn [p_fields p_fn get_fields] in Hx. rewrite Hq, Hn in Hx.
  cbn [mbind outcome_bind printed then_write] in Hx. rewrite !shown_in_query in Hx. cbn [fst snd] in Hx.
  injection Hx as <-. unfold anchor, search_link. rewrite app_nil_r, <- !app_assoc. reflexivity.
Qed.

Lemma pages_of_range total : is_int64 (pages_of total 20).
Proof.
  unfold pages_of, is_int64, min_int64, max_int64. pose proof (wrapS_range 64 (wrapS 64 (total + 20) - 1) eq_refl) as H.
  change (2 ^ (64 - 1)) with 9223372036854775808 in H. generalize dependent (wrapS 64 (wrapS 64 (total + 20) - 1)).
  intros z Hz. pose proof (Z.quot_rem z 20). pose proof (Z.rem_bound_abs z 20). lia.
Qed.

Lemma page_links_shown t dot out query n1 n2 b1 b2 :
  page_links t = true → exec call apply_escapers t dot = (out, None) → query ≠ [] →
  get_field dot (bs "Query") = Ok (GStr query) →
  get_field dot (bs "HasPrev") = Ok (GBool b1) → get_field dot (bs "PrevPage") = Ok (GInt n1) →
  get_field dot (bs "HasNext") = Ok (GBool b2) → get_field dot (bs "NextPage") = Ok (GInt n2) →
  ∃ s1 s2 s3 l1 l2, out = s1 ++ l1 ++ s2 ++ l2 ++ s3 ∧
    (b1 = true → l1 = anchor (search_link query n1) (bs "← Previous")) ∧
    (b2 = true → l2 = anchor (search_link query n2) (bs "Next →")).
Proof.
  intros Hl Hex Hne Hq H1 H2 H3 H4. unfold page_links in Hl. destruct t as [| | |p [|s0 t0| | |] [] k|]; try done.
  rewrite andb_true_iff, bool_decide_eq_true in Hl. destruct Hl as [-> Hl].
  destruct (page_link _ _ _ t0) as [[|s1 t1| | |]|] eqn:E1; try done.
  destruct (page_link _ _ _ t1) as [t2|] eqn:E2; try done.
  apply (exec_if_true _ _ _ _ _ (GStr query)) in Hex; [|unfold eval_pipe; cbn [p_fields get_fields]; by rewrite Hq].
  destruct Hex as (x & y & -> & Hx & _). cbn [truth] in Hx. rewrite bool_decide_true in Hx by done.
  cbn [exec] in Hx. apply then_write_inv in Hx as (x1 & z1 & [= <-] & Hx & ->).
  destruct (page_link_shown _ _ _ _ _ _ _ query n1 b1 E1 Hx) as (l1 & r1 & -> & Hr1 & L1); [done..|].
  cbn [exec] in Hr1. apply then_write_inv in Hr1 as (x1 & z2 & [= <-] & Hr1 & ->).
  destruct (page_link_shown _ _ _ _ _ _ _ query n2 b2 E2 Hr1) as (l2 & r2 & -> & _ & L2); [done..|].
  exists s0, s1, (r2 ++ y), l1, l2. split; [by rewrite <- !app_assoc|]. split; intros ->; assumption.
Qed.

(** C39: the links of a search page lead on. A page of results of a query that is not empty
    links to the previous page when it is not the first, and to the next when it is not the
    last. Whatever bytes the query has, a browser that reads the link and asks for it comes
    to the handler of the form with that query, byte for byte, and the number of the page
    before or after. *)
Theorem pagination_followed port stats query results total page :
  query ≠ [] → Forall (λ r, is_int64 (sr_Size r)) results → is_int64 page → 1 ≤ page →
  let totalPages := pages_of total 20 in
  ∃ sv out, NewServer port = Ok sv ∧
    render sv (SearchPage stats query results total page (Some (paging_of page totalPages))) = Ok out ∧
    (1 < page → ∃ pre href post,
      out = pre ++ anchor href (bs "← Previous") ++ post ∧ leads_to href query (page - 1)) ∧
    (page < totalPages → ∃ pre href post,
      out = pre ++ anchor href (bs "Next →") ++ post ∧ leads_to href query (page + 1)).
Proof.
  intros Hne Hres Hpage H1 totalPages. set (p := SearchPage stats query results total page _).
  destruct (render_inline port p Hres) as (sv & t0 & t & out & Hsv & _ & Hc & _ & Hex & Hr).
  pose proof defaultTemplate_links as Hl. change (compile defaultTemplate) with (compiled p) in Hl. rewrite Hc in Hl.
  destruct (exec_skip _ _ 15 _ _ _ Hex) as (pre & post & -> & Hp).
  destruct (page_links_shown _ (page_data p) post query (wrapS 64 (page - 1)) (wrapS 64 (page + 1))
    (1 <? page) (page <? totalPages) Hl Hp Hne) as (s1 & s2 & s3 & l1 & l2 & -> & L1 & L2); [reflexivity..|].
  exists sv, (pre ++ s1 ++ l1 ++ s2 ++ l2 ++ s3). split; [done|]. split; [exact Hr|]. clear Hr Hex Hp.
  pose proof (pages_of_range total) as Hn. fold totalPages in Hn. unfold is_int64, min_int64, max_int64 in *.
  split; intros Hlt.
  - exists (pre ++ s1), (search_link query (page - 1)), (s2 ++ l2 ++ s3). split.
    + rewrite wrapS_id in L1 by (cbn; lia). rewrite <- L1, <- app_assoc by (apply Z.ltb_lt, Hlt). reflexivity.
    + apply search_link_leads; unfold is_int64, min_int64, max_int64; lia.
  - exists (pre ++ s1 ++ l1 ++ s2), (search_link query (page + 1)), s3. split.
    + rewrite wrapS_id in L2 by (cbn; lia). rewrite <- L2, <- !app_assoc by (apply Z.ltb_lt, Hlt). reflexivity.
    + apply search_link_leads; unfold is_int64, min_int64, max_int64; lia.
Qed.

Lemma pagination_followed_witness :
  let query := bs "a&b =%<" in
  ∃ sv out pre href post, NewServer 8085 = Ok sv ∧
    render sv (SearchPage sample_stats query [] 60 2 (Some (paging_of 2 (pages_of 60 20)))) = Ok out ∧
    out = pre ++ anchor href (bs "Next →") ++ post ∧ leads_to href query 3.
Proof.
  destruct (pagination_followed 8085 sample_stats (bs "a&b =%<") [] 60 2) as (sv & out & Hs & Hr & _ & Hn);
    [done|constructor|done|done|].
  destruct (Hn eq_refl) as (pre & href & post & Ho & Hl). exists sv, out, pre, href, post. by split_and!.
Defined.

Example markup_ex : markup InText (go_text "<p class=`a`>hi<b></p>") = go_text "<p class=``><b></p>".
Proof. vm_compute. reflexivity. Qed.
