(* ===== verification/Main.v ===== *)
(** * Configuration: [cmd/crawler/main.go]

    The settings of the program: defaults, the configuration file, the flags, and the
    conversion to the crawler's configuration with [time.ParseDuration].  What [main] runs then
    is in [Program].  The YAML library
    and the file system are parameters. *)

From S2P Require Import Prelude GoStd Float Net Bencode Pool Storage Metadata Crawler.

(** ** Durations *)

Inductive duration_error := ErrDuration.

(** The digits in front; a value above 2^63 is an error. *)
Fixpoint leading_int (x : Z) (s : bytes) : outcome duration_error (Z * bytes) :=
  match s with
  | [] => Ok (x, s)
  | c :: r =>
      if negb (is_digit c) then Ok (x, s)
      else if 2 ^ 63 / 10 <? x then Err ErrDuration
      else
        let x := x * 10 + (byte_val c - 48) in
        if 2 ^ 63 <? x then Err ErrDuration else leading_int x r
  end.

(** The digits after the point, as a number and the power of ten to divide it by; digits
    that no longer fit are dropped. *)
Fixpoint leading_fraction (x scale : Z) (overflow : bool) (s : bytes) : Z * Z * bytes :=
  match s with
  | [] => (x, scale, s)
  | c :: r =>
      if negb (is_digit c) then (x, scale, s)
      else if overflow then leading_fraction x scale true r
      else if (2 ^ 63 - 1) / 10 <? x then leading_fraction x scale true r
      else
        let y := x * 10 + (byte_val c - 48) in
        if 2 ^ 63 <? y then leading_fraction x scale true r
        else leading_fraction y (scale * 10) false r
  end.

Definition unit_map : list (bytes * Z) :=
  [(bs "ns", 1); (bs "us", 1000); ([xc2; xb5; x73], 1000); ([xce; xbc; x73], 1000);
   (bs "ms", 1000000); (bs "s", seconds 1); (bs "m", seconds 60); (bs "h", seconds 3600)].

(** The text up to the next digit or point. *)
Fixpoint take_unit (s : bytes) : bytes * bytes :=
  match s with
  | [] => ([], [])
  | c :: r =>
      if bool_decide (c = x2e) || is_digit c then ([], s)
      else let (u, r) := take_unit r in (c :: u, r)
  end.

(** The number and the fraction in front of a unit: [None] without a digit. *)
Definition leading_number (s : bytes) : outcome duration_error (Z * Z * Z * bytes) :=
  '(v, r) ← leading_int 0 s;
  let pre := negb (length r =? length s)%nat in
  match r with
  | x2e :: r' =>
      let '(f, scale, r'') := leading_fraction 0 1 false r' in
      if pre || negb (length r'' =? length r')%nat then Ok (v, f, scale, r'') else Err ErrDuration
  | _ => if pre then Ok (v, 0, 1, r) else Err ErrDuration
  end.

Fixpoint duration_loop (fuel : nat) (d : Z) (s : bytes) : outcome duration_error Z :=
  match s with
  | [] => Ok d
  | c :: _ =>
      match fuel with
      | O => NoFuel
      | S fuel =>
          if negb (bool_decide (c = x2e) || is_digit c) then Err ErrDuration
          else
            '(v, f, scale, r) ← leading_number s;
            let (u, r) := take_unit r in
            match dict_lookup u unit_map with
            | None => Err ErrDuration
            | Some unit =>
                if 2 ^ 63 / unit <? v then Err ErrDuration
                else
                  let v := v * unit in
                  let v := if 0 <? f then v + f_trunc (f_mul (of_int f) (f_div (of_int unit) (of_int scale))) else v in
                  if 2 ^ 63 <? v then Err ErrDuration
                  else
                    let d := wrapU 64 (d + v) in
                    if 2 ^ 63 <? d then Err ErrDuration else duration_loop fuel d r
            end
      end
  end.

(** [time.ParseDuration], in nanoseconds. *)
Definition ParseDuration (s : bytes) : outcome duration_error Z :=
  let neg := bool_decide (head s = Some x2d) in
  let r := if neg || bool_decide (head s = Some x2b) then tail s else s in
  if decide (r = bs "0") then Ok 0
  else if decide (r = []) then Err ErrDuration
  else
    d ← duration_loop (length r) 0 r;
    if neg then Ok (wrapS 64 (- d))
    else if 2 ^ 63 - 1 <? d then Err ErrDuration else Ok d.

Example ParseDuration_ex : ParseDuration (bs "1h15m30.918s") = Ok (4530918 * 1000000).
Proof. vm_compute. reflexivity. Qed.
Example ParseDuration_fraction : ParseDuration (bs "0.3333333333333333333h") = Ok (seconds 1200).
Proof. vm_compute. reflexivity. Qed.
Example ParseDuration_errors :
  ParseDuration <$> [bs ""; bs "3"; bs "-"; bs ".s"; bs "1x"; bs "9223372036854775808ns"] = replicate 6 (Err ErrDuration).
Proof. vm_compute. reflexivity. Qed.
Example ParseDuration_min : ParseDuration (bs "-9223372036854775808ns") = Ok min_int64.
Proof. vm_compute. reflexivity. Qed.

(** ** Settings *)

Record DHTConfig := mkDHTConfig { dht_NodeCount : Z; dht_StartPort : Z; dht_Bootstraps : list bytes }.
Record CacheConfig := mkCacheConfig { cache_MaxSize : Z; cache_FlushInterval : bytes }.
Record DownloadConfig := mkDownloadConfig { dl_Workers : Z; dl_PerWorker : Z; dl_Timeout : bytes }.
Record StorageConfig := mkStorageConfig { storage_Path : bytes }.
Record WebConfig := mkWebConfig { web_Port : Z; web_Enabled : bool }.

Record Config := mkMainConfig {
  m_DHT : DHTConfig;
  m_Cache : CacheConfig;
  m_Download : DownloadConfig;
  m_Storage : StorageConfig;
  m_Web : WebConfig;
}.

Definition defaultConfig : Config :=
  mkMainConfig (mkDHTConfig 50 6881 default_bootstraps) (mkCacheConfig 1000 (bs "30s"))
    (mkDownloadConfig 4 100 (bs "30s")) (mkStorageConfig (bs "crawler.db")) (mkWebConfig 8085 true).

(** A duration that does not parse counts as 30 seconds. *)
Definition duration_or_default (s : bytes) : Z :=
  match ParseDuration s with Ok d => d | _ => seconds 30 end.

Definition toCrawlerConfig (cfg : Config) : Crawler.Config :=
  mkConfig (dht_NodeCount (m_DHT cfg)) (dht_StartPort (m_DHT cfg)) (dht_Bootstraps (m_DHT cfg))
    (cache_MaxSize (m_Cache cfg)) (duration_or_default (cache_FlushInterval (m_Cache cfg)))
    (dl_Workers (m_Download cfg)) (dl_PerWorker (m_Download cfg))
    (duration_or_default (dl_Timeout (m_Download cfg)))
    (storage_Path (m_Storage cfg)) (web_Port (m_Web cfg)) (web_Enabled (m_Web cfg)).

Record flags := mkFlags {
  fl_config : bytes;
  fl_nodes : Z;
  fl_port : Z;
  fl_web : Z;
  fl_db : bytes;
  fl_workers : Z;
  fl_no_web : bool;
}.

Definition no_flags : flags := mkFlags [] 0 0 0 [] 0 false.

(** The overrides, in [main]'s order. *)
Definition apply_flags (fl : flags) (cfg : Config) : Config :=
  let dht := m_DHT cfg in
  let dl := m_Download cfg in
  let web := m_Web cfg in
  mkMainConfig
    (mkDHTConfig (if 0 <? fl_nodes fl then fl_nodes fl else dht_NodeCount dht)
       (if 0 <? fl_port fl then fl_port fl else dht_StartPort dht) (dht_Bootstraps dht))
    (m_Cache cfg)
    (mkDownloadConfig (if 0 <? fl_workers fl then fl_workers fl else dl_Workers dl) (dl_PerWorker dl) (dl_Timeout dl))
    (if decide (fl_db fl = []) then m_Storage cfg else mkStorageConfig (fl_db fl))
    (mkWebConfig (if 0 <? fl_web fl then fl_web fl else web_Port web)
       (if fl_no_web fl then false else web_Enabled web)).

Section main.
(** [os.ReadFile], and [yaml.Unmarshal]: what it makes of a configuration, and whether it
    succeeds. *)
Context (read_file : bytes → option bytes) (unmarshal : bytes → Config → Config * bool).

Definition loadConfig (path : bytes) (cfg : Config) : Config * bool :=
  match read_file path with
  | None => (cfg, false)
  | Some data => unmarshal data cfg
  end.

(** [None] is [log.Fatalf]; the failure of the default file is ignored. *)
Definition configure (fl : flags) : option Config :=
  if decide (fl_config fl = []) then Some (apply_flags fl (loadConfig (bs "config.yaml") defaultConfig).1)
  else
    match loadConfig (fl_config fl) defaultConfig with
    | (cfg, true) => Some (apply_flags fl cfg)
    | (_, false) => None
    end.

Section start.
Context (store : bytes → option Storage) (rand_ids : NodeID.rand_source) (secret : nat → bytes)
  (rnd : nat → nat → bytes) (dials : bytes → nat → option Conn) (now : Z).

(** [main] up to the crawler it makes: [None] is [log.Fatalf]. *)
Definition main_crawler (fl : flags) : outcome crawler_error (option Crawler) :=
  match configure fl with
  | None => Ok None
  | Some cfg =>
      let crawlerCfg := toCrawlerConfig cfg in
      match New (store (cfg_DBPath crawlerCfg)) rand_ids secret rnd dials now crawlerCfg with
      | Ok c => Ok (Some c)
      | Err _ => Ok None
      | Panic p => Panic p
      | NoFuel => NoFuel
      end
  end.
End start.
End main.
