(* ===== verification/MainSpec.v ===== *)
(** * The configuration is read as written *)

From S2P Require Import Prelude GoStd Float Net Bencode Conc NodeID Node Pool Storage Cache Queue Worker Crawler Main.

(** ** Durations *)

(** A text of whole numbers with units, and the nanoseconds it stands for. *)
Definition text_of (terms : list (Z * bytes)) : bytes := concat ((λ t, fmt_u t.1 ++ t.2) <$> terms).
Definition unit_of (u : bytes) : Z := default 0 (dict_lookup u unit_map).
Definition value_of (terms : list (Z * bytes)) : Z := foldr (λ t n, t.1 * unit_of t.2 + n) 0 terms.
Definition wf_terms (terms : list (Z * bytes)) : Prop :=
  Forall (λ t, 0 ≤ t.1 ∧ is_Some (dict_lookup t.2 unit_map)) terms.

(** Not a digit and not the point. *)
Definition letter (c : byte) : Prop := bool_decide (c = x2e) || is_digit c = false.
(** What follows a unit: the end, or the next number. *)
Definition ended (s : bytes) : Prop := match s with [] => True | c :: _ => is_digit c = true end.

Lemma unit_map_spec u unit :
  dict_lookup u unit_map = Some unit → u ≠ [] ∧ Forall letter u ∧ 0 < unit.
Proof.
  unfold unit_map. cbn [dict_lookup].
  repeat case_decide; intros [= <-]; subst u; (split; [done|split; [by repeat constructor|done]]).
Qed.

Lemma leading_int_digits x s r :
  0 ≤ x → Forall is_digit s → dec_val x s ≤ 2 ^ 63 → (match r with [] => True | c :: _ => is_digit c = false end) →
  leading_int x (s ++ r) = Ok (dec_val x s, r).
Proof.
  intros Hx Hs Hv Hr. revert x Hx Hv. induction Hs as [|c s Hc Hs IH]; intros x Hx Hv.
  - destruct r as [|c r]; [done|]. cbn. by rewrite Hr.
  - cbn [app leading_int]. rewrite Is_true_true in Hc. rewrite Hc. cbn [negb].
    apply is_digit_spec in Hc. change (dec_val x (c :: s)) with (dec_val (x * 10 + (byte_val c - 48)) s) in *.
    pose proof (dec_val_mono (x * 10 + (byte_val c - 48)) s ltac:(lia) Hs) as Hm.
    change (2 ^ 63 / 10) with 922337203685477580. destruct (Z.ltb_spec 922337203685477580 x); [lia|].
    destruct (Z.ltb_spec (2 ^ 63) (x * 10 + (byte_val c - 48))); [lia|]. apply IH; lia.
Qed.

Lemma take_unit_letters u r : Forall letter u → ended r → take_unit (u ++ r) = (u, r).
Proof.
  intros Hu Hr. induction Hu as [|c u Hc Hu IH].
  - destruct r as [|c r]; [done|]. cbn in *. by rewrite Hr, orb_true_r.
  - cbn [app take_unit]. unfold letter in Hc. by rewrite Hc, IH.
Qed.

Lemma fmt_u_head n : 0 ≤ n → ∃ c s, fmt_u n = c :: s ∧ is_digit c = true.
Proof.
  intros Hn. destruct (fmt_u_cons n) as (c & s & E). exists c, s. split; [done|].
  destruct (fmt_u_spec n Hn) as [_ Hd]. rewrite E in Hd. apply Forall_cons_1 in Hd as [Hc _]. by apply Is_true_true.
Qed.

Lemma text_of_cons n u terms : text_of ((n, u) :: terms) = fmt_u n ++ u ++ text_of terms.
Proof. unfold text_of. cbn [fmap list_fmap concat fst snd]. by rewrite <- app_assoc. Qed.

Lemma ended_text terms : wf_terms terms → ended (text_of terms).
Proof.
  intros Hw. destruct terms as [|[n u] terms]; [done|]. apply Forall_cons_1 in Hw as [[Hn _] _].
  rewrite text_of_cons. destruct (fmt_u_head n Hn) as (c & s & -> & Hc). exact Hc.
Qed.

Lemma value_of_cons n u terms unit :
  dict_lookup u unit_map = Some unit → value_of ((n, u) :: terms) = n * unit + value_of terms.
Proof. intros Hu. change (value_of ((n, u) :: terms)) with (n * unit_of u + value_of terms). unfold unit_of. by rewrite Hu. Qed.

Lemma value_of_nonneg terms : wf_terms terms → 0 ≤ value_of terms.
Proof.
  induction 1 as [|[n u] terms [Hn [unit Hu]] _ IH]; [done|]. cbn [fst snd] in *.
  rewrite (value_of_cons _ _ _ unit Hu). pose proof (unit_map_spec u unit Hu) as (_ & _ & Hp).
  pose proof (Z.mul_nonneg_nonneg n unit). lia.
Qed.

(** One number and its unit. *)
Lemma leading_number_digits n s :
  0 ≤ n ≤ 2 ^ 63 → (match s with [] => True | c :: _ => letter c end) →
  leading_number (fmt_u n ++ s) = Ok (n, 0, 1, s).
Proof.
  intros Hn Hs. destruct (fmt_u_spec n ltac:(lia)) as [Hv Hd]. unfold leading_number, letter in *.
  rewrite leading_int_digits; [|done|done|lia|].
  - rewrite Hv. cbn [mbind outcome_bind]. destruct (fmt_u_cons n) as (c & t & E). rewrite length_app, E.
    destruct (Nat.eqb_spec (length s) (length (c :: t) + length s)) as [Hl|_]; [cbn in Hl; lia|]. cbn [negb].
    destruct s as [|b s]; [done|]. apply orb_false_iff in Hs as [Hb _]. apply bool_decide_eq_false in Hb.
    by destruct b.
  - destruct s as [|b s]; [done|]. by apply orb_false_iff in Hs as [_ Hb].
Qed.

Lemma duration_loop_terms terms fuel d :
  wf_terms terms → (length (text_of terms) ≤ fuel)%nat → 0 ≤ d → d + value_of terms ≤ 2 ^ 63 →
  duration_loop fuel d (text_of terms) = Ok (d + value_of terms).
Proof.
  intros Hw. revert fuel d. induction terms as [|[n u] terms IH]; intros fuel d Hf Hd Hv.
  { cbn. destruct fuel; cbn; by rewrite Z.add_0_r. }
  pose proof (value_of_nonneg terms) as Hvt. apply Forall_cons_1 in Hw as [[Hn [unit Hu]] Hw]. cbn [fst snd] in *.
  specialize (Hvt Hw). pose proof (unit_map_spec u unit Hu) as (Hne & Hul & Hp).
  rewrite (value_of_cons _ _ _ unit Hu) in *. assert (n ≤ n * unit) by nia.
  rewrite text_of_cons in *. destruct (fmt_u_head n Hn) as (c & s & E & Hc).
  destruct fuel as [|fuel]; [rewrite E in Hf; cbn in Hf; lia|].
  assert (∃ c s, fmt_u n ++ u ++ text_of terms = c :: s ∧ bool_decide (c = x2e) || is_digit c = true) as (c0 & s0 & E0 & Hc0).
  { rewrite E. eexists _, _. split; [done|]. by rewrite Hc, orb_true_r. }
  rewrite E0. cbn [duration_loop]. rewrite <- E0, Hc0. cbn [negb].
  rewrite leading_number_digits; [|lia|destruct u; [done|by apply Forall_cons_1 in Hul as [Hul _]]].
  cbn [mbind outcome_bind]. rewrite take_unit_letters by (done || by apply ended_text). rewrite Hu.
  assert (n ≤ 2 ^ 63 / unit) by (apply Z.div_le_lower_bound; lia).
  destruct (Z.ltb_spec (2 ^ 63 / unit) n); [lia|]. change (0 <? 0) with false. cbv match.
  destruct (Z.ltb_spec (2 ^ 63) (n * unit)); [lia|]. rewrite wrapU_id by lia.
  destruct (Z.ltb_spec (2 ^ 63) (d + n * unit)); [lia|]. rewrite IH; [f_equal; lia|done| |lia|lia].
  rewrite E in Hf. cbn in Hf. rewrite !length_app in Hf. lia.
Qed.

Lemma ParseDuration_terms terms :
  terms ≠ [] → wf_terms terms → value_of terms ≤ max_int64 → ParseDuration (text_of terms) = Ok (value_of terms).
Proof.
  unfold max_int64. intros Hne Hw Hv. destruct terms as [|[n u] terms]; [done|].
  pose proof (value_of_nonneg _ Hw) as Hpos. pose proof Hw as [[Hn [unit Hu]] _]%Forall_cons_1. cbn [fst snd] in *.
  destruct (fmt_u_head n Hn) as (c & s & E & Hc). unfold ParseDuration.
  assert (∃ s, text_of ((n, u) :: terms) = c :: s) as [s' E'] by (rewrite text_of_cons, E; by eexists).
  pose proof (digit_not_sign c Hc) as [H1 H2]. rewrite E' in *. cbn [head tail].
  rewrite !bool_decide_eq_false_2 by congruence. cbn [orb]. rewrite <- E'.
  rewrite (decide_False (P := _ = [])) by (by rewrite E').
  rewrite decide_False.
  - rewrite duration_loop_terms by (done || lia). cbn [mbind outcome_bind].
    by destruct (Z.ltb_spec (2 ^ 63 - 1) (0 + value_of ((n, u) :: terms))); [lia|].
  - rewrite text_of_cons. intros Hz%(f_equal length). rewrite !length_app, E in Hz. cbn in Hz.
    pose proof (unit_map_spec u unit Hu) as (Hue & _). destruct u; [done|]. cbn in Hz. lia.
Qed.

(** ** The crawler [main] makes *)

Section main_spec.
Context (read_file : bytes → option bytes) (unmarshal : bytes → Main.Config → Main.Config * bool).
Context (store : bytes → option Storage) (rand_ids : rand_source) (secret : nat → bytes)
  (rnd : nat → nat → bytes) (dials : bytes → nat → option Metadata.Conn) (now : Z).

Abbreviation start := (main_crawler read_file unmarshal store rand_ids secret rnd dials now).

(** What the configuration file makes of the defaults; the file can be missing or broken
    only where no path was given. *)
Definition file_settings (fl : flags) (base : Main.Config) : Prop :=
  if decide (fl_config fl = []) then (loadConfig read_file unmarshal (bs "config.yaml") defaultConfig).1 = base
  else loadConfig read_file unmarshal (fl_config fl) defaultConfig = (base, true).

Lemma configure_file fl base :
  file_settings fl base → configure read_file unmarshal fl = Some (apply_flags fl base).
Proof.
  unfold file_settings, configure. case_decide; [by intros ->|]. by intros ->.
Qed.

(** The overrides and the conversion, setting by setting. *)
Lemma crawler_settings fl base timeout interval :
  dl_Timeout (m_Download base) = text_of timeout → timeout ≠ [] → wf_terms timeout → value_of timeout ≤ max_int64 →
  cache_FlushInterval (m_Cache base) = text_of interval → interval ≠ [] → wf_terms interval →
  value_of interval ≤ max_int64 →
  toCrawlerConfig (apply_flags fl base) =
    mkConfig (if 0 <? fl_nodes fl then fl_nodes fl else dht_NodeCount (m_DHT base))
      (if 0 <? fl_port fl then fl_port fl else dht_StartPort (m_DHT base)) (dht_Bootstraps (m_DHT base))
      (cache_MaxSize (m_Cache base)) (value_of interval)
      (if 0 <? fl_workers fl then fl_workers fl else dl_Workers (m_Download base)) (dl_PerWorker (m_Download base))
      (value_of timeout) (if decide (fl_db fl = []) then storage_Path (m_Storage base) else fl_db fl)
      (if 0 <? fl_web fl then fl_web fl else web_Port (m_Web base)) (negb (fl_no_web fl) && web_Enabled (m_Web base)).
Proof.
  intros Hto Hne Hwf Hval Hin Hine Hiwf Hival. unfold toCrawlerConfig, apply_flags. cbn.
  unfold duration_or_default. rewrite Hto, Hin, !ParseDuration_terms by done.
  f_equal; [by case_decide|by destruct (fl_no_web fl)].
Qed.

(** C37: the program starts with the settings it is given. A flag that is set to a positive
    number, or to a text that is not empty, counts, and the file's setting, or else the
    default, where it is not; [-no-web] switches the web server off. With a database that
    opens, for a positive number of nodes whose ports are numbers of an [int], and workers
    that are not negative and fit in memory, [main] makes a crawler with that many nodes
    with distinct identifiers on consecutive ports, an empty cache, an empty queue for
    twice the concurrent downloads, and workers whose timeout is the duration that is
    written; its configuration has the web server's port and switch, the bootstrap nodes
    and the flush interval. With a negative number of workers it panics, and with a
    configuration file that is named and cannot be loaded it ends. *)
Theorem main_crawler_correct fl base s timeout interval :
  let nodes := if 0 <? fl_nodes fl then fl_nodes fl else dht_NodeCount (m_DHT base) in
  let port := if 0 <? fl_port fl then fl_port fl else dht_StartPort (m_DHT base) in
  let workers := if 0 <? fl_workers fl then fl_workers fl else dl_Workers (m_Download base) in
  let perWorker := dl_PerWorker (m_Download base) in
  let path := if decide (fl_db fl = []) then storage_Path (m_Storage base) else fl_db fl in
  let webPort := if 0 <? fl_web fl then fl_web fl else web_Port (m_Web base) in
  file_settings fl base →
  store path = Some s →
  (∀ i, ∃ r, rand_ids i = Ok r ∧ 0 ≤ r < 2 ^ 160 / nodes) →
  0 < nodes → nodes * 64000 ≤ maxAlloc → 0 ≤ port → port + nodes ≤ 2 ^ 63 →
  0 ≤ perWorker → workers * perWorker * 128 ≤ maxAlloc → - 2 ^ 62 ≤ workers * perWorker →
  dl_Timeout (m_Download base) = text_of timeout → timeout ≠ [] → wf_terms timeout → value_of timeout ≤ max_int64 →
  cache_FlushInterval (m_Cache base) = text_of interval → interval ≠ [] → wf_terms interval →
  value_of interval ≤ max_int64 →
  (0 ≤ workers * perWorker →
   ∃ c, start fl = Ok (Some c) ∧
     let w := c_workers c in
     (Z.of_nat (length (p_nodes (ww_pool w))) = nodes ∧ NoDup (n_ID ∘ w_node <$> p_nodes (ww_pool w)) ∧
      ∀ i x, p_nodes (ww_pool w) !! i = Some x → n_Port (w_node x) = port + Z.of_nat i) ∧
     ww_queue w = mkDownloadQueue false [] (workers * perWorker * 2) ∅ ∧
     ww_workers w = mkWorkerPool workers perWorker (Metadata.NewMetadataDownloader (value_of timeout))
                      (make_chan (workers * perWorker)) 0 0 0 ∧
     c_cache c = NewHashCache (cache_MaxSize (m_Cache base)) ∧ ww_db w = s ∧
     c_config c = mkConfig nodes port (dht_Bootstraps (m_DHT base)) (cache_MaxSize (m_Cache base)) (value_of interval)
                    workers perWorker (value_of timeout) path webPort
                    (negb (fl_no_web fl) && web_Enabled (m_Web base))) ∧
  (workers * perWorker < 0 → start fl = Panic PanicMakeSlice) ∧
  (∀ fl', fl_config fl' ≠ [] → (loadConfig read_file unmarshal (fl_config fl') defaultConfig).2 = false →
     start fl' = Ok None).
Proof.
  intros nodes port workers perWorker path webPort Hfile Hs Hr Hn Hmem Hp1 Hp2 HP Hfit Hlow
    Hto Hne Hwf Hval Hin Hine Hiwf Hival.
  pose proof (crawler_settings fl base timeout interval Hto Hne Hwf Hval Hin Hine Hiwf Hival) as Hcfg.
  destruct (NewPool_correct rand_ids secret rnd now nodes port (dht_Bootstraps (m_DHT base)) Hr Hn Hmem Hp1 Hp2)
    as (p & Hpool & Hlen & Hids & _ & Hports).
  split; [|split]; [..|intros fl' Hc Hl; unfold main_crawler, configure; rewrite decide_False by done;
    by destruct (loadConfig _ _ _ _) as [? []]];
    unfold main_crawler; rewrite (configure_file fl base Hfile), Hcfg; fold nodes port workers perWorker path webPort;
    unfold New; cbn [cfg_DBPath cfg_NodeCount cfg_StartPort cfg_Bootstraps cfg_CacheMaxSize
      cfg_DownloadWorkers cfg_DownloadPerWorker cfg_DownloadTimeout];
    rewrite Hs, Hpool; cbn [map_err mbind outcome_bind];
    unfold maxAlloc in *; rewrite (wrapS_id 64 (workers * perWorker)) by lia; rewrite wrapS_id by lia;
    unfold NewDownloadQueue, NewWorkerPool, maxAlloc, item_size, job_size.
  - intros Hpos. destruct (Z.ltb_spec (workers * perWorker * 2) 0); [lia|].
    destruct (Z.ltb_spec (2 ^ 48) (workers * perWorker * 2 * 64)); [lia|]. cbn [orb map_err mbind outcome_bind].
    rewrite wrapS_id by lia. destruct (Z.ltb_spec (workers * perWorker) 0); [lia|].
    destruct (Z.ltb_spec (2 ^ 48) (workers * perWorker * 32)); [lia|]. cbn [orb map_err mbind outcome_bind].
    eexists. split; [done|]. cbn. split_and!; try done. intros i x Hx. by destruct (Hports i x Hx).
  - intros Hneg. destruct (Z.ltb_spec (workers * perWorker * 2) 0); [done|lia].
Qed.
End main_spec.

(** Flags over the defaults, without a file. *)
Definition sample_flags : flags := mkFlags [] 3 7000 0 (bs "x.db") 2 true.

Lemma main_crawler_correct_witness :
  ∃ c, main_crawler (λ _, None) (λ _ cfg, (cfg, true))
         (λ path, if decide (path = bs "x.db") then Some (mkStorage ∅ ∅ false true) else None) (λ _, Ok 0) (λ _, [])
         (λ _ _, []) (λ _ _, None) 0 sample_flags = Ok (Some c) ∧
    Z.of_nat (length (p_nodes (ww_pool (c_workers c)))) = 3 ∧
    ww_queue (c_workers c) = mkDownloadQueue false [] 400 ∅ ∧
    wp_downloader (ww_workers (c_workers c)) = Metadata.NewMetadataDownloader (seconds 30) ∧
    c_config c = mkConfig 3 7000 default_bootstraps 1000 (seconds 30) 2 100 (seconds 30) (bs "x.db") 8085 false.
Proof.
  destruct (main_crawler_correct (λ _, None) (λ _ cfg, (cfg, true))
    (λ path, if decide (path = bs "x.db") then Some (mkStorage ∅ ∅ false true) else None) (λ _, Ok 0)
    (λ _, []) (λ _ _, []) (λ _ _, None) 0 sample_flags defaultConfig (mkStorage ∅ ∅ false true)
    [(30, bs "s")] [(30, bs "s")]) as (H & _ & _);
    [reflexivity|reflexivity| |vm_compute; (reflexivity || discriminate)..| | | | | | | |].
  - intros i. exists 0. split; [reflexivity|]. split; [lia|vm_compute; reflexivity].
  - discriminate.
  - constructor; [|constructor]. split; [vm_compute; discriminate|]. eexists. reflexivity.
  - vm_compute. discriminate.
  - reflexivity.
  - discriminate.
  - constructor; [|constructor]. split; [vm_compute; discriminate|]. eexists. reflexivity.
  - vm_compute. discriminate.
  - destruct H as (c & Hc & (Hn & _ & _) & Hq & Hw & _ & _ & Hcfg); [vm_compute; discriminate|].
    exists c. split; [exact Hc|]. split; [exact Hn|]. split; [exact Hq|]. split; [rewrite Hw; reflexivity|exact Hcfg].
Defined.
