(* ===== verification/Program.v ===== *)
(** * The whole program: [main] of [cmd/crawler/main.go]

    The signal handler, the web server with a goroutine for each request, and [Run]'s event
    loop, flusher, workers and statistics, in one pool of goroutines.  This file gives for
    each of them what it owes, over nodes that run.  It keeps two accounts at once: that of
    WorkerSpec.v (who has a hash, a connection, a token) and that of Shutdown.v (who has the
    mutex, the channel, a place in the wait group). *)

From stdpp Require Import gmultiset.
From S2P Require Import Prelude GoStd Net Conc Credit Progress Accounts Bencode NodeID Krpc Node NodeSpec Pool Quits PoolStart Metadata MetadataSpec.
From S2P Require Import Storage Cache Queue Worker WorkerSpec Shutdown Crawler CrawlerSpec Web Template Pages Main.

#[local] Arguments disj_union : simpl never.
#[local] Arguments gmultiset_disj_union : simpl never.
#[local] Arguments multiplicity : simpl never.

(** ** The goroutines *)

Section program.
Context `{Engine}.
(** The requests that arrive, and the failures of the database calls of each. *)
Context (requests : list request) (fails : request → nat → faults).

(** [cancel], the function that ends the context. *)
Definition cancel_context (c : Crawler) : Crawler :=
  let w := c_workers c in set_world (set_env true (ww_wg w) (ww_now w) w) c.

(** [sig := <-sigChan; cancel()]: a signal can arrive at any time. *)
Definition signals : prog Crawler unit := Select (λ c, [Ok (tt, cancel_context c)]) Ret.

(** [ListenAndServe] of the web server: [net/http] runs the handler of a request in a
    goroutine of its own.  When the context has ended, [Shutdown] makes it return. *)
Fixpoint listen (requests : list request) : prog Crawler unit :=
  match requests with
  | [] => Ret tt
  | r :: requests =>
      open ← Select (λ c, Ok (true, c) :: if ww_done (c_workers c) then [Ok (false, c)] else []) Ret;
      if open : bool then _ ← go (_ ← serve (fails r) r; Ret tt); listen requests else Ret tt
  end.

(** [main] after [crawler.New]: it ends with [Run], whose error is only logged.  The server's
    templates are of no account here: what a handler writes is not part of the state. *)
Definition main_run (resolve : bytes → option udp_addr) (can_listen : Z → bool)
  (reads : nat → list (option (bytes * udp_addr))) (ticks : nat → list tick) (rotations stat_ticks flushes prints : nat)
  : prog Crawler unit :=
  _ ← go signals;
  enabled ← gets (λ c, cfg_WebEnabled (c_config c));
  _ ← (if enabled : bool
       then _ ← checked (λ c, NewServer (cfg_WebPort (c_config c))); go (listen requests)
       else Ret tt);
  _ ← Run resolve can_listen reads ticks rotations stat_ticks flushes prints;
  Ret tt.

(** The whole of [main]: [None] is [log.Fatalf]. *)
Definition main (read_file : bytes → option bytes) (unmarshal : bytes → Main.Config → Main.Config * bool)
  (store : bytes → option Storage) (rand_ids : rand_source) (secret : nat → bytes) (rnd : nat → nat → bytes)
  (dials : bytes → nat → option Conn) (now : Z) (resolve : bytes → option udp_addr) (can_listen : Z → bool)
  (reads : nat → list (option (bytes * udp_addr))) (ticks : nat → list tick) (rotations stat_ticks flushes prints : nat)
  (fl : flags) : outcome crawler_error (option (config Crawler)) :=
  made ← main_crawler read_file unmarshal store rand_ids secret rnd dials now fl;
  Ok match made with
     | Some c => Some (c, [main_run resolve can_listen reads ticks rotations stat_ticks flushes prints])
     | None => None
     end.
End program.

(** ** What they hold *)

(** While the context runs a goroutine may wait anywhere, after that wherever it does not
    hold the mutex. *)
Definition patient (m : held) (w : Workers) : Prop := ww_done w = false ∨ m.1.1.1 = 0%nat.

Lemma mutex_patient m w : waits_mutex m w → patient m w.
Proof. intros [? _]. by right. Qed.

Lemma waits_patient m w : waits m w → patient m w.
Proof. intros [?|[? _]]; [by left|by right]. Qed.

Section run.
Context `{Engine} (n : nat) (numWorkers perWorker : Z) (perWorker_pos : 0 ≤ perWorker) (n_pos : (0 < n)%nat).
(** The hash whose downloads are counted. *)
Context (h : bytes).

Abbreviation account := (units * held)%type.

Definition run_inv (m : account) (c : Crawler) : Prop :=
  crawler_inv h n numWorkers perWorker m.1 c ∧ stop_inv m.2 (c_workers c).

Definition gone (m : account) : Prop := any_units m.1 ∧ empty_handed m.2.

Abbreviation runs e p r Q := (owes run_inv worker_panic (λ m c, e (snd m) (c_workers c)) gone p r Q).
(** Nothing is held before or after. *)
Abbreviation idle e p := (runs e p (u_none : account) (λ _ r', r' = u_none)).

Lemma idle_patient {A : Type} e (p : prog Crawler A) : (∀ m w, e m w → patient m w) → idle e p → idle patient p.
Proof. intros He. apply owes_excuse. intros m c. apply He. Qed.

Lemma idle_bind {A B : Type} e (p : prog Crawler A) (f : A → prog Crawler B) :
  idle e p → (∀ a, idle e (f a)) → idle e (p ≫= f).
Proof. intros Hp Hf. eapply owes_bind; [exact Hp|]. by intros a ? ->. Qed.

(** The two accounts of a part. *)
Lemma idle_both {A : Type} e (p : prog Crawler A) :
  owes (crawler_inv h n numWorkers perWorker) worker_panic (λ _ _, True) any_units p u_none (λ _ r', r' = u_none) →
  keeps (λ m c, stop_inv m (c_workers c)) (λ m c, e m (c_workers c)) empty_handed p u_none (λ _ r', r' = u_none) →
  idle e p.
Proof.
  intros H1 H2. eapply owes_excuse; [|eapply owes_mono; [exact (owes_both _ _ _ _ _ _ _ _ _ _ _ _ H1 H2)|]].
  - by intros m c [_ He].
  - intros _ [r1 r2] [H3 H4]. cbn in H3, H4. by subst.
Qed.

Lemma idle_in_workers {A : Type} e (p : prog Workers A) :
  owes (workers_inv h n numWorkers perWorker) worker_panic (λ _ _, True) any_units p u_none (λ _ r', r' = u_none) →
  keeps stop_inv e empty_handed p u_none (λ _ r', r' = u_none) → idle e (in_workers p).
Proof. intros H1 H2. apply idle_both; [by apply crawls_in_workers|by apply keeps_lift]. Qed.

(** ** The pieces *)

Lemma idle_gets {A : Type} e (f : Crawler → A) : idle e (gets f).
Proof. by apply owes_gets. Qed.

Lemma idle_modify e (f : Crawler → Crawler) : (∀ c, c_workers (f c) = c_workers c) → idle e (modify f).
Proof. intros Hf. eapply owes_modify; [|done]. unfold run_inv, crawler_inv. intros c o. by rewrite Hf. Qed.

Lemma idle_Submit x addr : idle waits_mutex (in_workers (Submit x addr)).
Proof.
  apply idle_in_workers; [apply works_Submit|].
  eapply keeps_owes; [|apply mutex_in_queue, locks_Add]. done.
Qed.

Lemma idle_in_cache {A : Type} (p : prog CacheWorld A) :
  prog_ok (λ _, True) (λ _, False) p (λ _, True) → idle (λ m _, m.1.1.1 = 0%nat) (in_cache p).
Proof.
  intros Hp. apply idle_both; [by apply crawls_in_cache|]. apply keeps_apart; [done| |done..].
  intros m c s. by apply same_resources_inv.
Qed.

Lemma idle_ready {A : Type} e (p : prog CacheWorld A) :
  never_waits p → prog_ok (λ _, True) (λ _, False) p (λ _, True) → idle e (in_cache p).
Proof.
  intros Hw Hp. apply owes_ready; [by apply never_waits_lift|]. eapply owes_excuse; [|by apply idle_in_cache]. done.
Qed.

(** A part of the worker pool whose waits are those of the pool. *)
Lemma idle_stops {A : Type} (p : prog Workers A) :
  owes (workers_inv h n numWorkers perWorker) worker_panic (λ _ _, True) any_units p u_none (λ _ r', r' = u_none) →
  owes stop_inv (λ _, True) waits empty_handed p u_none (λ _ r', r' = u_none) → idle patient (in_workers p).
Proof. intros H1 H2. apply idle_in_workers; [done|]. eapply keeps_owes, H2. apply waits_patient. Qed.

Lemma idle_FindPeers infoHash : is_id infoHash → idle patient (in_workers (dht_FindPeers infoHash)).
Proof.
  intros Hid. apply idle_in_workers; [by apply works_FindPeers|]. unfold dht_FindPeers.
  eapply keeps_bind; [eapply keeps_owes, (stops_update new_search u_none); [apply waits_patient|done]|].
  intros i ? ->. apply keeps_apart; [done| |by right..]. intros m w s. by apply same_resources_inv.
Qed.

Lemma idle_submit_peers x k peers : idle patient (submit_peers x k peers).
Proof.
  revert k. induction peers as [|peer peers IH]; intros k; [done|]. cbn [submit_peers].
  apply idle_bind; [eapply idle_patient, idle_Submit; apply mutex_patient|]. intros []; [|apply IH].
  destruct (3 <=? S k)%nat; [done|apply IH].
Qed.

Lemma idle_search infoHash x : is_id infoHash → idle patient (searchAndDownload infoHash x).
Proof.
  intros Hid. unfold searchAndDownload. apply idle_bind.
  { apply owes_update. intros c o HI. exists u_none. split; [|done]. unfold take_search. by destruct (c_limiter c). }
  intros ok. destruct (negb ok); [done|]. apply idle_bind.
  - apply idle_bind; [apply idle_stops; [apply works_db_TorrentExists|apply stops_db_TorrentExists]|].
    intros found. destruct (default false found); [done|].
    apply idle_bind; [by apply idle_FindPeers|]. intros peers. apply idle_bind; [|intros _; apply idle_submit_peers].
    destruct (0 <? length peers)%nat; [apply idle_stops; [apply works_log_hash|apply stops_log_hash]|done].
  - intros _. apply owes_select; [by right|]. intros c o res HI Ho.
    destruct (c_limiter c <? 10)%nat; [|by apply elem_of_nil in Ho]. apply list_elem_of_singleton in Ho as ->. by exists u_none.
Qed.

(** Statistics, for the log and for the pages. *)
Lemma idle_crawler_Stats : idle patient crawler_Stats.
Proof.
  unfold crawler_Stats. apply idle_bind; [|intros ?; apply idle_bind; [|intros [[??] ?]; apply idle_bind;
    [|intros [[[??] ?] ?]; apply idle_bind; [|intros [??]; apply idle_bind; [apply idle_gets|done]]]]].
  - apply idle_in_workers; [intros w o HI; exists u_none; split; [destruct HI; by constructor|done]|].
    by apply keeps_apart; [|intros m w s; apply same_resources_inv|right|right].
  - apply idle_ready; [solve_waits|]. by repeat (eapply prog_ok_bind with (Q := λ _, True); [by apply prog_ok_gets|intros ? _]).
  - apply idle_stops.
    + unfold Worker.Stats. repeat (eapply owes_bind; [apply works_read|intros ? ? ->]).
      eapply owes_bind; [apply works_in_queue; intros ??; apply holds_Size|]. by intros ? ? (? & -> & ->).
    + unfold Worker.Stats. repeat (eapply owes_bind; [apply stops_read|intros ? ? ->]).
      eapply owes_bind; [apply stops_in_queue, locks_Size|]. by intros ? ? ->.
  - apply owes_select; [by right|]. intros c o res HI (fails & -> & _)%list_elem_of_fmap. by exists u_none.
Qed.

Lemma idle_printStats ticks : idle patient (printStats ticks).
Proof.
  apply (owes_for_each _ _ _ _ (λ _, u_none)). intros x l. apply idle_bind; [apply idle_crawler_Stats|done].
Qed.

Lemma idle_signals : idle patient signals.
Proof.
  apply owes_select; [done|]. intros c o res [H1 H2] ->%list_elem_of_singleton. exists u_none. split; [|done].
  split; [destruct H1; by constructor|destruct H2; by constructor].
Qed.

(** ** Requests *)

Lemma idle_db_query {A : Type} (op : Storage → outcome db_error A) :
  (∀ s, returns (op s)) → idle patient (db_query op).
Proof.
  intros Hop. apply owes_checked. intros c o _. specialize (Hop (ww_db (c_workers c))).
  by destruct (op (ww_db (c_workers c))).
Qed.

Lemma query_rows_returns {A B : Type} fails k (f : A → B) rows : returns (query_rows fails k f rows).
Proof.
  unfold query_rows, scan_rows, driver. destruct (fails k); [done|]. cbn. by destruct (read_rows _ _ _ _) as [? []].
Qed.

Lemma GetTorrent_returns fails x s : returns (GetTorrent fails x s).
Proof. unfold GetTorrent, driver. by destruct (calls _ _ 0%nat). Qed.

(** [solve_idle] walks a handler. *)
Ltac solve_idle :=
  repeat first
    [ apply idle_crawler_Stats
    | apply idle_gets
    | apply idle_db_query; intros ?; first [apply query_rows_returns | apply GetTorrent_returns]
    | done
    | apply idle_bind; intros
    | case_match ].

Lemma idle_serve fails r : idle patient (serve fails r).
Proof.
  unfold serve. destruct (route (rq_Path r)) as [[]|]; [..|done]; cbn [handle];
    unfold handleHome, handleSearch, handleAPISearch, handleAPIStats, handleAPIRecent, handleAPIPopular, handleSitemap,
      handleTorrent, handleAPITorrent, db_read; solve_idle.
Qed.

Lemma idle_go (p : prog Crawler unit) :
  idle patient p → idle patient (go p).
Proof.
  intros Hp. exists u_none, u_none. split_and!; [done| |done]. eapply owes_mono; [exact Hp|]. by intros _ ? ->.
Qed.

Lemma idle_listen fails requests : idle patient (listen fails requests).
Proof.
  induction requests as [|r requests IH]; [done|]. cbn [listen]. apply idle_bind.
  - apply owes_select; [done|]. intros c o res HI Ho.
    destruct (ww_done (c_workers c)); rewrite elem_of_cons in Ho; destruct Ho as [->|Ho];
      try (by exists u_none); [apply list_elem_of_singleton in Ho as ->; by exists u_none|by apply elem_of_nil in Ho].
  - intros []; [|done]. apply idle_bind; [|intros _; exact IH]. apply idle_go.
    apply idle_bind; [apply idle_serve|done].
Qed.

(** ** The main goroutine *)

Definition over (p : prog Crawler unit) : Prop := p = Ret tt.

Lemma Flush_never_waits : never_waits Flush.
Proof. unfold Flush. solve_waits. by split. Qed.

Lemma Add_never_waits x : never_waits (Cache.Add x).
Proof. pose proof Flush_never_waits. unfold Cache.Add. solve_waits. Qed.

(** Where [Run] may wait: for an event as long as the context runs, and for the mutex. *)
Definition main_waits (m : account) (c : Crawler) : Prop :=
  ww_done (c_workers c) = false ∨ waits_mutex m.2 (c_workers c).

Abbreviation patiently := (λ m c, patient (snd (m : account)) (c_workers c)).
Abbreviation guides ending p r Q := (leads run_inv worker_panic patiently gone main_waits ending p r Q).

(** What [Start] of the worker pool gets. *)
Definition pool_account : account := ((0%nat, ∅, 0%nat, 1%nat, Z.to_nat numWorkers), (0%nat, ∅, 1%nat, 0%nat)).

Lemma guides_idle {A : Type} (p : prog Crawler A) : idle waits_mutex p → guides never p u_none (λ _ r', r' = u_none).
Proof. apply leads_owes; [by right|intros m c; apply mutex_patient]. Qed.

Lemma guides_go {B : Type} ending (p : prog Crawler unit) (f : unit → prog Crawler B) r Q :
  idle patient p → guides ending (f tt) r Q → guides ending (go p ≫= f) r Q.
Proof.
  intros Hp Hf. exists u_none, r. split_and!; [by rewrite (left_id u_none u_add)| |exact Hf].
  eapply owes_mono; [exact Hp|]. by intros _ ? ->.
Qed.

Lemma guides_processEvent event : event_ok event → guides never (processEvent event) u_none (λ _ r', r' = u_none).
Proof.
  intros Hev. assert (∀ x, idle waits_mutex (in_cache (Cache.Add x))) as Hadd.
  { intros x. apply idle_ready; [apply Add_never_waits|apply cache_calm_Add]. }
  unfold processEvent. destruct (ev_Type event).
  - eapply leads_bind; [apply guides_idle, Hadd|]. intros _ ? ->.
    eapply leads_bind; [by apply guides_idle, idle_modify|]. intros _ ? ->.
    eapply leads_bind; [apply guides_idle|].
    + unfold submit_ports. apply idle_bind; [apply idle_Submit|]. intros _.
      apply (owes_for_each _ _ _ _ (λ _, u_none)). intros port l. destruct (port =? _); [done|].
      apply idle_bind; [apply idle_Submit|done].
    + intros _ ? ->. apply (guides_go _ _ Ret); [|done]. apply idle_search, Hev.
  - apply guides_idle. repeat (apply idle_bind; [|intros _]); [apply Hadd|by apply idle_modify|apply idle_Submit|done].
Qed.

Lemma guides_event_turn : guides never event_turn u_none (λ _ r', r' = u_none).
Proof.
  unfold event_turn.
  eapply (leads_bind _ _ _ _ _ _ _ _ _ (λ ev r', r' = u_none ∧ match ev with Some (Some e) => event_ok e | _ => True end)).
  - split.
    + intros c o _ [E _]%app_eq_nil. left. by destruct (ww_done (c_workers c)).
    + intros c o res [HI HS] [Hin|Hin]%elem_of_app.
      * destruct (ww_done (c_workers c)); [|by apply elem_of_nil in Hin].
        apply list_elem_of_singleton in Hin as ->. right. by exists u_none.
      * apply list_elem_of_fmap in Hin as ([ev ch] & -> & Hin). cbn [fst snd].
        destruct (next_event_ok _ n_pos _ ev ch (wi_pool _ _ _ _ _ _ HI) Hin) as [Hp He].
        right. exists u_none. split; [|by split; [|destruct ev]].
        split; [destruct HI; by constructor|by eapply same_resources_inv, HS].
  - intros [[ev|]|] ? [-> Hev]; [|done..].
    eapply leads_bind; [by apply guides_processEvent|]. by intros _ ? ->.
Qed.

Lemma guides_event_loop : guides never event_loop u_none (λ _ r', r' = u_none).
Proof.
  apply (leads_forever _ _ _ _ _ _ (λ r', r' = u_none)); [done|]. intros ? ->.
  eapply leads_mono_end; [apply guides_event_turn|]. by intros [].
Qed.

Lemma idle_close_storage e : idle e (modify close_storage).
Proof.
  eapply owes_modify; [|done]. intros c o [H1 H2]. split; [destruct H1; by constructor|destruct H2; by constructor].
Qed.

(** The event channel is open until [Run] itself closes it. *)
Lemma guides_shutdown : guides over shutdown u_none (λ _ _, True).
Proof.
  unfold shutdown. eapply leads_bind; [apply guides_idle, idle_ready; [apply Flush_never_waits|apply cache_calm_Flush]|].
  intros _ ? ->. eapply leads_bind; [apply guides_idle, idle_close_storage|]. intros _ ? ->. intros c o [HI _].
  destruct (wi_pool _ _ _ _ _ _ HI) as [_ Hp]. destruct (ni_events _ (Hp 0%nat n_pos)) as (_ & Ho & _). cbn in Ho.
  cbn. unfold close_chan. rewrite Ho. cbn. by left.
Qed.

Lemma runs_Start : runs patient (in_workers Worker.Start) pool_account (λ _, gone).
Proof.
  eapply owes_excuse; [|eapply owes_mono; [exact (owes_both _ _ _ _ _ _ _ _ _ _ _ _
    (crawls_in_workers _ _ _ _ _ _ _ (works_Start h n numWorkers perWorker perWorker_pos))
    (keeps_lift stop_inv patient empty_handed c_workers set_world _ _ _ (λ _ _, eq_refl)
      (keeps_owes _ _ _ _ _ _ _ _ waits_patient stops_Start)))|]].
  - by intros m c [_ He].
  - by intros _ m [H1 H2].
Qed.

Lemma idle_flusher flushes : idle patient (in_cache (StartFlusher flushes)).
Proof. eapply owes_excuse; [|apply idle_in_cache, cache_calm_StartFlusher]. by right. Qed.

Lemma guides_run flushes prints : guides over (run_started flushes prints) pool_account (λ _ _, True).
Proof.
  unfold run_started. apply guides_go; [apply idle_flusher|].
  exists pool_account, u_none. split_and!; [by rewrite (comm u_add), (left_id u_none u_add)|apply runs_Start|].
  apply (guides_go _ (printStats prints)); [apply idle_printStats|].
  eapply leads_bind; [apply guides_event_loop|]. intros [] ? ->; [apply guides_shutdown|done].
Qed.
End run.

(** ** The loops can be left *)

Abbreviation ended_run := (λ c, ww_done (c_workers c) = true).

Lemma quits_in_workers {A : Type} (p : prog Workers A) : quits ended_context p → quits ended_run (in_workers p).
Proof. by apply quits_lift. Qed.

Lemma quits_Flush stopped : quits stopped Flush.
Proof. unfold Flush, db_InsertHashes. solve_quits. Qed.
#[export] Hint Resolve quits_Flush : quits.

Lemma quits_cache_Add stopped x : quits stopped (Cache.Add x).
Proof. unfold Cache.Add. solve_quits. Qed.
#[export] Hint Resolve quits_cache_Add : quits.

Lemma quits_submit_peers stopped x k peers : quits stopped (submit_peers x k peers).
Proof. revert k. induction peers as [|a l IH]; intros k; [exact I|]. cbn [submit_peers]. unfold in_workers. solve_quits. Qed.
#[export] Hint Resolve quits_submit_peers : quits.

Lemma quits_processEvent stopped event : quits stopped (processEvent event).
Proof.
  unfold processEvent, submit_ports, searchAndDownload, search_body, give_search, in_workers, in_cache, dht_FindPeers,
    at_search, db_TorrentExists. solve_quits.
Qed.
#[export] Hint Resolve quits_processEvent : quits.

(** The event loop leaves when the context has ended. *)
Lemma quits_event_loop : quits ended_run event_loop.
Proof.
  apply quits_forever.
  - intros c Hc. right. exists (Ok (None, c)). rewrite Hc. split; [apply list_elem_of_here|exact I].
  - unfold event_turn, next_event. solve_quits.
Qed.
#[export] Hint Resolve quits_event_loop : quits.

Lemma quits_crawler_Stats stopped : quits stopped crawler_Stats.
Proof.
  unfold crawler_Stats, in_dht, in_workers, in_cache, Cache.Stats, Worker.Stats, db_Stats, in_queue, Size, Lock, Unlock.
  solve_quits.
Qed.
#[export] Hint Resolve quits_crawler_Stats : quits.

Lemma quits_run_started flushes prints : quits ended_run (run_started flushes prints).
Proof.
  unfold run_started, StartFlusher, printStats, shutdown, in_dht. pose proof (quits_in_workers _ quits_Start).
  unfold in_cache. solve_quits.
Qed.
#[export] Hint Resolve quits_run_started : quits.

Section requests.
Context `{Engine}.

Lemma quits_serve stopped fails r : quits stopped (serve fails r).
Proof.
  unfold serve. destruct (route (rq_Path r)) as [[]|]; cbn [handle];
    unfold handleHome, handleSearch, handleAPISearch, handleAPIStats, handleAPIRecent, handleAPIPopular, handleSitemap,
      handleTorrent, handleAPITorrent, db_read, db_query; solve_quits.
Qed.
#[local] Hint Resolve quits_serve : quits.

Lemma quits_listen stopped fails requests : quits stopped (listen fails requests).
Proof. induction requests as [|r requests IH]; [exact I|]. cbn [listen]. solve_quits. Qed.
#[local] Hint Resolve quits_listen : quits.

Lemma quits_main_run requests fails resolve can_listen reads ticks rotations stat_ticks flushes prints :
  quits ended_run (main_run requests fails resolve can_listen reads ticks rotations stat_ticks flushes prints).
Proof. unfold main_run, signals, Run, in_start. solve_quits. Qed.
End requests.
