(* ===== verification/ProgramSpec.v ===== *)
(** * The whole program, from its start

    [main] with every goroutine it and its components start, in all interleavings: while
    the nodes start, the others run already.  The two accounts of Program.v are kept
    together with that of PoolStart.v, which says which nodes run; until all do, the
    former do not speak of the nodes.  Two things hold of the program: its downloads stay
    exclusive, and when the context has ended [main] can return from wherever the run is. *)

From stdpp Require Import gmultiset.
From S2P Require Import Prelude GoStd Net Conc Credit Progress Accounts Bencode NodeID Krpc Node NodeSpec Pool PoolStart Metadata MetadataSpec.
From S2P Require Import Storage Cache Queue Worker WorkerSpec Shutdown Crawler CrawlerSpec Web Template Pages PagesSpec Main Program.

#[local] Arguments disj_union : simpl never.
#[local] Arguments gmultiset_disj_union : simpl never.
#[local] Arguments multiplicity : simpl never.

(** ** From the start

    Before the nodes run, the account of the running crawler is kept with nodes that do run
    in their place ([mask_nodes]); the account of PoolStart.v says which of them run.  When
    all do, [main] knows it, and with it the goroutines it starts from then on. *)

Definition start_view (c : Crawler) : Starting := (ww_pool (c_workers c), c_start c).

Definition mask_pool (n : nat) (p : Pool) : Pool := set_nodes (replicate n sample_world) (make_chan 1) p.
Definition mask_workers (n : nat) (w : Workers) : Workers := set_search (mask_pool n (ww_pool w)) (ww_searches w) w.
Definition mask_nodes (n : nat) (c : Crawler) : Crawler := set_world (mask_workers n (c_workers c)) c.

Lemma mask_pool_run n p : pool_inv n (mask_pool n p).
Proof.
  split; [apply length_replicate|]. intros i Hi. unfold node_world. cbn.
  rewrite lookup_total_replicate_2 by done. apply node_inv_set_events; [apply sample_world_inv|].
  split_and!; [cbn; lia|done|constructor].
Qed.

(** What happens outside the program: time passes, and others change the database. *)
Definition set_time (t : Z) (c : Crawler) : Crawler :=
  let w := c_workers c in
  set_start (set_clocks t (start_view c)).1 (c_start c) (set_world (set_env (ww_done w) (ww_wg w) t w) c).
Definition set_db (s : Storage) (c : Crawler) : Crawler :=
  set_world (set_queue (ww_queue (c_workers c)) s (c_workers c)) c.

Inductive program_env : config Crawler → config Crawler → Prop :=
  | program_time t c pool : program_env (c, pool) (set_time t c, pool)
  | program_database s c pool : program_env (c, pool) (set_db s c, pool).

(** *** Programs that do not touch the nodes *)

(** They neither see nor change the nodes and the variables of the pool's [Start]. *)
Definition quiet {A : Type} (n : nat) (p : prog Crawler A) : Prop := blind (mask_nodes n) p ∧ frames start_view p.

Lemma quiet_ret {A : Type} n (a : A) : quiet n (Ret a).
Proof. done. Qed.

Lemma quiet_bind {A B : Type} n (p : prog Crawler A) (f : A → prog Crawler B) :
  quiet n p → (∀ a, quiet n (f a)) → quiet n (p ≫= f).
Proof.
  intros [H1 H2] Hf. split; [apply blind_bind; [done|]|apply frames_bind; [done|]]; intros a; apply Hf.
Qed.

Lemma quiet_gets {A : Type} n (f : Crawler → A) : (∀ c, f (mask_nodes n c) = f c) → quiet n (gets f).
Proof. split; [by apply blind_gets|apply frames_gets]. Qed.

Lemma quiet_db_query {A : Type} n (op : Storage → outcome db_error A) : quiet n (db_query op).
Proof. split; [by apply blind_checked|apply frames_checked]. Qed.

Lemma quiet_go n (p : prog Crawler unit) : quiet n p → quiet n (go p).
Proof. intros [H1 H2]. by split. Qed.

(** A goroutine of the worker pool that leaves its nodes alone. *)
Lemma quiet_in_workers {A : Type} n (p : prog Workers A) :
  blind (mask_workers n) p → frames ww_pool p → quiet n (in_workers p).
Proof.
  intros Hb Hf. split; [by eapply (blind_lift _ (mask_workers n))|].
  eapply (frames_lift_part _ ww_pool); [|exact Hf]. intros w c E. unfold start_view. cbn. by rewrite E.
Qed.

Lemma quiet_in_queue {A : Type} n (p : prog QueueWorld A) : blind (mask_workers n) (in_queue p) ∧ frames ww_pool (in_queue p).
Proof. split; [by eapply (blind_lift _ id); [..|apply blind_id]|by apply frames_lift]. Qed.

Lemma quiet_in_cache {A : Type} n (p : prog CacheWorld A) : quiet n (in_cache p).
Proof. split; [by eapply (blind_lift _ id); [..|apply blind_id]|by apply frames_lift]. Qed.

Lemma quiet_Worker_Stats n : quiet n (in_workers Worker.Stats).
Proof.
  unfold Worker.Stats. apply quiet_in_workers.
  - do 3 (apply blind_bind; [by apply blind_gets|intros ?]). apply blind_bind; [apply quiet_in_queue|done].
  - do 3 (apply frames_bind; [apply frames_gets|intros ?]). apply frames_bind; [apply (quiet_in_queue 0)|done].
Qed.

Lemma quiet_pool_Stats n : quiet n (in_dht pool_Stats).
Proof.
  apply quiet_in_workers.
  - eapply (blind_lift _ (mask_pool n)); [done..|]. by apply blind_gets.
  - eapply (frames_lift_part _ id); [|apply frames_gets]. by intros p w E.
Qed.

Lemma quiet_crawler_Stats n : quiet n crawler_Stats.
Proof.
  unfold crawler_Stats. apply quiet_bind; [apply quiet_pool_Stats|]. intros ?.
  apply quiet_bind; [apply quiet_in_cache|]. intros [[??] ?].
  apply quiet_bind; [apply quiet_Worker_Stats|]. intros [[[??] ?] ?].
  apply quiet_bind; [|intros [??]; apply quiet_bind; [by apply quiet_gets|done]].
  split; (split; [|done]); [done|]. intros c b c' (fails & [= -> ->] & _)%list_elem_of_fmap. done.
Qed.

(** [solve_quiet] walks a handler. *)
Ltac solve_quiet :=
  repeat first
    [ apply quiet_crawler_Stats
    | by apply quiet_gets
    | apply quiet_db_query
    | apply quiet_ret
    | apply quiet_bind; intros
    | case_match ].

Lemma quiet_serve `{Engine} n fails r : quiet n (serve fails r).
Proof.
  unfold serve. destruct (route (rq_Path r)) as [[]|]; [..|done]; cbn [handle];
    unfold handleHome, handleSearch, handleAPISearch, handleAPIStats, handleAPIRecent, handleAPIPopular, handleSitemap,
      handleTorrent, handleAPITorrent, db_read; solve_quiet.
Qed.

Lemma quiet_listen `{Engine} n fails requests : quiet n (listen fails requests).
Proof.
  induction requests as [|r requests IH]; [done|]. cbn [listen]. apply quiet_bind.
  - split; (split; [|done]).
    + intros c. cbn. by destruct (ww_done (c_workers c)).
    + intros c b c' Hin. destruct (ww_done (c_workers c)); rewrite ?elem_of_cons in Hin; set_solver.
  - intros []; [|done]. apply quiet_bind; [|intros _; exact IH]. apply quiet_go, quiet_bind; [apply quiet_serve|done].
Qed.

Lemma quiet_signals n : quiet n signals.
Proof. split; (split; [|done]); [done|]. by intros c b c' [= -> ->]%list_elem_of_singleton. Qed.

(** *** Once the nodes run *)

(** The variables of [Start] are not used again. *)
Lemma frames_in_workers {A : Type} (p : prog Workers A) : frames c_start (in_workers p).
Proof. by apply frames_lift. Qed.

Lemma frames_in_cache {A : Type} (p : prog CacheWorld A) : frames c_start (in_cache p).
Proof. by apply frames_lift. Qed.

#[local] Hint Resolve frames_in_workers frames_in_cache : core.

Lemma frames_Stats : frames c_start crawler_Stats.
Proof.
  unfold crawler_Stats. apply frames_bind; [by apply frames_lift|]. intros ?. apply frames_bind; [done|]. intros [[??] ?].
  apply frames_bind; [done|]. intros [[[??] ?] ?].
  apply frames_bind; [|intros [??]; apply frames_bind; [apply frames_gets|done]].
  split; [|done]. by intros c b c' (fails & [= -> ->] & _)%list_elem_of_fmap.
Qed.

Lemma frames_search infoHash x : frames c_start (searchAndDownload infoHash x).
Proof.
  unfold searchAndDownload, search_body. apply frames_bind.
  { split; [|done]. intros c b c'. unfold take_search. destruct (c_limiter c); by intros [= <- <-]. }
  intros ok. destruct (negb ok); [done|]. apply frames_bind.
  - apply frames_bind; [done|]. intros found. destruct (default false found); [done|].
    apply frames_bind; [done|]. intros peers. apply frames_bind; [by destruct (0 <? length peers)%nat|]. intros _.
    generalize 0%nat. induction peers as [|peer peers IH]; intros k; [done|]. cbn [submit_peers].
    apply frames_bind; [done|]. intros []; [|apply IH]. destruct (3 <=? S k)%nat; [done|apply IH].
  - intros _. split; [|done]. intros c b c'. destruct (c_limiter c <? 10)%nat; [|by intros ?%elem_of_nil].
    by intros [= -> ->]%list_elem_of_singleton.
Qed.

Lemma frames_processEvent event : frames c_start (processEvent event).
Proof.
  unfold processEvent, submit_ports. destruct (ev_Type event).
  - apply frames_bind; [done|]. intros _. apply frames_bind; [by apply frames_modify|]. intros _.
    apply frames_bind; [|intros _; split; [apply frames_search|done]].
    apply frames_bind; [done|]. intros _. apply frames_for_each. intros port. destruct (port =? _); [done|].
    by apply frames_bind.
  - apply frames_bind; [done|]. intros _. apply frames_bind; [by apply frames_modify|]. intros _. by apply frames_bind.
Qed.

Lemma frames_event_loop : frames c_start event_loop.
Proof.
  split; [|done]. unfold event_turn. apply frames_bind.
  - split; [|done]. intros c b c' [Hin|Hin]%elem_of_app.
    + destruct (ww_done (c_workers c)); [|by apply elem_of_nil in Hin]. by apply list_elem_of_singleton in Hin as [= -> ->].
    + by apply list_elem_of_fmap in Hin as ([ev ch] & [= -> ->] & _).
  - intros [[event|]|]; [|done..]. apply frames_bind; [apply frames_processEvent|done].
Qed.

Lemma frames_run_started flushes prints : frames c_start (run_started flushes prints).
Proof.
  unfold run_started, printStats, shutdown.
  do 2 (apply frames_bind; [by split; [eauto|]|intros _]).
  apply frames_bind; [split; [|done]|intros _].
  { apply frames_for_each. intros ?. by apply frames_bind; [apply frames_Stats|]. }
  apply frames_bind; [apply frames_event_loop|]. intros []; [|done].
  apply frames_bind; [done|]. intros _. apply frames_bind; [by apply frames_modify|]. intros _. by apply frames_in_workers.
Qed.

Section whole.
Context `{Engine} (numWorkers perWorker : Z) (perWorker_pos : 0 ≤ perWorker) (h : bytes).
Context (resolve : bytes → option udp_addr) (can_listen : Z → bool).
Context (reads : nat → list (option (bytes * udp_addr))) (ticks : nat → list tick) (rotations : nat).
Context (reads_ok : ∀ i data addr, Some (data, addr) ∈ reads i → wf_addr addr).
Context (n : nat) (n_pos : (0 < n)%nat) (port : nat → Z).

Abbreviation account := (units * held)%type.
Abbreviation running := (run_inv n numWorkers perWorker h).
Abbreviation starting := (start_inv can_listen n port).
Abbreviation knowing := (knows (all_nodes n)).

Definition whole_inv (m : account * start_units) (c : Crawler) : Prop :=
  running m.1 (mask_nodes n c) ∧ starting m.2 (start_view c).
Definition whole_gone (m : account * start_units) : Prop := gone m.1 ∧ out m.2.
Definition whole_waits (m : account * start_units) (c : Crawler) : Prop := patient m.1.2 (c_workers c) ∧ out m.2.
Definition whole_main_waits (m : account * start_units) (c : Crawler) : Prop :=
  main_waits m.1 c ∨ start_waits m.2 (start_view c).

Abbreviation wholes p r Q := (owes whole_inv worker_panic whole_waits whole_gone p r Q).
Abbreviation whole_leads ending p r Q := (leads whole_inv worker_panic whole_waits whole_gone whole_main_waits ending p r Q).

(** *** Goroutines that do not see the nodes *)

Lemma wholes_idle {A : Type} (p : prog Crawler A) :
  owes running worker_panic (λ m c, patient m.2 (c_workers c)) gone p u_none (λ _ r, r = u_none) → quiet n p →
  wholes p u_none (λ _ r, r = u_none).
Proof.
  intros Hp [Hb Hf].
  assert (keeps (λ m c, starting m (start_view c)) (λ m _, out m) out p u_none (λ _ r, r = u_none)) as Hk.
  { apply (keeps_frames _ _ _ start_view); [|done..]. intros m c c' E. by rewrite E. }
  assert (owes (λ m c, running m (mask_nodes n c)) worker_panic (λ m c, patient m.2 (c_workers c)) gone p u_none
    (λ _ r, r = u_none)) as Ha.
  { apply (owes_blind running worker_panic (λ m c, patient m.2 (c_workers c))); [done|exact Hb|exact Hp]. }
  pose proof (owes_both _ _ _ _ _ _ _ _ _ _ _ _ Ha Hk) as Hboth.
  eapply owes_mono; [exact Hboth|]. intros _ [m z] [E1 E2]. cbn in E1, E2. by subst.
Qed.

(** *** Goroutines that know that the nodes run *)

Lemma knowing_twice : knowing ⊕ knowing = knowing.
Proof. unfold knows. cbn. by rewrite (union_idemp_L (all_nodes n)). Qed.

Lemma enter_running m o c : running m (mask_nodes n c) → starting (knowing ⊕ o) (start_view c) → running m c.
Proof.
  intros [H1 H2] H3%knows_all. split; [|by eapply same_resources_inv, H2].
  destruct H1 as [W1 W2 W3 W4 W5 W6 W7 W8 _ W10]. by constructor.
Qed.

Lemma leave_running m o c c' :
  c_start c' = c_start c → starting (knowing ⊕ o) (start_view c) → running m c' →
  running m (mask_nodes n c') ∧ starting (knowing ⊕ o) (start_view c').
Proof.
  intros E Hs [H1 H2]. split.
  - split; [|by eapply same_resources_inv, H2]. destruct H1 as [W1 W2 W3 W4 W5 W6 W7 W8 _ W10].
    constructor; try done. apply mask_pool_run.
  - unfold start_view. rewrite E. exact (start_inv_running _ _ _ _ (start_view c) _ Hs (wi_pool _ _ _ _ _ _ H1)).
Qed.

(** *** The start *)

Lemma in_start_put s c : start_view (set_start s.1 s.2 c) = s.
Proof. by destruct s. Qed.

Lemma heads_Start k :
  whole_leads never (in_start (pool_Start resolve can_listen reads ticks rotations k)) (pool_account numWorkers, unmade n)
    (λ err r, r.1 = pool_account numWorkers ∧ ∃ es, r.2 = after_start n es ∧ err = start_result es).
Proof.
  pose proof (heads_pool_Start resolve can_listen reads ticks rotations reads_ok n port k) as Hp.
  eapply (leads_view _ _ worker_panic (λ x Hx, or_introl Hx) _ _ _ start_view (λ s c, set_start s.1 s.2 c) in_start_put) in Hp.
  assert (keeps (λ m c, running m (mask_nodes n c)) (λ _ _, True) gone
    (in_start (pool_Start resolve can_listen reads ticks rotations k)) (pool_account numWorkers)
    (λ _ r, r = pool_account numWorkers)) as Hk.
  { apply keeps_apart; [done| |done..]. intros m c s [H1 H2]. split; [|by eapply same_resources_inv, H2].
    destruct H1 as [W1 W2 W3 W4 W5 W6 W7 W8 _ W10]. constructor; try done. apply mask_pool_run. }
  eapply leads_mono; [| |exact (leads_both_r _ _ _ _ _ whole_waits _ _ _ _ _ _ Hk Hp)].
  - by right.
  - by intros err [m z] [E1 E2].
Qed.

(** *** The rest of [Run] *)

Lemma after_start_none : after_start n [] = knowing ⊕ after_start n [].
Proof. unfold after_start, knows. rewrite decide_True by done. cbn. by rewrite (left_id_L ∅ disj_union), (union_idemp_L (all_nodes n)). Qed.

Lemma heads_run_started flushes prints :
  whole_leads over (run_started flushes prints) (pool_account numWorkers, after_start n []) (λ _ _, True).
Proof.
  pose proof (guides_run n numWorkers perWorker perWorker_pos n_pos h flushes prints) as Hg.
  eapply (leads_known running (λ m c, running m (mask_nodes n c)) (λ z c, starting z (start_view c)) worker_panic
    c_start knowing (λ m c, patient m.2 (c_workers c)) gone whole_waits whole_gone knowing_twice enter_running) in Hg.
  - eapply leads_mono; [done|done|exact Hg].
  - intros m o c c' E. by apply leave_running.
  - apply after_start_none.
  - intros m z c [->| ->] Hm; by split.
  - by intros m Hm.
  - intros m c Hm. by left.
  - apply frames_run_started.
Qed.

(** A goroutine that [main] starts before. *)
Lemma heads_go {A : Type} ending (q : prog Crawler unit) (f : unit → prog Crawler A) r Q :
  wholes q u_none (λ _ r', r' = u_none) → whole_leads ending (f tt) r Q → whole_leads ending (go q ≫= f) r Q.
Proof.
  intros Hq Hf. exists u_none, r. split_and!; [by rewrite (left_id u_none u_add)| |exact Hf].
  eapply owes_mono; [exact Hq|]. by intros _ ? ->.
Qed.

Lemma heads_NewServer r :
  whole_leads never (Conc.checked (λ c, NewServer (cfg_WebPort (c_config c)))) r (λ _ r', r' = r).
Proof.
  apply (leads_owes _ _ _ _ _ (λ _ _, False)); [done..|]. apply owes_checked. intros c o _.
  by destruct (NewServer_Ok (cfg_WebPort (c_config c))) as [t ->].
Qed.

Lemma heads_main requests fails stat_ticks flushes prints :
  whole_leads over (main_run requests fails resolve can_listen reads ticks rotations stat_ticks flushes prints)
    (pool_account numWorkers, unmade n) (λ _ _, True).
Proof.
  unfold main_run. apply heads_go; [apply wholes_idle; [apply idle_signals|apply quiet_signals]|].
  eapply (leads_bind _ _ _ _ _ _ _ _ _ (λ _ r, r = (pool_account numWorkers, unmade n))).
  { intros c o HI. right. by exists (pool_account numWorkers, unmade n). }
  intros enabled ? ->. eapply (leads_bind _ _ _ _ _ _ _ _ _ (λ _ r, r = (pool_account numWorkers, unmade n))).
  { destruct enabled; [|done]. eapply leads_bind; [apply heads_NewServer|]. intros server ? ->.
    apply (heads_go _ _ Ret); [|done]. apply wholes_idle; [apply idle_listen|apply quiet_listen]. }
  intros [] ? ->. unfold Run. eapply (leads_bind_end _ _ _ _ _ (λ p, p = Ret None) over _ _ _ (λ _ _, True)).
  { by intros q ->. }
  - eapply leads_bind; [apply heads_Start|]. intros err [m z] [E (es & Ez & Ee)]. cbn in E, Ez. subst.
    destruct es as [|e es]; [|done]. cbn [start_result].
    eapply (leads_bind_end _ _ _ _ _ over); [by intros q ->|apply heads_run_started|done].
  - done.
Qed.

(** *** A program that cannot go on *)

(** Without the mutex and outside the nodes' group. *)
Definition unbound (m : account * start_units) : Prop := m.1.2.1.1.1 = 0%nat ∧ out m.2.

Lemma unbound_add x m : unbound x → unbound m → unbound (x ⊕ m).
Proof.
  destruct x as [[a [[[l1 l2] l3] l4]] z], m as [[a' [[[l1' l2'] l3'] l4']] z']. intros [H1 H2] [H3 H4].
  cbn [fst snd] in *. split; [|exact (out_add z z' H2 H4)]. subst. done.
Qed.

Lemma unbound_total rs : Forall unbound rs → unbound (u_total rs).
Proof. induction 1 as [|x rs Hx _ IH]; [done|]. exact (unbound_add x (u_total rs) Hx IH). Qed.

(** Then [main] waits for the nodes' group or for the mutex, and the others are not bound to
    either. *)
Lemma rests_free c rest rs r :
  ww_done (c_workers c) = true → Forall2 (rests whole_waits whole_gone c) rest rs →
  whole_inv (r ⊕ u_total rs) c → whole_main_waits r c → False.
Proof.
  intros Hd Hr [[_ HI] HS] Hm. assert (unbound (u_total rs)) as [Hlocks Hout].
  { apply unbound_total. clear HI HS Hm. induction Hr as [|p x rest rs Hx _ IH]; constructor; [|done].
    destruct Hx as [[_ [[_ [H1 _]] H2]]|[[?|H1] H2]]; [done|congruence|done]. }
  destruct Hm as [[?|[H0 Hlock]]|[Hs Hw]]; [congruence| |].
  - pose proof (si_lock _ _ HI : (r.1.2.1.1.1 + (u_total rs).1.2.1.1.1)%nat =
      if dq_locked (ww_queue (c_workers c)) then 1%nat else 0%nat) as E.
    by rewrite Hlock, H0, Hlocks in E.
  - apply Hw. eapply (ended_group can_listen n port (u_total rs).2 (start_view c)); [done|].
    change (starting (r.2 ⊕ (u_total rs).2) (start_view c)) in HS. by rewrite Hs in HS.
Qed.

(** The knowledge that the context has ended, held outside. *)
Definition whole_ended : account * start_units := ((u_none, ended), u_none).

Lemma whole_inv_ended m c : whole_inv (m ⊕ whole_ended) c ↔ whole_inv m c ∧ ww_done (c_workers c) = true.
Proof.
  unfold whole_inv, run_inv. destruct m as [[a b] z]. cbn [fst snd whole_ended]. change ((a, b, z) ⊕ whole_ended) with
    ((a ⊕ u_none, b ⊕ ended, z ⊕ u_none)). cbn [fst snd].
  rewrite (comm u_add a), (left_id u_none u_add), (comm u_add z), (left_id u_none u_add), stop_inv_ended.
  change (ww_done (c_workers (mask_nodes n c))) with (ww_done (c_workers c)).
  split; [by intros [[? [? ?]] ?]|by intros [[[? ?] ?] ?]].
Qed.

(** *** The outside world *)

(** A new program. *)
Lemma led_main maxSize timeout requests fails stat_ticks flushes prints c :
  new_workers n maxSize numWorkers perWorker timeout (mask_workers n (c_workers c)) →
  starting (unmade n) (start_view c) →
  led whole_inv worker_panic whole_waits whole_gone whole_main_waits over (λ _, True)
    (c, [main_run requests fails resolve can_listen reads ticks rotations stat_ticks flushes prints]).
Proof.
  intros Hw Hs. exists (main_run requests fails resolve can_listen reads ticks rotations stat_ticks flushes prints),
    (pool_account numWorkers, unmade n), [], [].
  split_and!; [done|apply heads_main|constructor|]. cbn [fst u_total foldr].
  rewrite (comm u_add), (left_id u_none u_add).
  split; [split; [by eapply new_workers_inv|by eapply new_workers_stop_inv]|exact Hs].
Qed.

Lemma program_env_inv x y : program_env x y → y.2 = x.2 ∧ ∀ m, whole_inv m x.1 → whole_inv m y.1.
Proof.
  intros [t c pool|s c pool]; (split; [done|]); intros m [[H1 H2] H3]; cbn [fst] in *.
  - split; [split; [destruct H1; by constructor|destruct H2; by constructor]|].
    exact (proj2 (starting_env_inv can_listen n port _ _ (starting_time t (start_view c) [])) _ H3).
  - split; [split; [destruct H1; by constructor|destruct H2; by constructor]|done].
Qed.
End whole.

(** ** Every interleaving *)

(** Settings with which a pool can be made: a positive number of nodes that fits in memory,
    with ports that are numbers of an [int], and random numbers below the distance of two
    nodes. *)
Record settings_ok (rand_ids : rand_source) (cfg : Crawler.Config) : Prop := mkSettingsOk {
  so_rand : ∀ i, ∃ r, rand_ids i = Ok r ∧ 0 ≤ r < 2 ^ 160 / cfg_NodeCount cfg;
  so_count : 0 < cfg_NodeCount cfg;
  so_memory : cfg_NodeCount cfg * 64000 ≤ maxAlloc;
  so_ports : 0 ≤ cfg_StartPort cfg ∧ cfg_StartPort cfg + cfg_NodeCount cfg ≤ 2 ^ 63;
  so_perWorker : 0 ≤ cfg_DownloadPerWorker cfg;
}.

Abbreviation node_count cfg := (Z.to_nat (cfg_NodeCount cfg)).
Abbreviation node_port cfg := (λ i : nat, cfg_StartPort cfg + Z.of_nat i).

Lemma New_config store rand_ids secret rnd dials now cfg made :
  New store rand_ids secret rnd dials now cfg = Ok made → c_config made = cfg.
Proof.
  unfold New. destruct store as [s|]; [|done]. destruct (NewPool _ _ _ _ _ _ _); try done.
  cbn [map_err mbind outcome_bind]. destruct (NewDownloadQueue _); try done.
  destruct (NewWorkerPool _ _ _); try done. by intros [= <-].
Qed.

(** The crawler [New] makes. *)
Lemma New_can_start store rand_ids secret rnd dials now cfg made :
  New store rand_ids secret rnd dials now cfg = Ok made → settings_ok rand_ids cfg →
  (∃ maxSize, new_workers (node_count cfg) maxSize (cfg_DownloadWorkers cfg) (cfg_DownloadPerWorker cfg)
    (cfg_DownloadTimeout cfg) (mask_workers (node_count cfg) (c_workers made))) ∧
  ∀ can_listen, start_inv can_listen (node_count cfg) (node_port cfg) (unmade (node_count cfg)) (start_view made).
Proof.
  intros Hnew [Hr Hc Hm [Hp1 Hp2] HP]. revert Hnew. unfold New. destruct store as [s|]; [|done].
  destruct (NewPool _ _ _ _ _ _ _) as [pool| | |] eqn:Ep; try done. cbn [map_err mbind outcome_bind].
  set (size := wrapS 64 _). destruct (NewDownloadQueue size) as [queue| | |] eqn:Eq; try done.
  destruct (NewWorkerPool _ _ _) as [pool'| | |] eqn:Ew; try done. intros [= <-]. split.
  - exists size. constructor; try done. apply mask_pool_run.
  - intros can_listen. by eapply NewPool_start_inv.
Qed.

Section theorems.
Context `{Engine}.
(** The outside world of a run of the program, and its command line. *)
Context (requests : list request) (fails : request → nat → faults).
Context (read_file : bytes → option bytes) (unmarshal : bytes → Main.Config → Main.Config * bool).
Context (store : bytes → option Storage) (rand_ids : rand_source) (secret : nat → bytes) (rnd : nat → nat → bytes).
Context (dials : bytes → nat → option Conn) (now : Z) (resolve : bytes → option udp_addr) (can_listen : Z → bool).
Context (reads : nat → list (option (bytes * udp_addr))) (ticks : nat → list tick) (rotations stat_ticks flushes prints : nat).
Context (fl : flags) (start : config Crawler).
Hypothesis reads_ok : ∀ i data addr, Some (data, addr) ∈ reads i → wf_addr addr.
Hypothesis main_starts : main requests fails read_file unmarshal store rand_ids secret rnd dials now resolve can_listen
  reads ticks rotations stat_ticks flushes prints fl = Ok (Some start).
Hypothesis settings : settings_ok rand_ids (c_config start.1).

Abbreviation runs_to := (rtc (λ x y, cstep x y ∨ program_env x y) start).
Abbreviation cfg := (c_config start.1).
Abbreviation leds h := (led
  (whole_inv (cfg_DownloadWorkers cfg) (cfg_DownloadPerWorker cfg) h can_listen (node_count cfg) (node_port cfg))
  worker_panic whole_waits whole_gone whole_main_waits over (λ _, True)).

(** Until [main] has ended, all goroutines keep their accounts. *)
Lemma main_led h c : runs_to c → leds h c ∨ main_ended c.
Proof.
  intros Hr. revert main_starts settings Hr. unfold main, main_crawler.
  destruct (configure read_file unmarshal fl) as [mcfg|]; [|done].
  destruct (New _ _ _ _ _ _ _) as [made| | |] eqn:Em; try done. cbn [mbind outcome_bind]. intros [= <-] Hs Hr. cbn [fst] in *.
  pose proof (New_config _ _ _ _ _ _ _ _ Em) as Ec. rewrite <- Ec in Em.
  destruct (New_can_start _ _ _ _ _ _ _ _ Em Hs) as [[maxSize Hw] Hstart].
  assert (0 < node_count (c_config made))%nat as Hn by (pose proof (so_count _ _ Hs); lia).
  destruct (reachable_led _ _ _ _ _ over (λ _ Ho, Ho) _ _ _ _
    (program_env_inv (cfg_DownloadWorkers (c_config made)) (cfg_DownloadPerWorker (c_config made)) h can_listen
       (node_count (c_config made)) (node_port (c_config made)))
    (led_main _ _ (so_perWorker _ _ Hs) h resolve can_listen reads ticks rotations reads_ok _ Hn _ _ _ requests fails
       stat_ticks flushes prints made Hw (Hstart can_listen)) Hr) as [?|[? _]]; [by left|by right].
Qed.

(** C5: in the whole program downloads are exclusive and bounded. Take [main] with
    settings that can be used, and every goroutine it and its components start: the nodes'
    loops from their binding on, the event loop with the searches it starts, the cache's
    flusher, the statistics, the worker pool, the signal handler and the web server with any
    requests, in any interleaving with the clock and changes of the database, whatever
    datagrams arrive. Until [main] ends, no hash is queued, waiting or downloaded twice at a
    time, the open connections are at most [DownloadWorkers * DownloadPerWorker], the queue
    keeps its bound, and the only panics are those the network can cause and the send at
    shutdown. *)
Theorem program_exclusive c pool :
  rtc (λ x y, cstep x y ∨ program_env x y) start (c, pool) → pool !! 0%nat ≠ Some (Ret tt) →
  NoDup (everywhere (c_workers c)) ∧
  (∀ x, x ∈ everywhere (c_workers c) → x ∈ dq_inFlight (queue_of c)) ∧
  Z.of_nat (length (ww_open (c_workers c))) ≤ Z.max 0 (cfg_DownloadWorkers cfg) * cfg_DownloadPerWorker cfg ∧
  Z.of_nat (length (dq_items (queue_of c))) ≤ dq_maxSize (queue_of c) ∧
  ∀ p, cpanics (c, pool) p → worker_panic p.
Proof.
  intros Hr Hmain. assert (∀ h, leds h (c, pool)) as Hled by (intros h; destruct (main_led h _ Hr); [done|by destruct Hmain]).
  pose proof (so_perWorker _ _ settings) as HP.
  split; [|split; [|split; [|split; [|intros x; by eapply (led_panics _ _ _ _ _ _ _ _ _ (Hled []))]]]];
    eapply (everywhere_exclusive (node_count cfg) _ _ (mask_workers (node_count cfg) (c_workers c))); try exact HP; intros h;
    destruct (Hled h) as (p & r & rest & rs & _ & _ & _ & [[HI _] _]); eexists; exact HI.
Qed.

(** The goroutines of [main] can leave their loops. *)
Lemma main_quits c : runs_to c → Forall (quits ended_run) c.2.
Proof.
  intros Hr. eapply (rtc_quits _ program_env); [|exact Hr|]; [intros x y Hxy; by destruct Hxy|].
  revert main_starts. unfold main. destruct (main_crawler _ _ _ _ _ _ _ _ _) as [[made|]| | |]; try done.
  intros [= <-]. constructor; [apply quits_main_run|constructor].
Qed.

(** C6: the program stops when it is told to. Take [main] with settings that can be used
    and every goroutine it and its components start, in any interleaving in which the
    context has ended, if only while the nodes are still being started. From there, however
    the run has gone on, [main] can be brought to its end, unless the process panics in one
    of the ways it can: the event loop and the other endless loops are left, and neither the
    start of the nodes, a search, a request, the statistics nor a worker keeps [main]
    waiting for ever. *)
Theorem main_returns c pool :
  rtc (λ x y, cstep x y ∨ program_env x y) start (c, pool) → ww_done (c_workers c) = true →
  ∃ c' pool', rtc cstep (c, pool) (c', pool') ∧
    (pool' !! 0%nat = Some (Ret tt) ∨ ∃ p, cpanics (c', pool') p ∧ worker_panic p).
Proof.
  intros Hr Hd. destruct (main_led [] _ Hr) as [Hled|?]; [|exists c, pool; split; [constructor|by left]].
  apply (led_outside _ _ _ _ _ _ _ whole_ended) in Hled; [|intros m HI; by apply whole_inv_ended].
  assert (∀ m s, whole_inv (cfg_DownloadWorkers cfg) (cfg_DownloadPerWorker cfg) [] can_listen (node_count cfg) (node_port cfg)
    (m ⊕ whole_ended) s → ended_run s) as Hstop by (by intros m s [_ ?]%whole_inv_ended).
  destruct (led_exits _ _ _ _ _ over (λ _ Ho, Ho) _ ended_run Hstop _ Hled (main_quits _ Hr)) as ([c' pool'] & Hr' & Hend).
  exists c', pool'. split; [exact Hr'|]. destruct Hend as [?|[[p Hp]|(r & rs & Hm & Hrest & HI)]]; [by left| |].
  - assert (runs_to (c', pool')) as Hr2 by (etrans; [exact Hr|]; by apply (rtc_subrel cstep); [left|]).
    destruct (main_led [] _ Hr2) as [Hled2|?]; [|by left]. right. exists p. split; [done|].
    exact (led_panics _ _ _ _ _ _ _ _ _ Hled2 Hp).
  - apply whole_inv_ended in HI as [HI Hd']. by edestruct rests_free.
Qed.
End theorems.

(** One node and one worker; a request is waiting, and a signal arrives at once. *)
Definition small_config : Main.Config :=
  mkMainConfig (mkDHTConfig 1 6881 []) (mkCacheConfig 1000 (bs "30s")) (mkDownloadConfig 1 1 (bs "15s"))
    (mkStorageConfig (bs "crawler.db")) (mkWebConfig 8085 true).

Definition small_main `{Engine} : outcome crawler_error (option (config Crawler)) :=
  main [mkRequest (bs "/api/stats") []] (λ _ _, no_faults) (λ _, Some []) (λ _ _, (small_config, true))
    (λ _, Some (mkStorage ∅ ∅ false true)) (λ i, Ok (Z.of_nat i mod 2)) (λ _, []) (λ _ _, []) (λ _ _, None) 0
    no_resolver (λ _, true) (λ _, []) (λ _, []) 0 0 3 3 no_flags.

Definition small_start `{Engine} : config Crawler :=
  match small_main with Ok (Some start) => start | _ => (sample_crawler, []) end.

Lemma small_settings `{Engine} : settings_ok (λ i, Ok (Z.of_nat i mod 2)) (c_config small_start.1).
Proof.
  assert (c_config small_start.1 = toCrawlerConfig small_config) as -> by (vm_compute; reflexivity).
  constructor; cbn; [|lia|vm_compute; discriminate|lia|lia].
  intros i. exists (Z.of_nat i mod 2). split; [done|]. rewrite Z.div_1_r.
  pose proof (Z.mod_pos_bound (Z.of_nat i) 2 ltac:(lia)). lia.
Qed.

Lemma small_signal : ∃ pool,
  rtc (λ x y, cstep x y ∨ program_env x y) small_start (cancel_context small_start.1, pool) ∧
  pool !! 0%nat ≠ Some (Ret tt).
Proof.
  eexists. split.
  - eapply rtc_l; [left; eapply (cstep_fork _ _ 0%nat); reflexivity|].
    eapply rtc_l; [left; eapply (cstep_select _ _ 1%nat); [reflexivity|apply list_elem_of_here]|]. apply rtc_refl.
  - discriminate.
Qed.

Lemma program_exclusive_witness : ∃ pool,
  rtc (λ x y, cstep x y ∨ program_env x y) small_start (cancel_context small_start.1, pool) ∧
  NoDup (everywhere (c_workers (cancel_context small_start.1))) ∧
  ∀ p, cpanics (cancel_context small_start.1, pool) p → worker_panic p.
Proof.
  destruct small_signal as (pool & Hr & Hm). exists pool. split; [exact Hr|].
  destruct (program_exclusive [mkRequest (bs "/api/stats") []] (λ _ _, no_faults) (λ _, Some []) (λ _ _, (small_config, true))
    (λ _, Some (mkStorage ∅ ∅ false true)) (λ i, Ok (Z.of_nat i mod 2)) (λ _, []) (λ _ _, []) (λ _ _, None) 0
    no_resolver (λ _, true) (λ _, []) (λ _, []) 0 0 3 3 no_flags small_start) with (c := cancel_context small_start.1)
    (pool := pool) as (H1 & _ & _ & _ & H2); [|reflexivity|exact small_settings|exact Hr|exact Hm|by split].
  intros i data addr Hin. inversion Hin.
Defined.

Lemma main_returns_witness : ∃ pool,
  rtc (λ x y, cstep x y ∨ program_env x y) small_start (cancel_context small_start.1, pool) ∧
  ∃ c' pool', rtc cstep (cancel_context small_start.1, pool) (c', pool') ∧
    (pool' !! 0%nat = Some (Ret tt) ∨ ∃ p, cpanics (c', pool') p ∧ worker_panic p).
Proof.
  destruct small_signal as (pool & Hr & _). exists pool. split; [exact Hr|].
  apply (main_returns [mkRequest (bs "/api/stats") []] (λ _ _, no_faults) (λ _, Some []) (λ _ _, (small_config, true))
    (λ _, Some (mkStorage ∅ ∅ false true)) (λ i, Ok (Z.of_nat i mod 2)) (λ _, []) (λ _ _, []) (λ _ _, None) 0
    no_resolver (λ _, true) (λ _, []) (λ _, []) 0 0 3 3 no_flags small_start) with (c := cancel_context small_start.1);
    [|reflexivity|exact small_settings|exact Hr|reflexivity].
  intros i data addr Hin. inversion Hin.
Defined.
